(* ===== verification/_CoqProject ===== *)
-Q . S2P
Prelude.v
GoMem.v
Errors.v
SysExec.v
LinkNode.v
Sim.v
LinkBuffer.v
ByteQueue.v
LinkHeap.v
LinkInv.v
LinkRead.v
LinkScan.v
LinkSlice.v
LinkWrite.v
LinkFlush.v
LinkBook.v
LinkBytes.v
LinkAppend.v
LinkSpec.v
LinkTheorems.v
ReadWriter.v
ConnInput.v
Output.v
ConnOutput.v
FifoWrite.v
Threads.v
SafeLinkBuffer.v
Locker.v
FifoRead.v
SliceIO.v
OnEvent.v
OnEventInv.v
OnEventClose.v
OnEventData.v
OnEventTheorems.v
FDOperator.v
WaitRead.v
WaitReadTheorems.v
FifoReact.v
FifoProcess.v
FifoConn.v
FifoConnTheorems.v
FifoFlush.v
ShardQueue.v
ShardQueueInv.v
ShardQueueTheorems.v
WaitFlush.v
WaitFlushTheorems.v
Poll.v
PollBatch.v
PollBsd.v
Manager.v
Config.v
Server.v
EventLoop.v
NetAddr.v
ConnLife.v
PollDesc.v
NetDial.v
Listener.v
