(* ===== verification/Prelude.v ===== *)
(** * Netpoll: a verification development

    Netpoll is a Go library for non-blocking network and named-pipe (fifo)
    input and output.  This library translates its sources (src/) to Rocq and
    proves what the parts promise each other and their users.

    ** The program and the files

    A user creates an event loop (src/netpoll_unix.go), whose server
    (src/netpoll_server.go) accepts connections and whose fifo manager
    (src/fifo_manager.go) opens fifos.  Each has an FDOperator
    (src/fd_operator.go) that is registered with a poll, one of those of the
    manager (src/poll_manager.go).  The poll (src/poll_default_linux.go) waits
    for events of epoll, reads into the input buffer (inputs, inputAck), sends
    from the output buffer (outputs, outputAck) and starts the callbacks.  The
    buffers are chains of nodes (src/nocopy_linkbuffer.go).  A client dials
    (src/net_dialer.go): the addresses of a host are tried in turn, and connect
    waits for the poller (src/net_polldesc.go).

    Foundations:
    - Prelude: programs with a state that may panic ([M]), their total
      correctness ([wp]), lists indexed by Go integers; GoMem: slices of shared
      arrays; Sim: programs that correspond; Threads: interleavings of threads.

    Buffers:
    - LinkNode and LinkBuffer: src/nocopy_linkbuffer.go, one definition per
      method, over a heap of nodes; ByteQueue: the specification of Reader and
      Writer of src/nocopy.go, and the interface the clients use.
    - LinkHeap and LinkInv: the invariant of the heap and of a buffer;
      LinkRead, LinkScan, LinkSlice, LinkWrite, LinkFlush, LinkBook, LinkBytes,
      LinkAppend: the methods preserve it; LinkSpec and LinkTheorems: the
      refinement and the properties.
    - SafeLinkBuffer: src/nocopy_linkbuffer_race.go, each method as its
      statements; ReadWriter: src/nocopy_readwriter.go over any ByteQueue.

    Connections (src/connection_impl.go, src/connection_reactor.go,
    src/connection_onevent.go, src/connection_lock.go):
    - ConnInput, Output and ConnOutput: the methods over the buffer and the
      vectored system calls (SysExec: src/sys_exec.go, src/net_io.go), with the
      poller run while a method waits.
    - Locker, OnEvent with OnEventInv, OnEventClose, OnEventData and
      OnEventTheorems: callbacks and closing; WaitRead and WaitReadTheorems,
      WaitFlush and WaitFlushTheorems: waiting for the poller.  In these the
      goroutines are threads and a step is one atomic operation.
    - SliceIO: Slice of connections and fifos.
    - ConnLife: init, the options, the close callbacks, Close, Detach and
      hang-ups, with netFD (src/net_netfd.go, src/net_netfd_conn.go), over a
      world of open descriptors, registered ones and operators in use.

    Fifos (src/fifo_*.go):
    - FifoRead and FifoWrite: the methods; FifoReact and FifoProcess, and
      FifoFlush for the writer: the handlers as threads; FifoConn and
      FifoConnTheorems: opening and closing of fifos, connections and the
      manager.

    Poll, server and the rest:
    - FDOperator, Poll, PollBatch, Manager: operators and their cache, the
      epoll poller, and the manager with its load balancing.
    - PollBsd: src/poll_default_bsd.go, how a poll is opened, and the variants
      of race builds; Config: Configure and the setters of the package.
    - Server and EventLoop: src/netpoll_server.go and src/netpoll_unix.go.
    - ShardQueue, ShardQueueInv, ShardQueueTheorems: src/mux/shard_queue.go.
    - Errors: src/connection_errors.go.

    Sockets (src/net_*.go), over the world of ConnLife:
    - NetAddr: addresses and the choice of a family; NetDial: dialing, with the
      answers of the system calls of each attempt as a parameter; PollDesc:
      waiting for connect, as threads; Listener: listeners and what they
      accept.

    ** What the theorems show

    - Buffers: every sequence of the methods of [ByteQueue], used within the
      contract, does what the queue of bytes does, with its results and errors,
      and does not panic; the memory Next and Slice hand out is shared with no
      other owner; concurrent calls of the safe buffer are linearizable,
      because each of its methods is between Lock and Unlock.
    - Connections and fifos, one goroutine and the poller: a reading method
      reads no more often than it has to, and returns the next bytes the kernel
      delivers or the error; Flush returns nil exactly when all is sent, in
      order.  The methods of a fifo's reader, called from its callback, do what
      those of a connection do.
    - Connections, and fifos that have a callback, all interleavings: callbacks
      exclude each other, close callbacks run once, input reaches the callback,
      and whoever waits is woken.  These hold of quiescent configurations: when
      no thread can move, nothing is left undone.
    - Fifo connections: what init opened Close gives back; the manager holds
      what was attached, under its keys.
    - Poll: operators are released after each event, every read is
      acknowledged, and no event reaches an operator that was handed out again,
      unless it was freed while it was registered.
    - Server and event loop: Close ends with the context and closes only idle
      connections; a shortage of descriptors is waited for; the event loop
      returns exactly when it has to.
    - Shard queue: all that is added is flushed once; the ring does not
      overflow, as long as every Add has getters.
    - Sockets: whatever the kernel and the resolver answer, dialing that
      returns returns a connection and its descriptor or an error and nothing,
      and it returns unless a wait ends without a decision each time; WaitWrite
      is woken, and its channels are closed once when there is one hang-up; a
      connection that is accepted or dialed gives back its descriptor,
      registration and operator, and runs its close callbacks, exactly once,
      whatever sequence of Close, Detach and hang-ups ends it; an address
      survives the way to the kernel and back.
    - kqueue: a batch of events is handled as epoll handles the events that say
      the same, so that what is shown of the poll holds there too.
    - The writer of a fifo, all interleavings: its buffer is closed when nobody
      is in it; until the second flush that waits, poller and flushes exclude
      each other and nil means sent.
    Next to these there are executions, evaluated, in which the code does not
    do what it means to.

    ** Bounds and fuel

    Go integers are [Z]; the widths are written out where the code can leave
    them (the index of the shard queue, int32 words, the sizes of the buffer).
    A loop over nodes has one unit of fuel per node of the heap and one more,
    which the invariant shows to be enough.  The methods that wait take their
    fuel as an argument, and their theorems give a bound from which on they
    return: the number of sends or reads after which the kernel makes progress,
    and the bytes.  The loop of connect runs over the answers of its waits; its
    theorems say what holds when none of them decides.  Close of a server has
    fuel for the rounds until the context is done.  A theorem never excludes
    that the fuel runs out by assumption.

    ** Parameters

    What the kernel answers, what mcache and sync.Pool return, the answers of
    an io.Reader or io.Writer and the callbacks of users are arguments, with
    what their documentation promises as hypotheses; each hypothesis is met by
    an example in the witness of the theorem that has it.

    ** Not modelled

    - The raw system call wrappers (src/sys_*.go but src/sys_exec.go,
      src/sys_sendmsg_linux.go and src/sys_sockopt_linux.go): one call each,
      whose answer the kernel decides.
    - src/netpoll_windows.go: stubs.  The pools of goroutines that
      src/internal/runner hands a task to: a thread starts.
    - ResolveTCPAddr and ResolveUnixAddr, which convert what package net
      returns, and SetKeepAlive and the deadlines of netFD.
    - What mcache does with the memory it gets back: it is recorded in
      [hfreed], and no invariant says that nobody uses it; a new array is always
      fresh.
    - Memory order weaker than sequential consistency, which Go's atomic
      operations do not show, and the garbage collector.
    - Of the modelled parts: contexts, logging, the timeouts' durations,
      zero-copy sends, and methods of connections and fifos that only pass on
      to the buffer (Append, WriteDirect).  WriteDirect of the buffer itself is
      translated and evaluated; it makes two nodes share an array, which the
      invariant of the buffer excludes, so that no theorem covers it. *)

From stdpp Require Export base gmap list numbers sets.
From Stdlib Require Export ZArith Lia.
From Stdlib Require Strings.Byte.

Open Scope Z_scope.

Abbreviation byte := Byte.byte.

#[global] Instance byte_eq_decision : EqDecision byte.
Proof. intros x y. destruct (Byte.byte_eq_dec x y); [left|right]; done. Defined.

(** ** Executions that may panic *)

Inductive outcome (A : Type) : Type :=
| Ret (a : A)
| Panic
| OutOfFuel.
Arguments Ret {A} _.
Arguments Panic {A}.
Arguments OutOfFuel {A}.

(** Programs that thread a state of type [S] and may panic. *)
Definition M (S A : Type) : Type := S → outcome (A * S).

Section monad.
Context {S : Type}.

Global Instance M_ret : MRet (M S) := λ A a s, Ret (a, s).
Global Instance M_bind : MBind (M S) := λ A B k m s,
  match m s with
  | Ret (a, s') => k a s'
  | Panic => Panic
  | OutOfFuel => OutOfFuel
  end.

Definition panic {A} : M S A := λ _, Panic.
Definition out_of_fuel {A} : M S A := λ _, OutOfFuel.
Definition get : M S S := λ s, Ret (s, s).
Definition modify (f : S → S) : M S unit := λ s, Ret (tt, f s).

(** Total correctness: the program returns, and its result and final state
    satisfy [Q]. *)
Definition wp {A} (m : M S A) (Q : A → S → Prop) (s : S) : Prop :=
  match m s with
  | Ret (a, s') => Q a s'
  | _ => False
  end.

Lemma wp_ret {A} (a : A) Q s : Q a s → wp (mret a) Q s.
Proof. done. Qed.

Lemma wp_bind {A B} (m : M S A) (k : A → M S B) Q s :
  wp m (λ a s', wp (k a) Q s') s → wp (m ≫= k) Q s.
Proof.
  unfold wp, mbind, M_bind. destruct (m s) as [[a s']| |]; done.
Qed.

Lemma wp_mono {A} (m : M S A) (Q Q' : A → S → Prop) s :
  wp m Q s → (∀ a s', Q a s' → Q' a s') → wp m Q' s.
Proof. unfold wp. destruct (m s) as [[a s']| |]; auto. Qed.

Lemma wp_get Q s : Q s s → wp get Q s.
Proof. done. Qed.

Lemma wp_modify f Q s : Q tt (f s) → wp (modify f) Q s.
Proof. done. Qed.

Lemma wp_run {A} (m : M S A) Q s :
  wp m Q s → ∃ a s', m s = Ret (a, s') ∧ Q a s'.
Proof. unfold wp. destruct (m s) as [[a s']| |]; naive_solver. Qed.
End monad.

(** Run a program on a component of a larger state. *)
Definition zoom {S T A} (proj : T → S) (upd : S → T → T) (m : M S A) : M T A := λ t,
  match m (proj t) with
  | Ret (a, s') => Ret (a, upd s' t)
  | Panic => Panic
  | OutOfFuel => OutOfFuel
  end.

Lemma wp_zoom {S T A} (proj : T → S) upd (m : M S A) Q t :
  wp m (λ a s', Q a (upd s' t)) (proj t) → wp (zoom proj upd m) Q t.
Proof. unfold wp, zoom. destruct (m (proj t)) as [[a s']| |]; done. Qed.

(** ** Lists indexed by Go integers *)

Definition zlen {A} (l : list A) : Z := Z.of_nat (length l).
Definition ztake {A} (n : Z) (l : list A) : list A := take (Z.to_nat n) l.
Definition zdrop {A} (n : Z) (l : list A) : list A := drop (Z.to_nat n) l.
(** The elements at positions [lo <= i < hi]. *)
Definition zsub {A} (lo hi : Z) (l : list A) : list A := ztake (hi - lo) (zdrop lo l).
(** Overwrite the elements from position [pos] on with [bs]. *)
Definition zput {A} (pos : Z) (bs l : list A) : list A :=
  ztake pos l ++ bs ++ zdrop (pos + zlen bs) l.

Section zlists.
Context {A : Type}.
Implicit Types l k : list A.

Lemma zlen_nil : zlen ([] : list A) = 0.
Proof. done. Qed.
Lemma zlen_cons x l : zlen (x :: l) = 1 + zlen l.
Proof. unfold zlen. cbn [length]. lia. Qed.
Lemma zlen_app l k : zlen (l ++ k) = zlen l + zlen k.
Proof. unfold zlen. rewrite length_app. lia. Qed.
Lemma zlen_nonneg l : 0 <= zlen l.
Proof. unfold zlen. lia. Qed.
Lemma zlen_ztake n l : zlen (ztake n l) = Z.max 0 (Z.min n (zlen l)).
Proof. unfold zlen, ztake. rewrite length_take. lia. Qed.
Lemma zlen_zdrop n l : zlen (zdrop n l) = Z.max 0 (zlen l - Z.max 0 n).
Proof. unfold zlen, zdrop. rewrite length_drop. lia. Qed.
Lemma zlen_zsub lo hi l : zlen (zsub lo hi l) =
  Z.max 0 (Z.min (hi - lo) (zlen l - Z.max 0 lo)).
Proof. unfold zsub. rewrite zlen_ztake, zlen_zdrop. lia. Qed.
Lemma zlen_replicate n (x : A) : zlen (replicate n x) = Z.of_nat n.
Proof. unfold zlen. by rewrite length_replicate. Qed.
Lemma zlen_zput pos bs l : 0 <= pos → pos + zlen bs <= zlen l →
  zlen (zput pos bs l) = zlen l.
Proof.
  intros. pose proof (zlen_nonneg bs). unfold zput.
  rewrite !zlen_app, zlen_ztake, zlen_zdrop. lia.
Qed.
Lemma zlen_0_nil l : zlen l = 0 → l = [].
Proof. unfold zlen. intros. apply length_zero_iff_nil. lia. Qed.

Lemma ztake_nonpos n l : n <= 0 → ztake n l = [].
Proof. intros. unfold ztake. by replace (Z.to_nat n) with 0%nat by lia. Qed.
Lemma zdrop_nonpos n l : n <= 0 → zdrop n l = l.
Proof. intros. unfold zdrop. by replace (Z.to_nat n) with 0%nat by lia. Qed.
Lemma ztake_ge n l : zlen l <= n → ztake n l = l.
Proof. unfold zlen, ztake. intros. apply take_ge. lia. Qed.
Lemma zdrop_ge n l : zlen l <= n → zdrop n l = [].
Proof. unfold zlen, zdrop. intros. apply drop_ge. lia. Qed.
Lemma ztake_zdrop n l : ztake n l ++ zdrop n l = l.
Proof. apply take_drop. Qed.
Lemma zdrop_zdrop n m l : 0 <= n → 0 <= m → zdrop n (zdrop m l) = zdrop (m + n) l.
Proof. intros. unfold zdrop. rewrite drop_drop. f_equal. lia. Qed.
Lemma ztake_ztake n m l : ztake n (ztake m l) = ztake (Z.min n m) l.
Proof. unfold ztake. rewrite take_take. f_equal. lia. Qed.
Lemma ztake_app_le n l k : n <= zlen l → ztake n (l ++ k) = ztake n l.
Proof. unfold zlen, ztake. intros. apply take_app_le. lia. Qed.
Lemma ztake_app_ge n l k : zlen l <= n → ztake n (l ++ k) = l ++ ztake (n - zlen l) k.
Proof.
  unfold zlen, ztake. intros. rewrite take_app_ge by lia. do 2 f_equal. lia.
Qed.
Lemma zdrop_app_le n l k : n <= zlen l → zdrop n (l ++ k) = zdrop n l ++ k.
Proof. unfold zlen, zdrop. intros. apply drop_app_le. lia. Qed.
Lemma zdrop_app_ge n l k : zlen l <= n → zdrop n (l ++ k) = zdrop (n - zlen l) k.
Proof.
  unfold zlen, zdrop. intros. rewrite drop_app_ge by lia. f_equal. lia.
Qed.
Lemma ztake_zdrop_comm n m l : 0 <= n → 0 <= m →
  zdrop m (ztake n l) = ztake (n - m) (zdrop m l).
Proof.
  intros. unfold ztake, zdrop. destruct (decide (m <= n)).
  - rewrite skipn_firstn_comm. f_equal. lia.
  - rewrite drop_ge by (rewrite length_take; lia).
    by replace (Z.to_nat (n - m)) with 0%nat by lia.
Qed.

Lemma ztake_add n m l : 0 <= n → 0 <= m → ztake (n + m) l = ztake n l ++ ztake m (zdrop n l).
Proof.
  intros. rewrite <- (ztake_zdrop n (ztake (n + m) l)), ztake_ztake, ztake_zdrop_comm by lia.
  f_equal; f_equal; lia.
Qed.

Lemma zsub_empty lo hi l : hi <= lo → zsub lo hi l = [].
Proof. intros. apply ztake_nonpos. lia. Qed.
Lemma zsub_all hi l : zlen l <= hi → zsub 0 hi l = l.
Proof. intros. unfold zsub. rewrite zdrop_nonpos by lia. apply ztake_ge. lia. Qed.
Lemma zsub_split lo mid hi l : 0 <= lo → lo <= mid → mid <= hi →
  zsub lo hi l = zsub lo mid l ++ zsub mid hi l.
Proof.
  intros. unfold zsub.
  rewrite <- (ztake_zdrop (mid - lo) (ztake (hi - lo) (zdrop lo l))).
  rewrite ztake_ztake, ztake_zdrop_comm, zdrop_zdrop by lia.
  f_equal; f_equal; try lia. f_equal. lia.
Qed.
Lemma ztake_zsub n lo hi l : 0 <= lo → 0 <= n → lo + n <= hi →
  ztake n (zsub lo hi l) = zsub lo (lo + n) l.
Proof. intros. unfold zsub. rewrite ztake_ztake. f_equal. lia. Qed.
Lemma zdrop_zsub n lo hi l : 0 <= lo → 0 <= n → lo + n <= hi →
  zdrop n (zsub lo hi l) = zsub (lo + n) hi l.
Proof.
  intros. unfold zsub. rewrite ztake_zdrop_comm, zdrop_zdrop by lia. f_equal. lia.
Qed.
Lemma zsub_zsub a b lo hi l : 0 <= lo → 0 <= a → a <= b → lo + b <= hi →
  zsub a b (zsub lo hi l) = zsub (lo + a) (lo + b) l.
Proof.
  intros. unfold zsub at 1. rewrite zdrop_zsub, ztake_zsub by lia. f_equal. lia.
Qed.

Lemma zsub_zput_same pos bs l : 0 <= pos → pos <= zlen l →
  zsub pos (pos + zlen bs) (zput pos bs l) = bs.
Proof.
  intros. unfold zsub, zput.
  rewrite zdrop_app_ge by (rewrite zlen_ztake; lia).
  rewrite zlen_ztake, zdrop_nonpos by lia.
  rewrite ztake_app_le by lia. apply ztake_ge. lia.
Qed.
Lemma zsub_zput_before lo hi pos bs l : 0 <= lo → hi <= pos → pos <= zlen l →
  zsub lo hi (zput pos bs l) = zsub lo hi l.
Proof.
  intros. destruct (decide (hi <= lo)); [by rewrite !zsub_empty by lia|].
  unfold zsub, zput.
  rewrite zdrop_app_le by (rewrite zlen_ztake; lia).
  rewrite ztake_app_le by (rewrite zlen_zdrop, zlen_ztake; lia).
  rewrite ztake_zdrop_comm, ztake_ztake by lia. f_equal. lia.
Qed.
Lemma zsub_zput_after lo hi pos bs l : 0 <= pos → pos + zlen bs <= lo →
  pos + zlen bs <= zlen l →
  zsub lo hi (zput pos bs l) = zsub lo hi l.
Proof.
  intros. pose proof (zlen_nonneg bs). unfold zsub, zput.
  rewrite zdrop_app_ge by (rewrite zlen_ztake; lia).
  rewrite zdrop_app_ge by (rewrite zlen_ztake; lia).
  rewrite zlen_ztake, zdrop_zdrop by lia. do 2 f_equal. lia.
Qed.
End zlists.

Create Rewrite HintDb zl.
#[export] Hint Rewrite @zlen_nil @zlen_cons @zlen_app @zlen_ztake @zlen_zdrop
  @zlen_zsub @zlen_replicate : zl.

(** Case analysis on the comparisons of the goal, innermost first. *)
Ltac zcase :=
  repeat match goal with
  | |- context [?a <=? ?b] =>
      lazymatch constr:((a, b)) with
      | context [Z.leb] => fail | context [Z.ltb] => fail
      | _ => destruct (Z.leb_spec a b); try lia
      end
  | |- context [?a <? ?b] =>
      lazymatch constr:((a, b)) with
      | context [Z.leb] => fail | context [Z.ltb] => fail
      | _ => destruct (Z.ltb_spec a b); try lia
      end
  end.

(** Arithmetic on lengths of lists. *)
Ltac zl :=
  autorewrite with zl in *;
  repeat match goal with
  | |- context [zlen ?l] =>
      lazymatch goal with
      | _ : 0 <= zlen l |- _ => fail
      | _ => pose proof (zlen_nonneg l)
      end
  | _ : context [zlen ?l] |- _ =>
      lazymatch goal with
      | _ : 0 <= zlen l |- _ => fail
      | _ => pose proof (zlen_nonneg l)
      end
  end; try lia.

(** ** Permutations of concatenations *)

Section perm.
Context {A : Type}.
Implicit Types a r rhs : list A.

Lemma perm_skip a r r' rhs : rhs ≡ₚ a ++ r' → r ≡ₚ r' → a ++ r ≡ₚ rhs.
Proof. by intros -> ->. Qed.
Lemma perm_pull a b r r' : r ≡ₚ a ++ r' → b ++ r ≡ₚ a ++ b ++ r'.
Proof. intros ->. apply Permutation_app_swap_app. Qed.
Lemma perm_last a : a ≡ₚ a ++ [].
Proof. by rewrite app_nil_r. Qed.
End perm.

(** [perm] proves that two concatenations have the same parts. *)
Ltac perm_pull :=
  lazymatch goal with
  | |- ?a ++ _ ≡ₚ ?a ++ _ => reflexivity
  | |- _ ++ _ ≡ₚ _ => apply perm_pull; perm_pull
  | |- ?a ≡ₚ ?a ++ _ => apply perm_last
  end.

Ltac perm_cons :=
  repeat match goal with
  | |- context [?x :: ?l] => lazymatch l with [] => fail | _ => change (x :: l) with ([x] ++ l) end
  end.

Ltac perm :=
  repeat progress rewrite ?fmap_app, ?fmap_cons, ?fmap_nil; cbn [fst snd]; perm_cons; rewrite <- ?app_assoc, ?app_nil_r;
  repeat lazymatch goal with
  | |- ?a ≡ₚ ?a => reflexivity
  | |- _ ++ _ ≡ₚ _ => eapply perm_skip; [perm_pull|]; rewrite ?app_nil_r
  end.
