(* ===== verification/GoMem.v ===== *)
(** * Slices and backing arrays

    Go slices as windows into shared backing arrays.  An array has an
    identifier and a fixed list of bytes; a slice is a window of an array with
    a length and a capacity, and two slices may share an array.  Array [0] is
    never allocated: the nil slice is the empty window of it. *)

From S2P Require Import Prelude.
Open Scope Z_scope.

Abbreviation aid := nat (only parsing).
Abbreviation mem := (gmap nat (list byte)).

(** [sarr]: the backing array; [soff]: where the window starts in it. *)
Record slice := Slice { sarr : aid; soff : Z; slen : Z; scap : Z }.

Definition nil_slice : slice := Slice 0%nat 0 0 0.

Definition arr (m : mem) (a : aid) : list byte := default [] (m !! a).

(** The bytes of a window of an array. *)
Definition mget (m : mem) (a : aid) (lo hi : Z) : list byte := zsub lo hi (arr m a).

(** The bytes of a slice. *)
Definition sget (m : mem) (s : slice) : list byte :=
  mget m (sarr s) (soff s) (soff s + slen s).

(** Store [bs] in array [a] from position [pos] on. *)
Definition mput (m : mem) (a : aid) (pos : Z) (bs : list byte) : mem :=
  <[a := zput pos bs (arr m a)]> m.

(** [copy(dst, src)]: the bytes of [src] that fit. *)
Definition scopy (m : mem) (dst : slice) (bs : list byte) : mem :=
  mput m (sarr dst) (soff dst) (ztake (slen dst) bs).

(** Reslicing: [None] when the Go run time panics. *)
Definition slice3 (s : slice) (lo hi mx : Z) : option slice :=
  if (0 <=? lo) && (lo <=? hi) && (hi <=? mx) && (mx <=? scap s)
  then Some (Slice (sarr s) (soff s + lo) (hi - lo) (mx - lo)) else None.

(** [s[lo:hi]] keeps the capacity. *)
Definition slice2 (s : slice) (lo hi : Z) : option slice := slice3 s lo hi (scap s).

(** [s[lo:]] *)
Definition slice_from (s : slice) (lo : Z) : option slice := slice2 s lo (slen s).

(** ** Regions of memory *)

(** The positions [rlo <= i < rhi] of array [rarr]. *)
Record region := Region { rarr : aid; rlo : Z; rhi : Z }.

Definition rget (m : mem) (r : region) : list byte := mget m (rarr r) (rlo r) (rhi r).

Definition sregion (s : slice) : region := Region (sarr s) (soff s) (soff s + slen s).

Definition disj (r1 r2 : region) : Prop :=
  rarr r1 ≠ rarr r2 ∨ rhi r1 <= rlo r2 ∨ rhi r2 <= rlo r1 ∨
  rhi r1 <= rlo r1 ∨ rhi r2 <= rlo r2.

(** [sub r1 r2]: every position of [r1] is one of [r2]. *)
Definition sub (r1 r2 : region) : Prop :=
  rhi r1 <= rlo r1 ∨ (rarr r1 = rarr r2 ∧ rlo r2 <= rlo r1 ∧ rhi r1 <= rhi r2).

Fixpoint sep (rs : list region) : Prop :=
  match rs with
  | [] => True
  | r :: rs => Forall (disj r) rs ∧ sep rs
  end.

Lemma disj_sym r1 r2 : disj r1 r2 → disj r2 r1.
Proof. unfold disj. naive_solver. Qed.

Lemma disj_sub r1 r2 r : sub r1 r2 → disj r2 r → disj r1 r.
Proof. unfold sub, disj. intros [?|(?&?&?)]; [naive_solver|]. rewrite H. naive_solver lia. Qed.

Lemma sub_refl r : sub r r.
Proof. right. split; [done|lia]. Qed.

Lemma sep_app rs1 rs2 :
  sep (rs1 ++ rs2) ↔ sep rs1 ∧ sep rs2 ∧ Forall (λ r, Forall (disj r) rs2) rs1.
Proof.
  induction rs1 as [|r rs1 IH]; simpl.
  { split; [intros ?; repeat split; auto | naive_solver]. }
  rewrite Forall_app, IH, Forall_cons. naive_solver.
Qed.

Lemma sep_perm rs1 rs2 : rs1 ≡ₚ rs2 → sep rs1 → sep rs2.
Proof.
  induction 1 as [|r rs1 rs2 Hp IH|r1 r2 rs|]; simpl; auto.
  - intros [Hf Hs]. split; [by rewrite <- Hp|auto].
  - rewrite !Forall_cons. intros ((?&?)&?&?). split_and!; auto using disj_sym.
Qed.

Lemma sep_cons_sub r r' rs : sub r' r → sep (r :: rs) → sep (r' :: rs).
Proof.
  simpl. intros Hs [Hd ?]. split; [|done].
  eapply Forall_impl; [exact Hd|]. intros. by eapply disj_sub.
Qed.

(** Regions shrink or stay pointwise. *)
Lemma sep_sub rs rs' rest : Forall2 sub rs' rs → sep (rs ++ rest) → sep (rs' ++ rest).
Proof.
  induction 1 as [|r' r rs' rs Hsub Hall IH]; [done|]. simpl.
  intros [Hd Hsep]. split; [|by apply IH].
  apply Forall_app in Hd as [Hd1 Hd2]. apply Forall_app. split.
  - clear -Hsub Hall Hd1. induction Hall as [|x' x xs' xs Hx ? IH]; [constructor|].
    apply Forall_cons in Hd1 as [? ?]. constructor; [|by apply IH].
    apply disj_sym. eapply disj_sub; [exact Hx|]. apply disj_sym. by eapply disj_sub.
  - eapply Forall_impl; [exact Hd2|]. intros. by eapply disj_sub.
Qed.

Lemma sep_app_r rs1 rs2 : sep (rs1 ++ rs2) → sep rs2.
Proof. rewrite sep_app. naive_solver. Qed.

Lemma sep_drop_mid rs1 rs2 rs3 : sep (rs1 ++ rs2 ++ rs3) → sep (rs1 ++ rs3).
Proof.
  rewrite !sep_app. intros (?&(?&?&?)&Hd). split_and!; auto.
  eapply Forall_impl; [exact Hd|]. simpl. intros ? [??]%Forall_app. done.
Qed.

(** ** Stores and the regions they leave alone *)

Lemma arr_mput m a pos bs a' :
  arr (mput m a pos bs) a' = if decide (a = a') then zput pos bs (arr m a) else arr m a'.
Proof.
  unfold mput, arr. rewrite lookup_insert. by case_decide.
Qed.

Lemma rget_mput_disj m a pos bs r :
  disj (Region a pos (pos + zlen bs)) r → 0 <= rlo r → 0 <= pos →
  pos + zlen bs <= zlen (arr m a) →
  rget (mput m a pos bs) r = rget m r.
Proof.
  intros Hd ???. pose proof (zlen_nonneg bs). unfold rget, mget. rewrite arr_mput.
  case_decide as E; [subst|done].
  destruct Hd as [?|[?|[?|[?|?]]]]; simpl in *; try done.
  - by apply zsub_zput_after.
  - apply zsub_zput_before; lia.
  - assert (bs = []) as -> by (apply zlen_0_nil; lia).
    unfold zput. simpl. by rewrite zlen_nil, Z.add_0_r, ztake_zdrop.
  - by rewrite !zsub_empty by lia.
Qed.

Lemma mget_mput_same m a pos bs :
  0 <= pos → pos <= zlen (arr m a) →
  mget (mput m a pos bs) a pos (pos + zlen bs) = bs.
Proof.
  intros. unfold mget. rewrite arr_mput, decide_True by done. by apply zsub_zput_same.
Qed.

Lemma zlen_arr_mput m a pos bs a' :
  0 <= pos → pos + zlen bs <= zlen (arr m a) →
  zlen (arr (mput m a pos bs) a') = zlen (arr m a').
Proof.
  intros. rewrite arr_mput. case_decide as E; [|done]. subst. by apply zlen_zput.
Qed.

Lemma mget_split m a lo mid hi : 0 <= lo → lo <= mid → mid <= hi →
  mget m a lo hi = mget m a lo mid ++ mget m a mid hi.
Proof. apply zsub_split. Qed.

Lemma zlen_mget m a lo hi : 0 <= lo → lo <= hi → hi <= zlen (arr m a) →
  zlen (mget m a lo hi) = hi - lo.
Proof. intros. unfold mget. rewrite zlen_zsub. lia. Qed.
