(* ===== verification/Errors.v ===== *)
(** * Errors

    Models src/connection_errors.go.  [syscall.Errno] is its number; the texts
    of the system's errors are a parameter, a table of the syscall package.  An
    exception is a pointer: [ptr] is its identity, which [==] compares. *)

From stdpp Require Import strings.
From S2P Require Import Prelude.

Open Scope Z_scope.

Definition ErrConnClosed : Z := 0x101.
Definition ErrReadTimeout : Z := 0x102.
Definition ErrDialTimeout : Z := 0x103.
Definition ErrDialNoDeadline : Z := 0x104.
Definition ErrUnsupported : Z := 0x105.
Definition ErrEOF : Z := 0x106.
Definition ErrWriteTimeout : Z := 0x107.
Definition ErrConcurrentAccess : Z := 0x108.

Definition ErrnoMask : Z := 0xFF.

(** The numbers of the system the sources and the syscall package look at. *)
Definition EPERM : Z := 1.
Definition ENOENT : Z := 2.
Definition EINTR : Z := 4.
Definition EAGAIN : Z := 11.
Definition EACCES : Z := 13.
Definition EEXIST : Z := 17.
Definition ENFILE : Z := 23.
Definition EMFILE : Z := 24.
Definition ENOSYS : Z := 38.
Definition ENOTEMPTY : Z := 39.
Definition EOPNOTSUPP : Z := 95.
Definition ETIMEDOUT : Z := 110.

(** [oserror.ErrPermission], [ErrExist], [ErrNotExist] and
    [errors.ErrUnsupported] are values of their own. *)
Inductive sentinel := SPermission | SExist | SNotExist | SUnsupported.

Inductive error :=
| Errno (no : Z)
| Exc (ptr : nat) (no : Z) (suffix : string)
| Sentinel (x : sentinel)
| Text (s : string).

#[global] Instance sentinel_eq_dec : EqDecision sentinel.
Proof. solve_decision. Defined.
#[global] Instance error_eq_dec : EqDecision error.
Proof. solve_decision. Defined.

(** ** syscall.Errno *)

Definition Errno_Is (no : Z) (target : error) : bool :=
  match target with
  | Sentinel SPermission => (no =? EACCES) || (no =? EPERM)
  | Sentinel SExist => (no =? EEXIST) || (no =? ENOTEMPTY)
  | Sentinel SNotExist => no =? ENOENT
  | Sentinel SUnsupported => (no =? ENOSYS) || (no =? EOPNOTSUPP)
  | _ => false
  end.

Definition Errno_Timeout (no : Z) : bool := (no =? EAGAIN) || (no =? ETIMEDOUT).
Definition Errno_Temporary (no : Z) : bool :=
  (no =? EINTR) || (no =? EMFILE) || (no =? ENFILE) || Errno_Timeout no.

(** ** exception *)

(** The array [errnos]; index 0 has no initialiser. *)
Definition errnos : list string :=
  [EmptyString;
   "connection has been closed";
   "connection read timeout";
   "dial wait timeout";
   "dial no deadline";
   "netpoll does not support";
   "EOF";
   "connection write timeout";
   "concurrent connection access"]%string.

Section texts.
(** [syscall.Errno.Error] *)
Context (Errno_Error : Z → string).

(** The text of an error; [None]: the index of [errnos] is out of range. *)
Definition exception_Error (no : Z) (suffix : string) : option string :=
  s ← (if Z.land no 0x100 =? 0 then Some EmptyString else errnos !! Z.to_nat (Z.land no ErrnoMask));
  let s := if decide (s = EmptyString) then Errno_Error no else s in
  Some (if decide (suffix = EmptyString) then s else s +:+ " " +:+ suffix).

Definition error_Error (e : error) : option string :=
  match e with
  | Errno no => Some (Errno_Error no)
  | Exc _ no suffix => exception_Error no suffix
  | Sentinel SPermission => Some "permission denied"
  | Sentinel SExist => Some "file already exists"
  | Sentinel SNotExist => Some "file does not exist"
  | Sentinel SUnsupported => Some "unsupported operation"
  | Text s => Some s
  end%string.

(** Exception: [ptr] is the location of the exception it allocates. *)
Definition Exception (ptr : nat) (err : error) (suffix : string) : option error :=
  match err with
  | Errno no => Some (Exc ptr no suffix)
  | _ =>
      if decide (suffix = EmptyString) then Some err
      else s ← error_Error err; Some (Text (s +:+ " " +:+ suffix))
  end.
End texts.

Definition exception_Is (e : error) (no : Z) (target : error) : bool :=
  bool_decide (e = target) || bool_decide (Errno no = target)
  || ((no =? ErrEOF) && bool_decide (target = Errno ErrConnClosed))
  || Errno_Is no target.

Definition exception_Unwrap (no : Z) : error := Errno no.

Definition exception_Timeout (no : Z) : bool :=
  (no =? ErrDialTimeout) || (no =? ErrReadTimeout) || (no =? ErrWriteTimeout) || Errno_Timeout no.

Definition exception_Temporary (no : Z) : bool := Errno_Temporary no.

(** [errors.Is]: the error, or one it wraps. *)
Definition errors_Is (e target : error) : bool :=
  bool_decide (e = target) ||
  match e with
  | Errno no => Errno_Is no target
  | Exc _ no _ =>
      exception_Is e no target
      || bool_decide (exception_Unwrap no = target) || Errno_Is no target
  | _ => false
  end.

(** ** What callers may rely on *)

(** An error of the system or of netpoll that Exception has wrapped is
    recognised by errors.Is, a close by the peer also as ErrConnClosed, and as
    nothing else that is a number. *)
Theorem Exception_Is_spec texts ptr no suffix target :
  ∃ e, Exception texts ptr (Errno no) suffix = Some e ∧
    errors_Is e (Errno target) =
      (target =? no) || ((no =? ErrEOF) && (target =? ErrConnClosed)).
Proof.
  eexists. split; [reflexivity|]. unfold errors_Is, exception_Is, exception_Unwrap, Errno_Is.
  cbv match. rewrite !orb_false_r, !(bool_decide_eq_false_2 (Exc _ _ _ = _)), !orb_false_l by done.
  assert (∀ a b, bool_decide (Errno a = Errno b) = (b =? a)) as He.
  { intros a b. destruct (Z.eqb_spec b a) as [->|Hne]; [by apply bool_decide_eq_true_2|].
    apply bool_decide_eq_false_2. congruence. }
  rewrite !He. rewrite (Z.eqb_sym ErrConnClosed). destruct (target =? no), ((no =? ErrEOF) && (target =? ErrConnClosed)); done.
Qed.

(** The errors of netpoll have a text of their own, which the suffix
    follows; the numbers of the system below 0x100 have the system's text. *)
Theorem exception_Error_spec texts no suffix :
  0 <= no <= 0x108 → no ≠ 0x100 →
  ∃ s, exception_Error texts no suffix = Some (if decide (suffix = EmptyString) then s else s +:+ " " +:+ suffix) ∧
    s = (if no <? 0x100 then texts no else default EmptyString (errnos !! Z.to_nat (no - 0x100))).
Proof.
  intros Hr Hne. destruct (Z.ltb_spec no 0x100) as [Hl|Hl].
  - exists (texts no). split; [|done]. unfold exception_Error.
    replace (Z.land no 0x100) with 0; [by destruct (decide (suffix = EmptyString))|].
    symmetry. apply Z.bits_inj'. intros i Hi. rewrite Z.land_spec, Z.bits_0.
    destruct (decide (i = 8)) as [->|].
    + rewrite <- (Z.mod_small no (2 ^ 8)) by (simpl; lia). by rewrite Z.mod_pow2_bits_high.
    + change 0x100 with (2 ^ 8). rewrite Z.pow2_bits_false by lia. by rewrite andb_false_r.
  - eexists. split; [|reflexivity].
    assert (no = 0x101 ∨ no = 0x102 ∨ no = 0x103 ∨ no = 0x104 ∨ no = 0x105 ∨ no = 0x106 ∨ no = 0x107 ∨ no = 0x108)
      as Hc by lia.
    destruct_or! Hc; subst no; reflexivity.
Qed.

(** A number with bit 0x100 and a low byte above 8 makes Error panic. *)
Lemma exception_Error_out_of_range texts suffix : exception_Error texts 0x109 suffix = None.
Proof. reflexivity. Qed.

Lemma exception_Error_spec_witness :
  ∃ s, exception_Error (λ _, "broken pipe"%string) 32 "when flush"
         = Some (if decide ("when flush"%string = EmptyString) then s else s +:+ " " +:+ "when flush")%string ∧
    s = (if 32 <? 0x100 then "broken pipe"%string else default EmptyString (errnos !! Z.to_nat (32 - 0x100))).
Proof. apply exception_Error_spec; lia. Defined.
