(* ===== verification/SysExec.v ===== *)
(** * Vectored input and output

    Models iovecs, resetIovecs, readv and writev of src/sys_exec.go, sendmsg of
    src/sys_sendmsg_linux.go and ioread, iosend and isFifo of src/net_io.go.
    What the kernel answers to a system call is an argument: the bytes it
    delivers, or the number of bytes it takes, or the number of an error. *)

From stdpp Require Import strings.
From S2P Require Import Prelude GoMem Errors.

Open Scope Z_scope.

Definition MaxInt32 : Z := 2 ^ 31 - 1.
Definition barriercap : Z := 32.

(** An iovec is the memory it covers. *)
Definition iovec_len (r : region) : Z := rhi r - rlo r.

(** The loop of iovecs; [room]: the entries of ivs that are left.  [None]: the
    index of ivs is out of range. *)
Fixpoint iovecs_loop (bs : list slice) (room totalLen : Z) : option (list region) :=
  match bs with
  | [] => Some []
  | chunk :: bs =>
      let l := slen chunk in
      if l =? 0 then iovecs_loop bs room totalLen
      else if room <=? 0 then None
      else
        let totalLen := totalLen + l in
        if totalLen <? MaxInt32 then
          ivs ← iovecs_loop bs (room - 1) totalLen;
          Some (Region (sarr chunk) (soff chunk) (soff chunk + l) :: ivs)
        else
          let newLen := MaxInt32 - totalLen + l in
          Some [Region (sarr chunk) (soff chunk) (soff chunk + newLen)]
  end.

Definition iovecs (bs : list slice) (room : Z) : option (list region) := iovecs_loop bs room 0.

(** resetIovecs sets the elements of bs to nil; the caller's view of them. *)
Definition resetIovecs (bs : list slice) : list slice := (λ _, nil_slice) <$> bs.

(** The kernel reads the memory of the iovecs, or writes to it. *)
Definition gather (m : mem) (ivs : list region) : list byte := mjoin (rget m <$> ivs).

Fixpoint scatter (m : mem) (ivs : list region) (data : list byte) : mem :=
  match ivs with
  | [] => m
  | r :: ivs =>
      scatter (mput m (rarr r) (rlo r) (ztake (iovec_len r) data)) ivs (zdrop (iovec_len r) data)
  end.

(** The answer of a system call. *)
Inductive answer (A : Type) := Answer (a : A) | Fails (errno : Z).
Arguments Answer {A} _.
Arguments Fails {A} _.

(** What readv leaves: the result, the memory, and the elements of bs. *)
Record io := Io { io_n : Z; io_err : option error; io_mem : mem; io_bs : list slice }.

Definition readv (ans : answer (list byte)) (bs : list slice) (room : Z) (m : mem) : option io :=
  ivs ← iovecs bs room;
  if zlen ivs =? 0 then Some (Io 0 None m bs)
  else
    match ans with
    | Answer data => Some (Io (zlen data) None (scatter m ivs data) (resetIovecs bs))
    | Fails e => Some (Io (-1) (Some (Errno e)) m (resetIovecs bs))
    end.

(** [sent]: the bytes the kernel has taken. *)
Record out := Out { out_n : Z; out_err : option error; out_sent : list byte; out_bs : list slice }.

Definition writev (ans : answer Z) (bs : list slice) (room : Z) (m : mem) : option out :=
  ivs ← iovecs bs room;
  if zlen ivs =? 0 then Some (Out 0 None [] bs)
  else
    match ans with
    | Answer n => Some (Out n None (ztake n (gather m ivs)) (resetIovecs bs))
    | Fails e => Some (Out (-1) (Some (Errno e)) [] (resetIovecs bs))
    end.

Definition MSG_ZEROCOPY : Z := 0x4000000.

(** [flags]: what sendmsg passes to the kernel beside the message. *)
Definition sendmsg_flags (zerocopy : bool) : Z := if zerocopy then MSG_ZEROCOPY else 0.

Definition sendmsg (ans : Z → answer Z) (bs : list slice) (room : Z) (zerocopy : bool) (m : mem) : option out :=
  ivs ← iovecs bs room;
  if zlen ivs =? 0 then Some (Out 0 None [] bs)
  else
    match ans (sendmsg_flags zerocopy) with
    | Answer n => Some (Out n None (ztake n (gather m ivs)) (resetIovecs bs))
    | Fails e => Some (Out (-1) (Some (Errno e)) [] (resetIovecs bs))
    end.

Definition errno_is (err : option error) (no : Z) : bool :=
  match err with Some (Errno e) => e =? no | _ => false end.

(** ioread; [ptr]: where Exception allocates. *)
Definition ioread (ptr : nat) (ans : answer (list byte)) (bs : list slice) (room : Z) (m : mem) : option io :=
  r ← readv ans bs room m;
  if (io_n r =? 0) && bool_decide (io_err r = None) then
    e ← Exception (λ _, EmptyString) ptr (Errno ErrEOF) EmptyString;
    Some (Io 0 (Some e) (io_mem r) (io_bs r))
  else if errno_is (io_err r) EINTR || errno_is (io_err r) EAGAIN then
    Some (Io 0 None (io_mem r) (io_bs r))
  else Some r.

Definition S_IFIFO : Z := 0x1000.

(** [st_mode], or the error of fstat. *)
Definition isFifo (stat : answer Z) : bool :=
  match stat with Answer mode => negb (Z.land mode S_IFIFO =? 0) | Fails _ => false end.

Definition iosend (stat : answer Z) (ans : Z → answer Z) (bs : list slice) (room : Z) (zerocopy : bool)
    (m : mem) : option out :=
  r ← (if isFifo stat then writev (ans 0) bs room m else sendmsg ans bs room zerocopy m);
  if errno_is (out_err r) EAGAIN then Some (Out 0 None (out_sent r) (out_bs r)) else Some r.

(** ** What they do *)

Definition valid (m : mem) (s : slice) : Prop :=
  0 <= soff s ∧ 0 <= slen s ∧ soff s + slen s <= zlen (arr m (sarr s)).

Definition contents (m : mem) (bs : list slice) : list byte := mjoin (sget m <$> bs).

(** The slices that need an entry of ivs. *)
Definition entries (bs : list slice) : Z := zlen (filter (λ s, slen s ≠ 0) bs).

Lemma entries_cons s bs : entries (s :: bs) = (if slen s =? 0 then 0 else 1) + entries bs.
Proof.
  unfold entries. rewrite filter_cons. destruct (Z.eqb_spec (slen s) 0), (decide (slen s ≠ 0)); try done.
  by rewrite zlen_cons.
Qed.

Lemma zlen_sget m s : valid m s → zlen (sget m s) = slen s.
Proof. intros (?&?&?). unfold sget. rewrite zlen_mget; lia. Qed.

Lemma iovecs_loop_spec m bs : ∀ room t,
  Forall (valid m) bs → entries bs <= room → 0 <= t < MaxInt32 →
  ∃ ivs, iovecs_loop bs room t = Some ivs ∧
    gather m ivs = ztake (MaxInt32 - t) (contents m bs) ∧ zlen ivs <= room ∧
    Forall (λ r, 0 < iovec_len r) ivs.
Proof.
  induction bs as [|s bs IH]; intros room t Hv Hr Ht; simpl.
  { exists []. split_and!; [done| |done|by constructor].
    unfold contents, gather. simpl. by rewrite ztake_ge by (rewrite zlen_nil; lia). }
  apply Forall_cons in Hv as [Hs Hv]. rewrite entries_cons in Hr.
  unfold contents. rewrite fmap_cons. change (mjoin (?x :: ?l)) with (x ++ mjoin l). fold (contents m bs).
  pose proof (zlen_sget m s Hs) as Hl. pose proof (zlen_nonneg (filter (λ s, slen s ≠ 0) bs)).
  destruct (Z.eqb_spec (slen s) 0) as [E|E].
  { destruct (IH room t Hv) as (ivs&->&Hg&?&?); [lia..|]. exists ivs. split_and!; try done.
    rewrite Hg. by rewrite (zlen_0_nil (sget m s)) by lia. }
  unfold entries in *. destruct Hs as (?&?&?). destruct (Z.leb_spec room 0); [lia|].
  destruct (Z.ltb_spec (t + slen s) MaxInt32).
  - destruct (IH (room - 1) (t + slen s) Hv) as (ivs&->&Hg&?&?); [lia..|]. simpl. eexists.
    split_and!; [done| |rewrite zlen_cons; lia|constructor; [unfold iovec_len; simpl; lia|done]].
    unfold gather in *. rewrite fmap_cons. change (mjoin (?x :: ?l)) with (x ++ mjoin l). rewrite Hg.
    rewrite (ztake_app_ge (MaxInt32 - t)) by lia. unfold rget, sget, mget. simpl.
    do 2 f_equal. unfold sget, mget in Hl. rewrite Hl. lia.
  - eexists. split_and!; [done| |rewrite zlen_cons, zlen_nil; lia|constructor; [unfold iovec_len; simpl; lia|done]].
    unfold gather. simpl. rewrite app_nil_r, ztake_app_le by lia. unfold rget, sget, mget. simpl.
    rewrite ztake_zsub by lia. f_equal. lia.
Qed.

(** Iovecs never exceeds 2^31-1 bytes nor the entries of ivs: the iovecs
    cover the first 2^31-1 bytes of bs, in order and without empty entries, so
    that the kernel is given exactly a prefix of what the caller asked for. *)
Theorem iovecs_spec m bs room :
  Forall (valid m) bs → entries bs <= room →
  ∃ ivs, iovecs bs room = Some ivs ∧ gather m ivs = ztake MaxInt32 (contents m bs) ∧
    zlen ivs <= room ∧ Forall (λ r, 0 < iovec_len r) ivs.
Proof.
  intros Hv Hr. destruct (iovecs_loop_spec m bs room 0 Hv Hr) as (ivs&E&Hg&?&?); [unfold MaxInt32; lia|].
  exists ivs. rewrite Z.sub_0_r in Hg. done.
Qed.

Definition rvalid (m : mem) (r : region) : Prop := 0 <= rlo r <= rhi r ∧ rhi r <= zlen (arr m (rarr r)).

Lemma iovecs_loop_fits m bs : ∀ room t,
  Forall (valid m) bs → entries bs <= room → 0 <= t → t + zlen (contents m bs) <= MaxInt32 → t < MaxInt32 →
  iovecs_loop bs room t = Some (sregion <$> filter (λ s, slen s ≠ 0) bs).
Proof.
  induction bs as [|s bs IH]; intros room t Hv Hr Ht Hl Hm; [done|]. simpl.
  apply Forall_cons in Hv as [Hs Hv]. rewrite entries_cons in Hr. rewrite filter_cons.
  unfold contents in Hl. rewrite fmap_cons in Hl. change (mjoin (?x :: ?l)) with (x ++ mjoin l) in Hl.
  fold (contents m bs) in Hl. rewrite zlen_app, (zlen_sget m s Hs) in Hl.
  pose proof (zlen_nonneg (filter (λ s, slen s ≠ 0) bs)). pose proof (zlen_nonneg (contents m bs)).
  destruct (Z.eqb_spec (slen s) 0) as [E|E].
  { destruct (decide (slen s ≠ 0)); [done|]. apply IH; try done; lia. }
  destruct (decide (slen s ≠ 0)); [|done]. unfold entries in *. destruct Hs as (?&?&?).
  destruct (Z.leb_spec room 0); [lia|]. destruct (Z.ltb_spec (t + slen s) MaxInt32).
  - rewrite (IH (room - 1) (t + slen s)) by (try done; lia). done.
  - assert (filter (λ s, slen s ≠ 0) bs = []) as ->.
    { assert (zlen (contents m bs) = 0) as Hz by lia. clear -Hv Hz. induction bs as [|b bs IH]; [done|].
      apply Forall_cons in Hv as [Hb Hv]. unfold contents in Hz. rewrite fmap_cons in Hz.
      change (mjoin (?x :: ?l)) with (x ++ mjoin l) in Hz. fold (contents m bs) in Hz.
      rewrite zlen_app, (zlen_sget m b Hb) in Hz. pose proof (zlen_nonneg (contents m bs)).
      destruct Hb as (?&?&?). rewrite filter_cons_False by lia. apply IH; [done|lia]. }
    simpl. unfold sregion. do 3 f_equal. lia.
Qed.

Lemma gather_bytes m bs : gather m (sregion <$> filter (λ s, slen s ≠ 0) bs) = contents m bs.
Proof.
  unfold gather, contents. induction bs as [|s bs IH]; [done|]. rewrite filter_cons.
  destruct (decide (slen s ≠ 0)) as [E|E].
  - rewrite !fmap_cons. change (mjoin (?x :: ?l)) with (x ++ mjoin l). by rewrite IH.
  - rewrite fmap_cons. change (mjoin (?x :: ?l)) with (x ++ mjoin l). rewrite IH.
    unfold sget, mget. by rewrite zsub_empty by lia.
Qed.

Lemma gather_cons m r ivs : gather m (r :: ivs) = rget m r ++ gather m ivs.
Proof. done. Qed.

Lemma zlen_rget m r : rvalid m r → zlen (rget m r) = iovec_len r.
Proof. intros [??]. unfold rget, iovec_len. rewrite zlen_mget; lia. Qed.

(** The store of one iovec. *)
Lemma put_spec m r data : rvalid m r →
  let m' := mput m (rarr r) (rlo r) (ztake (iovec_len r) data) in
  rget m' r = ztake (iovec_len r) data ++ zdrop (zlen data) (rget m r) ∧
  (∀ q, rvalid m q → rvalid m' q) ∧
  (∀ q, disj r q → 0 <= rlo q → rget m' q = rget m q).
Proof.
  intros [Hr1 Hr2]. cbv zeta. set (d := ztake (iovec_len r) data).
  assert (zlen d <= iovec_len r) as Hd by (unfold d, iovec_len in *; zl).
  pose proof (zlen_nonneg d). unfold iovec_len in *. split_and!.
  - unfold rget at 1. rewrite (mget_split _ _ _ (rlo r + zlen d)) by lia. rewrite mget_mput_same by lia. f_equal.
    change (mget ?m (rarr r) ?a ?b) with (rget m (Region (rarr r) a b)).
    rewrite rget_mput_disj; simpl; [|right; left; simpl; lia|lia..]. unfold rget, mget. simpl.
    destruct (decide (zlen data <= rhi r - rlo r)) as [Hle|Hle].
    + rewrite zdrop_zsub by zl. f_equal. unfold d. zl.
    + rewrite zdrop_ge by zl. apply zsub_empty. unfold d. zl.
  - intros q [??]. split; [done|]. rewrite zlen_arr_mput by lia. done.
  - intros q Hq ?. apply rget_mput_disj; [|lia..]. eapply disj_sub; [|exact Hq]. right. simpl. lia.
Qed.

Lemma scatter_frame ivs : ∀ m data q,
  Forall (rvalid m) ivs → Forall (λ r, disj r q) ivs → 0 <= rlo q → rget (scatter m ivs data) q = rget m q.
Proof.
  induction ivs as [|r ivs IH]; intros m data q Hv Hd Hq; [done|]. simpl.
  apply Forall_cons in Hv as [Hr Hv]. apply Forall_cons in Hd as [Hrq Hd].
  destruct (put_spec m r data Hr) as (_&Hval&Hfr). rewrite IH; [by apply Hfr| |done..].
  eapply Forall_impl; [exact Hv|]. auto.
Qed.

Lemma scatter_gather ivs : ∀ m data,
  Forall (rvalid m) ivs → sep ivs → zlen data <= zlen (gather m ivs) →
  gather (scatter m ivs data) ivs = data ++ zdrop (zlen data) (gather m ivs).
Proof.
  induction ivs as [|r ivs IH]; intros m data Hv Hsep Hl.
  { unfold gather in *. simpl in *. rewrite zlen_nil in Hl. pose proof (zlen_nonneg data).
    by rewrite (zlen_0_nil data) by lia. }
  apply Forall_cons in Hv as [Hr Hv]. destruct Hsep as [Hd Hsep]. rewrite !gather_cons in *. simpl.
  destruct (put_spec m r data Hr) as (Hsame&Hval&Hfr). set (m' := mput _ _ _ _) in *.
  assert (Forall (rvalid m') ivs) as Hv' by (eapply Forall_impl; [exact Hv|auto]).
  assert (gather m' ivs = gather m ivs) as Hg.
  { unfold gather. f_equal. apply list_fmap_ext. intros i q Hi. apply Hfr.
    - by eapply Forall_lookup_1 in Hd.
    - eapply Forall_lookup_1 in Hv; [|done]. destruct Hv as [??]. lia. }
  rewrite (scatter_frame ivs m' _ r Hv'), Hsame; [| |destruct Hr; lia].
  2:{ eapply Forall_impl; [exact Hd|]. intros. by apply disj_sym. }
  rewrite zlen_app, zlen_rget in Hl by done. pose proof (zlen_nonneg data).
  rewrite IH; [|done|done|rewrite Hg; rewrite zlen_zdrop; pose proof (zlen_nonneg (gather m ivs)); destruct Hr; unfold iovec_len in *; lia].
  rewrite Hg, zlen_zdrop. destruct Hr as [Hr1 Hr2]. unfold iovec_len in *.
  destruct (decide (zlen data <= rhi r - rlo r)) as [Hle|Hle].
  - rewrite ztake_ge, (zdrop_ge (rhi r - rlo r) data) by lia. rewrite (zdrop_app_le (zlen data)) by (rewrite zlen_rget; unfold iovec_len; [lia|by split]).
    rewrite (zdrop_nonpos _ (gather m ivs)) by lia. by rewrite <- app_assoc.
  - rewrite (zdrop_ge _ (rget m r)) by (rewrite zlen_rget; unfold iovec_len; [lia|by split]). rewrite app_nil_r.
    rewrite (zdrop_app_ge (zlen data)) by (rewrite zlen_rget; unfold iovec_len; [lia|by split]).
    rewrite zlen_rget by (by split). unfold iovec_len. rewrite app_assoc, ztake_zdrop. do 2 f_equal. lia.
Qed.

(** The slices of a barrier that hold something and fit. *)
Record barrier_ok (m : mem) (bs : list slice) (room : Z) : Prop := BarrierOk {
  bo_valid : Forall (valid m) bs;
  bo_sep : sep (sregion <$> bs);
  bo_room : entries bs <= room;
  bo_some : 0 < zlen (contents m bs);
  bo_fits : zlen (contents m bs) <= MaxInt32;
}.

Lemma barrier_iovecs m bs room : barrier_ok m bs room →
  ∃ ivs, iovecs bs room = Some ivs ∧ gather m ivs = contents m bs ∧ zlen ivs ≠ 0 ∧
    ivs = sregion <$> filter (λ s, slen s ≠ 0) bs.
Proof.
  intros [Hv Hsep Hr Hs Hf]. eexists. split_and!; [|apply gather_bytes| |done].
  - by apply (iovecs_loop_fits m bs room 0).
  - intros E%zlen_0_nil. rewrite <- gather_bytes, E in Hs. unfold zlen in Hs. simpl in Hs. lia.
Qed.

Lemma filter_sregion_sep bs : sep (sregion <$> bs) → sep (sregion <$> filter (λ s, slen s ≠ 0) bs).
Proof.
  induction bs as [|s bs IH]; [done|]. rewrite filter_cons, fmap_cons. intros [Hd Hsep].
  destruct (decide (slen s ≠ 0)); [|by apply IH]. split; [|by apply IH]. clear -Hd.
  apply Forall_fmap, Forall_forall. intros x [? Hx]%list_elem_of_filter.
  rewrite Forall_forall in Hd. apply Hd. by apply list_elem_of_fmap_2.
Qed.

Lemma filter_sregion_valid m bs : Forall (valid m) bs → Forall (rvalid m) (sregion <$> filter (λ s, slen s ≠ 0) bs).
Proof.
  intros Hv. apply Forall_fmap, Forall_forall. intros s [? Hs]%list_elem_of_filter.
  rewrite Forall_forall in Hv. destruct (Hv s Hs) as (?&?&?). split; simpl; lia.
Qed.

(** ioread: the bytes the kernel delivers are at the front of bs, and no
    other memory is written; the end of the input is the error ErrEOF; EINTR
    and EAGAIN ask the caller to retry; any other error is returned.  The
    elements of bs are nil afterwards. *)
Lemma ioread_ok ptr ans bs room m :
  barrier_ok m bs room → (∀ data, ans = Answer data → zlen data <= zlen (contents m bs)) →
  ∃ r, ioread ptr ans bs room m = Some r ∧ io_bs r = resetIovecs bs ∧
    (∀ q, Forall (λ s, disj (sregion s) q) bs → 0 <= rlo q → rget (io_mem r) q = rget m q) ∧
    match ans with
    | Answer [] => io_n r = 0 ∧ io_err r = Some (Exc ptr ErrEOF EmptyString)
    | Answer data => io_n r = zlen data ∧ io_err r = None ∧
        contents (io_mem r) bs = data ++ zdrop (zlen data) (contents m bs)
    | Fails e => io_mem r = m ∧
        if (e =? EINTR) || (e =? EAGAIN) then io_n r = 0 ∧ io_err r = None
        else io_n r = -1 ∧ io_err r = Some (Errno e)
    end.
Proof.
  intros Hb Hans. destruct (barrier_iovecs _ _ _ Hb) as (ivs&Ei&Hg&Hn&Eivs). destruct Hb as [Hv Hsep Hr Hs Hf].
  assert (Forall (rvalid m) ivs) as Hv' by (subst; by apply filter_sregion_valid).
  assert (sep ivs) as Hsep' by (subst; by apply filter_sregion_sep).
  assert (∀ data q, Forall (λ s, disj (sregion s) q) bs → 0 <= rlo q → rget (scatter m ivs data) q = rget m q) as Hfr.
  { intros data q Hd Hq. apply scatter_frame; [done| |done]. subst ivs. apply Forall_fmap, Forall_forall.
    intros s [? Hin]%list_elem_of_filter. rewrite Forall_forall in Hd. by apply Hd. }
  assert (∀ m', gather m' ivs = contents m' bs) as Hgb by (intros; subst ivs; apply gather_bytes).
  unfold ioread, readv. rewrite Ei. cbn [mbind option_bind]. rewrite (proj2 (Z.eqb_neq _ _)) by done.
  destruct ans as [[|b data]|e]; simpl.
  - eexists. split_and!; [reflexivity|done|by apply Hfr|done..].
  - eexists. split_and!; [reflexivity|done|by apply Hfr|done..|]. simpl.
    rewrite <- !Hgb. apply scatter_gather; [done..|]. rewrite Hgb. by apply Hans.
  - destruct ((e =? EINTR) || (e =? EAGAIN)) eqn:E; (eexists; split_and!; [reflexivity|done..]).
Qed.

(** Sending whatever there is: the kernel is offered at most 2^31-1 bytes. *)
Definition sent_out (ans : answer Z) (offered : list byte) (bs : list slice) : out :=
  match ans with
  | Answer n => Out n None (ztake n offered) (resetIovecs bs)
  | Fails e => Out (-1) (Some (Errno e)) [] (resetIovecs bs)
  end.

Lemma offered_iovecs m bs room :
  Forall (valid m) bs → entries bs <= room → contents m bs ≠ [] →
  ∃ ivs, iovecs bs room = Some ivs ∧ gather m ivs = ztake MaxInt32 (contents m bs) ∧ zlen ivs ≠ 0.
Proof.
  intros Hv Hr Hc. destruct (iovecs_loop_spec m bs room 0 Hv Hr) as (ivs&E&Hg&?&?); [unfold MaxInt32; lia|].
  exists ivs. rewrite Z.sub_0_r in Hg. split_and!; [done..|]. intros E0%zlen_0_nil. rewrite E0 in Hg.
  apply Hc, zlen_0_nil. apply (f_equal zlen) in Hg. rewrite zlen_ztake in Hg. unfold gather in Hg. simpl in Hg.
  rewrite zlen_nil in Hg. pose proof (zlen_nonneg (contents m bs)). unfold MaxInt32 in Hg. lia.
Qed.

Lemma sendmsg_offered ans bs room zerocopy m :
  Forall (valid m) bs → entries bs <= room → contents m bs ≠ [] →
  sendmsg ans bs room zerocopy m =
    Some (sent_out (ans (sendmsg_flags zerocopy)) (ztake MaxInt32 (contents m bs)) bs).
Proof.
  intros Hv Hr Hc. destruct (offered_iovecs m bs room Hv Hr Hc) as (ivs&Ei&Hg&Hn).
  unfold sendmsg. rewrite Ei. cbn [mbind option_bind]. rewrite (proj2 (Z.eqb_neq _ _)) by done.
  rewrite Hg. by destruct (ans _).
Qed.

Lemma iosend_offered stat ans bs room m :
  Forall (valid m) bs → entries bs <= room → contents m bs ≠ [] →
  iosend stat ans bs room false m =
    Some (let r := sent_out (ans 0) (ztake MaxInt32 (contents m bs)) bs in
          if errno_is (out_err r) EAGAIN then Out 0 None (out_sent r) (out_bs r) else r).
Proof.
  intros Hv Hr Hc. unfold iosend. rewrite sendmsg_offered by done.
  assert (writev (ans 0) bs room m = Some (sent_out (ans 0) (ztake MaxInt32 (contents m bs)) bs)) as ->.
  { destruct (offered_iovecs m bs room Hv Hr Hc) as (ivs&Ei&Hg&Hn).
    unfold writev. rewrite Ei. cbn [mbind option_bind]. rewrite (proj2 (Z.eqb_neq _ _)) by done.
    rewrite Hg. by destruct (ans _). }
  unfold sendmsg_flags. destruct (isFifo stat); cbn [mbind option_bind]; cbv zeta; by destruct (errno_is _ _).
Qed.

(** One slice: the kernel copies to its front. *)
Lemma ioread_one ptr ans p room m :
  0 < slen p → slen p < MaxInt32 → 0 < room →
  (∀ data, ans = Answer data → zlen data <= slen p) →
  ioread ptr ans [p] room m = Some
    (match ans with
     | Answer [] => Io 0 (Some (Exc ptr ErrEOF EmptyString)) (scopy m p []) [nil_slice]
     | Answer data => Io (zlen data) None (scopy m p data) [nil_slice]
     | Fails e => if (e =? EINTR) || (e =? EAGAIN) then Io 0 None m [nil_slice]
                  else Io (-1) (Some (Errno e)) m [nil_slice]
     end).
Proof.
  intros Hp Hm Hr Hans. unfold ioread, readv, iovecs. simpl.
  rewrite (proj2 (Z.eqb_neq _ _)), (proj2 (Z.leb_gt _ _)), (proj2 (Z.ltb_lt _ _)) by lia. simpl.
  destruct ans as [data|e]; [|by destruct ((e =? EINTR) || (e =? EAGAIN)) eqn:E; simpl; rewrite E].
  assert (mput m (sarr p) (soff p) (ztake (iovec_len (Region (sarr p) (soff p) (soff p + slen p))) data) = scopy m p data) as ->.
  { unfold scopy, iovec_len. simpl. do 2 f_equal. lia. }
  destruct data; [done|]. simpl. done.
Qed.

(** isFifo looks at one bit of the file type, and no other type has it: the
    types are those of inode(7). *)
Lemma isFifo_type mode :
  Z.land mode 0xF000 ∈ [0xC000; 0xA000; 0x8000; 0x6000; 0x4000; 0x2000; 0x1000] →
  isFifo (Answer mode) = (Z.land mode 0xF000 =? S_IFIFO).
Proof.
  intros Hin. unfold isFifo, S_IFIFO.
  assert (Z.land mode 0x1000 = Z.land (Z.land mode 0xF000) 0x1000) as -> by (by rewrite <- Z.land_assoc).
  generalize dependent (Z.land mode 0xF000). intros t Hin.
  set_unfold in Hin. destruct_or! Hin; subst t; reflexivity.
Qed.

(** An empty list of slices is no system call at all: ioread takes it for the
    end of the input.  readall reads again into the slices that the call before
    has set to nil, so that EAGAIN becomes ErrEOF. *)
Lemma ioread_retry_is_eof ptr ans n room m :
  ioread ptr ans (resetIovecs (replicate n nil_slice)) room m
  = Some (Io 0 (Some (Exc ptr ErrEOF EmptyString)) m (resetIovecs (replicate n nil_slice))).
Proof.
  assert (iovecs (resetIovecs (replicate n nil_slice)) room = Some []) as E.
  { unfold iovecs, resetIovecs. induction n; [done|]. simpl. done. }
  unfold ioread, readv. rewrite E. done.
Qed.

(** ** Two slices of 2 and 3 bytes *)

Definition demo_mem : mem := {[1%nat := replicate 4 Byte.x00; 2%nat := replicate 4 Byte.x61]}.
Definition demo_bs : list slice := [Slice 1 1 2 3; Slice 2 0 3 4].

Lemma demo_barrier_ok : barrier_ok demo_mem demo_bs barriercap.
Proof.
  constructor; try (vm_compute; done).
  - repeat constructor; vm_compute; done.
  - simpl. split_and!; [|constructor|done]. constructor; [|constructor]. left. simpl. lia.
Qed.

Lemma iovecs_spec_witness :
  ∃ ivs, iovecs demo_bs barriercap = Some ivs ∧ gather demo_mem ivs = ztake MaxInt32 (contents demo_mem demo_bs) ∧
    zlen ivs <= barriercap ∧ Forall (λ r, 0 < iovec_len r) ivs.
Proof. apply iovecs_spec; apply demo_barrier_ok. Defined.
