(* ===== verification/LinkNode.v ===== *)
(** * The nodes of a link buffer

    Models [linkBufferNode] of src/nocopy_linkbuffer.go, the allocation
    helpers of src/nocopy.go and the heap the nodes live in.

    The heap keeps the nodes and the backing arrays.  The [refer] field of a
    node, the only one that is updated atomically, is kept in a map of its own.
    The pool [linkedPool] is the list of the nodes that were put back; which
    one [Get] returns is a parameter, as is the content of fresh memory and the
    capacity that mcache rounds a request up to.  Memory that is given back to
    mcache is recorded in [hfreed]. *)

From S2P Require Import Prelude GoMem.

Open Scope Z_scope.

Abbreviation loc := nat (only parsing).

Definition block1k : Z := 1 * 1024.
Definition block4k : Z := 4 * 1024.
Definition block8k : Z := 8 * 1024.
Definition pagesize : Z := block8k.
Definition mallocMax : Z := block8k * block1k.
Definition minReuseBytes : Z := 64.
Definition defaultLinkBufferMode : Z := 0.
Definition readonlyMask : Z := Z.shiftl 1 0.
Definition nocopyReadMask : Z := Z.shiftl 1 1.

(** What the code relies on and does not define. *)
Class Runtime := {
  (** capacity of the buffer [mcache.Malloc] returns for a request *)
  mcache_cap : Z → Z;
  (** content of memory that was never written *)
  dirty : aid → nat → byte;
  (** the node [linkedPool.Get] returns, [None] for a new one *)
  pool_pick : list loc → option loc;
  (** package variables *)
  LinkBufferCap : Z;
  featureAlwaysNoCopyRead : bool;
}.

(** [mcache.Malloc] returns at least the capacity asked for. *)
Class RuntimeOk (rt : Runtime) : Prop :=
  mcache_cap_ge : ∀ c, c <= mcache_cap c.

Record linkBufferNode := Node {
  buf : slice;
  off : Z;
  nmalloc : Z;
  mode : Z;
  origin : option loc;
  next : option loc;
}.

Record heap := Heap {
  hnodes : gmap nat linkBufferNode;
  hrefer : gmap nat Z;
  hpool : list loc;
  hmem : mem;
  hfreed : list aid;
  hnloc : loc;
  haid : aid;
}.

Definition empty_heap : heap := Heap ∅ ∅ [] ∅ [] 0%nat 1%nat.

(** ** Updates of records *)

Definition set_buf b nd := Node b (off nd) (nmalloc nd) (mode nd) (origin nd) (next nd).
Definition set_off o nd := Node (buf nd) o (nmalloc nd) (mode nd) (origin nd) (next nd).
Definition set_malloc m nd := Node (buf nd) (off nd) m (mode nd) (origin nd) (next nd).
Definition set_mode m nd := Node (buf nd) (off nd) (nmalloc nd) m (origin nd) (next nd).
Definition set_origin o nd := Node (buf nd) (off nd) (nmalloc nd) (mode nd) o (next nd).
Definition set_next x nd := Node (buf nd) (off nd) (nmalloc nd) (mode nd) (origin nd) x.

Definition set_nodes ns h :=
  Heap ns (hrefer h) (hpool h) (hmem h) (hfreed h) (hnloc h) (haid h).
Definition set_refer rs h :=
  Heap (hnodes h) rs (hpool h) (hmem h) (hfreed h) (hnloc h) (haid h).
Definition set_pool p h :=
  Heap (hnodes h) (hrefer h) p (hmem h) (hfreed h) (hnloc h) (haid h).
Definition set_mem m h :=
  Heap (hnodes h) (hrefer h) (hpool h) m (hfreed h) (hnloc h) (haid h).
Definition set_freed f h :=
  Heap (hnodes h) (hrefer h) (hpool h) (hmem h) f (hnloc h) (haid h).

(** ** Heap accesses *)

(** A nil pointer panics. *)
Definition load (p : option loc) : M heap linkBufferNode :=
  match p with
  | None => panic
  | Some l => λ h, match hnodes h !! l with Some nd => Ret (nd, h) | None => Panic end
  end.

Definition loc_of (p : option loc) : M heap loc :=
  match p with None => panic | Some l => mret l end.

Definition store (l : loc) (nd : linkBufferNode) : M heap unit :=
  modify (λ h, set_nodes (<[l := nd]> (hnodes h)) h).

(** Field updates through a pointer. *)
Definition update (p : option loc) (f : linkBufferNode → linkBufferNode) : M heap unit :=
  nd ← load p; l ← loc_of p; store l (f nd).

(** A reslicing that may panic. *)
Definition some {S A} (o : option A) : M S A :=
  match o with Some a => mret a | None => panic end.

(** Go's [copy] into a slice; returns the number of bytes copied. *)
Definition copy_in (dst : slice) (bs : list byte) : M heap Z :=
  _ ← modify (λ h, set_mem (scopy (hmem h) dst bs) h);
  mret (Z.min (slen dst) (zlen bs)).

Definition read_slice (s : slice) : M heap (list byte) := λ h, Ret (sget (hmem h) s, h).

Section alloc.
Context `{rt : Runtime}.

Definition dirty_bytes (a : aid) (c : Z) : list byte := map (dirty a) (seq 0 (Z.to_nat c)).

Definition new_array (c : Z) : M heap aid := λ h,
  let a := haid h in
  Ret (a, Heap (hnodes h) (hrefer h) (hpool h) (<[a := dirty_bytes a c]> (hmem h))
               (hfreed h) (hnloc h) (S a)).

Definition dirtmake_Bytes (size capacity : Z) : M heap slice :=
  a ← new_array capacity; mret (Slice a 0 size capacity).

Definition mcache_Malloc (size capacity : Z) : M heap slice :=
  a ← new_array (mcache_cap capacity); mret (Slice a 0 size (mcache_cap capacity)).

(** malloc limits the cap of the buffer from mcache. *)
Definition malloc (size capacity : Z) : M heap slice :=
  if mallocMax <? capacity then dirtmake_Bytes size capacity
  else mcache_Malloc size capacity.

(** free limits the cap of the buffer from mcache. *)
Definition free (b : slice) : M heap unit :=
  if mallocMax <? scap b then mret ()
  else modify (λ h, set_freed (sarr b :: hfreed h) h).

(** [linkedPool.New]: a zeroed node with one reference. *)
Definition pool_New : M heap loc := λ h,
  let l := hnloc h in
  Ret (l, Heap (<[l := Node nil_slice 0 0 0 None None]> (hnodes h))
               (<[l := 1]> (hrefer h)) (hpool h) (hmem h) (hfreed h) (S l) (haid h)).

(** [linkedPool.Get]: some node of the pool, or a new one. *)
Definition pool_Get : M heap loc := λ h,
  match pool_pick (hpool h) with
  | Some l =>
      if decide (l ∈ hpool h)
      then Ret (l, set_pool (filter (λ x, x ≠ l) (hpool h)) h)
      else pool_New h
  | None => pool_New h
  end.

Definition pool_Put (l : loc) : M heap unit := modify (λ h, set_pool (l :: hpool h) h).

Definition getMode (nd : linkBufferNode) (mask : Z) : bool := 0 <? Z.land (mode nd) mask.

Definition setMode (mask : Z) (enable : bool) (nd : linkBufferNode) : linkBufferNode :=
  if enable then set_mode (Z.lor (mode nd) mask) nd
  else set_mode (Z.ldiff (mode nd) mask) nd.

(** only non-readonly and copied-read node should be reusable *)
Definition reusable (nd : linkBufferNode) : bool :=
  Z.land (mode nd) (Z.lor readonlyMask nocopyReadMask) =? 0.

(** newLinkBufferNode create or reuse linkBufferNode. *)
Definition newLinkBufferNode (size : Z) : M heap loc :=
  l ← pool_Get;
  _ ← update (Some l) (λ nd, set_mode defaultLinkBufferMode (set_malloc 0 (set_off 0 nd)));
  _ ← modify (λ h, set_refer (<[l := 1]> (hrefer h)) h);
  if size <=? 0 then
    _ ← update (Some l) (setMode readonlyMask true);
    mret l
  else
    let size := if size <? LinkBufferCap then LinkBufferCap else size in
    b ← malloc 0 size;
    _ ← update (Some l) (set_buf b);
    mret l.

Definition node_Len (nd : linkBufferNode) : Z := slen (buf nd) - off nd.

Definition node_IsEmpty (nd : linkBufferNode) : bool := off nd =? slen (buf nd).

Definition refer_of (h : heap) (l : loc) : Z := default 0 (hrefer h !! l).

Definition node_Reset (p : option loc) : M heap unit :=
  nd ← load p; l ← loc_of p; h ← get;
  if bool_decide (origin nd ≠ None) || negb (refer_of h l =? 1) then mret ()
  else
    _ ← update p (λ nd, set_malloc 0 (set_off 0 nd));
    b ← some (slice2 (buf nd) 0 0);
    update p (set_buf b).

(** The next [n] bytes of the node, and advance past them. *)
Definition node_Next (p : option loc) (n : Z) : M heap slice :=
  nd ← load p;
  let o := off nd in
  _ ← update p (set_off (o + n));
  some (slice3 (buf nd) o (o + n) (o + n)).

Definition node_Peek (p : option loc) (n : Z) : M heap slice :=
  nd ← load p;
  some (slice3 (buf nd) (off nd) (off nd + n) (off nd + n)).

Definition node_Malloc (p : option loc) (n : Z) : M heap slice :=
  nd ← load p;
  let m := nmalloc nd in
  _ ← update p (set_malloc (m + n));
  some (slice3 (buf nd) m (m + n) (m + n)).

(** Refer holds a reference count at the same time as Next. *)
Definition node_Refer (p : option loc) (n : Z) : M heap loc :=
  q ← newLinkBufferNode 0;
  b ← node_Next p n;
  _ ← update (Some q) (set_buf b);
  nd ← load p;
  o ← match origin nd with Some o => mret o | None => loc_of p end;
  _ ← update (Some q) (set_origin (Some o));
  _ ← modify (λ h, set_refer (<[o := refer_of h o + 1]> (hrefer h)) h);
  mret q.

(** release self: the node is recycled when its count is 0; readonly nodes
    cannot recycle node.buf, other node.buf are recycled to mcache. *)
Definition node_release_self (p : option loc) : M heap unit :=
  l ← loc_of p;
  _ ← modify (λ h, set_refer (<[l := refer_of h l - 1]> (hrefer h)) h);
  h ← get;
  if refer_of h l =? 0 then
    nd ← load p;
    _ ← (if reusable nd then free (buf nd) else mret ());
    _ ← update p (λ nd, set_next None (set_origin None (set_buf nil_slice nd)));
    pool_Put l
  else mret ().

(** Release reduces the reference counts of the node's origin and of the
    node. *)
Fixpoint node_Release_fuel (fuel : nat) (p : option loc) : M heap unit :=
  match fuel with
  | O => out_of_fuel
  | S fuel =>
      nd ← load p;
      _ ← (match origin nd with
           | Some o => node_Release_fuel fuel (Some o)
           | None => mret ()
           end);
      node_release_self p
  end.

(** A pointer chain is at most as long as there are nodes. *)
Definition nfuel (h : heap) : nat := S (size (hnodes h)).

Definition node_Release (p : option loc) : M heap unit :=
  h ← get; node_Release_fuel (nfuel h) p.
End alloc.
