(* ===== verification/Sim.v ===== *)
(** * Two programs that do the same on states that correspond

    [sim abs ok m m']: from a state that is [ok], [m] does what [m'] does from
    the state it stands for, and ends in a state that is [ok]. *)

From S2P Require Import Prelude LinkNode.

Section sim.
Context {S T : Type} (abs : S → T) (ok : S → Prop).

Definition omap {A} (r : outcome (A * S)) : outcome (A * T) :=
  match r with Ret (a, s) => Ret (a, abs s) | Panic => Panic | OutOfFuel => OutOfFuel end.

Definition sim {A} (m : M S A) (m' : M T A) : Prop := ∀ s, ok s →
  m' (abs s) = omap (m s) ∧ ∀ a s', m s = Ret (a, s') → ok s'.

Lemma sim_ret {A} (a : A) : sim (mret a) (mret a).
Proof. intros s Hs. split; [done|]. by intros ? ? [= <- <-]. Qed.

Lemma sim_bind {A B} (m : M S A) m' (k : A → M S B) k' :
  sim m m' → (∀ a, sim (k a) (k' a)) → sim (m ≫= k) (m' ≫= k').
Proof.
  intros Hm Hk s Hs. destruct (Hm s Hs) as [E Hok]. unfold mbind, M_bind. rewrite E.
  destruct (m s) as [[a s']| |]; [|done..]. simpl. by apply Hk, (Hok a).
Qed.

(** What is read off the state may differ, what is done with it not. *)
Lemma sim_get {B} (k : S → M S B) k' :
  (∀ s, ok s → sim (k s) (k' (abs s))) → sim (get ≫= k) (get ≫= k').
Proof. intros Hk s Hs. by apply Hk. Qed.

Lemma sim_modify f g : (∀ s, ok s → g (abs s) = abs (f s) ∧ ok (f s)) → sim (modify f) (modify g).
Proof. intros Hf s Hs. destruct (Hf s Hs) as [E Hok]. unfold modify. rewrite E. split; [done|]. by intros ? ? [= <- <-]. Qed.

Lemma sim_zoom {U A} (p : S → U) u (p' : T → U) u' (m : M U A) :
  (∀ s, p' (abs s) = p s) → (∀ x s, ok s → u' x (abs s) = abs (u x s) ∧ ok (u x s)) →
  sim (zoom p u m) (zoom p' u' m).
Proof.
  intros Hp Hu s Hs. unfold zoom. rewrite Hp. destruct (m (p s)) as [[a x]| |]; [|done..].
  destruct (Hu x s Hs) as [E Hok]. simpl. rewrite E. split; [done|]. by intros ? ? [= <- <-].
Qed.

Lemma sim_some {A} (o : option A) : sim (some o) (some o).
Proof. intros s Hs. unfold some. destruct o; simpl; split; try done. by intros ? ? [= <- <-]. Qed.

Lemma sim_out_of_fuel {A} : sim (@out_of_fuel S A) (@out_of_fuel T A).
Proof. by intros s Hs. Qed.

Lemma sim_if {A} (b b' : bool) (m n : M S A) m' n' :
  b = b' → sim m m' → sim n n' → sim (if b then m else n) (if b' then m' else n').
Proof. intros <- Hm Hn. by destruct b. Qed.

Lemma sim_assoc {A B C} (m : M S A) (k : A → M S B) (h : B → M S C) m' :
  sim (m ≫= λ a, k a ≫= h) m' → sim ((m ≫= k) ≫= h) m'.
Proof.
  intros Hm s Hs. specialize (Hm s Hs). unfold mbind, M_bind in *. by destruct (m s) as [[]| |].
Qed.

(** What the one returns and the other does not is not used. *)
Lemma sim_forget {A B C} (m : M S A) (m' : M T B) (k : A → M S C) k' :
  sim (_ ← m; mret ()) (_ ← m'; mret ()) → (∀ a, sim (k a) k') → sim (m ≫= k) (m' ≫= λ _, k').
Proof.
  intros Hm Hk s Hs. destruct (Hm s Hs) as [E Hok]. unfold mbind, M_bind in *.
  destruct (m s) as [[a s']| |], (m' (abs s)) as [[b t]| |]; try done. injection E as ->. by apply Hk, (Hok tt).
Qed.

(** What is proved of the one holds of the other. *)
Lemma sim_wp {A} (m : M S A) m' Q s :
  sim m m' → ok s → wp m' Q (abs s) → wp m (λ a s', Q a (abs s') ∧ ok s') s.
Proof.
  intros Hm Hs Hw. destruct (Hm s Hs) as [E Hok]. unfold wp in *. rewrite E in Hw.
  destruct (m s) as [[a s']| |]; [|done..]. by split; [|eapply Hok].
Qed.
End sim.

(** What holds of a result, should there be one. *)
Definition yields {S A} (m : M S A) (Q : A → S → Prop) (s : S) : Prop := ∀ a s', m s = Ret (a, s') → Q a s'.

Lemma yields_ret {S A} (a : A) (Q : A → S → Prop) s : Q a s → yields (mret a) Q s.
Proof. by intros HQ ? ? [= <- <-]. Qed.

Lemma yields_bind {S A B} (m : M S A) (k : A → M S B) Q s :
  yields m (λ a, yields (k a) Q) s → yields (m ≫= k) Q s.
Proof.
  intros Hm b s' E. unfold mbind, M_bind in E. destruct (m s) as [[a s1]| |] eqn:Em; [|done..]. by eapply Hm.
Qed.

Lemma yields_get {S} (Q : S → S → Prop) s : Q s s → yields get Q s.
Proof. by intros HQ ? ? [= <- <-]. Qed.

Lemma yields_modify {S} (f : S → S) Q s : Q () (f s) → yields (modify f) Q s.
Proof. by intros HQ ? ? [= <- <-]. Qed.

Lemma yields_zoom {S T A} (p : T → S) u (m : M S A) Q t : yields m (λ a s, Q a (u s t)) (p t) → yields (zoom p u m) Q t.
Proof. intros Hm a t' E. unfold zoom in E. destruct (m (p t)) as [[]| |] eqn:Em; [|done..]. injection E as <- <-. by apply Hm. Qed.

Lemma yields_mono {S A} (m : M S A) (P Q : A → S → Prop) s : yields m P s → (∀ a s', P a s' → Q a s') → yields m Q s.
Proof. intros Hm HPQ a s' E. by apply HPQ, Hm. Qed.

Lemma yields_some {S A} (o : option A) (Q : A → S → Prop) s : (∀ a, o = Some a → Q a s) → yields (some o) Q s.
Proof. intros HQ a s' E. unfold some in E. destruct o; [|done]. injection E as <- <-. by apply HQ. Qed.

Lemma yields_any {S A} (m : M S A) (Q : A → S → Prop) s : (∀ a s', Q a s') → yields m Q s.
Proof. intros HQ a s' _. apply HQ. Qed.

Create HintDb sim.
#[export] Hint Resolve sim_ret sim_bind sim_some sim_out_of_fuel sim_if : sim.
