(* ===== verification/LinkBuffer.v ===== *)
(** * The link buffer: operations

    Models [UnsafeLinkBuffer] of src/nocopy_linkbuffer.go.  The methods run in
    a state that holds the receiver and the heap; a second buffer (the argument
    of [WriteBuffer], the result of [Slice]) is a value that is passed around.
    A loop of the source is a fixpoint on a fuel of one step per node of the
    heap and one more, see [nfuel]. *)

From S2P Require Import Prelude GoMem LinkNode.

Open Scope Z_scope.

Record LinkBuffer := LB {
  blength : Z;
  mallocSize : Z;
  head : option loc;
  read : option loc;
  flush : option loc;
  write : option loc;
  caches : list slice;
  cachePeek : option slice;
}.

(** The receiver and the heap. *)
Record st := St { lb : LinkBuffer; hp : heap }.

Inductive lberr :=
| ErrNotEnough (n : Z)        (* link buffer ...[%d] not enough *)
| ErrReadByteEmpty            (* link buffer read byte is empty *)
| ErrUntil                    (* untilErr *)
| ErrMallocAckInvalid (n : Z) (* link buffer malloc ack[%d] invalid *)
| ErrUnsupportedWriter.       (* unsupported writer which is not LinkBuffer *)

(** ** Updates of records *)

Definition set_length x b := LB x (mallocSize b) (head b) (read b) (flush b) (write b) (caches b) (cachePeek b).
Definition set_mallocSize x b := LB (blength b) x (head b) (read b) (flush b) (write b) (caches b) (cachePeek b).
Definition set_head x b := LB (blength b) (mallocSize b) x (read b) (flush b) (write b) (caches b) (cachePeek b).
Definition set_read x b := LB (blength b) (mallocSize b) (head b) x (flush b) (write b) (caches b) (cachePeek b).
Definition set_flush x b := LB (blength b) (mallocSize b) (head b) (read b) x (write b) (caches b) (cachePeek b).
Definition set_write x b := LB (blength b) (mallocSize b) (head b) (read b) (flush b) x (caches b) (cachePeek b).
Definition set_caches x b := LB (blength b) (mallocSize b) (head b) (read b) (flush b) (write b) x (cachePeek b).
Definition set_cachePeek x b := LB (blength b) (mallocSize b) (head b) (read b) (flush b) (write b) (caches b) x.

Definition set_hp (h : heap) (s : st) : st := St (lb s) h.

(** A heap program, run in the state. *)
Definition H {A} (m : M heap A) : M st A := zoom hp set_hp m.

(** Assign a field of the receiver. *)
Definition setb (f : LinkBuffer → LinkBuffer) : M st unit := modify (λ s, St (f (lb s)) (hp s)).

(** Read the receiver. *)
Definition getb : M st LinkBuffer := λ s, Ret (lb s, s).

Definition fuel_of : M st nat := λ s, Ret (nfuel (hp s), s).

(** Pointer comparison. *)
Definition peq (p q : option loc) : bool := bool_decide (p = q).

(** [x = x.next] *)
Definition next_of (p : option loc) : M st (option loc) := nd ← H (load p); mret (next nd).

(** Go's [append(p, bs...)]: in place when the capacity allows it. *)
Section append.
Context `{rt : Runtime}.
Definition append_bytes (p : slice) (bs : list byte) : M heap slice :=
  if slen p + zlen bs <=? scap p then
    _ ← modify (λ h, set_mem (mput (hmem h) (sarr p) (soff p + slen p) bs) h);
    mret (Slice (sarr p) (soff p) (slen p + zlen bs) (scap p))
  else
    old ← read_slice p;
    q ← dirtmake_Bytes (slen p + zlen bs) (slen p + zlen bs);
    _ ← copy_in q (old ++ bs);
    mret q.
End append.

(** [bytes.IndexByte] *)
Fixpoint IndexByte (bs : list byte) (c : byte) : Z :=
  match bs with
  | [] => -1
  | b :: bs =>
      if decide (b = c) then 0
      else let i := IndexByte bs c in if i <? 0 then -1 else 1 + i
  end.

Section ops.
Context `{rt : Runtime}.

(** NewLinkBuffer size defines the initial capacity, but there is no readable data. *)
Definition NewLinkBuffer (size : Z) : M heap LinkBuffer :=
  node ← newLinkBufferNode size;
  mret (LB 0 0 (Some node) (Some node) (Some node) (Some node) [] None).

Definition Len (b : LinkBuffer) : Z := blength b.

Definition IsEmpty (b : LinkBuffer) : bool := Len b =? 0.

(** *** Private helpers *)

(** recalLen re-calculates the length; a read drops the bytes cached by Peek. *)
Definition recalLen (delta : Z) : M st Z :=
  b ← getb;
  _ ← (match cachePeek b with
       | Some c =>
           if (delta <? 0) && (0 <? slen c)
           then c' ← some (slice2 c 0 0); setb (set_cachePeek (Some c'))
           else mret ()
       | None => mret ()
       end);
  _ ← setb (set_length (blength b + delta));
  mret (blength b + delta).

(** growth directly create the next node, when b.write is not enough. *)
Fixpoint growth_loop (fuel : nat) (n : Z) : M st unit :=
  match fuel with
  | O => out_of_fuel
  | S fuel =>
      b ← getb;
      w ← H (load (write b));
      if getMode w readonlyMask || (scap (buf w) - nmalloc w <? n) then
        match next w with
        | None =>
            x ← H (newLinkBufferNode n);
            _ ← H (update (write b) (set_next (Some x)));
            setb (set_write (Some x))
        | Some _ =>
            _ ← setb (set_write (next w));
            growth_loop fuel n
        end
      else mret ()
  end.

Definition growth (n : Z) : M st unit :=
  if n <=? 0 then mret () else fuel ← fuel_of; growth_loop fuel n.

(** isSingleNode determines whether reading needs to cross nodes, and moves
    b.read to the first non-empty node. *)
Fixpoint isSingleNode_loop (fuel : nat) : M st Z :=
  match fuel with
  | O => out_of_fuel
  | S fuel =>
      b ← getb;
      nd ← H (load (read b));
      if (node_Len nd =? 0) && negb (peq (read b) (flush b)) then
        _ ← setb (set_read (next nd));
        isSingleNode_loop fuel
      else mret (node_Len nd)
  end.

Definition isSingleNode (readN : Z) : M st bool :=
  if readN <=? 0 then mret true
  else
    fuel ← fuel_of;
    l ← isSingleNode_loop fuel;
    mret (readN <=? l).

(** *** Reader *)

(** The copy loop of Next and readBinary: fill [p] from [pIdx] on with the
    next [ack] bytes, node by node. *)
Fixpoint read_nodes (fuel : nat) (p : slice) (pIdx ack : Z) : M st Z :=
  match fuel with
  | O => out_of_fuel
  | S fuel =>
      if ack <=? 0 then mret pIdx
      else
        b ← getb;
        nd ← H (load (read b));
        let l := node_Len nd in
        if ack <=? l then
          src ← H (node_Next (read b) ack);
          bs ← H (read_slice src);
          dst ← some (slice_from p pIdx);
          k ← H (copy_in dst bs);
          mret (pIdx + k)
        else
          pIdx ← (if 0 <? l then
                    src ← H (node_Next (read b) l);
                    bs ← H (read_slice src);
                    dst ← some (slice_from p pIdx);
                    k ← H (copy_in dst bs);
                    mret (pIdx + k)
                  else mret pIdx);
          x ← next_of (read b);
          _ ← setb (set_read x);
          read_nodes fuel p pIdx (ack - l)
  end.

Definition Next (n : Z) : M st (slice * option lberr) :=
  if n <=? 0 then mret (nil_slice, None)
  else
    b ← getb;
    if Len b <? n then mret (nil_slice, Some (ErrNotEnough n))
    else
      _ ← recalLen (- n);
      single ← isSingleNode n;
      if single : bool then
        b ← getb;
        p ← H (node_Next (read b) n);
        mret (p, None)
      else
        p ← (if (block1k <? n) && (n <=? mallocMax) then
               p ← H (malloc n n);
               b ← getb;
               _ ← setb (set_caches (caches b ++ [p]));
               mret p
             else H (dirtmake_Bytes n n));
        fuel ← fuel_of;
        _ ← read_nodes fuel p 0 n;
        mret (p, None).

(** The scan of Peek: append to [p] what it lacks of the first [n] bytes. *)
Fixpoint peek_loop (fuel : nat) (n scanned : Z) (node : option loc) (p : slice) : M st slice :=
  match fuel with
  | O => out_of_fuel
  | S fuel =>
      if slen p <? n then
        nd ← H (load node);
        let l := node_Len nd in
        if scanned + l <=? slen p then
          peek_loop fuel n (scanned + l) (next nd) p
        else
          let start := slen p - scanned in
          let copyn := n - slen p in
          let nodeLeftN := l - start in
          let copyn := if nodeLeftN <? copyn then nodeLeftN else copyn in
          q ← H (node_Peek node l);
          q ← some (slice2 q start (start + copyn));
          bs ← H (read_slice q);
          p ← H (append_bytes p bs);
          peek_loop fuel n (scanned + l) (next nd) p
      else mret p
  end.

Definition Peek (n : Z) : M st (slice * option lberr) :=
  if n <=? 0 then mret (nil_slice, None)
  else
    b ← getb;
    if Len b <? n then mret (nil_slice, Some (ErrNotEnough n))
    else
      single ← isSingleNode n;
      b ← getb;
      if single : bool then
        p ← H (node_Peek (read b) n);
        mret (p, None)
      else
        (* try to make use of the cap of b.cachePeek, if can't, free it *)
        _ ← (match cachePeek b with
             | Some c =>
                 if scap c <? n
                 then _ ← H (free c); setb (set_cachePeek None)
                 else mret ()
             | None => mret ()
             end);
        b ← getb;
        p ← (match cachePeek b with
             | None => p ← H (malloc 0 n); _ ← setb (set_cachePeek (Some p)); mret p
             | Some c => mret c
             end);
        if n <=? slen p then
          q ← some (slice2 p 0 n); mret (q, None)
        else
          fuel ← fuel_of;
          p ← peek_loop fuel n 0 (read b) p;
          _ ← setb (set_cachePeek (Some p));
          q ← some (slice2 p 0 n);
          mret (q, None).

Fixpoint skip_loop (fuel : nat) (ack : Z) : M st unit :=
  match fuel with
  | O => out_of_fuel
  | S fuel =>
      if ack <=? 0 then mret ()
      else
        b ← getb;
        nd ← H (load (read b));
        let l := node_Len nd in
        if ack <=? l then H (update (read b) (set_off (off nd + ack)))
        else
          _ ← setb (set_read (next nd));
          skip_loop fuel (ack - l)
  end.

Definition Skip (n : Z) : M st (option lberr) :=
  if n <=? 0 then mret None
  else
    b ← getb;
    if Len b <? n then mret (Some (ErrNotEnough n))
    else
      _ ← recalLen (- n);
      fuel ← fuel_of;
      _ ← skip_loop fuel n;
      mret None.

(** Release: first move b.read past the empty nodes up to b.flush, ... *)
Fixpoint release_read (fuel : nat) : M st unit :=
  match fuel with
  | O => out_of_fuel
  | S fuel =>
      b ← getb;
      if peq (read b) (flush b) then mret ()
      else
        nd ← H (load (read b));
        if node_Len nd =? 0 then
          _ ← setb (set_read (next nd));
          release_read fuel
        else mret ()
  end.

(** ... then release the nodes before b.read. *)
Fixpoint release_head (fuel : nat) : M st unit :=
  match fuel with
  | O => out_of_fuel
  | S fuel =>
      b ← getb;
      if peq (head b) (read b) then mret ()
      else
        let node := head b in
        x ← next_of node;
        _ ← setb (set_head x);
        _ ← H (node_Release node);
        release_head fuel
  end.

Fixpoint free_all (cs : list slice) : M heap unit :=
  match cs with
  | [] => mret ()
  | c :: cs => _ ← free c; free_all cs
  end.

Definition Release : M st (option lberr) :=
  fuel ← fuel_of;
  _ ← release_read fuel;
  fuel ← fuel_of;
  _ ← release_head fuel;
  b ← getb;
  _ ← H (free_all (caches b));
  _ ← setb (set_caches []);
  _ ← (match cachePeek b with
       | Some c => _ ← H (free c); setb (set_cachePeek None)
       | None => mret ()
       end);
  mret None.

(** readBinary cannot use mcache, because the memory will not be recycled. *)
Definition readBinary (n : Z) : M st slice :=
  _ ← recalLen (- n);
  single ← isSingleNode n;
  b ← getb;
  if single : bool then
    nd ← H (load (read b));
    if negb (getMode nd readonlyMask) && getMode nd nocopyReadMask then
      H (node_Next (read b) n)
    else if negb (getMode nd readonlyMask) && (featureAlwaysNoCopyRead && (minReuseBytes <=? n)) then
      _ ← H (update (read b) (setMode nocopyReadMask true));
      H (node_Next (read b) n)
    else
      p ← H (dirtmake_Bytes n n);
      src ← H (node_Next (read b) n);
      bs ← H (read_slice src);
      _ ← H (copy_in p bs);
      mret p
  else
    p ← H (dirtmake_Bytes n n);
    fuel ← fuel_of;
    _ ← read_nodes fuel p 0 n;
    mret p.

(** A string is a window of immutable bytes, as a slice is of mutable ones. *)
Definition ReadString (n : Z) : M st (slice * option lberr) :=
  if n <=? 0 then mret (nil_slice, None)
  else
    b ← getb;
    if Len b <? n then mret (nil_slice, Some (ErrNotEnough n))
    else p ← readBinary n; mret (p, None).

Definition ReadBinary (n : Z) : M st (slice * option lberr) :=
  if n <=? 0 then mret (nil_slice, None)
  else
    b ← getb;
    if Len b <? n then mret (nil_slice, Some (ErrNotEnough n))
    else p ← readBinary n; mret (p, None).

Fixpoint readByte_loop (fuel : nat) : M st byte :=
  match fuel with
  | O => out_of_fuel
  | S fuel =>
      b ← getb;
      nd ← H (load (read b));
      if 1 <=? node_Len nd then
        q ← H (node_Next (read b) 1);
        bs ← H (read_slice q);
        some (hd_error bs)
      else
        _ ← setb (set_read (next nd));
        readByte_loop fuel
  end.

Definition ReadByte : M st (byte * option lberr) :=
  b ← getb;
  if Len b <? 1 then mret (Byte.x00, Some ErrReadByteEmpty)
  else
    _ ← recalLen (- 1);
    fuel ← fuel_of;
    c ← readByte_loop fuel;
    mret (c, None).

(** indexByte returns the index of the first instance of c in buffer, or -1
    if c is not present in buffer. *)
Fixpoint indexByte_loop (fuel : nat) (c : byte) (size unread skip : Z)
    (node : option loc) : M st Z :=
  match fuel with
  | O => out_of_fuel
  | S fuel =>
      if unread <=? 0 then mret (-1)
      else
        nd ← H (load node);
        let l := node_Len nd in
        let n := if unread <=? l then unread else l in
        if n <=? skip then
          indexByte_loop fuel c size (unread - n) (skip - n) (next nd)
        else
          q ← H (node_Peek node n);
          q ← some (slice_from q skip);
          bs ← H (read_slice q);
          let i := IndexByte bs c in
          if 0 <=? i then mret ((size - unread) + skip + i)
          else indexByte_loop fuel c size (unread - n) 0 (next nd)
  end.

Definition indexByte (c : byte) (skip : Z) : M st Z :=
  b ← getb;
  let size := Len b in
  if size <=? skip then mret (-1)
  else
    fuel ← fuel_of;
    indexByte_loop fuel c size size skip (read b).

(** Until returns a slice ends with the delim in the buffer. *)
Definition Until (delim : byte) : M st (slice * option lberr) :=
  n ← indexByte delim 0;
  if n <? 0 then mret (nil_slice, Some ErrUntil) else Next (n + 1).

(** The loop of Slice: refer to the nodes that hold the next [ack] bytes,
    linking the new nodes after [pf]. *)
Fixpoint slice_loop (fuel : nat) (ack : Z) (pf : option loc) : M st (option loc) :=
  match fuel with
  | O => out_of_fuel
  | S fuel =>
      if ack <=? 0 then mret pf
      else
        b ← getb;
        nd ← H (load (read b));
        let l := node_Len nd in
        if ack <=? l then
          x ← H (node_Refer (read b) ack);
          _ ← H (update pf (set_next (Some x)));
          mret (Some x)
        else
          pf ← (if 0 <? l then
                  x ← H (node_Refer (read b) l);
                  _ ← H (update pf (set_next (Some x)));
                  mret (Some x)
                else mret pf);
          x ← next_of (read b);
          _ ← setb (set_read x);
          slice_loop fuel (ack - l) pf
  end.

(** Slice returns a new LinkBuffer, which is a zero-copy slice of this one.
    The deferred function makes it read-only. *)
Definition Slice_ (n : Z) : M st (option LinkBuffer * option lberr) :=
  if n <=? 0 then p ← H (NewLinkBuffer 0); mret (Some p, None)
  else
    b ← getb;
    if Len b <? n then mret (None, Some (ErrNotEnough n))
    else
      _ ← recalLen (- n);
      single ← isSingleNode n;
      b ← getb;
      if single : bool then
        node ← H (node_Refer (read b) n);
        f ← next_of (Some node);
        mret (Some (LB n 0 (Some node) (Some node) f f [] None), None)
      else
        nd ← H (load (read b));
        let l := node_Len nd in
        node ← H (node_Refer (read b) l);
        x ← next_of (read b);
        _ ← setb (set_read x);
        fuel ← fuel_of;
        pf ← slice_loop fuel (n - l) (Some node);
        err ← Release;
        f ← next_of pf;
        mret (Some (LB n 0 (Some node) (Some node) f f [] None), err).
End ops.

(** ** Writer *)

Section writer.
Context `{rt : Runtime}.

(** Malloc pre-allocates memory, which is not readable, and becomes readable
    data after submission(e.g. Flush). *)
Definition Malloc (n : Z) : M st (slice * option lberr) :=
  if n <=? 0 then mret (nil_slice, None)
  else
    b ← getb;
    _ ← setb (set_mallocSize (mallocSize b + n));
    _ ← growth n;
    b ← getb;
    p ← H (node_Malloc (write b) n);
    mret (p, None).

Definition MallocLen (b : LinkBuffer) : Z := mallocSize b.

Fixpoint mallocAck_loop (fuel : nat) (ack : Z) : M st unit :=
  match fuel with
  | O => out_of_fuel
  | S fuel =>
      if ack <=? 0 then mret ()
      else
        b ← getb;
        nd ← H (load (write b));
        let l := nmalloc nd - slen (buf nd) in
        if ack <=? l then H (update (write b) (set_malloc (ack + slen (buf nd))))
        else
          _ ← setb (set_write (next nd));
          mallocAck_loop fuel (ack - l)
  end.

(** discard the rest *)
Fixpoint discard_loop (fuel : nat) (node : option loc) : M heap unit :=
  match fuel with
  | O => out_of_fuel
  | S fuel =>
      match node with
      | None => mret ()
      | Some l =>
          nd ← load node;
          b ← some (slice2 (buf nd) 0 0);
          _ ← update node (λ nd, set_buf b (set_malloc 0 (set_off 0 nd)));
          _ ← modify (λ h, set_refer (<[l := 1]> (hrefer h)) h);
          discard_loop fuel (next nd)
      end
  end.

(** MallocAck will keep the first n malloc bytes and discard the rest. *)
Definition MallocAck (n : Z) : M st (option lberr) :=
  if n <? 0 then mret (Some (ErrMallocAckInvalid n))
  else
    _ ← setb (set_mallocSize n);
    b ← getb;
    _ ← setb (set_write (flush b));
    fuel ← fuel_of;
    _ ← mallocAck_loop fuel n;
    b ← getb;
    x ← next_of (write b);
    fuel ← fuel_of;
    _ ← H (discard_loop fuel x);
    mret None.

(** The loop of Flush from [node] up to [stop]; returns the bytes submitted. *)
Fixpoint flush_loop (fuel : nat) (node stop : option loc) (n : Z) : M heap Z :=
  match fuel with
  | O => out_of_fuel
  | S fuel =>
      if peq node stop then mret n
      else
        nd ← load node;
        let delta := nmalloc nd - slen (buf nd) in
        n ← (if 0 <? delta then
               b ← some (slice2 (buf nd) 0 (nmalloc nd));
               _ ← update node (set_buf b);
               mret (n + delta)
             else mret n);
        flush_loop fuel (next nd) stop n
  end.

(** Flush will submit all malloc data. *)
Definition Flush : M st (option lberr) :=
  _ ← setb (set_mallocSize 0);
  b ← getb;
  w ← H (load (write b));
  _ ← (if pagesize <? scap (buf w) then
         x ← H (newLinkBufferNode 0);
         _ ← H (update (write b) (set_next (Some x)));
         setb (set_write (Some x))
       else mret ());
  b ← getb;
  stop ← next_of (write b);
  fuel ← fuel_of;
  n ← H (flush_loop fuel (flush b) stop 0);
  _ ← setb (set_flush (write b));
  _ ← recalLen n;
  mret None.

(** The loop of WriteBuffer that releases the nodes [h] up to [stop]. *)
Fixpoint release_until (fuel : nat) (node stop : option loc) : M heap unit :=
  match fuel with
  | O => out_of_fuel
  | S fuel =>
      if peq node stop then mret ()
      else
        nd ← load node;
        _ ← node_Release node;
        release_until fuel (next nd) stop
  end.

(** The state of a buffer after it was moved or closed. *)
Definition cleared (b : LinkBuffer) : LinkBuffer :=
  LB 0 0 None None None None (caches b) (cachePeek b).

(** WriteBuffer moves the nodes of [wb] to the tail of this buffer; returns
    [wb] as it is left behind. *)
Definition WriteBuffer (wb : option LinkBuffer) : M st (option LinkBuffer) :=
  match wb with
  | None => mret None
  | Some wb =>
      let bufLen := Len wb in
      let bufMallocLen := MallocLen wb in
      if bufLen + bufMallocLen <=? 0 then mret (Some wb)
      else
        b ← getb;
        _ ← H (update (write b) (set_next (read wb)));
        _ ← setb (set_write (write wb));
        fuel ← fuel_of;
        _ ← H (release_until fuel (head wb) (read wb));
        x ← next_of (write wb);
        fuel ← fuel_of;
        _ ← H (release_until fuel x None);
        b ← getb;
        _ ← H (update (write b) (set_next None));
        _ ← (if 0 <? bufLen then _ ← recalLen bufLen; mret () else mret ());
        b ← getb;
        _ ← setb (set_mallocSize (mallocSize b + bufMallocLen));
        mret (Some (cleared wb))
  end.

(** A Writer is a *LinkBuffer or something else. *)
Inductive writer := WLinkBuffer (wb : option LinkBuffer) | WOther.

Definition Append (w : writer) : M st (option LinkBuffer * option lberr) :=
  match w with
  | WOther => mret (None, Some ErrUnsupportedWriter)
  | WLinkBuffer wb => wb ← WriteBuffer wb; mret (wb, None)
  end.

Definition BinaryInplaceThreshold : Z := block4k.

Definition WriteBinary (p : slice) : M st (Z * option lberr) :=
  let n := slen p in
  if n =? 0 then mret (n, None)
  else
    b ← getb;
    _ ← setb (set_mallocSize (mallocSize b + n));
    if BinaryInplaceThreshold <? n then
      (* expand buffer directly with nocopy *)
      x ← H (newLinkBufferNode 0);
      b ← getb;
      _ ← H (update (write b) (set_next (Some x)));
      _ ← setb (set_write (Some x));
      q ← some (slice2 p 0 0);
      _ ← H (update (Some x) (λ nd, set_malloc n (set_buf q nd)));
      mret (n, None)
    else
      (* here will copy *)
      _ ← growth n;
      b ← getb;
      dst ← H (node_Malloc (write b) n);
      bs ← H (read_slice p);
      k ← H (copy_in dst bs);
      mret (k, None).

Definition WriteString (s : slice) : M st (Z * option lberr) :=
  if slen s =? 0 then mret (0, None)
  else WriteBinary (Slice (sarr s) (soff s) (slen s) (slen s)).

(** WriteDirect: find the node that holds the insertion point, ... *)
Fixpoint writeDirect_loop (fuel : nat) (origin : option loc) (m : Z)
    : M heap (option loc * Z) :=
  match fuel with
  | O => out_of_fuel
  | S fuel =>
      nd ← load origin;
      let t := nmalloc nd - slen (buf nd) in
      if t <? m then writeDirect_loop fuel (next nd) (m - t)
      else mret (origin, m)
  end.

(** ... and, at the end, move b.write to the last node. *)
Fixpoint to_last (fuel : nat) : M st unit :=
  match fuel with
  | O => out_of_fuel
  | S fuel =>
      b ← getb;
      nd ← H (load (write b));
      match next nd with
      | None => mret ()
      | Some _ => _ ← setb (set_write (next nd)); to_last fuel
      end
  end.

(** WriteDirect cannot be mixed with WriteString or WriteBinary functions. *)
Definition WriteDirect (extra : slice) (remainLen : Z) : M st (option lberr) :=
  let n := slen extra in
  if (n =? 0) || (remainLen <? 0) then mret None
  else
    b ← getb;
    fuel ← fuel_of;
    om ← H (writeDirect_loop fuel (flush b) (mallocSize b - remainLen));
    let o := om.1 in
    ond ← H (load o);
    let m := om.2 + slen (buf ond) in
    dataNode ← H (newLinkBufferNode 0);
    q ← some (slice2 extra 0 0);
    _ ← H (update (Some dataNode) (λ nd, set_malloc n (set_buf q nd)));
    _ ← (if 0 <? remainLen then
           newNode ← H (newLinkBufferNode 0);
           ond ← H (load o);
           nb ← some (slice2 (buf ond) 0 m);
           _ ← H (update (Some newNode) (λ nd,
                 setMode readonlyMask false
                   (set_malloc (nmalloc ond) (set_buf nb (set_off m nd)))));
           _ ← H (update o (λ nd, setMode readonlyMask true (set_malloc m nd)));
           _ ← H (update (Some dataNode) (set_next (Some newNode)));
           _ ← H (update (Some newNode) (set_next (next ond)));
           H (update o (set_next (Some dataNode)))
         else
           ond ← H (load o);
           _ ← H (update (Some dataNode) (set_next (next ond)));
           H (update o (set_next (Some dataNode))));
    fuel ← fuel_of;
    _ ← to_last fuel;
    b ← getb;
    _ ← setb (set_mallocSize (mallocSize b + n));
    mret None.

Definition WriteByte (c : byte) : M st (option lberr) :=
  r ← Malloc 1;
  _ ← (if slen r.1 =? 1 then H (copy_in r.1 [c]) else mret 0);
  mret r.2.

(** Close will recycle all buffer. *)
Definition Close : M st (option lberr) :=
  _ ← setb (set_length 0);
  _ ← setb (set_mallocSize 0);
  _ ← Release;
  b ← getb;
  fuel ← fuel_of;
  _ ← H (release_until fuel (head b) None);
  _ ← setb (λ b, LB (blength b) (mallocSize b) None None None None (caches b) (cachePeek b));
  mret None.

(** *** The connection's interface *)

Fixpoint bytes_loop (fuel : nat) (node stop : option loc) (p : slice) (n : Z) : M heap Z :=
  match fuel with
  | O => out_of_fuel
  | S fuel =>
      if peq node stop then mret n
      else
        nd ← load node;
        n ← (if 0 <? node_Len nd then
               src ← some (slice_from (buf nd) (off nd));
               bs ← read_slice src;
               dst ← some (slice_from p n);
               k ← copy_in dst bs;
               mret (n + k)
             else mret n);
        bytes_loop fuel (next nd) stop p n
  end.

(** Bytes returns all the readable bytes of this LinkBuffer. *)
Definition Bytes : M st slice :=
  b ← getb;
  if peq (read b) (flush b) then
    nd ← H (load (read b));
    some (slice_from (buf nd) (off nd))
  else
    p ← H (dirtmake_Bytes (Len b) (Len b));
    fuel ← fuel_of;
    n ← H (bytes_loop fuel (read b) (flush b) p 0);
    nd ← H (load (flush b));
    src ← some (slice_from (buf nd) (off nd));
    bs ← H (read_slice src);
    dst ← some (slice_from p n);
    k ← H (copy_in dst bs);
    some (slice2 p 0 (n + k)).

Fixpoint count_loop (fuel : nat) (node stop : option loc) (n : Z) : M heap Z :=
  match fuel with
  | O => out_of_fuel
  | S fuel =>
      if peq node stop then mret n
      else nd ← load node; count_loop fuel (next nd) stop (n + 1)
  end.

(** Collect the windows of the non-empty nodes in front of [stop], at most
    [cap] of them; returns them and whether there is room left. *)
Fixpoint getBytes_loop (fuel : nat) (node stop : option loc) (i plen : Z)
    : M heap (list slice) :=
  match fuel with
  | O => out_of_fuel
  | S fuel =>
      if negb (peq node stop) && (i <? plen) then
        nd ← load node;
        if 0 <? node_Len nd then
          v ← some (slice_from (buf nd) (off nd));
          vs ← getBytes_loop fuel (next nd) stop (i + 1) plen;
          mret (v :: vs)
        else getBytes_loop fuel (next nd) stop i plen
      else mret []
  end.

(** GetBytes will read and fill the slice p as much as possible; [plen] is
    the length of [p]. *)
Definition GetBytes (plen : Z) : M st (list slice) :=
  b ← getb;
  fuel ← fuel_of;
  plen ← (if plen =? 0 then H (count_loop fuel (read b) (flush b) 0) else mret plen);
  vs ← H (getBytes_loop fuel (read b) (flush b) 0 plen);
  if zlen vs <? plen then
    nd ← H (load (flush b));
    v ← some (slice_from (buf nd) (off nd));
    mret (vs ++ [v])
  else mret vs.

(** book will grow and malloc buffer to hold data. *)
Definition book (bookSize maxSize : Z) : M st slice :=
  b ← getb;
  w ← H (load (write b));
  let l := scap (buf w) - nmalloc w in
  l ← (if l =? 0 then
         x ← H (newLinkBufferNode maxSize);
         _ ← H (update (write b) (set_next (Some x)));
         _ ← setb (set_write (Some x));
         mret maxSize
       else mret l);
  let l := if bookSize <? l then bookSize else l in
  b ← getb;
  H (node_Malloc (write b) l).

(** bookAck will ack the first n malloc bytes and discard the rest. *)
Definition bookAck (n : Z) : M st (Z * option lberr) :=
  b ← getb;
  w ← H (load (write b));
  _ ← H (update (write b) (set_malloc (n + slen (buf w))));
  q ← some (slice2 (buf w) 0 (n + slen (buf w)));
  _ ← H (update (write b) (set_buf q));
  _ ← setb (set_flush (write b));
  l ← recalLen n;
  mret (l, None).

Fixpoint calcMaxSize_loop (fuel : nat) (node stop : option loc) (sum : Z) : M heap Z :=
  match fuel with
  | O => out_of_fuel
  | S fuel =>
      if peq node stop then mret sum
      else nd ← load node; calcMaxSize_loop fuel (next nd) stop (sum + slen (buf nd))
  end.

(** calcMaxSize will calculate the data size between two Release() *)
Definition calcMaxSize : M st Z :=
  b ← getb;
  fuel ← fuel_of;
  sum ← H (calcMaxSize_loop fuel (head b) (read b) 0);
  nd ← H (load (read b));
  mret (sum + slen (buf nd)).

(** resetTail will reset tail node or add an empty tail node. *)
Definition resetTail (maxSize : Z) : M st unit :=
  if maxSize <=? pagesize then mret ()
  else
    b ← getb;
    x ← H (newLinkBufferNode 0);
    _ ← H (update (write b) (set_next (Some x)));
    _ ← setb (set_write (Some x));
    setb (set_flush (Some x)).

Fixpoint memorySize_loop (fuel : nat) (node : option loc) (n : Z) : M heap Z :=
  match fuel with
  | O => out_of_fuel
  | S fuel =>
      match node with
      | None => mret n
      | Some _ => nd ← load node; memorySize_loop fuel (next nd) (n + scap (buf nd))
      end
  end.

(** memorySize return the real memory size in bytes the LinkBuffer occupied *)
Definition memorySize : M st Z :=
  b ← getb;
  fuel ← fuel_of;
  n ← H (memorySize_loop fuel (head b) 0);
  let n := foldl (λ n c, n + scap c) n (caches b) in
  mret (n + match cachePeek b with Some c => scap c | None => 0 end).
End writer.
