(* ===== verification/ByteQueue.v ===== *)
(** * What a buffer promises: a queue of bytes

    The abstract specification of [Reader] and [Writer] of src/nocopy.go.  A
    buffer holds the bytes that can be read and the bytes that were written
    and not submitted; every method of the interfaces is a function on these
    two lists.  [ByteQueue] is the interface the clients of a buffer are proved
    against: operations on some state that refine these functions. *)

From S2P Require Import Prelude GoMem LinkNode LinkBuffer.

Open Scope Z_scope.

(** ** Reader, and Bytes *)

Inductive rop :=
| ONext (n : Z) | OPeek (n : Z) | OSkip (n : Z) | OReadString (n : Z) | OReadBinary (n : Z)
| OReadByte | OUntil (delim : byte) | ORelease | OLen | OBytes.

(** The bytes returned, the error, and what Len returns. *)
Inductive rres := RBytes (bs : list byte) (e : option lberr) | RLen (n : Z).

(** Take [n] bytes off the queue, or report that there are too few. *)
Definition take_spec (n : Z) (R : list byte) : list byte * option lberr * list byte :=
  if n <=? 0 then ([], None, R)
  else if zlen R <? n then ([], Some (ErrNotEnough n), R)
  else (ztake n R, None, zdrop n R).

Definition rspec (o : rop) (R : list byte) : rres * list byte :=
  match o with
  | ONext n | OReadString n | OReadBinary n =>
      let '(bs, e, R') := take_spec n R in (RBytes bs e, R')
  | OPeek n => let '(bs, e, _) := take_spec n R in (RBytes bs e, R)
  | OSkip n => let '(_, e, R') := take_spec n R in (RBytes [] e, R')
  | OReadByte =>
      match R with
      | [] => (RBytes [] (Some ErrReadByteEmpty), R)
      | c :: R' => (RBytes [c] None, R')
      end
  | OUntil c =>
      let i := IndexByte R c in
      if i <? 0 then (RBytes [] (Some ErrUntil), R)
      else (RBytes (ztake (i + 1) R) None, zdrop (i + 1) R)
  | ORelease => (RBytes [] None, R)
  | OLen => (RLen (zlen R), R)
  | OBytes => (RBytes R None, R)
  end.

(** ** Writer *)

(** [OMalloc bs]: Malloc(len(bs)), and the caller stores [bs] to the memory. *)
Inductive wop :=
| OMalloc (bs : list byte) | OMallocAck (n : Z) | OWriteBinary (bs : list byte)
| OWriteString (bs : list byte) | OWriteByte (c : byte) | OFlush | OMallocLen.

(** The number returned and the error. *)
Definition wres : Type := Z * option lberr.

(** [None]: the operation is used outside of its contract. *)
Definition wspec (o : wop) (R P : list byte) : option (wres * list byte * list byte) :=
  match o with
  | OMalloc bs => Some ((zlen bs, None), R, P ++ bs)
  | OWriteBinary bs | OWriteString bs => Some ((zlen bs, None), R, P ++ bs)
  | OWriteByte c => Some ((1, None), R, P ++ [c])
  | OMallocAck n =>
      if n <? 0 then Some ((0, Some (ErrMallocAckInvalid n)), R, P)
      else if (0 <? n) && (n <=? zlen P) then Some ((0, None), R, ztake n P)
      else None
  | OFlush => Some ((0, None), R ++ P, [])
  | OMallocLen => Some ((zlen P, None), R, P)
  end.

(** ** The interface *)

Class ByteQueue (S : Type) := {
  rexec : rop → M S rres;
  wexec : wop → M S wres;
  holds : S → list byte → list byte → Prop;
  rexec_ok : ∀ o s R P, holds s R P →
    wp (rexec o) (λ r s', r = (rspec o R).1 ∧ holds s' (rspec o R).2 P) s;
  wexec_ok : ∀ o s R P r R' P', holds s R P → wspec o R P = Some (r, R', P') →
    wp (wexec o) (λ r' s', r' = r ∧ holds s' R' P') s;
  (* MallocAck(0) may keep some of the bytes; Flush makes these readable *)
  ack_zero_ok : ∀ s R P, holds s R P →
    wp (_ ← wexec (OMallocAck 0); wexec OFlush)
      (λ _ s', ∃ k, 0 <= k <= zlen P ∧ holds s' (R ++ ztake k P) []) s;
}.

(** ** Sequences of operations *)

Inductive op := ORd (o : rop) | OWr (o : wop).
Inductive res := RRd (r : rres) | RWr (r : wres).

Fixpoint run {S} `{ByteQueue S} (os : list op) : M S (list res) :=
  match os with
  | [] => mret []
  | ORd o :: os => r ← rexec o; rs ← run os; mret (RRd r :: rs)
  | OWr o :: os => r ← wexec o; rs ← run os; mret (RWr r :: rs)
  end.

Fixpoint run_spec (os : list op) (R P : list byte) : option (list res * list byte * list byte) :=
  match os with
  | [] => Some ([], R, P)
  | ORd o :: os =>
      '(rs, R', P') ← run_spec os (rspec o R).2 P; Some (RRd (rspec o R).1 :: rs, R', P')
  | OWr o :: os =>
      '(r, R1, P1) ← wspec o R P;
      '(rs, R', P') ← run_spec os R1 P1; Some (RWr r :: rs, R', P')
  end.

Section run.
Context {S : Type} `{ByteQueue S}.

(** Every buffer returns what the queue returns. *)
Lemma run_ok os : ∀ s R P rs R' P',
  holds s R P → run_spec os R P = Some (rs, R', P') →
  wp (run os) (λ rs' s', rs' = rs ∧ holds s' R' P') s.
Proof.
  induction os as [|[o|o] os IH]; intros s R P rs R' P' Hh Hs; simpl in Hs.
  - by simplify_eq.
  - destruct (run_spec os (rspec o R).2 P) as [[[rs1 R1] P1]|] eqn:E; [|done]. simplify_eq/=.
    apply wp_bind. eapply wp_mono; [by apply rexec_ok|]. intros r s1 [-> Hh1].
    apply wp_bind. eapply wp_mono; [by eapply IH|]. intros rs s2 [-> Hh2]. by apply wp_ret.
  - destruct (wspec o R P) as [[[r R1] P1]|] eqn:Ew; [|done]. simpl in Hs.
    destruct (run_spec os R1 P1) as [[[rs1 R2] P2]|] eqn:E; [|done]. simplify_eq/=.
    apply wp_bind. eapply wp_mono; [by eapply wexec_ok|]. intros r' s1 [-> Hh1].
    apply wp_bind. eapply wp_mono; [by eapply IH|]. intros rs s2 [-> Hh2]. by apply wp_ret.
Qed.
End run.
