(* ===== verification/LinkHeap.v ===== *)
(** * The heap of a link buffer: invariant and rules for the node operations

    [lseg] is a segment of a chain of nodes; [world] is the invariant of the
    heap: the pool, the reference counts and the separation of the memory that
    the live nodes and the slices handed out may access.  The rules give the
    weakest precondition of the operations of [LinkNode]. *)

From S2P Require Import Prelude GoMem LinkNode.

Open Scope Z_scope.

Abbreviation nodes := (gmap nat linkBufferNode).
Abbreviation cell := (prod nat linkBufferNode).

(** ** Chains *)

Fixpoint lseg (ns : nodes) (p : option loc) (l : list cell) (q : option loc) : Prop :=
  match l with
  | [] => p = q
  | (x, nd) :: l => p = Some x ∧ ns !! x = Some nd ∧ lseg ns (next nd) l q
  end.

Section lseg.
Implicit Types (ns : nodes) (l : list cell) (x y : loc).

Lemma lseg_app ns p l1 l2 q :
  lseg ns p (l1 ++ l2) q ↔ ∃ r, lseg ns p l1 r ∧ lseg ns r l2 q.
Proof.
  revert p. induction l1 as [|[x nd] l1 IH]; intros p; simpl; [naive_solver|].
  rewrite IH. naive_solver.
Qed.

Lemma lseg_lookup ns p l q i x nd :
  lseg ns p l q → l !! i = Some (x, nd) → ns !! x = Some nd.
Proof.
  revert p i. induction l as [|[y md] l IH]; intros p [|i]; simpl; try done.
  - intros (?&?&?) ?. by simplify_eq.
  - intros (?&?&?) ?. by eapply IH.
Qed.

Lemma lseg_next ns p l i x nd :
  lseg ns p l None → l !! i = Some (x, nd) → next nd = l.*1 !! S i.
Proof.
  revert p i. induction l as [|[y md] l IH]; intros p [|i]; simpl; try done.
  - intros (?&?&Hl) ?. simplify_eq. destruct l as [|[z zd] l]; simpl in *; naive_solver.
  - intros (?&?&?) ?. by eapply IH.
Qed.

(** Cells outside of the segment may change. *)
Lemma lseg_frame ns ns' p l q :
  (∀ x, x ∈ l.*1 → ns' !! x = ns !! x) → lseg ns p l q → lseg ns' p l q.
Proof.
  revert p. induction l as [|[x nd] l IH]; intros p Hf; simpl; [done|].
  intros (?&?&?). split_and!; [done| |].
  - rewrite Hf; [done|]. set_solver.
  - apply IH; [|done]. intros y ?. apply Hf. set_solver.
Qed.

Lemma lseg_insert_ne ns p l q x nd :
  x ∉ l.*1 → lseg ns p l q → lseg (<[x := nd]> ns) p l q.
Proof.
  intros Hx. apply lseg_frame. intros y Hy. apply lookup_insert_ne. set_solver.
Qed.

(** Replace the node of a cell, keeping its successor. *)
Lemma lseg_update ns p l1 x nd nd' l2 q :
  NoDup (l1 ++ (x, nd) :: l2).*1 → next nd' = next nd →
  lseg ns p (l1 ++ (x, nd) :: l2) q →
  lseg (<[x := nd']> ns) p (l1 ++ (x, nd') :: l2) q.
Proof.
  intros Hnd Hn. rewrite !lseg_app. intros (r&H1&->&Hx&H2). exists (Some x).
  rewrite fmap_app, NoDup_app in Hnd. destruct Hnd as (?&Hd&Hnd).
  simpl in Hnd, Hd. apply NoDup_cons in Hnd as [? ?].
  split_and!.
  - apply lseg_insert_ne; [|done]. intros ?. eapply Hd; [done|]. left.
  - split_and!; [done|by rewrite lookup_insert_eq|]. rewrite Hn.
    by apply lseg_insert_ne.
Qed.

(** Give a cell another successor chain. *)
Lemma lseg_relink ns p l1 x nd nd' l2 l3 q :
  x ∉ l1.*1 → x ∉ l3.*1 →
  lseg ns p (l1 ++ (x, nd) :: l2) q →
  lseg ns (next nd') l3 None →
  lseg (<[x := nd']> ns) p (l1 ++ (x, nd') :: l3) None.
Proof.
  intros H1 H3. rewrite !lseg_app. intros (r&Hr&->&Hx&_) Hl. exists (Some x).
  split; [by apply lseg_insert_ne|]. split_and!; [done|by rewrite lookup_insert_eq|].
  by apply lseg_insert_ne.
Qed.

Lemma lseg_size ns p l q : lseg ns p l q → NoDup l.*1 → (length l ≤ size ns)%nat.
Proof.
  intros Hl Hnd. rewrite <- (length_fmap fst l), <- size_dom.
  rewrite <- (size_list_to_set (C := gset nat) _ Hnd).
  apply subseteq_size. intros x [i Hi]%elem_of_list_to_set%list_elem_of_lookup.
  apply list_lookup_fmap_Some in Hi as ([y nd]&->&Hi).
  apply elem_of_dom. exists nd. by eapply lseg_lookup.
Qed.
End lseg.

(** ** Reference counts *)

Definition origin_of (ns : nodes) (x : loc) : option loc := ns !! x ≫= origin.

(** The live nodes that keep [o] from being recycled: [o] itself and the nodes
    that refer to it. *)
Definition owners (ns : nodes) (live : list loc) (o : loc) : Z :=
  zlen (filter (λ p, p = o ∨ origin_of ns p = Some o) live).

Section owners.
Implicit Types (ns : nodes) (live : list loc) (o x : loc).

Lemma owners_cons ns x live o :
  owners ns (x :: live) o =
    (if decide (x = o ∨ origin_of ns x = Some o) then 1 else 0) + owners ns live o.
Proof.
  unfold owners. rewrite filter_cons. destruct (decide (x = o ∨ _)); [|done].
  by rewrite zlen_cons.
Qed.

Lemma owners_nonneg ns live o : 0 <= owners ns live o.
Proof. apply zlen_nonneg. Qed.

Lemma owners_perm ns live live' o : live ≡ₚ live' → owners ns live o = owners ns live' o.
Proof. intros Hp. unfold owners, zlen. by rewrite Hp. Qed.

Lemma owners_ext ns ns' live o :
  (∀ x, x ∈ live → origin_of ns' x = origin_of ns x) →
  owners ns' live o = owners ns live o.
Proof.
  induction live as [|x live IH]; intros Hx; [done|].
  rewrite !owners_cons, Hx, IH; [done| |]; set_solver.
Qed.

Lemma owners_0 ns live o :
  owners ns live o = 0 ↔ (o ∉ live) ∧ (∀ p, p ∈ live → origin_of ns p ≠ Some o).
Proof.
  induction live as [|x live IH].
  { split; [set_solver|done]. }
  rewrite owners_cons. pose proof (owners_nonneg ns live o). case_decide as Hd.
  - split; [lia|]. intros [Hn Ho]. destruct Hd as [->|Hd]; [set_solver|].
    exfalso. eapply Ho; [|exact Hd]. left.
  - rewrite Z.add_0_l, IH. set_solver.
Qed.
End owners.

(** ** The invariant of the heap *)

Definition reg_ok (m : mem) (r : region) : Prop :=
  0 <= rlo r ∧ rhi r <= zlen (arr m (rarr r)).

(** [live]: the nodes of the buffers in use; [regs]: the windows of memory that
    belong to them or were handed out. *)
Record world (h : heap) (live : list loc) (regs : list region) : Prop := World {
  w_nodup : NoDup live;
  w_pool : NoDup (hpool h);
  w_live_pool : ∀ x, x ∈ live → x ∉ hpool h;
  w_live_dom : ∀ x, x ∈ live → is_Some (hnodes h !! x);
  w_clean : ∀ x, x ∈ hpool h → (∃ nd, hnodes h !! x = Some nd ∧
    buf nd = nil_slice ∧ origin nd = None ∧ next nd = None);
  w_fresh : ∀ x, (hnloc h ≤ x)%nat → hnodes h !! x = None;
  w_origin : ∀ x o, x ∈ live → origin_of (hnodes h) x = Some o →
    (o ∉ hpool h) ∧ (∃ ond, hnodes h !! o = Some ond ∧ origin ond = None);
  w_refer : ∀ o, o ∉ hpool h → owners (hnodes h) live o <= refer_of h o;
  w_sep : sep regs;
  w_regs : Forall (reg_ok (hmem h)) regs;
  w_mem : ∀ a, (haid h ≤ a)%nat → hmem h !! a = None;
  w_nil : hmem h !! 0%nat = None ∧ (0 < haid h)%nat;
}.

Section world.
Implicit Types (h : heap) (live : list loc) (regs : list region).

Lemma world_perm h live live' regs regs' :
  live ≡ₚ live' → regs ≡ₚ regs' → world h live regs → world h live' regs'.
Proof.
  intros Hl Hr []. constructor; try done.
  - by rewrite <- Hl.
  - intros x. rewrite <- Hl. apply w_live_pool0.
  - intros x. rewrite <- Hl. apply w_live_dom0.
  - intros x o. rewrite <- Hl. apply w_origin0.
  - intros o ?. rewrite <- (owners_perm _ live live') by done. auto.
  - by eapply sep_perm.
  - by rewrite <- Hr.
Qed.

(** Regions may be given up or shrink. *)
Lemma world_regs h live regs regs' :
  sep regs' → Forall (reg_ok (hmem h)) regs' → world h live regs → world h live regs'.
Proof. intros ?? []. by constructor. Qed.

(** Nodes may be given up. *)
Lemma world_drop h x live regs : world h (x :: live) regs → world h live regs.
Proof.
  intros [Hnd ? Hlp Hld ?? Ho Hr]. apply NoDup_cons in Hnd as [? ?]. constructor; try done.
  - intros y ?. apply Hlp. set_solver.
  - intros y ?. apply Hld. set_solver.
  - intros y o ?. apply Ho. set_solver.
  - intros o ?. specialize (Hr o). rewrite owners_cons in Hr. case_decide; naive_solver lia.
Qed.

Lemma world_drop_mid h l1 l2 l3 regs : world h (l1 ++ l2 ++ l3) regs → world h (l1 ++ l3) regs.
Proof.
  intros W. assert (world h (l2 ++ l1 ++ l3) regs) as W'.
  { eapply world_perm; [apply Permutation_app_swap_app|done|exact W]. }
  clear W. induction l2 as [|x l2 IH]; [done|]. apply IH. by eapply world_drop.
Qed.

(** Fields other than [origin] may change. *)
Lemma world_update h live regs x nd nd' :
  hnodes h !! x = Some nd → x ∉ hpool h → origin nd' = origin nd →
  world h live regs → world (set_nodes (<[x := nd']> (hnodes h)) h) live regs.
Proof.
  intros Hx Hp Hor W.
  assert (∀ y, origin_of (<[x := nd']> (hnodes h)) y = origin_of (hnodes h) y) as Ho.
  { intros y. unfold origin_of. rewrite lookup_insert. case_decide; [|done].
    subst. by rewrite Hx. }
  destruct W. constructor; simpl; try done.
  - intros y ?. rewrite lookup_insert. case_decide; [eauto|auto].
  - intros y Hy. destruct (w_clean0 y Hy) as (ynd&?&?). exists ynd.
    rewrite lookup_insert_ne by set_solver. done.
  - intros y ?. rewrite lookup_insert_ne; [auto|]. intros ->.
    rewrite w_fresh0 in Hx by done. done.
  - intros y o ?. rewrite Ho. intros Hyo. destruct (w_origin0 y o) as (?&ond&Hond&?); [done..|].
    split; [done|]. destruct (decide (x = o)) as [->|].
    + rewrite lookup_insert_eq. exists nd'. split; [done|]. congruence.
    + rewrite lookup_insert_ne by done. eauto.
  - intros o ?. unfold refer_of in *. simpl.
    rewrite (owners_ext (hnodes h)) by (intros; apply Ho). auto.
Qed.

Lemma world_set_mem h live regs m :
  (∀ a, zlen (arr m a) = zlen (arr (hmem h) a)) →
  (∀ a, (haid h ≤ a)%nat → m !! a = None) → m !! 0%nat = None →
  world h live regs → world (set_mem m h) live regs.
Proof.
  intros Hl Hf H0 []. constructor; simpl; try done.
  - eapply Forall_impl; [exact w_regs0|]. unfold reg_ok. intros r. by rewrite Hl.
  - naive_solver.
Qed.

Lemma world_sub h live rs rs' rest :
  Forall2 sub rs' rs → Forall (reg_ok (hmem h)) rs' →
  world h live (rs ++ rest) → world h live (rs' ++ rest).
Proof.
  intros Hs Ho W. eapply world_regs; [| |exact W].
  - eapply sep_sub; [done|]. apply W.
  - apply Forall_app. split; [done|]. pose proof (w_regs _ _ _ W) as Hr.
    by apply Forall_app in Hr as [_ ?].
Qed.
End world.

(** ** Rules for heap accesses *)

Lemma wp_load x nd (Q : linkBufferNode → heap → Prop) h :
  hnodes h !! x = Some nd → Q nd h → wp (load (Some x)) Q h.
Proof. intros Hx HQ. unfold wp, load. by rewrite Hx. Qed.

Lemma wp_some {S A} (o : option A) a (Q : A → S → Prop) s : o = Some a → Q a s → wp (some o) Q s.
Proof. by intros ->. Qed.

Lemma wp_update x nd f (Q : unit → heap → Prop) h :
  hnodes h !! x = Some nd → Q tt (set_nodes (<[x := f nd]> (hnodes h)) h) →
  wp (update (Some x) f) Q h.
Proof.
  intros Hx HQ. apply wp_bind. eapply wp_load; [exact Hx|]. exact HQ.
Qed.

Lemma slice3_ok s lo hi mx : 0 <= lo → lo <= hi → hi <= mx → mx <= scap s →
  slice3 s lo hi mx = Some (Slice (sarr s) (soff s + lo) (hi - lo) (mx - lo)).
Proof.
  intros. unfold slice3.
  rewrite !(proj2 (Z.leb_le _ _)) by lia. done.
Qed.

Lemma wp_node_Next x nd n (Q : slice → heap → Prop) h :
  hnodes h !! x = Some nd → 0 <= off nd → 0 <= n → off nd + n <= scap (buf nd) →
  Q (Slice (sarr (buf nd)) (soff (buf nd) + off nd) n n)
    (set_nodes (<[x := set_off (off nd + n) nd]> (hnodes h)) h) →
  wp (node_Next (Some x) n) Q h.
Proof.
  intros Hx ??? HQ. apply wp_bind. eapply wp_load; [exact Hx|]. apply wp_bind.
  eapply wp_update; [exact Hx|]. eapply wp_some.
  { apply slice3_ok; lia. }
  replace (off nd + n - off nd) with n by lia. exact HQ.
Qed.

Lemma wp_node_Peek x nd n (Q : slice → heap → Prop) h :
  hnodes h !! x = Some nd → 0 <= off nd → 0 <= n → off nd + n <= scap (buf nd) →
  Q (Slice (sarr (buf nd)) (soff (buf nd) + off nd) n n) h →
  wp (node_Peek (Some x) n) Q h.
Proof.
  intros Hx ??? HQ. apply wp_bind. eapply wp_load; [exact Hx|]. eapply wp_some.
  { apply slice3_ok; lia. }
  replace (off nd + n - off nd) with n by lia. exact HQ.
Qed.

Lemma wp_node_Malloc x nd n (Q : slice → heap → Prop) h :
  hnodes h !! x = Some nd → 0 <= nmalloc nd → 0 <= n → nmalloc nd + n <= scap (buf nd) →
  Q (Slice (sarr (buf nd)) (soff (buf nd) + nmalloc nd) n n)
    (set_nodes (<[x := set_malloc (nmalloc nd + n) nd]> (hnodes h)) h) →
  wp (node_Malloc (Some x) n) Q h.
Proof.
  intros Hx ??? HQ. apply wp_bind. eapply wp_load; [exact Hx|]. apply wp_bind.
  eapply wp_update; [exact Hx|]. eapply wp_some.
  { apply slice3_ok; lia. }
  replace (nmalloc nd + n - nmalloc nd) with n by lia. exact HQ.
Qed.

Lemma wp_copy_in dst bs (Q : Z → heap → Prop) h :
  Q (Z.min (slen dst) (zlen bs)) (set_mem (scopy (hmem h) dst bs) h) →
  wp (copy_in dst bs) Q h.
Proof. done. Qed.

Lemma wp_read_slice s (Q : list byte → heap → Prop) h :
  Q (sget (hmem h) s) h → wp (read_slice s) Q h.
Proof. done. Qed.

(** ** Nodes and their windows *)

Definition node_top (nd : linkBufferNode) : Z :=
  if getMode nd readonlyMask then Z.max (slen (buf nd)) (nmalloc nd) else scap (buf nd).

(** The window a node may read or write. *)
Definition nregion (nd : linkBufferNode) : region :=
  Region (sarr (buf nd)) (soff (buf nd) + off nd) (soff (buf nd) + node_top nd).

(** The bytes that can be read from a node, ... *)
Definition rb (m : mem) (nd : linkBufferNode) : list byte :=
  mget m (sarr (buf nd)) (soff (buf nd) + off nd) (soff (buf nd) + slen (buf nd)).

(** ... and those that can be read once it is flushed. *)
Definition fb (m : mem) (nd : linkBufferNode) : list byte :=
  mget m (sarr (buf nd)) (soff (buf nd) + off nd)
    (soff (buf nd) + Z.max (slen (buf nd)) (nmalloc nd)).

Record node_wf (m : mem) (nd : linkBufferNode) : Prop := NodeWf {
  nw_soff : 0 <= soff (buf nd);
  nw_off : 0 <= off nd <= slen (buf nd);
  nw_len : slen (buf nd) <= scap (buf nd);
  nw_malloc : 0 <= nmalloc nd <= scap (buf nd);
  nw_arr : soff (buf nd) + scap (buf nd) <= zlen (arr m (sarr (buf nd)));
}.

Section nodes.
Implicit Types (m : mem) (nd : linkBufferNode).

Lemma node_top_le m nd : node_wf m nd →
  Z.max (slen (buf nd)) (nmalloc nd) <= node_top nd <= scap (buf nd).
Proof. intros []. unfold node_top. case_match; lia. Qed.

Lemma nregion_ok m nd : node_wf m nd → reg_ok m (nregion nd).
Proof.
  intros Hw. pose proof (node_top_le _ _ Hw). destruct Hw.
  unfold reg_ok, nregion. simpl. lia.
Qed.

Lemma zlen_rb m nd : node_wf m nd → zlen (rb m nd) = node_Len nd.
Proof. intros []. unfold rb, node_Len. rewrite zlen_mget by lia. lia. Qed.

Lemma zlen_fb m nd : node_wf m nd →
  zlen (fb m nd) = Z.max (slen (buf nd)) (nmalloc nd) - off nd.
Proof. intros []. unfold fb. rewrite zlen_mget by lia. lia. Qed.

Lemma fb_rb m nd : node_wf m nd →
  fb m nd = rb m nd ++ mget m (sarr (buf nd)) (soff (buf nd) + slen (buf nd))
              (soff (buf nd) + Z.max (slen (buf nd)) (nmalloc nd)).
Proof. intros []. unfold fb, rb. apply mget_split; lia. Qed.

(** The bytes of a node are determined by its window. *)
Lemma rb_fb_region m m' nd :
  node_wf m nd → rget m' (nregion nd) = rget m (nregion nd) →
  rb m' nd = rb m nd ∧ fb m' nd = fb m nd.
Proof.
  intros Hw Hr. pose proof (node_top_le _ _ Hw). destruct Hw.
  unfold rget, nregion in Hr. simpl in Hr.
  assert (∀ k, off nd <= k → k <= node_top nd →
    mget m' (sarr (buf nd)) (soff (buf nd) + off nd) (soff (buf nd) + k) =
    mget m (sarr (buf nd)) (soff (buf nd) + off nd) (soff (buf nd) + k)) as Hk.
  { intros k ??. apply (f_equal (ztake (k - off nd))) in Hr. unfold mget in *.
    rewrite !ztake_zsub in Hr by lia.
    by replace (soff (buf nd) + off nd + (k - off nd)) with (soff (buf nd) + k) in Hr by lia. }
  split; apply Hk; lia.
Qed.
End nodes.

(** A later memory has the arrays of an earlier one, and they agree on the
    windows of [rs]. *)
Record keeps (m m' : mem) (rs : list region) : Prop := Keeps {
  k_le : ∀ a, zlen (arr m a) <= zlen (arr m' a);
  k_get : Forall (λ r, rget m' r = rget m r) rs;
}.

Lemma keeps_refl m rs : keeps m m rs.
Proof. split; [done|]. apply Forall_forall. done. Qed.

Lemma keeps_trans m1 m2 m3 rs : keeps m1 m2 rs → keeps m2 m3 rs → keeps m1 m3 rs.
Proof.
  intros [? H1] [? H2]. split; [intros a; etrans; eauto|].
  rewrite Forall_forall in H1, H2 |- *. intros r Hr. by rewrite H2, H1.
Qed.

Lemma keeps_sublist m m' rs rs' : (∀ r, r ∈ rs' → r ∈ rs) → keeps m m' rs → keeps m m' rs'.
Proof.
  intros Hs [? Hk]. split; [done|]. rewrite Forall_forall in Hk |- *. eauto.
Qed.

Lemma node_wf_le m m' nd :
  (∀ a, zlen (arr m a) <= zlen (arr m' a)) → node_wf m nd → node_wf m' nd.
Proof. intros Hle []. constructor; try done. etrans; [done|apply Hle]. Qed.

Lemma rget_new m a bs r : m !! a = None → reg_ok m r → rget (<[a := bs]> m) r = rget m r.
Proof.
  intros Ha [? Hr]. unfold rget, mget, arr in *. rewrite lookup_insert. case_decide as E; [|done].
  subst. rewrite Ha in *. simpl in *. rewrite zlen_nil in Hr. by rewrite !zsub_empty by lia.
Qed.

Lemma keeps_new m a bs rs : m !! a = None → Forall (reg_ok m) rs → keeps m (<[a := bs]> m) rs.
Proof.
  intros Ha Hr. split.
  - intros a'. unfold arr. rewrite lookup_insert. case_decide; [|done]. subst.
    rewrite Ha. apply zlen_nonneg.
  - eapply Forall_impl; [exact Hr|]. intros r ?. by apply rget_new.
Qed.

(** ** Allocation *)

Section alloc.
Context {rt : Runtime} {rtok : RuntimeOk rt}.
Implicit Types (h : heap) (live : list loc) (regs : list region).

Lemma zlen_dirty_bytes a c : zlen (dirty_bytes a c) = Z.max 0 c.
Proof. unfold dirty_bytes, zlen. rewrite length_map, length_seq. lia. Qed.

Lemma arr_new m a (bs : list byte) a' :
  arr (<[a := bs]> m) a' = if decide (a = a') then bs else arr m a'.
Proof. unfold arr. rewrite lookup_insert. by case_decide. Qed.

(** What a fresh array of capacity [c] changes. *)
Record new_mem (h h' : heap) (a : aid) (c : Z) : Prop := NewMem {
  nm_nodes : hnodes h' = hnodes h;
  nm_pool : hpool h' = hpool h;
  nm_mem : hmem h' = <[a := dirty_bytes a c]> (hmem h);
  nm_refer : hrefer h' = hrefer h;
  nm_a : a = haid h;
  nm_none : hmem h !! a = None;
}.

Lemma world_new_array h live regs c Q :
  0 <= c → world h live regs →
  (∀ h', new_mem h h' (haid h) c → world h' live (Region (haid h) 0 c :: regs) →
     keeps (hmem h) (hmem h') regs → Q (haid h) h') →
  wp (new_array c) Q h.
Proof.
  intros Hc W HQ. unfold wp, new_array. apply HQ.
  - constructor; try done. by apply W.
  - destruct W. constructor; simpl; try done.
    + split; [|done]. apply Forall_forall. intros r Hr.
      rewrite Forall_forall in w_regs0. destruct (w_regs0 r Hr) as [? Hhi].
      destruct (decide (haid h = rarr r)) as [E|]; [|by left].
      unfold arr in Hhi. rewrite <- E, w_mem0 in Hhi by done. simpl in Hhi.
      rewrite zlen_nil in Hhi. right. simpl. lia.
    + constructor.
      * unfold reg_ok. simpl. rewrite arr_new, decide_True by done.
        rewrite zlen_dirty_bytes. lia.
      * eapply Forall_impl; [exact w_regs0|]. intros r [??]. split; [done|].
        rewrite arr_new. case_decide as E; [|done].
        unfold arr in H0. rewrite <- E, w_mem0 in H0 by done. simpl in H0.
        rewrite zlen_nil in H0. rewrite zlen_dirty_bytes. lia.
    + intros a ?. rewrite lookup_insert_ne by lia. apply w_mem0. lia.
    + destruct w_nil0. rewrite lookup_insert_ne by lia. split; [done|lia].
  - apply keeps_new; [by apply W|]. by apply W.
Qed.

Lemma wp_dirtmake_Bytes h live regs size c Q :
  0 <= c → world h live regs →
  (∀ h' a, new_mem h h' a c → world h' live (Region a 0 c :: regs) →
     keeps (hmem h) (hmem h') regs → Q (Slice a 0 size c) h') →
  wp (dirtmake_Bytes size c) Q h.
Proof.
  intros ? W HQ. apply wp_bind. eapply world_new_array; [done..|].
  intros. by apply wp_ret, HQ.
Qed.

Lemma wp_malloc h live regs size c Q :
  0 <= c → world h live regs →
  (∀ h' a c', new_mem h h' a c' → c <= c' → world h' live (Region a 0 c' :: regs) →
     keeps (hmem h) (hmem h') regs → Q (Slice a 0 size c') h') →
  wp (malloc size c) Q h.
Proof.
  intros ? W HQ. unfold malloc. case_match.
  - eapply wp_dirtmake_Bytes; [done..|]. intros. apply HQ; done || lia.
  - pose proof (mcache_cap_ge c). apply wp_bind.
    eapply world_new_array; [|done|]; [lia|].
    intros. apply wp_ret. by apply HQ.
Qed.

(** Giving memory back only logs it. *)
Lemma world_free h live regs f : world h live regs → world (set_freed f h) live regs.
Proof. intros []. by constructor. Qed.

Lemma wp_free b h Q :
  (∀ f, Q tt (set_freed f h)) → Q tt h → wp (free b) Q h.
Proof. intros H1 H2. unfold free. case_match; [by apply wp_ret|]. apply wp_modify, H1. Qed.

(** Taking a node into use. *)
Lemma world_add h live regs x nd pool nloc mem aid freed :
  world h live regs →
  x ∉ live → (∀ p, p ∈ live → origin_of (hnodes h) p ≠ Some x) →
  NoDup pool → x ∉ pool → (∀ y, y ∈ pool → y ∈ hpool h) →
  (∀ y, y ∉ pool → y = x ∨ y ∉ hpool h) →
  (hnloc h ≤ nloc)%nat → (x < nloc)%nat → origin nd = None →
  mem = hmem h → aid = haid h →
  world (Heap (<[x := nd]> (hnodes h)) (<[x := 1]> (hrefer h)) pool mem freed nloc aid)
    (x :: live) regs.
Proof.
  intros W Hxl Hxo Hp Hxp Hsub Hin ?? Hor -> ->.
  assert (∀ y, y ∈ live → origin_of (<[x := nd]> (hnodes h)) y = origin_of (hnodes h) y) as Ho.
  { intros y ?. unfold origin_of. rewrite lookup_insert_ne; [done|]. by intros ->. }
  assert (origin_of (<[x := nd]> (hnodes h)) x = None) as Hox.
  { unfold origin_of. rewrite lookup_insert_eq. done. }
  destruct W. constructor; simpl; try done.
  - by constructor.
  - intros y [->|Hy]%elem_of_cons; [done|]. intros ?%Hsub. by eapply w_live_pool0.
  - intros y Hy. rewrite lookup_insert. case_decide; [eauto|]. apply w_live_dom0. set_solver.
  - intros y Hy. destruct (w_clean0 y) as (ynd&?&?); [auto|]. exists ynd.
    rewrite lookup_insert_ne; [done|]. by intros ->.
  - intros y ?. rewrite lookup_insert_ne by lia. apply w_fresh0. lia.
  - intros y o [->|Hy]%elem_of_cons; [by rewrite Hox|].
    rewrite Ho by done. intros Hyo. destruct (w_origin0 y o) as (Hop&ond&?&?); [done..|].
    split; [naive_solver|]. exists ond. rewrite lookup_insert_ne; [done|].
    intros ->. by eapply Hxo.
  - intros o Hop. unfold refer_of. simpl. rewrite owners_cons, Hox.
    rewrite (owners_ext (hnodes h)) by done. rewrite lookup_insert.
    destruct (decide (x = o)) as [->|].
    + rewrite decide_True by auto.
      rewrite (proj2 (owners_0 _ _ _)) by done. done.
    + rewrite decide_False by naive_solver.
      specialize (w_refer0 o). unfold refer_of in w_refer0. apply w_refer0. naive_solver.
Qed.

(** The node [newLinkBufferNode size] returns. *)
Record new_node (size : Z) (nd : linkBufferNode) (m : mem) : Prop := NewNode {
  nn_off : off nd = 0;
  nn_malloc : nmalloc nd = 0;
  nn_len : slen (buf nd) = 0;
  nn_soff : soff (buf nd) = 0;
  nn_origin : origin nd = None;
  nn_next : next nd = None;
  nn_cap : 0 <= scap (buf nd) ∧ scap (buf nd) <= zlen (arr m (sarr (buf nd)));
  nn_ro : size <= 0 → buf nd = nil_slice ∧ mode nd = readonlyMask;
  nn_rw : 0 < size → mode nd = 0 ∧ size <= scap (buf nd);
}.

Lemma new_node_wf size nd m : new_node size nd m → node_wf m nd.
Proof. intros []. destruct nn_cap0. constructor; lia. Qed.

Lemma new_node_ro size nd m :
  new_node size nd m → getMode nd readonlyMask = true → scap (buf nd) = 0.
Proof.
  intros []. destruct (Z.leb_spec size 0).
  - destruct nn_ro0 as [-> _]; done.
  - destruct nn_rw0 as [E _]; [lia|]. unfold getMode. by rewrite E.
Qed.

(** Nodes reached from the pool or allocated. *)
Lemma wp_pool_Get h live regs Q :
  world h live regs →
  (∀ x h' nd, hnodes h' !! x = Some nd → buf nd = nil_slice → origin nd = None →
     next nd = None → x ∉ live → hnodes h' = <[x := nd]> (hnodes h) →
     hmem h' = hmem h → (∀ y, y ≠ x → refer_of h' y = refer_of h y) →
     (∀ nd', origin nd' = None →
        world (set_refer (<[x := 1]> (hrefer h')) (set_nodes (<[x := nd']> (hnodes h')) h'))
          (x :: live) regs) →
     Q x h') →
  wp pool_Get Q h.
Proof.
  intros W HQ.
  assert (wp pool_New Q h) as Hnew.
  { unfold wp, pool_New.
    assert (hnloc h ∉ live) as Hl.
    { intros Hl. destruct (w_live_dom _ _ _ W _ Hl) as [? E].
      rewrite (w_fresh _ _ _ W) in E; done. }
    eapply (HQ _ _ (Node nil_slice 0 0 0 None None)); simpl; try done.
    { by rewrite lookup_insert_eq. }
    { intros y ?. unfold refer_of. simpl. by rewrite lookup_insert_ne. }
    intros nd' Hor. unfold set_refer, set_nodes. simpl.
    rewrite !insert_insert_eq.
    apply world_add; try done; try lia.
    - intros p Hp Hpo. destruct (w_origin _ _ _ W _ _ Hp Hpo) as (?&?&E&?).
      rewrite (w_fresh _ _ _ W) in E; done.
    - apply W.
    - intros Hp. destruct (w_clean _ _ _ W _ Hp) as (?&E&?).
      rewrite (w_fresh _ _ _ W) in E; done.
    - naive_solver. }
  unfold wp, pool_Get. destruct (pool_pick (hpool h)) as [x|]; [|exact Hnew].
  case_decide as Hx; [|exact Hnew].
  destruct (w_clean _ _ _ W _ Hx) as (nd&Hnd&?&?&?).
  assert (x ∉ live) as Hxl. { intros ?. by eapply (w_live_pool _ _ _ W). }
  eapply (HQ _ _ nd); simpl; try done.
  { by rewrite insert_id. }
  intros nd' Hor. unfold set_refer, set_nodes. simpl.
  apply world_add; try done.
  - intros p Hp Hpo. by destruct (w_origin _ _ _ W _ _ Hp Hpo).
  - apply NoDup_filter, W.
  - rewrite list_elem_of_filter. naive_solver.
  - intros y. rewrite list_elem_of_filter. naive_solver.
  - intros y. rewrite list_elem_of_filter. destruct (decide (y = x)); naive_solver.
  - destruct (decide (hnloc h ≤ x)%nat) as [Hlt|]; [|lia].
    rewrite (w_fresh _ _ _ W) in Hnd; done.
Qed.

Lemma wp_newLinkBufferNode h live regs size Q :
  world h live regs →
  (∀ x h' nd, x ∉ live → hnodes h' = <[x := nd]> (hnodes h) →
     new_node size nd (hmem h') → world h' (x :: live) (nregion nd :: regs) →
     keeps (hmem h) (hmem h') regs → refer_of h' x = 1 →
     (∀ y, y ≠ x → refer_of h' y = refer_of h y) → Q x h') →
  wp (newLinkBufferNode size) Q h.
Proof.
  intros W HQ. apply wp_bind. eapply wp_pool_Get; [exact W|].
  intros x h1 nd Hx Hb Ho Hn Hl Hns Hm Hrf HW. apply wp_bind.
  eapply wp_update; [exact Hx|]. apply wp_bind, wp_modify.
  set (nd1 := set_mode _ _). specialize (HW nd1 Ho).
  set (h2 := set_refer _ _). change (world h2 (x :: live) regs) in HW.
  assert (hnodes h2 !! x = Some nd1) as Hx2. { apply lookup_insert_eq. }
  assert (hnodes h2 = <[x := nd1]> (hnodes h)) as Hns2.
  { simpl. by rewrite Hns, insert_insert_eq. }
  assert (hmem h2 = hmem h) as Hm2 by done.
  assert (refer_of h2 x = 1) as Hrc2.
  { unfold refer_of. simpl. by rewrite lookup_insert_eq. }
  assert (∀ y, y ≠ x → refer_of h2 y = refer_of h y) as Hrf2.
  { intros y ?. rewrite <- Hrf by done. unfold refer_of. simpl. by rewrite lookup_insert_ne. }
  assert (x ∉ hpool h2) as Hxp. { apply (w_live_pool _ _ _ HW). left. }
  clearbody h2. destruct (Z.leb_spec size 0).
  - apply wp_bind. eapply wp_update; [exact Hx2|]. apply wp_ret.
    eapply (HQ _ _ (setMode readonlyMask true nd1)); simpl; try done.
    + by rewrite Hns2, insert_insert_eq.
    + constructor; simpl; rewrite ?Hb; simpl; try done; try lia.
      split; [lia|apply zlen_nonneg].
    + apply (world_regs _ _ regs); [| |by eapply world_update].
      * split; [|apply HW]. apply Forall_forall. intros r _.
        unfold disj, nregion, nd1, setMode, node_top. simpl. rewrite Hb. simpl. do 3 right. left. lia.
      * constructor; [|apply HW]. unfold reg_ok, nregion, setMode, node_top. simpl.
        rewrite Hb. simpl. split; [lia|apply zlen_nonneg].
    + rewrite Hm2. apply keeps_refl.
  - set (size' := if size <? LinkBufferCap then _ else _).
    assert (size <= size') by (unfold size'; case_match; lia).
    apply wp_bind. eapply wp_malloc; [|exact HW|]; [lia|].
    intros h3 a c [Hns3 Hp3 Hm3 Hrc3 ??] Hc HW3 Hk3. apply wp_bind.
    eapply (wp_update _ nd1); [by rewrite Hns3|]. apply wp_ret.
    assert (nregion (set_buf (Slice a 0 0 c) nd1) = Region a 0 c) as Hreg by done.
    eapply (HQ _ _ (set_buf (Slice a 0 0 c) nd1)); simpl; try done.
    + by rewrite Hns3, Hns2, insert_insert_eq.
    + constructor; simpl; try done; try lia.
      * rewrite Hm3, arr_new, decide_True by done. rewrite zlen_dirty_bytes. lia.
      * split; [done|lia].
    + rewrite Hreg. eapply world_update; [by rewrite Hns3| |done|done]. by rewrite Hp3.
    + by rewrite <- Hm2.
    + unfold refer_of. simpl. by rewrite Hrc3.
    + intros y ?. rewrite <- Hrf2 by done. unfold refer_of. simpl. by rewrite Hrc3.
Qed.

(** Dropping one of the references that [world] does not account for. *)
Lemma wp_release_self h live regs x nd Q :
  world h live regs → x ∉ hpool h → hnodes h !! x = Some nd →
  owners (hnodes h) live x + 1 <= refer_of h x →
  (∀ h', world h' live regs → hmem h' = hmem h →
     (∀ y, y ≠ x → hnodes h' !! y = hnodes h !! y) →
     (x ∈ live → hnodes h' !! x = Some nd) →
     (∀ y, y ≠ x → y ∉ hpool h → y ∉ hpool h') →
     (∀ y, y ≠ x → refer_of h' y = refer_of h y) → Q tt h') →
  wp (node_release_self (Some x)) Q h.
Proof.
  intros W Hxp Hx Hrc HQ. apply wp_bind, wp_ret, wp_bind, wp_modify, wp_bind, wp_get.
  unfold refer_of at 1. simpl. rewrite lookup_insert_eq. simpl.
  assert (∀ y, y ≠ x → default 0 (<[x := refer_of h x - 1]> (hrefer h) !! y) = refer_of h y)
    as Hry.
  { intros y ?. by rewrite lookup_insert_ne. }
  destruct (Z.eqb_spec (refer_of h x - 1) 0) as [E|E].
  - assert (owners (hnodes h) live x = 0) as [Hxl Hxo]%owners_0.
    { pose proof (owners_nonneg (hnodes h) live x). lia. }
    set (h1 := set_refer _ h).
    apply wp_bind. eapply wp_load; [exact Hx|]. apply wp_bind.
    assert (∀ f, wp (_ ← update (Some x)
      (λ nd, set_next None (set_origin None (set_buf nil_slice nd))); pool_Put x) Q
      (set_freed f h1)) as Hf.
    { intros f. apply wp_bind. eapply wp_update; [exact Hx|]. apply wp_modify.
      assert (∀ y, y ≠ x → <[x := set_next None (set_origin None (set_buf nil_slice nd))]>
        (hnodes h) !! y = hnodes h !! y) as Hy.
      { intros y ?. by rewrite lookup_insert_ne. }
      apply HQ; try done; [|set_solver].
      destruct W. constructor; simpl; try done.
      - by constructor.
      - intros y ?. specialize (w_live_pool0 y). set_solver.
      - intros y ?. rewrite Hy; [auto|]. by intros ->.
      - intros y Hyp. destruct (decide (y = x)) as [->|].
        + rewrite lookup_insert_eq. eauto.
        + rewrite Hy by done. apply w_clean0. set_solver.
      - intros y ?. rewrite Hy; [auto|]. intros ->. rewrite w_fresh0 in Hx; done.
      - intros y o Hyl. unfold origin_of. rewrite Hy by (by intros ->). intros Ho.
        destruct (w_origin0 y o Hyl Ho) as (?&ond&?&?).
        assert (o ≠ x) by (intros ->; by eapply Hxo).
        split; [set_solver|]. exists ond. by rewrite Hy.
      - intros o Ho. unfold refer_of. simpl.
        assert (o ≠ x ∧ o ∉ hpool h) as [? ?] by set_solver.
        rewrite Hry by done. rewrite (owners_ext (hnodes h)); [by apply w_refer0|].
        intros y ?. unfold origin_of. rewrite Hy; [done|]. by intros ->. }
    destruct (reusable nd); [apply wp_free; [apply Hf|]|apply wp_ret];
      apply (Hf (hfreed h)).
  - apply wp_ret, HQ; try done.
    destruct W. constructor; simpl; try done.
    intros o Ho. unfold refer_of. simpl. destruct (decide (o = x)) as [->|].
    + rewrite lookup_insert_eq. unfold refer_of in Hrc. simpl. lia.
    + rewrite Hry by done. by apply w_refer0.
Qed.

(** A live node with one reference is referred to by no other node. *)
Lemma world_unreferred h live regs q p :
  world h live regs → q ∈ live → refer_of h q = 1 → p ∈ live → p ≠ q →
  origin_of (hnodes h) p ≠ Some q.
Proof.
  intros W Hq Hrc Hp Hne. pose proof (w_live_pool _ _ _ W q Hq) as Hqp.
  apply elem_of_Permutation in Hq as [l El]. rewrite El in Hp.
  pose proof (w_refer _ _ _ W q Hqp) as Hr. rewrite Hrc, (owners_perm _ _ _ _ El), owners_cons in Hr.
  rewrite decide_True in Hr by auto. pose proof (owners_nonneg (hnodes h) l q).
  assert (owners (hnodes h) l q = 0) as [_ E]%owners_0 by lia. apply E.
  by apply elem_of_cons in Hp as [|].
Qed.

(** Releasing a live node. *)
Lemma wp_node_Release h live regs x Q :
  world h (x :: live) regs →
  (∀ h', world h' live regs → hmem h' = hmem h →
     (∀ y, y ∈ live → hnodes h' !! y = hnodes h !! y) →
     (∀ y, y ∈ live → refer_of h y = 1 → refer_of h' y = 1) → Q tt h') →
  wp (node_Release (Some x)) Q h.
Proof.
  intros W HQ. pose proof (world_drop _ _ _ _ W) as W'.
  pose proof (w_nodup _ _ _ W) as [Hxl _]%NoDup_cons.
  destruct (w_live_dom _ _ _ W x) as [nd Hnd]; [left|].
  assert (x ∉ hpool h) as Hxp. { apply (w_live_pool _ _ _ W). left. }
  assert (owners (hnodes h) live x + 1 <= refer_of h x) as Hrc.
  { pose proof (w_refer _ _ _ W x Hxp) as Hr. rewrite owners_cons in Hr.
    rewrite decide_True in Hr by auto. lia. }
  apply wp_bind, wp_get. unfold nfuel.
  destruct (size (hnodes h)) as [|k] eqn:Hk.
  { apply map_size_empty_inv in Hk. rewrite Hk in Hnd. by rewrite lookup_empty in Hnd. }
  simpl. apply wp_bind. eapply wp_load; [exact Hnd|]. apply wp_bind.
  assert (∀ y, y ∈ live → y ≠ x) as Hne by (intros y ? ->; done).
  destruct (origin nd) as [o|] eqn:Ho.
  - assert (origin_of (hnodes h) x = Some o) as Hox by (unfold origin_of; by rewrite Hnd).
    destruct (w_origin _ _ _ W x o) as (Hop&ond&Hond&Hoo); [left|done|].
    assert (o ≠ x) by congruence.
    apply wp_bind. eapply wp_load; [exact Hond|]. rewrite Hoo. apply wp_bind, wp_ret.
    eapply wp_release_self; [exact W'|done|exact Hond| |].
    { pose proof (w_refer _ _ _ W o Hop) as Hr. rewrite owners_cons in Hr.
      rewrite decide_True in Hr by auto. lia. }
    intros h1 W1 Hm1 Hn1 Hol Hp1 Hr1.
    eapply wp_release_self; [exact W1|by apply Hp1|by rewrite Hn1| |].
    { rewrite Hr1 by done. rewrite (owners_ext (hnodes h)); [done|]. intros y Hy.
      unfold origin_of. destruct (decide (y = o)) as [->|]; [|by rewrite Hn1].
      by rewrite Hol, Hond. }
    intros h2 W2 Hm2 Hn2 _ _ Hr2. apply HQ; [done|congruence| |].
    + intros y Hy. rewrite Hn2 by auto.
      destruct (decide (y = o)) as [->|]; [|by apply Hn1]. by rewrite Hol.
    + intros y Hy Hry. rewrite Hr2 by auto. destruct (decide (y = o)) as [->|]; [|by rewrite Hr1].
      destruct (world_unreferred _ _ _ o x W); [by right|done|left|done..].

  - apply wp_ret. eapply wp_release_self; [exact W'|done|exact Hnd|done|].
    intros h2 W2 Hm2 Hn2 _ _ Hr2. apply HQ; [done|done| |].
    + intros y ?. apply Hn2. auto.
    + intros y ??. rewrite Hr2; auto.
Qed.

(** ** Referring to the memory of another node *)

Lemma world_refer h live regs q qd o ond qd' :
  world h (q :: live) regs → hnodes h !! q = Some qd → origin qd = None → refer_of h q = 1 →
  o ≠ q → o ∉ hpool h → hnodes h !! o = Some ond → origin ond = None → origin qd' = Some o →
  world (set_refer (<[o := refer_of h o + 1]> (hrefer h))
           (set_nodes (<[q := qd']> (hnodes h)) h)) (q :: live) regs.
Proof.
  intros W Hq Hqo Hrc Hne Hop Ho Hoo Hqd'.
  pose proof (w_nodup _ _ _ W) as [Hql _]%NoDup_cons.
  assert (q ∉ hpool h) as Hqp. { apply (w_live_pool _ _ _ W). left. }
  assert (∀ p, p ∈ live → origin_of (hnodes h) p ≠ Some q) as Hno.
  { intros p Hp. apply (world_unreferred _ _ _ q p W); [left|done|by right|]. by intros ->. }
  assert (∀ p, p ∈ live → origin_of (<[q := qd']> (hnodes h)) p = origin_of (hnodes h) p) as Hoe.
  { intros p Hp. unfold origin_of. rewrite lookup_insert_ne; [done|]. by intros ->. }
  assert (origin_of (<[q := qd']> (hnodes h)) q = Some o) as Hqe.
  { unfold origin_of. by rewrite lookup_insert_eq. }
  destruct W. constructor; simpl; try done.
  - intros x Hx. destruct (decide (x = q)) as [->|]; [by rewrite lookup_insert_eq|].
    rewrite lookup_insert_ne by done. by apply w_live_dom0.
  - intros x Hx. rewrite lookup_insert_ne; [by apply w_clean0|]. by intros ->.
  - intros x Hx. rewrite lookup_insert_ne; [by apply w_fresh0|]. intros ->.
    rewrite w_fresh0 in Hq; done.
  - intros x o' Hx Hxo. destruct (decide (x = q)) as [->|Hxq].
    + rewrite Hqe in Hxo. simplify_eq. split; [done|]. exists ond. by rewrite lookup_insert_ne.
    + apply elem_of_cons in Hx as [|Hx]; [done|]. rewrite Hoe in Hxo by done.
      destruct (w_origin0 x o') as (?&ond'&?&?); [by right|done|]. split; [done|].
      exists ond'. rewrite lookup_insert_ne; [done|]. intros ->. by eapply Hno.
  - intros o' Ho'. unfold refer_of. simpl. rewrite owners_cons, (owners_ext (hnodes h)) by done.
    pose proof (w_refer0 o' Ho') as Hr. rewrite owners_cons in Hr. unfold refer_of in Hr.
    assert (origin_of (hnodes h) q = None) as Eq. { unfold origin_of. rewrite Hq. done. }
    rewrite Hqe. rewrite Eq in Hr. destruct (decide (o' = o)) as [->|].
    + rewrite lookup_insert_eq. simpl. unfold refer_of.
      rewrite decide_True by auto. rewrite decide_False in Hr by naive_solver. lia.
    + rewrite lookup_insert_ne by done. repeat case_decide; try lia; naive_solver.
Qed.
End alloc.
