(* ===== verification/LinkInv.v ===== *)
(** * The representation invariant of a link buffer

    [shape] is the chain of nodes of a buffer as ghost state: the nodes that
    were read and not released ([dead]), the nodes from [b.read] on ([lv]), and
    the positions of [b.flush] and [b.write] among them.  [own] says that a
    buffer has a shape and owns its nodes and their windows of memory; [Rd] and
    [Tb] are the bytes that can be read now and after a Flush. *)

From S2P Require Import Prelude GoMem LinkNode LinkBuffer LinkHeap.

Open Scope Z_scope.

(** How a buffer came about. *)
Inductive kind :=
| KSlice  (** by Slice: b.flush and b.write are nil, it can only be read *)
| KPlain  (** by NewLinkBuffer *)
| KInput  (** ... and filled by book and bookAck only *)
| KSplit. (** ... and WriteDirect divided a node since the last Flush *)

Record shape := Sh {
  dead : list cell;
  lv : list cell;
  nf : nat;
  nw : nat;
  kd : kind;
  clean : bool; (** no buffer was appended since the last Flush *)
}.

Definition ro (sh : shape) : bool := match kd sh with KSlice => true | _ => false end.
Definition plain (sh : shape) : bool := match kd sh with KPlain | KInput => true | _ => false end.

(** The fields of the node at position [i] from [b.read] on. *)
Record pos_ok (sh : shape) (i : nat) (nd : linkBufferNode) : Prop := PosOk {
  po_rd : (i < nf sh)%nat →
    nmalloc nd <= slen (buf nd) ∧ (ro sh = false → nmalloc nd = slen (buf nd));
  po_wr : (nf sh ≤ i)%nat → slen (buf nd) <= nmalloc nd;
  po_res : (nw sh < i)%nat → off nd = 0 ∧ slen (buf nd) = 0 ∧ nmalloc nd = 0;
  po_clean : clean sh = true → (nf sh < i)%nat → off nd = slen (buf nd);
  po_plain : clean sh = true → plain sh = true → (nf sh < i)%nat → off nd = 0;
  po_input : kd sh = KInput → getMode nd readonlyMask = true → nmalloc nd = scap (buf nd);
}.

(** No byte of the node at position [i] was readable yet. *)
Definition unread (sh : shape) (i : nat) : Prop :=
  (nw sh < i)%nat ∨ (clean sh = true ∧ (nf sh < i)%nat).

Lemma unread_0 sh : ¬ unread sh 0.
Proof. intros [|[]]; lia. Qed.

Record lb_str (b : LinkBuffer) (h : heap) (sh : shape) : Prop := LbStr {
  s_dead : lseg (hnodes h) (head b) (dead sh) (read b);
  s_lv : lseg (hnodes h) (read b) (lv sh) None;
  s_flush : flush b = (lv sh).*1 !! nf sh;
  s_write : write b = (lv sh).*1 !! nw sh;
  s_idx : if ro sh then nf sh = length (lv sh) ∧ nw sh = length (lv sh)
          else (nf sh ≤ nw sh)%nat ∧ (nw sh < length (lv sh))%nat;
  s_nodes : ∀ i x nd, lv sh !! i = Some (x, nd) → node_wf (hmem h) nd ∧ pos_ok sh i nd;
  s_unref : ∀ i x nd, unread sh i → lv sh !! i = Some (x, nd) → refer_of h x = 1;
}.

Definition locs (sh : shape) : list loc := (dead sh ++ lv sh).*1.
Definition cregs (l : list cell) : list region := (λ c : cell, nregion c.2) <$> l.
Lemma cregs_app l1 l2 : cregs (l1 ++ l2) = cregs l1 ++ cregs l2.
Proof. unfold cregs. by rewrite fmap_app. Qed.
Definition Rd (m : mem) (l : list cell) : list byte := mjoin ((λ c : cell, rb m c.2) <$> l).
Definition Tb (m : mem) (l : list cell) : list byte := mjoin ((λ c : cell, fb m c.2) <$> l).

(** The number of bytes that were allocated and not flushed. *)
Fixpoint pend (l : list cell) : Z :=
  match l with
  | [] => 0
  | (x, nd) :: l => (nmalloc nd - slen (buf nd)) + pend l
  end.

(** The buffer, its nodes and its memory, next to [others] and [regs]. *)
Definition own (b : LinkBuffer) (h : heap) (sh : shape)
    (others : list loc) (regs : list region) : Prop :=
  lb_str b h sh ∧ world h (locs sh ++ others) (cregs (lv sh) ++ regs).

(** What an operation leaves alone: the nodes of the other buffers and the
    windows of memory of the environment. *)
Record frame (others : list loc) (regs : list region) (h h' : heap) : Prop := Frame {
  fr_nodes : ∀ x, x ∈ others → hnodes h' !! x = hnodes h !! x;
  fr_mem : keeps (hmem h) (hmem h') regs;
  fr_refer : ∀ x, x ∈ others → refer_of h x = 1 → refer_of h' x = 1;
}.

Lemma frame_refl others regs h : frame others regs h h.
Proof. split; [done|apply keeps_refl|done]. Qed.

Lemma frame_trans others regs h1 h2 h3 :
  frame others regs h1 h2 → frame others regs h2 h3 → frame others regs h1 h3.
Proof.
  intros [H1 ? H3] [H2 ? H4]. split; [|by eapply keeps_trans|auto]. intros x ?. by rewrite H2, H1.
Qed.

Lemma frame_sub others others' regs regs' h h' :
  (∀ x, x ∈ others' → x ∈ others) → (∀ r, r ∈ regs' → r ∈ regs) →
  frame others regs h h' → frame others' regs' h h'.
Proof. intros ?? []. split; [auto| |auto]. by eapply keeps_sublist. Qed.

(** Only memory changes. *)
Definition same_nodes (h h' : heap) : Prop := hnodes h' = hnodes h ∧ hrefer h' = hrefer h.

Lemma same_nodes_trans h1 h2 h3 : same_nodes h1 h2 → same_nodes h2 h3 → same_nodes h1 h3.
Proof. unfold same_nodes. intros [] []. split; congruence. Qed.

Lemma frame_mem others regs h h' :
  same_nodes h h' → keeps (hmem h) (hmem h') regs → frame others regs h h'.
Proof. intros [E1 E2] ?. split; [by rewrite E1|done|]. unfold refer_of. by rewrite E2. Qed.

(** From a larger footprint to a smaller one. *)
Ltac in_app := intros ?; rewrite ?fmap_app, ?elem_of_app, ?elem_of_cons; tauto || set_solver.
Ltac fsub H := refine (frame_sub _ _ _ _ _ _ _ _ H); in_app.
Ltac ksub H := refine (keeps_sublist _ _ _ _ _ H); in_app.

(** ** Rules for the state *)

Lemma wp_H {A} (m : M heap A) Q b h :
  wp m (λ a h', Q a (St b h')) h → wp (H m) Q (St b h).
Proof. intros Hw. by apply wp_zoom. Qed.

Lemma wp_getb (Q : LinkBuffer → st → Prop) b h : Q b (St b h) → wp getb Q (St b h).
Proof. done. Qed.

Lemma wp_setb f (Q : unit → st → Prop) b h : Q tt (St (f b) h) → wp (setb f) Q (St b h).
Proof. done. Qed.

Lemma wp_fuel_of (Q : nat → st → Prop) b h : Q (nfuel h) (St b h) → wp fuel_of Q (St b h).
Proof. done. Qed.

Lemma wp_next_of x nd (Q : option loc → st → Prop) b h :
  hnodes h !! x = Some nd → Q (next nd) (St b h) → wp (next_of (Some x)) Q (St b h).
Proof. intros Hx HQ. apply wp_bind, wp_H. eapply wp_load; [exact Hx|]. exact HQ. Qed.

(** Symbolic execution of the steps that need no side condition. *)
Ltac wstep :=
  lazymatch goal with
  | |- wp (mbind _ _) _ _ => apply wp_bind
  | |- wp (mret _) _ _ => apply wp_ret
  | |- wp getb _ _ => apply wp_getb
  | |- wp (setb _) _ _ => apply wp_setb
  | |- wp fuel_of _ _ => apply wp_fuel_of
  | |- wp (H _) _ _ => apply wp_H
  | |- wp get _ _ => apply wp_get
  | |- wp (modify _) _ _ => apply wp_modify
  | |- wp (copy_in _ _) _ _ => apply wp_copy_in
  | |- wp (read_slice _) _ _ => apply wp_read_slice
  end; cbv beta.
Ltac wsteps := repeat wstep.

(** ** Bytes of a chain *)

Section bytes.
Implicit Types (m : mem) (l : list cell).

Lemma Rd_cons m x nd l : Rd m ((x, nd) :: l) = rb m nd ++ Rd m l.
Proof. done. Qed.
Lemma Tb_cons m x nd l : Tb m ((x, nd) :: l) = fb m nd ++ Tb m l.
Proof. done. Qed.
Lemma Rd_app m l1 l2 : Rd m (l1 ++ l2) = Rd m l1 ++ Rd m l2.
Proof. unfold Rd. by rewrite fmap_app, join_app. Qed.
Lemma Tb_app m l1 l2 : Tb m (l1 ++ l2) = Tb m l1 ++ Tb m l2.
Proof. unfold Tb. by rewrite fmap_app, join_app. Qed.

Lemma rb_nil m nd : off nd = slen (buf nd) → rb m nd = [].
Proof. intros E. unfold rb, mget. apply zsub_empty. lia. Qed.

Lemma fb_nil m nd : off nd = slen (buf nd) → nmalloc nd <= slen (buf nd) → fb m nd = [].
Proof. intros E ?. unfold fb, mget. apply zsub_empty. lia. Qed.

Lemma fb_flushed m nd : nmalloc nd <= slen (buf nd) → fb m nd = rb m nd.
Proof. intros. unfold fb, rb. by rewrite Z.max_l by lia. Qed.

Lemma rb_set_off m nd n : node_wf m nd → 0 <= n → n <= node_Len nd →
  rb m (set_off (off nd + n) nd) = zdrop n (rb m nd) ∧
  fb m (set_off (off nd + n) nd) = zdrop n (fb m nd) ∧
  node_wf m (set_off (off nd + n) nd).
Proof.
  unfold node_Len. intros [] ??. unfold rb, fb, mget. simpl.
  rewrite !zdrop_zsub by lia. split_and!; [f_equal; lia..|]. constructor; simpl; lia.
Qed.

Lemma Rd_nil m l :
  (∀ i x nd, l !! i = Some (x, nd) → off nd = slen (buf nd)) → Rd m l = [].
Proof.
  induction l as [|[x nd] l IH]; intros Hl; [done|]. rewrite Rd_cons, IH.
  - rewrite rb_nil; [done|]. by eapply (Hl 0%nat).
  - intros i. apply (Hl (S i)).
Qed.

Lemma Tb_nil m l :
  (∀ i x nd, l !! i = Some (x, nd) → off nd = slen (buf nd) ∧ nmalloc nd <= slen (buf nd)) →
  Tb m l = [].
Proof.
  induction l as [|[x nd] l IH]; intros Hl; [done|]. rewrite Tb_cons, IH.
  - destruct (Hl 0%nat x nd); [done|]. by rewrite fb_nil.
  - intros i. apply (Hl (S i)).
Qed.

Lemma Rd_le_Tb m l : (∀ i x nd, l !! i = Some (x, nd) → node_wf m nd) →
  zlen (Rd m l) <= zlen (Tb m l).
Proof.
  induction l as [|[x nd] l IH]; intros Hl; [done|]. rewrite Rd_cons, Tb_cons, !zlen_app.
  pose proof (Hl 0%nat x nd eq_refl) as Hw. rewrite zlen_rb, zlen_fb by done. unfold node_Len.
  assert (zlen (Rd m l) <= zlen (Tb m l)) by (apply IH; intros i; apply (Hl (S i))). lia.
Qed.

(** The bytes of a chain are determined by its windows. *)
Lemma Rd_Tb_keeps m m' l :
  (∀ i x nd, l !! i = Some (x, nd) → node_wf m nd) → keeps m m' (cregs l) →
  Rd m' l = Rd m l ∧ Tb m' l = Tb m l.
Proof.
  intros Hw [_ Hk]. induction l as [|[x nd] l IH]; [done|].
  unfold cregs in Hk. rewrite fmap_cons, Forall_cons in Hk. destruct Hk as [Hr Hk].
  rewrite !Rd_cons, !Tb_cons.
  destruct (rb_fb_region m m' nd) as [-> ->]; [by eapply (Hw 0%nat)|done|].
  destruct IH as [-> ->]; [|done..]. intros i. apply (Hw (S i)).
Qed.
End bytes.

(** ** Moving along the chain *)

Section own.
Implicit Types (b : LinkBuffer) (h : heap) (sh : shape) (others : list loc)
  (regs : list region).

Lemma own_nodup b h sh others regs : own b h sh others regs → NoDup (locs sh).
Proof. intros [_ W]. pose proof (w_nodup _ _ _ W) as Hn. by apply NoDup_app in Hn as [? _]. Qed.

Lemma own_nodup_lv b h sh others regs : own b h sh others regs → NoDup (lv sh).*1.
Proof.
  intros Hn%own_nodup. unfold locs in Hn. rewrite fmap_app in Hn.
  by apply NoDup_app in Hn as (_&_&?).
Qed.

Lemma own_fuel b h sh others regs : own b h sh others regs → (length (lv sh) < nfuel h)%nat.
Proof.
  intros Ho. pose proof (own_nodup_lv _ _ _ _ _ Ho) as Hn. destruct Ho as [Hs _].
  pose proof (lseg_size _ _ _ _ (s_lv _ _ _ Hs) Hn). unfold nfuel. lia.
Qed.

Lemma own_head b h sh others regs x nd l :
  own b h sh others regs → lv sh = (x, nd) :: l →
  read b = Some x ∧ hnodes h !! x = Some nd ∧ node_wf (hmem h) nd ∧ pos_ok sh 0 nd.
Proof.
  intros [Hs _] El. pose proof (s_lv _ _ _ Hs) as Hl. rewrite El in Hl.
  destruct Hl as (?&?&?). split_and!; try done; eapply (s_nodes _ _ _ Hs 0); by rewrite El.
Qed.

Lemma locs_lv sh i x nd : lv sh !! i = Some (x, nd) → x ∈ locs sh.
Proof.
  intros Hi. unfold locs. rewrite fmap_app, elem_of_app. right.
  apply list_elem_of_fmap. exists (x, nd). split; [done|]. by eapply list_elem_of_lookup_2.
Qed.

(** The rest of the heap may change. *)
Lemma own_world b h h' sh others others' regs regs' :
  own b h sh others regs → (∀ y, y ∈ locs sh → hnodes h' !! y = hnodes h !! y) →
  (∀ a, zlen (arr (hmem h) a) <= zlen (arr (hmem h') a)) →
  (∀ i y nd, unread sh i → lv sh !! i = Some (y, nd) → refer_of h y = 1 → refer_of h' y = 1) →
  world h' (locs sh ++ others') (cregs (lv sh) ++ regs') → own b h' sh others' regs'.
Proof.
  intros [[Hd Hl Hf Hw Hi Hn Hu] _] Hns Hle Hrf W. split; [|done]. constructor; try done.
  - eapply lseg_frame; [|exact Hd]. intros. apply Hns. unfold locs. rewrite fmap_app. set_solver.
  - eapply lseg_frame; [|exact Hl]. intros. apply Hns. unfold locs. rewrite fmap_app. set_solver.
  - intros i x nd E. destruct (Hn i x nd E). split; [|done]. by eapply node_wf_le.
  - intros i x nd Hlt E. eapply Hrf; [done..|]. by eapply Hu.
Qed.

(** Storing to a node of the buffer. *)
Lemma own_frame_node b h sh others regs x nd :
  own b h sh others regs → x ∈ locs sh →
  frame others regs h (set_nodes (<[x := nd]> (hnodes h)) h).
Proof.
  intros [_ W] Hx. pose proof (w_nodup _ _ _ W) as Hn. apply NoDup_app in Hn as (_&Hn&_).
  split; [|apply keeps_refl|done]. intros y Hy. simpl. apply lookup_insert_ne.
  intros ->. by eapply Hn.
Qed.

Lemma locs_head sh x nd l : lv sh = (x, nd) :: l → x ∈ locs sh.
Proof. intros El. unfold locs. rewrite El, fmap_app. set_solver. Qed.

(** The length of the readable bytes is what the nodes say. *)
Lemma own_Rd_cons b h sh others regs x nd l :
  own b h sh others regs → lv sh = (x, nd) :: l →
  zlen (Rd (hmem h) (lv sh)) = node_Len nd + zlen (Rd (hmem h) l).
Proof.
  intros Ho El. destruct (own_head _ _ _ _ _ _ _ _ Ho El) as (_&_&Hw&_).
  rewrite El, Rd_cons, zlen_app, zlen_rb by done. done.
Qed.

(** More bytes than the first node holds: b.read is in front of b.flush. *)
Lemma own_more b h sh others regs x nd l :
  own b h sh others regs → clean sh = true → lv sh = (x, nd) :: l →
  node_Len nd < zlen (Rd (hmem h) (lv sh)) →
  ∃ k j, nf sh = S k ∧ nw sh = S j ∧ l ≠ [].
Proof.
  intros Ho Hc El Hlt. rewrite (own_Rd_cons _ _ _ _ _ _ _ _ Ho El) in Hlt.
  destruct Ho as [Hs _].
  assert (l ≠ []) as Hne. { intros ->. unfold Rd in Hlt. simpl in Hlt. rewrite zlen_nil in Hlt. lia. }
  destruct (nf sh) as [|k] eqn:Ek.
  - exfalso. rewrite Rd_nil in Hlt; [rewrite zlen_nil in Hlt; lia|].
    intros i y md Hi. destruct (s_nodes _ _ _ Hs (S i) y md) as [_ Hp]; [by rewrite El|].
    apply (po_clean _ _ _ Hp); [done|lia].
  - pose proof (s_idx _ _ _ Hs) as Hi. rewrite El in Hi. simpl in Hi.
    destruct (nw sh) as [|j]; [|eauto].
    destruct (ro sh); lia.
Qed.

(** b.read = b.read.next *)
Lemma own_pop b h sh others regs x nd l k j :
  own b h sh others regs → lv sh = (x, nd) :: l → nf sh = S k → nw sh = S j →
  own (set_read (next nd) b) h
    (Sh (dead sh ++ [(x, nd)]) l k j (kd sh) (clean sh)) others regs.
Proof.
  intros [Hs W] El Ek Ej. destruct Hs as [Hd Hl Hf Hw Hi Hn Hu]. rewrite El in *.
  destruct Hl as (Hr&Hx&Hl). split.
  - constructor; simpl; try done.
    + apply lseg_app. exists (read b). split; [done|]. rewrite Hr. done.
    + rewrite Hf, Ek. done.
    + rewrite Hw, Ej. done.
    + unfold ro in *. simpl in *. destruct (kd sh); lia.
    + intros i y md E. destruct (Hn (S i) y md E) as [? [H1 H2 H3 H4 H5 H6]]. split; [done|].
      constructor; simpl; intros; [apply H1|apply H2|apply H3|apply H4|apply H5|apply H6]; done || lia.
    + intros i y md Hlt. apply (Hu (S i)).
      destruct Hlt as [|[]]; [left|right]; simpl in *; [|split; [done|]]; lia.
  - unfold locs in *. simpl. rewrite <- app_assoc. simpl.
    rewrite El in W. eapply world_regs; [| |exact W].
    + apply W.
    + pose proof (w_regs _ _ _ W) as Hr'. simpl in Hr'. by apply Forall_cons in Hr' as [_ ?].
Qed.

(** Reading [n] bytes of the first node: their window leaves the buffer. *)
Lemma own_advance b h sh others regs x nd l n :
  own b h sh others regs → lv sh = (x, nd) :: l → 0 <= n → n <= node_Len nd →
  own b (set_nodes (<[x := set_off (off nd + n) nd]> (hnodes h)) h)
    (Sh (dead sh) ((x, set_off (off nd + n) nd) :: l) (nf sh) (nw sh) (kd sh) (clean sh))
    others
    (Region (sarr (buf nd)) (soff (buf nd) + off nd) (soff (buf nd) + off nd + n) :: regs).
Proof.
  intros Ho El Hn0 Hn. destruct (own_head _ _ _ _ _ _ _ _ Ho El) as (Hr&Hx&Hwf&Hpo).
  pose proof (own_nodup _ _ _ _ _ Ho) as Hnd. unfold locs in Hnd. rewrite El in Hnd.
  destruct Ho as [[Hd Hl Hf Hw Hi Hns Hu] W]. rewrite El in *.
  destruct (rb_set_off _ _ _ Hwf Hn0 Hn) as (_&_&Hwf').
  assert (x ∉ (dead sh).*1) as Hxd.
  { rewrite fmap_app, NoDup_app in Hnd. intros ?. eapply Hnd; [done|]. left. }
  unfold locs in W. rewrite El in W.
  split.
  - constructor; simpl; try done.
    + by apply lseg_insert_ne.
    + rewrite fmap_app, NoDup_app in Hnd. destruct Hnd as (_&_&Hnd).
      apply (lseg_update (hnodes h) (read b) [] x nd (set_off (off nd + n) nd) l None); done.
    + intros [|i] y md E; simpl in E.
      * simplify_eq. split; [done|]. destruct Hpo as [H1 H2 H3 H4 H5 H6].
        constructor; simpl; intros; [auto|auto|lia..|by apply H6].
      * destruct (Hns (S i) y md) as [? [H1 H2 H3 H4 H5 H6]]; [done|]. split; [done|].
        constructor; simpl; auto.
    + intros [|i] y md Hlt E; [by apply unread_0 in Hlt|]. by apply (Hu (S i) y md).
  - unfold locs in *. simpl. eapply world_update; [done| |done|].
    { apply (w_live_pool _ _ _ W). rewrite fmap_app. set_solver. }
    pose proof (node_top_le _ _ Hwf). pose proof (nregion_ok _ _ Hwf) as Hrok.
    unfold node_Len in Hn. rewrite fmap_app in W |- *. simpl in W |- *.
    eapply world_regs; [| |exact W].
    + pose proof (w_sep _ _ _ W) as Hsep. simpl in Hsep. destruct Hsep as [Hd1 Hs1].
      assert (sub (nregion (set_off (off nd + n) nd)) (nregion nd)) as Hsub1.
      { right. unfold nregion, node_top, getMode. simpl. split; [done|lia]. }
      assert (sub (Region (sarr (buf nd)) (soff (buf nd) + off nd) (soff (buf nd) + off nd + n))
                (nregion nd)) as Hsub2.
      { right. unfold nregion. simpl. split; [done|]. destruct Hwf. lia. }
      cbn [sep]. rewrite sep_app in Hs1 |- *. destruct Hs1 as (Hs1&Hs2&Hs3). cbn [sep].
      apply Forall_app in Hd1 as [Hd1 Hd2]. split_and!; try done.
      * apply Forall_app. split; [|constructor].
        -- eapply Forall_impl; [exact Hd1|]. intros. by eapply disj_sub.
        -- right. right. left. unfold nregion. simpl. lia.
        -- eapply Forall_impl; [exact Hd2|]. intros. by eapply disj_sub.
      * eapply Forall_impl; [exact Hd2|]. intros. by eapply disj_sub.
      * rewrite Forall_forall in Hd1, Hs3 |- *. intros r Hr'. constructor; [|by apply Hs3].
        apply disj_sym. eapply disj_sub; [exact Hsub2|]. by apply Hd1.
    + pose proof (w_regs _ _ _ W) as Hr'. simpl in Hr'.
      rewrite !Forall_cons, !Forall_app in Hr' |- *. simpl.
      destruct Hr' as (?&?&?). split_and!; try done; [by apply nregion_ok|].
      apply Forall_cons. split; [|done]. destruct Hwf, Hrok. unfold reg_ok, nregion in *. simpl in *. lia.
Qed.
End own.

(** ** Stores into memory the buffer does not own *)

Section stores.
Implicit Types (b : LinkBuffer) (h : heap) (sh : shape) (others : list loc)
  (regs : list region).

Lemma own_regs b h sh others regs regs' :
  (∀ rs, sep (rs ++ regs) → sep (rs ++ regs')) →
  (Forall (reg_ok (hmem h)) regs → Forall (reg_ok (hmem h)) regs') →
  own b h sh others regs → own b h sh others regs'.
Proof.
  intros Hs Hr [? W]. split; [done|]. eapply world_regs; [| |exact W].
  - apply Hs, W.
  - pose proof (w_regs _ _ _ W) as Hok. apply Forall_app in Hok as [??].
    apply Forall_app. auto.
Qed.

(** Regions of the environment may be dropped or reordered. *)
Lemma own_drop b h sh others r regs : own b h sh others (r :: regs) → own b h sh others regs.
Proof.
  apply own_regs.
  - intros rs. apply (sep_drop_mid rs [r] regs).
  - by intros [_ ?]%Forall_cons.
Qed.

Lemma own_perm b h sh others regs regs' :
  regs ≡ₚ regs' → own b h sh others regs → own b h sh others regs'.
Proof.
  intros Hp. apply own_regs.
  - intros rs. apply sep_perm. by rewrite Hp.
  - by rewrite Hp.
Qed.

Lemma world_mput h live r regs bs pos :
  world h live (r :: regs) → rlo r <= pos → pos + zlen bs <= rhi r → 0 < zlen bs →
  world (set_mem (mput (hmem h) (rarr r) pos bs) h) live (r :: regs) ∧
  keeps (hmem h) (mput (hmem h) (rarr r) pos bs) regs ∧
  (∀ a, zlen (arr (mput (hmem h) (rarr r) pos bs) a) = zlen (arr (hmem h) a)).
Proof.
  intros W ???. pose proof (w_regs _ _ _ W) as Hr. apply Forall_cons in Hr as [[Hlo Hhi] Hr].
  assert (∀ a, zlen (arr (mput (hmem h) (rarr r) pos bs) a) = zlen (arr (hmem h) a)) as Hl.
  { intros a. apply zlen_arr_mput; lia. }
  assert (hmem h !! rarr r ≠ None) as Hsome.
  { intros E. unfold arr in Hhi. rewrite E in Hhi. simpl in Hhi. rewrite zlen_nil in Hhi. lia. }
  split; [|split; [split|done]].
  - apply world_set_mem; [done| | |done].
    + intros a Ha. unfold mput. rewrite lookup_insert_ne; [by apply W|]. intros <-.
      by rewrite (w_mem _ _ _ W) in Hsome.
    + unfold mput. rewrite lookup_insert_ne; [by apply (w_nil _ _ _ W)|]. intros E.
      rewrite E in Hsome. apply Hsome, (w_nil _ _ _ W).
  - intros a. by rewrite Hl.
  - pose proof (w_sep _ _ _ W) as [Hd _]. rewrite Forall_forall in Hd, Hr |- *.
    intros r' Hr'. apply rget_mput_disj; [|by apply Hr|lia|lia].
    eapply disj_sub; [|by apply Hd]. right. simpl. done.
Qed.

Lemma own_mput b h sh others r regs bs pos :
  own b h sh others (r :: regs) → rlo r <= pos → pos + zlen bs <= rhi r → 0 < zlen bs →
  own b (set_mem (mput (hmem h) (rarr r) pos bs) h) sh others (r :: regs) ∧
  keeps (hmem h) (mput (hmem h) (rarr r) pos bs) (cregs (lv sh) ++ regs).
Proof.
  intros [Hs W] ???.
  assert (world h (locs sh ++ others) (r :: cregs (lv sh) ++ regs)) as W'.
  { eapply world_perm; [done| |exact W]. apply Permutation_sym, Permutation_middle. }
  destruct (world_mput _ _ _ _ _ _ W' H H0 H1) as (W2&Hk&Hl). split; [|done]. split.
  - destruct Hs. constructor; try done. simpl. intros i x nd Hi.
    destruct (s_nodes0 i x nd Hi). split; [|done]. eapply node_wf_le; [|done].
    intros a. by rewrite Hl.
  - eapply world_perm; [done| |exact W2]. apply Permutation_middle.
Qed.

(** [copy(p[i:], bs)] *)
Lemma copy_window m p i bs :
  0 <= soff p → 0 <= i → i + zlen bs <= slen p → slen p <= scap p →
  soff p + slen p <= zlen (arr m (sarr p)) →
  slice_from p i = Some (Slice (sarr p) (soff p + i) (slen p - i) (scap p - i)) ∧
  scopy m (Slice (sarr p) (soff p + i) (slen p - i) (scap p - i)) bs =
    mput m (sarr p) (soff p + i) bs ∧
  mget (mput m (sarr p) (soff p + i) bs) (sarr p) (soff p) (soff p + i + zlen bs) =
    mget m (sarr p) (soff p) (soff p + i) ++ bs.
Proof.
  intros. pose proof (zlen_nonneg bs). unfold slice_from, slice2. split_and!.
  - rewrite slice3_ok by lia. done.
  - unfold scopy. simpl. by rewrite ztake_ge by lia.
  - rewrite (mget_split _ _ _ (soff p + i)) by lia. f_equal.
    + unfold mget. rewrite arr_mput, decide_True by done. apply zsub_zput_before; lia.
    + apply mget_mput_same; lia.
Qed.
End stores.

(** ** Updates of a node of the buffer *)

Definition upd_sh (i : nat) (c : cell) (sh : shape) : shape :=
  Sh (dead sh) (<[i := c]> (lv sh)) (nf sh) (nw sh) (kd sh) (clean sh).

Section update.
Implicit Types (b : LinkBuffer) (h : heap) (sh : shape) (others : list loc)
  (regs : list region).

Lemma fst_insert (l : list cell) i x nd nd' :
  l !! i = Some (x, nd) → (<[i := (x, nd')]> l).*1 = l.*1.
Proof.
  intros Hi. rewrite list_fmap_insert. apply list_insert_id. by rewrite list_lookup_fmap, Hi.
Qed.

Lemma locs_upd sh i x nd nd' :
  lv sh !! i = Some (x, nd) → locs (upd_sh i (x, nd') sh) = locs sh.
Proof. intros Hi. unfold locs. simpl. by rewrite !fmap_app, (fst_insert _ _ _ nd). Qed.

Lemma lseg_insert_at ns p l q i x nd nd' :
  lseg ns p l q → NoDup l.*1 → l !! i = Some (x, nd) → next nd' = next nd →
  lseg (<[x := nd']> ns) p (<[i := (x, nd')]> l) q.
Proof.
  intros Hl Hn Hi En. rewrite insert_take_drop by (by eapply lookup_lt_Some).
  rewrite <- (take_drop_middle _ _ _ Hi) in Hl, Hn. by eapply lseg_update.
Qed.

Lemma cregs_upd_sub l i x nd nd' :
  l !! i = Some (x, nd) → sub (nregion nd') (nregion nd) →
  Forall2 sub (cregs (<[i := (x, nd')]> l)) (cregs l).
Proof.
  intros Hi Hs. unfold cregs. apply Forall2_fmap. apply Forall2_same_length_lookup.
  rewrite length_insert. split; [done|]. intros j c c' Hj Hj'.
  destruct (decide (i = j)) as [<-|].
  - rewrite list_lookup_insert_eq in Hj by (by eapply lookup_lt_Some). by simplify_eq.
  - rewrite list_lookup_insert_ne in Hj by done. simplify_eq. apply sub_refl.
Qed.

Lemma own_update_gen b h sh others regs regs' i x nd nd' :
  own b h sh others regs → lv sh !! i = Some (x, nd) →
  next nd' = next nd → origin nd' = origin nd →
  node_wf (hmem h) nd' → pos_ok sh i nd' →
  sep (cregs (<[i := (x, nd')]> (lv sh)) ++ regs') → Forall (reg_ok (hmem h)) regs' →
  own b (set_nodes (<[x := nd']> (hnodes h)) h) (upd_sh i (x, nd') sh) others regs'.
Proof.
  intros Ho Hi En Eo Hw Hp Hsep Hreg. pose proof (own_nodup _ _ _ _ _ Ho) as Hnd.
  pose proof (own_nodup_lv _ _ _ _ _ Ho) as Hnl. destruct Ho as [[Hd Hl Hf Hw' Hidx Hns Hu] W].
  pose proof (lseg_lookup _ _ _ _ _ _ _ Hl Hi) as Hx.
  assert (∀ j y md, <[i:=(x, nd')]> (lv sh) !! j = Some (y, md) →
    node_wf (hmem h) md ∧ pos_ok sh j md ∧ ∃ md', lv sh !! j = Some (y, md')) as Hns'.
  { intros j y md Hj. destruct (decide (i = j)) as [<-|].
    - rewrite list_lookup_insert_eq in Hj by (by eapply lookup_lt_Some). simplify_eq. eauto.
    - rewrite list_lookup_insert_ne in Hj by done. destruct (Hns j y md Hj). eauto. }
  split.
  - constructor; simpl; rewrite ?(fst_insert _ _ _ nd), ?length_insert by done; try done.
    + apply lseg_insert_ne; [|done]. unfold locs in Hnd. rewrite fmap_app, NoDup_app in Hnd.
      intros Hin. eapply Hnd; [exact Hin|]. apply list_elem_of_fmap. exists (x, nd).
      split; [done|]. by eapply list_elem_of_lookup_2.
    + by eapply lseg_insert_at.
    + intros j y md Hj. destruct (Hns' j y md Hj) as (?&[]&_). split; [done|]. by constructor.
    + intros j y md Hlt Hj. destruct (Hns' j y md Hj) as (_&_&md'&Hj'). by eapply (Hu j y md').
  - rewrite (locs_upd _ _ _ nd) by done. eapply world_update; [done| |done|].
    { apply (w_live_pool _ _ _ W). apply elem_of_app. left. by eapply locs_lv. }
    eapply world_regs; [exact Hsep| |exact W]. apply Forall_app. split; [|done].
    apply Forall_forall. intros r Hr. simpl in Hr. unfold cregs in Hr.
    apply list_elem_of_fmap in Hr as ([y md]&->&Hj). apply list_elem_of_lookup in Hj as [j Hj].
    apply nregion_ok. by eapply Hns'.
Qed.

Lemma own_update b h sh others regs i x nd nd' :
  own b h sh others regs → lv sh !! i = Some (x, nd) →
  next nd' = next nd → origin nd' = origin nd →
  node_wf (hmem h) nd' → pos_ok sh i nd' → sub (nregion nd') (nregion nd) →
  own b (set_nodes (<[x := nd']> (hnodes h)) h) (upd_sh i (x, nd') sh) others regs.
Proof.
  intros Ho Hi En Eo Hw Hp Hs. pose proof (proj2 Ho) as W. eapply own_update_gen; try done.
  - eapply sep_sub; [by eapply cregs_upd_sub|apply W].
  - pose proof (w_regs _ _ _ W) as Hr. by apply Forall_app in Hr as [_ ?].
Qed.
End update.

(** ** What a buffer holds *)

(** The memory of the bytes cached by Peek. *)
Definition peek_reg (b : LinkBuffer) : list region :=
  match cachePeek b with
  | Some c => [Region (sarr c) (soff c) (soff c + scap c)]
  | None => []
  end.

(** The cached bytes are a prefix of the readable ones. *)
Definition peek_ok (b : LinkBuffer) (h : heap) (R T : list byte) : Prop :=
  match cachePeek b with
  | Some c => 0 <= slen c ∧ slen c <= scap c ∧ slen c <= zlen R ∧
              sget (hmem h) c = ztake (slen c) T
  | None => True
  end.

(** [R]: readable bytes; [T]: bytes that are readable after a Flush;
    [bk]: bytes that were booked, which b.mallocSize does not count. *)
Record lb_at (b : LinkBuffer) (h : heap) (sh : shape) (others : list loc)
    (regs : list region) (R T : list byte) (bk : Z) : Prop := LbAt {
  a_own : own b h sh others (peek_reg b ++ regs);
  a_Rd : Rd (hmem h) (lv sh) = R;
  a_Tb : Tb (hmem h) (lv sh) = T;
  a_len : blength b = zlen R;
  a_malloc : mallocSize b + bk = pend (drop (nf sh) (lv sh));
  a_peek : peek_ok b h R T;
}.

(** A buffer that holds the readable bytes [R] and the allocated bytes [P];
    [r]: how it came about. *)
Definition buffer (r : kind) (bk : Z) (others : list loc) (regs : list region)
    (s : st) (R P : list byte) : Prop :=
  ∃ sh, lb_at (lb s) (hp s) sh others regs R (R ++ P) bk ∧ kd sh = r ∧ clean sh = true.

(** A buffer that will hold the bytes [T] after a Flush. *)
Definition unflushed (others : list loc) (regs : list region) (s : st) (T : list byte) : Prop :=
  ∃ sh R, lb_at (lb s) (hp s) sh others regs R T 0 ∧ ro sh = false.

Section holds.
Implicit Types (b : LinkBuffer) (h : heap) (sh : shape) (others : list loc)
  (regs : list region).

Lemma own_fields b b' h sh others regs :
  head b' = head b → read b' = read b → flush b' = flush b → write b' = write b →
  own b h sh others regs → own b' h sh others regs.
Proof.
  intros E1 E2 E3 E4 [[] W]. split; [|done]. constructor; rewrite ?E1, ?E2, ?E3, ?E4; done.
Qed.

Lemma own_sub b h sh others r r' regs :
  sub r' r → reg_ok (hmem h) r' →
  own b h sh others (r :: regs) → own b h sh others (r' :: regs).
Proof.
  intros Hs Hr. apply own_regs.
  - intros rs H. eapply sep_perm; [apply Permutation_middle|].
    eapply sep_cons_sub; [exact Hs|]. eapply sep_perm; [|exact H].
    apply Permutation_sym, Permutation_middle.
  - intros [_ ?]%Forall_cons. by constructor.
Qed.

Lemma own_new_mem b h h' sh others regs a c rt :
  own b h sh others regs → @new_mem rt h h' a c →
  world h' (locs sh ++ others) (Region a 0 c :: cregs (lv sh) ++ regs) →
  (∀ a, zlen (arr (hmem h) a) <= zlen (arr (hmem h') a)) →
  own b h' sh others (Region a 0 c :: regs).
Proof.
  intros Ho [Hns _ _ Hrf _ _] W' Hle.
  eapply own_world; [exact Ho|by rewrite Hns|done|unfold refer_of; by rewrite Hrf|].
  eapply world_perm; [done| |exact W']. apply Permutation_middle.
Qed.

(** Reading keeps the invariant of the fields of the buffer. *)
Lemma lb_at_moved b h sh others regs R P bk n b' h' sh' regs' :
  lb_at b h sh others regs R (R ++ P) bk → 0 <= n → n <= zlen R →
  kd sh' = kd sh → Rd (hmem h') (lv sh') = zdrop n (Rd (hmem h) (lv sh)) →
  Tb (hmem h') (lv sh') = zdrop n (Tb (hmem h) (lv sh)) →
  pend (drop (nf sh') (lv sh')) = pend (drop (nf sh) (lv sh)) →
  own b' h' sh' others (peek_reg b' ++ regs') →
  blength b' = blength b - n → mallocSize b' = mallocSize b →
  peek_ok b' h' (zdrop n R) (zdrop n R ++ P) →
  lb_at b' h' sh' others regs' (zdrop n R) (zdrop n R ++ P) bk.
Proof.
  intros [] ??? HR HT Hp ? Hl Hm ?. constructor; try done.
  - by rewrite HR, a_Rd0.
  - rewrite HT, a_Tb0, zdrop_app_le; done.
  - rewrite Hl, a_len0, zlen_zdrop. lia.
  - rewrite Hm, Hp. done.
Qed.

(** What follows the readable bytes does not matter to the cache. *)
Lemma peek_ok_app b h R R' T X Y :
  peek_ok b h R (T ++ X) → zlen R <= zlen R' → zlen R <= zlen T → peek_ok b h R' (T ++ Y).
Proof.
  unfold peek_ok. destruct (cachePeek b) as [c|]; [|done]. intros (?&?&?&E) ??.
  rewrite ztake_app_le in E by lia. split_and!; try lia. by rewrite ztake_app_le by lia.
Qed.

(** The cached bytes are in a window of their own. *)
Lemma peek_ok_keeps b h h' sh others regs R T :
  own b h sh others (peek_reg b ++ regs) → keeps (hmem h) (hmem h') (peek_reg b) →
  peek_ok b h R T → peek_ok b h' R T.
Proof.
  intros [_ W] [_ Hk] Hp. pose proof (w_regs _ _ _ W) as Hr.
  unfold peek_ok, peek_reg in *. destruct (cachePeek b) as [c|]; [|done].
  destruct Hp as (?&?&?&Hg). split_and!; try done. rewrite <- Hg.
  apply Forall_app in Hr as [_ Hr]. simpl in Hr. apply Forall_cons in Hr as [[Hlo _] _].
  apply Forall_cons in Hk as [Hk _]. unfold rget, sget, mget in *. simpl in *.
  rewrite <- !(ztake_zsub (slen c) (soff c) (soff c + scap c)) by lia. by rewrite Hk.
Qed.

(** A change of the memory outside of the windows of the buffer. *)
Lemma lb_at_keeps b h h' sh others regs regs' R T bk :
  lb_at b h sh others regs R T bk →
  own b h' sh others (peek_reg b ++ regs') →
  keeps (hmem h) (hmem h') (cregs (lv sh) ++ peek_reg b) →
  lb_at b h' sh others regs' R T bk.
Proof.
  intros [Hown ?????] Ho Hk. destruct (Rd_Tb_keeps (hmem h) (hmem h') (lv sh)) as [E1 E2].
  { intros i x nd Hi. destruct Hown as [Hs _]. by eapply (s_nodes _ _ _ Hs). }
  { ksub Hk. }
  constructor; try congruence. eapply peek_ok_keeps; [exact Hown| |done].
  ksub Hk.
Qed.

(** The owner of a slice that was read may store to it. *)
Lemma buffer_store r bk others regs b h R P p bs :
  buffer r bk others (sregion p :: regs) (St b h) R P → zlen bs = slen p → 0 < slen p →
  buffer r bk others (sregion p :: regs) (St b (set_mem (scopy (hmem h) p bs) h)) R P ∧
  sget (scopy (hmem h) p bs) p = bs ∧ frame others regs h (set_mem (scopy (hmem h) p bs) h).
Proof.
  intros (sh&Ha&?&?) Hl Hp. simpl in Ha. pose proof (a_own _ _ _ _ _ _ _ _ Ha) as Ho.
  assert (own b h sh others (sregion p :: peek_reg b ++ regs)) as Ho'.
  { eapply own_perm; [|exact Ho]. apply Permutation_sym, Permutation_middle. }
  assert (scopy (hmem h) p bs = mput (hmem h) (sarr p) (soff p) bs) as Es.
  { unfold scopy. by rewrite ztake_ge by lia. }
  destruct (own_mput _ _ _ _ _ _ bs (soff p) Ho') as [Ho2 Hk]; [simpl; lia..|].
  simpl in Ho2, Hk. rewrite Es. split_and!.
  - exists sh. split; [|done]. eapply lb_at_keeps; [exact Ha| |].
    + eapply own_perm; [|exact Ho2]. apply Permutation_middle.
    + simpl. ksub Hk.
  - pose proof (w_regs _ _ _ (proj2 Ho')) as Hr. apply Forall_app in Hr as [_ Hr].
    apply Forall_cons in Hr as [[??] _]. simpl in *.
    unfold sget. rewrite <- Hl. apply mget_mput_same; lia.
  - split; [done| |done]. simpl. ksub Hk.
Qed.

Lemma buffer_perm r bk others regs regs' s R P :
  regs ≡ₚ regs' → buffer r bk others regs s R P → buffer r bk others regs' s R P.
Proof.
  intros Hp (sh&[]&?&?). exists sh. split; [|done]. constructor; try done.
  eapply own_perm; [|done]. by rewrite Hp.
Qed.

(** A slice is not used any more. *)
Lemma buffer_drop r bk others x regs s R P :
  buffer r bk others (x :: regs) s R P → buffer r bk others regs s R P.
Proof.
  intros (sh&[]&?&?). exists sh. split; [|done]. constructor; try done.
  apply (own_drop _ _ _ _ x). eapply own_perm; [|done].
  apply Permutation_sym, Permutation_middle.
Qed.
End holds.
