(* ===== verification/LinkRead.v ===== *)
(** * Reading from a link buffer

    The loops of the reading methods, and what they do to the readable bytes. *)

From S2P Require Import Prelude GoMem LinkNode LinkBuffer LinkHeap LinkInv.

Open Scope Z_scope.

Section read.
Context {rt : Runtime} {rtok : RuntimeOk rt}.
Implicit Types (b : LinkBuffer) (h : heap) (sh : shape) (others : list loc)
  (regs : list region).

Lemma own_not_flush b h sh others regs x nd l k :
  own b h sh others regs → lv sh = (x, nd) :: l → nf sh = S k →
  peq (Some x) (flush b) = false.
Proof.
  intros Ho El Ek. pose proof (own_nodup_lv _ _ _ _ _ Ho) as Hn. destruct Ho as [Hs _].
  apply bool_decide_eq_false. rewrite (s_flush _ _ _ Hs), Ek, El in *. simpl in *.
  apply NoDup_cons in Hn as [Hx _]. intros E. apply Hx.
  symmetry in E. by apply list_elem_of_lookup_2 in E.
Qed.

(** What moving b.read keeps. *)
Record moved (m : mem) (sh sh' : shape) (n : Z) (m' : mem) : Prop := Moved {
  mv_kd : kd sh' = kd sh;
  mv_clean : clean sh' = clean sh;
  mv_Rd : Rd m' (lv sh') = zdrop n (Rd m (lv sh));
  mv_Tb : Tb m' (lv sh') = zdrop n (Tb m (lv sh));
  mv_pend : pend (drop (nf sh') (lv sh')) = pend (drop (nf sh) (lv sh));
}.

Lemma moved_refl m sh : moved m sh sh 0 m.
Proof. constructor; try done; by rewrite zdrop_nonpos. Qed.

Lemma moved_pop b h sh others regs x nd l k j :
  own b h sh others regs → lv sh = (x, nd) :: l → nf sh = S k → nw sh = S j →
  ∀ sh' n m', moved (hmem h) (Sh (dead sh ++ [(x, nd)]) l k j (kd sh) (clean sh)) sh' n m' →
    0 <= n →
    moved (hmem h) sh sh' (node_Len nd + n) m'.
Proof.
  intros Ho El Ek Ej sh' n m' [] ?. simpl in *.
  destruct (own_head _ _ _ _ _ _ _ _ Ho El) as (_&_&Hw&Hp).
  destruct (po_rd _ _ _ Hp) as [Hm _]; [lia|].
  assert (0 <= node_Len nd) by (destruct Hw; unfold node_Len; lia).
  constructor; try done.
  - rewrite mv_Rd0, El, Rd_cons.
    rewrite zdrop_app_ge by (rewrite zlen_rb by done; lia). f_equal. rewrite zlen_rb by done. lia.
  - rewrite mv_Tb0, El, Tb_cons, fb_flushed by done.
    rewrite zdrop_app_ge by (rewrite zlen_rb by done; lia). f_equal. rewrite zlen_rb by done. lia.
  - by rewrite mv_pend0, El, Ek.
Qed.

(** The first non-empty node. *)
Lemma wp_isSingleNode_loop fuel : ∀ b h sh others regs Q,
  own b h sh others regs → clean sh = true → 0 < zlen (Rd (hmem h) (lv sh)) →
  (length (lv sh) < fuel)%nat →
  (∀ sh' x nd l, own (set_read (Some x) b) h sh' others regs → lv sh' = (x, nd) :: l →
     moved (hmem h) sh sh' 0 (hmem h) → 0 < node_Len nd →
     Q (node_Len nd) (St (set_read (Some x) b) h)) →
  wp (isSingleNode_loop fuel) Q (St b h).
Proof.
  induction fuel as [|fuel IH]; intros b h sh others regs Q Ho Hc Hlen Hfuel HQ; [lia|].
  destruct (lv sh) as [|[x nd] l] eqn:El; [done|].
  destruct (own_head _ _ _ _ _ _ _ _ Ho El) as (Hr&Hx&Hw&Hp).
  simpl. wsteps. rewrite Hr. eapply wp_load; [exact Hx|].
  assert (0 <= node_Len nd) by (destruct Hw; unfold node_Len; lia).
  destruct (Z.eqb_spec (node_Len nd) 0) as [E|E]; simpl.
  - destruct (own_more _ _ _ _ _ _ _ _ Ho Hc El) as (k&j&Ek&Ej&_); [rewrite El; lia|].
    rewrite (own_not_flush _ _ _ _ _ _ _ _ _ Ho El Ek). simpl. wsteps.
    eapply IH; [by eapply own_pop|done| | |]; simpl.
    + rewrite Rd_cons, zlen_app, zlen_rb in Hlen by done. lia.
    + simpl in Hfuel. lia.
    + intros sh' y md l' Ho' El' Hmv ?. eapply HQ; [done..| |done].
      replace 0 with (node_Len nd + 0) by lia. by eapply moved_pop.
  - wsteps. assert (St b h = St (set_read (Some x) b) h) as ->.
    { destruct b. simpl in *. by rewrite Hr. }
    eapply (HQ sh); [|done|apply moved_refl|lia].
    destruct b. simpl in *. by subst.
Qed.

Lemma wp_isSingleNode n b h sh others regs Q :
  own b h sh others regs → clean sh = true → 0 < n → n <= zlen (Rd (hmem h) (lv sh)) →
  (∀ sh' x nd l, own (set_read (Some x) b) h sh' others regs → lv sh' = (x, nd) :: l →
     moved (hmem h) sh sh' 0 (hmem h) → 0 < node_Len nd →
     Q (n <=? node_Len nd) (St (set_read (Some x) b) h)) →
  wp (isSingleNode n) Q (St b h).
Proof.
  intros Ho Hc Hn Hle HQ. unfold isSingleNode. destruct (Z.leb_spec n 0); [lia|].
  wsteps. eapply wp_isSingleNode_loop; [done..|lia|by eapply own_fuel|].
  intros. apply wp_ret. by eapply HQ.
Qed.

Lemma moved_trans m1 sh1 n1 m2 sh2 n2 m3 sh3 :
  moved m1 sh1 sh2 n1 m2 → moved m2 sh2 sh3 n2 m3 → 0 <= n1 → 0 <= n2 →
  moved m1 sh1 sh3 (n1 + n2) m3.
Proof.
  intros [] [] ??. constructor; try congruence.
  - by rewrite mv_Rd1, mv_Rd0, zdrop_zdrop.
  - by rewrite mv_Tb1, mv_Tb0, zdrop_zdrop.
Qed.

(** [n] bytes of the first node are read. *)
Definition advance_sh sh x nd l n : shape :=
  Sh (dead sh) ((x, set_off (off nd + n) nd) :: l) (nf sh) (nw sh) (kd sh) (clean sh).

Lemma moved_advance m sh x nd l n :
  node_wf m nd → lv sh = (x, nd) :: l → 0 <= n → n <= node_Len nd →
  moved m sh (advance_sh sh x nd l n) n m.
Proof.
  intros Hw El ??.
  destruct (rb_set_off _ _ n Hw) as (Hrb&Hfb&_); [done..|].
  constructor; simpl; try done.
  - rewrite El, !Rd_cons, Hrb, zdrop_app_le; [done|]. by rewrite zlen_rb.
  - rewrite El, !Tb_cons, Hfb, zdrop_app_le; [done|]. rewrite zlen_fb by done.
    unfold node_Len in *. lia.
  - rewrite El. destruct (nf sh); done.
Qed.

Lemma moved_keeps b h sh0 sh n m others regs m' :
  own b h sh others regs → moved m sh0 sh n (hmem h) → keeps (hmem h) m' (cregs (lv sh)) →
  moved m sh0 sh n m'.
Proof.
  intros [Hs _] [] Hk. destruct (Rd_Tb_keeps (hmem h) m' (lv sh)) as [E1 E2]; [|done|].
  { intros i x nd Hi. by eapply (s_nodes _ _ _ Hs). }
  constructor; congruence.
Qed.

(** The bytes [node_Next] returns. *)
Lemma sget_next m nd n : node_wf m nd → 0 <= n → n <= node_Len nd →
  sget m (Slice (sarr (buf nd)) (soff (buf nd) + off nd) n n) = ztake n (rb m nd) ∧
  zlen (ztake n (rb m nd)) = n.
Proof.
  intros Hw ??. split; [|rewrite zlen_ztake, zlen_rb by done; lia].
  unfold node_Len in *. destruct Hw. unfold sget, rb, mget. simpl.
  by rewrite ztake_zsub by lia.
Qed.

(** Slices into which bytes are copied. *)
Definition window_ok (p : slice) : Prop := 0 <= slen p ∧ slen p <= scap p.

Lemma own_window b h sh others p regs :
  own b h sh others (sregion p :: regs) →
  0 <= soff p ∧ soff p + slen p <= zlen (arr (hmem h) (sarr p)).
Proof.
  intros [_ W]. pose proof (w_regs _ _ _ W) as Hr. apply Forall_app in Hr as [_ Hr].
  by apply Forall_cons in Hr as [? _].
Qed.

(** Copy [n] bytes of the first node to position [i] of [p]. *)
Lemma wp_copy_chunk b h sh others regs x nd l p i n Q :
  own b h sh others (sregion p :: regs) → lv sh = (x, nd) :: l →
  window_ok p → 0 < n → n <= node_Len nd → 0 <= i → i + n <= slen p →
  (∀ h', own b h' (advance_sh sh x nd l n) others (sregion p :: regs) →
     moved (hmem h) sh (advance_sh sh x nd l n) n (hmem h') →
     keeps (hmem h) (hmem h') (cregs l ++ regs) →
     frame others regs h h' → hnodes h' !! x = Some (set_off (off nd + n) nd) →
     mget (hmem h') (sarr p) (soff p) (soff p + i + n) =
       mget (hmem h) (sarr p) (soff p) (soff p + i) ++ ztake n (rb (hmem h) nd) →
     Q (i + n) (St b h')) →
  wp (src ← H (node_Next (Some x) n);
      bs ← H (read_slice src);
      dst ← some (slice_from p i);
      j ← H (copy_in dst bs);
      mret (i + j)) Q (St b h).
Proof.
  intros Ho El [??] ???? HQ. destruct (own_head _ _ _ _ _ _ _ _ Ho El) as (_&Hx&Hw&_).
  destruct (own_window _ _ _ _ _ _ Ho) as [??].
  destruct (sget_next _ _ n Hw) as [Hsg Hzl]; [lia|done|].
  wsteps. eapply wp_node_Next; [exact Hx|apply Hw|lia| |].
  { destruct Hw. unfold node_Len in *. lia. }
  wsteps. change (hmem (set_nodes _ h)) with (hmem h). rewrite Hsg. set (bs := ztake n (rb (hmem h) nd)) in *.
  destruct (copy_window (hmem h) p i bs) as (Hf&Hc&Hg); [lia..|].
  eapply wp_some; [exact Hf|]. wsteps. simpl. rewrite Hc, Hzl, Z.min_r by lia.
  pose proof (own_advance _ _ _ _ _ _ _ _ n Ho El) as Ho1.
  specialize (Ho1 ltac:(lia) ltac:(lia)). apply own_drop in Ho1.
  destruct (own_mput _ _ _ _ _ _ bs (soff p + i) Ho1) as [Ho2 Hk]; simpl; [lia..|].
  simpl in Ho2, Hk.
  apply HQ; simpl.
  - exact Ho2.
  - pose proof (moved_advance _ _ _ _ _ n Hw El ltac:(lia) ltac:(lia)) as Hmv.
    eapply moved_keeps; [exact Ho1|exact Hmv|].
    ksub Hk.
  - eapply keeps_sublist; [|exact Hk]. simpl. set_solver.
  - eapply frame_trans; [eapply own_frame_node; [by eapply own_drop|by eapply locs_head]|].
    apply frame_mem; [done|]. simpl. ksub Hk.
  - by rewrite lookup_insert_eq.
  - rewrite <- Hzl at 1. done.
Qed.

Lemma wp_read_nodes fuel : ∀ b h sh others regs p i n Q,
  own b h sh others (sregion p :: regs) → clean sh = true → window_ok p →
  0 <= n → n <= zlen (Rd (hmem h) (lv sh)) → 0 <= i → i + n <= slen p →
  (length (lv sh) < fuel)%nat →
  (∀ r y h' sh', own (set_read y b) h' sh' others (sregion p :: regs) →
     moved (hmem h) sh sh' n (hmem h') → frame others regs h h' →
     mget (hmem h') (sarr p) (soff p) (soff p + i + n) =
       mget (hmem h) (sarr p) (soff p) (soff p + i) ++ ztake n (Rd (hmem h) (lv sh)) →
     Q r (St (set_read y b) h')) →
  wp (read_nodes fuel p i n) Q (St b h).
Proof.
  induction fuel as [|fuel IH]; intros b h sh others regs p i n Q Ho Hc Hp Hn0 Hn Hi Hin Hf HQ;
    [lia|].
  assert (∀ b, set_read (read b) b = b) as Hset by (by intros []).
  simpl. destruct (Z.leb_spec n 0).
  { wsteps. rewrite <- (Hset b). assert (n = 0) as -> by lia. eapply HQ.
    - by rewrite Hset.
    - apply moved_refl.
    - apply frame_refl.
    - by rewrite Z.add_0_r, ztake_nonpos, app_nil_r by lia. }
  destruct (lv sh) as [|[x nd] l] eqn:El.
  { change (Rd (hmem h) []) with (@nil byte) in Hn. rewrite zlen_nil in Hn. lia. }
  destruct (own_head _ _ _ _ _ _ _ _ Ho El) as (Hr&Hx&Hw&_).
  assert (0 <= node_Len nd) by (destruct Hw; unfold node_Len; lia).
  wsteps. rewrite Hr. eapply wp_load; [exact Hx|]. destruct (Z.leb_spec n (node_Len nd)).
  - eapply wp_copy_chunk; [done..|].
    intros h' Ho' Hmv _ Hfr _ Hg. rewrite <- (Hset b). eapply HQ; [by rewrite Hset|done|done|].
    rewrite Hg, Rd_cons, ztake_app_le; [done|]. by rewrite zlen_rb.
  - destruct (own_more _ _ _ _ _ _ _ _ Ho Hc El) as (k&j&Ek&Ej&_); [rewrite El; lia|].
    rewrite Rd_cons, zlen_app, zlen_rb in Hn by done.
    destruct (Z.ltb_spec 0 (node_Len nd)).
    + apply wp_bind. eapply wp_copy_chunk; [done..|lia|].
      intros h' Ho' Hmv Hk Hfr Hx' Hg. wsteps. eapply wp_next_of; [exact Hx'|]. wsteps.
      pose proof (own_pop _ _ _ _ _ _ _ _ k j Ho' eq_refl Ek Ej) as Hpop.
      assert (Rd (hmem h') l = Rd (hmem h) l) as HRl.
      { apply Rd_Tb_keeps; [|by eapply keeps_sublist; [|exact Hk]; set_solver].
        intros q y md Hq. destruct Ho as [Hs _]. eapply (s_nodes _ _ _ Hs (S q)). by rewrite El. }
      eapply (IH _ _ _ others regs); [exact Hpop|done|done|lia| |lia|lia| |]; simpl.
      { rewrite HRl. lia. }
      { simpl in Hf. lia. }
      intros r y h2 sh2 Ho2 Hmv2 Hk2 Hg2. eapply HQ; [exact Ho2| | |].
      * pose proof (moved_pop _ _ _ _ _ _ _ _ _ _ Ho' eq_refl Ek Ej _ _ _ Hmv2) as Hmv3.
        assert (node_Len (set_off (off nd + node_Len nd) nd) = 0) as Hz
          by (unfold node_Len; simpl; lia).
        rewrite Hz in Hmv3. specialize (Hmv3 ltac:(lia)).
        pose proof (moved_trans _ _ _ _ _ _ _ _ Hmv Hmv3 ltac:(lia) ltac:(lia)) as Hmv4.
        by replace (node_Len nd + (0 + (n - node_Len nd))) with n in Hmv4 by lia.
      * by eapply frame_trans.
      * replace (soff p + i + n) with (soff p + (i + node_Len nd) + (n - node_Len nd)) by lia.
        simpl in Hg2. rewrite Hg2, HRl, Z.add_assoc, Hg, <- app_assoc. f_equal.
        rewrite Rd_cons, (ztake_ge (node_Len nd)) by (by rewrite zlen_rb).
        rewrite ztake_app_ge by (rewrite zlen_rb by done; lia).
        by rewrite zlen_rb by done.
    + assert (node_Len nd = 0) as E0 by lia.
      wsteps. eapply wp_next_of; [exact Hx|]. wsteps.
      eapply (IH _ _ _ others regs); [by eapply own_pop|done|done|lia| |lia|lia| |]; simpl.
      { lia. }
      { simpl in Hf. lia. }
      intros r y h2 sh2 Ho2 Hmv2 Hk2 Hg2. eapply HQ; [exact Ho2| |done|].
      * replace n with (node_Len nd + (n - node_Len nd)) by lia.
        eapply moved_pop; [done..|lia].
      * simpl in Hg2. rewrite E0, Z.sub_0_r in Hg2. rewrite Hg2, Rd_cons.
        rewrite (rb_nil _ nd); [done|]. unfold node_Len in E0. lia.
Qed.

(** ** recalLen *)

(** The bytes cached by Peek are dropped. *)
Definition reset_peek (b : LinkBuffer) : LinkBuffer :=
  set_cachePeek ((λ c, Slice (sarr c) (soff c) 0 (scap c)) <$> cachePeek b) b.

Lemma peek_reg_reset b : peek_reg (reset_peek b) = peek_reg b.
Proof. unfold peek_reg, reset_peek. by destruct (cachePeek b). Qed.

Lemma wp_recalLen_neg delta b h R T (Q : Z → st → Prop) :
  peek_ok b h R T → delta < 0 →
  Q (blength b + delta) (St (set_length (blength b + delta) (reset_peek b)) h) →
  wp (recalLen delta) Q (St b h).
Proof.
  intros Hp Hd HQ. unfold recalLen. wsteps. unfold peek_ok in Hp. unfold reset_peek in HQ.
  destruct (cachePeek b) as [c|] eqn:Ec; simpl in HQ.
  - destruct Hp as (?&?&_). destruct (Z.ltb_spec delta 0); [|lia].
    destruct (Z.ltb_spec 0 (slen c)); simpl.
    + wsteps. eapply wp_some; [apply slice3_ok; lia|]. wsteps.
      rewrite Z.add_0_r, !Z.sub_0_r. exact HQ.
    + wsteps. assert (slen c = 0) as E by lia.
      assert (b = set_cachePeek (Some (Slice (sarr c) (soff c) 0 (scap c))) b) as ->; [|done].
      destruct b, c. simpl in *. by subst.
  - wsteps. destruct b. simpl in *. by subst.
Qed.

Lemma wp_recalLen_nonneg delta b h (Q : Z → st → Prop) :
  0 <= delta → Q (blength b + delta) (St (set_length (blength b + delta) b) h) →
  wp (recalLen delta) Q (St b h).
Proof.
  intros Hd HQ. unfold recalLen. wsteps. destruct (Z.ltb_spec delta 0); [lia|].
  destruct (cachePeek b); simpl; by wsteps.
Qed.

(** ** Next *)

Lemma own_slices b h sh others p regs :
  own b h sh others (sregion p :: peek_reg b ++ regs) →
  own b h sh others (peek_reg b ++ sregion p :: regs).
Proof. apply own_perm, Permutation_middle. Qed.

(** The fresh slice of [n] bytes into which Next and readBinary copy. *)
Definition fresh_slice (p : slice) (n : Z) (b b' : LinkBuffer) (h h' : heap)
    (sh : shape) (others : list loc) (regs : list region) : Prop :=
  own b' h' sh others (sregion p :: regs) ∧ same_nodes h h' ∧
  keeps (hmem h) (hmem h') (cregs (lv sh) ++ regs) ∧
  soff p = 0 ∧ slen p = n ∧ window_ok p.

Lemma own_fresh b h h' sh others regs a n c :
  own b h sh others regs → new_mem h h' a c → 0 <= n → n <= c →
  world h' (locs sh ++ others) (Region a 0 c :: cregs (lv sh) ++ regs) →
  keeps (hmem h) (hmem h') (cregs (lv sh) ++ regs) →
  fresh_slice (Slice a 0 n c) n b b h h' sh others regs.
Proof.
  intros Ho Hnm ?? W Hk. pose proof (k_le _ _ _ Hk) as Hle.
  pose proof (own_new_mem _ _ _ _ _ _ _ _ _ Ho Hnm W Hle) as Ho'.
  split_and!; [|by destruct Hnm|done..|].
  - eapply own_sub; [| |exact Ho'].
    + right. simpl. split; [done|lia].
    + pose proof (w_regs _ _ _ W) as Hr. apply Forall_cons in Hr as [[??] _].
      unfold reg_ok. simpl in *. lia.
  - split; simpl; lia.
Qed.

Lemma wp_alloc_slice n b h sh others regs (Q : slice → st → Prop) :
  own b h sh others regs → 0 < n →
  (∀ p b' h', fresh_slice p n b b' h h' sh others regs →
     (b' = b ∨ b' = set_caches (caches b ++ [p]) b) → Q p (St b' h')) →
  wp (if (block1k <? n) && (n <=? mallocMax) then
        p ← H (malloc n n);
        b ← getb;
        _ ← setb (set_caches (caches b ++ [p]));
        mret p
      else H (dirtmake_Bytes n n)) Q (St b h).
Proof.
  intros Ho Hn HQ. destruct (_ && _).
  - wsteps. eapply wp_malloc; [|apply Ho|]; [lia|]. intros h' a c Hnm Hc W Hk. wsteps.
    eapply HQ; [|by right].
    destruct (own_fresh _ _ _ _ _ _ _ n c Ho Hnm ltac:(lia) Hc W Hk) as (?&?).
    split; [|done]. by apply (own_fields b).
  - wsteps. eapply wp_dirtmake_Bytes; [|apply Ho|]; [lia|]. intros h' a Hnm W Hk.
    eapply HQ; [|by left]. eapply own_fresh; done || lia.
Qed.

(** ** Reads in progress *)

Lemma buffer_len r bk others regs b h R P :
  buffer r bk others regs (St b h) R P → blength b = zlen R.
Proof. intros (sh&[]&_). done. Qed.

(** [n] bytes were taken off b.length and are not read yet. *)
Record cut (n : Z) (r : kind) (bk : Z) others regs b h sh (R P : list byte) : Prop := Cut {
  c_own : own b h sh others (peek_reg b ++ regs);
  c_Rd : Rd (hmem h) (lv sh) = R;
  c_Tb : Tb (hmem h) (lv sh) = R ++ P;
  c_len : blength b = zlen R - n;
  c_malloc : mallocSize b + bk = pend (drop (nf sh) (lv sh));
  c_peek : ∀ c, cachePeek b = Some c → slen c = 0 ∧ 0 <= scap c;
  c_kd : kd sh = r;
  c_clean : clean sh = true;
}.

Lemma cut_buffer r bk others regs b h sh R P :
  cut 0 r bk others regs b h sh R P → buffer r bk others regs (St b h) R P.
Proof.
  intros []. exists sh. split; [|done]. constructor; try done; [simpl; lia|].
  unfold peek_ok. simpl. destruct (cachePeek b) as [c|]; [|done].
  destruct (c_peek0 c eq_refl) as [E ?]. pose proof (zlen_nonneg R). split_and!; try lia.
  unfold sget, mget. by rewrite zsub_empty, ztake_nonpos by lia.
Qed.

Lemma cut_moved n k r bk others others' regs regs' b h sh R P b' h' sh' :
  cut n r bk others regs b h sh R P → 0 <= k → k <= zlen R →
  moved (hmem h) sh sh' k (hmem h') → own b' h' sh' others' (peek_reg b' ++ regs') →
  blength b' = blength b → mallocSize b' = mallocSize b → cachePeek b' = cachePeek b →
  cut (n - k) r bk others' regs' b' h' sh' (zdrop k R) P.
Proof.
  intros [] ?? [] ? Hl Hm Hc. constructor; try congruence.
  - rewrite mv_Tb0, c_Tb0, zdrop_app_le by done. done.
  - rewrite zlen_zdrop. lia.
  - by rewrite Hc.
Qed.

(** recalLen takes the bytes off b.length. *)
Lemma wp_start_read n r bk others regs b h R P (Q : Z → st → Prop) :
  buffer r bk others regs (St b h) R P → 0 < n →
  (∀ i b' sh, cut n r bk others regs b' h sh R P → Q i (St b' h)) →
  wp (recalLen (- n)) Q (St b h).
Proof.
  intros (sh&[]&?&?) Hn HQ. cbn [lb hp] in *. eapply wp_recalLen_neg; [done|lia|].
  eapply HQ. constructor; try done.
  - change (peek_reg (set_length _ ?b)) with (peek_reg b). rewrite peek_reg_reset.
    by apply (own_fields b).
  - simpl. lia.
  - intros c Hc. revert a_peek Hc. unfold peek_ok. simpl.
    destruct (cachePeek b); [|done]. intros ? [= <-]. simpl. lia.
Qed.

(** isSingleNode leaves b.read at a node that is not empty. *)
Lemma wp_cut_single n r bk others regs b h sh R P (Q : bool → st → Prop) :
  cut n r bk others regs b h sh R P → 0 < n → n <= zlen R →
  (∀ b' sh' x nd l, cut n r bk others regs b' h sh' R P → lv sh' = (x, nd) :: l →
     read b' = Some x → 0 < node_Len nd → Q (n <=? node_Len nd) (St b' h)) →
  wp (isSingleNode n) Q (St b h).
Proof.
  intros Hc Hn HnR HQ. eapply wp_isSingleNode; [apply Hc|apply Hc|done| |].
  { by rewrite (c_Rd _ _ _ _ _ _ _ _ _ _ Hc). }
  intros sh' x nd l Ho El Hmv Hnd. eapply HQ; [|done..].
  pose proof (zlen_nonneg R).
  pose proof (cut_moved n 0 _ _ _ _ _ regs _ _ _ _ _ _ _ _ Hc ltac:(lia) ltac:(lia) Hmv Ho) as Hc'.
  rewrite zdrop_nonpos, Z.sub_0_r in Hc' by lia. by apply Hc'.
Qed.

(** The bytes are in one node. *)
Lemma wp_cut_next n r bk others regs b h sh R P x nd l (Q : slice → heap → Prop) :
  cut n r bk others regs b h sh R P → lv sh = (x, nd) :: l →
  read b = Some x → 0 < n → n <= node_Len nd →
  (∀ p h', buffer r bk others (sregion p :: regs) (St b h') (zdrop n R) P →
     sget (hmem h') p = ztake n R → slen p = n → frame others regs h h' → Q p h') →
  wp (node_Next (Some x) n) Q h.
Proof.
  intros Hc El Hr Hn Hle HQ. pose proof (c_own _ _ _ _ _ _ _ _ _ _ Hc) as Ho.
  destruct (own_head _ _ _ _ _ _ _ _ Ho El) as (_&Hx&Hw&_).
  pose proof (c_Rd _ _ _ _ _ _ _ _ _ _ Hc) as ER. rewrite El, Rd_cons in ER.
  assert (zlen (rb (hmem h) nd) = node_Len nd) as Ezl by (by rewrite zlen_rb).
  eapply wp_node_Next; [exact Hx|apply Hw|lia|destruct Hw; unfold node_Len in *; lia|].
  apply HQ.
  - eapply cut_buffer. replace 0 with (n - n) by lia.
    eapply cut_moved; [exact Hc|lia| | | |done..].
    + rewrite <- ER, zlen_app. pose proof (zlen_nonneg (Rd (hmem h) l)). lia.
    + exact (moved_advance _ _ _ _ _ n Hw El ltac:(lia) Hle).
    + apply own_slices. eapply own_advance; [exact Ho|done|lia|done].
  - simpl. destruct (sget_next _ _ n Hw) as [-> _]; [lia|done|].
    by rewrite <- ER, ztake_app_le by lia.
  - done.
  - eapply frame_sub; [done| |eapply own_frame_node; [exact Ho|by eapply locs_head]]. set_solver.
Qed.

(** The bytes are copied to a fresh slice. *)
Lemma wp_cut_copy n r bk others regs b h sh R P p b' h' (Q : Z → st → Prop) :
  cut n r bk others regs b h sh R P → 0 < n → n <= zlen R →
  fresh_slice p n b b' h h' sh others (peek_reg b ++ regs) →
  (b' = b ∨ b' = set_caches (caches b ++ [p]) b) →
  (∀ i s', buffer r bk others (sregion p :: regs) s' (zdrop n R) P →
     sget (hmem (hp s')) p = ztake n R → slen p = n → frame others regs h (hp s') → Q i s') →
  wp (read_nodes (nfuel h') p 0 n) Q (St b' h').
Proof.
  intros Hc Hn HnR (Ho&Hns&Hk&Hso&Hsl&Hwin) Hb HQ.
  assert (keeps (hmem h) (hmem h') (cregs (lv sh))) as Hk1.
  { ksub Hk. }
  pose proof (moved_keeps _ _ _ _ _ _ _ _ _ (c_own _ _ _ _ _ _ _ _ _ _ Hc) (moved_refl _ _) Hk1) as Hmv.
  assert (Rd (hmem h') (lv sh) = R) as ER.
  { rewrite (mv_Rd _ _ _ _ _ Hmv), zdrop_nonpos by lia. apply Hc. }
  eapply wp_read_nodes; [exact Ho|apply Hc|done|lia|by rewrite ER|lia|lia|by eapply own_fuel|].
  intros i y h3 sh3 Ho3 Hmv3 Hfr Hg.
  assert (peek_reg (set_read y b') = peek_reg b) as Epr.
  { unfold peek_reg. by destruct Hb as [-> | ->]. }
  apply HQ; [|simpl|done|].
  - eapply cut_buffer. replace 0 with (n - n) by lia.
    eapply cut_moved; [exact Hc|lia|done| | | by destruct Hb as [-> | ->]..].
    + exact (moved_trans _ _ 0 _ _ n _ _ Hmv Hmv3 ltac:(lia) ltac:(lia)).
    + apply own_slices. by rewrite Epr.
  - unfold sget. rewrite Hso, Hsl, ER in *. rewrite Z.add_0_r in Hg. exact Hg.
  - eapply frame_trans; [|fsub Hfr].
    apply frame_mem; [done|]. ksub Hk.
Qed.

Lemma wp_Next r bk others regs b h R P n (Q : slice * option lberr → st → Prop) :
  buffer r bk others regs (St b h) R P → 0 < n → n <= zlen R →
  (∀ p s', buffer r bk others (sregion p :: regs) s' (zdrop n R) P →
     sget (hmem (hp s')) p = ztake n R → slen p = n → frame others regs h (hp s') →
     Q (p, None) s') →
  wp (Next n) Q (St b h).
Proof.
  intros Hb Hn HnR HQ. pose proof (buffer_len _ _ _ _ _ _ _ _ Hb) as El.
  unfold Next. destruct (Z.leb_spec n 0); [lia|]. wsteps. unfold Len. rewrite El.
  destruct (Z.ltb_spec (zlen R) n); [lia|]. wsteps.
  eapply wp_start_read; [done..|]. intros _ b1 sh1 Hc1. wsteps.
  eapply wp_cut_single; [done..|]. intros b2 sh2 x nd l Hc2 El2 Hr2 Hnd.
  destruct (Z.leb_spec n (node_Len nd)); wsteps.
  - rewrite Hr2. eapply wp_cut_next; [done..|]. intros. wsteps. by apply HQ.
  - eapply wp_alloc_slice; [apply Hc2|done|]. intros p b3 h3 Hf Hb3. wsteps.
    eapply wp_cut_copy; [done..|]. intros. wsteps. by apply HQ.
Qed.

(** ** Skip *)

(** [b.read.off += n] *)
Lemma wp_skip_head b h sh others regs x nd l n (Q : unit → heap → Prop) :
  own b h sh others regs → lv sh = (x, nd) :: l → 0 <= n → n <= node_Len nd →
  (∀ h', own b h' (advance_sh sh x nd l n) others regs →
     moved (hmem h) sh (advance_sh sh x nd l n) n (hmem h') → frame others regs h h' →
     Q tt h') →
  wp (update (Some x) (set_off (off nd + n))) Q h.
Proof.
  intros Ho El ?? HQ. destruct (own_head _ _ _ _ _ _ _ _ Ho El) as (_&Hx&Hw&_).
  eapply wp_update; [exact Hx|]. apply HQ.
  - eapply own_drop, own_advance; done.
  - by eapply (moved_advance (hmem h)).
  - eapply own_frame_node; [done|by eapply locs_head].
Qed.

Lemma wp_skip_loop fuel : ∀ b h sh others regs n (Q : unit → st → Prop),
  own b h sh others regs → clean sh = true →
  0 <= n → n <= zlen (Rd (hmem h) (lv sh)) → (length (lv sh) < fuel)%nat →
  (∀ y h' sh', own (set_read y b) h' sh' others regs →
     moved (hmem h) sh sh' n (hmem h') → frame others regs h h' →
     Q tt (St (set_read y b) h')) →
  wp (skip_loop fuel n) Q (St b h).
Proof.
  induction fuel as [|fuel IH]; intros b h sh others regs n Q Ho Hc Hn0 Hn Hf HQ; [lia|].
  assert (set_read (read b) b = b) as Hset by (by destruct b).
  simpl. destruct (Z.leb_spec n 0).
  { wsteps. rewrite <- Hset. assert (n = 0) as -> by lia.
    eapply HQ; [by rewrite Hset|apply moved_refl|apply frame_refl]. }
  destruct (lv sh) as [|[x nd] l] eqn:El.
  { change (Rd (hmem h) []) with (@nil byte) in Hn. rewrite zlen_nil in Hn. lia. }
  destruct (own_head _ _ _ _ _ _ _ _ Ho El) as (Hr&Hx&Hw&_).
  assert (0 <= node_Len nd) by (destruct Hw; unfold node_Len; lia).
  wsteps. rewrite Hr. eapply wp_load; [exact Hx|]. destruct (Z.leb_spec n (node_Len nd)).
  - wsteps. eapply wp_skip_head; [done..|]. intros h' Ho' Hmv Hfr.
    rewrite <- Hset. eapply HQ; [by rewrite Hset|done..].
  - destruct (own_more _ _ _ _ _ _ _ _ Ho Hc El) as (k&j&Ek&Ej&_); [rewrite El; lia|].
    rewrite Rd_cons, zlen_app, zlen_rb in Hn by done. wsteps.
    eapply IH; [by eapply own_pop|done|lia|simpl; lia|simpl in *; lia|].
    intros y h' sh' Ho' Hmv' Hfr'. eapply (HQ y); [done| |done].
    replace n with (node_Len nd + (n - node_Len nd)) by lia.
    eapply moved_pop; done || lia.
Qed.

Lemma wp_Skip r bk others regs b h R P n (Q : option lberr → st → Prop) :
  buffer r bk others regs (St b h) R P → 0 < n → n <= zlen R →
  (∀ s', buffer r bk others regs s' (zdrop n R) P → frame others regs h (hp s') → Q None s') →
  wp (Skip n) Q (St b h).
Proof.
  intros Hb Hn HnR HQ. pose proof (buffer_len _ _ _ _ _ _ _ _ Hb) as El.
  unfold Skip. destruct (Z.leb_spec n 0); [lia|]. wsteps. unfold Len. rewrite El.
  destruct (Z.ltb_spec (zlen R) n); [lia|]. wsteps.
  eapply wp_start_read; [done..|]. intros _ b1 sh1 Hc1. wsteps.
  pose proof (c_own _ _ _ _ _ _ _ _ _ _ Hc1) as Ho.
  eapply wp_skip_loop; [exact Ho|apply Hc1|lia| |by eapply own_fuel|].
  { by rewrite (c_Rd _ _ _ _ _ _ _ _ _ _ Hc1). }
  intros y h' sh' Ho' Hmv Hfr. wsteps. apply HQ.
  - eapply cut_buffer. replace 0 with (n - n) by lia. eapply cut_moved; done || lia.
  - fsub Hfr.
Qed.

(** ** ReadBinary and ReadString *)

Lemma getMode_nocopy nd :
  getMode (setMode nocopyReadMask true nd) readonlyMask = getMode nd readonlyMask.
Proof.
  unfold getMode, setMode. simpl. rewrite Z.land_lor_distr_l.
  change (Z.land nocopyReadMask readonlyMask) with 0. by rewrite Z.lor_0_r.
Qed.

(** Marking the first node changes none of its bytes. *)
Lemma cut_nocopy n r bk others regs b h sh R P x nd l :
  cut n r bk others regs b h sh R P → lv sh = (x, nd) :: l →
  let nd' := setMode nocopyReadMask true nd in
  let h' := set_nodes (<[x := nd']> (hnodes h)) h in
  let sh' := Sh (dead sh) ((x, nd') :: l) (nf sh) (nw sh) (kd sh) (clean sh) in
  cut n r bk others regs b h' sh' R P ∧ frame others regs h h'.
Proof.
  intros Hc El nd' h' sh'. pose proof (c_own _ _ _ _ _ _ _ _ _ _ Hc) as Ho.
  destruct (own_head _ _ _ _ _ _ _ _ Ho El) as (_&Hx&[]&[]).
  assert (sh' = upd_sh 0 (x, nd') sh) as Esh by (unfold sh', upd_sh; by rewrite El).
  split.
  - destruct Hc as [_ HR HT ??? ?]. constructor; try done.
    + rewrite Esh. eapply own_update; [exact Ho|by rewrite El|done..| | |]; [by constructor| |].
      { constructor; try done. unfold nd'. by rewrite getMode_nocopy. }
      right. unfold nregion, node_top, nd'. rewrite getMode_nocopy. simpl. lia.
    + rewrite <- HR, El. done.
    + rewrite <- HT, El. done.
    + rewrite c_malloc0, El. simpl. by destruct (nf sh).
  - eapply frame_sub; [done| |eapply own_frame_node; [exact Ho|by eapply locs_head]]. set_solver.
Qed.

(** A fresh slice next to a read in progress. *)
Lemma wp_cut_alloc n r bk others regs b h sh R P k (Q : slice → heap → Prop) :
  cut n r bk others regs b h sh R P → 0 < k →
  (∀ p h', fresh_slice p k b b h h' sh others (peek_reg b ++ regs) →
     cut n r bk others (sregion p :: regs) b h' sh R P → frame others regs h h' → Q p h') →
  wp (dirtmake_Bytes k k) Q h.
Proof.
  intros Hc Hk HQ. pose proof (c_own _ _ _ _ _ _ _ _ _ _ Hc) as Ho.
  eapply wp_dirtmake_Bytes; [|apply Ho|]; [lia|]. intros h' a Hnm W Hks.
  assert (fresh_slice (Slice a 0 k k) k b b h h' sh others (peek_reg b ++ regs)) as Hf.
  { apply own_fresh; done || lia. }
  apply HQ; [done| |].
  - destruct Hf as (Ho'&_&_&_). pose proof (zlen_nonneg R).
    rewrite <- (zdrop_nonpos 0 R) by lia. rewrite <- (Z.sub_0_r n).
    eapply cut_moved; [done|lia|lia| | |done..].
    + eapply moved_keeps; [exact Ho|apply moved_refl|].
      ksub Hks.
    + by apply own_slices.
  - apply frame_mem; [by destruct Hnm|].
    ksub Hks.
Qed.

Definition read_post r bk others regs h (R P : list byte) n (Q : slice → st → Prop) : Prop :=
  ∀ p s', buffer r bk others (sregion p :: regs) s' (zdrop n R) P →
    sget (hmem (hp s')) p = ztake n R → slen p = n → frame others regs h (hp s') → Q p s'.

Lemma read_post_frame r bk others regs h h' R P n Q :
  frame others regs h h' → read_post r bk others regs h R P n Q →
  read_post r bk others regs h' R P n Q.
Proof. intros ? HQ p s' ????. apply HQ; [done..|]. by eapply frame_trans. Qed.

(** Copying the bytes of one node. *)
Lemma wp_cut_copy_next n r bk others regs b h sh R P x nd l (Q : slice → st → Prop) :
  cut n r bk others regs b h sh R P → lv sh = (x, nd) :: l →
  read b = Some x → 0 < n → n <= node_Len nd →
  read_post r bk others regs h R P n Q →
  wp (p ← H (dirtmake_Bytes n n);
      src ← H (node_Next (Some x) n);
      bs ← H (read_slice src);
      _ ← H (copy_in p bs);
      mret p) Q (St b h).
Proof.
  intros Hc El Hr Hn Hle HQ. wsteps. eapply wp_cut_alloc; [done..|].
  intros p h1 Hf Hc1 Hfr1. wsteps. eapply wp_cut_next; [done..|].
  intros q h2 Hb2 Hg2 Hq2 Hfr2. wsteps. rewrite Hg2.
  destruct Hf as (_&_&_&_&Hl&_).
  assert (zlen (ztake n R) = slen p) as El2.
  { pose proof (own_Rd_cons _ _ _ _ _ _ _ _ (c_own _ _ _ _ _ _ _ _ _ _ Hc) El) as E.
    rewrite (c_Rd _ _ _ _ _ _ _ _ _ _ Hc) in E. zl. }
  assert (buffer r bk others (sregion p :: regs) (St b h2) (zdrop n R) P) as Hb3.
  { by eapply buffer_drop. }
  destruct (buffer_store _ _ _ _ _ _ _ _ _ _ Hb3 El2) as (Hb4&Hg4&Hfr4); [lia|].
  apply HQ; [done..|]. simpl. eapply frame_trans; [exact Hfr1|].
  eapply frame_trans; [|exact Hfr4]. fsub Hfr2.
Qed.

Lemma wp_readBinary r bk others regs b h R P n (Q : slice → st → Prop) :
  buffer r bk others regs (St b h) R P → 0 < n → n <= zlen R →
  read_post r bk others regs h R P n Q →
  wp (readBinary n) Q (St b h).
Proof.
  intros Hb Hn HnR HQ. unfold readBinary. wsteps.
  eapply wp_start_read; [done..|]. intros _ b1 sh1 Hc1. wsteps.
  eapply wp_cut_single; [done..|]. intros b2 sh2 x nd l Hc2 El2 Hr2 Hnd. wsteps.
  destruct (Z.leb_spec n (node_Len nd)); wsteps; rewrite ?Hr2.
  - destruct (own_head _ _ _ _ _ _ _ _ (c_own _ _ _ _ _ _ _ _ _ _ Hc2) El2) as (_&Hx&_).
    eapply wp_load; [exact Hx|].
    destruct (negb _ && getMode _ nocopyReadMask).
    { wsteps. eapply wp_cut_next; [done..|]. intros. by apply HQ. }
    destruct (negb _ && _).
    + wsteps. eapply wp_update; [exact Hx|]. wsteps.
      destruct (cut_nocopy _ _ _ _ _ _ _ _ _ _ _ _ _ Hc2 El2) as [Hc3 Hfr].
      eapply wp_cut_next; [exact Hc3|done..|]. intros. by apply (read_post_frame _ _ _ _ _ _ _ _ _ _ Hfr HQ).
    + by eapply wp_cut_copy_next.
  - eapply wp_cut_alloc; [done..|]. intros p h3 Hf Hc3 Hfr. wsteps.
    eapply wp_cut_copy; [exact Hc2|done..|by left|]. intros. wsteps. by apply HQ.
Qed.

(** ** ReadByte *)

Lemma cut_pop n r bk others regs b h sh R P x nd l k j :
  cut n r bk others regs b h sh R P → lv sh = (x, nd) :: l → nf sh = S k → nw sh = S j →
  node_Len nd = 0 →
  cut n r bk others regs (set_read (next nd) b) h
    (Sh (dead sh ++ [(x, nd)]) l k j (kd sh) (clean sh)) R P.
Proof.
  intros Hc El Ek Ej E. pose proof (c_own _ _ _ _ _ _ _ _ _ _ Hc) as Ho.
  pose proof (zlen_nonneg R).
  rewrite <- (zdrop_nonpos 0 R) by lia. rewrite <- (Z.sub_0_r n).
  eapply cut_moved; [exact Hc|lia|lia| |by eapply own_pop|done..].
  replace 0 with (node_Len nd + 0) by lia. eapply moved_pop; [done..|apply moved_refl|lia].
Qed.

Lemma wp_readByte_loop fuel : ∀ r bk others regs b h sh R P (Q : byte → st → Prop),
  cut 1 r bk others regs b h sh R P → 0 < zlen R → (length (lv sh) < fuel)%nat →
  (∀ c R' s', R = c :: R' → buffer r bk others regs s' R' P → frame others regs h (hp s') →
     Q c s') →
  wp (readByte_loop fuel) Q (St b h).
Proof.
  induction fuel as [|fuel IH]; intros r bk others regs b h sh R P Q Hc HR Hf HQ; [lia|].
  pose proof (c_own _ _ _ _ _ _ _ _ _ _ Hc) as Ho.
  pose proof (c_Rd _ _ _ _ _ _ _ _ _ _ Hc) as ER.
  destruct (lv sh) as [|[x nd] l] eqn:El.
  { by rewrite <- ER in HR. }
  destruct (own_head _ _ _ _ _ _ _ _ Ho El) as (Hr&Hx&Hw&_).
  assert (0 <= node_Len nd) by (destruct Hw; unfold node_Len; lia).
  simpl. wsteps. rewrite Hr. eapply wp_load; [exact Hx|].
  destruct (Z.leb_spec 1 (node_Len nd)); wsteps.
  - eapply wp_cut_next; [done..|lia|done|]. intros p h' Hb Hg _ Hfr. wsteps. rewrite Hg.
    destruct R as [|c R']; [done|].
    eapply wp_some; [done|]. eapply HQ; [done| |done]. by eapply buffer_drop.
  - destruct (own_more _ _ _ _ _ _ _ _ Ho (c_clean _ _ _ _ _ _ _ _ _ _ Hc) El) as (k&j&Ek&Ej&_).
    { rewrite El, ER. lia. }
    eapply IH; [eapply cut_pop; done || lia|done|simpl in *; lia|done].
Qed.

Lemma wp_ReadByte r bk others regs b h c R P (Q : byte * option lberr → st → Prop) :
  buffer r bk others regs (St b h) (c :: R) P →
  (∀ s', buffer r bk others regs s' R P → frame others regs h (hp s') → Q (c, None) s') →
  wp ReadByte Q (St b h).
Proof.
  intros Hb HQ. pose proof (buffer_len _ _ _ _ _ _ _ _ Hb) as El. rewrite zlen_cons in El.
  pose proof (zlen_nonneg R). unfold ReadByte. wsteps. unfold Len.
  destruct (Z.ltb_spec (blength b) 1); [lia|]. wsteps.
  eapply (wp_start_read 1); [done|lia|]. intros _ b1 sh1 Hc1. wsteps.
  eapply wp_readByte_loop; [done|rewrite zlen_cons; lia| |].
  { eapply own_fuel, Hc1. }
  intros c' R' s' [= <- <-] ??. wsteps. by apply HQ.
Qed.
End read.
