(* ===== verification/LinkScan.v ===== *)
(** * Looking into a link buffer

    indexByte, Until and Peek: the methods that walk along the chain of nodes
    from b.read on and leave the readable bytes in place. *)

From S2P Require Import Prelude GoMem LinkNode LinkBuffer LinkHeap LinkInv LinkRead.

Open Scope Z_scope.

(** ** bytes.IndexByte *)

Section index.
Implicit Types (l k : list byte) (c : byte).

Lemma IndexByte_range l c : -1 <= IndexByte l c ∧ IndexByte l c < zlen l ∨ IndexByte l c = -1.
Proof.
  induction l as [|b l IH]; simpl; [lia|]. rewrite zlen_cons. pose proof (zlen_nonneg l).
  case_decide; [lia|]. destruct (Z.ltb_spec (IndexByte l c) 0); lia.
Qed.

Lemma IndexByte_app l k c :
  IndexByte (l ++ k) c =
    if 0 <=? IndexByte l c then IndexByte l c
    else if 0 <=? IndexByte k c then zlen l + IndexByte k c else -1.
Proof.
  induction l as [|b l IH]; simpl.
  - destruct (Z.leb_spec 0 (IndexByte k c)); [by rewrite zlen_nil|].
    destruct (IndexByte_range k c); lia.
  - case_decide; [done|]. rewrite IH, zlen_cons. pose proof (zlen_nonneg l).
    destruct (Z.leb_spec 0 (IndexByte l c)).
    + rewrite (proj2 (Z.ltb_ge _ _)) by lia. by rewrite (proj2 (Z.leb_le _ _)) by lia.
    + destruct (Z.leb_spec 0 (IndexByte k c)).
      * rewrite (proj2 (Z.ltb_ge (zlen l + _) _)), (proj2 (Z.ltb_lt (IndexByte l c) _)) by lia.
        simpl. lia.
      * by rewrite (proj2 (Z.ltb_lt (IndexByte l c) _)) by lia.
Qed.

(** The position IndexByte returns is that of the first occurrence. *)
Lemma IndexByte_found l c :
  0 <= IndexByte l c →
  ztake (IndexByte l c + 1) l = ztake (IndexByte l c) l ++ [c] ∧
  c ∉ ztake (IndexByte l c) l.
Proof.
  induction l as [|b l IH]; simpl; [lia|]. case_decide as E.
  - subst. intros _. split; [done|]. by apply not_elem_of_nil.
  - destruct (Z.ltb_spec (IndexByte l c) 0); [lia|]. intros _. destruct IH as [IH1 IH2]; [done|].
    unfold ztake in *.
    replace (Z.to_nat (1 + IndexByte l c + 1)) with (S (Z.to_nat (IndexByte l c + 1))) by lia.
    replace (Z.to_nat (1 + IndexByte l c)) with (S (Z.to_nat (IndexByte l c))) by lia.
    simpl. rewrite IH1. split; [done|]. apply not_elem_of_cons. split; congruence.
Qed.

Lemma IndexByte_none l c : IndexByte l c < 0 ↔ c ∉ l.
Proof.
  induction l as [|b l IH]; simpl.
  - split; [intros _; apply not_elem_of_nil|lia].
  - rewrite not_elem_of_cons, <- IH. case_decide as E.
    + split; [lia|]. intros [? _]. congruence.
    + destruct (Z.ltb_spec (IndexByte l c) 0).
      * split; [|lia]. intros _. split; [congruence|done].
      * split; lia.
Qed.
End index.

Section scan.
Context {rt : Runtime} {rtok : RuntimeOk rt}.
Implicit Types (b : LinkBuffer) (h : heap) (sh : shape) (others : list loc)
  (regs : list region).

(** A pointer to a node from b.read on, with the bytes that follow. *)
Definition at_node h sh (node : option loc) (l : list cell) : Prop :=
  (∃ l0, lv sh = l0 ++ l) ∧ lseg (hnodes h) node l None.

Lemma at_read b h sh others regs : own b h sh others regs → at_node h sh (read b) (lv sh).
Proof. intros [Hs _]. split; [by exists []|apply Hs]. Qed.

Lemma at_cons b h sh others regs node x nd l :
  own b h sh others regs → at_node h sh node ((x, nd) :: l) →
  node = Some x ∧ hnodes h !! x = Some nd ∧ node_wf (hmem h) nd ∧
  0 <= node_Len nd ∧ at_node h sh (next nd) l ∧ nregion nd ∈ cregs (lv sh).
Proof.
  intros [Hs _] [[l0 E] (?&?&?)].
  assert (lv sh !! length l0 = Some (x, nd)) as Hi.
  { rewrite E, lookup_app_r, Nat.sub_diag by lia. done. }
  destruct (s_nodes _ _ _ Hs _ _ _ Hi) as [Hw _]. split_and!; try done.
  - destruct Hw. unfold node_Len. lia.
  - split; [|done]. exists (l0 ++ [(x, nd)]). by rewrite <- app_assoc.
  - rewrite E. unfold cregs. rewrite fmap_app. set_solver.
Qed.

(** Its bytes do not depend on the rest of the memory. *)
Lemma at_keeps b h h' sh others regs rs node l :
  own b h sh others regs → at_node h sh node l →
  keeps (hmem h) (hmem h') (cregs (lv sh) ++ rs) → Rd (hmem h') l = Rd (hmem h) l.
Proof.
  intros [Hs _] [[l0 E] _] Hk. apply Rd_Tb_keeps.
  - intros i x nd Hi. eapply (s_nodes _ _ _ Hs (length l0 + i) x).
    rewrite E, lookup_app_r by lia. rewrite <- Hi. f_equal. lia.
  - eapply keeps_sublist; [|exact Hk]. rewrite E. unfold cregs. rewrite fmap_app. set_solver.
Qed.

(** ** indexByte *)

(** The position of [c] among the bytes [bs], looking from position [skip] on. *)
Definition index_from (c : byte) (skip : Z) (bs : list byte) : Z :=
  let i := IndexByte (zdrop skip bs) c in if 0 <=? i then skip + i else -1.

Lemma index_from_skip c skip l k : zlen l <= skip →
  index_from c skip (l ++ k) =
    let i := index_from c (skip - zlen l) k in if 0 <=? i then zlen l + i else -1.
Proof.
  intros. unfold index_from. rewrite zdrop_app_ge by done. cbv zeta. zcase.
Qed.

Lemma index_from_miss c skip l k : 0 <= skip → skip < zlen l → IndexByte (zdrop skip l) c < 0 →
  index_from c skip (l ++ k) =
    let i := index_from c 0 k in if 0 <=? i then zlen l + i else -1.
Proof.
  intros ?? Hi. unfold index_from. rewrite zdrop_app_le, IndexByte_app, (zdrop_nonpos 0) by lia.
  rewrite zlen_zdrop. cbv zeta. zcase.
Qed.

Lemma index_from_hit c skip l k : 0 <= skip → skip < zlen l → 0 <= IndexByte (zdrop skip l) c →
  index_from c skip (l ++ k) = skip + IndexByte (zdrop skip l) c.
Proof.
  intros ?? Hi. unfold index_from. rewrite zdrop_app_le, IndexByte_app by lia.
  cbv zeta. zcase.
Qed.

(** The results agree by arithmetic. *)
Local Ltac same_result :=
  cbv zeta in *;
  match goal with
  | HQ : ?Q ?x ?s |- ?Q ?y ?s => replace y with x; [exact HQ|clear HQ; zcase]
  end.

Lemma wp_indexByte_loop fuel : ∀ b h sh others regs c size skip node l (Q : Z → st → Prop),
  own b h sh others regs → at_node h sh node l → 0 <= skip → (length l < fuel)%nat →
  (let i := index_from c skip (Rd (hmem h) l) in
   Q (if 0 <=? i then size - zlen (Rd (hmem h) l) + i else -1) (St b h)) →
  wp (indexByte_loop fuel c size (zlen (Rd (hmem h) l)) skip node) Q (St b h).
Proof.
  induction fuel as [|fuel IH]; intros b h sh others regs c size skip node l Q Ho Hat Hsk Hf HQ;
    [lia|]. simpl.
  destruct (Z.leb_spec (zlen (Rd (hmem h) l)) 0) as [Hz|Hz].
  { wsteps. assert (Rd (hmem h) l = []) as E by (apply zlen_0_nil; pose proof (zlen_nonneg (Rd (hmem h) l)); lia).
    rewrite E in HQ. unfold index_from, zdrop in HQ. rewrite drop_nil in HQ. exact HQ. }
  destruct l as [|[x nd] l]; [done|].
  destruct (at_cons _ _ _ _ _ _ _ _ _ Ho Hat) as (->&Hx&Hw&Hl&Hat'&_).
  wsteps. eapply wp_load; [exact Hx|]. rewrite Rd_cons, zlen_app, zlen_rb in * by done.
  pose proof (zlen_nonneg (Rd (hmem h) l)).
  assert ((if node_Len nd + zlen (Rd (hmem h) l) <=? node_Len nd
           then node_Len nd + zlen (Rd (hmem h) l) else node_Len nd) = node_Len nd) as ->.
  { destruct (Z.leb_spec (node_Len nd + zlen (Rd (hmem h) l)) (node_Len nd)); lia. }
  replace (node_Len nd + zlen (Rd (hmem h) l) - node_Len nd) with (zlen (Rd (hmem h) l)) by lia.
  assert (zlen (rb (hmem h) nd) = node_Len nd) as Ezl by (by rewrite zlen_rb).
  destruct (Z.leb_spec (node_Len nd) skip).
  - eapply IH; [done..|lia|simpl in *; lia|]. rewrite index_from_skip, Ezl in HQ by lia. by same_result.
  - wsteps. eapply wp_node_Peek; [exact Hx|apply Hw|lia|destruct Hw; unfold node_Len in *; lia|].
    wsteps. eapply wp_some; [apply slice3_ok; simpl; lia|]. wsteps.
    assert (sget (hmem h) (Slice (sarr (buf nd)) (soff (buf nd) + off nd + skip)
      (node_Len nd - skip) (node_Len nd - skip)) = zdrop skip (rb (hmem h) nd)) as Hg.
    { unfold rb, sget, mget, node_Len in *. destruct Hw. simpl. rewrite zdrop_zsub by lia.
      f_equal; lia. }
    simpl. rewrite Hg. destruct (Z.leb_spec 0 (IndexByte (zdrop skip (rb (hmem h) nd)) c)).
    + wsteps. rewrite index_from_hit in HQ by lia. by same_result.
    + eapply IH; [done..|lia|simpl in *; lia|]. rewrite index_from_miss, Ezl in HQ by lia.
      by same_result.
Qed.

Lemma wp_indexByte r bk others regs b h R P c skip (Q : Z → st → Prop) :
  buffer r bk others regs (St b h) R P → 0 <= skip →
  Q (index_from c skip R) (St b h) → wp (indexByte c skip) Q (St b h).
Proof.
  intros Hb Hs HQ. pose proof (buffer_len _ _ _ _ _ _ _ _ Hb) as El. destruct Hb as (sh&[]&_&_).
  cbn [lb hp] in *. unfold indexByte. wsteps. unfold Len. rewrite El.
  destruct (Z.leb_spec (zlen R) skip).
  - wsteps. unfold index_from in HQ. by rewrite zdrop_ge in HQ by done.
  - wsteps. rewrite <- a_Rd at 2.
    eapply wp_indexByte_loop; [exact a_own|by eapply at_read|done|by eapply own_fuel|].
    rewrite a_Rd. assert (index_from c skip R = -1 ∨ 0 <= index_from c skip R).
    { unfold index_from. cbv zeta. zcase. }
    same_result.
Qed.

(** ** Peek *)

(** append in place *)
Lemma wp_append_fits b h sh others regs p bs (Q : slice → heap → Prop) :
  own b h sh others (Region (sarr p) (soff p) (soff p + scap p) :: regs) →
  0 <= slen p → slen p + zlen bs <= scap p → 0 < zlen bs →
  (∀ h', own b h' sh others (Region (sarr p) (soff p) (soff p + scap p) :: regs) →
     keeps (hmem h) (hmem h') (cregs (lv sh) ++ regs) → same_nodes h h' →
     sget (hmem h') (Slice (sarr p) (soff p) (slen p + zlen bs) (scap p)) =
       sget (hmem h) p ++ bs →
     Q (Slice (sarr p) (soff p) (slen p + zlen bs) (scap p)) h') →
  wp (append_bytes p bs) Q h.
Proof.
  intros Ho ??? HQ. unfold append_bytes. destruct (Z.leb_spec (slen p + zlen bs) (scap p)); [|lia].
  wsteps.
  destruct (own_mput _ _ _ _ _ _ bs (soff p + slen p) Ho) as [Ho' Hk]; [simpl; lia..|].
  apply HQ; [done..|]. simpl.
  pose proof (w_regs _ _ _ (proj2 Ho)) as Hr. apply Forall_app in Hr as [_ Hr].
  apply Forall_cons in Hr as [[??] _]. simpl in *.
  destruct (copy_window (hmem h) (Slice (sarr p) (soff p) (scap p) (scap p)) (slen p) bs)
    as (_&_&Hg); simpl; [lia..|]. unfold sget. simpl in *. by rewrite Z.add_assoc.
Qed.

(** The cache while it is filled. *)
Record filling h (p c : slice) (R : list byte) : Prop := Filling {
  f_arr : sarr p = sarr c; f_off : soff p = soff c; f_cap : scap p = scap c;
  f_len : 0 <= slen p; f_le : slen p <= scap p; f_R : slen p <= zlen R;
  f_get : sget (hmem h) p = ztake (slen p) R;
}.

Lemma ztake_extend n m (l k : list byte) (R : list byte) :
  0 <= n → 0 <= m → zlen l <= n → n + m <= zlen l + zlen k → ztake (zlen l + zlen k) R = l ++ k →
  ztake n R ++ zsub (n - zlen l) (n - zlen l + m) k = ztake (n + m) R.
Proof.
  intros ???? E.
  assert (∀ j, j <= zlen l + zlen k → ztake j R = ztake j (l ++ k)) as Hj.
  { intros j ?. rewrite <- E, ztake_ztake. f_equal. lia. }
  rewrite !Hj by lia. rewrite !ztake_app_ge by lia. rewrite <- app_assoc. f_equal.
  pose proof (zsub_split 0 (n - zlen l) (n - zlen l + m) k ltac:(lia) ltac:(lia) ltac:(lia)) as Hs.
  unfold zsub at 1 2 in Hs. rewrite !(zdrop_nonpos 0), !Z.sub_0_r in Hs by lia.
  rewrite <- Hs. f_equal. lia.
Qed.

Lemma wp_peek_loop fuel : ∀ b h sh others regs c n pre node l p (Q : slice → st → Prop),
  let R := pre ++ Rd (hmem h) l in
  own b h sh others (Region (sarr c) (soff c) (soff c + scap c) :: regs) →
  at_node h sh node l → filling h p c R → zlen pre <= slen p ∨ n <= slen p →
  n <= zlen R → n <= scap c → (length l < fuel)%nat →
  (∀ p' h', own b h' sh others (Region (sarr c) (soff c) (soff c + scap c) :: regs) →
     keeps (hmem h) (hmem h') (cregs (lv sh) ++ regs) → same_nodes h h' →
     filling h' p' c R → n <= slen p' → Q p' (St b h')) →
  wp (peek_loop fuel n (zlen pre) node p) Q (St b h).
Proof.
  induction fuel as [|fuel IH];
    intros b h sh others regs c n pre node l p Q R Ho Hat Hf Hpre HnR Hnc Hfu HQ; [lia|].
  simpl. destruct (Z.ltb_spec (slen p) n).
  2:{ wsteps. by eapply HQ; [..|apply keeps_refl| | |]. }
  destruct Hpre as [Hpre|]; [|lia].
  destruct l as [|[x nd] l].
  { unfold R in *. change (Rd (hmem h) []) with (@nil byte) in *. rewrite app_nil_r in *. lia. }
  destruct (at_cons _ _ _ _ _ _ _ _ _ Ho Hat) as (->&Hx&Hw&Hl&Hat'&Hreg).
  assert (zlen (rb (hmem h) nd) = node_Len nd) as Ezl by (by rewrite zlen_rb).
  assert (R = (pre ++ rb (hmem h) nd) ++ Rd (hmem h) l) as ER.
  { unfold R. by rewrite Rd_cons, <- app_assoc. }
  wsteps. eapply wp_load; [exact Hx|]. destruct (Z.leb_spec (zlen pre + node_Len nd) (slen p)).
  - rewrite <- Ezl, <- zlen_app.
    eapply IH; rewrite <- ?ER; try done; [left; rewrite zlen_app; lia|simpl in *; lia].
  - set (copyn := if node_Len nd - (slen p - zlen pre) <? n - slen p then _ else _).
    assert (copyn = Z.min (n - slen p) (node_Len nd - (slen p - zlen pre))) as Ec
      by (unfold copyn; zcase).
    destruct Hf as [F1 F2 F3 F4 F5 F6 F7].
    wsteps. eapply wp_node_Peek; [exact Hx|apply Hw|lia|destruct Hw; unfold node_Len in *; lia|].
    wsteps. eapply wp_some; [apply slice3_ok; simpl; lia|]. wsteps. simpl.
    match goal with |- context [sget (hmem h) ?q] =>
      assert (sget (hmem h) q = zsub (slen p - zlen pre) (slen p - zlen pre + copyn) (rb (hmem h) nd)) as ->
    end.
    { unfold sget, rb, mget, node_Len in *. destruct Hw. simpl. rewrite zsub_zsub by lia.
      f_equal; lia. }
    set (bs := zsub _ _ (rb (hmem h) nd)).
    assert (zlen bs = copyn) as Ebs by (unfold bs; rewrite zlen_zsub; lia).
    rewrite <- F1, <- F2, <- F3 in Ho.
    eapply wp_append_fits; [exact Ho|lia..|]. rewrite Ebs. intros h' Ho' Hk Hns Hg. wsteps.
    assert (Rd (hmem h') l = Rd (hmem h) l) as ERl by (by eapply at_keeps).
    rewrite <- Ezl, <- zlen_app. rewrite F1, F2, F3 in Ho', Hg |- *.
    assert (at_node h' sh (next nd) l) as Hat2 by (unfold at_node in *; by rewrite (proj1 Hns)).
    eapply IH; rewrite ?ERl, <- ?ER; [exact Ho'|done|..|simpl in *; lia|]; try done.
    + constructor; simpl; try done || lia.
      rewrite Hg, F7. eapply ztake_extend; [lia..|].
      rewrite <- zlen_app, ER, ztake_app_le, ztake_ge by lia. done.
    + simpl. rewrite zlen_app. lia.
    + intros p' h2 ????. eapply HQ; try done; [|by eapply same_nodes_trans].
      by eapply keeps_trans.
Qed.

Lemma wp_lb_single n others regs b h sh R P bk (Q : bool → st → Prop) :
  lb_at b h sh others regs R (R ++ P) bk → clean sh = true → 0 < n → n <= zlen R →
  (∀ b' sh' x nd l, lb_at b' h sh' others regs R (R ++ P) bk → kd sh' = kd sh →
     clean sh' = true → lv sh' = (x, nd) :: l → read b' = Some x →
     Q (n <=? node_Len nd) (St b' h)) →
  wp (isSingleNode n) Q (St b h).
Proof.
  intros Ha Hc Hn HnR HQ. eapply wp_isSingleNode; [apply Ha|done..| |].
  { by rewrite (a_Rd _ _ _ _ _ _ _ _ Ha). }
  intros sh' x nd l Ho El Hmv _. pose proof (zlen_nonneg R).
  eapply HQ; [|apply Hmv| |done..]; [|by rewrite (mv_clean _ _ _ _ _ Hmv)].
  rewrite <- (zdrop_nonpos 0 R) by lia. destruct Hmv.
  eapply lb_at_moved; try done; [simpl; lia|]. rewrite zdrop_nonpos by lia. apply Ha.
Qed.

(** Free the cache when it is too small. *)
Lemma wp_peek_free n others regs b h sh R T bk (Q : unit → st → Prop) :
  lb_at b h sh others regs R T bk →
  (∀ b' h', lb_at b' h' sh others regs R T bk → read b' = read b →
     same_nodes h h' → hmem h' = hmem h →
     (∀ c, cachePeek b' = Some c → n <= scap c) → Q tt (St b' h')) →
  wp (match cachePeek b with
      | Some c =>
          if scap c <? n
          then _ ← H (free c); setb (set_cachePeek None)
          else mret ()
      | None => mret ()
      end) Q (St b h).
Proof.
  intros Ha HQ. destruct (cachePeek b) as [c|] eqn:Ec.
  - destruct (Z.ltb_spec (scap c) n).
    + wsteps. destruct Ha as [Ho HR HT Hl Hm _]. unfold peek_reg in Ho. rewrite Ec in Ho.
      apply own_drop in Ho. destruct Ho as [Hs W].
      assert (∀ f, lb_at (set_cachePeek None b) (set_freed f h) sh others regs R T bk) as Hf.
      { intros f. constructor; try done. split; [|by apply world_free]. by destruct Hs. }
      apply wp_free; intros; wsteps; eapply HQ; try done.
      constructor; try done. split; [|done]. by destruct Hs.
    + wsteps. eapply HQ; try done. intros c' E. simplify_eq. done.
  - wsteps. eapply HQ; try done. intros c' E. congruence.
Qed.

(** Make sure that there is a cache. *)
Lemma wp_peek_cache n others regs b h sh R T bk (Q : slice → st → Prop) :
  lb_at b h sh others regs R T bk → 0 <= n →
  (∀ c, cachePeek b = Some c → n <= scap c) →
  (∀ c b' h', lb_at b' h' sh others regs R T bk → read b' = read b →
     frame others regs h h' → cachePeek b' = Some c → n <= scap c → Q c (St b' h')) →
  wp (match cachePeek b with
      | None => p ← H (malloc 0 n); _ ← setb (set_cachePeek (Some p)); mret p
      | Some c => mret c
      end) Q (St b h).
Proof.
  intros Ha Hn Hc HQ. destruct (cachePeek b) as [c|] eqn:Ec.
  - wsteps. eapply HQ; try done; [apply frame_refl|by apply Hc].
  - wsteps. destruct Ha as [Ho HR HT Hl Hm _]. unfold peek_reg in Ho. rewrite Ec in Ho.
    eapply wp_malloc; [|apply Ho|]; [done|]. intros h' a c Hnm Hcap W Hk.
    pose proof (own_new_mem _ _ _ _ _ _ _ _ _ Ho Hnm W (k_le _ _ _ Hk)) as Ho'.
    destruct (Rd_Tb_keeps (hmem h) (hmem h') (lv sh)) as [E1 E2].
    { intros i x nd Hi. destruct Ho as [Hs _]. by eapply (s_nodes _ _ _ Hs). }
    { ksub Hk. }
    wsteps. pose proof (zlen_nonneg R). eapply HQ; try done.
    + constructor; try congruence; try done.
      * eapply own_fields; [..|exact Ho']; done.
      * unfold peek_ok. simpl. split_and!; try lia.
        unfold sget, mget. simpl. by rewrite zsub_empty, ztake_nonpos by lia.
    + apply frame_mem; [by destruct Hnm|].
      ksub Hk.
Qed.

(** The cache with the first [n] bytes. *)
Lemma filling_prefix h p c R n (Q : slice → st → Prop) s :
  filling h p c R → 0 <= n → n <= slen p →
  (∀ q, sget (hmem h) q = ztake n R → slen q = n → Q q s) →
  wp (some (slice2 p 0 n)) Q s.
Proof.
  intros [] ?? HQ. eapply wp_some; [apply slice3_ok; lia|]. apply HQ; [|simpl; lia].
  unfold sget, mget in *. simpl. rewrite Z.add_0_r, Z.sub_0_r.
  unfold zsub in *.
  replace (soff p + n - soff p) with n by lia.
  replace (soff p + slen p - soff p) with (slen p) in f_get0 by lia.
  rewrite <- (Z.min_l n (slen p)) by lia. rewrite <- !ztake_ztake. by rewrite f_get0.
Qed.

Lemma lb_at_filling b h sh others regs R P bk c :
  lb_at b h sh others regs R (R ++ P) bk → cachePeek b = Some c → filling h c c R.
Proof.
  intros [_ _ _ _ _ Hp] Ec. unfold peek_ok in Hp. rewrite Ec in Hp.
  destruct Hp as (?&?&?&E). rewrite ztake_app_le in E by done. by constructor.
Qed.

(** Storing the filled cache. *)
Lemma lb_at_cache b h h' sh others regs R P bk c p :
  lb_at b h sh others regs R (R ++ P) bk → cachePeek b = Some c → filling h' p c R →
  own b h' sh others (Region (sarr c) (soff c) (soff c + scap c) :: regs) →
  keeps (hmem h) (hmem h') (cregs (lv sh) ++ regs) →
  lb_at (set_cachePeek (Some p) b) h' sh others regs R (R ++ P) bk.
Proof.
  intros [Ho HR HT Hl Hm _] Ec [F1 F2 F3 F4 F5 F6 F7] Ho' Hk.
  destruct (Rd_Tb_keeps (hmem h) (hmem h') (lv sh)) as [E1 E2].
  { intros i x nd Hi. destruct Ho as [Hs _]. by eapply (s_nodes _ _ _ Hs). }
  { ksub Hk. }
  constructor; try congruence; try done.
  - unfold peek_reg. simpl. rewrite F1, F2, F3. by eapply own_fields; [..|exact Ho'].
  - unfold peek_ok. simpl. by rewrite ztake_app_le.
Qed.

Lemma wp_peek_fill n others regs b h sh R P bk c (Q : slice → st → Prop) :
  lb_at b h sh others regs R (R ++ P) bk → cachePeek b = Some c → n <= scap c → n <= zlen R →
  (∀ p h', lb_at (set_cachePeek (Some p) b) h' sh others regs R (R ++ P) bk → filling h' p c R →
     n <= slen p → frame others regs h h' → Q p (St b h')) →
  wp (peek_loop (nfuel h) n 0 (read b) c) Q (St b h).
Proof.
  intros Ha Ec Hcap HnR HQ. pose proof (a_own _ _ _ _ _ _ _ _ Ha) as Ho.
  pose proof (lb_at_filling _ _ _ _ _ _ _ _ _ Ha Ec) as Hf.
  assert (own b h sh others (Region (sarr c) (soff c) (soff c + scap c) :: regs)) as Ho'.
  { unfold peek_reg in Ho. by rewrite Ec in Ho. }
  pose proof (a_Rd _ _ _ _ _ _ _ _ Ha) as ER.
  eapply (wp_peek_loop _ _ _ _ _ _ c n [] _ (lv sh)); simpl app; rewrite ?ER;
    [exact Ho'|by eapply at_read|done|left; apply Hf|done|done|by eapply own_fuel|].
  intros p h' Ho2 Hk Hns Hf2 Hle. apply HQ; [by eapply lb_at_cache|done..|].
  apply frame_mem; [done|]. ksub Hk.
Qed.

Lemma wp_Peek r bk others regs b h R P n (Q : slice * option lberr → st → Prop) :
  buffer r bk others regs (St b h) R P → 0 < n → n <= zlen R →
  (∀ p s', buffer r bk others regs s' R P → sget (hmem (hp s')) p = ztake n R → slen p = n →
     frame others regs h (hp s') → Q (p, None) s') →
  wp (Peek n) Q (St b h).
Proof.
  intros Hb Hn HnR HQ. pose proof (buffer_len _ _ _ _ _ _ _ _ Hb) as El.
  destruct Hb as (sh&Ha&Hr&Hcl). cbn [lb hp] in Ha.
  unfold Peek. destruct (Z.leb_spec n 0); [lia|]. wsteps. unfold Len. rewrite El.
  destruct (Z.ltb_spec (zlen R) n); [lia|]. wsteps.
  eapply wp_lb_single; [done..|]. intros b1 sh1 x nd l Ha1 Hr1 Hc1 El1 Hrd1. wsteps.
  assert (∀ b h, lb_at b h sh1 others regs R (R ++ P) bk →
    buffer r bk others regs (St b h) R P) as Hbuf.
  { intros b' h' ?. exists sh1. split; [done|]. by rewrite Hr1. }
  destruct (Z.leb_spec n (node_Len nd)); wsteps.
  - destruct (own_head _ _ _ _ _ _ _ _ (a_own _ _ _ _ _ _ _ _ Ha1) El1) as (_&Hx&Hw&_).
    rewrite Hrd1. eapply wp_node_Peek; [done|apply Hw|lia|destruct Hw; unfold node_Len in *; lia|].
    wsteps. destruct (sget_next _ _ n Hw) as [Hg _]; [lia|done|].
    apply HQ; [by apply Hbuf| |done|apply frame_refl]. simpl. rewrite Hg.
    rewrite <- (a_Rd _ _ _ _ _ _ _ _ Ha1), El1, Rd_cons, ztake_app_le; [done|]. by rewrite zlen_rb.
  - eapply wp_peek_free; [done|]. intros b2 h2 Ha2 Hrd2 Hns2 Hm2 Hcap2. wsteps.
    eapply wp_peek_cache; [done|lia|done|]. intros c b3 h3 Ha3 Hrd3 Hfr3 Ec3 Hcap3.
    assert (frame others regs h h3) as Hfr.
    { eapply frame_trans; [|exact Hfr3]. apply frame_mem; [done|]. rewrite Hm2. apply keeps_refl. }
    pose proof (lb_at_filling _ _ _ _ _ _ _ _ _ Ha3 Ec3) as Hf.
    destruct (Z.leb_spec n (slen c)); wsteps.
    + eapply filling_prefix; [done|lia|done|]. intros. wsteps. by apply HQ; [apply Hbuf|..].
    + rewrite <- Hrd3. eapply wp_peek_fill; [done..|]. intros p h4 Ha4 Hf4 Hle Hfr4. wsteps.
      eapply filling_prefix; [done|lia|done|]. intros. wsteps.
      apply HQ; [by apply Hbuf|done..|]. by eapply frame_trans.
Qed.
End scan.
