(* ===== verification/LinkSlice.v ===== *)
(** * Releasing and slicing a link buffer

    Release gives back the nodes that were read, Close all of them, and Slice
    makes a second buffer that shares the memory of the first. *)

From S2P Require Import Prelude GoMem LinkNode LinkBuffer LinkHeap LinkInv LinkRead LinkScan.

Open Scope Z_scope.

Section release.
Context {rt : Runtime} {rtok : RuntimeOk rt}.
Implicit Types (b : LinkBuffer) (h : heap) (sh : shape) (others : list loc)
  (regs : list region).

Lemma own_at_flush b h sh others regs :
  own b h sh others regs → nf sh = 0%nat → peq (read b) (flush b) = true.
Proof.
  intros [Hs _] E. apply bool_decide_eq_true. rewrite (s_flush _ _ _ Hs), E.
  pose proof (s_lv _ _ _ Hs) as Hl. destruct (lv sh) as [|[x nd] l]; [done|].
  by destruct Hl as (->&_).
Qed.

(** In front of b.flush there is a node, and b.write is behind it, too. *)
Lemma own_before_flush b h sh others regs k :
  own b h sh others regs → nf sh = S k → ∃ x nd l j, lv sh = (x, nd) :: l ∧ nw sh = S j.
Proof.
  intros [Hs _] Ek. pose proof (s_idx _ _ _ Hs) as Hi. rewrite Ek in Hi.
  destruct (lv sh) as [|[x nd] l]; [destruct (ro sh); simpl in *; lia|].
  destruct (nw sh) as [|j]; [destruct (ro sh); simpl in *; lia|]. eauto 10.
Qed.

Lemma wp_release_read fuel : ∀ b h sh others regs (Q : unit → st → Prop),
  own b h sh others regs → (length (lv sh) < fuel)%nat →
  (∀ y sh', own (set_read y b) h sh' others regs → moved (hmem h) sh sh' 0 (hmem h) →
     Q tt (St (set_read y b) h)) →
  wp (release_read fuel) Q (St b h).
Proof.
  induction fuel as [|fuel IH]; intros b h sh others regs Q Ho Hf HQ; [lia|].
  assert (set_read (read b) b = b) as Hset by (by destruct b).
  assert (Q tt (St b h)) as Hdone.
  { rewrite <- Hset. eapply HQ; [by rewrite Hset|apply moved_refl]. }
  simpl. wsteps. destruct (nf sh) as [|k] eqn:Ek.
  { rewrite (own_at_flush _ _ _ _ _ Ho Ek). by wsteps. }
  destruct (own_before_flush _ _ _ _ _ _ Ho Ek) as (x&nd&l&j&El&Ej).
  destruct (own_head _ _ _ _ _ _ _ _ Ho El) as (Hr&Hx&_). rewrite Hr.
  rewrite (own_not_flush _ _ _ _ _ _ _ _ _ Ho El Ek). wsteps. eapply wp_load; [exact Hx|].
  destruct (Z.eqb_spec (node_Len nd) 0) as [E|E]; wsteps; [|done].
  eapply IH; [by eapply own_pop|simpl; rewrite El in Hf; simpl in Hf; lia|].
  intros y sh' Ho' Hmv. eapply (HQ y sh'); [done|].
  replace 0 with (node_Len nd + 0) by lia. by eapply moved_pop.
Qed.

(** [b.head = node.next; node.Release()] *)
Lemma own_release b h sh others regs x nd d (Q : unit → heap → Prop) :
  own b h sh others regs → dead sh = (x, nd) :: d →
  (∀ h', own (set_head (next nd) b) h' (Sh d (lv sh) (nf sh) (nw sh) (kd sh) (clean sh)) others regs →
     hmem h' = hmem h → frame others regs h h' → Q tt h') →
  wp (node_Release (Some x)) Q h.
Proof.
  intros [Hs W] Ed HQ. pose proof W as W0. unfold locs in W. rewrite Ed in W. simpl in W.
  eapply wp_node_Release; [exact W|]. intros h' W' Hm Hns Hrf. apply HQ; [|done|].
  - destruct Hs as [Hd Hl Hf Hw Hi Hn Hu]. rewrite Ed in Hd. destruct Hd as (_&_&Hd). split.
    + constructor; simpl; try done.
      * eapply lseg_frame; [|exact Hd]. intros y Hy. apply Hns. rewrite fmap_app. set_solver.
      * eapply lseg_frame; [|exact Hl]. intros y Hy. apply Hns. rewrite fmap_app. set_solver.
      * intros i y md E. rewrite Hm. destruct (Hn i y md E) as [? []]. split; [done|]. by constructor.
      * intros i y md Hlt E. apply Hrf; [|by eapply Hu]. apply elem_of_app. left.
        rewrite fmap_app, elem_of_app. right. apply list_elem_of_fmap. exists (y, md).
        split; [done|]. by eapply list_elem_of_lookup_2.
    + by unfold locs; simpl.
  - split; [intros y Hy; apply Hns; set_solver|rewrite Hm; apply keeps_refl|].
    intros y Hy. apply Hrf. set_solver.
Qed.

Lemma own_head_read b h sh others regs :
  own b h sh others regs → dead sh = [] → peq (head b) (read b) = true.
Proof.
  intros [Hs _] E. apply bool_decide_eq_true. pose proof (s_dead _ _ _ Hs) as Hd.
  by rewrite E in Hd.
Qed.

Lemma own_head_dead b h sh others regs x nd d :
  own b h sh others regs → dead sh = (x, nd) :: d →
  head b = Some x ∧ hnodes h !! x = Some nd ∧ peq (head b) (read b) = false.
Proof.
  intros Ho E. pose proof (own_nodup _ _ _ _ _ Ho) as Hn. destruct Ho as [Hs _].
  pose proof (s_dead _ _ _ Hs) as Hd. rewrite E in Hd. destruct Hd as (->&Hx&_).
  split_and!; [done..|]. apply bool_decide_eq_false. intros Er.
  unfold locs in Hn. rewrite E, fmap_app in Hn. apply NoDup_app in Hn as (_&Hn&_).
  apply (Hn x); [set_solver|]. pose proof (s_lv _ _ _ Hs) as Hl. rewrite <- Er in Hl.
  destruct (lv sh) as [|[y md] l]; [done|]. destruct Hl as ([= ->]&_). set_solver.
Qed.

Lemma wp_release_head fuel : ∀ b h sh others regs (Q : unit → st → Prop),
  own b h sh others regs → (length (dead sh) < fuel)%nat →
  (∀ h', own (set_head (read b) b) h' (Sh [] (lv sh) (nf sh) (nw sh) (kd sh) (clean sh)) others regs →
     hmem h' = hmem h → frame others regs h h' → Q tt (St (set_head (read b) b) h')) →
  wp (release_head fuel) Q (St b h).
Proof.
  induction fuel as [|fuel IH]; intros b h sh others regs Q Ho Hf HQ; [lia|].
  simpl. wsteps. destruct (dead sh) as [|[x nd] d] eqn:Ed.
  - pose proof (own_head_read _ _ _ _ _ Ho Ed) as Hp. rewrite Hp. wsteps.
    apply bool_decide_eq_true in Hp.
    assert (set_head (read b) b = b) as Hset by (destruct b; simpl in *; by rewrite Hp).
    rewrite <- Hset. apply HQ; [|done|apply frame_refl]. rewrite Hset.
    destruct sh. simpl in *. by subst.
  - destruct (own_head_dead _ _ _ _ _ _ _ _ Ho Ed) as (Hh&Hx&->). rewrite Hh. wsteps.
    eapply wp_next_of; [exact Hx|]. wsteps. eapply own_release; [done..|].
    intros h' Ho' Hm Hfr1. eapply IH; [exact Ho'|simpl in *; lia|]. simpl.
    intros h2 Ho2 Hm2 Hfr. apply HQ; [done|congruence|].
    by eapply frame_trans.
Qed.

Lemma wp_free_all cs : ∀ h (Q : unit → heap → Prop),
  Q tt h → (∀ f, Q tt (set_freed f h)) → wp (free_all cs) Q h.
Proof.
  induction cs as [|c cs IH]; intros h Q H0 HQ; simpl; [done|].
  apply wp_bind, wp_free; intros; apply IH; try done; intros; apply HQ.
Qed.

Lemma lb_at_same b h sh others regs regs' R T bk b' h' sh' :
  lb_at b h sh others regs R T bk → moved (hmem h) sh sh' 0 (hmem h') →
  own b' h' sh' others (peek_reg b' ++ regs') →
  blength b' = blength b → mallocSize b' = mallocSize b → peek_ok b' h' R T →
  lb_at b' h' sh' others regs' R T bk.
Proof.
  intros [] [_ _ HR HT Hp] ????. rewrite zdrop_nonpos in HR, HT by lia.
  constructor; try done; congruence.
Qed.

Lemma own_fuel_dead b h sh others regs :
  own b h sh others regs → (length (dead sh) < nfuel h)%nat.
Proof.
  intros Ho. pose proof (own_nodup _ _ _ _ _ Ho) as Hn. destruct Ho as [Hs _].
  unfold locs in Hn. rewrite fmap_app, NoDup_app in Hn. destruct Hn as [Hn _].
  pose proof (lseg_size _ _ _ _ (s_dead _ _ _ Hs) Hn). unfold nfuel. lia.
Qed.

Lemma own_freed b h sh others regs f : own b h sh others regs → own b (set_freed f h) sh others regs.
Proof. intros [[] W]. split; [by constructor|by apply world_free]. Qed.

(** The caches are freed. *)
Lemma wp_free_caches b h sh others regs (Q : option lberr → st → Prop) :
  own b h sh others (peek_reg b ++ regs) →
  (∀ b' f, own b' (set_freed f h) sh others regs → cachePeek b' = None → caches b' = [] →
     blength b' = blength b → mallocSize b' = mallocSize b → Q None (St b' (set_freed f h))) →
  wp (_ ← H (free_all (caches b));
      _ ← setb (set_caches []);
      _ ← (match cachePeek b with
           | Some c => _ ← H (free c); setb (set_cachePeek None)
           | None => mret ()
           end);
      mret None) Q (St b h).
Proof.
  intros Ho HQ. assert (h = set_freed (hfreed h) h) as Eh by (by destruct h).
  assert (own b h sh others regs) as Ho'.
  { unfold peek_reg in Ho. destruct (cachePeek b); [by eapply own_drop|done]. }
  assert (∀ b' f, caches b' = [] → cachePeek b' = None → b' = LB (blength b) (mallocSize b)
    (head b) (read b) (flush b) (write b) [] None → Q None (St b' (set_freed f h))) as HQ'.
  { intros b' f ? ? ->. apply HQ; try done. eapply own_fields; [..|by apply own_freed]; done. }
  wsteps. apply wp_free_all; [rewrite Eh; set (f := hfreed h)|intros f]; wsteps;
    (destruct (cachePeek b) eqn:Ec; wsteps; [apply wp_free; intros; wsteps|]); apply HQ';
    done || by rewrite <- Ec.
Qed.

Lemma wp_Release_own b h sh others regs (Q : option lberr → st → Prop) :
  own b h sh others (peek_reg b ++ regs) →
  (∀ b' h' sh', own b' h' sh' others regs → moved (hmem h) sh sh' 0 (hmem h') →
     dead sh' = [] → frame others regs h h' → caches b' = [] → cachePeek b' = None →
     blength b' = blength b → mallocSize b' = mallocSize b → Q None (St b' h')) →
  wp Release Q (St b h).
Proof.
  intros Ho HQ. unfold Release. wsteps.
  eapply wp_release_read; [exact Ho|by eapply own_fuel|]. intros y sh1 Ho1 Hmv1. wsteps.
  eapply wp_release_head; [exact Ho1|by eapply own_fuel_dead|]. simpl.
  intros h2 Ho2 Hm2 Hfr2. apply wp_bind, wp_getb.
  eapply wp_free_caches; [exact Ho2|]. intros b3 f Ho3 Ep3 Ec3 El3 Em3.
  destruct Hmv1.
  eapply (HQ _ _ (Sh [] (lv sh1) (nf sh1) (nw sh1) (kd sh1) (clean sh1))); try done.
  - simpl. rewrite Hm2. by constructor.
  - eapply frame_trans; [fsub Hfr2|]. apply frame_mem; [done|]. apply keeps_refl.
Qed.

Lemma wp_Release b h sh others regs R T bk (Q : option lberr → st → Prop) :
  lb_at b h sh others regs R T bk →
  (∀ b' h' sh', lb_at b' h' sh' others regs R T bk → kd sh' = kd sh → clean sh' = clean sh →
     dead sh' = [] → frame others regs h h' → caches b' = [] → cachePeek b' = None →
     Q None (St b' h')) →
  wp Release Q (St b h).
Proof.
  intros Ha HQ. eapply wp_Release_own; [apply Ha|].
  intros b' h' sh' Ho' Hmv Hd Hfr Ec Ep El Em. apply (HQ b' h' sh'); try done; [|apply Hmv..].
  eapply (lb_at_same _ _ _ _ _ _ _ _ _ _ _ _ Ha); try done.
  - unfold peek_reg. by rewrite Ep.
  - unfold peek_ok. by rewrite Ep.
Qed.
End release.

(** ** Slice *)

Section slice.
Context {rt : Runtime} {rtok : RuntimeOk rt}.
Implicit Types (b : LinkBuffer) (h : heap) (sh : shape) (others : list loc)
  (regs : list region).

Lemma own_new_node b h h' sh others regs x nd :
  own b h sh others regs → x ∉ locs sh ++ others → hnodes h' = <[x := nd]> (hnodes h) →
  world h' (x :: locs sh ++ others) (nregion nd :: cregs (lv sh) ++ regs) →
  keeps (hmem h) (hmem h') (cregs (lv sh) ++ regs) →
  (∀ y, y ≠ x → refer_of h' y = refer_of h y) →
  own b h' sh (x :: others) (nregion nd :: regs) ∧ frame others regs h h'.
Proof.
  intros Ho Hx Hns W Hk Hrf. split; [eapply own_world; [exact Ho| |apply Hk| |]|].
  - intros y Hy. rewrite Hns, lookup_insert_ne; [done|]. intros ->. set_solver.
  - intros i y md _ Hi. rewrite Hrf; [done|]. intros ->. apply Hx, elem_of_app. left.
    by eapply locs_lv.
  - eapply world_perm; [| |exact W]; apply Permutation_middle.
  - split; [|ksub Hk|]; intros y Hy; assert (y ≠ x) by (intros ->; set_solver).
    + by rewrite Hns, lookup_insert_ne.
    + by rewrite Hrf.
Qed.

(** Storing to a node that is not one of the buffer. *)
Lemma own_update_other b h sh others regs y nd nd' :
  own b h sh others regs → y ∈ others → hnodes h !! y = Some nd → origin nd' = origin nd →
  own b (set_nodes (<[y := nd']> (hnodes h)) h) sh others regs.
Proof.
  intros Ho Hy Hn Ho'. pose proof (proj2 Ho) as W.
  eapply own_world; [exact Ho| |done|done|].
  - intros z Hz. simpl. apply lookup_insert_ne. intros <-.
    pose proof (w_nodup _ _ _ W) as Hnd. apply NoDup_app in Hnd as (_&Hnd&_). by eapply Hnd.
  - eapply world_update; [done| |done|done]. apply (w_live_pool _ _ _ W). set_solver.
Qed.

(** A node of a buffer that Slice made. *)
Record slice_node (m : mem) (nd : linkBufferNode) : Prop := SliceNode {
  sn_wf : node_wf m nd;
  sn_off : off nd = 0;
  sn_malloc : nmalloc nd = 0;
  sn_ro : getMode nd readonlyMask = true;
}.

Definition refer_node (nd : linkBufferNode) (n : Z) (o : loc) : linkBufferNode :=
  Node (Slice (sarr (buf nd)) (soff (buf nd) + off nd) n n) 0 0 readonlyMask (Some o) None.

Lemma refer_node_ok m nd n o : node_wf m nd → 0 <= n → n <= node_Len nd →
  slice_node m (refer_node nd n o) ∧ rb m (refer_node nd n o) = ztake n (rb m nd) ∧
  nregion (refer_node nd n o) =
    Region (sarr (buf nd)) (soff (buf nd) + off nd) (soff (buf nd) + off nd + n).
Proof.
  intros [] ??. unfold node_Len in *. split_and!.
  - constructor; try done. constructor; simpl; lia.
  - unfold rb, mget, refer_node. simpl. rewrite ztake_zsub by lia. f_equal; lia.
  - unfold nregion, node_top. simpl. rewrite Z.max_l by lia. f_equal. lia.
Qed.

(** [p.origin = o; o.refer++] for the origin [o] of the first node. *)
Lemma own_refer b h sh others regs q qd qd' x nd l o :
  own b h sh (q :: others) regs → hnodes h !! q = Some qd → origin qd = None →
  refer_of h q = 1 → lv sh = (x, nd) :: l → o = default x (origin nd) →
  origin qd' = Some o →
  let h' := set_refer (<[o := refer_of h o + 1]> (hrefer h)) (set_nodes (<[q := qd']> (hnodes h)) h) in
  own b h' sh (q :: others) regs ∧ frame others regs h h'.
Proof.
  intros Ho Hq Hqo Hrc El Eo Hqd' h'. pose proof (proj2 Ho) as W.
  destruct (own_head _ _ _ _ _ _ _ _ Ho El) as (_&Hnd&_). pose proof (locs_head _ _ _ _ El) as Hx.
  assert (world h (q :: locs sh ++ others) (cregs (lv sh) ++ regs)) as W'.
  { eapply world_perm; [|done|exact W]. symmetry. apply Permutation_middle. }
  pose proof (w_nodup _ _ _ W') as [Hql Hnd']%NoDup_cons.
  assert (x ∈ q :: locs sh ++ others) as Hx' by set_solver.
  assert (q ≠ x) as Hqx by (intros ->; set_solver).
  assert (∀ y, y ∈ locs sh ++ others → y ≠ x → refer_of h y = 1 → refer_of h' y = 1) as Hrf.
  { intros y Hy Hyx Hy1. unfold refer_of, h'. simpl. rewrite lookup_insert_ne; [done|]. intros <-.
    destruct (world_unreferred _ _ _ o x W'); [by right|done|done|by intros ->|].
    unfold origin_of. rewrite Hnd. simpl. destruct (origin nd); simpl in Eo; congruence. }
  split; [|split; [|apply keeps_refl|]].
  - eapply own_world; [exact Ho| |done| |].
    + intros y Hy. simpl. apply lookup_insert_ne. intros <-. set_solver.
    + intros i y md Hi Hl. apply Hrf; [apply elem_of_app; left; by eapply locs_lv|].
      intros ->. pose proof (own_nodup_lv _ _ _ _ _ Ho) as Hn. rewrite El in Hl, Hn.
      destruct i as [|i]; [by apply unread_0 in Hi|]. apply NoDup_cons in Hn as [Hn _]. apply Hn.
      apply list_elem_of_fmap. exists (x, md). split; [done|]. by eapply list_elem_of_lookup_2.
    + eapply world_perm; [apply Permutation_middle|done|].
      destruct (origin nd) as [o'|] eqn:Eor; simpl in Eo; subst o.
      * assert (origin_of (hnodes h) x = Some o') as Exo by (unfold origin_of; by rewrite Hnd).
        destruct (w_origin _ _ _ W' x o' Hx' Exo) as (?&ond&?&?).
        eapply world_refer; try done. intros ->.
        by destruct (world_unreferred _ _ _ q x W'); [left|..].
      * eapply world_refer; try done. by apply (w_live_pool _ _ _ W').
  - intros y Hy. simpl. apply lookup_insert_ne. intros <-. set_solver.
  - intros y Hy. apply Hrf; [set_solver|]. intros ->. apply NoDup_app in Hnd' as (_&Hd&_).
    by eapply Hd.
Qed.

Lemma wp_node_Refer b h sh others regs x nd l n (Q : loc → heap → Prop) :
  own b h sh others regs → lv sh = (x, nd) :: l → 0 <= n → n <= node_Len nd →
  (∀ q o h', own b h' (advance_sh sh x nd l n) (q :: others) (nregion (refer_node nd n o) :: regs) →
     hnodes h' !! q = Some (refer_node nd n o) →
     keeps (hmem h) (hmem h') (cregs (lv sh) ++ regs) → frame others regs h h' → Q q h') →
  wp (node_Refer (Some x) n) Q h.
Proof.
  intros Ho El Hn0 Hn HQ. unfold node_Refer. apply wp_bind.
  eapply wp_newLinkBufferNode; [apply Ho|]. intros q h1 qd Hq Hns1 Hnn W1 Hk1 Hrc1 Hrf1.
  destruct (own_new_node _ _ _ _ _ _ _ _ Ho Hq Hns1 W1 Hk1 Hrf1) as [Ho1 Hfr1]. apply own_drop in Ho1.
  destruct (own_head _ _ _ _ _ _ _ _ Ho1 El) as (_&Hx1&Hw1&_).
  assert (q ≠ x) as Hqx. { intros ->. apply Hq. pose proof (locs_head _ _ _ _ El). set_solver. }
  apply wp_bind. eapply wp_node_Next; [exact Hx1|apply Hw1|done|destruct Hw1; unfold node_Len in *; lia|].
  pose proof (own_advance _ _ _ _ _ _ _ _ n Ho1 El Hn0 Hn) as Ho2.
  set (h2 := set_nodes _ h1) in *.
  assert (hnodes h2 !! q = Some qd) as Hq2.
  { simpl. rewrite lookup_insert_ne by done. by rewrite Hns1, lookup_insert_eq. }
  apply wp_bind. eapply wp_update; [exact Hq2|].
  set (qd3 := set_buf _ qd). set (h3 := set_nodes _ h2).
  assert (own b h3 (advance_sh sh x nd l n) (q :: others) (Region (sarr (buf nd))
    (soff (buf nd) + off nd) (soff (buf nd) + off nd + n) :: regs)) as Ho3.
  { eapply own_update_other; [exact Ho2|left|done|done]. }
  destruct (own_head _ _ _ _ _ _ _ _ Ho3 eq_refl) as (_&Hx3&_).
  apply wp_bind. eapply wp_load; [exact Hx3|]. simpl origin. apply wp_bind.
  assert (∀ o (Q : loc → heap → Prop), o = default x (origin nd) → Q o h3 →
    wp (match origin nd with Some o => mret o | None => loc_of (Some x) end) Q h3) as Hor.
  { intros o Q' -> ?. by destruct (origin nd). }
  set (o := default x (origin nd)). apply (Hor o); [done|]. clear Hor.
  assert (hnodes h3 !! q = Some qd3) as Hq3 by apply lookup_insert_eq.
  apply wp_bind. eapply wp_update; [exact Hq3|]. apply wp_bind, wp_modify, wp_ret.
  destruct (refer_node_ok (hmem h1) nd n o Hw1 Hn0 Hn) as (_&_&Hreg). destruct Hnn.
  assert (set_origin (Some o) qd3 = refer_node nd n o) as Eqd.
  { destruct (nn_ro ltac:(done)) as [_ Em]. unfold set_origin, qd3, refer_node. simpl. congruence. }
  destruct (own_refer _ h3 _ _ _ q qd3 (set_origin (Some o) qd3) x _ _ o Ho3 Hq3 nn_origin Hrc1 eq_refl
    eq_refl eq_refl) as [Ho4 Hfr4].
  apply (HQ q o).
  - rewrite Hreg. exact Ho4.
  - simpl. rewrite Eqd. apply lookup_insert_eq.
  - exact Hk1.
  - eapply frame_trans; [exact Hfr1|]. eapply frame_trans; [|fsub Hfr4].
    eapply frame_trans; [eapply (frame_sub (q :: others) _ regs regs); [set_solver|done|]|].
    + eapply own_frame_node; [exact Ho1|by eapply locs_head].
    + split; [|apply keeps_refl|done]. intros y Hy. simpl. apply lookup_insert_ne.
      intros <-. set_solver.
Qed.

(** A new node refers to the next [k] bytes. *)
Lemma wp_cut_refer n k r bk others regs b h sh R P x nd l (Q : loc → heap → Prop) :
  cut n r bk others regs b h sh R P → lv sh = (x, nd) :: l → 0 <= k → k <= node_Len nd →
  (∀ q qd h', cut (n - k) r bk (q :: others) (nregion qd :: regs) b h'
       (advance_sh sh x nd l k) (zdrop k R) P →
     hnodes h' !! q = Some qd → next qd = None → slice_node (hmem h') qd →
     rb (hmem h') qd = ztake k R → frame others regs h h' → Q q h') →
  wp (node_Refer (Some x) k) Q h.
Proof.
  intros Hc El Hk0 Hk HQ. pose proof (c_own _ _ _ _ _ _ _ _ _ _ Hc) as Ho.
  destruct (own_head _ _ _ _ _ _ _ _ Ho El) as (_&_&Hw&_).
  pose proof (c_Rd _ _ _ _ _ _ _ _ _ _ Hc) as ER. rewrite El, Rd_cons in ER.
  assert (zlen (rb (hmem h) nd) = node_Len nd) as Ezl by (by rewrite zlen_rb).
  eapply wp_node_Refer; [done..|]. intros q o h' Ho' Hq Hks Hfr.
  destruct (rb_fb_region (hmem h) (hmem h') nd Hw) as [Erb _].
  { pose proof (k_get _ _ _ Hks) as Hg. rewrite Forall_forall in Hg. apply Hg.
    rewrite El. left. }
  assert (node_wf (hmem h') nd) by (eapply node_wf_le; [apply Hks|done]).
  destruct (refer_node_ok (hmem h') nd k o) as (Hsn&Hrb&_); [done..|].
  apply (HQ q (refer_node nd k o)); try done.
  - eapply cut_moved; [exact Hc|done| | | |done..].
    + rewrite <- ER, zlen_app. pose proof (zlen_nonneg (Rd (hmem h) l)). lia.
    + assert (moved (hmem h) sh sh 0 (hmem h')) as Hmv.
      { eapply moved_keeps; [exact Ho|apply moved_refl|]. ksub Hks. }
      eapply (moved_trans _ _ 0 _ _ k); [exact Hmv|by apply moved_advance|lia..].
    + eapply own_perm; [|exact Ho']. apply Permutation_middle.
  - by rewrite Hrb, Erb, <- ER, ztake_app_le by lia.
  - fsub Hfr.
Qed.

(** The chain of new nodes, which ends with the node [pf]. *)
Record sliced h (node pf : loc) (ns : list cell) : Prop := Sliced {
  sl_seg : lseg (hnodes h) (Some node) ns None;
  sl_last : ∃ ns0 pd, ns = ns0 ++ [(pf, pd)];
  sl_nodes : Forall (λ c : cell, slice_node (hmem h) c.2) ns;
}.

(** [pf.next = q] *)
Definition linked (ns : list cell) (q : loc) (qd : linkBufferNode) : list cell :=
  match reverse ns with
  | (pf, pd) :: rs => reverse rs ++ [(pf, set_next (Some q) pd); (q, qd)]
  | [] => [(q, qd)]
  end.

Lemma linked_snoc ns0 pf pd q qd :
  linked (ns0 ++ [(pf, pd)]) q qd = ns0 ++ [(pf, set_next (Some q) pd); (q, qd)].
Proof. unfold linked. by rewrite reverse_snoc, reverse_involutive. Qed.

Lemma linked_foot m ns0 pf pd q qd :
  let ns := ns0 ++ [(pf, pd)] in
  (linked ns q qd).*1 = ns.*1 ++ [q] ∧
  cregs (linked ns q qd) = cregs ns ++ [nregion qd] ∧
  Rd m (linked ns q qd) = Rd m ns ++ rb m qd.
Proof.
  simpl. rewrite linked_snoc. unfold cregs. rewrite !fmap_app, <- !app_assoc. split_and!; try done.
  rewrite !Rd_app, <- app_assoc. f_equal. rewrite !Rd_cons. unfold Rd. simpl. by rewrite !app_nil_r.
Qed.

Lemma sliced_mono h h' node pf ns :
  sliced h node pf ns → frame ns.*1 (cregs ns) h h' →
  sliced h' node pf ns ∧ Rd (hmem h') ns = Rd (hmem h) ns.
Proof.
  intros [Hs Hl Hn] [Hf Hk _]. split; [constructor|].
  - by eapply lseg_frame.
  - done.
  - eapply Forall_impl; [exact Hn|]. intros c []. split; try done.
    eapply node_wf_le; [apply Hk|done].
  - apply Rd_Tb_keeps; [|done]. intros i x nd Hi.
    rewrite Forall_forall in Hn. apply (Hn (x, nd)). by eapply list_elem_of_lookup_2.
Qed.

Lemma sliced_link h node pf pd ns0 q qd :
  let ns := ns0 ++ [(pf, pd)] in
  sliced h node pf ns → NoDup (q :: ns.*1) →
  hnodes h !! q = Some qd → next qd = None → slice_node (hmem h) qd →
  sliced (set_nodes (<[pf := set_next (Some q) pd]> (hnodes h)) h) node q (linked ns q qd).
Proof.
  intros ns [Hs _ Hn] Hnd Hq Enx Hqd. apply NoDup_cons in Hnd as [Hqn Hnd].
  unfold ns in *. rewrite linked_snoc. rewrite fmap_app in Hnd, Hqn. simpl in Hqn.
  apply NoDup_app in Hnd as (_&Hd&_). constructor; simpl.
  - eapply lseg_relink; [|set_solver|exact Hs|].
    + intros Hp. eapply Hd; [exact Hp|]. set_solver.
    + simpl. done.
  - exists (ns0 ++ [(pf, set_next (Some q) pd)]), qd. by rewrite <- app_assoc.
  - apply Forall_app in Hn as [Hn0 Hp]. apply Forall_app. split; [done|].
    constructor; [|by constructor]. apply Forall_cons in Hp as [[[]] _]. by constructor.
Qed.

Lemma cut_perm n r bk others others' regs regs' b h sh R P :
  others ≡ₚ others' → regs ≡ₚ regs' →
  cut n r bk others regs b h sh R P → cut n r bk others' regs' b h sh R P.
Proof.
  intros Ho Hr []. constructor; try done. destruct c_own as [? W]. split; [done|].
  eapply world_perm; [| |exact W]; by rewrite ?Ho, ?Hr.
Qed.

Lemma cut_others n r bk others regs b h sh R P :
  cut n r bk others regs b h sh R P → NoDup others.
Proof.
  intros Hc. pose proof (w_nodup _ _ _ (proj2 (c_own _ _ _ _ _ _ _ _ _ _ Hc))) as Hn.
  by apply NoDup_app in Hn as (_&_&?).
Qed.

Lemma wp_slice_step n k r bk others regs b h sh R P x nd l node pf ns (Q : option loc → st → Prop) :
  cut n r bk (ns.*1 ++ others) (cregs ns ++ regs) b h sh R P → lv sh = (x, nd) :: l →
  0 <= k → k <= node_Len nd → sliced h node pf ns →
  (∀ q ns' h', cut (n - k) r bk (ns'.*1 ++ others) (cregs ns' ++ regs) b h'
       (advance_sh sh x nd l k) (zdrop k R) P →
     sliced h' node q ns' → Rd (hmem h') ns' = Rd (hmem h) ns ++ ztake k R →
     frame others regs h h' → Q (Some q) (St b h')) →
  wp (y ← H (node_Refer (Some x) k);
      _ ← H (update (Some pf) (set_next (Some y)));
      mret (Some y)) Q (St b h).
Proof.
  intros Hc El Hk0 Hk Hsl HQ. destruct (sl_last _ _ _ _ Hsl) as (ns0&pd&Ens). wsteps.
  eapply wp_cut_refer; [exact Hc|done..|]. intros q qd h1 Hc1 Hq Enx Hsn Hrb Hfr. wsteps.
  destruct (sliced_mono h h1 node pf ns Hsl) as [Hsl1 ERd].
  { fsub Hfr. }
  pose proof (cut_others _ _ _ _ _ _ _ _ _ _ Hc1) as Hnd.
  assert (NoDup (q :: ns.*1)) as Hnq.
  { rewrite app_comm_cons in Hnd. by apply NoDup_app in Hnd as [? _]. }
  assert (pf ∈ ns.*1) as Hpf by (rewrite Ens, fmap_app; set_solver).
  assert (hnodes h1 !! pf = Some pd) as Hpd.
  { eapply lseg_lookup; [apply Hsl1|]. rewrite Ens. by apply list_lookup_middle. }
  eapply wp_update; [exact Hpd|]. wsteps. set (h2 := set_nodes _ h1).
  destruct (linked_foot (hmem h1) ns0 pf pd q qd) as (F1&F2&F3). rewrite <- Ens in F1, F2, F3.
  apply (HQ q (linked ns q qd)).
  - rewrite F1, F2. apply (cut_perm _ _ _ (q :: ns.*1 ++ others) _ (nregion qd :: cregs ns ++ regs)).
    { rewrite <- app_assoc. apply Permutation_middle. }
    { rewrite <- app_assoc. apply Permutation_middle. }
    destruct Hc1. constructor; try done. eapply own_update_other; [done| |done|done]. set_solver.
  - rewrite Ens in *. by apply sliced_link.
  - change (hmem h2) with (hmem h1). by rewrite F3, ERd, Hrb.
  - eapply frame_trans; [fsub Hfr|].
    split; [|apply keeps_refl|done]. intros y Hy. simpl. apply lookup_insert_ne. intros <-.
    rewrite app_comm_cons in Hnd. apply NoDup_app in Hnd as (_&Hnd&_). eapply Hnd; [|exact Hy]. by right.
Qed.

(** All of the bytes of the first node. *)
Lemma wp_slice_visit n r bk others regs b h sh R P x nd l node pf ns (Q : option loc → st → Prop) :
  cut n r bk (ns.*1 ++ others) (cregs ns ++ regs) b h sh R P → lv sh = (x, nd) :: l →
  0 <= node_Len nd → sliced h node pf ns →
  (∀ q ns' h', cut (n - node_Len nd) r bk (ns'.*1 ++ others) (cregs ns' ++ regs) b h'
       (advance_sh sh x nd l (node_Len nd)) (zdrop (node_Len nd) R) P →
     sliced h' node q ns' → Rd (hmem h') ns' = Rd (hmem h) ns ++ ztake (node_Len nd) R →
     frame others regs h h' → Q (Some q) (St b h')) →
  wp (if 0 <? node_Len nd then
        y ← H (node_Refer (Some x) (node_Len nd));
        _ ← H (update (Some pf) (set_next (Some y)));
        mret (Some y)
      else mret (Some pf)) Q (St b h).
Proof.
  intros Hc El Hl Hsl HQ. destruct (Z.ltb_spec 0 (node_Len nd)).
  - eapply wp_slice_step; done || lia.
  - assert (node_Len nd = 0) as E by lia. rewrite E in HQ. wsteps. eapply HQ; [|done| |apply frame_refl].
    + rewrite Z.sub_0_r, zdrop_nonpos by lia.
      assert (advance_sh sh x nd l 0 = sh) as ->; [|done].
      unfold advance_sh. rewrite Z.add_0_r. destruct sh, nd. simpl in *. by rewrite El.
    + by rewrite ztake_nonpos, app_nil_r by lia.
Qed.

Lemma wp_slice_loop fuel : ∀ r bk others regs b h sh R P ack node pf ns (Q : option loc → st → Prop),
  cut ack r bk (ns.*1 ++ others) (cregs ns ++ regs) b h sh R P →
  0 <= ack → ack <= zlen R → sliced h node pf ns → (length (lv sh) < fuel)%nat →
  (∀ q ns' b' h' sh', cut 0 r bk (ns'.*1 ++ others) (cregs ns' ++ regs) b' h' sh' (zdrop ack R) P →
     sliced h' node q ns' → Rd (hmem h') ns' = Rd (hmem h) ns ++ ztake ack R →
     frame others regs h h' → Q (Some q) (St b' h')) →
  wp (slice_loop fuel ack (Some pf)) Q (St b h).
Proof.
  induction fuel as [|fuel IH];
    intros r bk others regs b h sh R P ack node pf ns Q Hc Hack HackR Hsl Hf HQ; [lia|].
  simpl. destruct (Z.leb_spec ack 0).
  { wsteps. assert (ack = 0) as -> by lia.
    eapply HQ; [by rewrite zdrop_nonpos by lia|done| |apply frame_refl].
    by rewrite ztake_nonpos, app_nil_r by lia. }
  pose proof (c_own _ _ _ _ _ _ _ _ _ _ Hc) as Ho.
  pose proof (c_Rd _ _ _ _ _ _ _ _ _ _ Hc) as ER.
  destruct (lv sh) as [|[x nd] l] eqn:El; [rewrite <- ER in HackR; simpl in HackR; zl|].
  destruct (own_head _ _ _ _ _ _ _ _ Ho El) as (Hr&Hx&Hw&_).
  assert (0 <= node_Len nd) by (destruct Hw; unfold node_Len; lia).
  wsteps. rewrite Hr. eapply wp_load; [exact Hx|]. destruct (Z.leb_spec ack (node_Len nd)).
  - eapply wp_slice_step; [exact Hc|done..|]. intros q ns' h' Hc' Hsl' ER' Hfr.
    eapply HQ; [|done..]. by rewrite Z.sub_diag in Hc'.
  - destruct (own_more _ _ _ _ _ _ _ _ Ho (c_clean _ _ _ _ _ _ _ _ _ _ Hc) El) as (i&j&Ei&Ej&_).
    { rewrite El, ER. lia. }
    apply wp_bind. eapply wp_slice_visit; [exact Hc|done..|]. intros pf1 ns1 h1 Hc1 Hsl1 ER1 Hfr1.
    destruct (own_head _ _ _ _ _ _ _ _ (c_own _ _ _ _ _ _ _ _ _ _ Hc1) eq_refl) as (_&Hx1&_).
    wsteps. eapply wp_next_of; [exact Hx1|]. wsteps.
    eapply IH; [eapply cut_pop; [exact Hc1|done|exact Ei|exact Ej|]|lia| |exact Hsl1|simpl in *; lia|].
    { unfold node_Len. simpl. unfold node_Len. lia. }
    { rewrite zlen_zdrop. lia. }
    intros q ns' b' h' sh' Hc2 Hsl2 ER2 Hfr2.
    rewrite zdrop_zdrop in Hc2 by lia. replace (node_Len nd + (ack - node_Len nd)) with ack in Hc2 by lia.
    eapply HQ; [exact Hc2|done| |by eapply frame_trans].
    rewrite ER2, ER1, <- app_assoc. f_equal. rewrite <- ztake_add by lia. f_equal. lia.
Qed.
End slice.

(** ** Two buffers in one heap *)

Section beside.
Implicit Types (b p : LinkBuffer) (h : heap) (sh : shape) (others : list loc)
  (regs : list region).

Definition foot b sh : list region := cregs (lv sh) ++ peek_reg b.

(** The buffer of [s], which holds [R] and [P], and the buffer [p], which
    holds [Rp] and [Pp], own separate nodes and separate memory. *)
Definition beside (s : st) (r : kind) (bk : Z) (R P : list byte)
    p (rp : kind) (bkp : Z) (Rp Pp : list byte) others regs : Prop :=
  ∃ sh shp,
    lb_at (lb s) (hp s) sh (locs shp ++ others) (foot p shp ++ regs) R (R ++ P) bk ∧
    kd sh = r ∧ clean sh = true ∧
    lb_at p (hp s) shp (locs sh ++ others) (foot (lb s) sh ++ regs) Rp (Rp ++ Pp) bkp ∧
    kd shp = rp ∧ clean shp = true.

Lemma beside_sym s r bk R P p rp bkp Rp Pp others regs :
  beside s r bk R P p rp bkp Rp Pp others regs →
  beside (St p (hp s)) rp bkp Rp Pp (lb s) r bk R P others regs.
Proof. intros (sh&shp&?&?&?&?&?&?). by exists shp, sh. Qed.

(** A buffer keeps its bytes when only the rest of the heap changes. *)
Lemma lb_at_frame p h h' shp others others' regs regs' R T bk :
  lb_at p h shp others regs R T bk →
  frame (locs shp) (foot p shp) h h' →
  world h' (locs shp ++ others') (cregs (lv shp) ++ peek_reg p ++ regs') →
  lb_at p h' shp others' regs' R T bk.
Proof.
  intros [Ho HR HT ?? Hpk] [Hns Hk Hrf] W. destruct (Rd_Tb_keeps (hmem h) (hmem h') (lv shp)) as [E1 E2].
  { intros i x nd Hi. destruct Ho as [Hs _]. by eapply (s_nodes _ _ _ Hs). }
  { unfold foot in Hk. ksub Hk. }
  constructor; try done; try congruence.
  - eapply own_world; [exact Ho|done|apply Hk| |done]. intros i y nd _ Hi. apply Hrf.
    by eapply locs_lv.
  - eapply peek_ok_keeps; [exact Ho| |done]. unfold foot in Hk. ksub Hk.
Qed.

Lemma world_swap h sh shp b p others regs :
  world h (locs sh ++ locs shp ++ others) (cregs (lv sh) ++ peek_reg b ++ foot p shp ++ regs) →
  world h (locs shp ++ locs sh ++ others) (cregs (lv shp) ++ peek_reg p ++ foot b sh ++ regs).
Proof.
  unfold foot. intros W. eapply world_perm; [apply Permutation_app_swap_app| |exact W].
  rewrite (app_assoc (cregs (lv sh))), (app_assoc (cregs (lv shp)) _ (_ ++ _)).
  apply Permutation_app_swap_app.
Qed.

(** What an operation does to a buffer, it does in the presence of another
    one, which it leaves alone. *)
Lemma beside_step s r bk R P p rp bkp Rp Pp others regs :
  beside s r bk R P p rp bkp Rp Pp others regs →
  ∃ L rg, buffer r bk (L ++ others) (rg ++ regs) s R P ∧
    ∀ s' r' bk' R' P' regs',
      buffer r' bk' (L ++ others) (rg ++ regs') s' R' P' →
      frame (L ++ others) (rg ++ regs) (hp s) (hp s') →
      beside s' r' bk' R' P' p rp bkp Rp Pp others regs'.
Proof.
  intros (sh&shp&Ha&Hr&Hc&Hap&Hrp&Hcp). exists (locs shp), (foot p shp). split; [by exists sh|].
  intros s' r' bk' R' P' regs' (sh'&Ha'&Hr'&Hc') Hfr. exists sh', shp. split_and!; try done.
  eapply lb_at_frame; [exact Hap|fsub Hfr|]. apply world_swap, Ha'.
Qed.
End beside.

Section slice_op.
Context {rt : Runtime} {rtok : RuntimeOk rt}.
Implicit Types (b : LinkBuffer) (h : heap) (sh : shape) (others : list loc)
  (regs : list region).

(** The buffer made of the new nodes. *)
Definition slice_buf (n : Z) (node : loc) : LinkBuffer :=
  LB n 0 (Some node) (Some node) None None [] None.

Lemma slice_node_pos m nd len i : slice_node m nd → (i < len)%nat →
  pos_ok (Sh [] [] len len KSlice true) i nd.
Proof.
  intros [[] ? Hm _] Hi. constructor; unfold ro, plain; simpl; intros; try done; try lia.
Qed.

Lemma sliced_beside r bk others regs b h R P node pf ns :
  buffer r bk (ns.*1 ++ others) (cregs ns ++ regs) (St b h) R P → sliced h node pf ns →
  beside (St b h) r bk R P (slice_buf (zlen (Rd (hmem h) ns)) node) KSlice 0 (Rd (hmem h) ns) [] others regs.
Proof.
  intros (sh&Ha&?&?) [Hs _ Hn].
  set (shp := Sh [] ns (length ns) (length ns) KSlice true).
  assert (∀ i x nd, ns !! i = Some (x, nd) → slice_node (hmem h) nd) as Hn'.
  { intros i x nd Hi. rewrite Forall_forall in Hn. apply (Hn (x, nd)). by eapply list_elem_of_lookup_2. }
  exists sh, shp. unfold foot. simpl. rewrite app_nil_r. split_and!; try done. constructor.
  - split.
    + constructor; simpl; try done.
      * by rewrite lookup_ge_None_2 by (by rewrite length_fmap).
      * by rewrite lookup_ge_None_2 by (by rewrite length_fmap).
      * intros i x nd Hi. pose proof (Hn' i x nd Hi) as Hsn. split; [apply Hsn|].
        apply lookup_lt_Some in Hi. by destruct (slice_node_pos _ _ _ _ Hsn Hi).
      * intros i x nd Hlt Hi. apply lookup_lt_Some in Hi. destruct Hlt as [|[]]; simpl in *; lia.
    + pose proof (world_swap h sh shp b (slice_buf 0 node) others regs) as Hsw.
      unfold foot in Hsw. simpl in Hsw. rewrite app_nil_r in Hsw. apply Hsw. apply Ha.
  - done.
  - simpl. rewrite app_nil_r. clear -Hn'. induction ns as [|[x nd] ns IH]; [done|].
    rewrite Rd_cons, Tb_cons, IH by (intros i; apply (Hn' (S i))).
    destruct (Hn' 0%nat x nd eq_refl) as [[] ? Hm _]. by rewrite fb_flushed by lia.
  - done.
  - simpl. by rewrite drop_all.
  - done.
Qed.

Lemma sliced_last h node pf ns (Q : option loc → st → Prop) b :
  sliced h node pf ns → Q None (St b h) → wp (next_of (Some pf)) Q (St b h).
Proof.
  intros [Hs (ns0&pd&->) _] HQ. apply lseg_app in Hs as (x&_&->&Hp&En).
  eapply wp_next_of; [exact Hp|]. by rewrite En.
Qed.

Lemma sliced_one h q qd : hnodes h !! q = Some qd → next qd = None → slice_node (hmem h) qd →
  sliced h q q [(q, qd)] ∧ Rd (hmem h) [(q, qd)] = rb (hmem h) qd.
Proof.
  intros Hq En Hs. split; [|by unfold Rd; simpl; rewrite app_nil_r].
  constructor; [done|by exists [], qd|by constructor].
Qed.

(** The rest of Slice, with the first node made. *)
Lemma wp_slice_tail r bk others regs b h sh R P n m node pf ns
    (Q : option LinkBuffer * option lberr → st → Prop) :
  cut n r bk (ns.*1 ++ others) (cregs ns ++ regs) b h sh R P → sliced h node pf ns →
  0 <= n → n <= zlen R →
  (∀ s', let Rp := Rd (hmem h) ns ++ ztake n R in
     (m = zlen Rp → beside s' r bk (zdrop n R) P (slice_buf m node) KSlice 0 Rp [] others regs) →
     frame others regs h (hp s') → Q (Some (slice_buf m node), None) s') →
  wp (fuel ← fuel_of;
      pf ← slice_loop fuel n (Some pf);
      err ← Release;
      f ← next_of pf;
      mret (Some (LB m 0 (Some node) (Some node) f f [] None), err)) Q (St b h).
Proof.
  intros Hc Hsl Hn HnR HQ. wsteps.
  eapply wp_slice_loop; [exact Hc|done..|eapply own_fuel, Hc|].
  intros q ns' b1 h1 sh1 Hc1 Hsl1 ER1 Hfr1. wsteps.
  destruct (cut_buffer _ _ _ _ _ _ _ _ _ Hc1) as (sh2&Ha2&Hr2&Hcl2). cbn [lb hp] in Ha2.
  eapply wp_Release; [exact Ha2|]. intros b3 h3 sh3 Ha3 Hr3 Hcl3 _ Hfr3 _ _. wsteps.
  destruct (sliced_mono h1 h3 node q ns' Hsl1) as [Hsl3 ER3]; [fsub Hfr3|].
  eapply sliced_last; [exact Hsl3|]. wsteps.
  apply HQ; [|eapply frame_trans; [exact Hfr1|fsub Hfr3]].
  intros ->. rewrite <- ER1, <- ER3. eapply sliced_beside; [|exact Hsl3].
  exists sh3. split_and!; [done|congruence..].
Qed.

Lemma wp_Slice r bk others regs b h R P n (Q : option LinkBuffer * option lberr → st → Prop) :
  buffer r bk others regs (St b h) R P → 0 < n → n <= zlen R →
  (∀ p s', beside s' r bk (zdrop n R) P p KSlice 0 (ztake n R) [] others regs →
     frame others regs h (hp s') → Q (Some p, None) s') →
  wp (Slice_ n) Q (St b h).
Proof.
  intros Hb Hn HnR HQ. pose proof (buffer_len _ _ _ _ _ _ _ _ Hb) as El.
  unfold Slice_. destruct (Z.leb_spec n 0); [lia|]. wsteps. unfold Len. rewrite El.
  destruct (Z.ltb_spec (zlen R) n); [lia|]. wsteps.
  eapply wp_start_read; [done..|]. intros _ b1 sh1 Hc1. wsteps.
  eapply wp_cut_single; [done..|]. intros b2 sh2 x nd l Hc2 El2 Hr2 Hnd. wsteps.
  assert (zlen (ztake n R) = n) as Ezn by (rewrite zlen_ztake; lia).
  destruct (Z.leb_spec n (node_Len nd)); wsteps; rewrite Hr2.
  - eapply wp_cut_refer; [exact Hc2|done|lia|done|]. intros q qd h3 Hc3 Hq Enx Hsn Hrb Hfr.
    destruct (sliced_one _ _ _ Hq Enx Hsn) as [Hsl ERd]. rewrite Hrb in ERd. wsteps.
    eapply sliced_last; [exact Hsl|]. wsteps. rewrite Z.sub_diag in Hc3.
    apply cut_buffer in Hc3. 
    pose proof (sliced_beside _ _ others regs _ _ _ _ _ _ [(q, qd)] Hc3 Hsl) as Hbs.
    rewrite ERd, Ezn in Hbs. by apply HQ.
  - destruct (own_head _ _ _ _ _ _ _ _ (c_own _ _ _ _ _ _ _ _ _ _ Hc2) El2) as (_&Hx&_).
    eapply wp_load; [exact Hx|]. wsteps.
    destruct (own_more _ _ _ _ _ _ _ _ (c_own _ _ _ _ _ _ _ _ _ _ Hc2)
      (c_clean _ _ _ _ _ _ _ _ _ _ Hc2) El2) as (i&j&Ei&Ej&_).
    { rewrite (c_Rd _ _ _ _ _ _ _ _ _ _ Hc2). lia. }
    eapply (wp_cut_refer n (node_Len nd)); [exact Hc2|done|lia|lia|].
    intros q qd h3 Hc3 Hq Enx Hsn Hrb Hfr3.
    destruct (own_head _ _ _ _ _ _ _ _ (c_own _ _ _ _ _ _ _ _ _ _ Hc3) eq_refl) as (_&Hx3&_).
    destruct (sliced_one _ _ _ Hq Enx Hsn) as [Hsl ERd]. rewrite Hrb in ERd.
    wsteps. eapply wp_next_of; [exact Hx3|]. apply wp_bind, wp_setb. cbv beta.
    assert (cut (n - node_Len nd) r bk ([(q, qd)].*1 ++ others) (cregs [(q, qd)] ++ regs)
      (set_read (next nd) b2) h3 (Sh (dead sh2 ++ [(x, set_off (off nd + node_Len nd) nd)]) l i j
        (kd sh2) (clean sh2)) (zdrop (node_Len nd) R) P) as Hc4.
    { refine (cut_pop _ _ _ _ _ _ _ _ _ _ _ _ _ i j Hc3 eq_refl Ei Ej _).
      unfold node_Len. simpl. unfold node_Len. lia. }
    eapply wp_slice_tail; [exact Hc4|exact Hsl|lia|rewrite zlen_zdrop; lia|].
    intros s' Rp Hbs Hfr. unfold Rp in Hbs. rewrite ERd in Hbs.
    rewrite zdrop_zdrop in Hbs by lia. rewrite <- ztake_add in Hbs by lia.
    replace (node_Len nd + (n - node_Len nd)) with n in Hbs by lia.
    apply HQ; [by apply Hbs|]. by eapply frame_trans.
Qed.
End slice_op.
