(* ===== verification/LinkWrite.v ===== *)
(** * Writing to a link buffer

    The methods that allocate memory behind b.write, and Flush, which makes
    what was allocated readable. *)

From S2P Require Import Prelude GoMem LinkNode LinkBuffer LinkHeap LinkInv LinkRead LinkScan LinkSlice.

Open Scope Z_scope.

Section tail.
Context {rt : Runtime} {rtok : RuntimeOk rt}.
Implicit Types (b : LinkBuffer) (h : heap) (sh : shape) (others : list loc)
  (regs : list region).

(** The node b.write points to. *)
Definition at_write sh (l1 : list cell) (w : loc) (wd : linkBufferNode) (l2 : list cell) : Prop :=
  lv sh = l1 ++ (w, wd) :: l2 ∧ length l1 = nw sh.

Lemma own_write b h sh others regs :
  own b h sh others regs → ro sh = false →
  ∃ l1 w wd l2, at_write sh l1 w wd l2 ∧ write b = Some w ∧ hnodes h !! w = Some wd ∧
    node_wf (hmem h) wd ∧ pos_ok sh (nw sh) wd ∧ (nf sh ≤ nw sh)%nat ∧ lv sh !! nw sh = Some (w, wd).
Proof.
  intros [Hs _] Hro. pose proof (s_idx _ _ _ Hs) as Hi. rewrite Hro in Hi. destruct Hi as [??].
  destruct (lookup_lt_is_Some_2 (lv sh) (nw sh)) as [[w wd] Hw]; [lia|].
  destruct (s_nodes _ _ _ Hs _ _ _ Hw) as [??].
  exists (take (nw sh) (lv sh)), w, wd, (drop (S (nw sh)) (lv sh)). split_and!; try done.
  - split; [by rewrite take_drop_middle|]. rewrite length_take. lia.
  - by rewrite (s_write _ _ _ Hs), list_lookup_fmap, Hw.
  - eapply lseg_lookup; [apply (s_lv _ _ _ Hs)|exact Hw].
Qed.

(** What follows b.write is empty. *)
Lemma own_rest b h sh others regs l1 w wd l2 :
  own b h sh others regs → at_write sh l1 w wd l2 → ∀ i x nd, l2 !! i = Some (x, nd) →
  off nd = 0 ∧ slen (buf nd) = 0 ∧ nmalloc nd = 0.
Proof.
  intros [Hs _] [El E1] i x nd Hi.
  destruct (s_nodes _ _ _ Hs (S (length l1 + i)) x nd) as [_ Hp].
  - rewrite El, lookup_app_r by lia. replace (S (length l1 + i) - length l1)%nat with (S i) by lia. done.
  - apply (po_res _ _ _ Hp). lia.
Qed.

Lemma rest_nil m l :
  (∀ i x nd, l !! i = Some (x, nd) → off nd = 0 ∧ slen (buf nd) = 0 ∧ nmalloc nd = 0) →
  Rd m l = [] ∧ Tb m l = [] ∧ ∀ k, pend (drop k l) = 0.
Proof.
  intros Hl. split_and!.
  - apply Rd_nil. intros i x nd Hi. destruct (Hl i x nd Hi). lia.
  - apply Tb_nil. intros i x nd Hi. destruct (Hl i x nd Hi) as (?&?&?). lia.
  - induction l as [|[x nd] l IH]; intros k; [by rewrite drop_nil|].
    assert (∀ k, pend (drop k l) = 0) as IH' by (apply IH; intros i; apply (Hl (S i))).
    destruct k as [|k]; [|apply IH']. simpl. rewrite <- (drop_0 l), IH'.
    destruct (Hl 0%nat x nd eq_refl) as (_&?&?). lia.
Qed.

Lemma pend_app l1 l2 : pend (l1 ++ l2) = pend l1 + pend l2.
Proof. induction l1 as [|[x nd] l1 IH]; simpl; lia. Qed.

(** [b.write.next = x; b.write = x] *)
Definition append_sh sh (l1 : list cell) w wd x nd : shape :=
  Sh (dead sh) (l1 ++ [(w, set_next (Some x) wd); (x, nd)]) (nf sh) (S (nw sh)) (kd sh) (clean sh).

Lemma append_bytes_eq m b h sh others regs l1 w wd l2 x nd :
  own b h sh others regs → at_write sh l1 w wd l2 → (nf sh ≤ nw sh)%nat →
  off nd = 0 → slen (buf nd) = 0 → nmalloc nd = 0 →
  Rd m (lv (append_sh sh l1 w wd x nd)) = Rd m (lv sh) ∧
  Tb m (lv (append_sh sh l1 w wd x nd)) = Tb m (lv sh) ∧
  pend (drop (nf sh) (lv (append_sh sh l1 w wd x nd))) = pend (drop (nf sh) (lv sh)).
Proof.
  intros Ho Hat Hle E1 E2 E3. destruct (rest_nil m l2) as (HR&HT&Hp); [by eapply own_rest|].
  destruct Hat as [El El1]. rewrite El. simpl.
  rewrite !Rd_app, !Tb_app, !Rd_cons, !Tb_cons, HR, HT.
  rewrite (rb_nil m nd), (fb_nil m nd) by lia. split_and!; try done.
  rewrite !drop_app_le by lia. rewrite !pend_app. simpl. rewrite E2, E3.
  specialize (Hp 0%nat). rewrite drop_0 in Hp. rewrite Hp. lia.
Qed.

Lemma snoc2_lookup (l : list cell) a c i y md :
  (l ++ [a; c]) !! i = Some (y, md) →
  l !! i = Some (y, md) ∨ (i = length l ∧ a = (y, md)) ∨ (i = S (length l) ∧ c = (y, md)).
Proof.
  intros Hi. apply lookup_app_Some in Hi as [|[? Hi]]; [auto|].
  destruct (i - length l)%nat as [|[|[|]]] eqn:E; simplify_eq/=; right; [left|right]; split; done || lia.
Qed.

Lemma append_pos sh l1 w wd x nd i md : (i ≤ nw sh)%nat →
  pos_ok sh i md → pos_ok (append_sh sh l1 w wd x nd) i md.
Proof. intros ? []. constructor; simpl; try done. intros. lia. Qed.

Lemma world_truncate h d l1 w wd wd' l2 x nd others regs :
  world h ((d ++ l1 ++ (w, wd) :: l2).*1 ++ x :: others)
    (cregs (l1 ++ (w, wd) :: l2) ++ nregion nd :: regs) → nregion wd' = nregion wd →
  world h ((d ++ l1 ++ [(w, wd'); (x, nd)]).*1 ++ others)
    (cregs (l1 ++ [(w, wd'); (x, nd)]) ++ regs).
Proof.
  intros W Hr.
  assert ((d ++ l1 ++ (w, wd) :: l2).*1 ++ x :: others =
    (d.*1 ++ l1.*1 ++ [w]) ++ l2.*1 ++ x :: others) as E1
    by (rewrite !fmap_app, <- !app_assoc; done).
  assert (cregs (l1 ++ (w, wd) :: l2) ++ nregion nd :: regs =
    (cregs l1 ++ [nregion wd]) ++ cregs l2 ++ nregion nd :: regs) as E2
    by (rewrite cregs_app, <- !app_assoc; done).
  assert ((d ++ l1 ++ [(w, wd'); (x, nd)]).*1 ++ others = (d.*1 ++ l1.*1 ++ [w]) ++ x :: others) as E3
    by (rewrite !fmap_app, <- !app_assoc; done).
  assert (cregs (l1 ++ [(w, wd'); (x, nd)]) ++ regs =
    (cregs l1 ++ [nregion wd]) ++ nregion nd :: regs) as E4
    by (rewrite cregs_app, <- !app_assoc; unfold cregs; simpl; by rewrite Hr).
  rewrite E1, E2 in W. rewrite E3, E4. apply (world_drop_mid _ _ l2.*1).
  eapply world_regs; [| |exact W].
  - apply (sep_drop_mid _ (cregs l2)). apply W.
  - pose proof (w_regs _ _ _ W) as Hrs. apply Forall_app in Hrs as [? Hrs].
    apply Forall_app in Hrs as [_ ?]. by apply Forall_app.
Qed.

Lemma own_append b h sh others regs l1 w wd l2 x nd :
  own b h sh (x :: others) (nregion nd :: regs) → at_write sh l1 w wd l2 → ro sh = false →
  hnodes h !! x = Some nd → next nd = None → refer_of h x = 1 → node_wf (hmem h) nd →
  off nd = 0 → slen (buf nd) = 0 → nmalloc nd = 0 →
  (getMode nd readonlyMask = true → scap (buf nd) = 0) →
  let h' := set_nodes (<[w := set_next (Some x) wd]> (hnodes h)) h in
  own (set_write (Some x) b) h' (append_sh sh l1 w wd x nd) others regs ∧ frame others regs h h'.
Proof.
  intros Ho [El El1] Hro Hx Hnx Hrx Hwx Eo Es Em Hcp h'.
  pose proof (own_nodup_lv _ _ _ _ _ Ho) as Hnl. pose proof (own_nodup _ _ _ _ _ Ho) as Hnd.
  assert (lv sh !! nw sh = Some (w, wd)) as Hlw by (rewrite El, <- El1; by apply list_lookup_middle).
  assert (w ∈ locs sh) as Hwl by (by eapply locs_lv).
  assert (frame (x :: others) (nregion nd :: regs) h h') as Hfr by (by eapply own_frame_node).
  destruct Ho as [[Hd Hl Hf Hw Hi Hns Hu] W]. rewrite Hro in Hi. destruct Hi as [Hi1 Hi2].
  destruct (Hns _ _ _ Hlw) as [Hww Hwp].
  pose proof (lseg_lookup _ _ _ _ _ _ _ Hl Hlw) as Hhw.
  pose proof (w_nodup _ _ _ W) as HnW. apply NoDup_app in HnW as (_&Hxl&_).
  assert (w ≠ x) as Hwx'. { intros ->. apply (Hxl x Hwl). left. }
  assert (w ∉ (dead sh).*1) as Hwd.
  { unfold locs in Hnd. rewrite fmap_app, NoDup_app in Hnd. intros Hin. eapply Hnd; [exact Hin|].
    rewrite El, fmap_app. set_solver. }
  rewrite El in *. rewrite fmap_app in Hnl. apply NoDup_app in Hnl as (_&Hw1&_).
  split; [|fsub Hfr]. split.
  - constructor; simpl; try done.
    + by apply lseg_insert_ne.
    + eapply lseg_relink; [|set_solver|exact Hl|].
      * intros Hin. eapply Hw1; [exact Hin|]. set_solver.
      * simpl. by rewrite Hnx.
    + rewrite Hf, !fmap_app. destruct (decide (nf sh < length l1)%nat).
      * by rewrite !lookup_app_l by (rewrite length_fmap; lia).
      * rewrite !lookup_app_r by (rewrite length_fmap; lia). rewrite length_fmap.
        by replace (nf sh - length l1)%nat with 0%nat by lia.
    + rewrite fmap_app, lookup_app_r by (rewrite length_fmap; lia).
      rewrite length_fmap. by replace (S (nw sh) - length l1)%nat with 1%nat by lia.
    + unfold ro in *. simpl. rewrite Hro, length_app. simpl. lia.
    + intros i y md Hi. destruct (snoc2_lookup _ _ _ _ _ _ Hi) as [Hi'|[[-> E]|[-> E]]]; simplify_eq.
      * destruct (Hns i y md) as [? Hp]; [by apply lookup_app_l_Some|]. split; [done|].
        apply lookup_lt_Some in Hi'. by apply append_pos; [lia|].
      * rewrite El1. split; [by destruct Hww; constructor|]. apply append_pos; [lia|].
        by destruct Hwp; constructor.
      * split; [done|]. constructor; simpl; intros; try lia. rewrite Hcp by done. lia.
    + intros i y md Hlt Hi. destruct (snoc2_lookup _ _ _ _ _ _ Hi) as [Hi'|[[-> E]|[-> E]]]; simplify_eq.
      * apply (Hu i y md); [|by apply lookup_app_l_Some]. destruct Hlt; [left; simpl in *; lia|by right].
      * apply (Hu (nw sh) _ wd); [|done]. rewrite El1 in Hlt. destruct Hlt; [simpl in *; lia|by right].
      * done.
  - eapply world_update; [done| |done|].
    { apply (w_live_pool _ _ _ W). set_solver. }
    unfold locs in *. rewrite El in W. by eapply world_truncate.
Qed.

(** A new node at the tail. *)
Lemma wp_new_tail size b h sh others regs R T bk (Q : loc → heap → Prop) :
  lb_at b h sh others regs R T bk → ro sh = false →
  (∀ x h1 w wd sh' nd, write b = Some w → hnodes h1 !! w = Some wd →
     let h2 := set_nodes (<[w := set_next (Some x) wd]> (hnodes h1)) h1 in
     lb_at (set_write (Some x) b) h2 sh' others regs R T bk →
     kd sh' = kd sh → clean sh' = clean sh → nf sh' = nf sh →
     lv sh' !! nw sh' = Some (x, nd) → length (lv sh') = S (nw sh') →
     new_node size nd (hmem h1) → frame others regs h h2 → Q x h1) →
  wp (newLinkBufferNode size) Q h.
Proof.
  intros [Ho HR HT Hl Hm Hpk] Hro HQ.
  destruct (own_write _ _ _ _ _ Ho Hro) as (l1&w&wd&l2&Hat&Hwr&Hw&_&_&Hle&_).
  eapply wp_newLinkBufferNode; [apply Ho|]. intros x h1 nd Hx Hns Hnn W Hk Hrx Hrf.
  destruct (own_new_node _ _ _ _ _ _ _ _ Ho Hx Hns W Hk Hrf) as [Ho1 Hfr1].
  assert (hnodes h1 !! w = Some wd) as Hw1.
  { rewrite Hns, lookup_insert_ne; [done|]. intros ->. apply Hx, elem_of_app. left.
    destruct Hat as [El El1]. eapply (locs_lv _ (nw sh)). rewrite El, <- El1. by apply list_lookup_middle. }
  assert (hnodes h1 !! x = Some nd) as Hx1 by (by rewrite Hns, lookup_insert_eq).
  pose proof (new_node_wf _ _ _ Hnn) as Hwf. pose proof (new_node_ro _ _ _ Hnn) as Hin.
  pose proof Hnn as [].
  destruct (own_append _ _ _ _ _ l1 w wd l2 x nd Ho1 Hat) as [Ho2 Hfr2]; try done.
  destruct (append_bytes_eq (hmem h1) _ _ _ _ _ _ _ _ _ x nd Ho1 Hat) as (B1&B2&B3); try done.
  destruct (Rd_Tb_keeps (hmem h) (hmem h1) (lv sh)) as [E1 E2].
  { intros i y md Hi. destruct Ho as [Hs _]. by eapply (s_nodes _ _ _ Hs). }
  { ksub Hk. }
  eapply (HQ _ _ w wd (append_sh sh l1 w wd x nd) nd); try done.
  - simpl in B1, B2, B3. constructor; try done; simpl; try congruence.
    eapply (peek_ok_keeps b h); [exact Ho| |done]. ksub Hk.
  - simpl. destruct Hat as [_ El1]. rewrite lookup_app_r by lia.
    by replace (S (nw sh) - length l1)%nat with 1%nat by lia.
  - simpl. destruct Hat as [_ El1]. rewrite length_app. simpl. lia.
  - eapply frame_trans; [fsub Hfr1|fsub Hfr2].
Qed.

(** [b.write = b.write.next] *)
Lemma own_write_next b h sh others regs w wd y :
  own b h sh others regs → ro sh = false → lv sh !! nw sh = Some (w, wd) → next wd = Some y →
  own (set_write (next wd) b) h (Sh (dead sh) (lv sh) (nf sh) (S (nw sh)) (kd sh) (clean sh)) others regs ∧
  (S (nw sh) < length (lv sh))%nat.
Proof.
  intros [[Hd Hl Hf Hw Hi Hns Hu] W] Hro Hlw Hy. rewrite Hro in Hi. destruct Hi as [??].
  pose proof (take_drop_middle _ _ _ Hlw) as E.
  assert (lseg (hnodes h) (Some y) (drop (S (nw sh)) (lv sh)) None) as Hl2.
  { rewrite <- E in Hl. apply lseg_app in Hl as (?&_&_&_&Hl). by rewrite Hy in Hl. }
  destruct (drop (S (nw sh)) (lv sh)) as [|[y' yd] l2] eqn:Ed; [done|].
  destruct Hl2 as ([= <-]&_).
  assert (lv sh !! S (nw sh) = Some (y, yd)) as Hly.
  { rewrite <- (Nat.add_0_r (S (nw sh))), <- lookup_drop, Ed. done. }
  assert (S (nw sh) < length (lv sh))%nat by (by eapply lookup_lt_Some).
  split; [|done]. split; [|done]. constructor; simpl; try done.
  - by rewrite list_lookup_fmap, Hly, Hy.
  - unfold ro in *. simpl. rewrite Hro. lia.
  - intros i x nd Hi. destruct (Hns i x nd Hi) as [? []]. split; [done|].
    constructor; simpl; try done. intros. apply po_res. lia.
  - intros i x nd Hlt. apply Hu. destruct Hlt as [|]; [left; simpl in *; lia|by right].
Qed.

(** The invariant does not depend on where b.write is, as long as what
    follows is empty. *)
Lemma lb_at_write_next b h sh others regs R T bk w wd y :
  lb_at b h sh others regs R T bk → ro sh = false → lv sh !! nw sh = Some (w, wd) →
  next wd = Some y →
  let sh' := Sh (dead sh) (lv sh) (nf sh) (S (nw sh)) (kd sh) (clean sh) in
  lb_at (set_write (next wd) b) h sh' others regs R T bk ∧ (S (nw sh) < length (lv sh))%nat.
Proof.
  intros [] Hro Hlw Hy sh'. destruct (own_write_next _ _ _ _ _ _ _ _ a_own Hro Hlw Hy) as [??].
  split; [|done]. by constructor.
Qed.

(** b.write has room for [n] bytes. *)
Record roomy (n : Z) b h sh (w : loc) (wd : linkBufferNode) : Prop := Roomy {
  ry_write : write b = Some w;
  ry_node : hnodes h !! w = Some wd;
  ry_lv : lv sh !! nw sh = Some (w, wd);
  ry_ro : getMode wd readonlyMask = false;
  ry_cap : nmalloc wd + n <= scap (buf wd);
}.

Lemma wp_growth_loop fuel : ∀ n b h sh others regs R T bk (Q : unit → st → Prop),
  lb_at b h sh others regs R T bk → ro sh = false → 0 < n →
  (length (lv sh) - nw sh < fuel)%nat →
  (∀ b' h' sh' w wd, lb_at b' h' sh' others regs R T bk → roomy n b' h' sh' w wd →
     kd sh' = kd sh → clean sh' = clean sh → nf sh' = nf sh → frame others regs h h' →
     Q tt (St b' h')) →
  wp (growth_loop fuel n) Q (St b h).
Proof.
  induction fuel as [|fuel IH]; intros n b h sh others regs R T bk Q Ha Hro Hn Hf HQ; [lia|].
  destruct (own_write _ _ _ _ _ (a_own _ _ _ _ _ _ _ _ Ha) Hro) as (l1&w&wd&l2&_&Hwr&Hw&_&_&_&Hlw).
  simpl. wsteps. rewrite Hwr. eapply wp_load; [exact Hw|].
  destruct (getMode wd readonlyMask || _) eqn:Eg.
  - destruct (next wd) as [y|] eqn:Ey.
    + wsteps. rewrite <- Ey.
      destruct (lb_at_write_next _ _ _ _ _ _ _ _ _ _ _ Ha Hro Hlw Ey) as [Ha' Hlt].
      eapply IH; [exact Ha'|done|done|simpl; lia|]. simpl. intros. by eapply HQ.
    + wsteps. eapply wp_new_tail; [exact Ha|done|].
      intros x h1 w' wd' sh' nd Hwr' Hw1 h2 Ha2 Hk2 Hc2 Hf2 Hl2 Hlen2 Hnn Hfr.
      rewrite Hwr in Hwr'. simplify_eq. wsteps. eapply wp_update; [exact Hw1|]. wsteps.
      destruct Hnn. destruct (nn_rw Hn) as [Em ?]. eapply (HQ _ _ sh' x nd); try done.
      constructor; try done; [|unfold getMode; by rewrite Em|lia].
      eapply lseg_lookup; [apply (s_lv _ _ _ (proj1 (a_own _ _ _ _ _ _ _ _ Ha2)))|exact Hl2].
  - wsteps. apply orb_false_iff in Eg as [??]. eapply (HQ _ _ sh w wd); try done; [|apply frame_refl].
    constructor; try done. lia.
Qed.

Lemma wp_growth n b h sh others regs R T bk (Q : unit → st → Prop) :
  lb_at b h sh others regs R T bk → ro sh = false → 0 < n →
  (∀ b' h' sh' w wd, lb_at b' h' sh' others regs R T bk → roomy n b' h' sh' w wd →
     kd sh' = kd sh → clean sh' = clean sh → nf sh' = nf sh → frame others regs h h' →
     Q tt (St b' h')) →
  wp (growth n) Q (St b h).
Proof.
  intros Ha Hro Hn HQ. unfold growth. destruct (Z.leb_spec n 0); [lia|]. wsteps.
  eapply wp_growth_loop; [done..| |done].
  pose proof (own_fuel _ _ _ _ _ (a_own _ _ _ _ _ _ _ _ Ha)). lia.
Qed.

Lemma own_Rd_le_Tb b h sh others regs :
  own b h sh others regs → zlen (Rd (hmem h) (lv sh)) <= zlen (Tb (hmem h) (lv sh)).
Proof.
  intros [Hs _]. apply Rd_le_Tb. intros i x nd Hi. by eapply (s_nodes _ _ _ Hs).
Qed.

(** The bytes [b.write.Malloc] hands out follow the allocated ones. *)
Lemma Tb_malloc m l1 w wd l2 n :
  Tb m l2 = [] → node_wf m wd → slen (buf wd) <= nmalloc wd → 0 <= n →
  Tb m (l1 ++ (w, set_malloc (nmalloc wd + n) wd) :: l2) =
    Tb m (l1 ++ (w, wd) :: l2) ++
    sget m (Slice (sarr (buf wd)) (soff (buf wd) + nmalloc wd) n n).
Proof.
  intros E [] ??. rewrite !Tb_app, !Tb_cons, E, !app_nil_r, <- app_assoc. f_equal.
  unfold fb, sget. simpl. rewrite !Z.max_r by lia.
  rewrite (mget_split _ _ _ (soff (buf wd) + nmalloc wd)) by lia. f_equal. unfold mget. f_equal; lia.
Qed.

Lemma pend_malloc l1 w wd l2 k n : (k ≤ length l1)%nat →
  pend (drop k (l1 ++ (w, set_malloc (nmalloc wd + n) wd) :: l2)) =
    pend (drop k (l1 ++ (w, wd) :: l2)) + n.
Proof. intros. rewrite !drop_app_le by lia. rewrite !pend_app. simpl. lia. Qed.

(** [p] is the last window that was allocated. *)
Definition last_window sh (p : slice) : Prop :=
  ∃ w wd, lv sh !! nw sh = Some (w, wd) ∧ getMode wd readonlyMask = false ∧
    sarr p = sarr (buf wd) ∧ 0 <= slen p ∧
    slen (buf wd) <= nmalloc wd - slen p ∧ soff p = soff (buf wd) + (nmalloc wd - slen p).

Lemma wp_write_malloc n b h sh others regs R T bk w wd (Q : slice → heap → Prop) :
  lb_at b h sh others regs R T bk → ro sh = false → roomy n b h sh w wd → 0 <= n →
  (∀ p h' sh', lb_at b h' sh' others regs R (T ++ sget (hmem h') p) (bk + n) →
     slen p = n → last_window sh' p → hmem h' = hmem h →
     kd sh' = kd sh → clean sh' = clean sh → nf sh' = nf sh → frame others regs h h' → Q p h') →
  wp (node_Malloc (Some w) n) Q h.
Proof.
  intros [Ho HR HT Hl Hm Hpk] Hro [Hwr Hw Hlw Hmd Hcap] Hn HQ.
  destruct (own_write _ _ _ _ _ Ho Hro) as (l1&w'&wd'&l2&Hat&_&_&Hwf&Hpo&Hle&Hlw').
  assert ((w', wd') = (w, wd)) as [= -> ->] by congruence.
  destruct (rest_nil (hmem h) l2) as (_&HT2&_); [by eapply own_rest|]. destruct Hat as [El El1].
  pose proof (po_wr _ _ _ Hpo Hle) as Hsl. set (wd2 := set_malloc (nmalloc wd + n) wd).
  eapply wp_node_Malloc; [exact Hw|apply Hwf|done|done|]. fold wd2.
  assert (<[nw sh := (w, wd2)]> (lv sh) = l1 ++ (w, wd2) :: l2) as Eup.
  { rewrite El, <- El1. rewrite insert_app_r_alt, Nat.sub_diag by lia. done. }
  apply (HQ _ _ (upd_sh (nw sh) (w, wd2) sh)); try done.
  - constructor; simpl; rewrite ?Eup.
    + eapply own_update; try done.
      * destruct Hwf. constructor; simpl; lia.
      * destruct Hpo. constructor; simpl; try done; intros; try lia.
        unfold getMode in *. simpl in *. congruence.
      * unfold nregion, node_top, wd2, getMode in *. simpl. rewrite Hmd. apply sub_refl.
    + rewrite <- HR, El, !Rd_app, !Rd_cons. done.
    + rewrite <- HT, El. by apply Tb_malloc.
    + done.
    + rewrite El in Hm. unfold wd2. rewrite pend_malloc by lia. lia.
    + apply (peek_ok_app _ _ R _ T []); [by rewrite app_nil_r|lia|].
      rewrite <- HR, <- HT. by eapply own_Rd_le_Tb.
  - exists w, wd2. simpl. rewrite Eup. split_and!; try done; try lia.
    rewrite lookup_app_r by lia. by rewrite <- El1, Nat.sub_diag.
  - eapply frame_sub; [| |eapply own_frame_node; [exact Ho|by eapply locs_lv]]; [done|set_solver].
Qed.

(** Storing to the window of a node of the buffer. *)
Lemma own_store b h sh others regs l1 w wd l2 pos bs :
  own b h sh others regs → lv sh = l1 ++ (w, wd) :: l2 →
  rlo (nregion wd) <= pos → pos + zlen bs <= rhi (nregion wd) → 0 < zlen bs →
  let m' := mput (hmem h) (sarr (buf wd)) pos bs in
  own b (set_mem m' h) sh others regs ∧ keeps (hmem h) m' (cregs l1 ++ cregs l2 ++ regs).
Proof.
  intros Ho El Hlo Hhi Hbs m'. pose proof (proj2 Ho) as W. rewrite El, cregs_app in W.
  assert (world h (locs sh ++ others) (nregion wd :: cregs l1 ++ cregs l2 ++ regs)) as W'.
  { eapply world_perm; [done| |exact W]. rewrite <- app_assoc. symmetry. apply Permutation_middle. }
  destruct (world_mput _ _ _ _ _ _ W' Hlo Hhi Hbs) as (W2&Hk&Hlen).
  split; [|done]. eapply own_world; [exact Ho|done| |done|].
  - simpl. intros a. by rewrite Hlen.
  - rewrite El, cregs_app. eapply world_perm; [done| |exact W2]. rewrite <- app_assoc. apply Permutation_middle.
Qed.

Lemma mget_put_mid m a lo pos bs hi :
  0 <= lo → lo <= pos → pos + zlen bs <= hi → hi <= zlen (arr m a) →
  mget (mput m a pos bs) a lo hi = mget m a lo pos ++ bs ++ mget m a (pos + zlen bs) hi.
Proof.
  intros. pose proof (zlen_nonneg bs).
  rewrite (mget_split _ _ lo pos) by lia. rewrite (mget_split _ _ pos (pos + zlen bs)) by lia.
  rewrite mget_mput_same by lia. unfold mget. rewrite arr_mput, decide_True by done.
  by rewrite zsub_zput_before, zsub_zput_after by lia.
Qed.

Lemma last_window_split m sh p l1 w wd l2 :
  last_window sh p → at_write sh l1 w wd l2 → node_wf m wd → Tb m l2 = [] →
  ∃ A, Tb m (lv sh) = (Tb m l1 ++ A) ++ sget m p ∧ zlen (sget m p) = slen p ∧
    A = mget m (sarr p) (soff (buf wd) + off wd) (soff p) ∧ sarr p = sarr (buf wd) ∧
    0 <= slen p ∧ getMode wd readonlyMask = false ∧
    soff (buf wd) + slen (buf wd) <= soff p ∧ soff p + slen p = soff (buf wd) + nmalloc wd.
Proof.
  intros (w'&wd'&Hl&Hmd&Ha&Hp&Hle&Hso) [El El1] [] ET.
  rewrite El, <- El1, list_lookup_middle in Hl by done. injection Hl as <- <-.
  eexists. split_and!; [| |reflexivity|done|done|done|lia|lia].
  - rewrite El, Tb_app, Tb_cons, ET, app_nil_r, <- app_assoc. f_equal.
    unfold fb, sget. rewrite Ha, <- mget_split by lia. f_equal. lia.
  - unfold sget. rewrite Ha, zlen_mget; lia.
Qed.

Lemma lb_fill b h sh others regs R T X bk p bs :
  lb_at b h sh others regs R (T ++ X) bk → last_window sh p → ro sh = false →
  zlen X = slen p → 0 < zlen bs → zlen bs <= slen p →
  let h' := set_mem (scopy (hmem h) p bs) h in
  lb_at b h' sh others regs R (T ++ bs ++ zdrop (zlen bs) X) bk ∧ frame others regs h h'.
Proof.
  intros [Ho HR HT Hl Hm Hpk] Hlast Hro HX Hbs0 Hbs h'.
  destruct (own_write _ _ _ _ _ Ho Hro) as (l1&w&wd&l2&Hat&_&_&Hwf&Hpo&Hle&Hlw).
  destruct (rest_nil (hmem h) l2) as (HR2&HT2&_); [by eapply own_rest|].
  destruct (last_window_split _ _ _ _ _ _ _ Hlast Hat Hwf HT2) as (A&ET&Ezl&EA&Ea&Hp0&Hmd&Hs1&Hs2).
  rewrite HT in ET. apply app_inj_2 in ET as [ET EX]; [|unfold zlen in *; lia].
  pose proof Hwf as [? ? ? ? Harr]. pose proof (node_top_le _ _ Hwf) as [Htop _].
  assert (scopy (hmem h) p bs = mput (hmem h) (sarr (buf wd)) (soff p) bs) as Ecp.
  { unfold scopy. by rewrite ztake_ge, Ea by lia. }
  destruct (own_store _ _ _ _ _ _ _ _ _ (soff p) bs Ho (proj1 Hat)) as [Ho' Hk]; [simpl; lia..|done|].
  rewrite <- Ecp in Ho', Hk. set (m' := scopy (hmem h) p bs) in *.
  assert (∀ l, (∀ c, c ∈ l → c ∈ l1 ∨ c ∈ l2) → keeps (hmem h) m' (cregs l) →
    Rd m' l = Rd (hmem h) l ∧ Tb m' l = Tb (hmem h) l) as Hsame.
  { intros l Hin Hkl. apply Rd_Tb_keeps; [|done]. intros i x nd Hi. destruct Ho as [Hs _].
    assert ((x, nd) ∈ lv sh) as [j Hj]%list_elem_of_lookup.
    { rewrite (proj1 Hat). destruct (Hin (x, nd)); [by eapply list_elem_of_lookup_2|set_solver..]. }
    by eapply (s_nodes _ _ _ Hs). }
  destruct (Hsame l1) as [R1 T1]; [auto|ksub Hk|]. destruct (Hsame l2) as [R2 T2]; [auto|ksub Hk|].
  assert (rb m' wd = rb (hmem h) wd) as Erb.
  { unfold rb. rewrite Ecp. unfold mget. rewrite arr_mput, decide_True by done. apply zsub_zput_before; lia. }
  assert (fb m' wd = A ++ bs ++ zdrop (zlen bs) X) as Efb.
  { unfold fb. rewrite Ecp, mget_put_mid, EX, EA, Ea by lia. do 2 f_equal. unfold sget, mget.
    rewrite zdrop_zsub, Ea by lia. f_equal. lia. }
  split; [|apply frame_mem; [done|]; simpl; ksub Hk]. constructor; simpl; try done.
  - by rewrite (proj1 Hat), Rd_app, Rd_cons, R1, R2, Erb, <- HR, (proj1 Hat), Rd_app, Rd_cons.
  - by rewrite (proj1 Hat), Tb_app, Tb_cons, T1, T2, HT2, Efb, app_nil_r, ET, <- app_assoc.
  - eapply (peek_ok_keeps b h); [exact Ho|simpl; ksub Hk|]. eapply peek_ok_app; [exact Hpk|lia|].
    rewrite ET, <- HR, (proj1 Hat), Rd_app, Rd_cons, !zlen_app, EA, HR2, zlen_nil, zlen_rb by done.
    unfold node_Len. rewrite Ea, zlen_mget by lia.
    assert (zlen (Rd (hmem h) l1) <= zlen (Tb (hmem h) l1)); [|lia].
    apply Rd_le_Tb. intros i x nd Hi. destruct Ho as [Hs _].
    eapply (s_nodes _ _ _ Hs i x). rewrite (proj1 Hat). by apply lookup_app_l_Some.
Qed.
End tail.

Section write.
Context {rt : Runtime} {rtok : RuntimeOk rt}.
Implicit Types (b : LinkBuffer) (h : heap) (sh : shape) (others : list loc)
  (regs : list region).

(** What the writing methods do not change. *)
Definition same_kind sh sh' : Prop := kd sh' = kd sh ∧ clean sh' = clean sh.

Lemma same_kind_ro sh sh' : same_kind sh sh' → ro sh = false → ro sh' = false.
Proof. intros [E _]. unfold ro. by rewrite E. Qed.

Lemma same_kind_trans sh1 sh2 sh3 : same_kind sh1 sh2 → same_kind sh2 sh3 → same_kind sh1 sh3.
Proof. intros [] []. split; congruence. Qed.

(** b.mallocSize runs ahead of the allocation. *)
Lemma lb_at_mallocSize b h sh others regs R T bk n :
  lb_at b h sh others regs R T bk →
  lb_at (set_mallocSize (mallocSize b + n) b) h sh others regs R T (bk - n).
Proof.
  intros []. constructor; try done; [|simpl; lia]. by eapply own_fields; [..|exact a_own].
Qed.

(** ** Malloc *)

Definition malloc_post n b h sh others regs R T bk (Q : slice → st → Prop) : Prop :=
  ∀ p b' h' sh', lb_at b' h' sh' others regs R (T ++ sget (hmem h') p) bk →
    slen p = n → zlen (sget (hmem h') p) = n → last_window sh' p → same_kind sh sh' →
    nf sh' = nf sh → frame others regs h h' → write b' = (lv sh').*1 !! nw sh' → Q p (St b' h').

Lemma last_window_len m b h sh others regs p :
  own b h sh others regs → m = hmem h → last_window sh p → zlen (sget m p) = slen p.
Proof.
  intros [Hs _] -> (w&wd&Hl&_&Ha&?&?&Hso). destruct (s_nodes _ _ _ Hs _ _ _ Hl) as [[] _].
  unfold sget. rewrite Ha, zlen_mget; lia.
Qed.

(** mallocSize, growth and b.write.Malloc, as Malloc and WriteBinary do. *)
Lemma wp_grow_malloc {A} n b h sh others regs R T bk (k : slice → M st A) (Q : A → st → Prop) :
  lb_at b h sh others regs R T bk → ro sh = false → 0 < n →
  malloc_post n b h sh others regs R T bk (λ p s, wp (k p) Q s) →
  wp (_ ← growth n; b ← getb; p ← H (node_Malloc (write b) n); k p) Q
    (St (set_mallocSize (mallocSize b + n) b) h).
Proof.
  intros Ha Hro Hn HQ. apply (lb_at_mallocSize _ _ _ _ _ _ _ _ n) in Ha. apply wp_bind.
  eapply wp_growth; [done..|]. intros b1 h1 sh1 w wd Ha1 Hry Hk1 Hc1 Hf1 Hfr1. wsteps.
  rewrite (ry_write _ _ _ _ _ _ Hry).
  eapply wp_write_malloc; [exact Ha1|unfold ro in *; by rewrite Hk1|exact Hry|lia|].
  intros p h2 sh2 Ha2 Hsl Hlast _ Hk2 Hc2 Hf2 Hfr2.
  replace (bk - n + n) with bk in Ha2 by lia.
  pose proof (a_own _ _ _ _ _ _ _ _ Ha2) as Ho2.
  eapply HQ; try done.
  - by rewrite (last_window_len _ _ _ _ _ _ _ Ho2 eq_refl).
  - split; congruence.
  - congruence.
  - by eapply frame_trans.
  - apply (s_write _ _ _ (proj1 Ho2)).
Qed.

Lemma wp_Malloc n b h sh others regs R T bk (Q : slice * option lberr → st → Prop) :
  lb_at b h sh others regs R T bk → ro sh = false → 0 < n →
  malloc_post n b h sh others regs R T bk (λ p s, Q (p, None) s) →
  wp (Malloc n) Q (St b h).
Proof.
  intros Ha Hro Hn HQ. unfold Malloc. destruct (Z.leb_spec n 0); [lia|].
  apply wp_bind, wp_getb, wp_bind, wp_setb. eapply wp_grow_malloc; [done..|].
  intros p b' h' sh' ????????. apply wp_ret. by eapply HQ.
Qed.

Lemma wp_WriteByte c b h sh others regs R T bk (Q : option lberr → st → Prop) :
  lb_at b h sh others regs R T bk → ro sh = false →
  (∀ b' h' sh', lb_at b' h' sh' others regs R (T ++ [c]) bk → same_kind sh sh' → nf sh' = nf sh →
     frame others regs h h' → Q None (St b' h')) →
  wp (WriteByte c) Q (St b h).
Proof.
  intros Ha Hro HQ. unfold WriteByte. wsteps. eapply wp_Malloc; [done|done|lia|].
  intros p b1 h1 sh1 Ha1 Hsl Hzl Hlast Hk Hf Hfr _. wsteps. simpl. rewrite Hsl. wsteps.
  destruct (lb_fill _ _ _ _ _ _ _ _ _ _ [c] Ha1 Hlast) as [Ha2 Hfr2].
  - by eapply same_kind_ro.
  - by rewrite Hzl.
  - done.
  - rewrite Hsl. done.
  - eapply HQ; [|done|done|by eapply frame_trans].
    rewrite zdrop_ge, app_nil_r in Ha2 by (rewrite Hzl; done). exact Ha2.
Qed.

(** ** WriteBinary *)

(** A slice of the caller. *)
Record slice_ok (m : mem) (p : slice) : Prop := SliceOk {
  so_off : 0 <= soff p;
  so_len : 0 <= slen p <= scap p;
  so_arr : soff p + scap p <= zlen (arr m (sarr p));
}.

Lemma slice_ok_le m m' p : (∀ a, zlen (arr m a) <= zlen (arr m' a)) → slice_ok m p → slice_ok m' p.
Proof. intros Hle []. constructor; try done. specialize (Hle (sarr p)). lia. Qed.

(** The node that holds the bytes of [p] without a copy. *)
Definition nocopy_node (p : slice) (nd : linkBufferNode) : linkBufferNode :=
  set_malloc (slen p) (set_buf (Slice (sarr p) (soff p) 0 (scap p)) nd).

Lemma nocopy_node_ok m p nd : slice_ok m p → new_node 0 nd m →
  node_wf m (nocopy_node p nd) ∧ nregion (nocopy_node p nd) = sregion p ∧
  rb m (nocopy_node p nd) = [] ∧ fb m (nocopy_node p nd) = sget m p.
Proof.
  intros [] []. destruct (nn_ro ltac:(done)) as [_ Em]. split_and!.
  - constructor; simpl; lia.
  - unfold nregion, node_top, getMode. simpl. rewrite Em. simpl. unfold sregion.
    rewrite nn_off, Z.add_0_r, Z.max_r by lia. done.
  - apply rb_nil. simpl. lia.
  - unfold fb, sget. simpl. rewrite nn_off, Z.add_0_r, Z.max_r by lia. done.
Qed.

(** The memory of [p] becomes part of the last node. *)
Lemma lb_adopt b h sh others regs R T bk l1 x nd p :
  lb_at b h sh others (sregion p :: regs) R T bk → lv sh = l1 ++ [(x, nd)] → length l1 = nw sh →
  ro sh = false → kd sh ≠ KInput → slice_ok (hmem h) p → new_node 0 nd (hmem h) →
  let h' := set_nodes (<[x := nocopy_node p nd]> (hnodes h)) h in
  lb_at b h' (upd_sh (nw sh) (x, nocopy_node p nd) sh) others regs R
    (T ++ sget (hmem h) p) (bk + slen p) ∧ frame others regs h h'.
Proof.
  intros [Ho HR HT Hl Hm Hpk] El El1 Hro Hki Hp Hnn h'.
  destruct (nocopy_node_ok _ _ _ Hp Hnn) as (Hw&Hreg&Hrb&Hfb).
  assert (lv sh !! nw sh = Some (x, nd)) as Hlx by (rewrite El, <- El1; by apply list_lookup_middle).
  assert (<[nw sh := (x, nocopy_node p nd)]> (lv sh) = l1 ++ [(x, nocopy_node p nd)]) as Eup.
  { rewrite El, <- El1. by rewrite insert_app_r_alt, Nat.sub_diag by lia. }
  pose proof (s_idx _ _ _ (proj1 Ho)) as Hidx. rewrite Hro in Hidx. pose proof Hnn as [].
  split; [constructor|]; simpl; rewrite ?Eup.
  - pose proof (proj2 Ho) as W. eapply own_update_gen; try done.
    + destruct Hp. constructor; simpl; intros; done || lia.
    + rewrite Eup, cregs_app. simpl. rewrite Hreg, <- app_assoc.
      pose proof (w_sep _ _ _ W) as Hs. rewrite El, cregs_app, <- !app_assoc in Hs.
      apply (sep_drop_mid (cregs l1) [nregion nd]) in Hs. eapply sep_perm; [|exact Hs].
      apply Permutation_app_head. by rewrite <- Permutation_middle.
    + pose proof (w_regs _ _ _ W) as Hr. rewrite !Forall_app in *. rewrite Forall_cons in Hr. tauto.
  - rewrite <- HR, El, !Rd_app, !Rd_cons, Hrb, (rb_nil _ nd) by lia. done.
  - rewrite <- HT, El, !Tb_app, !Tb_cons, Hfb, (fb_nil _ nd) by lia. simpl. by rewrite app_nil_r, app_nil_r.
  - done.
  - rewrite El in Hm. rewrite !drop_app_le in * by lia. rewrite !pend_app in *. simpl in *. lia.
  - apply (peek_ok_app _ _ R _ T []); [by rewrite app_nil_r|lia|].
    rewrite <- HR, <- HT. by eapply own_Rd_le_Tb.
  - eapply frame_sub; [| |eapply own_frame_node; [exact Ho|by eapply locs_lv]]; [done|set_solver].
Qed.

Lemma wp_WriteBinary p b h sh others regs R T bk (Q : Z * option lberr → st → Prop) :
  lb_at b h sh others (sregion p :: regs) R T bk → ro sh = false → kd sh ≠ KInput →
  slice_ok (hmem h) p → 0 < slen p →
  (∀ b' h' sh', lb_at b' h' sh' others regs R (T ++ sget (hmem h) p) bk → same_kind sh sh' →
     nf sh' = nf sh → frame others regs h h' → Q (slen p, None) (St b' h')) →
  wp (WriteBinary p) Q (St b h).
Proof.
  intros Ha Hro Hki Hp Hn HQ. unfold WriteBinary. cbv zeta.
  destruct (Z.eqb_spec (slen p) 0); [lia|]. apply wp_bind, wp_getb, wp_bind, wp_setb.
  assert (∀ h', frame others (sregion p :: regs) h h' → sget (hmem h') p = sget (hmem h) p) as Hsg.
  { intros h' [_ [_ Hk] _]. by apply Forall_cons in Hk as [Hk _]. }
  destruct (Z.ltb_spec BinaryInplaceThreshold (slen p)).
  - apply (lb_at_mallocSize _ _ _ _ _ _ _ _ (slen p)) in Ha. wsteps.
    eapply wp_new_tail; [exact Ha|done|].
    intros x h1 w wd sh1 nd Hwr Hw1 h2 Ha2 Hk2 Hc2 Hf2 Hl2 Hlen2 Hnn Hfr. wsteps. rewrite Hwr.
    eapply wp_update; [exact Hw1|]. wsteps. eapply wp_some; [apply slice3_ok; destruct Hp; lia|].
    wsteps. fold h2. rewrite Z.add_0_r, !Z.sub_0_r.
    assert (hnodes h2 !! x = Some nd) as Hx2.
    { eapply lseg_lookup; [apply (s_lv _ _ _ (proj1 (a_own _ _ _ _ _ _ _ _ Ha2)))|exact Hl2]. }
    eapply wp_update; [exact Hx2|]. wsteps. fold (nocopy_node p nd).
    destruct (lb_adopt _ _ _ _ _ _ _ _ (take (nw sh1) (lv sh1)) x nd p Ha2) as [Ha3 Hfr3].
    + rewrite <- (take_drop_middle _ _ _ Hl2) at 1. by rewrite drop_ge by lia.
    + rewrite length_take. lia.
    + unfold ro in *. by rewrite Hk2.
    + by rewrite Hk2.
    + eapply slice_ok_le; [apply Hfr|done].
    + done.
    + replace (bk - slen p + slen p) with bk in Ha3 by lia. rewrite Hsg in Ha3 by done.
      eapply HQ; [exact Ha3|done|done|]. eapply frame_trans; [fsub Hfr|done].
  - eapply wp_grow_malloc; [exact Ha|done..|].
    intros q b1 h1 sh1 Ha1 Hsl Hzl Hlast Hk1 Hf1 Hfr1 _. wsteps. rewrite Hsg by done.
    assert (zlen (sget (hmem h) p) = slen p) as Ezp.
    { destruct Hp. unfold sget. rewrite zlen_mget; lia. }
    destruct (lb_fill _ _ _ _ _ _ _ _ _ _ (sget (hmem h) p) Ha1 Hlast) as [Ha2 Hfr2];
      [by eapply same_kind_ro|lia..|].
    rewrite Hsl, Ezp, Z.min_id. rewrite zdrop_ge, app_nil_r in Ha2 by lia.
    eapply HQ; [|done|done|].
    + destruct Ha2. constructor; try done. eapply own_drop, own_perm; [|exact a_own].
      symmetry. apply Permutation_middle.
    + eapply frame_trans; [fsub Hfr1|fsub Hfr2].
Qed.

(** WriteString writes the bytes of the string. *)
Lemma wp_WriteString p b h sh others regs R T bk (Q : Z * option lberr → st → Prop) :
  lb_at b h sh others (sregion p :: regs) R T bk → ro sh = false → kd sh ≠ KInput →
  slice_ok (hmem h) p → 0 < slen p →
  (∀ b' h' sh', lb_at b' h' sh' others regs R (T ++ sget (hmem h) p) bk → same_kind sh sh' →
     nf sh' = nf sh → frame others regs h h' → Q (slen p, None) (St b' h')) →
  wp (WriteString p) Q (St b h).
Proof.
  intros Ha Hro Hki Hp Hn HQ. unfold WriteString. destruct (Z.eqb_spec (slen p) 0); [lia|].
  eapply wp_WriteBinary; [exact Ha|done|done| |done|done].
  destruct Hp. constructor; simpl; lia.
Qed.
End write.
