(* ===== verification/LinkFlush.v ===== *)
(** * Flush and MallocAck

    Flush makes the allocated bytes readable; MallocAck gives up all but the
    first of them. *)

From S2P Require Import Prelude GoMem LinkNode LinkBuffer LinkHeap LinkInv LinkRead LinkScan LinkSlice LinkWrite.

Open Scope Z_scope.

Section flush.
Context {rt : Runtime} {rtok : RuntimeOk rt}.
Implicit Types (b : LinkBuffer) (h : heap) (sh : shape) (others : list loc)
  (regs : list region).

(** The nodes in front of position [i] have no bytes to submit. *)
Definition done_to sh (i : nat) : Prop :=
  ∀ j x nd, (j < i)%nat → lv sh !! j = Some (x, nd) → nmalloc nd = slen (buf nd).

(** [node.buf = node.buf[:node.malloc]] *)
Definition flushed (nd : linkBufferNode) : linkBufferNode :=
  set_buf (Slice (sarr (buf nd)) (soff (buf nd)) (nmalloc nd) (scap (buf nd))) nd.

Lemma flushed_ok m nd : node_wf m nd → slen (buf nd) <= nmalloc nd →
  node_wf m (flushed nd) ∧ nregion (flushed nd) = nregion nd ∧
  rb m (flushed nd) = fb m nd ∧ fb m (flushed nd) = fb m nd.
Proof.
  intros [] ?. unfold nregion, node_top, rb, fb, flushed, getMode. simpl.
  rewrite !Z.max_r by lia. split_and!; try done. constructor; simpl; lia.
Qed.

(** Forget that nothing was appended. *)
Definition unclean sh : shape := Sh (dead sh) (lv sh) (nf sh) (nw sh) (kd sh) false.

Lemma own_unclean b h sh others regs : own b h sh others regs → own b h (unclean sh) others regs.
Proof.
  intros [[Hd Hl Hf Hw Hi Hn Hu] W]. split; [|done]. constructor; try done.
  - intros i x nd Hx. destruct (Hn i x nd Hx) as [? []]. split; [done|]. by constructor.
  - intros i x nd [|[]] Hx; [|done]. apply (Hu i x nd); [by left|done].
Qed.

Lemma Rd_Tb_upd m (l : list cell) i x nd nd' :
  l !! i = Some (x, nd) → rb m nd' = fb m nd → fb m nd' = fb m nd → node_wf m nd →
  slen (buf nd) <= nmalloc nd →
  Tb m (<[i := (x, nd')]> l) = Tb m l ∧
  zlen (Rd m (<[i := (x, nd')]> l)) = zlen (Rd m l) + (nmalloc nd - slen (buf nd)).
Proof.
  intros Hi Hr Hf Hw Hle. rewrite insert_take_drop by (by eapply lookup_lt_Some).
  assert (l = take i l ++ (x, nd) :: drop (S i) l) as E by (by rewrite take_drop_middle).
  assert (Tb m l = Tb m (take i l ++ (x, nd) :: drop (S i) l)) as -> by (by rewrite <- E).
  assert (Rd m l = Rd m (take i l ++ (x, nd) :: drop (S i) l)) as -> by (by rewrite <- E).
  rewrite !Tb_app, !Tb_cons, Hf, !Rd_app, !Rd_cons, !zlen_app, Hr, zlen_rb, zlen_fb by done.
  split; [done|]. unfold node_Len. lia.
Qed.

Lemma wp_flush_loop fuel : ∀ b h sh others regs i n (Q : Z → heap → Prop),
  own b h sh others regs → clean sh = false → ro sh = false → (nf sh ≤ i)%nat → (i ≤ S (nw sh))%nat →
  done_to sh i → (S (nw sh) - i < fuel)%nat →
  (∀ n' h' sh', own b h' sh' others regs → dead sh' = dead sh → nw sh' = nw sh → kd sh' = kd sh →
     clean sh' = false → done_to sh' (S (nw sh')) → hmem h' = hmem h →
     Tb (hmem h) (lv sh') = Tb (hmem h) (lv sh) →
     n' = n + (zlen (Rd (hmem h) (lv sh')) - zlen (Rd (hmem h) (lv sh))) → n <= n' →
     frame others regs h h' → Q n' h') →
  wp (flush_loop fuel ((lv sh).*1 !! i) ((lv sh).*1 !! S (nw sh)) n) Q h.
Proof.
  induction fuel as [|fuel IH]; intros b h sh others regs i n Q Ho Hc Hro Hi1 Hi2 Hd Hf HQ; [lia|].
  pose proof (s_idx _ _ _ (proj1 Ho)) as Hidx. rewrite Hro in Hidx. destruct Hidx as [Hx1 Hx2].
  pose proof (own_nodup_lv _ _ _ _ _ Ho) as Hnd. simpl.
  destruct (decide (i = S (nw sh))) as [->|Hne].
  { unfold peq. rewrite bool_decide_eq_true_2 by done. apply wp_ret.
    eapply HQ; try done; [lia..|apply frame_refl]. }
  destruct (lookup_lt_is_Some_2 (lv sh) i) as [[x nd] Hx]; [lia|].
  assert ((lv sh).*1 !! i = Some x) as Hx' by (by rewrite list_lookup_fmap, Hx).
  unfold peq. rewrite bool_decide_eq_false_2.
  2:{ rewrite Hx'. intros E. symmetry in E. pose proof (NoDup_lookup _ _ _ _ Hnd Hx' E). lia. }
  destruct (s_nodes _ _ _ (proj1 Ho) _ _ _ Hx) as [Hw Hp].
  pose proof (po_wr _ _ _ Hp Hi1) as Hle. destruct (flushed_ok _ _ Hw Hle) as (Hw'&Hreg&Hrb&Hfb).
  pose proof (lseg_lookup _ _ _ _ _ _ _ (s_lv _ _ _ (proj1 Ho)) Hx) as Hhx.
  rewrite Hx'. apply wp_bind. eapply wp_load; [exact Hhx|]. apply wp_bind.
  assert (next nd = (lv sh).*1 !! S i) as Enx by (by eapply lseg_next; [apply Ho|]). rewrite Enx.
  destruct (Z.ltb_spec 0 (nmalloc nd - slen (buf nd))).
  - apply wp_bind. eapply wp_some; [apply slice3_ok; destruct Hw; lia|].
    rewrite Z.add_0_r, !Z.sub_0_r. apply wp_bind. eapply wp_update; [exact Hhx|]. apply wp_ret.
    fold (flushed nd). set (sh2 := upd_sh i (x, flushed nd) sh).
    destruct (Rd_Tb_upd (hmem h) (lv sh) i x nd (flushed nd)) as [ET ER]; try done.
    assert (own b (set_nodes (<[x := flushed nd]> (hnodes h)) h) sh2 others regs) as Ho2.
    { eapply own_update; try done; [|rewrite Hreg; apply sub_refl].
      destruct Hp. constructor; simpl; try done; intros; try lia. congruence. }
    assert ((lv sh).*1 = (lv sh2).*1) as Efst by (symmetry; by eapply fst_insert).
    rewrite Efst. eapply (IH _ _ sh2); try done; simpl; try lia.
    + intros j y md Hj Hy. simpl in Hy. destruct (decide (i = j)) as [<-|].
      * rewrite list_lookup_insert_eq in Hy by lia. by simplify_eq.
      * rewrite list_lookup_insert_ne in Hy by done. apply (Hd j y md); [lia|done].
    + intros n' h' sh' ???????? En ? Hfr. simpl in *.
      eapply (HQ n' h' sh'); try done; [congruence|lia..|].
      eapply frame_trans; [eapply own_frame_node; [exact Ho|by eapply locs_lv]|done].
  - apply wp_ret. eapply IH; try done; try lia.
    intros j y md Hj Hy. destruct (decide (i = j)) as [<-|]; [|apply (Hd j y md); [lia|done]].
    simplify_eq. lia.
Qed.

(** Nothing is left to submit: all bytes are readable. *)
Lemma own_all_done m b h sh others regs :
  own b h sh others regs → ro sh = false → done_to sh (S (nw sh)) →
  Rd m (lv sh) = Tb m (lv sh) ∧ pend (drop (nw sh) (lv sh)) = 0.
Proof.
  intros Ho Hro Hd. assert (∀ j x nd, lv sh !! j = Some (x, nd) → nmalloc nd = slen (buf nd)) as Hall.
  { intros j x nd Hj. destruct (decide (j < S (nw sh))%nat); [by eapply Hd|].
    destruct (s_nodes _ _ _ (proj1 Ho) _ _ _ Hj) as [_ Hp].
    destruct (po_res _ _ _ Hp) as (_&?&?); lia. }
  clear Ho Hd. generalize (nw sh). revert Hall.
  induction (lv sh) as [|[x nd] l IH]; intros Hall; [split; [done|]; by destruct n|].
  assert (nmalloc nd = slen (buf nd)) as E by (by apply (Hall 0%nat x)).
  assert (∀ n, Rd m l = Tb m l ∧ pend (drop n l) = 0) as IH'.
  { apply IH. intros j. apply (Hall (S j)). }
  intros n. rewrite Rd_cons, Tb_cons, fb_flushed by lia. destruct (IH' 0%nat) as [-> Hp].
  split; [done|]. destruct n as [|n]; [simpl; rewrite drop_0 in Hp; lia|]. apply IH'.
Qed.

Definition flush_kind (k : kind) : kind := match k with KInput => KInput | _ => KPlain end.

(** [b.flush = b.write] *)
Lemma own_flushed b h sh others regs :
  own b h sh others regs → ro sh = false → done_to sh (S (nw sh)) →
  own (set_flush (write b) b) h
    (Sh (dead sh) (lv sh) (nw sh) (nw sh) (flush_kind (kd sh)) true) others regs.
Proof.
  intros [[Hd Hl Hf Hw Hi Hn Hu] W] Hro Hdone. rewrite Hro in Hi. split; [|done].
  assert (∀ sh', kd sh' = flush_kind (kd sh) → ro sh' = false) as Hro'.
  { intros sh' E. unfold ro. rewrite E. by destruct (kd sh). }
  constructor; simpl; try done; [rewrite Hro' by done; lia| |].
  - intros i x nd Hx. destruct (Hn i x nd Hx) as [? []]. split; [done|].
    constructor; simpl; intros; try (apply po_res; lia).
    + assert (nmalloc nd = slen (buf nd)) by (apply (Hdone i x nd); [lia|done]). split; [lia|done].
    + destruct (decide (i = nw sh)) as [->|]; [|destruct po_res; lia].
      assert (nmalloc nd = slen (buf nd)) by (apply (Hdone (nw sh) x nd); [lia|done]). lia.
    + destruct po_res as (?&?&?); lia.
    + apply po_input; [|done]. by destruct (kd sh).
  - intros i x nd Hlt. apply Hu. left. by destruct Hlt as [|[]].
Qed.

Lemma lb_at_unclean b h sh others regs R T bk :
  lb_at b h sh others regs R T bk → lb_at b h (unclean sh) others regs R T bk.
Proof. intros []. constructor; try done. by apply own_unclean. Qed.

(** The loop, b.flush = b.write and recalLen. *)
Lemma wp_flush_rest b h sh others regs R T bk (Q : option lberr → st → Prop) :
  lb_at b h sh others regs R T bk → ro sh = false → mallocSize b = 0 →
  (∀ b' h' sh', lb_at b' h' sh' others regs T T 0 → kd sh' = flush_kind (kd sh) → clean sh' = true →
     frame others regs h h' → Q None (St b' h')) →
  wp (stop ← next_of (write b);
      fuel ← fuel_of;
      n ← H (flush_loop fuel (flush b) stop 0);
      _ ← setb (set_flush (write b));
      _ ← recalLen n;
      mret None) Q (St b h).
Proof.
  intros Ha Hro Hm0 HQ. apply lb_at_unclean in Ha. destruct Ha as [Ho HR HT Hl Hm Hpk].
  set (sh0 := unclean sh) in *. assert (ro sh0 = false) as Hro0 by done.
  destruct (own_write _ _ _ _ _ Ho Hro0) as (l1&w&wd&l2&_&Hwr&Hw&_&_&Hle&Hlw).
  rewrite Hwr. wsteps. eapply wp_next_of; [exact Hw|]. wsteps.
  rewrite (lseg_next _ _ _ _ _ _ (s_lv _ _ _ (proj1 Ho)) Hlw), (s_flush _ _ _ (proj1 Ho)).
  eapply wp_flush_loop; [exact Ho|done|done|done|simpl in *; lia| | |].
  { intros j x nd Hj Hx. destruct (s_nodes _ _ _ (proj1 Ho) _ _ _ Hx) as [_ Hp].
    by apply (po_rd _ _ _ Hp Hj). }
  { pose proof (own_fuel _ _ _ _ _ Ho). apply lookup_lt_Some in Hlw. lia. }
  intros n h1 sh1 Ho1 Hd1 Hn1 Hk1 Hc1 Hdone Hmem ET En Hn0 Hfr. wsteps.
  assert (ro sh1 = false) as Hro1 by (unfold ro; by rewrite Hk1).
  destruct (own_all_done (hmem h) _ _ _ _ _ Ho1 Hro1 Hdone) as [ERT Hp0].
  rewrite ERT, ET, HT, HR in En. apply wp_recalLen_nonneg; [done|]. wsteps.
  apply (HQ _ _ (Sh (dead sh1) (lv sh1) (nw sh1) (nw sh1) (flush_kind (kd sh1)) true));
    [|simpl; by rewrite Hk1|done|fsub Hfr].
  pose proof (own_flushed _ _ _ _ _ Ho1 Hro1 Hdone) as Ho2. rewrite Hwr in Ho2.
  constructor; simpl; rewrite ?Hmem.
  - by eapply own_fields; [..|exact Ho2].
  - congruence.
  - congruence.
  - lia.
  - lia.
  - assert (zlen R <= zlen T) by (rewrite <- HR, <- HT; by eapply own_Rd_le_Tb).
    rewrite <- (app_nil_r T) at 2. apply (peek_ok_app _ _ R _ T []); [|lia|lia].
    rewrite app_nil_r. eapply (peek_ok_keeps b h); [exact Ho| |done]. rewrite Hmem. apply keeps_refl.
Qed.

Lemma wp_Flush b h sh others regs R T bk (Q : option lberr → st → Prop) :
  lb_at b h sh others regs R T bk → ro sh = false →
  (∀ b' h' sh', lb_at b' h' sh' others regs T T 0 → kd sh' = flush_kind (kd sh) → clean sh' = true →
     frame others regs h h' → Q None (St b' h')) →
  wp Flush Q (St b h).
Proof.
  intros Ha Hro HQ. unfold Flush. apply wp_bind, wp_setb, wp_bind, wp_getb, wp_bind, wp_H.
  apply (lb_at_mallocSize _ _ _ _ _ _ _ _ (- mallocSize b)) in Ha. rewrite Z.add_opp_diag_r in Ha.
  destruct (own_write _ _ _ _ _ (a_own _ _ _ _ _ _ _ _ Ha) Hro) as (l1&w&wd&l2&_&Hwr&Hw&_).
  rewrite Hwr. eapply wp_load; [exact Hw|]. destruct (pagesize <? scap (buf wd)).
  - wsteps. eapply wp_new_tail; [exact Ha|done|].
    intros x h1 w1 wd1 sh1 nd Hwr1 Hw1 h2 Ha2 Hk2 Hc2 Hf2 Hl2 Hlen2 Hnn Hfr.
    rewrite Hwr in Hwr1. simplify_eq. wsteps. eapply wp_update; [exact Hw1|].
    apply wp_setb, wp_bind, wp_getb.
    eapply wp_flush_rest; [exact Ha2|unfold ro in *; by rewrite Hk2|done|].
    intros. eapply HQ; try done; [congruence|]. by eapply frame_trans.
  - apply wp_bind, wp_ret, wp_bind, wp_getb. by eapply wp_flush_rest.
Qed.
End flush.

(** ** MallocAck *)

Section ack.
Context {rt : Runtime} {rtok : RuntimeOk rt}.
Implicit Types (b : LinkBuffer) (h : heap) (sh : shape) (others : list loc)
  (regs : list region).

(** The number of bytes of a chain that are allocated and not readable. *)
Definition gap (m : mem) (l : list cell) : Z := zlen (Tb m l) - zlen (Rd m l).

Lemma gap_app m l1 l2 : gap m (l1 ++ l2) = gap m l1 + gap m l2.
Proof. unfold gap. rewrite Tb_app, Rd_app, !zlen_app. lia. Qed.

Lemma gap_cons m x nd l : node_wf m nd → slen (buf nd) <= nmalloc nd →
  gap m ((x, nd) :: l) = (nmalloc nd - slen (buf nd)) + gap m l.
Proof.
  intros Hw ?. unfold gap. rewrite Tb_cons, Rd_cons, !zlen_app, zlen_fb, zlen_rb by done.
  unfold node_Len. lia.
Qed.

(** The node that holds the last of the [n] bytes. *)
Record acked (n : Z) h sh (i : nat) (x : loc) (nd : linkBufferNode) : Prop := Acked {
  ak_lv : lv sh !! i = Some (x, nd);
  ak_nf : (nf sh ≤ i)%nat;
  ak_pos : 0 <= n - gap (hmem h) (take i (lv sh));
  ak_le : n - gap (hmem h) (take i (lv sh)) <= nmalloc nd - slen (buf nd);
}.

(** [b.write.malloc = ack + len(b.write.buf)] *)
Definition ack_node (nd : linkBufferNode) (k : Z) : linkBufferNode :=
  set_malloc (k + slen (buf nd)) nd.

Lemma wp_mallocAck_loop fuel : ∀ b b0 h sh others regs j n (Q : unit → st → Prop),
  own b0 h sh others regs → ro sh = false → (nf sh ≤ j)%nat →
  0 < n - gap (hmem h) (take j (lv sh)) → n <= gap (hmem h) (lv sh) →
  (length (lv sh) - j < fuel)%nat → write b = (lv sh).*1 !! j →
  (∀ i x nd, acked n h sh i x nd →
     let k := n - gap (hmem h) (take i (lv sh)) in
     Q tt (St (set_write (Some x) b) (set_nodes (<[x := ack_node nd k]> (hnodes h)) h))) →
  wp (mallocAck_loop fuel (n - gap (hmem h) (take j (lv sh)))) Q (St b h).
Proof.
  induction fuel as [|fuel IH]; intros b b0 h sh others regs j n Q Ho Hro Hj Hpos Hle Hf Hwr HQ; [lia|].
  destruct (lv sh !! j) as [[x nd]|] eqn:Hx.
  2:{ apply lookup_ge_None in Hx. rewrite take_ge in Hpos by done. lia. }
  destruct (s_nodes _ _ _ (proj1 Ho) _ _ _ Hx) as [Hw Hp].
  pose proof (po_wr _ _ _ Hp Hj) as Hsl.
  pose proof (lseg_lookup _ _ _ _ _ _ _ (s_lv _ _ _ (proj1 Ho)) Hx) as Hhx.
  simpl. destruct (Z.leb_spec (n - gap (hmem h) (take j (lv sh))) 0); [lia|].
  wsteps. rewrite Hwr, list_lookup_fmap, Hx. simpl. eapply wp_load; [exact Hhx|].
  destruct (Z.leb_spec (n - gap (hmem h) (take j (lv sh))) (nmalloc nd - slen (buf nd))).
  - wsteps. eapply wp_update; [exact Hhx|].
    rewrite list_lookup_fmap, Hx in Hwr. simpl in Hwr.
    assert (b = set_write (Some x) b) as -> by (destruct b; simpl in *; by subst).
    eapply (HQ j). constructor; try done; lia.
  - assert (gap (hmem h) (take (S j) (lv sh)) =
      gap (hmem h) (take j (lv sh)) + (nmalloc nd - slen (buf nd))) as Eg.
    { rewrite (take_S_r _ _ _ Hx), gap_app, gap_cons by done. unfold gap at 2. simpl. zl. }
    wsteps. replace (n - gap (hmem h) (take j (lv sh)) - (nmalloc nd - slen (buf nd)))
      with (n - gap (hmem h) (take (S j) (lv sh))) by lia.
    pose proof (lookup_lt_Some _ _ _ Hx).
    eapply (IH _ b0); [exact Ho|done|lia|lia|done|lia| |].
    + simpl. by eapply lseg_next; [apply Ho|].
    + intros i y md Hak. by eapply HQ.
Qed.

(** The heap up to the equality of reference counts. *)
Lemma own_same_refer b h h' sh others regs :
  own b h sh others regs → hnodes h' = hnodes h → hmem h' = hmem h → hpool h' = hpool h →
  hnloc h' = hnloc h → haid h' = haid h → (∀ y, refer_of h' y = refer_of h y) →
  own b h' sh others regs.
Proof.
  intros Ho E1 E2 E3 E4 E5 E6. eapply own_world; [exact Ho|by rewrite E1|by rewrite E2| |].
  { intros. by rewrite E6. }
  destruct Ho as [_ []]. constructor; rewrite ?E1, ?E2, ?E3, ?E4, ?E5; try done.
  intros o Hop. rewrite E6. by apply w_refer.
Qed.

(** [node.off, node.malloc, node.buf = 0, 0, node.buf[:0]] *)
Definition reset_node (nd : linkBufferNode) : linkBufferNode :=
  set_buf (Slice (sarr (buf nd)) (soff (buf nd)) 0 (scap (buf nd))) (set_malloc 0 (set_off 0 nd)).

Lemma reset_node_ok m nd : node_wf m nd → off nd = 0 →
  node_wf m (reset_node nd) ∧ sub (nregion (reset_node nd)) (nregion nd).
Proof.
  intros [] E. split; [constructor; simpl; lia|]. unfold nregion, node_top, reset_node, getMode, sub. simpl.
  rewrite E. destruct (0 <? Z.land (mode nd) readonlyMask); simpl; [left|right]; lia.
Qed.

Definition is_reset (nd : linkBufferNode) : Prop :=
  off nd = 0 ∧ slen (buf nd) = 0 ∧ nmalloc nd = 0.

(** The tail from position [j] on is reset. *)
Record discarded sh (j : nat) sh' : Prop := Discarded {
  di_dead : dead sh' = dead sh; di_nf : nf sh' = nf sh; di_nw : nw sh' = nw sh;
  di_kd : kd sh' = kd sh; di_clean : clean sh' = clean sh;
  di_fst : (lv sh').*1 = (lv sh).*1;
  di_take : take j (lv sh') = take j (lv sh);
  di_reset : ∀ i x nd, (j ≤ i)%nat → lv sh' !! i = Some (x, nd) → is_reset nd;
}.

Lemma wp_discard_loop fuel : ∀ b h sh others regs j (Q : unit → heap → Prop),
  own b h sh others regs → ro sh = false → clean sh = true → kd sh = KPlain → (nf sh < j)%nat →
  (length (lv sh) - j < fuel)%nat →
  (∀ h' sh', own b h' sh' others regs → discarded sh j sh' → hmem h' = hmem h →
     frame others regs h h' → Q tt h') →
  wp (discard_loop fuel ((lv sh).*1 !! j)) Q h.
Proof.
  induction fuel as [|fuel IH]; intros b h sh others regs j Q Ho Hro Hc Hpl Hj Hf HQ; [lia|]. simpl.
  destruct (lv sh !! j) as [[x nd]|] eqn:Hx; rewrite list_lookup_fmap, Hx; simpl.
  2:{ apply wp_ret. apply (HQ h sh); try done; [|apply frame_refl]. constructor; try done.
      intros i y md Hi Hy. apply lookup_ge_None in Hx. apply lookup_lt_Some in Hy. lia. }
  destruct (s_nodes _ _ _ (proj1 Ho) _ _ _ Hx) as [Hw Hp].
  pose proof (lseg_lookup _ _ _ _ _ _ _ (s_lv _ _ _ (proj1 Ho)) Hx) as Hhx.
  assert (refer_of h x = 1) as Hrx by (eapply (s_unref _ _ _ (proj1 Ho) j); [by right|done]).
  destruct (reset_node_ok _ _ Hw (po_plain _ _ _ Hp Hc ltac:(unfold plain; by rewrite Hpl) Hj)) as [Hw' Hsub].
  apply wp_bind. eapply wp_load; [exact Hhx|]. apply wp_bind.
  eapply wp_some; [apply slice3_ok; destruct Hw; lia|]. rewrite Z.add_0_r, !Z.sub_0_r.
  apply wp_bind. eapply wp_update; [exact Hhx|]. fold (reset_node nd).
  apply wp_bind, wp_modify. set (h1 := set_nodes _ h). set (h2 := set_refer _ h1).
  set (sh2 := upd_sh j (x, reset_node nd) sh).
  assert (own b h1 sh2 others regs) as Ho1.
  { eapply own_update; try done. destruct Hp. constructor; simpl; intros; congruence || done || lia. }
  assert (own b h2 sh2 others regs) as Ho2.
  { eapply own_same_refer; [exact Ho1|done..|]. intros y. unfold h2, refer_of. simpl.
    destruct (decide (y = x)) as [->|]; [|by rewrite lookup_insert_ne].
    rewrite lookup_insert_eq. by rewrite <- Hrx. }
  assert ((lv sh2).*1 = (lv sh).*1) as Efst by (by eapply fst_insert).
  rewrite (lseg_next _ _ _ _ _ _ (s_lv _ _ _ (proj1 Ho)) Hx), <- Efst.
  pose proof (lookup_lt_Some _ _ _ Hx).
  eapply (IH b h2 sh2); try done; [simpl; lia|simpl; rewrite length_insert; lia|].
  intros h' sh' Ho' [D1 D2 D3 D4 D5 D6 D7 D8] Hm Hfr. apply (HQ h' sh'); try done.
  - constructor; try done; [congruence| |].
    + rewrite <- (take_insert_ge (lv sh) j j (x, reset_node nd)) by done.
      change (<[j:=(x, reset_node nd)]> (lv sh)) with (lv sh2).
      rewrite <- (Nat.min_l j (S j)), <- !take_take by lia. by rewrite D7.
    + intros i y md Hi Hy. destruct (decide (i = j)) as [->|]; [|apply (D8 i y md); [lia|done]].
      assert (take (S j) (lv sh') !! j = Some (y, md)) as Ht by (rewrite lookup_take_lt by lia; done).
      rewrite D7, lookup_take_lt in Ht by lia. simpl in Ht.
      rewrite list_lookup_insert_eq in Ht by done. by simplify_eq.
  - eapply frame_trans; [|exact Hfr].
    eapply frame_trans; [eapply own_frame_node; [exact Ho|by eapply locs_lv]|].
    split; [done|apply keeps_refl|]. intros y Hy Hy1. unfold h2, refer_of in *. simpl in *.
    destruct (decide (y = x)) as [->|]; [by rewrite lookup_insert_eq|by rewrite lookup_insert_ne].
Qed.

Lemma own_set_write b h sh others regs i x nd :
  own b h sh others regs → ro sh = false → clean sh = true → lv sh !! i = Some (x, nd) →
  (nf sh ≤ i)%nat → (∀ j y md, (i < j)%nat → lv sh !! j = Some (y, md) → is_reset md) →
  own (set_write (Some x) b) h (Sh (dead sh) (lv sh) (nf sh) i (kd sh) (clean sh)) others regs.
Proof.
  intros [[Hd Hl Hf Hw Hi Hn Hu] W] Hro Hc Hx Hle Hres. split; [|done].
  constructor; simpl; try done.
  - by rewrite list_lookup_fmap, Hx.
  - unfold ro in *. simpl. rewrite Hro. apply lookup_lt_Some in Hx. done.
  - intros j y md Hj. destruct (Hn j y md Hj) as [? []]. split; [done|]. constructor; try done.
    intros Hlt. by apply (Hres j y md).
  - intros j y md Hlt Hj. apply (Hu j y md); [|done]. right. split; [done|].
    destruct Hlt as [|[]]; simpl in *; lia.
Qed.

Lemma gap_flushed b h sh others regs :
  own b h sh others regs → gap (hmem h) (take (nf sh) (lv sh)) = 0.
Proof.
  intros [Hs _].
  assert (∀ i x nd, take (nf sh) (lv sh) !! i = Some (x, nd) → nmalloc nd <= slen (buf nd)) as Hall.
  { intros i x nd Hi. apply lookup_take_Some in Hi as [Hi ?].
    destruct (s_nodes _ _ _ Hs _ _ _ Hi) as [_ Hp]. by apply (po_rd _ _ _ Hp). }
  induction (take (nf sh) (lv sh)) as [|[x nd] l IH]; [done|].
  rewrite <- (IH (λ i, Hall (S i))). unfold gap. rewrite Rd_cons, Tb_cons, fb_flushed; [zl|].
  by apply (Hall 0%nat x).
Qed.

Lemma gap_pend m l :
  (∀ i x nd, l !! i = Some (x, nd) → node_wf m nd ∧ slen (buf nd) <= nmalloc nd) → pend l = gap m l.
Proof.
  induction l as [|[x nd] l IH]; intros Hl; [done|]. destruct (Hl 0%nat x nd eq_refl).
  rewrite gap_cons by done. simpl. rewrite IH; [done|]. intros i. apply (Hl (S i)).
Qed.

Lemma gap_nonneg m l :
  (∀ i x nd, l !! i = Some (x, nd) → node_wf m nd ∧ slen (buf nd) <= nmalloc nd) → 0 <= gap m l.
Proof.
  induction l as [|[x nd] l IH]; intros Hl; [done|]. destruct (Hl 0%nat x nd eq_refl).
  rewrite gap_cons by done. assert (0 <= gap m l); [|lia]. apply IH. intros i. apply (Hl (S i)).
Qed.

Lemma own_gap_pend b h sh others regs i :
  own b h sh others regs → (nf sh ≤ i)%nat →
  pend (drop (nf sh) (take i (lv sh))) = gap (hmem h) (take i (lv sh)).
Proof.
  intros Ho Hi. rewrite <- (take_drop (nf sh) (take i (lv sh))) at 2.
  rewrite take_take, Nat.min_l, gap_app, (gap_flushed _ _ _ _ _ Ho) by done.
  apply gap_pend. intros j x nd Hj. rewrite lookup_drop in Hj.
  apply lookup_take_Some in Hj as [Hj ?]. destruct (s_nodes _ _ _ (proj1 Ho) _ _ _ Hj) as [? Hp].
  split; [done|]. apply (po_wr _ _ _ Hp). lia.
Qed.

(** The bytes that are kept. *)
Lemma acked_bytes n b h sh sh' others regs i x nd :
  own b h sh others regs → clean sh = true → acked n h sh i x nd →
  let k := n - gap (hmem h) (take i (lv sh)) in
  discarded (upd_sh i (x, ack_node nd k) sh) (S i) sh' →
  Rd (hmem h) (lv sh') = Rd (hmem h) (lv sh) ∧
  Tb (hmem h) (lv sh') = ztake (zlen (Rd (hmem h) (lv sh)) + n) (Tb (hmem h) (lv sh)) ∧
  pend (drop (nf sh) (lv sh')) = n ∧ lv sh' !! i = Some (x, ack_node nd k).
Proof.
  intros Ho Hc [Hx Hnf Hpos Hle] k Hd. pose proof (lookup_lt_Some _ _ _ Hx) as Hlt.
  destruct (s_nodes _ _ _ (proj1 Ho) _ _ _ Hx) as [Hw Hp]. pose proof (po_wr _ _ _ Hp Hnf) as Hsl.
  set (nd' := ack_node nd k). set (m := hmem h).
  assert (lv sh = take i (lv sh) ++ (x, nd) :: drop (S i) (lv sh)) as E by (by rewrite take_drop_middle).
  assert (lv sh' = take i (lv sh) ++ (x, nd') :: drop (S i) (lv sh')) as E'.
  { rewrite <- (take_drop (S i) (lv sh')) at 1. rewrite (di_take _ _ _ Hd). simpl.
    rewrite insert_take_drop by done. rewrite take_app_ge by (rewrite length_take; lia).
    rewrite length_take, Nat.min_l by lia. replace (S i - i)%nat with 1%nat by lia. simpl.
    rewrite take_0, <- app_assoc. done. }
  assert (pend (drop (nf sh) (take i (lv sh))) = gap m (take i (lv sh))) as Epg
    by (by eapply own_gap_pend).
  destruct (rest_nil m (drop (S i) (lv sh'))) as (R2&T2&P2).
  { intros j y md Hj. rewrite lookup_drop in Hj. eapply (di_reset _ _ _ Hd); [|exact Hj]. lia. }
  assert (Rd m (drop (S i) (lv sh)) = []) as R1.
  { apply Rd_nil. intros j y md Hj. rewrite lookup_drop in Hj.
    destruct (s_nodes _ _ _ (proj1 Ho) _ _ _ Hj) as [_ Hpj]. apply (po_clean _ _ _ Hpj Hc). lia. }
  assert (fb m nd' = ztake (slen (buf nd) + k - off nd) (fb m nd)) as Ef.
  { unfold fb, nd', mget. simpl. destruct Hw. rewrite ztake_zsub by lia. f_equal. lia. }
  assert (Rd m (lv sh) = Rd m (take i (lv sh)) ++ rb m nd) as ER
    by (rewrite E at 1; by rewrite Rd_app, Rd_cons, R1, app_nil_r).
  assert (Tb m (lv sh) = Tb m (take i (lv sh)) ++ fb m nd ++ Tb m (drop (S i) (lv sh))) as ET
    by (rewrite E at 1; by rewrite Tb_app, Tb_cons).
  assert (zlen (Rd m (lv sh)) + n =
    zlen (Tb m (take i (lv sh))) + (slen (buf nd) + k - off nd)) as En.
  { rewrite ER, zlen_app, zlen_rb by done. unfold node_Len, k, gap, m. lia. }
  split_and!.
  - rewrite E', Rd_app, Rd_cons, R2, app_nil_r, ER. done.
  - rewrite E', Tb_app, Tb_cons, T2, app_nil_r, Ef, En, ET. rewrite ztake_app_ge by (destruct Hw; lia).
    f_equal. rewrite ztake_app_le; [f_equal; lia|]. rewrite zlen_fb by done. lia.
  - rewrite E', drop_app_le, pend_app, Epg by (rewrite length_take; lia). simpl.
    specialize (P2 0%nat). rewrite drop_0 in P2. rewrite P2. unfold k, m. lia.
  - rewrite E', lookup_app_r; rewrite length_take, Nat.min_l by lia; [by rewrite Nat.sub_diag|lia].
Qed.

(** The rest of MallocAck, from [b.write = x] on; [ms]: the new mallocSize. *)
Lemma wp_ack_rest n ms b h sh others regs R P bk i x nd (Q : option lberr → st → Prop) :
  lb_at b h sh others regs R (R ++ P) bk → kd sh = KPlain → clean sh = true →
  acked n h sh i x nd → 0 <= n → n <= zlen P →
  (∀ b' h' sh', lb_at b' h' sh' others regs R (R ++ ztake n P) (n - ms) → same_kind sh sh' →
     frame others regs h h' → Q None (St b' h')) →
  let k := n - gap (hmem h) (take i (lv sh)) in
  wp (b ← getb; x ← next_of (write b); fuel ← fuel_of; _ ← H (discard_loop fuel x); mret None) Q
     (St (set_write (Some x) (set_write (flush b) (set_mallocSize ms b)))
         (set_nodes (<[x := ack_node nd k]> (hnodes h)) h)).
Proof.
  intros [Ho HR HT Hl Hm Hpk] Hkd Hc Hak Hn HnP HQ k. pose proof Hak as [Hx Hnf Hpos Hle].
  assert (ro sh = false) as Hro by (unfold ro; by rewrite Hkd).
  destruct (s_nodes _ _ _ (proj1 Ho) _ _ _ Hx) as [Hw Hp]. pose proof (po_wr _ _ _ Hp Hnf) as Hsl.
  set (h1 := set_nodes _ h). set (sh1 := upd_sh i (x, ack_node nd k) sh).
  assert (own b h1 sh1 others (peek_reg b ++ regs)) as Ho1.
  { eapply own_update; try done.
    - destruct Hw. unfold ack_node. constructor; simpl; lia.
    - destruct Hp. constructor; simpl; try done; try lia. congruence.
    - unfold nregion, node_top, ack_node, getMode, sub. simpl.
      destruct (0 <? _); right; split; try done; lia. }
  assert (hnodes h1 !! x = Some (ack_node nd k)) as Hx1 by apply lookup_insert_eq.
  wsteps. simpl write. eapply wp_next_of; [exact Hx1|]. wsteps.
  change (next (ack_node nd k)) with (next nd).
  rewrite (lseg_next _ _ _ _ _ _ (s_lv _ _ _ (proj1 Ho)) Hx).
  assert ((lv sh).*1 = (lv sh1).*1) as -> by (symmetry; by eapply fst_insert).
  eapply wp_discard_loop; [exact Ho1|done|done|done|simpl; lia| |].
  { pose proof (own_fuel _ _ _ _ _ Ho1). lia. }
  intros h2 sh2 Ho2 Hd Hm2 Hfr. wsteps.
  destruct (acked_bytes _ _ _ _ _ _ _ _ _ _ Ho Hc Hak Hd) as (ER&ET&Ep&Hx2).
  pose proof Hd as [D1 D2 D3 D4 D5 D6 D7 D8]. unfold sh1 in D2, D4, D5. simpl in D2, D4, D5.
  eapply (HQ _ _ (Sh (dead sh2) (lv sh2) (nf sh2) i (kd sh2) (clean sh2))); [|split; simpl; congruence|].
  - constructor; simpl; rewrite ?Hm2; try done.
    + assert (own (set_write (Some x) b) h2 (Sh (dead sh2) (lv sh2) (nf sh2) i (kd sh2) (clean sh2))
        others (peek_reg b ++ regs)) as Ho3.
      { eapply own_set_write; [exact Ho2|unfold ro; by rewrite D4|congruence|exact Hx2|lia|].
        intros j y md Hj. apply D8. lia. }
      by eapply own_fields; [..|exact Ho3].
    + change (hmem h1) with (hmem h). congruence.
    + change (hmem h1) with (hmem h). rewrite ET, HR, HT.
      rewrite ztake_app_ge by lia. f_equal. f_equal. lia.
    + rewrite D2, Ep. lia.
    + eapply (peek_ok_app _ _ R _ R P); [|lia|lia].
      eapply (peek_ok_keeps b h); [exact Ho| |done]. rewrite Hm2. apply keeps_refl.
  - eapply frame_trans; [|fsub Hfr].
    eapply frame_sub; [| |eapply own_frame_node; [exact Ho|by eapply locs_lv]]; [done|set_solver].
Qed.

Lemma wp_MallocAck n b h sh others regs R P bk (Q : option lberr → st → Prop) :
  lb_at b h sh others regs R (R ++ P) bk → kd sh = KPlain → clean sh = true →
  0 < n → n <= zlen P →
  (∀ b' h' sh', lb_at b' h' sh' others regs R (R ++ ztake n P) 0 → same_kind sh sh' →
     frame others regs h h' → Q None (St b' h')) →
  wp (MallocAck n) Q (St b h).
Proof.
  intros Ha Hkd Hc Hn HnP HQ. pose proof Ha as [Ho HR HT Hl Hm Hpk].
  assert (ro sh = false) as Hro by (unfold ro; by rewrite Hkd).
  unfold MallocAck. destruct (Z.ltb_spec n 0); [lia|].
  apply wp_bind, wp_setb, wp_bind, wp_getb, wp_bind, wp_setb, wp_bind, wp_fuel_of, wp_bind.
  pose proof (gap_flushed _ _ _ _ _ Ho) as Eg. pose proof (own_fuel _ _ _ _ _ Ho) as Hfu.
  assert (∀ f (Q : unit → st → Prop) s,
    wp (mallocAck_loop f (n - gap (hmem h) (take (nf sh) (lv sh)))) Q s →
    wp (mallocAck_loop f n) Q s) as Hgap by (intros ???; by rewrite Eg, Z.sub_0_r).
  apply Hgap. eapply wp_mallocAck_loop; [exact Ho|done|done|lia| |lia|simpl; apply Ho|].
  { unfold gap. rewrite HT, HR, zlen_app. lia. }
  intros i x nd Hak k. apply (wp_ack_rest n n b h sh others regs R P bk i x nd); try done; try lia.
  intros b' h' sh' Ha'. rewrite Z.sub_diag in Ha'. by apply HQ.
Qed.

(** MallocAck(0) keeps the [k] pending bytes of the node at b.flush, and
    mallocSize does not count them. *)
Lemma wp_MallocAck_zero b h sh others regs R P bk (Q : option lberr → st → Prop) :
  lb_at b h sh others regs R (R ++ P) bk → kd sh = KPlain → clean sh = true →
  (∀ k b' h' sh', 0 <= k <= zlen P → lb_at b' h' sh' others regs R (R ++ ztake k P) k → same_kind sh sh' →
     frame others regs h h' → Q None (St b' h')) →
  wp (MallocAck 0) Q (St b h).
Proof.
  intros Ha Hkd Hc HQ. pose proof Ha as [Ho HR HT Hl Hm Hpk].
  assert (ro sh = false) as Hro by (unfold ro; by rewrite Hkd).
  unfold MallocAck. destruct (Z.ltb_spec 0 0); [lia|].
  apply wp_bind, wp_setb, wp_bind, wp_getb, wp_bind, wp_setb, wp_bind, wp_fuel_of, wp_bind.
  pose proof (gap_flushed _ _ _ _ _ Ho) as Eg. pose proof (own_fuel _ _ _ _ _ Ho) as Hfu.
  pose proof (s_idx _ _ _ (proj1 Ho)) as Hidx. rewrite Hro in Hidx. destruct Hidx as [Hi1 Hi2].
  destruct (lookup_lt_is_Some_2 (lv sh) (nf sh)) as [[x nd] Hx]; [lia|].
  pose proof (s_flush _ _ _ (proj1 Ho)) as Hfl. rewrite list_lookup_fmap, Hx in Hfl. simpl in Hfl.
  pose proof (lseg_lookup _ _ _ _ _ _ _ (s_lv _ _ _ (proj1 Ho)) Hx) as Hhx.
  destruct (s_nodes _ _ _ (proj1 Ho) _ _ _ Hx) as [Hw Hp]. pose proof (po_wr _ _ _ Hp ltac:(lia)) as Hsl.
  set (k := nmalloc nd - slen (buf nd)).
  assert (k <= zlen P) as HkP.
  { assert (gap (hmem h) (lv sh) = zlen P) as <- by (unfold gap; rewrite HT, HR, zlen_app; lia).
    rewrite <- (take_drop_middle _ _ _ Hx), gap_app, Eg, gap_cons by done.
    assert (0 <= gap (hmem h) (drop (S (nf sh)) (lv sh))); [|unfold k; lia].
    apply gap_nonneg. intros i y md Hy. rewrite lookup_drop in Hy.
    destruct (s_nodes _ _ _ (proj1 Ho) _ _ _ Hy) as [? Hpy]. split; [done|]. apply (po_wr _ _ _ Hpy). lia. }
  destruct (nfuel h) as [|fuel] eqn:Ef; [lia|]. simpl. apply wp_ret.
  pose proof (wp_ack_rest k 0 b h sh others regs R P bk (nf sh) x nd Q Ha Hkd Hc) as Hrest. cbv zeta in Hrest.
  rewrite Eg, !Z.sub_0_r in Hrest.
  assert (ack_node nd k = nd) as En by (unfold ack_node, k; rewrite Z.sub_add; by destruct nd).
  rewrite En, insert_id in Hrest by done. rewrite <- Hfl in Hrest.
  assert (set_nodes (hnodes h) h = h) as Eh by (by destruct h). rewrite Eh in Hrest.
  assert (set_write (flush b) (set_write (flush b) (set_mallocSize 0 b)) = set_write (flush b) (set_mallocSize 0 b))
    as Eb by (by destruct b). rewrite Eb in Hrest.
  apply Hrest; [constructor; try done; rewrite Eg; unfold k; lia|unfold k; lia|done|].
  intros b' h' sh' Ha'. apply (HQ k); [unfold k; lia|done].
Qed.
End ack.
