(* ===== verification/LinkBook.v ===== *)
(** * The connection's interface to a link buffer

    NewLinkBuffer; book, bookAck and resetTail, by which a connection reads
    from the kernel into its input buffer. *)

From S2P Require Import Prelude GoMem LinkNode LinkBuffer LinkHeap LinkInv LinkRead LinkScan LinkSlice LinkWrite LinkFlush.

Open Scope Z_scope.

Section book.
Context {rt : Runtime} {rtok : RuntimeOk rt}.
Implicit Types (b : LinkBuffer) (h : heap) (sh : shape) (others : list loc)
  (regs : list region).

(** ** NewLinkBuffer *)

Lemma wp_NewLinkBuffer k size h others regs (Q : LinkBuffer → heap → Prop) :
  world h others regs → k ≠ KSlice →
  (∀ b h', buffer k 0 others regs (St b h') [] [] → frame others regs h h' → Q b h') →
  wp (NewLinkBuffer size) Q h.
Proof.
  intros W Hkd HQ. unfold NewLinkBuffer. apply wp_bind.
  eapply wp_newLinkBufferNode; [exact W|]. intros x h1 nd Hx Hns Hnn W1 Hk Hrx Hrf. apply wp_ret.
  pose proof (new_node_wf _ _ _ Hnn) as Hw. pose proof (new_node_ro _ _ _ Hnn) as Hcap.
  assert (ro (Sh [] [(x, nd)] 0 0 k true) = false) as Hro by (by destruct k).
  destruct Hnn. apply HQ.
  - exists (Sh [] [(x, nd)] 0 0 k true). split; [|done]. constructor; simpl; try done.
    + split; [|done]. constructor; try done; simpl.
      * rewrite Hns, lookup_insert_eq. done.
      * rewrite Hro. lia.
      * intros [|i] y md Hi; [|done]. simpl in Hi. simplify_eq. split; [done|].
        constructor; simpl; intros; try lia. rewrite Hcap by done. lia.
      * intros [|i] y md Hi Hl; [by apply unread_0 in Hi|done].
    + unfold Rd. simpl. by rewrite rb_nil by lia.
    + unfold Tb. simpl. by rewrite fb_nil by lia.
    + lia.
  - split; [|done|]; intros y Hy; assert (y ≠ x) by (by intros ->).
    + by rewrite Hns, lookup_insert_ne.
    + by rewrite Hrf.
Qed.

(** ** book *)

Lemma wp_book bookSize maxSize b h sh others regs R T bk (Q : slice → st → Prop) :
  lb_at b h sh others regs R T bk → kd sh = KInput → 0 < bookSize → 0 < maxSize →
  (∀ p b' h' sh', lb_at b' h' sh' others regs R (T ++ sget (hmem h') p) (bk + slen p) →
     0 < slen p → slen p <= bookSize → zlen (sget (hmem h') p) = slen p → last_window sh' p →
     same_kind sh sh' → mallocSize b' = mallocSize b → frame others regs h h' → Q p (St b' h')) →
  wp (book bookSize maxSize) Q (St b h).
Proof.
  intros Ha Hkd Hb Hmx HQ. assert (ro sh = false) as Hro by (unfold ro; by rewrite Hkd).
  destruct (own_write _ _ _ _ _ (a_own _ _ _ _ _ _ _ _ Ha) Hro) as (l1&w&wd&l2&_&Hwr&Hw&Hwf&Hp&_&Hlw).
  unfold book. wsteps. rewrite Hwr. eapply wp_load; [exact Hw|]. wsteps.
  assert (∀ b1 h1 sh1 l x nd, lb_at b1 h1 sh1 others regs R T bk → 0 < l → l <= bookSize →
    roomy l b1 h1 sh1 x nd → same_kind sh sh1 → mallocSize b1 = mallocSize b → frame others regs h h1 →
    wp (node_Malloc (write b1) l) (λ p h', Q p (St b1 h')) h1) as Hfin.
  { intros b1 h1 sh1 l x nd Ha1 ?? Hry Hk1 Hm1 Hfr1. rewrite (ry_write _ _ _ _ _ _ Hry).
    eapply wp_write_malloc; [exact Ha1|by eapply same_kind_ro|exact Hry|lia|].
    intros p h2 sh2 Ha2 Hsl Hlast _ Hk2 Hc2 Hf2 Hfr2. rewrite <- Hsl in Ha2.
    eapply HQ; try done; [lia|lia| | |by eapply frame_trans].
    - eapply last_window_len; [apply (a_own _ _ _ _ _ _ _ _ Ha2)|done..].
    - destruct Hk1. split; congruence. }
  destruct (Z.eqb_spec (scap (buf wd) - nmalloc wd) 0) as [E|E].
  - wsteps. eapply wp_new_tail; [exact Ha|done|].
    intros x h1 w1 wd1 sh1 nd Hwr1 Hw1 h2 Ha2 Hk2 Hc2 Hf2 Hl2 Hlen2 Hnn Hfr.
    rewrite Hwr in Hwr1. simplify_eq. wsteps. eapply wp_update; [exact Hw1|]. wsteps.
    destruct Hnn. destruct (nn_rw Hmx) as [Em Hcap].
    eapply (Hfin _ _ sh1 _ x nd Ha2); [zcase..| |done|done|done].
    constructor; try done; [|unfold getMode; by rewrite Em|rewrite nn_malloc; zcase].
    eapply lseg_lookup; [apply (s_lv _ _ _ (proj1 (a_own _ _ _ _ _ _ _ _ Ha2)))|exact Hl2].
  - wsteps. destruct Hwf. eapply (Hfin _ _ sh _ w wd Ha); [zcase..| |done|done|apply frame_refl].
    constructor; try done; [|zcase].
    apply not_true_is_false. intros Er. pose proof (po_input _ _ _ Hp Hkd Er). lia.
Qed.

(** ** bookAck *)

Lemma pend_nonneg l : (∀ i x nd, l !! i = Some (x, nd) → slen (buf nd) <= nmalloc nd) → 0 <= pend l.
Proof.
  induction l as [|[x nd] l IH]; intros Hl; simpl; [done|]. pose proof (Hl 0%nat x nd eq_refl).
  assert (0 <= pend l) by (apply IH; intros i; apply (Hl (S i))). lia.
Qed.

Lemma pend_zero l : (∀ i x nd, l !! i = Some (x, nd) → slen (buf nd) <= nmalloc nd) → pend l = 0 →
  ∀ i x nd, l !! i = Some (x, nd) → nmalloc nd = slen (buf nd).
Proof.
  induction l as [|[y md] l IH]; intros Hl Hz i x nd Hi; [done|]. simpl in Hz.
  pose proof (Hl 0%nat y md eq_refl).
  assert (0 <= pend l) by (apply pend_nonneg; intros j; apply (Hl (S j))).
  destruct i as [|i]; simpl in Hi; [simplify_eq; lia|].
  apply (IH (λ j, Hl (S j))) in Hi; [done|lia].
Qed.

(** All that is pending is in the first [j] nodes' successors. *)
Lemma own_done_to b h sh others regs l1 l2 :
  own b h sh others regs → ro sh = false → lv sh = l1 ++ l2 → (nf sh ≤ length l1)%nat →
  pend (drop (nf sh) l1) = 0 → done_to sh (length l1).
Proof.
  intros [Hs _] Hro El Hnf Hz j x nd Hj Hx.
  assert (l1 !! j = Some (x, nd)) as Hx1 by (rewrite El, lookup_app_l in Hx by lia; done).
  destruct (decide (j < nf sh)%nat) as [Hlt|].
  - destruct (s_nodes _ _ _ Hs _ _ _ Hx) as [_ Hp]. by apply (po_rd _ _ _ Hp Hlt).
  - eapply pend_zero; [|exact Hz|].
    + intros i y md Hi. rewrite lookup_drop in Hi.
      destruct (s_nodes _ _ _ Hs (nf sh + i) y md) as [_ Hp].
      { rewrite El. by apply lookup_app_l_Some. }
      apply (po_wr _ _ _ Hp). lia.
    + rewrite lookup_drop. replace (nf sh + (j - nf sh))%nat with j by lia. exact Hx1.
Qed.

(** The node after bookAck. *)
Definition ack_book (wd : linkBufferNode) (n : Z) : linkBufferNode :=
  set_buf (Slice (sarr (buf wd)) (soff (buf wd)) (n + slen (buf wd)) (scap (buf wd)))
    (set_malloc (n + slen (buf wd)) wd).

Lemma book_split m sh p l1 w wd l2 R X nfl :
  last_window sh p → at_write sh l1 w wd l2 → node_wf m wd → Tb m l2 = [] → pend l2 = 0 →
  Tb m (lv sh) = R ++ X → zlen X = slen p → nfl = nf sh → (nfl ≤ nw sh)%nat →
  0 <= pend (drop nfl l1) → pend (drop nfl (lv sh)) = slen p →
  pend (drop nfl l1) = 0 ∧ R = Tb m l1 ++ rb m wd ∧ nmalloc wd = slen (buf wd) + slen p ∧
  (∀ n, 0 <= n → n <= slen p →
     node_wf m (ack_book wd n) ∧ fb m (ack_book wd n) = rb m wd ++ ztake n X) ∧
  getMode wd readonlyMask = false.
Proof.
  intros Hlast Hat Hw HT2 Hp2 HT HX -> Hnf Hz Hp.
  destruct (last_window_split _ _ _ _ _ _ _ Hlast Hat Hw HT2) as (A&ET&Ezl&EA&Ea&Hp0&Hmd&Hs1&Hs2).
  rewrite HT in ET. apply app_inj_2 in ET as [ET EX]; [|unfold zlen in *; lia].
  destruct Hat as [El El1]. rewrite El, drop_app_le, pend_app in Hp by lia. simpl in Hp.
  assert (soff p = soff (buf wd) + slen (buf wd)) as Eso by lia.
  assert (A = rb m wd) as EAr by (rewrite EA, Ea, Eso; done).
  split_and!; [lia|by rewrite ET, EAr|lia| |done].
  intros n ??. destruct Hw. split; [constructor; simpl; lia|].
  unfold fb, ack_book. simpl. rewrite Z.max_l by lia.
  rewrite (mget_split _ _ _ (soff (buf wd) + slen (buf wd))) by lia. f_equal.
  rewrite EX. unfold sget. rewrite Ea, Eso. unfold mget. rewrite ztake_zsub by lia. f_equal. lia.
Qed.

Lemma wp_bookAck n b h sh others regs R X p (Q : Z * option lberr → st → Prop) :
  lb_at b h sh others regs R (R ++ X) (slen p) → kd sh = KInput → mallocSize b = 0 →
  last_window sh p → zlen X = slen p → 0 <= n → n <= slen p →
  (∀ b' h' sh', lb_at b' h' sh' others regs (R ++ ztake n X) (R ++ ztake n X) 0 →
     kd sh' = KInput → clean sh' = true → mallocSize b' = 0 → frame others regs h h' →
     Q (zlen R + n, None) (St b' h')) →
  wp (bookAck n) Q (St b h).
Proof.
  intros Ha Hkd Hm0 Hlast HX Hn0 Hn HQ. assert (ro sh = false) as Hro by (unfold ro; by rewrite Hkd).
  apply lb_at_unclean in Ha. destruct Ha as [Ho HR HT Hl Hm Hpk].
  destruct (own_write _ _ _ _ _ Ho Hro) as (l1&w&wd&l2&Hat&Hwr&Hw&Hwf&Hp&Hle&Hlw).
  destruct (rest_nil (hmem h) l2) as (_&HT2&Hp2); [by eapply own_rest|].
  specialize (Hp2 0%nat). rewrite drop_0 in Hp2.
  assert (0 <= pend (drop (nf sh) l1)) as Hpn.
  { apply pend_nonneg. intros i y md Hi. rewrite lookup_drop in Hi.
    destruct (s_nodes _ _ _ (proj1 Ho) (nf sh + i) y md) as [_ Hpi].
    { rewrite (proj1 Hat). by apply lookup_app_l_Some. }
    apply (po_wr _ _ _ Hpi). simpl. lia. }
  destruct (book_split _ _ p _ _ _ _ _ _ (nf sh) Hlast Hat Hwf HT2 Hp2 HT HX) as (Hz&ER&Enm&Hack&Hmd);
    [done..|simpl in Hm; lia|].
  destruct (Hack n Hn0 Hn) as [Hwf' Hfb].
  unfold bookAck. wsteps. rewrite Hwr. eapply wp_load; [exact Hw|]. wsteps.
  eapply wp_update; [exact Hw|]. wsteps. eapply wp_some; [apply slice3_ok; destruct Hwf'; simpl in *; lia|].
  wsteps. rewrite Z.add_0_r, !Z.sub_0_r. eapply wp_update; [apply lookup_insert_eq|]. simpl.
  rewrite insert_insert_eq. fold (ack_book wd n). wsteps. apply wp_recalLen_nonneg; [done|]. wsteps. simpl.
  change (set_nodes _ (set_nodes _ h)) with (set_nodes (<[w := ack_book wd n]> (hnodes h)) h).
  set (h1 := set_nodes _ h). set (sh1 := upd_sh (nw sh) (w, ack_book wd n) (unclean sh)).
  assert (own b h1 sh1 others (peek_reg b ++ regs)) as Ho1.
  { eapply own_update; [exact Ho|exact Hlw|done..| |].
    - destruct Hp. constructor; simpl in *; try done; intros; try lia.
      unfold getMode, ack_book in *. simpl in *. congruence.
    - unfold nregion, node_top, ack_book, getMode in *. simpl. rewrite Hmd. apply sub_refl. }
  assert (lv sh1 = l1 ++ (w, ack_book wd n) :: l2) as Elv.
  { pose proof Hat as [Ea1 Ea2]. simpl in Ea1, Ea2 |- *. rewrite Ea1, <- Ea2. by rewrite insert_app_r_alt, Nat.sub_diag by lia. }
  assert (done_to sh1 (S (nw sh1))) as Hdone.
  { assert (done_to sh1 (length l1)) as Hd1 by (eapply own_done_to; [exact Ho1|done|exact Elv|simpl; rewrite (proj2 Hat); done|done]).
    intros j x nd Hj Hx. destruct (decide (j < length l1)%nat); [by eapply Hd1|].
    assert (j = length l1) as -> by (pose proof (proj2 Hat) as E2; simpl in *; lia).
    rewrite Elv, list_lookup_middle in Hx by done. by simplify_eq. }
  destruct (own_all_done (hmem h) _ _ _ _ _ Ho1 Hro Hdone) as [ERT Hp0].
  assert (Tb (hmem h) (lv sh1) = R ++ ztake n X) as ET1.
  { rewrite Elv, Tb_app, Tb_cons, HT2, app_nil_r, Hfb, ER, <- app_assoc. done. }
  pose proof (own_flushed _ _ _ _ _ Ho1 Hro Hdone) as Ho2. rewrite Hl. rewrite Hwr in Ho2.
  apply (HQ _ _ (Sh (dead sh1) (lv sh1) (nw sh1) (nw sh1) (flush_kind (kd sh1)) true)); try done.
  - constructor; simpl; try done.
    + by eapply own_fields; [..|exact Ho2].
    + change (lv sh1) with (<[nw sh := (w, ack_book wd n)]> (lv sh)) in *. congruence.
    + rewrite zlen_app, zlen_ztake. lia.
    + simpl in Hp0. lia.
    + eapply (peek_ok_app _ _ R _ R X); [exact Hpk| |lia]. rewrite zlen_app. zl.
  - simpl. by rewrite Hkd.
  - eapply frame_sub; [| |eapply own_frame_node; [exact Ho|by eapply locs_lv]]; [done|set_solver].
Qed.

(** ** resetTail *)

Lemma wp_resetTail maxSize b h sh others regs R bk (Q : unit → st → Prop) :
  lb_at b h sh others regs R R bk → ro sh = false → clean sh = true →
  (∀ b' h' sh', lb_at b' h' sh' others regs R R bk → mallocSize b' = mallocSize b →
     (kd sh' = kd sh ∨ kd sh' = flush_kind (kd sh)) → clean sh' = true →
     frame others regs h h' → Q tt (St b' h')) →
  wp (resetTail maxSize) Q (St b h).
Proof.
  intros Ha Hro Hc HQ. unfold resetTail. destruct (maxSize <=? pagesize).
  { wsteps. eapply HQ; [done..|by left|done|apply frame_refl]. }
  wsteps. eapply wp_new_tail; [exact Ha|done|].
  intros x h1 w1 wd1 sh1 nd Hwr1 Hw1 h2 Ha2 Hk2 Hc2 Hf2 Hl2 Hlen2 Hnn Hfr.
  wsteps. rewrite Hwr1. eapply wp_update; [exact Hw1|]. wsteps. fold h2.
  destruct Ha2 as [Ho2 HR2 HT2 Hl Hm Hpk].
  assert (ro sh1 = false) as Hro1 by (unfold ro in *; by rewrite Hk2).
  pose proof (s_idx _ _ _ (proj1 Ho2)) as Hidx. rewrite Hro1 in Hidx.
  assert (pend (drop (nf sh1) (lv sh1)) = 0) as Hz.
  { assert (gap (hmem h2) (lv sh1) = 0) as Eg by (unfold gap; rewrite HR2, HT2; lia).
    rewrite <- Eg, <- (take_ge (lv sh1) (length (lv sh1))) at 1 by lia.
    rewrite (own_gap_pend _ _ _ _ _ _ Ho2) by lia. by rewrite take_ge by lia. }
  assert (done_to sh1 (S (nw sh1))) as Hdone.
  { rewrite <- Hlen2. eapply own_done_to; [exact Ho2|done|by rewrite app_nil_r|lia|done]. }
  pose proof (own_flushed _ _ _ _ _ Ho2 Hro1 Hdone) as Ho3. simpl in Ho3.
  destruct (own_all_done (hmem h2) _ _ _ _ _ Ho2 Hro1 Hdone) as [_ Hp0].
  apply (HQ _ _ (Sh (dead sh1) (lv sh1) (nw sh1) (nw sh1) (flush_kind (kd sh1)) true)); try done.
  - constructor; try done. simpl in *. lia.
  - right. simpl. by rewrite Hk2.
Qed.
End book.
