(* ===== verification/LinkBytes.v ===== *)
(** * Bytes and GetBytes of the link buffer

    What the connection's interface shows of the readable bytes: GetBytes the
    windows of the nodes in place, for the vectored send, and Bytes all of
    them in one slice. *)

From S2P Require Import Prelude GoMem SysExec LinkNode LinkBuffer LinkHeap LinkInv LinkRead LinkScan LinkSlice.

Open Scope Z_scope.

(** [node.buf[node.off:]] *)
Definition window (nd : linkBufferNode) : slice :=
  Slice (sarr (buf nd)) (soff (buf nd) + off nd) (slen (buf nd) - off nd) (scap (buf nd) - off nd).

Definition nonempty (l : list cell) : list cell := filter (λ c, 0 < node_Len c.2) l.
Definition windows (l : list cell) : list slice := (λ c, window c.2) <$> nonempty l.

Lemma slice_from_window m nd : node_wf m nd → slice_from (buf nd) (off nd) = Some (window nd).
Proof. intros []. unfold slice_from. apply slice3_ok; lia. Qed.

Lemma sget_window m nd : sget m (window nd) = rb m nd.
Proof. unfold sget, rb, window. simpl. f_equal. lia. Qed.

Lemma sub_window m nd : node_wf m nd → sub (sregion (window nd)) (nregion nd).
Proof. intros []. unfold sub, sregion, nregion, node_top. simpl. right. case_match; split_and!; try done; lia. Qed.

Lemma valid_window m nd : node_wf m nd → valid m (window nd).
Proof. intros []. unfold valid, window. simpl. lia. Qed.

Lemma contents_app m vs ws : contents m (vs ++ ws) = contents m vs ++ contents m ws.
Proof. unfold contents. by rewrite fmap_app, join_app. Qed.

(** The windows of the nodes that hold something show what is readable; *)
Lemma contents_windows m l : (∀ i x nd, l !! i = Some (x, nd) → node_wf m nd) →
  contents m (windows l) = Rd m l.
Proof.
  induction l as [|[x nd] l IH]; intros Hl; [done|].
  assert (node_wf m nd) as Hw by (by eapply (Hl 0%nat)).
  rewrite Rd_cons, <- IH by (intros i; apply (Hl (S i))).
  unfold windows, nonempty. rewrite filter_cons. simpl. case_decide as E; simpl.
  - unfold contents at 1. rewrite fmap_cons. simpl. by rewrite sget_window.
  - rewrite rb_nil; [done|]. destruct Hw. unfold node_Len in E. lia.
Qed.

Lemma windows_sub m l : (∀ i x nd, l !! i = Some (x, nd) → node_wf m nd) →
  ∃ rs, rs `sublist_of` cregs l ∧ Forall2 sub (sregion <$> windows l) rs.
Proof.
  induction l as [|[x nd] l IH]; intros Hl; [by exists []|].
  destruct IH as (rs&Hs&Hf); [intros i; apply (Hl (S i))|].
  unfold windows, nonempty. rewrite filter_cons. simpl. case_decide; simpl.
  - exists (nregion nd :: rs). split; [by apply sublist_skip|]. constructor; [|done].
    by eapply sub_window, (Hl 0%nat).
  - exists rs. split; [by apply sublist_cons|done].
Qed.

Lemma sep_sublist rs rs' : rs `sublist_of` rs' → sep rs' → sep rs.
Proof.
  induction 1 as [|r rs rs' Hs IH|r rs rs' Hs IH]; simpl; [done| |naive_solver].
  intros [Hd ?]. split; [|by apply IH]. eapply Forall_forall. intros x Hx.
  rewrite Forall_forall in Hd. apply Hd. by eapply elem_of_submseteq, sublist_submseteq.
Qed.

Lemma windows_sep m l : (∀ i x nd, l !! i = Some (x, nd) → node_wf m nd) → sep (cregs l) →
  sep (sregion <$> windows l).
Proof.
  intros Hl Hs. destruct (windows_sub m l Hl) as (rs&Hsub&Hf).
  pose proof (sep_sublist _ _ Hsub Hs). rewrite <- (app_nil_r (sregion <$> _)).
  eapply sep_sub; [exact Hf|by rewrite app_nil_r].
Qed.

Lemma windows_valid m l : (∀ i x nd, l !! i = Some (x, nd) → node_wf m nd) →
  Forall (λ v, valid m v ∧ 0 < slen v) (windows l).
Proof.
  intros Hl. unfold windows, nonempty. apply Forall_fmap, Forall_forall. intros [x nd] [Hn Hx]%list_elem_of_filter.
  apply list_elem_of_lookup in Hx as [i Hi]. simpl in *. split; [by eapply valid_window, Hl|].
  by unfold node_Len in Hn.
Qed.

Section bytes.
Context {rt : Runtime} {rtok : RuntimeOk rt}.
Implicit Types (b : LinkBuffer) (h : heap) (sh : shape) (others : list loc)
  (regs : list region).

Lemma at_flush b h sh others regs j :
  own b h sh others regs → (j ≤ nf sh)%nat →
  peq ((lv sh).*1 !! j) (flush b) = bool_decide (j = nf sh).
Proof.
  intros Ho Hj. pose proof (own_nodup_lv _ _ _ _ _ Ho) as Hn. destruct Ho as [Hs _].
  unfold peq. apply bool_decide_ext. rewrite (s_flush _ _ _ Hs). split; [|by intros ->].
  intros E. pose proof (s_idx _ _ _ Hs) as Hi.
  destruct (decide (j = nf sh)) as [|Hne]; [done|].
  destruct (lookup_lt_is_Some_2 (lv sh).*1 j) as [x Hx]; [rewrite length_fmap; destruct (ro sh); lia|].
  rewrite Hx in E. symmetry in E. by eapply NoDup_lookup.
Qed.

Lemma at_index b h sh others regs j x nd :
  own b h sh others regs → lv sh !! j = Some (x, nd) →
  (lv sh).*1 !! j = Some x ∧ hnodes h !! x = Some nd ∧ node_wf (hmem h) nd ∧
  next nd = (lv sh).*1 !! S j.
Proof.
  intros [Hs _] Hx. split_and!.
  - by rewrite list_lookup_fmap, Hx.
  - eapply lseg_lookup; [exact (s_lv _ _ _ Hs)|done].
  - by eapply (s_nodes _ _ _ Hs).
  - eapply lseg_next; [exact (s_lv _ _ _ Hs)|done].
Qed.

Lemma wp_getBytes_loop fuel : ∀ b h sh others regs j i plen (Q : list slice → heap → Prop),
  own b h sh others regs → (j ≤ nf sh)%nat → (length (lv sh) < j + fuel)%nat → i <= plen →
  (∀ k, (j ≤ k ≤ nf sh)%nat →
     let vs := windows (drop j (take k (lv sh))) in
     i + zlen vs <= plen → (k = nf sh ∨ i + zlen vs = plen) → Q vs h) →
  wp (getBytes_loop fuel ((lv sh).*1 !! j) (flush b) i plen) Q h.
Proof.
  induction fuel as [|fuel IH]; intros b h sh others regs j i plen Q Ho Hj Hf Hi HQ.
  { pose proof (s_idx _ _ _ (proj1 Ho)). destruct (ro sh); lia. }
  assert (∀ x, windows (drop x (take x (lv sh))) = []) as Hnil.
  { intros x. rewrite drop_ge by (rewrite length_take; lia). done. }
  simpl. rewrite (at_flush _ _ _ _ _ _ Ho Hj).
  destruct (Z.ltb_spec i plen) as [Hlt|Hge].
  2:{ rewrite andb_false_r. apply wp_ret. specialize (HQ j). rewrite Hnil in HQ. apply HQ; rewrite ?zlen_nil; lia. }
  case_bool_decide as Ej; simpl.
  { apply wp_ret. specialize (HQ j). rewrite Hnil in HQ. apply HQ; rewrite ?zlen_nil; lia. }
  destruct (lookup_lt_is_Some_2 (lv sh) j) as [[x nd] Hx].
  { pose proof (s_idx _ _ _ (proj1 Ho)). destruct (ro sh); lia. }
  destruct (at_index _ _ _ _ _ _ _ _ Ho Hx) as (Ex&Hn&Hw&Enx). rewrite Ex.
  wsteps. eapply wp_load; [exact Hn|]. rewrite Enx.
  assert (∀ k, (S j ≤ k)%nat → windows (drop j (take k (lv sh))) =
    (if 0 <? node_Len nd then [window nd] else []) ++ windows (drop (S j) (take k (lv sh)))) as Hcons.
  { intros k Hk. rewrite (drop_S _ (x, nd) j) by (by rewrite lookup_take_lt by lia).
    unfold windows, nonempty. rewrite filter_cons. simpl.
    destruct (Z.ltb_spec 0 (node_Len nd)); [by rewrite decide_True|by rewrite decide_False by lia]. }
  destruct (Z.ltb_spec 0 (node_Len nd)).
  - wsteps. eapply wp_some; [by eapply slice_from_window|]. wsteps. eapply IH; [exact Ho|lia..|].
    intros k Hk vs Hle Hend. apply wp_ret. specialize (HQ k). rewrite Hcons in HQ by lia. simpl in HQ.
    rewrite zlen_cons in HQ. apply HQ; fold vs; lia.
  - eapply IH; [exact Ho|lia..|]. intros k Hk vs Hle Hend. specialize (HQ k).
    rewrite Hcons in HQ by lia. apply HQ; [lia|done..].
Qed.

Lemma read_index b h sh others regs : own b h sh others regs → read b = (lv sh).*1 !! 0%nat.
Proof.
  intros [Hs _]. pose proof (s_lv _ _ _ Hs) as Hl. destruct (lv sh) as [|[x nd] l]; [done|].
  by destruct Hl.
Qed.

Lemma own_wf_take b h sh others regs k i x nd :
  own b h sh others regs → take k (lv sh) !! i = Some (x, nd) → node_wf (hmem h) nd.
Proof. intros [Hs _] [Hi _]%lookup_take_Some. by eapply (s_nodes _ _ _ Hs). Qed.

Lemma own_sep b h sh others regs : own b h sh others regs → sep (cregs (lv sh)).
Proof. intros [_ W]. pose proof (w_sep _ _ _ W) as Hs. rewrite sep_app in Hs. apply Hs. Qed.

(** Everything that is readable is in the nodes up to b.flush. *)
Lemma Rd_upto b h sh others regs : own b h sh others regs → clean sh = true →
  Rd (hmem h) (take (S (nf sh)) (lv sh)) = Rd (hmem h) (lv sh).
Proof.
  intros [Hs _] Hc. rewrite <- (take_drop (S (nf sh)) (lv sh)) at 2. rewrite Rd_app.
  rewrite (Rd_nil _ (drop _ _)); [by rewrite app_nil_r|].
  intros i x nd Hi. rewrite lookup_drop in Hi. destruct (s_nodes _ _ _ Hs _ _ _ Hi) as [_ Hp].
  apply (po_clean _ _ _ Hp); [done|lia].
Qed.

(** What the windows that GetBytes returns are: at most [plen] windows of the
    buffer's memory that do not overlap, with the next bytes to read, all of
    them when there is room for more windows. *)
Record windows_of (m : mem) (R : list byte) (plen : Z) (vs : list slice) : Prop := WindowsOf {
  wo_len : zlen vs <= plen;
  wo_valid : Forall (valid m) vs;
  wo_sep : sep (sregion <$> vs);
  wo_rest : ∃ rest, R = contents m vs ++ rest ∧ (zlen vs < plen → rest = []);
  wo_some : R ≠ [] → contents m vs ≠ [];
}.

Lemma windows_part m l1 l2 plen :
  (∀ i x nd, (l1 ++ l2) !! i = Some (x, nd) → node_wf m nd) → sep (cregs (l1 ++ l2)) →
  0 < plen → zlen (windows l1) = plen →
  windows_of m (Rd m (l1 ++ l2)) plen (windows l1).
Proof.
  intros Hl Hs Hp Hn.
  assert (∀ i x nd, l1 !! i = Some (x, nd) → node_wf m nd) as Hl1.
  { intros i x nd Hi. eapply Hl. by apply lookup_app_l_Some. }
  rewrite cregs_app, sep_app in Hs. destruct Hs as [Hs _].
  pose proof (windows_valid m l1 Hl1) as Hv. constructor; [lia| | | |].
  - eapply Forall_impl; [exact Hv|]. by intros ? [].
  - by eapply windows_sep.
  - exists (Rd m l2). rewrite Rd_app, contents_windows by done. split; [done|lia].
  - intros _. destruct (windows l1) as [|v vs]; [rewrite zlen_nil in Hn; lia|].
    apply Forall_cons in Hv as [[(?&?&?) ?] _]. unfold contents. rewrite fmap_cons. simpl.
    intros [E _]%app_eq_nil. assert (zlen (sget m v) = slen v) as Hz.
    { unfold sget. rewrite zlen_mget by lia. lia. }
    rewrite E, zlen_nil in Hz. lia.
Qed.

Lemma windows_all m l x nd plen R :
  (∀ i y md, (l ++ [(x, nd)]) !! i = Some (y, md) → node_wf m md) → sep (cregs (l ++ [(x, nd)])) →
  zlen (windows l) < plen → Rd m (l ++ [(x, nd)]) = R →
  windows_of m R plen (windows l ++ [window nd]).
Proof.
  intros Hl Hs Hp HR.
  assert (∀ i y md, l !! i = Some (y, md) → node_wf m md) as Hl1.
  { intros i y md Hi. eapply Hl. by apply lookup_app_l_Some. }
  assert (node_wf m nd) as Hw.
  { eapply (Hl (length l)). rewrite lookup_app_r, Nat.sub_diag by lia. done. }
  assert (contents m (windows l ++ [window nd]) = R) as Hc.
  { rewrite contents_app, contents_windows, <- HR, Rd_app by done. f_equal.
    unfold contents, Rd. simpl. by rewrite sget_window. }
  constructor.
  - rewrite zlen_app. unfold zlen at 2. simpl. lia.
  - apply Forall_app. split; [|by apply Forall_singleton, valid_window].
    eapply Forall_impl; [by apply windows_valid|]. by intros ? [].
  - destruct (windows_sub m l Hl1) as (rs&Hsub&Hf). rewrite fmap_app, <- app_nil_r.
    apply (sep_sub (rs ++ [nregion nd])).
    + apply Forall2_app; [done|]. constructor; [by eapply sub_window|constructor].
    + rewrite app_nil_r. eapply sep_sublist; [|exact Hs]. rewrite cregs_app. by apply sublist_app.
  - exists []. by rewrite app_nil_r, Hc.
  - by rewrite Hc.
Qed.

Lemma wp_GetBytes b h sh others regs R T bk plen (Q : list slice → st → Prop) :
  lb_at b h sh others regs R T bk → clean sh = true → ro sh = false → 0 < plen →
  (∀ vs, windows_of (hmem h) R plen vs → Q vs (St b h)) → wp (GetBytes plen) Q (St b h).
Proof.
  intros [Ho HR _ _ _ _] Hc Hro Hp HQ. unfold GetBytes. wsteps.
  destruct (Z.eqb_spec plen 0); [lia|]. wsteps. rewrite (read_index _ _ _ _ _ Ho).
  eapply wp_getBytes_loop; [exact Ho|lia|pose proof (own_fuel _ _ _ _ _ Ho); lia|lia|].
  intros k Hk vs Hle Hend.
  pose proof (s_idx _ _ _ (proj1 Ho)) as Hi. rewrite Hro in Hi.
  assert (∀ k i x nd, take k (lv sh) !! i = Some (x, nd) → node_wf (hmem h) nd) as Hw
    by (intros *; by eapply own_wf_take).
  pose proof (own_sep _ _ _ _ _ Ho) as Hs.
  destruct (Z.ltb_spec (zlen vs) plen) as [Hlt|Hge].
  - destruct Hend as [->|]; [|lia].
    destruct (lookup_lt_is_Some_2 (lv sh) (nf sh)) as [[x nd] Hx]; [lia|].
    destruct (at_index _ _ _ _ _ _ _ _ Ho Hx) as (Ex&Hn&Hwn&_).
    rewrite (s_flush _ _ _ (proj1 Ho)), Ex. wsteps. eapply wp_load; [exact Hn|]. wsteps.
    eapply wp_some; [by eapply slice_from_window|]. wsteps. apply HQ. subst vs. rewrite drop_0 in Hlt |- *.
    pose proof (take_S_r _ _ _ Hx) as Et. eapply windows_all.
    + rewrite <- Et. apply Hw.
    + rewrite <- Et. rewrite <- (take_drop (S (nf sh)) (lv sh)), cregs_app, sep_app in Hs. apply Hs.
    + done.
    + rewrite <- Et. by erewrite Rd_upto.
  - wsteps. apply HQ. subst vs. rewrite drop_0 in Hle, Hge |- *.
    rewrite <- HR, <- (take_drop k (lv sh)) at 1. apply windows_part; rewrite ?take_drop; [|done|done|lia].
    intros i x nd Hx. by eapply (s_nodes _ _ _ (proj1 Ho)).
Qed.

(** ** Bytes *)

Lemma mput_nil m a pos : is_Some (m !! a) → 0 <= pos → mput m a pos [] = m.
Proof.
  intros [bs Hm] ?. unfold mput. apply insert_id. unfold zput, arr. rewrite Hm. simpl.
  by rewrite zlen_nil, Z.add_0_r, ztake_zdrop.
Qed.

(** The first bytes of [p] are [pre]. *)
Definition starts_with (m : mem) (p : slice) (pre : list byte) : Prop :=
  mget m (sarr p) (soff p) (soff p + zlen pre) = pre ∧ is_Some (m !! sarr p).

(** [copy(p[n:], bs)], where the first [n] bytes are there already *)
Lemma copy_next b h sh others regs p pre bs :
  own b h sh others (sregion p :: regs) → starts_with (hmem h) p pre →
  0 <= soff p → slen p <= scap p → zlen pre + zlen bs <= slen p →
  ∃ dst, slice_from p (zlen pre) = Some dst ∧ Z.min (slen dst) (zlen bs) = zlen bs ∧
    let h' := set_mem (scopy (hmem h) dst bs) h in
    own b h' sh others (sregion p :: regs) ∧ keeps (hmem h) (hmem h') (cregs (lv sh) ++ regs) ∧
    starts_with (hmem h') p (pre ++ bs).
Proof.
  intros Ho [Hpre Hsome] Hoff Hcap Hfit. pose proof (zlen_nonneg pre). pose proof (zlen_nonneg bs).
  pose proof (w_regs _ _ _ (proj2 Ho)) as Hr. apply Forall_app in Hr as [_ Hr].
  apply Forall_cons in Hr as [[??] _]. simpl in *.
  destruct (copy_window (hmem h) p (zlen pre) bs) as (Hf&Hcp&Hg); [lia..|].
  eexists. split; [exact Hf|]. simpl. rewrite Hcp, Z.min_r by lia. split; [done|].
  assert (starts_with (mput (hmem h) (sarr p) (soff p + zlen pre) bs) p (pre ++ bs)) as Hst.
  { split; [by rewrite zlen_app, Z.add_assoc, Hg, Hpre|]. unfold mput. by rewrite lookup_insert_eq. }
  destruct (Z.eqb_spec (zlen bs) 0) as [E|E].
  - apply zlen_0_nil in E as ->. rewrite mput_nil in Hst |- * by (done || lia).
    assert (set_mem (hmem h) h = h) as -> by (by destruct h).
    split_and!; [done|apply keeps_refl|done].
  - destruct (own_mput _ _ _ _ _ _ bs (soff p + zlen pre) Ho) as [Ho' Hk]; [simpl; lia..|]. done.
Qed.

Lemma Rd_keeps b h h' sh others regs rs k :
  own b h sh others regs → keeps (hmem h) (hmem h') (cregs (lv sh) ++ rs) →
  Rd (hmem h') (take k (lv sh)) = Rd (hmem h) (take k (lv sh)).
Proof.
  intros Ho Hk. apply Rd_Tb_keeps; [intros *; by eapply own_wf_take|].
  rewrite <- (take_drop k (lv sh)), cregs_app in Hk. ksub Hk.
Qed.

Lemma Rd_take_S m l j x nd : l !! j = Some (x, nd) → Rd m (take (S j) l) = Rd m (take j l) ++ rb m nd.
Proof. intros Hx. erewrite take_S_r by done. rewrite Rd_app. unfold Rd at 2. simpl. by rewrite app_nil_r. Qed.

Lemma rb_at_keeps b h h' sh others regs rs j x nd :
  own b h sh others regs → keeps (hmem h) (hmem h') (cregs (lv sh) ++ rs) → lv sh !! j = Some (x, nd) →
  rb (hmem h') nd = rb (hmem h) nd.
Proof.
  intros Ho Hk Hx. pose proof (Rd_keeps _ _ _ _ _ _ _ (S j) Ho Hk) as E.
  rewrite !(Rd_take_S _ _ _ _ _ Hx), (Rd_keeps _ _ _ _ _ _ _ j Ho Hk) in E. by eapply app_inv_head.
Qed.

Lemma zlen_Rd_take m l k : zlen (Rd m (take k l)) <= zlen (Rd m l).
Proof. rewrite <- (take_drop k l) at 2. rewrite Rd_app, zlen_app. pose proof (zlen_nonneg (Rd m (drop k l))). lia. Qed.

Lemma wp_bytes_loop fuel : ∀ b h sh others regs j p (Q : Z → heap → Prop),
  own b h sh others (sregion p :: regs) → (j ≤ nf sh)%nat → (length (lv sh) < j + fuel)%nat →
  0 <= soff p → slen p <= scap p → zlen (Rd (hmem h) (lv sh)) <= slen p →
  starts_with (hmem h) p (Rd (hmem h) (take j (lv sh))) →
  (∀ h', own b h' sh others (sregion p :: regs) → keeps (hmem h) (hmem h') (cregs (lv sh) ++ regs) →
     same_nodes h h' → starts_with (hmem h') p (Rd (hmem h) (take (nf sh) (lv sh))) →
     Q (zlen (Rd (hmem h) (take (nf sh) (lv sh)))) h') →
  wp (bytes_loop fuel ((lv sh).*1 !! j) (flush b) p (zlen (Rd (hmem h) (take j (lv sh))))) Q h.
Proof.
  induction fuel as [|fuel IH]; intros b h sh others regs j p Q Ho Hj Hf Hoff Hcap Hfit Hst HQ.
  { pose proof (s_idx _ _ _ (proj1 Ho)). destruct (ro sh); lia. }
  simpl. rewrite (at_flush _ _ _ _ _ _ Ho Hj). case_bool_decide as Ej.
  { subst j. apply wp_ret, HQ; [done|apply keeps_refl|done..]. }
  destruct (lookup_lt_is_Some_2 (lv sh) j) as [[x nd] Hx].
  { pose proof (s_idx _ _ _ (proj1 Ho)). destruct (ro sh); lia. }
  destruct (at_index _ _ _ _ _ _ _ _ Ho Hx) as (Ex&Hn&Hw&Enx). rewrite Ex.
  wsteps. eapply wp_load; [exact Hn|]. rewrite Enx. wsteps.
  pose proof (Rd_take_S (hmem h) _ _ _ _ Hx) as Es. pose proof (zlen_rb _ _ Hw) as Hz.
  destruct (Z.ltb_spec 0 (node_Len nd)).
  - wsteps. eapply wp_some; [by eapply slice_from_window|]. wsteps. rewrite sget_window.
    pose proof (zlen_Rd_take (hmem h) (lv sh) (S j)) as Hle. rewrite Es, zlen_app in Hle.
    destruct (copy_next _ _ _ _ _ _ _ (rb (hmem h) nd) Ho Hst) as (dst&Hd&Hm&Ho'&Hk&Hst'); [lia..|].
    eapply wp_some; [exact Hd|]. wsteps. rewrite Hm, <- zlen_app, <- Es in *.
    pose proof (Rd_keeps _ _ _ _ _ _ _ (S j) Ho Hk) as E1.
    pose proof (Rd_keeps _ _ _ _ _ _ _ (nf sh) Ho Hk) as E2.
    pose proof (Rd_keeps _ _ _ _ _ _ _ (length (lv sh)) Ho Hk) as E3. rewrite firstn_all in E3.
    rewrite <- E1 in *. eapply IH; [exact Ho'|lia..|by rewrite E3|done|]. rewrite E2.
    intros h2 Ho2 Hk2 Hns Hst2. apply HQ; try done. by eapply keeps_trans.
  - assert (rb (hmem h) nd = []) as E by (apply zlen_0_nil; destruct Hw; unfold node_Len in *; lia).
    rewrite E, app_nil_r in Es. rewrite <- Es in *. wsteps. eapply IH; [exact Ho|lia..|done|done|done].
Qed.

Lemma wp_Bytes b h sh others regs R T bk (Q : slice → st → Prop) :
  lb_at b h sh others regs R T bk → clean sh = true → ro sh = false →
  (∀ p h', lb_at b h' sh others regs R T bk → sget (hmem h') p = R → slen p = zlen R →
     frame others regs h h' → Q p (St b h')) →
  wp Bytes Q (St b h).
Proof.
  intros Ha Hc Hro HQ. pose proof Ha as [Ho HR _ Hl _ _]. unfold Bytes. wsteps.
  pose proof (s_idx _ _ _ (proj1 Ho)) as Hi. rewrite Hro in Hi.
  destruct (lookup_lt_is_Some_2 (lv sh) (nf sh)) as [[x nd] Hx]; [lia|].
  destruct (at_index _ _ _ _ _ _ _ _ Ho Hx) as (Ex&Hn&Hw&_).
  pose proof (Rd_take_S (hmem h) _ _ _ _ Hx) as Es. rewrite (Rd_upto _ _ _ _ _ Ho Hc), HR in Es.
  rewrite (read_index _ _ _ _ _ Ho), (at_flush _ _ _ _ _ _ Ho) by lia. case_bool_decide as E0.
  - rewrite E0, Ex. wsteps. eapply wp_load; [exact Hn|]. eapply wp_some; [by eapply slice_from_window|].
    rewrite <- E0 in Es. simpl in Es. eapply HQ; [exact Ha|by rewrite sget_window| |apply frame_refl].
    rewrite Es. by rewrite zlen_rb.
  - wsteps. unfold Len. rewrite Hl.
    eapply wp_dirtmake_Bytes; [apply zlen_nonneg|apply Ho|]. intros h1 a Hnm W Hks.
    pose proof (zlen_nonneg R).
    destruct (own_fresh _ _ _ _ _ _ _ (zlen R) (zlen R) Ho Hnm ltac:(lia) (Z.le_refl _) W Hks)
      as (Ho1&Hns1&_&_&_&_).
    pose proof (Rd_keeps _ _ _ _ _ _ _ (nf sh) Ho Hks) as E1.
    pose proof (Rd_keeps _ _ _ _ _ _ _ (length (lv sh)) Ho Hks) as E2. rewrite firstn_all, HR in E2.
    wsteps. eapply (wp_bytes_loop _ b h1 sh others _ 0); [exact Ho1|lia| |simpl; lia..| | |].
    { pose proof (own_fuel _ _ _ _ _ Ho1). lia. }
    { rewrite E2. simpl. lia. }
    { split; simpl; [by apply zsub_empty|]. by rewrite (nm_mem _ _ _ _ Hnm), lookup_insert_eq. }
    rewrite E1. intros h2 Ho2 Hk2 Hns2 Hst2.
    wsteps. rewrite (s_flush _ _ _ (proj1 Ho)), Ex. eapply wp_load; [rewrite (proj1 Hns2), (proj1 Hns1); exact Hn|].
    wsteps. eapply wp_some; [by eapply slice_from_window|]. wsteps. rewrite sget_window.
    assert (keeps (hmem h) (hmem h2) (cregs (lv sh) ++ peek_reg b ++ regs)) as Hk by (by eapply keeps_trans).
    rewrite (rb_at_keeps _ _ _ _ _ _ _ _ _ _ Ho Hk Hx).
    assert (zlen R = zlen (Rd (hmem h) (take (nf sh) (lv sh))) + zlen (rb (hmem h) nd)) as Hz
      by (rewrite Es at 1; apply zlen_app).
    destruct (copy_next _ _ _ _ _ _ _ (rb (hmem h) nd) Ho2 Hst2) as (dst&Hd&Hm&Ho3&Hk3&Hst3 & _); [simpl; lia..|].
    rewrite <- Es in Hst3. eapply wp_some; [exact Hd|]. wsteps. rewrite Hm, <- Hz.
    eapply wp_some; [apply slice3_ok; simpl; lia|].
    assert (keeps (hmem h) (scopy (hmem h2) dst (rb (hmem h) nd)) (cregs (lv sh) ++ peek_reg b ++ regs)) as Hk4
      by (by eapply keeps_trans).
    eapply HQ; [eapply lb_at_keeps; [exact Ha| |ksub Hk4]| | |].
    + by eapply own_drop.
    + unfold sget. simpl in *. rewrite Z.sub_0_r. exact Hst3.
    + simpl. lia.
    + apply frame_mem; [by eapply same_nodes_trans; [exact Hns1|]|]. ksub Hk4.
Qed.

(** ** calcMaxSize *)

Lemma wp_calcMaxSize_loop fuel : ∀ b h sh others regs l1 l2 node sum (Q : Z → heap → Prop),
  own b h sh others regs → ro sh = false → dead sh = l1 ++ l2 → lseg (hnodes h) node l2 (read b) →
  (length l2 < fuel)%nat → (∀ n, Q n h) → wp (calcMaxSize_loop fuel node (read b) sum) Q h.
Proof.
  induction fuel as [|fuel IH]; intros b h sh others regs l1 l2 node sum Q Ho Hro Ed Hl Hf HQ; [lia|].
  simpl. destruct l2 as [|[x nd] l2].
  { simpl in Hl. subst node. unfold peq. rewrite bool_decide_eq_true_2 by done. by apply wp_ret. }
  destruct Hl as (->&Hx&Hl).
  assert (peq (Some x) (read b) = false) as ->.
  { apply bool_decide_eq_false. intros E. pose proof (own_nodup _ _ _ _ _ Ho) as Hn. unfold locs in Hn.
    pose proof (s_idx _ _ _ (proj1 Ho)) as Hi. rewrite Hro in Hi.
    destruct (lv sh) as [|[y md] l] eqn:El; [simpl in Hi; lia|].
    destruct (own_head _ _ _ _ _ _ _ _ Ho El) as (Er&_). rewrite Er in E. simplify_eq.
    rewrite Ed, !fmap_app, <- app_assoc in Hn. apply NoDup_app in Hn as (_&_&Hn).
    rewrite fmap_cons in Hn. apply NoDup_cons in Hn as [Hn _]. apply Hn. set_solver. }
  wsteps. eapply wp_load; [exact Hx|]. eapply (IH _ _ _ _ _ (l1 ++ [(x, nd)])); [exact Ho|done| |done|simpl in Hf; lia|done].
  by rewrite <- app_assoc.
Qed.

Lemma wp_calcMaxSize b h sh others regs (Q : Z → st → Prop) :
  own b h sh others regs → ro sh = false → (∀ n, Q n (St b h)) → wp calcMaxSize Q (St b h).
Proof.
  intros Ho Hro HQ. unfold calcMaxSize. wsteps.
  eapply (wp_calcMaxSize_loop _ _ _ _ _ _ [] (dead sh)); [exact Ho|done..|apply Ho| |].
  { pose proof (own_nodup _ _ _ _ _ Ho) as Hn. unfold locs in Hn. rewrite fmap_app in Hn.
    apply NoDup_app in Hn as [Hn _]. pose proof (lseg_size _ _ _ _ (s_dead _ _ _ (proj1 Ho)) Hn).
    unfold nfuel. lia. }
  intros n. wsteps. pose proof (s_idx _ _ _ (proj1 Ho)) as Hi. rewrite Hro in Hi.
  destruct (lv sh) as [|[y md] l] eqn:El; [simpl in Hi; lia|].
  destruct (own_head _ _ _ _ _ _ _ _ Ho El) as (->&Hy&_). eapply wp_load; [exact Hy|]. by wsteps.
Qed.
End bytes.
