(* ===== verification/LinkAppend.v ===== *)
(** * Moving a buffer into another one, and closing a buffer

    WriteBuffer links the nodes of a buffer behind those of another one and
    releases the rest; Close releases all nodes. *)

From S2P Require Import Prelude GoMem LinkNode LinkBuffer LinkHeap LinkInv LinkRead LinkScan LinkSlice LinkWrite LinkFlush.

Open Scope Z_scope.

Section append.
Context {rt : Runtime} {rtok : RuntimeOk rt}.
Implicit Types (b : LinkBuffer) (h : heap) (sh : shape) (others : list loc)
  (regs : list region).

(** What releasing nodes leaves alone. *)
Record released (live : list loc) (h h' : heap) : Prop := Released {
  rl_mem : hmem h' = hmem h;
  rl_nodes : ∀ y, y ∈ live → hnodes h' !! y = hnodes h !! y;
  rl_refer : ∀ y, y ∈ live → refer_of h y = 1 → refer_of h' y = 1;
}.

Lemma released_refl live h : released live h h.
Proof. done. Qed.

Lemma released_trans live h1 h2 h3 : released live h1 h2 → released live h2 h3 → released live h1 h3.
Proof. intros [] []. constructor; [congruence| |auto]. intros y ?. rewrite rl_nodes1; auto. Qed.

Lemma released_sub live live' h h' :
  (∀ y, y ∈ live' → y ∈ live) → released live h h' → released live' h h'.
Proof. intros ? []. constructor; auto. Qed.

Lemma wp_release_until fuel : ∀ h l live regs node stop (Q : unit → heap → Prop),
  lseg (hnodes h) node l stop → world h (l.*1 ++ live) regs →
  (∀ x, stop = Some x → x ∉ l.*1) → (length l < fuel)%nat →
  (∀ h', world h' live regs → released live h h' → Q tt h') →
  wp (release_until fuel node stop) Q h.
Proof.
  induction fuel as [|fuel IH]; intros h l live regs node stop Q Hl W Hst Hf HQ; [lia|].
  simpl. destruct l as [|[x nd] l].
  - simpl in Hl. unfold peq. rewrite bool_decide_eq_true_2 by done. apply wp_ret.
    apply HQ; [done|apply released_refl].
  - destruct Hl as (->&Hx&Hl). unfold peq. rewrite bool_decide_eq_false_2.
    2:{ intros E. symmetry in E. apply (Hst x E). left. }
    apply wp_bind. eapply wp_load; [exact Hx|]. apply wp_bind. simpl in W.
    eapply wp_node_Release; [exact W|]. intros h1 W1 Hm1 Hn1 Hr1.
    assert (released (l.*1 ++ live) h h1) as Hrl by (by constructor).
    eapply (IH h1 l live regs); [|exact W1| |simpl in Hf; lia|].
    + eapply lseg_frame; [|exact Hl]. intros y Hy. apply Hn1. set_solver.
    + intros y Hy Hyl. apply (Hst y Hy). by right.
    + intros h2 W2 Hrl2. apply HQ; [done|]. eapply released_trans; [|exact Hrl2].
      eapply released_sub; [|exact Hrl]. set_solver.
Qed.

(** ** Close *)

Lemma wp_Close b h sh others regs R T bk (Q : option lberr → st → Prop) :
  lb_at b h sh others regs R T bk →
  (∀ b' h', world h' others regs → frame others regs h h' →
     blength b' = 0 → mallocSize b' = 0 → head b' = None → read b' = None → flush b' = None →
     write b' = None → caches b' = [] → cachePeek b' = None → Q None (St b' h')) →
  wp Close Q (St b h).
Proof.
  intros Ha HQ. unfold Close. wsteps.
  assert (own (set_mallocSize 0 (set_length 0 b)) h sh others
    (peek_reg (set_mallocSize 0 (set_length 0 b)) ++ regs)) as Ho.
  { by eapply own_fields; [..|apply (a_own _ _ _ _ _ _ _ _ Ha)]. }
  eapply wp_Release_own; [exact Ho|].
  intros b1 h1 sh1 Ho1 Hmv Hd Hfr Ec Ep El Em. wsteps.
  pose proof (own_fuel _ _ _ _ _ Ho1) as Hfu. destruct Ho1 as [Hs W].
  unfold locs in W. rewrite Hd in W. simpl in W.
  pose proof (s_dead _ _ _ Hs) as Ehd. rewrite Hd in Ehd. simpl in Ehd.
  assert (world h1 ((lv sh1).*1 ++ others) regs) as W1.
  { eapply world_regs; [| |exact W]; [eapply sep_app_r, W|].
    pose proof (w_regs _ _ _ W) as Hr. by apply Forall_app in Hr as [_ ?]. }
  eapply wp_release_until; [rewrite Ehd; apply Hs|exact W1|done|exact Hfu|].
  intros h2 W2 [Hm2 Hn2 Hr2]. wsteps. apply HQ; simpl; try done; try congruence.
  eapply frame_trans; [exact Hfr|]. split; [done|rewrite Hm2; apply keeps_refl|done].
Qed.

(** ** WriteBuffer *)

(** The chain up to b.write, followed by the chain of the argument from its
    read to its write node. *)
Definition joined sh (l1 : list cell) w wd (x : option loc) (m1 : list cell) v vd : shape :=
  Sh (dead sh) (l1 ++ (w, set_next x wd) :: m1 ++ [(v, set_next None vd)]) (nf sh)
    (S (nw sh) + length m1) (kd sh) false.

Lemma fst_prefix (l1 l2 l3 : list cell) w (nd nd' : linkBufferNode) k : (k ≤ length l1)%nat →
  (l1 ++ (w, nd) :: l2).*1 !! k = (l1 ++ (w, nd') :: l3).*1 !! k.
Proof.
  intros Hk. rewrite !fmap_app. destruct (decide (k < length l1)%nat).
  - by rewrite !lookup_app_l by (rewrite length_fmap; lia).
  - rewrite !lookup_app_r by (rewrite length_fmap; lia). rewrite length_fmap.
    by replace (k - length l1)%nat with 0%nat by lia.
Qed.

(** A cell of the joined chain. *)
Lemma joined_lookup (l1 m1 : list cell) (c d : cell) i y md :
  (l1 ++ c :: m1 ++ [d]) !! i = Some (y, md) →
  (i < length l1)%nat ∧ l1 !! i = Some (y, md) ∨ i = length l1 ∧ c = (y, md) ∨
  (∃ j, i = (S (length l1) + j)%nat ∧ m1 !! j = Some (y, md)) ∨
  i = (S (length l1) + length m1)%nat ∧ d = (y, md).
Proof.
  intros [Hi|[? Hi]]%lookup_app_Some; [left; split; [by eapply lookup_lt_Some|done]|].
  destruct (i - length l1)%nat as [|j] eqn:E; [right; left; split; [lia|by simplify_eq/=]|].
  simpl in Hi. apply lookup_app_Some in Hi as [Hi|[? Hi]].
  - right; right; left. exists j. split; [lia|done].
  - right; right; right. apply list_lookup_singleton_Some in Hi as [??]. split; [lia|done].
Qed.

Lemma relinked_lookup (l1 m1 : list cell) w wd z v vd z' i y nd :
  (l1 ++ (w, set_next z wd) :: m1 ++ [(v, set_next z' vd)]) !! i = Some (y, nd) →
  ∃ md, (l1 ++ (w, wd) :: m1 ++ [(v, vd)]) !! i = Some (y, md) ∧
    (nd = md ∨ ∃ z, nd = set_next z md).
Proof.
  intros [[? Hi]|[[-> [= <- <-]]|[(j&->&Hj)|[-> [= <- <-]]]]]%joined_lookup.
  - exists nd. split; [by apply lookup_app_l_Some|by left].
  - exists wd. split; [by apply list_lookup_middle|eauto].
  - exists nd. split; [|by left]. rewrite lookup_app_r by lia.
    replace (S (length l1) + j - length l1)%nat with (S j) by lia. by apply lookup_app_l_Some.
  - exists vd. split; [|eauto]. rewrite lookup_app_r by lia.
    replace (S (length l1) + length m1 - length l1)%nat with (S (length m1)) by lia.
    by apply list_lookup_middle.
Qed.

(** The nodes of a buffer that can be written have nothing to hide. *)
Lemma own_node_wr b h sh i x nd : lb_str b h sh → ro sh = false → lv sh !! i = Some (x, nd) →
  node_wf (hmem h) nd ∧ slen (buf nd) <= nmalloc nd.
Proof.
  intros Hs Hro Hi. destruct (s_nodes _ _ _ Hs _ _ _ Hi) as [? Hp]. split; [done|].
  destruct (decide (i < nf sh)%nat) as [Hlt|].
  - destruct (po_rd _ _ _ Hp Hlt) as [_ E]. rewrite E by done. lia.
  - apply (po_wr _ _ _ Hp). lia.
Qed.

Lemma joined_nodes b p h sh shp l1 w wd l2 m1 v vd m2 :
  lb_str b h sh → lb_str p h shp → at_write sh l1 w wd l2 → at_write shp m1 v vd m2 →
  ro sh = false → ro shp = false →
  ∀ i y nd, (l1 ++ (w, wd) :: m1 ++ [(v, vd)]) !! i = Some (y, nd) →
    node_wf (hmem h) nd ∧ slen (buf nd) <= nmalloc nd ∧ ((i < nf sh)%nat → pos_ok sh i nd).
Proof.
  intros Hs Hsp [El E1] [Em E2] Hro Hrop.
  intros i y nd Hi. apply joined_lookup in Hi as [[? Hi]|[[-> [= <- <-]]|[(j&->&Hj)|[-> [= <- <-]]]]].
  - assert (lv sh !! i = Some (y, nd)) as Hi' by (rewrite El; by apply lookup_app_l_Some).
    split_and!; [by apply (own_node_wr _ _ _ _ _ _ Hs Hro Hi')..|]. intros _. by eapply (s_nodes _ _ _ Hs).
  - assert (lv sh !! length l1 = Some (w, wd)) as Hi' by (rewrite El; by apply list_lookup_middle).
    split_and!; [by apply (own_node_wr _ _ _ _ _ _ Hs Hro Hi')..|]. intros _. by eapply (s_nodes _ _ _ Hs).
  - assert (lv shp !! j = Some (y, nd)) as Hi' by (rewrite Em; by apply lookup_app_l_Some).
    split_and!; [by apply (own_node_wr _ _ _ _ _ _ Hsp Hrop Hi')..|]. pose proof (s_idx _ _ _ Hs). rewrite Hro in *. lia.
  - assert (lv shp !! length m1 = Some (v, vd)) as Hi' by (rewrite Em; by apply list_lookup_middle).
    split_and!; [by apply (own_node_wr _ _ _ _ _ _ Hsp Hrop Hi')..|]. pose proof (s_idx _ _ _ Hs). rewrite Hro in *. lia.
Qed.

Lemma joined_pos sh l1 w wd x m1 v vd i nd :
  (i ≤ nw sh + S (length m1))%nat → kd sh ≠ KInput →
  ((i < nf sh)%nat → pos_ok sh i nd) → slen (buf nd) <= nmalloc nd →
  pos_ok (joined sh l1 w wd x m1 v vd) i nd.
Proof.
  intros Hi Hk Hp Hle. constructor; unfold joined, ro, plain; simpl; intros; try done; try lia.
  by apply Hp.
Qed.

Lemma lb_str_join b p h h' sh shp l1 w wd l2 m1 v vd m2 :
  lb_str b h sh → lb_str p h shp → at_write sh l1 w wd l2 → at_write shp m1 v vd m2 →
  ro sh = false → kd sh ≠ KInput → ro shp = false → hmem h' = hmem h →
  (∀ y, y ∈ (dead sh).*1 ++ l1.*1 ++ m1.*1 → hnodes h' !! y = hnodes h !! y) →
  hnodes h' !! w = Some (set_next (read p) wd) → hnodes h' !! v = Some (set_next None vd) →
  lb_str (set_write (write p) b) h' (joined sh l1 w wd (read p) m1 v vd).
Proof.
  intros Hs Hsp [El E1] [Em E2] Hro Hk Hrop Hmem Hns Hw Hv.
  pose proof (joined_nodes _ _ _ _ _ _ _ _ _ _ _ _ _ Hs Hsp (conj El E1) (conj Em E2) Hro Hrop) as Hall.
  destruct Hs as [Hd Hl Hf Hwr Hi Hn Hu]. destruct Hsp as [_ Hlp _ Hwrp _ _ _].
  rewrite El in Hl. apply lseg_app in Hl as (r&Hl1&->&_&_).
  rewrite Em in Hlp. apply lseg_app in Hlp as (r&Hl2&->&_&_).
  rewrite Hro in Hi. destruct Hi as [Hi1 Hi2]. constructor; simpl.
  - eapply lseg_frame; [|exact Hd]. intros. apply Hns. set_solver.
  - apply lseg_app. exists (Some w). split.
    { eapply lseg_frame; [|exact Hl1]. intros. apply Hns. set_solver. }
    split_and!; [done|done|]. apply lseg_app. exists (Some v). split; [|done].
    eapply lseg_frame; [|exact Hl2]. intros. apply Hns. set_solver.
  - rewrite Hf, El. apply fst_prefix. lia.
  - assert ((l1 ++ (w, set_next (read p) wd) :: m1 ++ [(v, set_next None vd)]) !!
      (S (nw sh) + length m1)%nat = Some (v, set_next None vd)) as Ev.
    { rewrite lookup_app_r by lia. replace (S (nw sh) + length m1 - length l1)%nat with (S (length m1)) by lia.
      by apply list_lookup_middle. }
    rewrite Hwrp, Em, <- E2, !list_lookup_fmap, list_lookup_middle by done.
    by setoid_rewrite Ev.
  - unfold ro in *. simpl. rewrite Hro. rewrite length_app. simpl. rewrite length_app. simpl. lia.
  - intros i y nd Hi. rewrite Hmem.
    assert (∃ md, (l1 ++ (w, wd) :: m1 ++ [(v, vd)]) !! i = Some (y, md) ∧
      (nd = md ∨ ∃ z, nd = set_next z md)) as (md&Hi'&Hmd) by (by eapply relinked_lookup).
    destruct (Hall i y md Hi') as (Hw1&Hle1&Hp1). apply lookup_lt_Some in Hi'.
    rewrite length_app in Hi'. simpl in Hi'. rewrite length_app in Hi'. simpl in Hi'.
    assert (node_wf (hmem h) nd ∧ slen (buf nd) <= nmalloc nd ∧
      ((i < nf sh)%nat → pos_ok sh i nd)) as (Hw2&Hle2&Hp2).
    { destruct Hmd as [->|[z ->]]; [done|]. split_and!; [by destruct Hw1; constructor|done|].
      intros Hlt. by destruct (Hp1 Hlt); constructor. }
    split; [done|]. apply joined_pos; try done. lia.
  - intros i y nd Hlt Hi. apply lookup_lt_Some in Hi. unfold unread in Hlt. simpl in Hlt, Hi.
    rewrite length_app in Hi. simpl in Hi. rewrite length_app in Hi. simpl in Hi. naive_solver lia.
Qed.

(** The bytes of the joined chain. *)
Lemma pend_flushed (l : list cell) k :
  (∀ i x nd, (i < k)%nat → l !! i = Some (x, nd) → nmalloc nd = slen (buf nd)) →
  pend (drop k l) = pend l.
Proof.
  revert k. induction l as [|[x nd] l IH]; intros [|k] Hl; simpl; try done.
  rewrite (Hl 0%nat x nd) by (done || lia). rewrite IH; [lia|].
  intros i y md ? Hi. apply (Hl (S i) y md); [lia|done].
Qed.

Lemma joined_bytes m b p h sh shp others othersp regs regsp l1 w wd l2 m1 v vd m2 x :
  own b h sh others regs → own p h shp othersp regsp →
  at_write sh l1 w wd l2 → at_write shp m1 v vd m2 → ro sh = false → ro shp = false →
  let l := lv (joined sh l1 w wd x m1 v vd) in
  Rd m l = Rd m (lv sh) ++ Rd m (lv shp) ∧ Tb m l = Tb m (lv sh) ++ Tb m (lv shp) ∧
  pend (drop (nf sh) l) = pend (drop (nf sh) (lv sh)) + pend (drop (nf shp) (lv shp)).
Proof.
  intros Ho Hop Hat Hatp Hro Hrop.
  destruct (rest_nil m l2) as (HR&HT&Hp); [exact (own_rest _ _ _ _ _ _ _ _ _ Ho Hat)|].
  destruct (rest_nil m m2) as (HR2&HT2&Hp2); [exact (own_rest _ _ _ _ _ _ _ _ _ Hop Hatp)|].
  destruct (own_write _ _ _ _ _ Ho Hro) as (_&_&_&_&_&_&_&_&_&Hle&_).
  rewrite (pend_flushed (lv shp)).
  2:{ intros i y nd Hlt Hi. destruct (s_nodes _ _ _ (proj1 Hop) _ _ _ Hi) as [_ Hpo].
      by apply (po_rd _ _ _ Hpo Hlt). }
  destruct Hat as [El E1], Hatp as [Em E2]. unfold joined. simpl. rewrite El, Em.
  rewrite !Rd_app, !Tb_app, !Rd_cons, !Tb_cons, !Rd_app, !Tb_app, !Rd_cons, !Tb_cons, HR, HT, HR2, HT2.
  rewrite <- !app_assoc. split_and!; [done..|].
  rewrite !drop_app_le by lia. rewrite !pend_app. simpl. rewrite pend_app. simpl.
  specialize (Hp 0%nat). specialize (Hp2 0%nat). rewrite drop_0 in Hp, Hp2. lia.
Qed.

(** Some nodes and windows are given up. *)
Lemma world_part h live live' lx regs regs' rx :
  live ≡ₚ lx ++ live' → regs ≡ₚ rx ++ regs' → world h live regs → world h live' regs'.
Proof.
  intros Hl Hr W. eapply world_perm in W; [|exact Hl|exact Hr].
  apply (world_drop_mid h [] lx) in W. simpl in W. eapply world_regs; [| |exact W].
  - eapply sep_app_r, W.
  - pose proof (w_regs _ _ _ W) as Hf. by apply Forall_app in Hf as [_ ?].
Qed.

(** Link [w] to the chain at [x], release what is in front of it and what
    follows [v]. *)
Lemma wp_join {A} (K : M st A) p b h dp m2 keep w wd v vd regs Q :
  world h (dp.*1 ++ m2.*1 ++ keep) regs → w ∈ keep → v ∈ keep → w ≠ v →
  hnodes h !! w = Some wd → hnodes h !! v = Some vd → write p = Some v →
  lseg (hnodes h) (head p) dp (read p) → lseg (hnodes h) (next vd) m2 None →
  (∀ x, read p = Some x → x ∉ dp.*1) →
  (∀ h', world h' keep regs → hmem h' = hmem h →
     hnodes h' !! w = Some (set_next (read p) wd) → hnodes h' !! v = Some (set_next None vd) →
     (∀ y, y ∈ keep → y ≠ w → y ≠ v → hnodes h' !! y = hnodes h !! y) →
     (∀ y, y ∈ keep → refer_of h y = 1 → refer_of h' y = 1) →
     wp K Q (St (set_write (write p) b) h')) →
  wp (_ ← H (update (Some w) (set_next (read p)));
      _ ← setb (set_write (write p));
      fuel ← fuel_of;
      _ ← H (release_until fuel (head p) (read p));
      x ← next_of (write p);
      fuel ← fuel_of;
      _ ← H (release_until fuel x None);
      b ← getb;
      _ ← H (update (write b) (set_next None));
      K) Q (St b h).
Proof.
  intros W Hwk Hvk Hne Hw Hv Hwp Hd Hm2 Hst HK. wsteps. eapply wp_update; [exact Hw|]. wsteps.
  set (h0 := set_nodes (<[w := set_next (read p) wd]> (hnodes h)) h).
  pose proof (w_nodup _ _ _ W) as Hnd.
  assert (world h0 (dp.*1 ++ m2.*1 ++ keep) regs) as W0.
  { eapply world_update; [exact Hw| |done|exact W]. apply (w_live_pool _ _ _ W). set_solver. }
  apply NoDup_app in Hnd as (Hnd1&Hx1&Hnd). apply NoDup_app in Hnd as (Hnd2&Hx2&_).
  assert (hnodes h0 !! v = Some vd) as Hv0 by (simpl; by rewrite lookup_insert_ne).
  assert (lseg (hnodes h0) (next vd) m2 None) as Hm20.
  { apply lseg_insert_ne; [|done]. intros Hin. by apply (Hx2 w). }
  eapply (wp_release_until _ _ dp); [|exact W0|exact Hst| |].
  { apply lseg_insert_ne; [|done]. intros Hin. apply (Hx1 w); [done|]. set_solver. }
  { pose proof (lseg_size _ _ _ _ Hd Hnd1). unfold nfuel. simpl. rewrite map_size_insert_Some by done. lia. }
  intros h1 W1 Hrl1. wsteps. rewrite Hwp.
  assert (hnodes h1 !! v = Some vd) as Hv1 by (rewrite (rl_nodes _ _ _ Hrl1); [done|set_solver]).
  eapply wp_next_of; [exact Hv1|]. wsteps.
  assert (lseg (hnodes h1) (next vd) m2 None) as Hm21.
  { eapply lseg_frame; [|exact Hm20]. intros y Hy. apply (rl_nodes _ _ _ Hrl1). set_solver. }
  eapply (wp_release_until _ _ m2); [exact Hm21|exact W1|done| |].
  { pose proof (lseg_size _ _ _ _ Hm21 Hnd2). unfold nfuel. lia. }
  intros h2 W2 Hrl2. wsteps. simpl.
  assert (released keep h0 h2) as [Hm Hn Hr].
  { eapply released_trans; [|exact Hrl2]. eapply released_sub; [|exact Hrl1]. set_solver. }
  eapply (wp_update v vd); [by rewrite Hn|]. rewrite <- Hwp. apply HK; simpl.
  - eapply world_update; [by rewrite Hn| |done|exact W2]. by apply (w_live_pool _ _ _ W2).
  - by rewrite Hm.
  - rewrite lookup_insert_ne by done. rewrite Hn by done. simpl. by rewrite lookup_insert_eq.
  - by rewrite lookup_insert_eq.
  - intros y ???. rewrite lookup_insert_ne by done. rewrite Hn by done. simpl. by rewrite lookup_insert_ne.
  - intros y ??. by apply (Hr y).
Qed.

Lemma lb_at_join b p h h' sh shp o1 o2 g1 g2 others regs l1 w wd l2 m1 v vd m2 R T bk Rp Tp :
  let J := joined sh l1 w wd (read p) m1 v vd in
  lb_at b h sh o1 g1 R T bk → lb_at p h shp o2 g2 Rp Tp 0 →
  at_write sh l1 w wd l2 → at_write shp m1 v vd m2 → ro sh = false → ro shp = false →
  lb_str (set_write (write p) b) h' J → hmem h' = hmem h →
  world h' (locs J ++ others) (cregs (lv J) ++ peek_reg b ++ regs) →
  lb_at (set_mallocSize (mallocSize b + mallocSize p)
    (set_length (blength b + blength p) (set_write (write p) b))) h' J others regs (R ++ Rp) (T ++ Tp) bk.
Proof.
  intros J [Ho HR HT Hl Hm Hpk] [Hop HRp HTp Hlp Hmp _] Hat Hatp Hro Hrop Hs Hmem W.
  destruct (joined_bytes (hmem h) _ _ _ _ _ _ _ _ _ _ _ _ _ _ _ _ _ (read p) Ho Hop Hat Hatp Hro Hrop)
    as (B1&B2&B3).
  fold J in B1, B2, B3. constructor; rewrite ?Hmem.
  - by eapply own_fields; [..|split; [exact Hs|exact W]].
  - by rewrite B1, HR, HRp.
  - by rewrite B2, HT, HTp.
  - simpl. rewrite zlen_app. lia.
  - change (nf J) with (nf sh). rewrite B3. simpl. lia.
  - assert (zlen R <= zlen T) by (rewrite <- HR, <- HT; by eapply own_Rd_le_Tb).
    apply (peek_ok_app _ _ R _ T []); [|rewrite zlen_app; pose proof (zlen_nonneg Rp); lia|done].
    rewrite app_nil_r. eapply (peek_ok_keeps b h); [exact Ho| |done]. rewrite Hmem. apply keeps_refl.
Qed.

Lemma own_read_fresh b h sh others regs x :
  own b h sh others regs → read b = Some x → x ∉ (dead sh).*1.
Proof.
  intros Ho Hx Hin. pose proof (own_nodup _ _ _ _ _ Ho) as Hnd. unfold locs in Hnd.
  rewrite fmap_app, NoDup_app in Hnd. destruct Hnd as (_&Hnd&_). apply (Hnd x Hin).
  pose proof (s_lv _ _ _ (proj1 Ho)) as Hlv. destruct (lv sh) as [|[z zd] l].
  - simpl in Hlv. congruence.
  - destruct Hlv as (Hlv&_). rewrite Hx in Hlv. simplify_eq. left.
Qed.

(** [if bufLen > 0 { b.recalLen(bufLen) }] *)
Lemma wp_joined_len n b h (Q : unit → st → Prop) :
  0 <= n → Q tt (St (set_length (blength b + n) b) h) →
  wp (if 0 <? n then _ ← recalLen n; mret () else mret ()) Q (St b h).
Proof.
  intros Hn HQ. destruct (Z.ltb_spec 0 n).
  - wsteps. apply wp_recalLen_nonneg; [lia|]. by wsteps.
  - wsteps. replace n with 0 in HQ by lia. rewrite Z.add_0_r in HQ. by destruct b.
Qed.

Lemma wp_WriteBuffer b h sh others regs R T bk p shp Rp Tp
    (Q : option LinkBuffer → st → Prop) :
  lb_at b h sh (locs shp ++ others) (foot p shp ++ regs) R T bk →
  lb_at p h shp (locs sh ++ others) (foot b sh ++ regs) Rp Tp 0 →
  ro sh = false → kd sh ≠ KInput → ro shp = false → 0 < blength p + mallocSize p →
  (∀ b' h' sh', lb_at b' h' sh' others regs (R ++ Rp) (T ++ Tp) bk → kd sh' = kd sh →
     mallocSize b' = mallocSize b + mallocSize p →
     frame others regs h h' → Q (Some (cleared p)) (St b' h')) →
  wp (WriteBuffer (Some p)) Q (St b h).
Proof.
  intros Ha Hap Hro Hk Hrop Hpos HQ.
  pose proof (a_own _ _ _ _ _ _ _ _ Ha) as Ho. pose proof (a_own _ _ _ _ _ _ _ _ Hap) as Hop.
  destruct (own_write _ _ _ _ _ Ho Hro) as (l1&w&wd&l2&Hat&Hwr&Hw&_&_&_&Hlw).
  destruct (own_write _ _ _ _ _ Hop Hrop) as (m1&v&vd&m2&Hatp&Hwrp&Hv&_&_&_&Hlvp).
  set (J := joined sh l1 w wd (read p) m1 v vd).
  set (rest := (dead sh).*1 ++ l1.*1 ++ m1.*1 ++ others).
  assert (world h ((dead shp).*1 ++ m2.*1 ++ w :: v :: rest) (cregs (lv J) ++ peek_reg b ++ regs)) as W0.
  { destruct Hat as [El _], Hatp as [Em _].
    eapply (world_part _ _ _ l2.*1 _ _ (cregs l2 ++ cregs m2 ++ peek_reg p)); [| |apply Ho].
    - unfold locs, rest. rewrite El, Em. perm.
    - unfold foot. simpl. rewrite El, Em, !cregs_app. simpl. rewrite cregs_app. simpl.
      change (nregion (set_next (read p) wd)) with (nregion wd).
      change (nregion (set_next None vd)) with (nregion vd). perm. }
  assert (w ≠ v ∧ ∀ y, y ∈ rest → y ≠ w ∧ y ≠ v) as [Hne Hny].
  { pose proof (w_nodup _ _ _ W0) as Hnd. do 2 apply NoDup_app in Hnd as (_&_&Hnd).
    rewrite !NoDup_cons, elem_of_cons in Hnd. naive_solver. }
  unfold WriteBuffer, Len, MallocLen. destruct (Z.leb_spec (blength p + mallocSize p) 0); [lia|].
  apply wp_bind, wp_getb. rewrite Hwr.
  eapply (wp_join _ p b h (dead shp) m2 (w :: v :: rest) w wd v vd); try done; [by left|by right; left| | | |].
  { apply Hop. }
  { pose proof (s_lv _ _ _ (proj1 Hop)) as Hlv. rewrite (proj1 Hatp) in Hlv. by apply lseg_app in Hlv as (?&_&_&_&?). }
  { intros x. exact (own_read_fresh _ _ _ _ _ x Hop). }
  intros h' W' Hm' Hw' Hv' Hn' Hr'.
  assert (∀ y, y ∈ rest → hnodes h' !! y = hnodes h !! y) as Hn.
  { intros y Hy. apply Hn'; [by do 2 right|by apply Hny..]. }
  assert (lb_str (set_write (write p) b) h' J) as Hs'.
  { eapply (lb_str_join b p h); try done; [apply Ho|apply Hop|]. intros y Hy. apply Hn. unfold rest.
    rewrite !elem_of_app in *. tauto. }
  apply wp_bind, wp_joined_len; [rewrite (a_len _ _ _ _ _ _ _ _ Hap); apply zlen_nonneg|]. wsteps.
  apply (HQ _ _ J); [|done|done|].
  - eapply (lb_at_join b p h); try done. eapply world_perm; [|done|exact W'].
    unfold rest, J, locs. simpl. perm.
  - split; [intros y Hy|rewrite Hm'; apply keeps_refl|intros y Hy].
    + apply Hn. unfold rest. rewrite !elem_of_app. tauto.
    + apply Hr'. unfold rest. rewrite !elem_of_cons, !elem_of_app. tauto.
Qed.
End append.
