(* ===== verification/LinkSpec.v ===== *)
(** * The link buffer refines the queue of bytes

    The methods of the link buffer as operations of [ByteQueue], and the
    properties of the single methods: the bytes, the errors, the memory they
    hand out and what they leave alone. *)

From S2P Require Import Prelude GoMem LinkNode LinkBuffer ByteQueue LinkHeap LinkInv LinkRead LinkScan LinkSlice LinkWrite LinkFlush LinkBook LinkBytes.

Open Scope Z_scope.

Section exec.
Context {rt : Runtime} {rtok : RuntimeOk rt}.

(** The bytes of the slice a method returns. *)
Definition bytes_of (m : M st (slice * option lberr)) : M st rres :=
  r ← m; bs ← H (read_slice r.1); mret (RBytes bs r.2).

Definition link_rexec (o : rop) : M st rres :=
  match o with
  | ONext n => bytes_of (Next n)
  | OPeek n => bytes_of (Peek n)
  | OSkip n => e ← Skip n; mret (RBytes [] e)
  | OReadString n => bytes_of (ReadString n)
  | OReadBinary n => bytes_of (ReadBinary n)
  | OReadByte => r ← ReadByte; mret (RBytes (match r.2 with None => [r.1] | Some _ => [] end) r.2)
  | OUntil c => bytes_of (Until c)
  | ORelease => e ← Release; mret (RBytes [] e)
  | OLen => b ← getb; mret (RLen (Len b))
  | OBytes => p ← Bytes; bs ← H (read_slice p); mret (RBytes bs None)
  end.

(** A slice of the caller that holds [bs]. *)
Definition caller_slice (bs : list byte) : M heap slice :=
  p ← dirtmake_Bytes (zlen bs) (zlen bs); _ ← copy_in p bs; mret p.

Definition link_wexec (o : wop) : M st wres :=
  match o with
  | OMalloc bs =>
      r ← Malloc (zlen bs);
      n ← (if zlen bs =? 0 then mret 0 else H (copy_in r.1 bs));
      mret (n, r.2)
  | OMallocAck n => e ← MallocAck n; mret (0, e)
  | OWriteBinary bs => p ← H (caller_slice bs); WriteBinary p
  | OWriteString bs => p ← H (caller_slice bs); WriteString p
  | OWriteByte c => e ← WriteByte c; mret (1, e)
  | OFlush => e ← Flush; mret (0, e)
  | OMallocLen => b ← getb; mret (MallocLen b, None)
  end.

Implicit Types (b : LinkBuffer) (h : heap) (others : list loc) (regs : list region).

Definition link_holds others (s : st) (R P : list byte) : Prop :=
  ∃ regs, buffer KPlain 0 others regs s R P.

Lemma sget_nil m : sget m nil_slice = [].
Proof. done. Qed.

(** The empty slice needs no memory. *)
Lemma buffer_nil k bk others regs s R P :
  buffer k bk others regs s R P → buffer k bk others (sregion nil_slice :: regs) s R P.
Proof.
  intros (sh&[]&?&?). exists sh. split; [|done]. constructor; try done.
  eapply own_regs; [| |exact a_own].
  - intros rs Hs. apply (sep_perm (sregion nil_slice :: rs ++ peek_reg (lb s) ++ regs)); [|split; [|exact Hs]].
    + rewrite !app_assoc. apply Permutation_middle.
    + apply Forall_forall. intros r _. unfold disj. simpl. lia.
  - rewrite !Forall_app, Forall_cons. intros [??]. split_and!; try done.
    unfold reg_ok. simpl. split; [done|]. apply zlen_nonneg.
Qed.

(** What a method that takes [n] bytes returns, on all of its branches: the
    error, the bytes, a window of memory of their own, and the rest of the
    heap as it was. *)
Definition take_post k bk others regs (s : st) (R P : list byte) (n : Z)
    (r : slice * option lberr) (s' : st) : Prop :=
  let '(bs, e, R') := take_spec n R in
  r.2 = e ∧ sget (hmem (hp s')) r.1 = bs ∧ slen r.1 = zlen bs ∧
  buffer k bk others (sregion r.1 :: regs) s' R' P ∧ frame others regs (hp s) (hp s').

Lemma take_post_none k bk others regs s R P n :
  buffer k bk others regs s R P → n <= 0 →
  take_post k bk others regs s R P n (nil_slice, None) s.
Proof.
  intros Hb Hn. unfold take_post, take_spec. rewrite (proj2 (Z.leb_le _ _)) by done.
  split_and!; try done; [by apply buffer_nil|apply frame_refl].
Qed.

Lemma take_post_err k bk others regs s R P n :
  buffer k bk others regs s R P → 0 < n → zlen R < n →
  take_post k bk others regs s R P n (nil_slice, Some (ErrNotEnough n)) s.
Proof.
  intros Hb Hn HR. unfold take_post, take_spec.
  rewrite (proj2 (Z.leb_gt _ _)), (proj2 (Z.ltb_lt _ _)) by done.
  split_and!; try done; [by apply buffer_nil|apply frame_refl].
Qed.

Lemma take_post_ok k bk others regs s R P n p s' :
  0 < n → n <= zlen R → buffer k bk others (sregion p :: regs) s' (zdrop n R) P →
  sget (hmem (hp s')) p = ztake n R → slen p = n → frame others regs (hp s) (hp s') →
  take_post k bk others regs s R P n (p, None) s'.
Proof.
  intros Hn HR Hb Hg Hl Hfr. unfold take_post, take_spec.
  rewrite (proj2 (Z.leb_gt _ _)), (proj2 (Z.ltb_ge _ _)) by done.
  split_and!; try done. simpl. rewrite zlen_ztake. lia.
Qed.

(** The two guards of the methods that take [n] bytes. *)
Local Ltac guards Hb n :=
  let E := fresh "E" in
  pose proof (buffer_len _ _ _ _ _ _ _ _ Hb) as E;
  destruct (Z.leb_spec n 0); [wsteps; by apply take_post_none|];
  wsteps; unfold Len; rewrite E;
  match goal with |- context [?a <? n] => destruct (Z.ltb_spec a n) end;
  [wsteps; by apply take_post_err|].

Lemma wp_Next_all k bk others regs s R P n :
  buffer k bk others regs s R P → wp (Next n) (take_post k bk others regs s R P n) s.
Proof.
  destruct s as [b h]. intros Hb.
  destruct (Z.le_gt_cases n 0) as [|]; [|destruct (Z.le_gt_cases n (zlen R))].
  - unfold Next. guards Hb n; lia.
  - eapply wp_Next; [exact Hb|done..|]. intros. by apply take_post_ok.
  - unfold Next. guards Hb n; lia.
Qed.

Lemma wp_readBinary_all (op : Z → M st (slice * option lberr)) k bk others regs s R P n :
  op = ReadString ∨ op = ReadBinary →
  buffer k bk others regs s R P → wp (op n) (take_post k bk others regs s R P n) s.
Proof.
  destruct s as [b h]. intros [-> | ->] Hb; unfold ReadString, ReadBinary; guards Hb n.
  all: wsteps; eapply wp_readBinary; [exact Hb|done..|]; intros p s' ????; wsteps; by apply take_post_ok.
Qed.

(** Peek: as [take_post], with the bytes left in place. *)
Definition peek_post k bk others regs (s : st) (R P : list byte) (n : Z)
    (r : slice * option lberr) (s' : st) : Prop :=
  let '(bs, e, _) := take_spec n R in
  r.2 = e ∧ sget (hmem (hp s')) r.1 = bs ∧ slen r.1 = zlen bs ∧
  buffer k bk others regs s' R P ∧ frame others regs (hp s) (hp s').

Lemma wp_Peek_all k bk others regs s R P n :
  buffer k bk others regs s R P → wp (Peek n) (peek_post k bk others regs s R P n) s.
Proof.
  destruct s as [b h]. intros Hb. pose proof (buffer_len _ _ _ _ _ _ _ _ Hb) as E.
  unfold peek_post, take_spec.
  destruct (Z.leb_spec n 0) as [Hn|Hn]; [|destruct (Z.ltb_spec (zlen R) n) as [HR|HR]].
  - unfold Peek. destruct (Z.leb_spec n 0); [|lia]. wsteps. split_and!; try done. apply frame_refl.
  - unfold Peek. destruct (Z.leb_spec n 0); [lia|]. wsteps. unfold Len. rewrite E.
    destruct (Z.ltb_spec (zlen R) n); [|lia]. wsteps. split_and!; try done. apply frame_refl.
  - eapply wp_Peek; [exact Hb|done..|]. intros p s' Hb' Hg Hl Hfr. split_and!; try done.
    simpl. rewrite zlen_ztake. lia.
Qed.

Lemma wp_Skip_all k bk others regs s R P n :
  buffer k bk others regs s R P →
  wp (Skip n) (λ e s', let '(_, e', R') := take_spec n R in
    e = e' ∧ buffer k bk others regs s' R' P ∧ frame others regs (hp s) (hp s')) s.
Proof.
  destruct s as [b h]. intros Hb. pose proof (buffer_len _ _ _ _ _ _ _ _ Hb) as E.
  unfold take_spec.
  destruct (Z.leb_spec n 0) as [Hn|Hn]; [|destruct (Z.ltb_spec (zlen R) n) as [HR|HR]].
  - unfold Skip. destruct (Z.leb_spec n 0); [|lia]. wsteps. split_and!; try done. apply frame_refl.
  - unfold Skip. destruct (Z.leb_spec n 0); [lia|]. wsteps. unfold Len. rewrite E.
    destruct (Z.ltb_spec (zlen R) n); [|lia]. wsteps. split_and!; try done. apply frame_refl.
  - eapply wp_Skip; [exact Hb|done..|]. intros s' Hb' Hfr. done.
Qed.

Lemma wp_ReadByte_all k bk others regs s R P :
  buffer k bk others regs s R P →
  wp ReadByte (λ r s',
    match R with
    | [] => r.2 = Some ErrReadByteEmpty ∧ s' = s
    | c :: R' => r = (c, None) ∧ buffer k bk others regs s' R' P ∧ frame others regs (hp s) (hp s')
    end) s.
Proof.
  destruct s as [b h], R as [|c R]; intros Hb.
  - pose proof (buffer_len _ _ _ _ _ _ _ _ Hb) as E. unfold ReadByte. wsteps. unfold Len. rewrite E.
    wsteps. done.
  - eapply wp_ReadByte; [exact Hb|]. done.
Qed.

(** Until: everything up to and including the first [delim], or an error. *)
Definition until_post k bk others regs (s : st) (R P : list byte) (c : byte)
    (r : slice * option lberr) (s' : st) : Prop :=
  let i := IndexByte R c in
  if i <? 0 then r = (nil_slice, Some ErrUntil) ∧ s' = s
  else take_post k bk others regs s R P (i + 1) r s'.

Lemma wp_Until_all k bk others regs s R P c :
  buffer k bk others regs s R P → wp (Until c) (until_post k bk others regs s R P c) s.
Proof.
  destruct s as [b h]. intros Hb. unfold Until. wsteps.
  eapply wp_indexByte; [exact Hb|lia|]. unfold until_post, index_from. rewrite zdrop_nonpos by lia. cbv zeta.
  destruct (Z.leb_spec 0 (IndexByte R c)).
  - rewrite Z.add_0_l. rewrite (proj2 (Z.ltb_ge _ _)) by lia. by apply wp_Next_all.
  - rewrite !(proj2 (Z.ltb_lt _ _)) by lia. by wsteps.
Qed.

Lemma wp_Release_all k bk others regs s R P :
  buffer k bk others regs s R P →
  wp Release (λ e s', e = None ∧ buffer k bk others regs s' R P ∧ frame others regs (hp s) (hp s') ∧
    caches (lb s') = [] ∧ cachePeek (lb s') = None ∧ head (lb s') = read (lb s')) s.
Proof.
  destruct s as [b h]. intros (sh&Ha&Hk&Hc). eapply wp_Release; [exact Ha|].
  intros b' h' sh' Ha' Hk' Hc' Hd Hfr Ecs Epk. split_and!; try done.
  - exists sh'. split_and!; [done|congruence..].
  - pose proof (s_dead _ _ _ (proj1 (a_own _ _ _ _ _ _ _ _ Ha'))) as E. by rewrite Hd in E.
Qed.

Definition held k others (s : st) (R P : list byte) : Prop := ∃ regs, buffer k 0 others regs s R P.

(** Reading from a buffer, however it came about. *)
Lemma link_rexec_held k o others s R P :
  k ≠ KSlice → held k others s R P →
  wp (link_rexec o) (λ r s', r = (rspec o R).1 ∧ held k others s' (rspec o R).2 P) s.
Proof.
  intros Hks [regs Hb].
  assert (∀ op n, wp (op n) (take_post k 0 others regs s R P n) s →
    wp (bytes_of (op n)) (λ r s', r = (let '(bs, e, R') := take_spec n R in (RBytes bs e, R')).1 ∧
      held k others s' (let '(bs, e, R') := take_spec n R in (RBytes bs e, R')).2 P) s) as Htake.
  { intros op n Hw. unfold bytes_of. wsteps. eapply wp_mono; [exact Hw|]. intros r [b' h'] Hp.
    unfold take_post in Hp. destruct (take_spec n R) as [[bs e] R']. destruct Hp as (He&Hg&_&Hb'&_).
    wsteps. simpl in *. rewrite Hg, He. split; [done|]. by eexists. }
  destruct o as [n|n|n|n|n| |c| | |]; simpl.
  - by apply Htake, wp_Next_all.
  - unfold bytes_of. wsteps. eapply wp_mono; [by apply wp_Peek_all|]. intros r [b' h'] Hp.
    unfold peek_post in Hp. destruct (take_spec n R) as [[bs e] R']. destruct Hp as (He&Hg&_&Hb'&_).
    wsteps. simpl in *. rewrite Hg, He. split; [done|]. by eexists.
  - wsteps. eapply wp_mono; [by apply wp_Skip_all|]. intros e s' Hp.
    destruct (take_spec n R) as [[bs e'] R']. destruct Hp as (->&Hb'&_). wsteps. split; [done|]. by eexists.
  - by apply Htake, wp_readBinary_all; [left|].
  - by apply Htake, wp_readBinary_all; [right|].
  - wsteps. eapply wp_mono; [by apply wp_ReadByte_all|]. intros [c e] s' Hp.
    destruct R as [|c' R']; simpl in Hp |- *; wsteps; simpl.
    + destruct Hp as [-> ->]. split; [done|]. by eexists.
    + destruct Hp as ([= -> ->]&Hb'&_). split; [done|]. by eexists.
  - unfold bytes_of. wsteps. eapply wp_mono; [by apply wp_Until_all|]. intros r [b' h'] Hp.
    unfold until_post in Hp. cbv zeta in Hp. destruct (Z.ltb_spec (IndexByte R c) 0).
    + destruct Hp as [-> ->]. wsteps. split; [done|]. by eexists.
    + unfold take_post, take_spec in Hp. destruct (IndexByte_range R c) as [[_ ?]|]; [|lia].
      rewrite (proj2 (Z.leb_gt _ _)), (proj2 (Z.ltb_ge _ _)) in Hp by lia.
      destruct Hp as (He&Hg&_&Hb'&_). wsteps. simpl in *. rewrite Hg, He. split; [done|]. by eexists.
  - wsteps. eapply wp_mono; [by apply wp_Release_all|]. intros e s' (->&Hb'&_). wsteps.
    split; [done|]. by eexists.
  - destruct s as [b h]. wsteps. unfold Len. rewrite (buffer_len _ _ _ _ _ _ _ _ Hb).
    split; [done|]. by eexists.
  - destruct s as [b h], Hb as (sh&Ha&Hk&Hc). cbn [lb hp] in Ha. wsteps.
    eapply wp_Bytes; [exact Ha|done|unfold ro; rewrite Hk; by destruct k|]. intros p h' Ha' Hg _ _. wsteps.
    rewrite Hg. split; [done|]. exists regs. by exists sh.
Qed.

Lemma link_rexec_ok o others s R P :
  link_holds others s R P →
  wp (link_rexec o) (λ r s', r = (rspec o R).1 ∧ link_holds others s' (rspec o R).2 P) s.
Proof. by apply (link_rexec_held KPlain). Qed.

(** ** Writing *)

Lemma wp_alloc_caller k others regs b h sh R T bk (Q : slice → heap → Prop) :
  lb_at b h sh others regs R T bk → 0 <= k →
  (∀ p h', lb_at b h' sh others (sregion p :: regs) R T bk → slice_ok (hmem h') p → slen p = k →
     is_Some (hmem h' !! sarr p) → frame others regs h h' → Q p h') →
  wp (dirtmake_Bytes k k) Q h.
Proof.
  intros Ha Hk HQ. pose proof (a_own _ _ _ _ _ _ _ _ Ha) as Ho.
  eapply wp_dirtmake_Bytes; [exact Hk|apply Ho|]. intros h' a Hnm W Hks.
  destruct (own_fresh _ _ _ _ _ _ _ k k Ho Hnm Hk (Z.le_refl _) W Hks) as (Ho'&Hsn&_&_&_&_).
  apply HQ; [| |done| |].
  - eapply lb_at_keeps; [exact Ha|by apply own_slices|ksub Hks].
  - constructor; simpl; try lia. rewrite (nm_mem _ _ _ _ Hnm), arr_new, decide_True by done.
    rewrite zlen_dirty_bytes. lia.
  - simpl. by rewrite (nm_mem _ _ _ _ Hnm), lookup_insert_eq.
  - apply frame_mem; [done|]. ksub Hks.
Qed.

Lemma wp_caller_slice bs k bk others regs b h R P (Q : slice → heap → Prop) :
  buffer k bk others regs (St b h) R P →
  (∀ p h', buffer k bk others (sregion p :: regs) (St b h') R P → slice_ok (hmem h') p →
     slen p = zlen bs → sget (hmem h') p = bs → frame others regs h h' → Q p h') →
  wp (caller_slice bs) Q h.
Proof.
  intros (sh&Ha&Hk&Hc) HQ. unfold caller_slice. apply wp_bind.
  eapply wp_alloc_caller; [exact Ha|apply zlen_nonneg|]. intros p h1 Ha1 Hok Hl Hs Hfr.
  apply wp_bind, wp_copy_in, wp_ret.
  assert (buffer k bk others (sregion p :: regs) (St b h1) R P) as Hb1 by (by exists sh).
  destruct (Z.eqb_spec (zlen bs) 0) as [E|E].
  - apply zlen_0_nil in E as ->.
    assert (scopy (hmem h1) p [] = hmem h1) as ->.
    { unfold scopy. rewrite ztake_ge by (rewrite Hl; lia). apply mput_nil; [done|apply Hok]. }
    assert (set_mem (hmem h1) h1 = h1) as -> by (by destruct h1).
    apply HQ; try done. unfold sget, mget. rewrite Hl, zlen_nil. apply zsub_empty. lia.
  - pose proof (zlen_nonneg bs).
    destruct (buffer_store _ _ _ _ _ _ _ _ _ bs Hb1) as (Hb2&Hg&Hfr2); [lia..|].
    apply HQ; try done; [|by eapply frame_trans].
    destruct Hok. constructor; try done. simpl.
    unfold scopy. rewrite zlen_arr_mput; [done|done|]. rewrite zlen_ztake. lia.
Qed.

(** The allocated bytes are what MallocLen says. *)
Lemma buffer_MallocLen k others regs b h R P :
  buffer k 0 others regs (St b h) R P → k ≠ KSlice → mallocSize b = zlen P.
Proof.
  intros (sh&[Ho HR HT Hl Hm Hpk]&Hk&Hc) Hks. cbn [lb hp] in *.
  assert (ro sh = false) as Hro by (unfold ro; rewrite Hk; by destruct k).
  pose proof (s_idx _ _ _ (proj1 Ho)) as Hi. rewrite Hro in Hi.
  pose proof (own_gap_pend _ _ _ _ _ (length (lv sh)) Ho ltac:(lia)) as Eg.
  rewrite take_ge in Eg by done. unfold gap in Eg. rewrite HT, HR, zlen_app in Eg. lia.
Qed.

(** From the invariant with a shape back to [buffer]. *)
Lemma buffer_intro k others regs b h sh R P :
  lb_at b h sh others regs R (R ++ P) 0 → kd sh = k → clean sh = true →
  buffer k 0 others regs (St b h) R P.
Proof. intros. by exists sh. Qed.

Lemma link_wexec_ok o others s R P r R' P' :
  link_holds others s R P → wspec o R P = Some (r, R', P') →
  wp (link_wexec o) (λ r' s', r' = r ∧ link_holds others s' R' P') s.
Proof.
  destruct s as [b h]. intros [regs Hb] Hs.
  assert (∀ op bs, op = WriteBinary ∨ op = WriteString →
    wp (p ← H (caller_slice bs); op p)
      (λ r' s', r' = (zlen bs, None) ∧ link_holds others s' R (P ++ bs)) (St b h)) as Hwr.
  { intros op bs Hop. wsteps. eapply wp_caller_slice; [exact Hb|].
    intros p h1 Hb1 Hok Hl Hg Hfr. destruct (Z.eqb_spec (slen p) 0) as [E|E].
    - assert (bs = []) as -> by (apply zlen_0_nil; lia). rewrite app_nil_r.
      destruct Hop as [-> | ->]; unfold WriteBinary, WriteString; rewrite E; simpl; wsteps;
        (split; [done|by eexists]).
    - destruct Hb1 as (sh&Ha&Hk&Hc). cbn [lb hp] in Ha. destruct (so_len _ _ Hok).
      destruct Hop as [-> | ->]; [eapply wp_WriteBinary|eapply wp_WriteString];
        [exact Ha|unfold ro; by rewrite Hk|by rewrite Hk|done|lia| |
         exact Ha|unfold ro; by rewrite Hk|by rewrite Hk|done|lia|].
      all: intros b' h' sh' Ha' [Hk' Hc'] _ _; rewrite Hg, <- app_assoc in Ha';
        (split; [by rewrite Hl|]); exists regs; eapply buffer_intro; [exact Ha'|congruence..]. }
  pose proof Hb as (sh&Ha&Hk&Hc). cbn [lb hp] in Ha.
  assert (ro sh = false) as Hro by (unfold ro; by rewrite Hk).
  destruct o as [bs|n|bs|bs|c| |]; simpl in Hs |- *.
  - simplify_eq. pose proof (zlen_nonneg bs). destruct (Z.eqb_spec (zlen bs) 0) as [E|E].
    + assert (bs = []) as -> by (by apply zlen_0_nil).
      wsteps. unfold Malloc. simpl. wsteps. simpl. rewrite app_nil_r.
      split; [done|]. by exists regs.
    + wsteps. eapply wp_Malloc; [exact Ha|done|lia|].
      intros p b1 h1 sh1 Ha1 Hsl Hzl Hlast Hkd Hf Hfr _. wsteps. simpl.
      destruct (lb_fill _ _ _ _ _ _ _ _ _ _ bs Ha1 Hlast) as [Ha2 _]; [by eapply same_kind_ro|lia..|].
      rewrite zdrop_ge, app_nil_r, <- app_assoc in Ha2 by lia. rewrite Hsl, Z.min_id.
      split; [done|]. exists regs. destruct Hkd. eapply buffer_intro; [exact Ha2|congruence..].
  - destruct (Z.ltb_spec n 0).
    + simplify_eq. wsteps. unfold MallocAck. rewrite (proj2 (Z.ltb_lt _ _)) by done. wsteps.
      split; [done|]. by exists regs.
    + destruct (Z.ltb_spec 0 n), (Z.leb_spec n (zlen P)); simpl in Hs; simplify_eq. wsteps.
      eapply wp_MallocAck; [exact Ha|done..|]. intros b1 h1 sh1 Ha1 [] _. wsteps.
      split; [done|]. exists regs. eapply buffer_intro; [exact Ha1|congruence..].
  - simplify_eq. by apply Hwr; left.
  - simplify_eq. by apply Hwr; right.
  - simplify_eq. wsteps. eapply wp_WriteByte; [exact Ha|done|]. intros b1 h1 sh1 Ha1 [] _ _. wsteps.
    rewrite <- app_assoc in Ha1. split; [done|]. exists regs. eapply buffer_intro; [exact Ha1|congruence..].
  - simplify_eq. wsteps. eapply wp_Flush; [exact Ha|done|]. intros b1 h1 sh1 Ha1 Hk1 Hc1 _. wsteps.
    split; [done|]. exists regs. eapply buffer_intro; [by rewrite app_nil_r|by rewrite Hk1, Hk|done].
  - simplify_eq. wsteps. unfold MallocLen. rewrite (buffer_MallocLen _ _ _ _ _ _ _ Hb) by done.
    split; [done|]. by exists regs.
Qed.

Lemma link_ack_zero_ok others s R P :
  link_holds others s R P →
  wp (_ ← link_wexec (OMallocAck 0); link_wexec OFlush)
    (λ _ s', ∃ k, 0 <= k <= zlen P ∧ link_holds others s' (R ++ ztake k P) []) s.
Proof.
  destruct s as [b h]. intros [regs (sh&Ha&Hk&Hc)]. cbn [lb hp] in Ha.
  assert (ro sh = false) as Hro by (unfold ro; by rewrite Hk). simpl. wsteps.
  eapply wp_MallocAck_zero; [exact Ha|done..|]. intros k b1 h1 sh1 Hn Ha1 Hkd1 _. wsteps.
  destruct Hkd1 as [Hk1 Hc1]. eapply wp_Flush; [exact Ha1|unfold ro; by rewrite Hk1, Hk|].
  intros b2 h2 sh2 Ha2 Hk2 Hc2 _. wsteps. exists k. split; [done|]. exists regs.
  eapply buffer_intro; [by rewrite app_nil_r|by rewrite Hk2, Hk1, Hk|done].
Qed.

#[export] Instance link_queue (others : list loc) : ByteQueue st := {
  rexec := link_rexec;
  wexec := link_wexec;
  holds := link_holds others;
  rexec_ok := λ o s R P, link_rexec_ok o others s R P;
  wexec_ok := λ o s R P r R' P', link_wexec_ok o others s R P r R' P';
  ack_zero_ok := λ s R P, link_ack_zero_ok others s R P;
}.
End exec.
