(* ===== verification/LinkTheorems.v ===== *)
(** * The properties of the link buffer

    What the methods of the link buffer do, each as one theorem, and an
    example of every theorem on a buffer that was filled by running the model.
    The last section shows uses of a buffer that go wrong. *)

From S2P Require Import Prelude GoMem LinkNode LinkBuffer ByteQueue LinkHeap LinkInv LinkRead LinkScan LinkSlice LinkWrite LinkFlush LinkBook LinkBytes LinkAppend LinkSpec.

Open Scope Z_scope.

(** ** Examples *)

(** A run time whose pool is a stack and whose mcache rounds up to 8. *)
Definition demo_rt : Runtime := {|
  mcache_cap c := (c + 7) / 8 * 8;
  dirty a i := Byte.xff;
  pool_pick l := hd_error l;
  LinkBufferCap := 16;
  featureAlwaysNoCopyRead := false;
|}.

Lemma demo_rt_ok : RuntimeOk demo_rt.
Proof. intros c. simpl. pose proof (Z.div_mod (c + 7) 8). pose proof (Z.mod_pos_bound (c + 7) 8). lia. Qed.

(** The state a program leaves behind. *)
Definition exec_state {S A} (m : M S A) (s : S) : S :=
  match m s with Ret (_, s') => s' | _ => s end.

Lemma wp_exec {S A} (m : M S A) Q s : wp m Q s → ∃ a, Q a (exec_state m s).
Proof. unfold wp, exec_state. destruct (m s) as [[a s']| |]; [eauto|done..]. Qed.

Lemma world_empty : world empty_heap [] [].
Proof.
  constructor; simpl; try done; try (by constructor); set_solver || (split; [done|lia]).
Qed.

(** A new buffer in an empty heap. *)
Definition new_state (rt : Runtime) (size : Z) : st :=
  match NewLinkBuffer size empty_heap with
  | Ret (b, h) => St b h
  | _ => St (LB 0 0 None None None None [] None) empty_heap
  end.

Lemma new_state_buffer {rt : Runtime} {rtok : RuntimeOk rt} k size :
  k ≠ KSlice → buffer k 0 [] [] (new_state rt size) [] [].
Proof.
  intros Hk. assert (wp (NewLinkBuffer size) (λ b h, buffer k 0 [] [] (St b h) [] []) empty_heap) as Hw.
  { eapply wp_NewLinkBuffer; [apply world_empty|exact Hk|done]. }
  unfold wp in Hw. unfold new_state. by destruct (NewLinkBuffer size empty_heap) as [[b h]| |].
Qed.

Definition bytes (l : list nat) : list byte := map (λ n, default Byte.x00 (Byte.of_nat n)) l.

(** A buffer after a sequence of operations. *)
Definition demo (os : list op) : st :=
  exec_state (@run st (@link_queue demo_rt demo_rt_ok []) os) (new_state demo_rt 8).

Lemma demo_buffer os rs R P :
  run_spec os [] [] = Some (rs, R, P) → ∃ regs, buffer KPlain 0 [] regs (demo os) R P.
Proof.
  intros Hs. pose proof demo_rt_ok as rtok.
  assert (@holds st (@link_queue demo_rt demo_rt_ok []) (new_state demo_rt 8) [] []) as H0.
  { exists []. by apply new_state_buffer. }
  by destruct (wp_exec _ _ _ (@run_ok st (@link_queue demo_rt demo_rt_ok []) os _ _ _ _ _ _ H0 Hs)) as (rs'&_&Hh).
Qed.

(** Readable bytes that span several nodes, and pending ones. *)
Definition demo_ops : list op :=
  [OWr (OWriteBinary (bytes (seq 1 10))); OWr (OMalloc (bytes (seq 11 9))); OWr (OWriteByte Byte.x20);
   OWr OFlush; ORd (ONext 2); OWr (OWriteString (bytes [50; 51; 52]%nat))].

Definition demo_R : list byte := bytes (seq 3 17) ++ [Byte.x20].
Definition demo_P : list byte := bytes [50; 51; 52]%nat.

Lemma demo_ops_buffer : ∃ regs, buffer KPlain 0 [] regs (demo demo_ops) demo_R demo_P.
Proof. eapply demo_buffer. vm_compute. reflexivity. Qed.

(** ** Reading and writing *)

Section theorems.
Context {rt : Runtime} {rtok : RuntimeOk rt}.
Implicit Types (s : st) (k : kind) (others : list loc) (regs : list region) (R P : list byte).

(** A window of the last node is memory, and storing nothing there changes nothing. *)
Lemma scopy_nothing b h sh others regs R T bk p :
  lb_at b h sh others regs R T bk → last_window sh p → 0 < slen p → zlen (sget (hmem h) p) = slen p →
  scopy (hmem h) p [] = hmem h.
Proof.
  intros Ha Hlast Hp Hg.
  assert (is_Some (hmem h !! sarr p)) as Hs.
  { destruct (hmem h !! sarr p) eqn:E; [done|]. exfalso.
    assert (arr (hmem h) (sarr p) = []) as Ea by (unfold arr; by rewrite E).
    unfold sget, mget in Hg. rewrite Ea, zlen_zsub in Hg. unfold zlen in Hg. simpl in Hg. lia. }
  assert (0 <= soff p) as Hp0.
  { destruct Hlast as (w&wd&Hl&_&_&?&?&?).
    destruct (s_nodes _ _ _ (proj1 (a_own _ _ _ _ _ _ _ _ Ha)) _ _ _ Hl) as [[] _]. lia. }
  unfold scopy. rewrite ztake_ge by (rewrite zlen_nil; lia). by rewrite mput_nil.
Qed.

(** As [lb_fill], with nothing to store. *)
Lemma lb_fill_any b h sh others regs R T X bk p bs :
  lb_at b h sh others regs R (T ++ X) bk → last_window sh p → ro sh = false →
  zlen X = slen p → 0 < slen p → zlen bs <= slen p → zlen (sget (hmem h) p) = slen p →
  let h' := set_mem (scopy (hmem h) p bs) h in
  lb_at b h' sh others regs R (T ++ bs ++ zdrop (zlen bs) X) bk ∧ frame others regs h h'.
Proof.
  intros Ha Hlast Hro HX Hp Hle Hg. destruct bs as [|c bs].
  - rewrite (scopy_nothing _ _ _ _ _ _ _ _ _ Ha Hlast Hp Hg).
    assert (set_mem (hmem h) h = h) as -> by (by destruct h).
    rewrite zdrop_nonpos by (rewrite zlen_nil; lia). split; [done|apply frame_refl].
  - by apply (lb_fill _ _ _ _ _ _ _ _ _ _ _ Ha Hlast).
Qed.

(** book, a store of the kernel, and bookAck. *)
Lemma book_cycle others regs s R bookSize maxSize :
  buffer KInput 0 others regs s R [] → 0 < bookSize → 0 < maxSize →
  wp (book bookSize maxSize) (λ p s1, 0 < slen p ∧ slen p <= bookSize ∧
    scopy (hmem (hp s1)) p [] = hmem (hp s1) ∧
    ∀ bs, zlen bs <= slen p →
      wp (bookAck (zlen bs)) (λ r s2, r = (zlen R + zlen bs, None) ∧
        buffer KInput 0 others regs s2 (R ++ bs) [] ∧ frame others regs (hp s) (hp s2))
        (St (lb s1) (set_mem (scopy (hmem (hp s1)) p bs) (hp s1)))) s.
Proof.
  destruct s as [b h]. intros Hb Hbs Hmx.
  pose proof (buffer_MallocLen _ _ _ _ _ _ _ Hb) as Em. destruct Hb as (sh&Ha&Hk&Hc). cbn [lb hp] in *.
  eapply wp_book; [exact Ha|done..|]. intros p b1 h1 sh1 Ha1 Hp0 Hp Hzl Hlast [Hk1 Hc1] Em1 Hfr1.
  split_and!; [done..|by eapply scopy_nothing|].
  intros bs Hle. cbn [lb hp] in *. rewrite app_nil_r in Ha1. pose proof (zlen_nonneg bs).
  assert (ro sh1 = false) as Hro by (unfold ro; by rewrite Hk1, Hk).
  destruct (lb_fill_any _ _ _ _ _ _ _ _ _ _ bs Ha1 Hlast) as [Ha2 Hfr2]; [done|lia..|].
  eapply (wp_bookAck _ _ _ sh1 _ _ _ _ p); [exact Ha2|congruence|rewrite Em1; by apply Em|done| |lia|lia|].
  { rewrite zlen_app, zlen_zdrop. lia. }
  intros b3 h3 sh3 Ha3 Hk3 Hc3 Em3 Hfr3. rewrite ztake_app_le, ztake_ge in Ha3 by lia.
  split_and!; [done| |]; [|eapply frame_trans; [exact Hfr1|eapply frame_trans; [exact Hfr2|exact Hfr3]]].
  eapply buffer_intro; [by rewrite app_nil_r|done..].
Qed.

(** C1: every sequence of calls of Next, Peek, Skip, Until, ReadString,
    ReadBinary, ReadByte, Release, Len, Bytes, Malloc, whose memory the caller
    fills, WriteBinary, WriteString, WriteByte, MallocLen, Flush and MallocAck(n)
    with n < 0 or 0 < n <= MallocLen(), run on a new link buffer of any size,
    returns what the queue of bytes returns, and leaves a buffer that holds what
    the queue holds: no call panics or diverges, whatever nodes the bytes are
    spread over.  Until without a delimiter returns the error and no bytes, as
    the code does; nocopy.go documents that it returns the data.  MallocAck(0)
    and MallocAck beyond MallocLen() are left out; so are Slice and WriteBuffer,
    which have theorems of their own, and Append, GetBytes and WriteDirect. *)
Theorem link_run_refines size os rs R P :
  run_spec os [] [] = Some (rs, R, P) →
  wp (@run st (link_queue []) os) (λ rs' s', rs' = rs ∧ link_holds [] s' R P) (new_state rt size).
Proof.
  intros Hs. apply (@run_ok st (link_queue []) _ _ [] []); [|done]. exists [].
  by apply new_state_buffer.
Qed.
(** Next(n) returns the next n bytes in a window of memory that neither the
    buffer nor any other owner shares, and removes them; it returns an error
    and leaves the buffer alone when there are too few, and nothing for n <= 0.
    The nodes and the memory of everything else stay as they were. *)
Theorem Next_spec k bk others regs s R P n :
  buffer k bk others regs s R P → wp (Next n) (take_post k bk others regs s R P n) s.
Proof. apply wp_Next_all. Qed.

(** ReadBinary(n) and ReadString(n) return a copy of the next n bytes, or
    the window itself when the node is marked for reading without a copy, and
    remove them; the errors are those of Next. *)
Theorem ReadBinary_spec k bk others regs s R P n :
  buffer k bk others regs s R P →
  wp (ReadBinary n) (take_post k bk others regs s R P n) s ∧
  wp (ReadString n) (take_post k bk others regs s R P n) s.
Proof. intros Hb. split; (apply wp_readBinary_all; [tauto|done]). Qed.

(** Peek(n) returns the next n bytes and leaves the buffer as it was, be
    they in one node, in several, or partly in the cache of an earlier Peek. *)
Theorem Peek_spec k bk others regs s R P n :
  buffer k bk others regs s R P → wp (Peek n) (peek_post k bk others regs s R P n) s.
Proof. apply wp_Peek_all. Qed.

(** Skip(n) removes the next n bytes; ReadByte removes and returns the
    next byte. *)
Theorem Skip_ReadByte_spec k bk others regs s R P n :
  buffer k bk others regs s R P →
  wp (Skip n) (λ e s', let '(_, e', R') := take_spec n R in
    e = e' ∧ buffer k bk others regs s' R' P ∧ frame others regs (hp s) (hp s')) s ∧
  wp ReadByte (λ r s',
    match R with
    | [] => r.2 = Some ErrReadByteEmpty ∧ s' = s
    | c :: R' => r = (c, None) ∧ buffer k bk others regs s' R' P ∧ frame others regs (hp s) (hp s')
    end) s.
Proof. intros Hb. split; [by apply wp_Skip_all|by apply wp_ReadByte_all]. Qed.

(** Until(delim) returns the bytes up to and including the first delim and
    removes them, or returns an error and leaves the buffer as it was when
    there is none. *)
Theorem Until_spec k bk others regs s R P c :
  buffer k bk others regs s R P → wp (Until c) (until_post k bk others regs s R P c) s.
Proof. apply wp_Until_all. Qed.

(** Slice(n) returns a reader that holds the next n bytes and removes them
    from the buffer; the two own separate nodes and separate memory, so that
    whatever is done to one of them leaves the other alone. *)
Theorem Slice_spec k bk others regs s R P n :
  buffer k bk others regs s R P → 0 < n → n <= zlen R →
  wp (Slice_ n) (λ r s', ∃ p, r = (Some p, None) ∧
    beside s' k bk (zdrop n R) P p KSlice 0 (ztake n R) [] others regs ∧
    frame others regs (hp s) (hp s')) s.
Proof. destruct s as [b h]. intros. eapply wp_Slice; [done..|]. eauto. Qed.

(** Release gives the nodes that were read back to the pool and the cached
    memory back to mcache; the readable and the pending bytes stay. *)
Theorem Release_spec k bk others regs s R P :
  buffer k bk others regs s R P →
  wp Release (λ e s', e = None ∧ buffer k bk others regs s' R P ∧ frame others regs (hp s) (hp s') ∧
    caches (lb s') = [] ∧ cachePeek (lb s') = None ∧ head (lb s') = read (lb s')) s.
Proof. apply wp_Release_all. Qed.

(** Malloc(n) returns a window of n bytes behind the pending ones; whatever
    the caller stores there is what a later Flush submits. *)
Theorem Malloc_spec others regs s R P n :
  buffer KPlain 0 others regs s R P → 0 < n →
  wp (Malloc n) (λ r s', r.2 = None ∧ slen r.1 = n ∧ frame others regs (hp s) (hp s') ∧
    MallocLen (lb s') = MallocLen (lb s) + n ∧
    ∀ bs, zlen bs = n → buffer KPlain 0 others regs
      (St (lb s') (set_mem (scopy (hmem (hp s')) r.1 bs) (hp s'))) R (P ++ bs)) s.
Proof.
  destruct s as [b h]. intros Hb Hn. pose proof Hb as (sh&Ha&Hk&Hc). cbn [lb hp] in Ha.
  assert (ro sh = false) as Hro by (unfold ro; by rewrite Hk).
  eapply wp_Malloc; [exact Ha|done|done|].
  intros p b1 h1 sh1 Ha1 Hsl Hzl Hlast [Hk1 Hc1] Hf Hfr _. cbn [lb hp fst snd].
  assert (∀ bs, zlen bs = n → buffer KPlain 0 others regs
    (St b1 (set_mem (scopy (hmem h1) p bs) h1)) R (P ++ bs)) as Hst.
  { intros bs Hbs. destruct (lb_fill _ _ _ _ _ _ _ _ _ _ bs Ha1 Hlast) as [Ha2 _];
      [unfold ro; by rewrite Hk1, Hk|lia..|].
    rewrite zdrop_ge, app_nil_r, <- app_assoc in Ha2 by lia.
    eapply buffer_intro; [exact Ha2|congruence..]. }
  split_and!; try done. unfold MallocLen. rewrite (buffer_MallocLen _ _ _ _ _ _ _ Hb) by done.
  assert (buffer KPlain 0 others regs (St b1 h1) R (P ++ sget (hmem h1) p)) as Hb1.
  { rewrite <- app_assoc in Ha1. eapply buffer_intro; [exact Ha1|congruence..]. }
  rewrite (buffer_MallocLen _ _ _ _ _ _ _ Hb1), zlen_app by done. lia.
Qed.

(** WriteBinary(p) appends the bytes of p to the pending ones, by a copy or,
    above the threshold, by taking over the memory of p. *)
Theorem WriteBinary_spec others regs s R P p :
  buffer KPlain 0 others (sregion p :: regs) s R P → slice_ok (hmem (hp s)) p →
  wp (WriteBinary p) (λ r s', r = (slen p, None) ∧
    buffer KPlain 0 others regs s' R (P ++ sget (hmem (hp s)) p) ∧ frame others regs (hp s) (hp s')) s.
Proof.
  destruct s as [b h]. intros Hb Hp. destruct (Z.eqb_spec (slen p) 0) as [E|E].
  - unfold WriteBinary. rewrite E. wsteps. split_and!; try done; [|apply frame_refl].
    unfold sget, mget. rewrite E, zsub_empty, app_nil_r by lia. by eapply buffer_drop.
  - destruct Hb as (sh&Ha&Hk&Hc). cbn [lb hp] in *. destruct (so_len _ _ Hp).
    eapply wp_WriteBinary; [exact Ha|unfold ro; by rewrite Hk|by rewrite Hk|done|lia|].
    intros b' h' sh' Ha' [Hk' Hc'] _ Hfr. rewrite <- app_assoc in Ha'. split_and!; try done.
    eapply buffer_intro; [exact Ha'|congruence..].
Qed.

(** MallocAck(n) keeps the first n of the pending bytes, however many nodes
    they are spread over, and drops the others. *)
Theorem MallocAck_spec others regs s R P n :
  buffer KPlain 0 others regs s R P → 0 < n → n <= zlen P →
  wp (MallocAck n) (λ e s', e = None ∧ buffer KPlain 0 others regs s' R (ztake n P) ∧
    MallocLen (lb s') = n ∧ frame others regs (hp s) (hp s')) s.
Proof.
  destruct s as [b h]. intros (sh&Ha&Hk&Hc) Hn HP. cbn [lb hp] in *.
  eapply wp_MallocAck; [exact Ha|done..|]. intros b' h' sh' Ha' [Hk' Hc'] Hfr.
  assert (buffer KPlain 0 others regs (St b' h') R (ztake n P)) as Hb'
    by (eapply buffer_intro; [exact Ha'|congruence..]).
  split_and!; try done. unfold MallocLen. simpl.
  rewrite (buffer_MallocLen _ _ _ _ _ _ _ Hb') by done. rewrite zlen_ztake. lia.
Qed.

(** Flush makes the pending bytes readable, behind the readable ones, and
    resets MallocLen. *)
Theorem Flush_spec others regs s R P :
  buffer KPlain 0 others regs s R P →
  wp Flush (λ e s', e = None ∧ buffer KPlain 0 others regs s' (R ++ P) [] ∧
    Len (lb s') = zlen R + zlen P ∧ MallocLen (lb s') = 0 ∧ frame others regs (hp s) (hp s')) s.
Proof.
  destruct s as [b h]. intros (sh&Ha&Hk&Hc). cbn [lb hp] in *.
  eapply wp_Flush; [exact Ha|unfold ro; by rewrite Hk|]. intros b' h' sh' Ha' Hk' Hc' Hfr.
  assert (buffer KPlain 0 others regs (St b' h') (R ++ P) []) as Hb'.
  { eapply buffer_intro; [by rewrite app_nil_r|by rewrite Hk', Hk|done]. }
  split_and!; try done.
  - unfold Len. simpl. rewrite (buffer_len _ _ _ _ _ _ _ _ Hb'). apply zlen_app.
  - apply (buffer_MallocLen _ _ _ _ _ _ _ Hb'). done.
Qed.

(** A new buffer next to another one. *)
Lemma wp_new_beside size k bk others regs b h R P (Q : LinkBuffer → heap → Prop) :
  buffer k bk others regs (St b h) R P →
  (∀ p h', beside (St b h') k bk R P p KPlain 0 [] [] others regs → frame others regs h h' → Q p h') →
  wp (NewLinkBuffer size) Q h.
Proof.
  intros (sh&Ha&Hk&Hc) HQ. cbn [lb hp] in Ha. pose proof (a_own _ _ _ _ _ _ _ _ Ha) as [_ W].
  assert (world h (locs sh ++ others) (foot b sh ++ regs)) as W' by (unfold foot; by rewrite <- app_assoc).
  eapply (wp_NewLinkBuffer KPlain); [exact W'|done|]. intros p h' (shp&Hap&Hkp&Hcp) Hfr. cbn [lb hp] in Hap.
  apply HQ; [|fsub Hfr]. exists sh, shp. split_and!; try done. cbn [lb hp].
  eapply lb_at_frame; [exact Ha|unfold foot in *; fsub Hfr|]. apply (world_swap _ shp sh p b). apply Hap.
Qed.

(** C30: WriteBuffer(buf) and Flush append what buf holds, read or pending, to
    what this buffer holds: nothing is lost and nothing is reordered.  WriteBuffer
    itself adds up the lengths and leaves buf empty and without nodes.  The
    theorem is about two different buffers, buf not empty: WriteBuffer of an
    empty one adds nothing and leaves buf its nodes. *)
Theorem WriteBuffer_Flush_spec others regs s R P p Rp Pp :
  beside s KPlain 0 R P p KPlain 0 Rp Pp others regs → 0 < zlen Rp + zlen Pp →
  wp (WriteBuffer (Some p)) (λ x s1, x = Some (cleared p) ∧
    Len (lb s1) = zlen R + zlen Rp ∧ MallocLen (lb s1) = zlen P + zlen Pp ∧
    wp Flush (λ e s2, e = None ∧ buffer KPlain 0 others regs s2 (R ++ P ++ Rp ++ Pp) [] ∧
      frame others regs (hp s) (hp s2)) s1) s.
Proof.
  destruct s as [b h]. intros (sh&shp&Ha&Hk&Hc&Hap&Hkp&Hcp) Hpos. cbn [lb hp] in *.
  pose proof (buffer_MallocLen _ _ _ b h _ _ (ex_intro _ sh (conj Ha (conj Hk Hc)))) as Em.
  pose proof (buffer_MallocLen _ _ _ p h _ _ (ex_intro _ shp (conj Hap (conj Hkp Hcp)))) as Emp.
  pose proof (a_len _ _ _ _ _ _ _ _ Hap) as Elp. unfold Len, MallocLen.
  eapply wp_WriteBuffer; [exact Ha|exact Hap|unfold ro; by rewrite Hk|by rewrite Hk|
    unfold ro; by rewrite Hkp|rewrite Emp by done; lia|].
  intros b1 h1 sh1 Ha1 Hk1 Em1 Hfr1. split_and!; [done| | |].
  - simpl. rewrite (a_len _ _ _ _ _ _ _ _ Ha1). apply zlen_app.
  - simpl. by rewrite Em1, Em, Emp.
  - eapply wp_Flush; [exact Ha1|unfold ro; by rewrite Hk1, Hk|]. intros b2 h2 sh2 Ha2 Hk2 Hc2 Hfr2.
    split_and!; [done| |by eapply frame_trans]. rewrite <- !app_assoc in Ha2.
    eapply buffer_intro; [by rewrite app_nil_r|by rewrite Hk2, Hk1, Hk|done].
Qed.

(** The cycle of a connection's input buffer: book returns room for at least
    one and at most bookSize bytes, the kernel stores some bytes there, and
    bookAck makes exactly these readable. *)
Theorem book_bookAck_spec others regs s R bookSize maxSize :
  buffer KInput 0 others regs s R [] → 0 < bookSize → 0 < maxSize →
  wp (book bookSize maxSize) (λ p s1, 0 < slen p ∧ slen p <= bookSize ∧
    ∀ bs, zlen bs <= slen p →
      wp (bookAck (zlen bs)) (λ r s2, r = (zlen R + zlen bs, None) ∧
        buffer KInput 0 others regs s2 (R ++ bs) [] ∧ frame others regs (hp s) (hp s2))
        (St (lb s1) (set_mem (scopy (hmem (hp s1)) p bs) (hp s1)))) s.
Proof.
  intros Hb Hbs Hmx. eapply wp_mono; [by apply (book_cycle others regs)|].
  intros p s1 (?&?&_&Hack). done.
Qed.

(** Close gives all nodes and the cached memory back and leaves a buffer
    without nodes; the nodes and the memory of everything else stay. *)
Theorem Close_spec k bk others regs s R P :
  buffer k bk others regs s R P →
  wp Close (λ e s', e = None ∧ lb s' = LB 0 0 None None None None [] None ∧
    world (hp s') others regs ∧ frame others regs (hp s) (hp s')) s.
Proof.
  destruct s as [b h]. intros (sh&Ha&_). cbn [lb hp] in *. eapply wp_Close; [exact Ha|].
  intros b' h' W Hfr ????????. split_and!; try done. destruct b'; simpl in *. by subst.
Qed.
End theorems.

Lemma link_run_refines_witness :
  run_spec demo_ops [] [] = Some ([RWr (10, None); RWr (9, None); RWr (1, None); RWr (0, None);
    RRd (RBytes (bytes [1; 2]%nat) None); RWr (3, None)],
    bytes (seq 3 17) ++ [Byte.x20], bytes [50; 51; 52]%nat) ∧
  ∃ rs s', @run st (@link_queue demo_rt demo_rt_ok []) demo_ops (new_state demo_rt 8) = Ret (rs, s') ∧
    length rs = 6%nat.
Proof.
  split; [vm_compute; reflexivity|].
  pose proof (@link_run_refines demo_rt demo_rt_ok 8 demo_ops _ _ _ eq_refl) as Hw. unfold wp in Hw.
  destruct (run demo_ops (new_state demo_rt 8)) as [[rs s']| |]; [|done..].
  exists rs, s'. split; [done|]. destruct Hw as [-> _]. reflexivity.
Defined.

(** Every theorem on the buffer of [demo_ops], or on one next to it. *)
Local Ltac demo := destruct demo_ops_buffer as [regs Hb]; exists regs; split; [exact Hb|].

Lemma Next_spec_witness : ∃ regs,
  buffer KPlain 0 [] regs (demo demo_ops) demo_R demo_P ∧
  wp (Next (rt := demo_rt) 13) (take_post KPlain 0 [] regs (demo demo_ops) demo_R demo_P 13) (demo demo_ops).
Proof. demo. exact (Next_spec (rt := demo_rt) (rtok := demo_rt_ok) _ _ _ _ _ _ _ 13 Hb). Defined.

Lemma ReadBinary_spec_witness : ∃ regs,
  buffer KPlain 0 [] regs (demo demo_ops) demo_R demo_P ∧
  wp (ReadBinary (rt := demo_rt) 13) (take_post KPlain 0 [] regs (demo demo_ops) demo_R demo_P 13) (demo demo_ops).
Proof. demo. apply (ReadBinary_spec (rt := demo_rt) (rtok := demo_rt_ok) _ _ _ _ _ _ _ 13 Hb). Defined.

Lemma Peek_spec_witness : ∃ regs,
  buffer KPlain 0 [] regs (demo demo_ops) demo_R demo_P ∧
  wp (Peek (rt := demo_rt) 15) (peek_post KPlain 0 [] regs (demo demo_ops) demo_R demo_P 15) (demo demo_ops).
Proof. demo. exact (Peek_spec (rt := demo_rt) (rtok := demo_rt_ok) _ _ _ _ _ _ _ 15 Hb). Defined.

Lemma Skip_ReadByte_spec_witness : ∃ regs,
  buffer KPlain 0 [] regs (demo demo_ops) demo_R demo_P ∧
  wp ReadByte (λ r s', r = (Byte.x03, None) ∧
    buffer KPlain 0 [] regs s' (bytes (seq 4 16) ++ [Byte.x20]) demo_P ∧
    frame [] regs (hp (demo demo_ops)) (hp s')) (demo demo_ops).
Proof. demo. apply (Skip_ReadByte_spec (rt := demo_rt) (rtok := demo_rt_ok) _ _ _ _ _ _ _ 5 Hb). Defined.

Lemma Until_spec_witness : ∃ regs,
  buffer KPlain 0 [] regs (demo demo_ops) demo_R demo_P ∧
  wp (Until (rt := demo_rt) Byte.x10) (until_post KPlain 0 [] regs (demo demo_ops) demo_R demo_P Byte.x10) (demo demo_ops).
Proof. demo. exact (Until_spec (rt := demo_rt) (rtok := demo_rt_ok) _ _ _ _ _ _ _ Byte.x10 Hb). Defined.

Lemma Slice_spec_witness : ∃ regs,
  buffer KPlain 0 [] regs (demo demo_ops) demo_R demo_P ∧
  wp (Slice_ (rt := demo_rt) 15) (λ r s', ∃ p, r = (Some p, None) ∧
    beside s' KPlain 0 (bytes [18; 19]%nat ++ [Byte.x20]) demo_P p KSlice 0 (bytes (seq 3 15)) [] [] regs ∧
    frame [] regs (hp (demo demo_ops)) (hp s')) (demo demo_ops).
Proof.
  demo. refine (Slice_spec (rt := demo_rt) (rtok := demo_rt_ok) _ _ _ _ _ _ _ 15 Hb _ _); vm_compute; done.
Defined.

Lemma Release_spec_witness : ∃ regs,
  buffer KPlain 0 [] regs (demo demo_ops) demo_R demo_P ∧
  wp Release (λ e s', e = None ∧ buffer KPlain 0 [] regs s' demo_R demo_P ∧
    frame [] regs (hp (demo demo_ops)) (hp s') ∧
    caches (lb s') = [] ∧ cachePeek (lb s') = None ∧ head (lb s') = read (lb s')) (demo demo_ops).
Proof. demo. exact (Release_spec (rt := demo_rt) (rtok := demo_rt_ok) _ _ _ _ _ _ _ Hb). Defined.

Lemma Malloc_spec_witness : ∃ regs,
  buffer KPlain 0 [] regs (demo demo_ops) demo_R demo_P ∧
  wp (Malloc (rt := demo_rt) 40) (λ r s', slen r.1 = 40) (demo demo_ops).
Proof.
  demo. eapply wp_mono; [refine (Malloc_spec (rt := demo_rt) (rtok := demo_rt_ok) _ _ _ _ _ 40 Hb _); lia|].
  naive_solver.
Defined.

Lemma MallocAck_spec_witness : ∃ regs,
  buffer KPlain 0 [] regs (demo demo_ops) demo_R demo_P ∧
  wp (MallocAck 2) (λ e s', e = None ∧ buffer KPlain 0 [] regs s' demo_R (bytes [50; 51]%nat) ∧
    MallocLen (lb s') = 2 ∧ frame [] regs (hp (demo demo_ops)) (hp s')) (demo demo_ops).
Proof.
  demo. refine (MallocAck_spec (rt := demo_rt) (rtok := demo_rt_ok) _ _ _ _ _ 2 Hb _ _); vm_compute; done.
Defined.

Lemma Flush_spec_witness : ∃ regs,
  buffer KPlain 0 [] regs (demo demo_ops) demo_R demo_P ∧
  wp (Flush (rt := demo_rt)) (λ e s', e = None ∧ buffer KPlain 0 [] regs s' (demo_R ++ demo_P) [] ∧
    Len (lb s') = zlen demo_R + zlen demo_P ∧ MallocLen (lb s') = 0 ∧
    frame [] regs (hp (demo demo_ops)) (hp s')) (demo demo_ops).
Proof. demo. exact (Flush_spec (rt := demo_rt) (rtok := demo_rt_ok) _ _ _ _ _ Hb). Defined.

Lemma Close_spec_witness : ∃ regs,
  buffer KPlain 0 [] regs (demo demo_ops) demo_R demo_P ∧
  wp Close (λ e s', e = None ∧ lb s' = LB 0 0 None None None None [] None ∧
    world (hp s') [] regs ∧ frame [] regs (hp (demo demo_ops)) (hp s')) (demo demo_ops).
Proof. demo. exact (Close_spec (rt := demo_rt) (rtok := demo_rt_ok) _ _ _ _ _ _ _ Hb). Defined.

(** A slice of the caller next to the buffer. *)
Lemma WriteBinary_spec_witness : ∃ regs p s,
  buffer KPlain 0 [] (sregion p :: regs) s demo_R demo_P ∧ slice_ok (hmem (hp s)) p ∧
  wp (WriteBinary (rt := demo_rt) p) (λ r s', r = (5, None) ∧
    buffer KPlain 0 [] regs s' demo_R (demo_P ++ bytes (seq 1 5)) ∧ frame [] regs (hp s) (hp s')) s.
Proof.
  destruct demo_ops_buffer as [regs Hb]. destruct (demo demo_ops) as [b h].
  assert (wp (caller_slice (rt := demo_rt) (bytes (seq 1 5))) (λ p h',
    buffer KPlain 0 [] (sregion p :: regs) (St b h') demo_R demo_P ∧ slice_ok (hmem h') p ∧
    slen p = 5 ∧ sget (hmem h') p = bytes (seq 1 5)) h) as Hw.
  { eapply (wp_caller_slice (rt := demo_rt)); [exact Hb|]. eauto. }
  destruct (wp_exec _ _ _ Hw) as (p&Hb'&Hok&Hl&Hg).
  set (s := St b (exec_state (caller_slice (bytes (seq 1 5))) h)) in *.
  exists regs, p, s. split_and!; [done..|]. rewrite <- Hg, <- Hl.
  exact (WriteBinary_spec (rt := demo_rt) (rtok := demo_rt_ok) _ _ s _ _ _ Hb' Hok).
Defined.

(** Two buffers: the one of [demo_ops], and a new one to which a byte is
    written. *)
Lemma demo_beside : ∃ regs s p c,
  beside s KPlain 0 demo_R demo_P p KPlain 0 [] [c] [] regs.
Proof.
  destruct demo_ops_buffer as [regs Hb]. destruct (demo demo_ops) as [b h].
  assert (wp (NewLinkBuffer (rt := demo_rt) 8) (λ p h',
    beside (St b h') KPlain 0 demo_R demo_P p KPlain 0 [] [] [] regs) h) as Hw.
  { eapply (wp_new_beside (rtok := demo_rt_ok)); [exact Hb|]. done. }
  destruct (wp_exec _ _ _ Hw) as (p&Hbs). clear Hw. set (h1 := exec_state _ h) in *.
  destruct (beside_step _ _ _ _ _ _ _ _ _ _ _ _ (beside_sym _ _ _ _ _ _ _ _ _ _ _ _ Hbs)) as (L&rg&Hbp&Hstep).
  cbn [lb hp] in Hbp, Hstep.
  assert (wp (WriteByte (rt := demo_rt) Byte.x2a) (λ _ s',
    buffer KPlain 0 (L ++ []) (rg ++ regs) s' [] [Byte.x2a] ∧ frame (L ++ []) (rg ++ regs) h1 (hp s')) (St p h1)) as Hw.
  { destruct Hbp as (sh&Ha&Hk&Hc). eapply (wp_WriteByte (rtok := demo_rt_ok)); [exact Ha|unfold ro; by rewrite Hk|].
    intros b' h' sh' Ha' [Hk' Hc'] _ Hfr. split; [|exact Hfr]. by exists sh'; split_and!; [|congruence..]. }
  destruct (wp_exec _ _ _ Hw) as (e&Hb'&Hfr). pose proof (Hstep _ _ _ _ _ _ Hb' Hfr) as Hbs'.
  set (s' := exec_state _ (St p h1)) in *. exists regs, (St b (hp s')), (lb s'), Byte.x2a.
  exact (beside_sym _ _ _ _ _ _ _ _ _ _ _ _ Hbs').
Qed.

Lemma WriteBuffer_Flush_spec_witness : ∃ regs s p c,
  beside s KPlain 0 demo_R demo_P p KPlain 0 [] [c] [] regs ∧
  wp (WriteBuffer (Some p)) (λ x s1, x = Some (cleared p) ∧ Len (lb s1) = 18 ∧ MallocLen (lb s1) = 4 ∧
    wp (Flush (rt := demo_rt)) (λ e s2, e = None ∧
      buffer KPlain 0 [] regs s2 (demo_R ++ demo_P ++ [] ++ [c]) [] ∧ frame [] regs (hp s) (hp s2)) s1) s.
Proof.
  destruct demo_beside as (regs&s&p&c&Hbs). exists regs, s, p, c. split; [exact Hbs|].
  refine (WriteBuffer_Flush_spec (rt := demo_rt) (rtok := demo_rt_ok) _ _ _ _ _ _ _ _ Hbs _). vm_compute. done.
Defined.

Lemma book_bookAck_spec_witness :
  buffer KInput 0 [] [] (new_state demo_rt 8) [] [] ∧
  wp (book (rt := demo_rt) 10 10) (λ p s1, 0 < slen p ∧ slen p <= 10) (new_state demo_rt 8).
Proof.
  assert (buffer KInput 0 [] [] (new_state demo_rt 8) [] []) as Hb
    by (by apply (new_state_buffer (rtok := demo_rt_ok))).
  split; [exact Hb|]. eapply wp_mono.
  - refine (book_bookAck_spec (rt := demo_rt) (rtok := demo_rt_ok) _ _ _ _ 10 10 Hb _ _); lia.
  - naive_solver.
Defined.

(** ** Uses that go wrong *)

Section pitfalls.
#[local] Existing Instance demo_rt.

(** Malloc, and a store to the memory. *)
Definition fill (bs : list byte) : M st unit :=
  r ← Malloc (zlen bs); _ ← H (copy_in r.1 bs); mret ().

Definition insert_direct (bs : list byte) (remain : Z) : M st unit :=
  p ← H (caller_slice bs); _ ← WriteDirect p remain; mret ().

Definition result {A} (m : M st A) : option A :=
  match m (new_state demo_rt 16) with Ret (a, _) => Some a | _ => None end.

(** MallocAck(0) says that nothing is pending, and keeps the bytes of the node
    at b.flush: the next Flush submits them. *)
Lemma MallocAck_zero_keeps :
  result (_ ← fill (bytes (seq 1 10)); _ ← MallocAck 0; b ← getb; let n := MallocLen b in
    _ ← Flush; b ← getb; mret (n, Len b)) = Some (0, 10).
Proof. vm_compute. reflexivity. Qed.

(** MallocAck discards the second part of a node that WriteDirect divided by
    setting its window back to the start of the shared array: the next Malloc
    hands out memory of the first part, whose bytes are lost. *)
Lemma MallocAck_after_WriteDirect_overwrites :
  result (_ ← fill (bytes (seq 1 6)); _ ← insert_direct (bytes [100; 101]%nat) 3; _ ← MallocAck 3;
    _ ← fill (bytes [50; 51]%nat); _ ← Flush; r ← Next 5; H (read_slice r.1)) =
    Some (bytes [50; 51; 3; 50; 51]%nat).
Proof. vm_compute. reflexivity. Qed.

(** WriteDirect clears the readonly mode of the second part also when the node
    it divides is a second part already, and divides a first part again: two
    nodes then give the same array back to mcache. *)
Lemma WriteDirect_twice_double_free :
  result (_ ← fill (bytes (seq 1 6)); _ ← insert_direct (bytes [100; 101]%nat) 3;
    _ ← insert_direct (bytes [110; 111]%nat) 6; _ ← Flush; _ ← Skip 10; _ ← Close;
    s ← get; mret (hfreed (hp s))) = Some [1; 1]%nat.
Proof. vm_compute. reflexivity. Qed.

(** GetBytes without an argument counts the nodes in front of b.flush only, and
    returns nothing when all bytes are in the node at b.flush. *)
Lemma GetBytes_nil_misses :
  result (_ ← fill (bytes (seq 1 6)); _ ← Flush; b ← getb; vs ← GetBytes 0; ws ← GetBytes 1;
    mret (Len b, zlen vs, zlen ws)) = Some (6, 0, 1).
Proof. vm_compute. reflexivity. Qed.

(** Slice releases what was read only when the bytes span several nodes. *)
Lemma Slice_single_keeps_nodes :
  result (_ ← fill (bytes (seq 1 16)); _ ← fill (bytes (seq 17 8)); _ ← Flush; _ ← Next 16; _ ← Slice_ 4;
    b ← getb; mret (bool_decide (head b = read b))) = Some false.
Proof. vm_compute. reflexivity. Qed.
End pitfalls.
