(* ===== verification/ReadWriter.v ===== *)
(** * Readers and writers over the standard interfaces

    Models src/nocopy_readwriter.go: zcReader and zcWriter, which give the
    nocopy interfaces to an io.Reader and an io.Writer through a buffer, and
    ioReader and ioWriter, which go the other way.  The buffer is any
    [ByteQueue]; the link buffer is one.  What the io.Reader and the io.Writer
    answer to the i-th call are arguments. *)

From S2P Require Import Prelude GoMem LinkNode LinkBuffer ByteQueue LinkHeap LinkInv LinkSpec LinkTheorems.

Open Scope Z_scope.

Definition maxReadCycle : nat := 16.

(** ** The standard interfaces *)

Inductive ioerr := EOF | OtherErr.

(** What [r.Read(buf)] leaves in buf, and what it returns. *)
Record reading := Reading { rd_mem : list byte; rd_n : Z; rd_err : option ioerr }.

(** What [w.Write(p)] returns. *)
Record writing := Writing { wr_n : Z; wr_err : option ioerr }.

(** The errors of zcReader. *)
Inductive zcerr := ZBuf (e : lberr) | ZEOF | ZNegative (n : Z) | ZIO (e : ioerr).

Inductive zres := ZOk (r : rres) | ZErr (e : zcerr).

(** Steps of a program over any state. *)
Local Ltac step1 :=
  lazymatch goal with
  | |- wp (mbind _ _) _ _ => apply wp_bind
  | |- wp (mret _) _ _ => apply wp_ret
  | |- wp get _ _ => apply wp_get
  | |- wp (modify _) _ _ => apply wp_modify
  end; cbv beta.
Local Ltac steps := repeat step1.

Section zc.
Context {B : Type} `{ByteQueue B}.

(** [r.buf.Len()] *)
Definition queue_Len : M B Z := r ← rexec OLen; mret (match r with RLen n => n | RBytes _ _ => 0 end).

(** ** zcReader *)

Record zcReader := ZcReader { zr_buf : B; zr_reads : nat }.

Definition zrbuf {A} (m : M B A) : M zcReader A := zoom zr_buf (λ b r, ZcReader b (zr_reads r)) m.

Section reader.
Context (src : nat → reading).

(** The next answer of r.r. *)
Definition next_reading : M zcReader reading := λ r,
  Ret (src (zr_reads r), ZcReader (zr_buf r) (1 + zr_reads r)).

(** The answer of Read as fill continues with it. *)
Definition fill_result (a : reading) : Z * option zcerr :=
  if rd_n a <? 0 then (0, match rd_err a with None => Some (ZNegative (rd_n a)) | Some e => Some (ZIO e) end)
  else (rd_n a, ZIO <$> rd_err a).

(** The io.Reader fills the memory that Malloc returns: here the bytes that
    are there after the call come first. *)
Fixpoint fill_loop (cycles : nat) (n : Z) : M zcReader (option zcerr) :=
  match cycles with
  | O => mret None
  | S cycles =>
      len ← zrbuf queue_Len;
      if len <? n then
        a ← next_reading;
        r ← zrbuf (wexec (OMalloc (rd_mem a)));
        match r.2 with
        | Some e => mret (Some (ZBuf e))
        | None =>
            let '(num, err) := fill_result a in
            _ ← zrbuf (_ ← wexec (OMallocAck num); wexec OFlush);
            match err with
            | Some e => mret (Some e)
            | None => fill_loop cycles n
            end
        end
      else mret None
  end.

Definition fill (n : Z) : M zcReader (option zcerr) := fill_loop maxReadCycle n.

Fixpoint waitRead (fuel : nat) (n : Z) : M zcReader (option zcerr) :=
  match fuel with
  | O => out_of_fuel
  | S fuel =>
      len ← zrbuf queue_Len;
      if len <? n then
        e ← fill n;
        match e with
        | Some (ZIO EOF) => mret (Some ZEOF)
        | Some e => mret (Some e)
        | None => waitRead fuel n
        end
      else mret None
  end.

Section operations.
Context (fuel : nat).

Definition wait_then (n : Z) (o : rop) : M zcReader zres :=
  e ← waitRead fuel n;
  match e with
  | Some e => mret (ZErr e)
  | None => r ← zrbuf (rexec o); mret (ZOk r)
  end.

Definition zc_Next (n : Z) := wait_then n (ONext n).
Definition zc_Peek (n : Z) := wait_then n (OPeek n).
Definition zc_Skip (n : Z) := wait_then n (OSkip n).
Definition zc_ReadString (n : Z) := wait_then n (OReadString n).
Definition zc_ReadBinary (n : Z) := wait_then n (OReadBinary n).
Definition zc_ReadByte := wait_then 1 OReadByte.
Definition zc_Release : M zcReader zres := r ← zrbuf (rexec ORelease); mret (ZOk r).
Definition zc_Len : M zcReader zres := r ← zrbuf (rexec OLen); mret (ZOk r).
Definition zc_Until (delim : byte) : M zcReader zres := r ← zrbuf (rexec (OUntil delim)); mret (ZOk r).

(** The methods of Reader, with the number of bytes they wait for. *)
Definition zc_rexec (o : rop) : M zcReader zres :=
  match o with
  | ONext n => zc_Next n
  | OPeek n => zc_Peek n
  | OSkip n => zc_Skip n
  | OReadString n => zc_ReadString n
  | OReadBinary n => zc_ReadBinary n
  | OReadByte => zc_ReadByte
  | OUntil c => zc_Until c
  | ORelease => zc_Release
  | OLen => zc_Len
  | OBytes => r ← zrbuf (rexec OBytes); mret (ZOk r)
  end.
End operations.

Definition needs (o : rop) : Z :=
  match o with
  | ONext n | OPeek n | OSkip n | OReadString n | OReadBinary n => n
  | OReadByte => 1
  | _ => 0
  end.
End reader.

(** ** zcWriter *)

Record zcWriter := ZcWriter { zw_buf : B; zw_writes : nat; zw_sent : list byte }.

Definition zwbuf {A} (m : M B A) : M zcWriter A :=
  zoom zw_buf (λ b w, ZcWriter b (zw_writes w) (zw_sent w)) m.

Section writer.
Context (sink : nat → list byte → writing).

(** [w.w.Write(p)]: it takes the first bytes. *)
Definition sink_write (p : list byte) : M zcWriter writing := λ w,
  let a := sink (zw_writes w) p in
  Ret (a, ZcWriter (zw_buf w) (1 + zw_writes w) (zw_sent w ++ ztake (wr_n a) p)).

Definition zc_Flush : M zcWriter (option ioerr) :=
  _ ← zwbuf (wexec OFlush);
  p ← zwbuf (rexec OBytes);
  a ← sink_write (match p with RBytes bs _ => bs | RLen _ => [] end);
  _ ← (if 0 <? wr_n a then
         _ ← zwbuf (rexec (OSkip (wr_n a)));
         _ ← zwbuf (rexec ORelease);
         mret tt
       else mret tt);
  mret (wr_err a).

Definition zc_Malloc (bs : list byte) : M zcWriter wres := zwbuf (wexec (OMalloc bs)).
Definition zc_MallocLen : M zcWriter wres := zwbuf (wexec OMallocLen).
Definition zc_MallocAck (n : Z) : M zcWriter wres := zwbuf (wexec (OMallocAck n)).
Definition zc_WriteString (bs : list byte) : M zcWriter wres := zwbuf (wexec (OWriteString bs)).
Definition zc_WriteBinary (bs : list byte) : M zcWriter wres := zwbuf (wexec (OWriteBinary bs)).
Definition zc_WriteByte (c : byte) : M zcWriter wres := zwbuf (wexec (OWriteByte c)).

(** Writing, and the error of Flush. *)
Definition zc_wexec (o : wop) : M zcWriter (wres * option ioerr) :=
  match o with
  | OMalloc bs => r ← zc_Malloc bs; mret (r, None)
  | OMallocLen => r ← zc_MallocLen; mret (r, None)
  | OMallocAck n => r ← zc_MallocAck n; mret (r, None)
  | OWriteString bs => r ← zc_WriteString bs; mret (r, None)
  | OWriteBinary bs => r ← zc_WriteBinary bs; mret (r, None)
  | OWriteByte c => r ← zc_WriteByte c; mret (r, None)
  | OFlush => e ← zc_Flush; mret ((0, None), e)
  end.

Fixpoint zc_writes (os : list wop) : M zcWriter unit :=
  match os with
  | [] => mret tt
  | o :: os => _ ← zc_wexec o; zc_writes os
  end.
End writer.

(** ** ioReader and ioWriter *)

(** [r.Read(p)] with [len(p) = l]: the bytes that are copied to p, n, err. *)
Definition io_Read (l : Z) : M B (list byte * Z * option zcerr) :=
  if l =? 0 then mret ([], 0, None)
  else
    has ← queue_Len;
    let l' := if has <? l then has else l in
    if l' =? 0 then mret ([], 0, Some (ZIO EOF))
    else
      src ← rexec (ONext l');
      match src with
      | RBytes _ (Some e) => mret ([], 0, Some (ZBuf e))
      | RBytes bs None =>
          let p := ztake l bs in
          r ← rexec ORelease;
          match r with
          | RBytes _ (Some e) => mret (p, 0, Some (ZBuf e))
          | _ => mret (p, zlen p, None)
          end
      | RLen _ => mret ([], 0, None)
      end.

(** [w.Write(p)] *)
Definition io_Write (p : list byte) : M B (Z * option lberr) :=
  r ← wexec (OMalloc p);
  match r.2 with
  | Some e => mret (0, Some e)
  | None =>
      f ← wexec OFlush;
      match f.2 with
      | Some e => mret (0, Some e)
      | None => mret (r.1, None)
      end
  end.

(** Read into slices of the lengths [ls], and the bytes that came. *)
Fixpoint io_reads (ls : list Z) : M B (list byte) :=
  match ls with
  | [] => mret []
  | l :: ls => r ← io_Read l; bs ← io_reads ls; mret (r.1.1 ++ bs)
  end.

(** ** What they do *)

Lemma wp_queue_Len s R P (Q : Z → B → Prop) :
  holds s R P → (∀ s', holds s' R P → Q (zlen R) s') → wp queue_Len Q s.
Proof.
  intros Hh HQ. unfold queue_Len. steps. eapply wp_mono; [by apply (rexec_ok OLen)|].
  intros r s' [-> Hh']. steps. by apply HQ.
Qed.

Lemma wp_rexec o s R P (Q : rres → B → Prop) :
  holds s R P → (∀ s', holds s' (rspec o R).2 P → Q (rspec o R).1 s') → wp (rexec o) Q s.
Proof. intros Hh HQ. eapply wp_mono; [by apply rexec_ok|]. intros r s' [-> ?]. by apply HQ. Qed.

Lemma wp_wexec o s R P r R' P' (Q : wres → B → Prop) :
  holds s R P → wspec o R P = Some (r, R', P') → (∀ s', holds s' R' P' → Q r s') → wp (wexec o) Q s.
Proof. intros Hh Hs HQ. eapply wp_mono; [by eapply wexec_ok|]. intros r' s' [-> ?]. by apply HQ. Qed.

Section reader_facts.
Context (src : nat → reading).

(** An io.Reader fills at most the memory it gets. *)
Definition reads_ok (a : reading) : Prop := zlen (rd_mem a) = block4k ∧ 0 <= rd_n a <= block4k.
Definition rd_data (a : reading) : list byte := ztake (rd_n a) (rd_mem a).

(** A Read that delivers something. *)
Definition delivers (a : reading) : Prop := reads_ok a ∧ 0 < rd_n a ∧ rd_err a = None.

(** The bytes of the Reads [i .. i + k - 1]. *)
Definition stream (i k : nat) : list byte := mjoin (rd_data ∘ src <$> seq i k).

Lemma stream_S i k : stream i (S k) = stream i k ++ rd_data (src (i + k)).
Proof. unfold stream. rewrite seq_S, fmap_app, join_app. simpl. by rewrite app_nil_r. Qed.

Lemma stream_more i k : (∀ j, (j < k)%nat → delivers (src (i + j))) → Z.of_nat k <= zlen (stream i k).
Proof.
  induction k as [|k IH]; intros Hd; [apply zlen_nonneg|]. rewrite stream_S, zlen_app.
  destruct (Hd k) as ([??]&?&_); [lia|]. specialize (IH ltac:(intros; apply Hd; lia)).
  unfold rd_data. rewrite zlen_ztake. lia.
Qed.
Lemma stream_cons i k : stream i (S k) = rd_data (src i) ++ stream (S i) k.
Proof. done. Qed.

Lemma stream_app i j k : stream i (j + k) = stream i j ++ stream (i + j) k.
Proof. unfold stream. by rewrite seq_app, fmap_app, join_app. Qed.

Lemma wp_take_reading a s R (Q : B → Prop) :
  holds s R [] → reads_ok a →
  (∀ s' d, holds s' (R ++ d) [] → (0 < rd_n a → d = rd_data a) → Q s') →
  wp (wexec (OMalloc (rd_mem a))) (λ r s1, r.2 = None ∧
    wp (_ ← wexec (OMallocAck (rd_n a)); wexec OFlush) (λ _ s2, Q s2) s1) s.
Proof.
  intros Hh [Hm Hn] HQ. eapply wp_wexec; [exact Hh|done|]. intros s1 Hh1. simpl in Hh1. split; [done|].
  destruct (decide (rd_n a = 0)) as [E|E].
  - rewrite E. eapply wp_mono; [by apply ack_zero_ok|]. intros _ s2 (k&Hk&Hh2). eapply HQ; [exact Hh2|lia].
  - steps. eapply wp_wexec; [exact Hh1| |].
    { simpl. destruct (Z.ltb_spec (rd_n a) 0); [lia|]. rewrite (proj2 (Z.ltb_lt 0 _)), (proj2 (Z.leb_le _ _)) by lia. done. }
    intros s2 Hh2. eapply wp_wexec; [exact Hh2|done|]. intros s3 Hh3. by eapply HQ.
Qed.

(** The number of bytes [n] arrives with the next [k] Reads, or the Read after
    them fails. *)
Definition supplied (i k : nat) (R : list byte) (n : Z) : Prop :=
  (∀ j, (j < k)%nat → delivers (src (i + j))) ∧
  (n <= zlen (R ++ stream i k) ∨ reads_ok (src (i + k)) ∧ is_Some (rd_err (src (i + k)))).

(** [j] Reads, none of them in vain. *)
Definition has_read (i k : nat) (R : list byte) (n : Z) (j : nat) (s : zcReader) : Prop :=
  (j ≤ k)%nat ∧ holds (zr_buf s) (R ++ stream i j) [] ∧ zr_reads s = (i + j)%nat ∧
  (∀ j', (j' < j)%nat → zlen (R ++ stream i j') < n).

(** The Read after the [k] ones failed; what it delivered is kept. *)
Definition has_failed (i k : nat) (R : list byte) (n : Z) (e : ioerr) (s : zcReader) : Prop :=
  rd_err (src (i + k)) = Some e ∧ zlen (R ++ stream i k) < n ∧ zr_reads s = (i + k + 1)%nat ∧
  ∃ d, holds (zr_buf s) (R ++ stream i k ++ d) [] ∧
    (0 < rd_n (src (i + k)) → d = rd_data (src (i + k))).

Lemma has_read_cons i k R n j s :
  zlen R < n → has_read (S i) k (R ++ rd_data (src i)) n j s → has_read i (S k) R n (S j) s.
Proof.
  intros Hn (?&Hh&?&Hj). unfold has_read. rewrite stream_cons. split_and!; [lia|by rewrite app_assoc|lia|].
  intros [|j'] ?; [unfold stream; simpl; by rewrite app_nil_r|]. rewrite stream_cons, app_assoc. apply Hj. lia.
Qed.

Lemma has_failed_cons i k R n e s :
  has_failed (S i) k (R ++ rd_data (src i)) n e s → has_failed i (S k) R n e s.
Proof.
  intros (?&?&?&d&Hh&Hd). unfold has_failed. rewrite stream_cons, Nat.add_succ_r. rewrite <- !app_assoc in *.
  split_and!; [done|done|simpl in *; lia|]. exists d. by rewrite <- app_assoc.
Qed.

Lemma supplied_cons i k R n : supplied i (S k) R n → supplied (S i) k (R ++ rd_data (src i)) n.
Proof.
  intros [Hd Hs]. split.
  - intros j Hj. specialize (Hd (S j)). rewrite Nat.add_succ_r in Hd. apply Hd. lia.
  - rewrite stream_cons, app_assoc, Nat.add_succ_r in Hs. exact Hs.
Qed.

Lemma fill_loop_ok cycles : ∀ i k R n s,
  zr_reads s = i → holds (zr_buf s) R [] → supplied i k R n →
  wp (fill_loop src cycles n) (λ r s',
    match r with
    | None => ∃ j, has_read i k R n j s' ∧ (n <= zlen (R ++ stream i j) ∨ j = cycles)
    | Some (ZIO e) => has_failed i k R n e s'
    | Some _ => False
    end) s.
Proof.
  induction cycles as [|cycles IH]; intros i k R n s Hi Hh Hs.
  { simpl. steps. exists 0%nat. unfold has_read, stream. simpl. rewrite app_nil_r.
    split; [split_and!; [lia|done|lia|lia]|by right]. }
  simpl. steps. apply wp_zoom. eapply wp_queue_Len; [exact Hh|]. intros b1 Hh1.
  destruct (Z.ltb_spec (zlen R) n) as [Hn|Hn].
  2:{ steps. exists 0%nat. unfold has_read, stream. simpl. rewrite app_nil_r.
      split; [split_and!; [lia|done|lia|lia]|by left]. }
  steps. unfold next_reading, wp at 1. simpl. rewrite Hi. steps. apply wp_zoom. simpl.
  assert (reads_ok (src i)) as Hok.
  { destruct Hs as [Hd [Hs|[Hs _]]], k as [|k]; rewrite ?Nat.add_0_r in *; try done.
    - unfold stream in Hs. simpl in Hs. rewrite app_nil_r in Hs. lia.
    - specialize (Hd 0%nat). rewrite Nat.add_0_r in Hd. apply Hd. lia.
    - specialize (Hd 0%nat). rewrite Nat.add_0_r in Hd. apply Hd. lia. }
  assert (fill_result (src i) = (rd_n (src i), ZIO <$> rd_err (src i))) as ->.
  { unfold fill_result. rewrite (proj2 (Z.ltb_ge _ _)); [done|apply Hok]. }
  eapply wp_mono; [eapply (wp_take_reading (src i)); [exact Hh1|exact Hok|]|].
  2:{ intros r b2 [-> Hw]. steps. apply wp_zoom. simpl. exact Hw. }
  simpl. intros b3 d Hh3 Hd3. destruct k as [|k].
  - destruct Hs as [_ [Hs|[_ [e He]]]]; rewrite ?Nat.add_0_r in *.
    { unfold stream in Hs. simpl in Hs. rewrite app_nil_r in Hs. lia. }
    rewrite He. simpl. steps. unfold has_failed, stream. rewrite !Nat.add_0_r. simpl. rewrite app_nil_r.
    split_and!; [done..|lia|]. by exists d.
  - pose proof (proj1 Hs 0%nat ltac:(lia)) as (_&Hpos&He). rewrite Nat.add_0_r in Hpos, He.
    rewrite He. simpl. rewrite Hd3 in Hh3 by done.
    eapply wp_mono; [apply (IH (S i) k); [simpl; lia|exact Hh3|by apply supplied_cons]|].
    intros [[]|] s'; try done; [by apply has_failed_cons|].
    intros (j&Hr&Hj). exists (S j). split; [by apply has_read_cons|]. rewrite stream_cons, app_assoc. lia.
Qed.
Lemma has_read_app i j k R n j' s :
  has_read (i + j) (k - j) (R ++ stream i j) n j' s → (j ≤ k)%nat →
  (∀ x, (x < j)%nat → zlen (R ++ stream i x) < n) → has_read i k R n (j + j') s.
Proof.
  intros (?&Hh&?&Hx) Hj Hlt. unfold has_read. rewrite stream_app.
  split_and!; [lia|by rewrite app_assoc|lia|]. intros x ?.
  destruct (decide (x < j)%nat) as [|Hge]; [by apply Hlt|].
  replace x with (j + (x - j))%nat by lia. rewrite stream_app, app_assoc. apply Hx. lia.
Qed.

Lemma has_failed_app i j k R n e s :
  has_failed (i + j) (k - j) (R ++ stream i j) n e s → (j ≤ k)%nat → has_failed i k R n e s.
Proof.
  intros (He&Hn&Hi&d&Hh&Hd) Hj. unfold has_failed.
  assert (stream i k = stream i j ++ stream (i + j) (k - j)) as E
    by (rewrite <- stream_app; f_equal; lia).
  replace (i + j + (k - j))%nat with (i + k)%nat in * by lia.
  rewrite E. rewrite <- !app_assoc in *. split_and!; try done. exists d. by rewrite <- app_assoc.
Qed.

Lemma supplied_app i j k R n : (j ≤ k)%nat → supplied i k R n → supplied (i + j) (k - j) (R ++ stream i j) n.
Proof.
  intros Hj [Hd Hs]. split.
  - intros x Hx. specialize (Hd (j + x)%nat). rewrite Nat.add_assoc in Hd. apply Hd. lia.
  - rewrite <- app_assoc, <- stream_app. replace (j + (k - j))%nat with k by lia.
    by replace (i + j + (k - j))%nat with (i + k)%nat by lia.
Qed.

Lemma waitRead_ok fuel : ∀ i k R n s,
  zr_reads s = i → holds (zr_buf s) R [] → supplied i k R n → (k < fuel)%nat →
  wp (waitRead src fuel n) (λ r s',
    match r with
    | None => ∃ j, has_read i k R n j s' ∧ n <= zlen (R ++ stream i j)
    | Some e => has_failed i k R n EOF s' ∧ e = ZEOF ∨ ∃ x, has_failed i k R n x s' ∧ x ≠ EOF ∧ e = ZIO x
    end) s.
Proof.
  induction fuel as [|fuel IH]; intros i k R n s Hi Hh Hs Hf; [lia|].
  simpl. steps. apply wp_zoom. eapply wp_queue_Len; [exact Hh|]. intros b1 Hh1.
  destruct (Z.ltb_spec (zlen R) n) as [Hn|Hn].
  2:{ steps. exists 0%nat. unfold has_read, stream. simpl. rewrite app_nil_r.
      split; [split_and!; [lia|done|lia|lia]|done]. }
  steps. eapply wp_mono; [by apply (fill_loop_ok maxReadCycle i k R n)|].
  intros [[]|] s2; try done.
  - intros Hfl. destruct e; steps; [by left|right; by eexists].
  - intros (j&Hr&Hj). pose proof Hr as (Hjk&Hh2&Hi2&Hlt).
    destruct (decide (n <= zlen (R ++ stream i j))) as [Hen|Hen].
    + destruct j as [|j]; [unfold stream in Hen; simpl in Hen; rewrite app_nil_r in Hen; lia|].
      destruct fuel as [|fuel]; [lia|]. clear IH. simpl. steps. apply wp_zoom.
      eapply wp_queue_Len; [exact Hh2|]. intros b3 Hh3. rewrite (proj2 (Z.ltb_ge _ _)) by lia. steps.
      exists (S j). split; [|done]. by repeat split.
    + destruct Hj as [|Hj]; [lia|]. assert (0 < j)%nat by (subst j; unfold maxReadCycle; lia).
      eapply wp_mono; [apply (IH (i + j)%nat (k - j)%nat (R ++ stream i j)); try done;
        [by apply supplied_app|lia]|].
      intros [e|] s3.
      * intros [[Hfl ->]|(x&Hfl&?&->)]; [left|right; exists x];
          split_and?; try done; by eapply has_failed_app.
      * intros (j'&Hr'&Hn'). exists (j + j')%nat. split; [by eapply has_read_app|].
        by rewrite stream_app, app_assoc.
Qed.

(** C31: a method of zcReader that needs [n] bytes returns what a buffer with
    everything that was read returns, when the buffered bytes and the next Reads
    hold them and each of these Reads returns at least a byte, at most as many
    as there is room for, and a nil error: it does not call Read once more than
    needed, and the bytes it does not take stay in the buffer.  One Read per
    round of fuel is enough.  A Read that returns its bytes together with
    io.EOF is not covered: zcReader then reports ErrEOF first. *)
Theorem zcReader_reads fuel o k s R :
  holds (zr_buf s) R [] → (∀ j, (j < k)%nat → delivers (src (zr_reads s + j))) →
  needs o <= zlen (R ++ stream (zr_reads s) k) → (k < fuel)%nat →
  wp (zc_rexec src fuel o) (λ r s', ∃ j, (j ≤ k)%nat ∧ zr_reads s' = (zr_reads s + j)%nat ∧
    (∀ j', (j' < j)%nat → zlen (R ++ stream (zr_reads s) j') < needs o) ∧
    let R' := R ++ stream (zr_reads s) j in
    needs o <= zlen R' ∧ r = ZOk (rspec o R').1 ∧ holds (zr_buf s') (rspec o R').2 []) s.
Proof.
  intros Hh Hd Hn Hf. set (i := zr_reads s) in *.
  assert (∀ n, n = needs o → wp (wait_then src fuel n o) (λ r s', ∃ j, (j ≤ k)%nat ∧ zr_reads s' = (i + j)%nat ∧
    (∀ j', (j' < j)%nat → zlen (R ++ stream i j') < needs o) ∧
    let R' := R ++ stream i j in
    needs o <= zlen R' ∧ r = ZOk (rspec o R').1 ∧ holds (zr_buf s') (rspec o R').2 []) s) as Hw.
  { intros n ->. unfold wait_then. steps. eapply wp_mono; [apply (waitRead_ok fuel i k R); try done|].
    { split; [done|by left]. }
    intros [e|] s1.
    - intros [[(_&?&_) _]|(x&(_&?&_)&_)]; lia.
    - intros (j&(Hjk&Hh1&Hi&Hlt)&Hen). steps. apply wp_zoom. eapply wp_rexec; [exact Hh1|].
      intros b2 Hh2. steps. by exists j. }
  assert (needs o = 0 → wp (r ← zrbuf (rexec o); mret (ZOk r)) (λ r s', ∃ j, (j ≤ k)%nat ∧ zr_reads s' = (i + j)%nat ∧
    (∀ j', (j' < j)%nat → zlen (R ++ stream i j') < needs o) ∧
    let R' := R ++ stream i j in
    needs o <= zlen R' ∧ r = ZOk (rspec o R').1 ∧ holds (zr_buf s') (rspec o R').2 []) s) as Hw0.
  { intros E0. steps. apply wp_zoom. eapply wp_rexec; [exact Hh|]. intros b2 Hh2. steps. exists 0%nat.
    unfold stream. simpl. rewrite app_nil_r, E0. split_and!; [lia|by rewrite Nat.add_0_r|lia|apply zlen_nonneg|done..]. }
  destruct o; first [by apply Hw|by apply Hw0].
Qed.

(** When the bytes do not suffice and the Read after the next [k] ones
    fails, a method that waits returns this error, io.EOF as ErrEOF; what the
    Reads delivered stays in the buffer. *)
Theorem zcReader_fails fuel o k s R e :
  holds (zr_buf s) R [] → (∀ j, (j < k)%nat → delivers (src (zr_reads s + j))) →
  zlen (R ++ stream (zr_reads s) k) < needs o →
  reads_ok (src (zr_reads s + k)) → rd_err (src (zr_reads s + k)) = Some e → (k < fuel)%nat →
  wp (zc_rexec src fuel o) (λ r s', r = ZErr (match e with EOF => ZEOF | _ => ZIO e end) ∧
    zr_reads s' = (zr_reads s + k + 1)%nat ∧
    ∃ d, holds (zr_buf s') (R ++ stream (zr_reads s) k ++ d) [] ∧
      (0 < rd_n (src (zr_reads s + k)) → d = rd_data (src (zr_reads s + k)))) s.
Proof.
  intros Hh Hd Hn Hok He Hf. set (i := zr_reads s) in *.
  assert (∀ n, n = needs o → wp (wait_then src fuel n o) (λ r s', r = ZErr (match e with EOF => ZEOF | _ => ZIO e end) ∧
    zr_reads s' = (i + k + 1)%nat ∧
    ∃ d, holds (zr_buf s') (R ++ stream i k ++ d) [] ∧
      (0 < rd_n (src (i + k)) → d = rd_data (src (i + k)))) s) as Hw.
  { intros n ->. unfold wait_then. steps. eapply wp_mono; [apply (waitRead_ok fuel i k R); try done|].
    { split; [done|]. right. by rewrite He. }
    intros [x|] s1.
    - intros [[(E&_&?&?) ->]|(y&(E&_&?&?)&?&->)]; rewrite E in He; simplify_eq; steps; [done|by destruct e].
    - intros (j&(Hjk&_&_&_)&Hen). exfalso.
      replace k with (j + (k - j))%nat in Hn by lia. rewrite stream_app, app_assoc, zlen_app in Hn.
      pose proof (zlen_nonneg (stream (i + j) (k - j))). lia. }
  destruct o; first [by apply Hw|simpl in Hn; pose proof (zlen_nonneg (R ++ stream i k)); lia].
Qed.
End reader_facts.

Section writer_facts.
Context (sink : nat → list byte → writing).

(** io.Writer: "Write writes len(p) bytes ... It returns the number of bytes
    written from p (0 <= n <= len(p))". *)
Context (sink_ok : ∀ i p, 0 <= wr_n (sink i p) <= zlen p).

Lemma wp_zc_Flush w R P (Q : option ioerr → zcWriter → Prop) :
  holds (zw_buf w) R P →
  (∀ b, let a := sink (zw_writes w) (R ++ P) in
     holds b (zdrop (wr_n a) (R ++ P)) [] →
     Q (wr_err a) (ZcWriter b (1 + zw_writes w) (zw_sent w ++ ztake (wr_n a) (R ++ P)))) →
  wp (zc_Flush sink) Q w.
Proof.
  intros Hh HQ. unfold zc_Flush. steps. apply wp_zoom. eapply wp_wexec; [exact Hh|done|]. intros b1 Hh1.
  steps. apply wp_zoom. eapply (wp_rexec OBytes); [exact Hh1|]. simpl. intros b2 Hh2. steps.
  unfold sink_write, wp at 1. simpl. pose proof (sink_ok (zw_writes w) (R ++ P)) as Hn.
  set (a := sink (zw_writes w) (R ++ P)) in *. steps. destruct (Z.ltb_spec 0 (wr_n a)) as [Hlt|Hge].
  - steps. apply wp_zoom. eapply (wp_rexec (OSkip (wr_n a))); [exact Hh2|]. intros b3 Hh3. steps.
    simpl in Hh3. unfold take_spec in Hh3. rewrite (proj2 (Z.leb_gt _ _)), (proj2 (Z.ltb_ge _ _)) in Hh3 by lia.
    apply wp_zoom. eapply (wp_rexec ORelease); [exact Hh3|]. intros b4 Hh4. steps. by apply HQ.
  - steps. apply HQ. by rewrite zdrop_nonpos by lia.
Qed.

(** What an operation adds. *)
Definition wbytes (o : wop) : list byte :=
  match o with
  | OMalloc bs | OWriteBinary bs | OWriteString bs => bs
  | OWriteByte c => [c]
  | _ => []
  end.
Definition takes_back (o : wop) : bool := match o with OMallocAck _ => true | _ => false end.

Lemma wp_zc_wexec o w R P :
  holds (zw_buf w) R P → takes_back o = false →
  wp (zc_wexec sink o) (λ _ w', ∃ R' P', holds (zw_buf w') R' P' ∧
    zw_sent w' ++ R' ++ P' = zw_sent w ++ R ++ P ++ wbytes o) w.
Proof.
  intros Hh Ho.
  assert (∀ r R' P', wspec o R P = Some (r, R', P') → R' ++ P' = R ++ P ++ wbytes o →
    wp (r ← zwbuf (wexec o); mret (r, None : option ioerr)) (λ _ w', ∃ R' P', holds (zw_buf w') R' P' ∧
      zw_sent w' ++ R' ++ P' = zw_sent w ++ R ++ P ++ wbytes o) w) as Hw.
  { intros r R' P' Hs E. steps. apply wp_zoom. eapply wp_wexec; [exact Hh|exact Hs|]. intros b Hb. steps.
    exists R', P'. by rewrite <- E. }
  destruct o; try done; try (by eapply Hw; [done|simpl; by rewrite ?app_nil_r]).
  simpl. steps. eapply wp_zc_Flush; [exact Hh|]. intros b a Hb. steps. eexists _, _. split; [exact Hb|].
  simpl. by rewrite !app_nil_r, <- app_assoc, ztake_zdrop.
Qed.

(** Whatever part of the bytes the io.Writer takes at every Flush, what it
    has got, followed by what is still buffered, is what was written, in order:
    nothing is lost, sent twice or reordered. *)
Theorem zcWriter_stream os w R P :
  holds (zw_buf w) R P → Forall (λ o, takes_back o = false) os →
  wp (zc_writes sink os) (λ _ w', ∃ R' P', holds (zw_buf w') R' P' ∧
    zw_sent w' ++ R' ++ P' = zw_sent w ++ R ++ P ++ mjoin (wbytes <$> os)) w.
Proof.
  intros Hh Hos. revert w R P Hh. induction Hos as [|o os Ho _ IH]; intros w R P Hh; simpl; steps.
  - exists R, P. by rewrite app_nil_r.
  - eapply wp_mono; [by apply wp_zc_wexec|]. intros _ w1 (R1&P1&Hh1&E1).
    eapply wp_mono; [by eapply IH|]. intros _ w2 (R2&P2&Hh2&E2). exists R2, P2. split; [done|].
    rewrite E2, (app_assoc R1), app_assoc, E1. by rewrite <- !app_assoc.
Qed.
End writer_facts.

(** ** ioReader and ioWriter *)

Lemma wp_io_Read l s R P (Q : list byte * Z * option zcerr → B → Prop) :
  holds s R P → 0 <= l →
  (∀ s', holds s' (zdrop l R) P →
     Q (ztake l R, Z.min l (zlen R), if (0 <? l) && (zlen R =? 0) then Some (ZIO EOF) else None) s') →
  wp (io_Read l) Q s.
Proof.
  intros Hh Hl HQ. unfold io_Read. pose proof (zlen_nonneg R). destruct (Z.eqb_spec l 0) as [->|Hl0].
  { steps. rewrite ztake_nonpos, zdrop_nonpos, Z.min_l in HQ by lia. by apply HQ. }
  rewrite (proj2 (Z.ltb_lt 0 l)) in HQ by lia.
  steps. eapply wp_queue_Len; [exact Hh|]. intros s1 Hh1.
  set (k := if zlen R <? l then zlen R else l).
  assert (k = Z.min l (zlen R)) as Ek by (unfold k; destruct (Z.ltb_spec (zlen R) l); lia).
  destruct (Z.eqb_spec k 0) as [E0|E0].
  { assert (R = []) as -> by (apply zlen_0_nil; lia). steps. unfold ztake, zdrop in HQ.
    rewrite take_nil, drop_nil in HQ. rewrite Z.min_r in HQ by lia. by apply HQ. }
  assert (ztake k R = ztake l R) as Et.
  { rewrite Ek. destruct (Z.le_gt_cases l (zlen R)); [by rewrite Z.min_l by lia|].
    rewrite Z.min_r, !ztake_ge by lia. done. }
  assert (zdrop k R = zdrop l R) as Ed.
  { rewrite Ek. destruct (Z.le_gt_cases l (zlen R)); [by rewrite Z.min_l by lia|].
    rewrite Z.min_r, !zdrop_ge by lia. done. }
  steps. eapply (wp_rexec (ONext k)); [exact Hh1|]. simpl. unfold take_spec.
  rewrite (proj2 (Z.leb_gt _ _)), (proj2 (Z.ltb_ge _ _)), Et, Ed by lia. simpl. intros s2 Hh2. steps.
  eapply (wp_rexec ORelease); [exact Hh2|]. simpl. intros s3 Hh3. steps. specialize (HQ s3 Hh3).
  rewrite (proj2 (Z.eqb_neq _ _)) in HQ by lia. simpl in HQ.
  rewrite ztake_ztake, Z.min_id, zlen_ztake. by rewrite Z.max_r by lia.
Qed.

Lemma wp_io_Write p s R P (Q : Z * option lberr → B → Prop) :
  holds s R P → (∀ s', holds s' (R ++ P ++ p) [] → Q (zlen p, None) s') → wp (io_Write p) Q s.
Proof.
  intros Hh HQ. unfold io_Write. steps. eapply wp_wexec; [exact Hh|done|]. intros s1 Hh1. simpl. steps.
  eapply wp_wexec; [exact Hh1|done|]. intros s2 Hh2. simpl. steps. by apply HQ.
Qed.

(** C34: Write takes all of p, and Reads into slices of any lengths get what was
    written in order: the concatenation of what they copy is the beginning of
    the bytes that were there before, followed by p, and the rest stays. *)
Theorem io_roundtrip p ls s R P :
  holds s R P → Forall (λ l, 0 <= l) ls →
  wp (r ← io_Write p; bs ← io_reads ls; mret (r, bs)) (λ r s',
    r = ((zlen p, None), ztake (foldr Z.add 0 ls) (R ++ P ++ p)) ∧
    holds s' (zdrop (foldr Z.add 0 ls) (R ++ P ++ p)) []) s.
Proof.
  intros Hh Hls. steps. eapply wp_io_Write; [exact Hh|]. intros s1 Hh1. steps.
  assert (∀ T s, holds s T [] → wp (io_reads ls) (λ bs s', bs = ztake (foldr Z.add 0 ls) T ∧
    holds s' (zdrop (foldr Z.add 0 ls) T) []) s) as Hw.
  { clear -Hls. induction Hls as [|l ls Hl Hls IH]; intros T s Hh; simpl; steps.
    { by rewrite ztake_nonpos, zdrop_nonpos. }
    assert (0 <= foldr Z.add 0 ls) by (clear -Hls; induction Hls; simpl; lia).
    eapply wp_io_Read; [exact Hh|done|]. intros s1 Hh1. steps. eapply wp_mono; [by apply IH|].
    intros bs s2 [-> Hh2]. steps. simpl. rewrite zdrop_zdrop in Hh2 by lia.
    by rewrite ztake_add by lia. }
  eapply wp_mono; [by apply Hw|]. intros bs s2 [-> Hh2]. by steps.
Qed.
End zc.

(** ** Examples, on the link buffer *)

Definition demo_block : list byte := bytes (seq 1 100) ++ replicate 3996 Byte.x00.

Lemma demo_block_ok n : 0 <= n <= block4k → reads_ok (Reading demo_block n None).
Proof. intros Hn. split; [vm_compute; reflexivity|exact Hn]. Qed.

Lemma demo_new : @holds st (@link_queue demo_rt demo_rt_ok []) (new_state demo_rt 8) [] [].
Proof. exists []. pose proof demo_rt_ok. by apply new_state_buffer. Defined.

(** Two Reads of three bytes each give Next(5) its bytes. *)
Lemma zcReader_reads_witness :
  wp (@zc_rexec st (@link_queue demo_rt demo_rt_ok []) (λ _, Reading demo_block 3 None) 3 (ONext 5))
    (λ r s', ∃ j, (j ≤ 2)%nat ∧ zr_reads s' = (0 + j)%nat ∧
      (∀ j', (j' < j)%nat → zlen ([] ++ stream (λ _, Reading demo_block 3 None) 0 j') < 5) ∧
      let R' := [] ++ stream (λ _, Reading demo_block 3 None) 0 j in
      5 <= zlen R' ∧ r = ZOk (rspec (ONext 5) R').1 ∧
      @holds st (@link_queue demo_rt demo_rt_ok []) (zr_buf s') (rspec (ONext 5) R').2 [])
    (ZcReader (new_state demo_rt 8) 0).
Proof.
  apply (@zcReader_reads st (@link_queue demo_rt demo_rt_ok []) (λ _, Reading demo_block 3 None) 3 (ONext 5) 2
    (ZcReader (new_state demo_rt 8) 0) []).
  - exact demo_new.
  - intros j _. split_and!; [apply (demo_block_ok 3); by vm_compute|done..].
  - by vm_compute.
  - lia.
Defined.

Lemma zcReader_fails_witness :
  wp (@zc_rexec st (@link_queue demo_rt demo_rt_ok [])
       (λ i, Reading demo_block 3 (if (i =? 1)%nat then Some EOF else None)) 3 (ONext 7))
    (λ r s', r = ZErr ZEOF ∧ zr_reads s' = (0 + 1 + 1)%nat ∧
      ∃ d, @holds st (@link_queue demo_rt demo_rt_ok []) (zr_buf s')
             ([] ++ stream (λ i, Reading demo_block 3 (if (i =? 1)%nat then Some EOF else None)) 0 1 ++ d) [] ∧
        (0 < 3 → d = rd_data (Reading demo_block 3 (Some EOF))))
    (ZcReader (new_state demo_rt 8) 0).
Proof.
  apply (@zcReader_fails st (@link_queue demo_rt demo_rt_ok [])
    (λ i, Reading demo_block 3 (if (i =? 1)%nat then Some EOF else None)) 3 (ONext 7) 1
    (ZcReader (new_state demo_rt 8) 0) [] EOF).
  - exact demo_new.
  - intros [|j] Hj; [|lia]. split_and!; [apply (demo_block_ok 3); by vm_compute|done..].
  - by vm_compute.
  - apply (demo_block_ok 3). by vm_compute.
  - done.
  - lia.
Defined.

(** The io.Writer takes half of what it gets. *)
Lemma zcWriter_stream_witness :
  wp (@zc_writes st (@link_queue demo_rt demo_rt_ok []) (λ _ p, Writing (zlen p / 2) None)
       [OWriteBinary (bytes (seq 1 9)); OFlush; OWriteByte Byte.x20; OFlush])
    (λ _ w', ∃ R' P', @holds st (@link_queue demo_rt demo_rt_ok []) (zw_buf w') R' P' ∧
      zw_sent w' ++ R' ++ P' =
        [] ++ [] ++ [] ++ mjoin (wbytes <$> [OWriteBinary (bytes (seq 1 9)); OFlush; OWriteByte Byte.x20; OFlush]))
    (ZcWriter (new_state demo_rt 8) 0 []).
Proof.
  refine (@zcWriter_stream st (@link_queue demo_rt demo_rt_ok []) (λ _ p, Writing (zlen p / 2) None) _
    [OWriteBinary (bytes (seq 1 9)); OFlush; OWriteByte Byte.x20; OFlush] (ZcWriter (new_state demo_rt 8) 0 []) [] [] _ _).
  - intros _ p. simpl. pose proof (zlen_nonneg p). split; [apply Z.div_pos; lia|apply Z.div_le_upper_bound; lia].
  - exact demo_new.
  - by repeat apply Forall_cons_2; try apply Forall_nil_2.
Defined.

Lemma io_roundtrip_witness :
  wp (r ← @io_Write st (@link_queue demo_rt demo_rt_ok []) (bytes (seq 1 9));
      bs ← @io_reads st (@link_queue demo_rt demo_rt_ok []) [2; 0; 5]; mret (r, bs))
    (λ r s', r = ((9, None), bytes (seq 1 7)) ∧
      @holds st (@link_queue demo_rt demo_rt_ok []) s' (bytes [8; 9]%nat) [])
    (new_state demo_rt 8).
Proof.
  apply (@io_roundtrip st (@link_queue demo_rt demo_rt_ok []) (bytes (seq 1 9)) [2; 0; 5] (new_state demo_rt 8) [] []).
  - exact demo_new.
  - repeat constructor; lia.
Defined.

(** ** Uses that go wrong *)

Section pitfalls.

(** An io.Reader may return the last bytes together with io.EOF: waitRead then
    reports ErrEOF although the bytes are there, and the same call succeeds
    when it is repeated. *)
Lemma data_with_EOF :
  let next := @zc_Next st (@link_queue demo_rt demo_rt_ok []) (λ _, Reading demo_block 3 (Some EOF)) 3 3 in
  match (r1 ← next; r2 ← next; mret (r1, r2)) (ZcReader (new_state demo_rt 8) 0) with
  | Ret (r, _) => r = (ZErr ZEOF, ZOk (RBytes (bytes (seq 1 3)) None))
  | _ => False
  end.
Proof. vm_compute. reflexivity. Qed.

(** A Read that returns (0, io.EOF) is acknowledged with MallocAck(0): where
    LinkBufferCap is larger than a block, the block may lie in the node at
    b.flush, and becomes readable. *)
Definition large_rt : Runtime := {|
  mcache_cap c := c; dirty a i := Byte.xff; pool_pick l := hd_error l;
  LinkBufferCap := 8192; featureAlwaysNoCopyRead := false;
|}.

Lemma large_rt_ok : RuntimeOk large_rt.
Proof. intros c. simpl. lia. Qed.

Lemma EOF_leaves_garbage :
  let q := @link_queue large_rt large_rt_ok [] in
  let src i := if (i =? 0)%nat then Reading demo_block 3 None else Reading demo_block 0 (Some EOF) in
  match (_ ← @zc_Next st q src 3 3; r1 ← @zc_Next st q src 3 1; r2 ← @zc_Len st q; mret (r1, r2))
          (ZcReader (new_state large_rt 0) 0) with
  | Ret (r, _) => r = (ZErr ZEOF, ZOk (RLen 4096))
  | _ => False
  end.
Proof. vm_compute. reflexivity. Qed.
End pitfalls.
