(* ===== verification/ConnInput.v ===== *)
(** * The input side of a connection

    Models the methods of src/connection_impl.go that read, with inputs,
    inputAck and the sizes they adapt (src/connection_reactor.go), over the
    link buffer and the vectored read.  Who waits for whom is the subject of
    WaitRead.v; here a method that waits lets the poller read until there are
    enough bytes or the connection is closed.  The kernel answers the i-th read
    into [n] bytes of memory with [kernel i n]. *)

From stdpp Require Import strings.
From S2P Require Import Prelude GoMem Errors SysExec LinkNode LinkBuffer ByteQueue LinkHeap LinkInv LinkRead LinkScan LinkBook LinkBytes LinkSpec LinkTheorems.

Open Scope Z_scope.

#[local] Arguments link_rexec : simpl never.

Definition defaultLinkBufferSize : Z := pagesize.

Record conn := Conn {
  inputBuffer : st;
  bookSize : Z;
  maxSize : Z;
  closed : bool;         (* isCloseBy(poller) *)
  reads : nat;           (* the reads of the poller so far *)
  arrived : list byte;   (* all that they delivered *)
}.

Definition set_inputBuffer x c := Conn x (bookSize c) (maxSize c) (closed c) (reads c) (arrived c).
Definition set_bookSize x c := Conn (inputBuffer c) x (maxSize c) (closed c) (reads c) (arrived c).
Definition set_maxSize x c := Conn (inputBuffer c) (bookSize c) x (closed c) (reads c) (arrived c).
Definition set_closed c := Conn (inputBuffer c) (bookSize c) (maxSize c) true (reads c) (arrived c).
Definition set_arrived bs c := Conn (inputBuffer c) (bookSize c) (maxSize c) (closed c) (S (reads c)) (arrived c ++ bs).

(** What a method returns: the result of the buffer, or an error number. *)
Inductive cres := COk (r : rres) | CErr (e : Z).

(** Errors of the connection and of the buffer. *)
Inductive cerr := CNo (e : Z) | CBuf (e : lberr).

Definition res_bytes (r : rres) : list byte * option cerr :=
  match r with RBytes bs e => (bs, CBuf <$> e) | RLen _ => ([], None) end.

Section conn.
Context {rt : Runtime}.
Context (kernel : nat → Z → answer (list byte)).

Definition inb {A} (m : M st A) : M conn A := zoom inputBuffer set_inputBuffer m.

(** [c.inputs(vs)] *)
Definition inputs : M conn (list slice) :=
  c ← get;
  p ← inb (book (bookSize c) (maxSize c));
  mret [p].

(** The sizes for the next read; [length]: what bookAck returns. *)
Definition grow_bookSize (n : Z) (c : conn) : conn :=
  if (n =? bookSize c) && (bookSize c <? mallocMax) then set_bookSize (Z.shiftl (bookSize c) 1) c else c.
Definition grow_maxSize (length : Z) (c : conn) : conn :=
  let c := if maxSize c <? length then set_maxSize length c else c in
  if mallocMax <? maxSize c then set_maxSize mallocMax c else c.

(** [c.inputAck(n)], up to the decision on whom to wake: the length for which
    onRequest and triggerRead are called, if at all. *)
Definition inputAck (n : Z) : M conn (option Z) :=
  if n <=? 0 then _ ← inb (bookAck 0); mret None
  else
    _ ← modify (grow_bookSize n);
    r ← inb (bookAck n);
    _ ← modify (grow_maxSize r.1);
    mret (Some r.1).

(** The poller reads: Inputs, ioread, InputAck; a failed read closes. *)
Definition poll_read : M conn (option error) :=
  vs ← inputs;
  c ← get;
  let ans := kernel (reads c) (foldr Z.add 0 (slen <$> vs)) in
  r ← some (ioread (reads c) ans vs barriercap (hmem (hp (inputBuffer c))));
  _ ← inb (modify (λ s, St (lb s) (set_mem (io_mem r) (hp s))));
  _ ← modify (set_arrived (match ans with Answer data => data | Fails _ => [] end));
  _ ← inputAck (io_n r);
  _ ← (match io_err r with None => mret tt | Some _ => modify set_closed end);
  mret (io_err r).

Definition conn_Len : M conn Z := c ← get; mret (Len (lb (inputBuffer c))).

(** The loop of waitRead; the trigger it blocks on comes from the poller. *)
Fixpoint waitRead (fuel : nat) (n : Z) : M conn (option Z) :=
  match fuel with
  | O => out_of_fuel
  | S fuel =>
      l ← conn_Len;
      if l <? n then
        c ← get;
        if closed c then mret (Some ErrEOF)
        else _ ← poll_read; waitRead fuel n
      else mret None
  end.

Section methods.
Context (fuel : nat).

Definition wait_then (n : Z) (o : rop) : M conn cres :=
  e ← waitRead fuel n;
  match e with
  | Some e => mret (CErr e)
  | None => r ← inb (link_rexec o); mret (COk r)
  end.

Definition conn_Next (n : Z) := wait_then n (ONext n).
Definition conn_Peek (n : Z) := wait_then n (OPeek n).
Definition conn_Skip (n : Z) := wait_then n (OSkip n).
Definition conn_ReadString (n : Z) := wait_then n (OReadString n).
Definition conn_ReadBinary (n : Z) := wait_then n (OReadBinary n).
Definition conn_ReadByte := wait_then 1 OReadByte.

(** [c.Release()]; [got]: whether the operator can be locked. *)
Definition conn_Release (got : bool) : M conn rres :=
  l ← conn_Len;
  _ ← (if (l =? 0) && got then
         m ← inb calcMaxSize;
         let m := if mallocMax <? m then mallocMax else m in
         _ ← modify (λ c, if maxSize c <? m then set_maxSize m c else c);
         l ← conn_Len;
         c ← get;
         if l =? 0 then inb (resetTail (maxSize c)) else mret tt
       else mret tt);
  inb (link_rexec ORelease).

Fixpoint Until_loop (rounds : nat) (delim : byte) (n : Z) : M conn (list byte * option cerr) :=
  match rounds with
  | O => out_of_fuel
  | S rounds =>
      e ← waitRead fuel (n + 1);
      match e with
      | Some e =>
          l ← conn_Len;
          r ← inb (link_rexec (ONext l));
          mret ((res_bytes r).1, Some (CNo e))
      | None =>
          l ← conn_Len;
          i ← inb (indexByte delim n);
          if i <? 0 then Until_loop rounds delim l
          else
            r ← conn_Next (i + 1);
            mret (match r with COk r => res_bytes r | CErr e => ([], Some (CNo e)) end)
      end
  end.

Definition conn_Until (delim : byte) : M conn (list byte * option cerr) := Until_loop fuel delim 0.

(** [c.Read(p)] with [len(p) = l]: the bytes that are copied, and the error. *)
Definition conn_Read (l : Z) : M conn (list byte * option cerr) :=
  if l =? 0 then mret ([], None)
  else
    e ← waitRead fuel 1;
    match e with
    | Some e => mret ([], Some (CNo e))
    | None =>
        has ← conn_Len;
        let l := if has <? l then has else l in
        r ← inb (link_rexec (ONext l));
        match (res_bytes r).2 with
        | Some e => mret ((res_bytes r).1, Some e)
        | None => e ← inb (link_rexec ORelease); mret ((res_bytes r).1, (res_bytes e).2)
        end
    end.
End methods.

(** The part of init that concerns the input. *)
Definition conn_init (h : heap) : outcome conn :=
  match NewLinkBuffer defaultLinkBufferSize h with
  | Ret (b, h) => Ret (Conn (St b h) defaultLinkBufferSize defaultLinkBufferSize false 0 [])
  | _ => Panic
  end.

(** ** What they do *)

Context {rtok : RuntimeOk rt}.

(** read(2): at most as many bytes as there is room for. *)
Context (kernel_ok : ∀ i n data, 0 <= n → kernel i n = Answer data → zlen data <= n).
Context (others : list loc).

(** bookSize is a page times a power of 2, and both sizes stay below mallocMax. *)
Definition sizes_ok (c : conn) : Prop :=
  (∃ k, 0 <= k <= 10 ∧ bookSize c = pagesize * 2 ^ k) ∧ 0 < maxSize c <= mallocMax.

Definition conn_ok (c : conn) (R : list byte) : Prop :=
  held KInput others (inputBuffer c) R [] ∧ sizes_ok c.

Lemma app_nil_eq (l k : list byte) : l = l ++ k → k = [].
Proof. intros E. apply (f_equal length) in E. rewrite length_app in E. apply length_zero_iff_nil. lia. Qed.

Lemma sizes_pos c : sizes_ok c → 0 < bookSize c <= mallocMax.
Proof.
  intros [(k&Hk&->) _]. unfold mallocMax, pagesize, block8k, block1k.
  pose proof (Z.pow_pos_nonneg 2 k ltac:(lia) ltac:(lia)).
  assert (2 ^ k <= 1024) by (change 1024 with (2 ^ 10); apply Z.pow_le_mono_r; lia). lia.
Qed.

Lemma grow_bookSize_ok n c : sizes_ok c → sizes_ok (grow_bookSize n c).
Proof.
  intros Hs. pose proof (sizes_pos _ Hs). destruct Hs as [(k&Hk&E) Hm]. unfold grow_bookSize.
  destruct (_ && _) eqn:Eb; [|by split; [exists k|]].
  apply andb_true_iff in Eb as [_ Hlt%Z.ltb_lt]. split; [|done]. simpl.
  assert (k ≠ 10) by (intros ->; rewrite E in Hlt; by vm_compute in Hlt).
  exists (k + 1). split; [lia|]. rewrite Z.shiftl_mul_pow2, E, Z.pow_add_r by lia. lia.
Qed.

Lemma grow_maxSize_ok l c : sizes_ok c → sizes_ok (grow_maxSize l c).
Proof.
  intros [Hb Hm]. unfold grow_maxSize.
  assert (0 < mallocMax) by (vm_compute; done).
  destruct (Z.ltb_spec (maxSize c) l); simpl; case_match; split; simpl in *; try done; lia.
Qed.

Lemma grow_maxSize_buf l c :
  inputBuffer (grow_maxSize l c) = inputBuffer c ∧ closed (grow_maxSize l c) = closed c ∧
  reads (grow_maxSize l c) = reads c ∧ arrived (grow_maxSize l c) = arrived c.
Proof. unfold grow_maxSize. destruct (maxSize c <? l), (mallocMax <? _); done. Qed.

Lemma grow_bookSize_buf l c :
  inputBuffer (grow_bookSize l c) = inputBuffer c ∧ closed (grow_bookSize l c) = closed c ∧
  reads (grow_bookSize l c) = reads c ∧ arrived (grow_bookSize l c) = arrived c.
Proof. unfold grow_bookSize. destruct (_ && _); done. Qed.

(** inputAck of what the kernel stored to the booked memory. *)
Lemma wp_inputAck n bs c (Q : option Z → conn → Prop) R :
  sizes_ok c → (0 < n ∧ n = zlen bs ∨ n <= 0 ∧ bs = []) →
  wp (bookAck (zlen bs)) (λ _ s, held KInput others s (R ++ bs) []) (inputBuffer c) →
  (∀ l c', conn_ok c' (R ++ bs) → closed c' = closed c → reads c' = reads c → arrived c' = arrived c → Q l c') →
  wp (inputAck n) Q c.
Proof.
  intros Hs Hn Hw HQ. unfold inputAck. destruct (Z.leb_spec n 0).
  - destruct Hn as [|[_ ->]]; [lia|]. wsteps. apply wp_zoom. eapply wp_mono; [exact Hw|].
    intros r s Hh. wsteps. by apply HQ.
  - destruct Hn as [[_ ->]|]; [|lia]. wsteps. apply wp_zoom.
    pose proof (grow_bookSize_buf (zlen bs) c) as (E1&E2&E3&E4). rewrite E1.
    eapply wp_mono; [exact Hw|]. intros r s Hh. wsteps.
    match goal with |- Q _ (grow_maxSize ?l ?c) => pose proof (grow_maxSize_buf l c) as (F1&F2&F3&F4) end.
    apply HQ; [|simpl in *; congruence..]. split; [by rewrite F1|].
    apply grow_maxSize_ok. by pose proof (grow_bookSize_ok (zlen bs) c Hs).
Qed.

(** One read of the poller. *)
Record polled (R : list byte) (c : conn) (new : list byte) (c' : conn) : Prop := Polled {
  po_ok : conn_ok c' (R ++ new);
  po_arrived : arrived c' = arrived c ++ new;
  po_reads : reads c' = S (reads c);
  po_answer : ∃ n, 0 < n ∧
    match kernel (reads c) n with
    | Answer [] => new = [] ∧ closed c' = true
    | Answer data => new = data ∧ closed c' = closed c
    | Fails e => new = [] ∧ closed c' = if (e =? EINTR) || (e =? EAGAIN) then closed c else true
    end;
}.

Lemma wp_poll_read c R (Q : option error → conn → Prop) :
  conn_ok c R → (∀ e new c', polled R c new c' → Q e c') → wp (poll_read) Q c.
Proof.
  intros [[regs Hb] Hs] HQ. pose proof (sizes_pos _ Hs) as Hbs. destruct Hs as [Hsb Hsm].
  unfold poll_read, inputs. wsteps. apply wp_zoom.
  eapply wp_mono; [apply (book_cycle others regs); [exact Hb|lia..]|]. intros p s1 (Hp0&Hp&Hnil&Hack).
  wsteps. simpl. rewrite Z.add_0_r. set (ans := kernel (reads c) (slen p)).
  assert (mallocMax < MaxInt32) by (vm_compute; done).
  eapply wp_some; [apply ioread_one; [lia|lia|vm_compute; done|intros ? E; eapply kernel_ok; [lia|exact E]]|].
  wsteps. apply wp_zoom. wsteps. simpl.
  set (bs := match ans with Answer data => data | Fails _ => [] end).
  match goal with |- context [inputAck (io_n ?x)] => set (r := x) end.
  assert (zlen bs <= slen p) as Hle.
  { subst bs. destruct ans as [data|] eqn:E; [eapply kernel_ok; [lia|exact E]|rewrite zlen_nil; lia]. }
  assert (io_mem r = scopy (hmem (hp s1)) p bs) as Em.
  { subst r bs. destruct ans as [[|]|e]; [done..|]. by destruct (_ || _). }
  assert (0 < io_n r ∧ io_n r = zlen bs ∨ io_n r <= 0 ∧ bs = []) as En.
  { subst r bs. destruct ans as [[|x data]|e]; simpl; [by right| |by destruct (_ || _); right].
    left. split; [unfold zlen; simpl; lia|done]. }
  eapply (wp_inputAck _ bs _ _ R); [by split|exact En| |].
  { simpl. rewrite Em. eapply wp_mono; [by apply Hack|]. intros ? s2 (_&Hb2&_). by exists regs. }
  intros l c1 Hok Hcl Hrd Har. wsteps. simpl in *.
  assert (∀ c2, inputBuffer c2 = inputBuffer c1 → bookSize c2 = bookSize c1 → maxSize c2 = maxSize c1 →
    reads c2 = reads c1 → arrived c2 = arrived c1 →
    closed c2 = match io_err r with None => closed c | Some _ => true end → polled R c bs c2) as Hfin.
  { intros c2 E1 E2 E3 E4 E5 E6. constructor; [|congruence..|].
    - destruct Hok as [Hh [Hk Hm]]. split; [by rewrite E1|]. split; [by rewrite E2|by rewrite E3].
    - exists (slen p). split; [done|]. fold ans. rewrite E6. subst bs r.
      destruct ans as [[|]|e]; [done..|]. by destruct (_ || _). }
  destruct (io_err r) eqn:Ee; wsteps; eapply HQ, Hfin; done.
Qed.

(** The peer closes at last: every read from the [K]-th on reports the end. *)
Context (K : nat) (kernel_ends : ∀ i n, (K ≤ i)%nat → kernel i n = Answer []).

Lemma wp_conn_Len c R (Q : Z → conn → Prop) : conn_ok c R → Q (zlen R) c → wp conn_Len Q c.
Proof.
  intros [[regs Hb] _] HQ. unfold conn_Len. wsteps. unfold Len. by rewrite (buffer_len _ _ _ _ _ _ _ _ Hb).
Qed.

(** The last of the first [j] reads was needed: without what it delivered there
    were fewer than [n] bytes. *)
Definition last_needed (n : Z) (R new : list byte) (j : nat) : Prop :=
  ∃ pre last m, new = pre ++ last ∧ zlen (R ++ pre) < n ∧ kernel (pred j) m = Answer last.

(** What waitRead leaves: it returns at once when there are enough bytes. *)
Record waited (n : Z) (R : list byte) (c : conn) (r : option Z) (new : list byte) (c' : conn) : Prop := Waited {
  wa_ok : conn_ok c' (R ++ new);
  wa_arrived : arrived c' = arrived c ++ new;
  wa_res : match r with
           | None => n <= zlen (R ++ new)
           | Some e => e = ErrEOF ∧ closed c' = true ∧ zlen (R ++ new) < n
           end;
  wa_enough : n <= zlen R → r = None ∧ c' = c;
  wa_reads : zlen R < n → r = None → (reads c < reads c' ≤ K)%nat;
  wa_soon : zlen R < n → r = None → last_needed n R new (reads c');
}.

Lemma waited_now n R c : conn_ok c R → n <= zlen R → waited n R c None [] c.
Proof. intros. constructor; rewrite ?app_nil_r; try done; lia. Qed.

Lemma waited_closed n R c : conn_ok c R → zlen R < n → closed c = true → waited n R c (Some ErrEOF) [] c.
Proof. intros. constructor; rewrite ?app_nil_r; try done; lia. Qed.

Lemma waited_more n R c new c1 r new' c' :
  polled R c new c1 → zlen R < n → (reads c < K)%nat → waited n (R ++ new) c1 r new' c' →
  waited n R c r (new ++ new') c'.
Proof.
  intros [Hok1 Har Hrd Hans] Hlt HK [Hok' Har' Hres Hen Hrd' Hso]. rewrite <- app_assoc in *.
  constructor; rewrite ?app_assoc in *; try done; [congruence|lia|intros _ ->..].
  - destruct (Z.le_gt_cases n (zlen (R ++ new))) as [E|E].
    + destruct (Hen E) as [_ ->]. lia.
    + specialize (Hrd' ltac:(lia) eq_refl). lia.
  - destruct (Z.le_gt_cases n (zlen (R ++ new))) as [E|E].
    + destruct (Hen E) as [_ ->]. rewrite Har in Har'. apply app_nil_eq in Har' as ->.
      destruct Hans as (m&_&Hans). rewrite app_nil_r. exists [], new, m. rewrite app_nil_r, Hrd. simpl.
      split_and!; [done..|]. destruct (kernel (reads c) m) as [[|]|] eqn:Ek; destruct Hans as [-> _]; try done.
      rewrite app_nil_r in E. lia.
    + destruct (Hso ltac:(lia) eq_refl) as (pre&last&m&->&Hp&Hm). exists (new ++ pre), last, m.
      by rewrite !app_assoc.
Qed.

Lemma wp_waitRead fuel : ∀ n c R (Q : option Z → conn → Prop),
  conn_ok c R → (K - reads c + 2 ≤ fuel)%nat →
  (∀ r new c', waited n R c r new c' → Q r c') → wp (waitRead fuel n) Q c.
Proof.
  induction fuel as [|fuel IH]; intros n c R Q Hok Hf HQ; [lia|]. simpl. wsteps.
  eapply wp_conn_Len; [exact Hok|].
  destruct (Z.ltb_spec (zlen R) n).
  2:{ wsteps. by eapply HQ, waited_now. }
  wsteps. destruct (closed c) eqn:Ec.
  { wsteps. by eapply HQ, waited_closed. }
  wsteps. eapply wp_poll_read; [exact Hok|]. intros e new c1 Hpo. pose proof Hpo as [Hok1 Har Hrd Hans].
  destruct (decide (reads c < K)%nat) as [Hlt|Hge].
  { eapply IH; [exact Hok1|lia|]. intros r new' c' Hw. by eapply HQ, waited_more. }
  destruct Hans as (m&_&Hans). rewrite kernel_ends in Hans by lia. destruct Hans as [-> Hc1].
  rewrite app_nil_r in *. destruct fuel as [|fuel]; [lia|]. clear IH. simpl. wsteps.
  eapply wp_conn_Len; [exact Hok1|]. destruct (Z.ltb_spec (zlen R) n); [|lia]. wsteps. rewrite Hc1. wsteps.
  apply (HQ _ []). constructor; rewrite ?app_nil_r; try done; lia.
Qed.

Lemma wp_inb_rexec o c R (Q : rres → conn → Prop) :
  conn_ok c R → (∀ c', conn_ok c' (rspec o R).2 → arrived c' = arrived c → closed c' = closed c →
    reads c' = reads c → Q (rspec o R).1 c') →
  wp (inb (link_rexec o)) Q c.
Proof.
  intros [Hh Hs] HQ. apply wp_zoom. eapply wp_mono; [by apply (link_rexec_held KInput)|].
  intros r s [-> Hh']. by apply HQ.
Qed.

(** The methods that wait for the bytes they need and then read them from the
    buffer. *)
Inductive wait_op :=
| WNext (n : Z) | WPeek (n : Z) | WSkip (n : Z) | WReadString (n : Z) | WReadBinary (n : Z) | WReadByte.

Definition conn_rexec (fuel : nat) (o : wait_op) : M conn cres :=
  match o with
  | WNext n => conn_Next fuel n
  | WPeek n => conn_Peek fuel n
  | WSkip n => conn_Skip fuel n
  | WReadString n => conn_ReadString fuel n
  | WReadBinary n => conn_ReadBinary fuel n
  | WReadByte => conn_ReadByte fuel
  end.

(** The method of the buffer that it calls, and the bytes that it waits for. *)
Definition rop_of (o : wait_op) : rop :=
  match o with
  | WNext n => ONext n
  | WPeek n => OPeek n
  | WSkip n => OSkip n
  | WReadString n => OReadString n
  | WReadBinary n => OReadBinary n
  | WReadByte => OReadByte
  end.

Definition needs (o : wait_op) : Z :=
  match o with
  | WNext n | WPeek n | WSkip n | WReadString n | WReadBinary n => n
  | WReadByte => 1
  end.

(** What a reading method returns, after the bytes [new] have arrived.  With
    enough bytes in the buffer it does not read; otherwise it returns after the
    first read with which there are enough. *)
Definition read_result (o : wait_op) (R new : list byte) (c : conn) (r : cres) (c' : conn) : Prop :=
  arrived c' = arrived c ++ new ∧
  (needs o <= zlen R → new = [] ∧ reads c' = reads c ∧ ∃ x, r = COk x) ∧
  match r with
  | COk x =>
      needs o <= zlen (R ++ new) ∧ (zlen R < needs o → last_needed (needs o) R new (reads c')) ∧
      x = (rspec (rop_of o) (R ++ new)).1 ∧ conn_ok c' (rspec (rop_of o) (R ++ new)).2
  | CErr e => e = ErrEOF ∧ closed c' = true ∧ zlen (R ++ new) < needs o ∧ conn_ok c' (R ++ new)
  end.

Lemma wp_wait_then fuel o c R (Q : cres → conn → Prop) :
  conn_ok c R → (K + 2 ≤ fuel)%nat → (∀ r new c', read_result o R new c r c' → Q r c') →
  wp (wait_then fuel (needs o) (rop_of o)) Q c.
Proof.
  intros Hok Hf HQ. unfold wait_then. wsteps. eapply wp_waitRead; [exact Hok|lia|].
  intros r new c1 [Hok1 Har Hres Hen _ Hso]. destruct r as [e|]; wsteps.
  - destruct Hres as (->&?&?). eapply (HQ _ new). split_and!; try done. intros E. by destruct (Hen E).
  - eapply wp_inb_rexec; [exact Hok1|]. intros c2 Hok2 Har2 _ Hrd2. wsteps. eapply (HQ _ new).
    split; [congruence|]. split.
    + intros E. destruct (Hen E) as [_ ->]. apply app_nil_eq in Har as ->. split_and!; [done..|by eexists].
    + split_and!; [done| |done..]. intros E. rewrite Hrd2. by apply Hso.
Qed.

(** C3: on a connection without a read time-out that the user does not close,
    and whose peer closes at last, a call of Next, Peek, Skip, ReadString,
    ReadBinary or ReadByte that needs [n] bytes returns what a buffer with
    everything that the kernel delivered so far returns, as soon as that is
    enough: with [n] bytes in the buffer it returns without a read, and
    otherwise after the first read with which there are [n] bytes.  It returns
    ErrEOF only when the peer closed with fewer than [n] bytes delivered; then
    they stay readable.  Nothing is lost or read twice on the way from the
    kernel to the caller, whatever the kernel delivers per read, and the sizes
    of the reads stay within their bounds. *)
Theorem conn_read_spec fuel o c R :
  conn_ok c R → (K + 2 ≤ fuel)%nat →
  wp (conn_rexec fuel o) (λ r c', ∃ new, read_result o R new c r c') c.
Proof.
  intros Hok Hf.
  assert (wp (wait_then fuel (needs o) (rop_of o)) (λ r c', ∃ new, read_result o R new c r c') c) as Hw.
  { eapply wp_wait_then; [exact Hok|done|]. intros r new c' Hr. by exists new. }
  by destruct o.
Qed.

(** Where the delimiter is not among the first [n] bytes. *)
Lemma index_from_seen delim n R : IndexByte (ztake n R) delim < 0 → 0 <= n <= zlen R →
  index_from delim n R = IndexByte R delim.
Proof.
  intros Hi Hn. unfold index_from.
  assert (IndexByte R delim = IndexByte (ztake n R ++ zdrop n R) delim) as -> by (by rewrite ztake_zdrop).
  rewrite IndexByte_app. cbv zeta.
  rewrite zlen_ztake, Z.min_l, Z.max_r by lia. by rewrite (proj2 (Z.leb_gt _ (IndexByte (ztake n R) _))).
Qed.

Definition until_result (delim : byte) (R new : list byte) (c : conn) (r : list byte * option cerr) (c' : conn) : Prop :=
  arrived c' = arrived c ++ new ∧
  let i := IndexByte (R ++ new) delim in
  match r.2 with
  | None => 0 <= i ∧ r.1 = ztake (i + 1) (R ++ new) ∧ conn_ok c' (zdrop (i + 1) (R ++ new))
  | Some e => e = CNo ErrEOF ∧ closed c' = true ∧ i < 0 ∧ r.1 = R ++ new ∧ conn_ok c' []
  end.

Lemma wp_Until_loop fuel delim rounds : ∀ n c R (Q : list byte * option cerr → conn → Prop),
  conn_ok c R → (K + 2 ≤ fuel)%nat → 0 <= n <= zlen R → IndexByte (ztake n R) delim < 0 →
  (K - reads c + (if (zlen R =? n)%Z then 1 else 2) ≤ rounds)%nat →
  (∀ r new c', until_result delim R new c r c' → Q r c') →
  wp (Until_loop fuel rounds delim n) Q c.
Proof.
  induction rounds as [|rounds IH]; intros n c R Q Hok Hf Hn Hi Hr HQ; [destruct (zlen R =? n); lia|].
  simpl. wsteps. eapply wp_waitRead; [exact Hok|lia|]. intros e new c1 [Hok1 Har1 Hres Hen Hrd _].
  destruct e as [e|].
  - destruct Hres as (->&Hcl&Hlt). wsteps. eapply wp_conn_Len; [exact Hok1|].
    assert (new = []) as ->.
    { apply zlen_0_nil. rewrite zlen_app in Hlt. pose proof (zlen_nonneg new). lia. }
    rewrite app_nil_r in *. rewrite ztake_ge in Hi by lia. wsteps. eapply wp_inb_rexec; [exact Hok1|].
    intros c2 Hok2 Har2 Hcl2 _. wsteps. apply (HQ _ []). unfold until_result. rewrite !app_nil_r in *.
    split; [congruence|]. simpl in *. pose proof (zlen_nonneg R). unfold take_spec in *.
    destruct (Z.leb_spec (zlen R) 0).
    + assert (R = []) as -> by (apply zlen_0_nil; lia). split_and!; try done; congruence.
    + rewrite (proj2 (Z.ltb_ge _ _)), zdrop_ge in Hok2 |- * by lia. simpl.
      split_and!; try done; [congruence|by rewrite ztake_ge].
  - wsteps. eapply wp_conn_Len; [exact Hok1|]. pose proof Hok1 as [[regs Hb] _]. wsteps. apply wp_zoom.
    set (R1 := R ++ new) in *.
    assert (n <= zlen R1) by (unfold R1; rewrite zlen_app; pose proof (zlen_nonneg new); lia).
    assert (IndexByte (ztake n R1) delim < 0) by (unfold R1; by rewrite ztake_app_le by lia).
    destruct (inputBuffer c1) as [b1 h1] eqn:E1. eapply wp_indexByte; [exact Hb|lia|].
    assert (set_inputBuffer (St b1 h1) c1 = c1) as -> by (rewrite <- E1; by destruct c1).
    rewrite index_from_seen by (done || lia). destruct (Z.ltb_spec (IndexByte R1 delim) 0).
    + eapply IH; [exact Hok1|done|pose proof (zlen_nonneg R1); lia|by rewrite ztake_ge| |].
      * rewrite Z.eqb_refl. destruct (Z.le_gt_cases (n + 1) (zlen R)) as [E|E].
        -- destruct (Hen E) as [_ ->]. rewrite (proj2 (Z.eqb_neq _ _)) in Hr by lia. lia.
        -- specialize (Hrd ltac:(lia) eq_refl). destruct (zlen R =? n); lia.
      * intros r new' c' [Ha Hm]. apply (HQ r (new ++ new')). unfold until_result, R1 in *.
        rewrite !app_assoc in *. split; [congruence|done].
    + wsteps. unfold conn_Next. destruct (IndexByte_range R1 delim) as [Hrg|]; [|lia].
      eapply (wp_wait_then fuel (WNext (IndexByte R1 delim + 1))); [exact Hok1|done|].
      intros r new' c2 (Ha&Hnow&Hm). simpl in Hnow. destruct Hnow as (->&_&x&->); [lia|].
      rewrite !app_nil_r in *. destruct Hm as (_&_&->&Hok2). wsteps. apply (HQ _ new). simpl in *.
      unfold take_spec in *. rewrite (proj2 (Z.leb_gt _ _)), (proj2 (Z.ltb_ge _ _)) in Hok2 |- * by lia.
      simpl. split; [congruence|]. fold R1. done.
Qed.

(** Until returns the bytes up to and including the first [delim] among all
    that arrives, and leaves the rest; when the peer closes before, it returns
    everything that is left with ErrEOF.  It terminates as soon as either is
    the case, and it never looks at a byte of the stream twice in vain. *)
Theorem conn_Until_spec fuel delim c R :
  conn_ok c R → (K + 2 ≤ fuel)%nat →
  wp (conn_Until fuel delim) (λ r c', ∃ new, until_result delim R new c r c') c.
Proof.
  intros Hok Hf. pose proof (zlen_nonneg R).
  eapply wp_Until_loop; [exact Hok|done|lia|by rewrite ztake_nonpos|destruct (_ =? _); lia|].
  intros r new c' Hr. by exists new.
Qed.

(** Read returns at least one byte, and at most as many as there is room for,
    once something has arrived, or ErrEOF; what it does not copy stays. *)
Theorem conn_Read_spec fuel l c R :
  conn_ok c R → (K + 2 ≤ fuel)%nat → 0 < l →
  wp (conn_Read fuel l) (λ r c', ∃ new, arrived c' = arrived c ++ new ∧
    match r.2 with
    | None => r.1 = ztake l (R ++ new) ∧ r.1 ≠ [] ∧ conn_ok c' (zdrop l (R ++ new))
    | Some e => e = CNo ErrEOF ∧ closed c' = true ∧ r.1 = [] ∧ R ++ new = [] ∧ conn_ok c' []
    end) c.
Proof.
  intros Hok Hf Hl. unfold conn_Read. rewrite (proj2 (Z.eqb_neq _ _)) by lia. wsteps.
  eapply wp_waitRead; [exact Hok|lia|]. intros e new c1 [Hok1 Har1 Hres _ _ _]. destruct e as [e|].
  - destruct Hres as (->&Hcl&Hlt). assert (R ++ new = []) as E.
    { apply zlen_0_nil. pose proof (zlen_nonneg (R ++ new)). lia. }
    wsteps. exists new. simpl. rewrite E in *. done.
  - wsteps. eapply wp_conn_Len; [exact Hok1|]. set (R1 := R ++ new) in *.
    set (k := if zlen R1 <? l then zlen R1 else l).
    assert (k = Z.min l (zlen R1)) as Ek by (unfold k; destruct (Z.ltb_spec (zlen R1) l); lia).
    assert (ztake k R1 = ztake l R1 ∧ zdrop k R1 = zdrop l R1) as [Et Ed].
    { rewrite Ek. destruct (Z.le_gt_cases l (zlen R1)); [by rewrite Z.min_l by lia|].
      rewrite Z.min_r, !ztake_ge, !zdrop_ge by lia. done. }
    wsteps. eapply wp_inb_rexec; [exact Hok1|]. simpl. unfold take_spec.
    rewrite (proj2 (Z.leb_gt _ _)), (proj2 (Z.ltb_ge _ _)), Et, Ed by lia. simpl.
    intros c2 Hok2 Har2 _ _. wsteps. eapply wp_inb_rexec; [exact Hok2|]. simpl. intros c3 Hok3 Har3 _ _. wsteps.
    exists new. split; [congruence|]. simpl. split_and!; [done| |done].
    intros E. assert (zlen (ztake l R1) = 0) as E0 by (by rewrite E). rewrite zlen_ztake in E0. lia.
Qed.

(** Release gives up no readable byte, whether or not it gets the operator's
    lock, and keeps the sizes in their bounds, so that the next read of the
    poller finds memory. *)
Theorem conn_Release_spec got c R :
  conn_ok c R → wp (conn_Release got) (λ r c', r = RBytes [] None ∧ conn_ok c' R ∧ arrived c' = arrived c) c.
Proof.
  intros Hok. unfold conn_Release. wsteps. eapply wp_conn_Len; [exact Hok|].
  assert (∀ c1, conn_ok c1 R → arrived c1 = arrived c → wp (inb (link_rexec ORelease))
    (λ r c', r = RBytes [] None ∧ conn_ok c' R ∧ arrived c' = arrived c) c1) as Hend.
  { intros c1 Hok1 Har1. eapply wp_inb_rexec; [exact Hok1|]. intros c2 Hok2 Har2 _ _. simpl in *.
    split_and!; [done..|congruence]. }
  destruct ((zlen R =? 0) && got); [|wsteps; by apply Hend].
  pose proof Hok as [[regs Hb] [Hsb Hsm]]. destruct Hb as (sh&Ha&Hk&Hc).
  assert (ro sh = false) as Hro by (unfold ro; by rewrite Hk).
  wsteps. apply wp_zoom. destruct (inputBuffer c) as [b h] eqn:E1. cbn [lb hp] in *.
  eapply wp_calcMaxSize; [apply Ha|done|]. intros n.
  assert (set_inputBuffer (St b h) c = c) as -> by (rewrite <- E1; by destruct c).
  set (m := if mallocMax <? n then mallocMax else n).
  assert (m <= mallocMax) as Hm by (unfold m; destruct (Z.ltb_spec mallocMax n); lia).
  wsteps. set (c1 := if maxSize c <? m then set_maxSize m c else c).
  assert (inputBuffer c1 = St b h ∧ arrived c1 = arrived c ∧ sizes_ok c1) as (Eb1&Ea1&Hs1).
  { unfold c1. destruct (Z.ltb_spec (maxSize c) m); (split; [done|]; split; [done|]; split; [done|simpl; lia]). }
  eapply (wp_conn_Len c1); [by split; [rewrite Eb1; exists regs, sh|]|]. wsteps.
  destruct (zlen R =? 0); [|wsteps; apply Hend; [|done]; split; [rewrite Eb1; by exists regs, sh|done]].
  wsteps. apply wp_zoom. rewrite Eb1. rewrite app_nil_r in Ha. eapply wp_resetTail; [exact Ha|done..|].
  intros b2 h2 sh2 Ha2 _ Hk2 Hc2 _. apply Hend; [|done]. split; [|done]. exists regs, sh2. simpl.
  rewrite app_nil_r. split_and!; [done| |done]. rewrite Hk in Hk2. by destruct Hk2.
Qed.
End conn.

(** ** Example: two reads, and the end *)

Definition demo_input (i : nat) (n : Z) : answer (list byte) :=
  Answer (if (i <? 2)%nat then ztake n (bytes [1; 2; 10; 3]%nat) else []).

Lemma demo_input_ok i n data : 0 <= n → demo_input i n = Answer data → zlen data <= n.
Proof.
  intros Hn. unfold demo_input. intros [= <-]. destruct (_ <? _)%nat; [rewrite zlen_ztake|rewrite zlen_nil]; lia.
Qed.

Lemma demo_input_ends i n : (2 ≤ i)%nat → demo_input i n = Answer [].
Proof. intros Hi. unfold demo_input. by rewrite (proj2 (Nat.ltb_ge _ _)). Qed.

Definition demo_conn : conn := Conn (new_state demo_rt defaultLinkBufferSize) defaultLinkBufferSize defaultLinkBufferSize false 0 [].

Lemma demo_conn_ok : conn_ok [] demo_conn [].
Proof.
  split.
  - exists []. by apply (new_state_buffer (rtok := demo_rt_ok)).
  - split; [exists 0; split; [lia|done]|vm_compute; done].
Qed.

Lemma conn_read_spec_witness :
  wp (conn_rexec (rt := demo_rt) demo_input 4 (WNext 5))
    (λ r c', ∃ new, read_result demo_input [] (WNext 5) [] new demo_conn r c') demo_conn.
Proof.
  apply (conn_read_spec (rt := demo_rt) demo_input (rtok := demo_rt_ok) demo_input_ok [] 2 demo_input_ends
    4 (WNext 5) demo_conn []); [exact demo_conn_ok|lia].
Defined.

Lemma conn_Until_spec_witness :
  wp (conn_Until (rt := demo_rt) demo_input 4 Byte.x0a)
    (λ r c', ∃ new, until_result [] Byte.x0a [] new demo_conn r c') demo_conn.
Proof.
  apply (conn_Until_spec (rt := demo_rt) demo_input (rtok := demo_rt_ok) demo_input_ok [] 2 demo_input_ends
    4 Byte.x0a demo_conn []); [exact demo_conn_ok|lia].
Defined.

Lemma conn_Read_spec_witness :
  wp (conn_Read (rt := demo_rt) demo_input 4 3)
    (λ r c', ∃ new, arrived c' = [] ++ new ∧
      match r.2 with
      | None => r.1 = ztake 3 ([] ++ new) ∧ r.1 ≠ [] ∧ conn_ok [] c' (zdrop 3 ([] ++ new))
      | Some e => e = CNo ErrEOF ∧ closed c' = true ∧ r.1 = [] ∧ [] ++ new = [] ∧ conn_ok [] c' []
      end) demo_conn.
Proof.
  apply (conn_Read_spec (rt := demo_rt) demo_input (rtok := demo_rt_ok) demo_input_ok [] 2 demo_input_ends
    4 3 demo_conn []); [exact demo_conn_ok|lia..].
Defined.

Lemma conn_Release_spec_witness :
  wp (conn_Release (rt := demo_rt) true)
    (λ r c', r = RBytes [] None ∧ conn_ok [] c' [] ∧ arrived c' = []) demo_conn.
Proof.
  apply (conn_Release_spec (rt := demo_rt) (rtok := demo_rt_ok) [] true demo_conn []). exact demo_conn_ok.
Defined.

(** What the model computes: Next(5) waits for the second read, and the line
    ends at the first newline. *)
Lemma demo_run_result :
  match (r1 ← conn_Next (rt := demo_rt) demo_input 4 5; r2 ← conn_Until (rt := demo_rt) demo_input 4 Byte.x0a;
         r3 ← conn_Until (rt := demo_rt) demo_input 4 Byte.x0a; mret (r1, r2, r3)) demo_conn with
  | Ret (r, _) => r = (COk (RBytes (bytes [1; 2; 10; 3; 1]%nat) None), (bytes [2; 10]%nat, None),
                       (bytes [3]%nat, Some (CNo ErrEOF)))
  | _ => False
  end.
Proof. vm_compute. reflexivity. Qed.
