(* ===== verification/Output.v ===== *)
(** * The output side of a connection or a fifo

    flush, waitFlush, outputs and outputAck of src/connection_impl.go and
    src/connection_reactor.go and of src/fifo_write_impl.go and
    src/fifo_reactor.go, over the link buffer and the vectored send.  The code
    of the two differs in the system call, in how write events are monitored
    and in the error of a hang-up, which are the parameters of this file.  Who
    waits for whom is the subject of WaitFlush.v; here waitFlush lets the
    poller write until it gets a trigger.  The kernel answers the i-th send of
    the bytes [p] with [kernel i p]. *)

From stdpp Require Import strings.
From S2P Require Import Prelude GoMem Errors SysExec LinkNode LinkBuffer ByteQueue LinkHeap LinkInv LinkRead LinkBytes LinkSpec LinkTheorems.

Open Scope Z_scope.

#[local] Arguments link_rexec : simpl never.
#[local] Arguments link_wexec : simpl never.

Record wconn (X : Type) := WConn {
  outputBuffer : st;
  writeTrigger : option (option Z);  (* a channel of capacity 1: an error or nil *)
  flushing : Z;                      (* keychain[flushing] *)
  reg : X;                           (* whether write events are monitored *)
  wclosed : bool;                    (* the poller has closed *)
  sends : nat;                       (* the sends so far *)
  sent : list byte;                  (* all that the kernel took *)
}.
Arguments WConn {X}.
Arguments outputBuffer {X}.
Arguments writeTrigger {X}.
Arguments flushing {X}.
Arguments reg {X}.
Arguments wclosed {X}.
Arguments sends {X}.
Arguments sent {X}.

Section updates.
Context {X : Type}.

Definition set_outputBuffer x (c : wconn X) : wconn X := WConn x (writeTrigger c) (flushing c) (reg c) (wclosed c) (sends c) (sent c).
Definition set_trigger x (c : wconn X) : wconn X := WConn (outputBuffer c) x (flushing c) (reg c) (wclosed c) (sends c) (sent c).
Definition set_flushing x (c : wconn X) : wconn X := WConn (outputBuffer c) (writeTrigger c) x (reg c) (wclosed c) (sends c) (sent c).
Definition set_reg x (c : wconn X) : wconn X := WConn (outputBuffer c) (writeTrigger c) (flushing c) x (wclosed c) (sends c) (sent c).
Definition set_wclosed (c : wconn X) : wconn X := WConn (outputBuffer c) (writeTrigger c) (flushing c) (reg c) true (sends c) (sent c).
Definition set_sent bs (c : wconn X) : wconn X := WConn (outputBuffer c) (writeTrigger c) (flushing c) (reg c) (wclosed c) (S (sends c)) (sent c ++ bs).
End updates.

(** The errors of Flush and Write.  [WHangs] is not an error of the code: it
    stands for a call that blocks for ever. *)
Inductive werr := WNo (e : Z) | WSys (e : option error) | WBuf (e : lberr) | WHangs.

(** What differs: the call that flush makes, Control for monitoring write
    events and for ending it, whether the poller has an event and what a send
    that took all it was offered ([true]), or not, does to that, and the error
    of a hang-up. *)
Record output_ops (X : Type) := OutputOps {
  oo_send : answer Z → list slice → Z → mem → option out;
  oo_register : X → option Z * X;
  oo_unregister : X → X;
  oo_event : X → bool;
  oo_after : bool → X → X;
  oo_hup : Z;
}.
Arguments oo_send {X}.
Arguments oo_register {X}.
Arguments oo_unregister {X}.
Arguments oo_event {X}.
Arguments oo_after {X}.
Arguments oo_hup {X}.

(** The call hands over the bytes of the slices, in order; a flush starts in
    an [idle] state, in which monitoring can begin or fails, [waits] while the
    poller writes, and is [quiet] when all is written.  A send that did not take
    all it was offered is followed by an event. *)
Record output_laws {X} (ops : output_ops X) (idle waits quiet : X → Prop) : Prop := OutputLaws {
  ol_send ans bs room m :
    Forall (valid m) bs → entries bs <= room → contents m bs ≠ [] →
    oo_send ops ans bs room m = Some (sent_out ans (ztake MaxInt32 (contents m bs)) bs);
  ol_register x : idle x →
    match oo_register ops x with
    | (None, y) => waits y ∧ oo_event ops y = true
    | (Some _, y) => y = x
    end;
  ol_after b x : waits x → waits (oo_after ops b x);
  ol_event x : waits x → oo_event ops x = true → oo_event ops (oo_after ops false x) = true;
  ol_unregister x : waits x → quiet (oo_unregister ops x);
}.

Section output.
Context {rt : Runtime} {X : Type} (ops : output_ops X).
Context (kernel : nat → list byte → answer Z) (stat : answer Z).
Abbreviation wconn := (wconn X).

Definition outb {A} (m : M st A) : M wconn A := zoom outputBuffer set_outputBuffer m.

Definition out_IsEmpty : M wconn bool := c ← get; mret (IsEmpty (lb (outputBuffer c))).

(** What the kernel is offered: the bytes the iovecs cover. *)
Definition offered (vs : list slice) (c : wconn) : list byte :=
  match iovecs vs barriercap with Some ivs => gather (hmem (hp (outputBuffer c))) ivs | None => [] end.

(** The send of flush, and the bytes it hands over. *)
Definition send_now (vs : list slice) : M wconn out :=
  c ← get;
  r ← some (oo_send ops (kernel (sends c) (offered vs c)) vs barriercap (hmem (hp (outputBuffer c))));
  _ ← modify (set_sent (out_sent r));
  mret r.

Definition triggerWrite (err : option Z) (c : wconn) : wconn :=
  match writeTrigger c with None => set_trigger (Some err) c | Some _ => c end.

(** rw2r and detachWrite *)
Definition ended (c : wconn) : wconn := set_reg (oo_unregister ops (reg c)) c.

Definition all_written : M wconn unit :=
  _ ← modify ended;
  modify (triggerWrite None).

(** outputs *)
Definition outputs : M wconn (list slice) :=
  e ← out_IsEmpty;
  if e : bool then _ ← all_written; mret []
  else outb (GetBytes barriercap).

(** outputAck *)
Definition outputAck (n : Z) : M wconn unit :=
  _ ← (if 0 <? n then _ ← outb (link_rexec (OSkip n)); _ ← outb (link_rexec ORelease); mret tt else mret tt);
  e ← out_IsEmpty;
  if e : bool then all_written else mret tt.

(** The poller writes: Outputs, iosend, OutputAck; a failed send closes the
    connection, which wakes the one that waits. *)
Definition poll_write : M wconn unit :=
  vs ← outputs;
  if zlen vs =? 0 then mret tt
  else
    c ← get;
    r ← some (iosend stat (λ _, kernel (sends c) (offered vs c)) vs barriercap false (hmem (hp (outputBuffer c))));
    _ ← modify (set_sent (out_sent r));
    _ ← modify (λ c', set_reg (oo_after ops (out_n r =? zlen (offered vs c)) (reg c')) c');
    _ ← outputAck (out_n r);
    match out_err r with
    | None => mret tt
    | Some _ => _ ← modify set_wclosed; modify (triggerWrite (Some (oo_hup ops)))
    end.

(** [<-writeTrigger] *)
Fixpoint waitFlush (fuel : nat) : M wconn (option werr) :=
  match fuel with
  | O => out_of_fuel
  | S fuel =>
      c ← get;
      match writeTrigger c with
      | Some e => _ ← modify (set_trigger None); mret (WNo <$> e)
      | None =>
          if oo_event ops (reg c) then _ ← poll_write; waitFlush fuel
          else mret (Some WHangs)
      end
  end.

(** Control, then waitFlush *)
Definition register_wait (fuel : nat) : M wconn (option werr) :=
  c ← get;
  let '(err, x) := oo_register ops (reg c) in
  _ ← modify (set_reg x);
  match err with
  | Some e => mret (Some (WNo e))
  | None => waitFlush fuel
  end.

(** flush *)
Definition flush_all (fuel : nat) : M wconn (option werr) :=
  e ← out_IsEmpty;
  if e : bool then mret None
  else
    vs ← outb (GetBytes barriercap);
    r ← send_now vs;
    if bool_decide (out_err r ≠ None) && negb (errno_is (out_err r) EAGAIN) then mret (Some (WSys (out_err r)))
    else
      err ← (if 0 <? out_n r then
               s ← outb (link_rexec (OSkip (out_n r)));
               _ ← outb (link_rexec ORelease);
               mret (match s with RBytes _ e => e | RLen _ => None end)
             else mret None);
      match err with
      | Some e => mret (Some (WBuf e))
      | None =>
          e ← out_IsEmpty;
          if e : bool then mret None
          else register_wait fuel
      end.

(** The lock that Flush and Write hold; [err]: the error of the result. *)
Definition with_flushing {A} (err : A → option werr) (busy : A) (m : M wconn A) : M wconn A :=
  c ← get;
  if flushing c =? 0 then
    _ ← modify (set_flushing 1);
    a ← m;
    _ ← (match err a with Some WHangs => mret tt | _ => modify (set_flushing 0) end);
    mret a
  else mret busy.

(** The bodies of Flush and Write. *)
Definition Flush_body (fuel : nat) : M wconn (option werr) :=
  _ ← outb (link_wexec OFlush);
  flush_all fuel.

Definition Write_body (fuel : nat) (p : list byte) : M wconn (Z * option werr) :=
  r ← outb (link_wexec (OMalloc p));
  _ ← outb (link_wexec OFlush);
  err ← flush_all fuel;
  mret (r.1, err).

(** ** What they do *)

Context {rtok : RuntimeOk rt} (idle waits quiet : X → Prop) (laws : output_laws ops idle waits quiet).
Context (others : list loc).

(** sendmsg(2): it takes a part of what it is offered. *)
Context (kernel_ok : ∀ i p n, kernel i p = Answer n → 0 <= n <= zlen p).

(** From the [K]-th send on the kernel takes something or fails. *)
Context (K : nat).
Context (kernel_goes : ∀ i p, (K ≤ i)%nat → p ≠ [] →
  match kernel i p with Answer n => 0 < n | Fails e => e ≠ EAGAIN end).

Definition kernel_fails : Prop := ∃ i p e, kernel i p = Fails e ∧ e ≠ EAGAIN.

(** The poller gets no event after a send that took all it was offered. *)
Definition misses_event : Prop :=
  (∃ x, oo_event ops x = true ∧ oo_event ops (oo_after ops true x) = false) ∧
  ∃ i p, p ≠ [] ∧ kernel i p = Answer (zlen p).

(** What a result says when [rest] was not taken; [x]: the state of monitoring
    before the flush. *)
Definition result_ok (x : X) (r : option werr) (rest : list byte) : Prop :=
  match r with
  | None => rest = []
  | Some e => rest ≠ [] ∧
      match e with
      | WHangs => misses_event
      | WSys _ => kernel_fails
      | WNo e => e = oo_hup ops ∧ kernel_fails ∨ (oo_register ops x).1 = Some e
      | WBuf _ => False
      end
  end.

Definition out_ok (c : wconn) (R P : list byte) : Prop := held KPlain others (outputBuffer c) R P.

Lemma wp_out_IsEmpty c R P (Q : bool → wconn → Prop) :
  out_ok c R P → Q (zlen R =? 0) c → wp out_IsEmpty Q c.
Proof.
  intros [regs Hb] HQ. unfold out_IsEmpty. wsteps. unfold IsEmpty, Len.
  by rewrite (buffer_len _ _ _ _ _ _ _ _ Hb).
Qed.

Lemma set_outputBuffer_id (c : wconn) : set_outputBuffer (outputBuffer c) c = c.
Proof. by destruct c. Qed.

(** GetBytes leaves the connection alone. *)
Lemma wp_out_GetBytes c R P (Q : list slice → wconn → Prop) :
  out_ok c R P → (∀ vs, windows_of (hmem (hp (outputBuffer c))) R barriercap vs → Q vs c) →
  wp (outb (GetBytes barriercap)) Q c.
Proof.
  intros [regs (sh&Ha&Hk&Hc)] HQ. apply wp_zoom. destruct (outputBuffer c) as [b h] eqn:E. cbn [lb hp] in *.
  eapply wp_GetBytes; [exact Ha|done|unfold ro; by rewrite Hk|vm_compute; done|].
  intros vs Hvs. rewrite <- E, set_outputBuffer_id. by apply HQ.
Qed.

Lemma wp_outb_rexec o c R P (Q : rres → wconn → Prop) :
  out_ok c R P → (∀ s, held KPlain others s (rspec o R).2 P → Q (rspec o R).1 (set_outputBuffer s c)) →
  wp (outb (link_rexec o)) Q c.
Proof.
  intros Hh HQ. apply wp_zoom. eapply wp_mono; [by apply (link_rexec_held KPlain)|].
  intros r s [-> Hh']. by apply HQ.
Qed.

Lemma wp_outb_wexec o c R P r R' P' (Q : wres → wconn → Prop) :
  out_ok c R P → wspec o R P = Some (r, R', P') →
  (∀ s, held KPlain others s R' P' → Q r (set_outputBuffer s c)) → wp (outb (link_wexec o)) Q c.
Proof.
  intros Hh Hs HQ. apply wp_zoom. eapply wp_mono; [by eapply link_wexec_ok|].
  intros r' s [-> Hh']. by apply HQ.
Qed.

(** What the windows offer is the front of what is readable. *)
Lemma offered_front c R vs : let m := hmem (hp (outputBuffer c)) in
  windows_of m R barriercap vs → R ≠ [] →
  Forall (valid m) vs ∧ entries vs <= barriercap ∧ contents m vs ≠ [] ∧
  offered vs c = ztake MaxInt32 (contents m vs) ∧
  offered vs c ≠ [] ∧ zlen (offered vs c) <= zlen R ∧
  (∀ n, n <= zlen (offered vs c) → ztake n (offered vs c) = ztake n R).
Proof.
  intros m [Hl Hv _ (rest&HR&_) Hs] Hne. specialize (Hs Hne).
  assert (0 < zlen (contents m vs)) as Hpos.
  { pose proof (zlen_nonneg (contents m vs)). destruct (Z.eq_dec (zlen (contents m vs)) 0) as [E|]; [|lia].
    by apply zlen_0_nil in E. }
  assert (entries vs <= barriercap) as He.
  { unfold entries. etrans; [|exact Hl]. unfold zlen. apply inj_le, length_filter. }
  assert (offered vs c = ztake MaxInt32 (contents m vs)) as Eo.
  { unfold offered. by destruct (offered_iovecs m vs barriercap Hv He Hs) as (ivs&->&Hg&_). }
  rewrite Eo. split_and!; try done.
  - intros E. assert (zlen (ztake MaxInt32 (contents m vs)) = 0) as E0 by (by rewrite E).
    rewrite zlen_ztake in E0. unfold MaxInt32 in E0. lia.
  - rewrite zlen_ztake, HR, zlen_app. pose proof (zlen_nonneg rest). unfold MaxInt32. lia.
  - intros n Hn. rewrite zlen_ztake in Hn. rewrite ztake_ztake, HR. unfold MaxInt32 in *.
    rewrite (ztake_app_le n) by lia. f_equal. lia.
Qed.

(** Skip and Release of what was taken. *)
Lemma wp_skip_release n c R (Q : option lberr → wconn → Prop) :
  out_ok c R [] → 0 < n → n <= zlen R →
  (∀ s, held KPlain others s (zdrop n R) [] → Q None (set_outputBuffer s c)) →
  wp (s ← outb (link_rexec (OSkip n)); _ ← outb (link_rexec ORelease);
      mret (match s with RBytes _ e => e | RLen _ => None end)) Q c.
Proof.
  intros Hok Hn0 Hn HQ. wsteps. eapply wp_outb_rexec; [exact Hok|]. simpl. unfold take_spec.
  rewrite (proj2 (Z.leb_gt _ _)), (proj2 (Z.ltb_ge _ _)) by lia. simpl. intros s1 Hs1. wsteps.
  eapply (wp_outb_rexec ORelease); [exact Hs1|]. simpl. intros s2 Hs2. wsteps. by apply HQ.
Qed.

Lemma wp_outputAck n c R (Q : unit → wconn → Prop) :
  out_ok c R [] → n <= zlen R →
  (∀ s, held KPlain others s (zdrop n R) [] →
     Q tt (if zlen (zdrop n R) =? 0 then triggerWrite None (ended (set_outputBuffer s c))
           else set_outputBuffer s c)) →
  wp (outputAck n) Q c.
Proof.
  intros Hok Hn HQ. unfold outputAck.
  assert (∀ s, held KPlain others s (zdrop n R) [] →
    wp (e ← out_IsEmpty; if e : bool then all_written else mret tt) Q (set_outputBuffer s c)) as Hend.
  { intros s Hs. wsteps. eapply (wp_out_IsEmpty _ (zdrop n R) []); [exact Hs|].
    specialize (HQ s Hs). destruct (_ =? 0); unfold all_written; wsteps; exact HQ. }
  wsteps. destruct (Z.ltb_spec 0 n).
  - wsteps. eapply wp_outb_rexec; [exact Hok|]. simpl. unfold take_spec.
    rewrite (proj2 (Z.leb_gt _ _)), (proj2 (Z.ltb_ge _ _)) by lia. simpl. intros s1 Hs1. wsteps.
    eapply (wp_outb_rexec ORelease); [exact Hs1|]. simpl. intros s2 Hs2. wsteps. by apply Hend.
  - wsteps. rewrite <- (set_outputBuffer_id c). apply Hend. by rewrite zdrop_nonpos by lia.
Qed.

(** One write of the poller, while somebody waits. *)
Record wrote (R : list byte) (c : wconn) (k : Z) (c' : wconn) : Prop := Wrote {
  wt_k : 0 <= k <= zlen R;
  wt_ok : out_ok c' (zdrop k R) [];
  wt_sent : sent c' = sent c ++ ztake k R;
  wt_sends : sends c' = S (sends c);
  wt_trigger : writeTrigger c' = None ∧ zdrop k R ≠ [] ∧ ((K ≤ sends c)%nat → 0 < k) ∧
      waits (reg c') ∧ (oo_event ops (reg c') = true ∨ misses_event) ∨
    writeTrigger c' = Some None ∧ zdrop k R = [] ∧ quiet (reg c') ∨
    writeTrigger c' = Some (Some (oo_hup ops)) ∧ wclosed c' = true ∧ zdrop k R ≠ [] ∧ kernel_fails;
}.

Lemma wrote_part R c n s full :
  writeTrigger c = None → waits (reg c) → oo_event ops (reg c) = true →
  0 <= n <= zlen R → ((K ≤ sends c)%nat → 0 < n) → held KPlain others s (zdrop n R) [] →
  (full = true → ∃ i p, p ≠ [] ∧ kernel i p = Answer (zlen p)) →
  let c1 := set_outputBuffer s (set_reg (oo_after ops full (reg c)) (set_sent (ztake n R) c)) in
  wrote R c n (if zlen (zdrop n R) =? 0 then triggerWrite None (ended c1) else c1).
Proof.
  intros Ht Hw He Hn HK Hs Hfull c1. pose proof (ol_after _ _ _ _ laws full _ Hw) as Hw1.
  destruct (Z.eqb_spec (zlen (zdrop n R)) 0) as [E|E].
  - apply zlen_0_nil in E. unfold triggerWrite. simpl. rewrite Ht. constructor; try done.
    right; left. split_and!; try done. exact (ol_unregister _ _ _ _ laws _ Hw1).
  - constructor; try done. left. split_and!; try done; [by intros E'; rewrite E' in E|]. simpl.
    destruct full; [|left; exact (ol_event _ _ _ _ laws _ Hw He)].
    destruct (oo_event ops (oo_after ops true (reg c))) eqn:Ea; [by left|right].
    split; [by exists (reg c)|by apply Hfull].
Qed.

(** What the poller needs when it writes. *)
Definition can_write (R : list byte) (c : wconn) : Prop :=
  out_ok c R [] ∧ R ≠ [] ∧ writeTrigger c = None ∧ waits (reg c) ∧ oo_event ops (reg c) = true.

Lemma wp_poll_write c R (Q : unit → wconn → Prop) :
  can_write R c → (∀ k c', wrote R c k c' → Q tt c') → wp poll_write Q c.
Proof.
  intros (Hok&Hne&Ht&Hw&Hev) HQ. pose proof (zlen_nonneg R). unfold poll_write, outputs. wsteps.
  eapply wp_out_IsEmpty; [exact Hok|].
  destruct (Z.eqb_spec (zlen R) 0) as [E|E]; [by apply zlen_0_nil in E|].
  eapply wp_out_GetBytes; [exact Hok|]. intros vs Hvs.
  destruct (offered_front _ _ _ Hvs Hne) as (Hv&He&Hc&Eo&Hoff&Hle&Htk).
  destruct (Z.eqb_spec (zlen vs) 0) as [E0|_]; [by apply zlen_0_nil in E0 as ->|].
  wsteps. eapply wp_some; [by apply iosend_offered|]. rewrite <- Eo.
  destruct (kernel (sends c) (offered vs c)) as [n|e] eqn:Ek; simpl.
  - destruct (kernel_ok _ _ _ Ek) as [Hn0 Hn]. wsteps. rewrite Htk by done.
    eapply wp_outputAck; [exact Hok|lia|]. intros s Hs. wsteps.
    apply (HQ n), (wrote_part R c n s (n =? zlen (offered vs c))); try done; [lia| |].
    + intros HK. pose proof (kernel_goes _ _ HK Hoff) as Hg. by rewrite Ek in Hg.
    + intros ->%Z.eqb_eq. by eexists _, _.
  - destruct (Z.eqb_spec e EAGAIN) as [->|Hea]; simpl.
    + wsteps. eapply (wp_outputAck 0); [exact Hok|lia|]. intros s Hs. wsteps.
      assert (set_sent [] c = set_sent (ztake 0 R) c) as -> by (by rewrite ztake_nonpos by lia).
      apply (HQ 0), (wrote_part R c 0 s (0 =? zlen (offered vs c))); try done; [|].
      * intros HK. pose proof (kernel_goes _ _ HK Hoff) as Hg. by rewrite Ek in Hg.
      * intros E0%Z.eqb_eq. symmetry in E0. by apply zlen_0_nil in E0.
    + wsteps. eapply (wp_outputAck (-1)); [exact Hok|lia|]. intros s Hs. rewrite zdrop_nonpos in * by lia.
      rewrite (proj2 (Z.eqb_neq _ _)) by done. wsteps.
      apply (HQ 0). unfold triggerWrite. simpl. rewrite Ht.
      constructor; simpl; rewrite ?zdrop_nonpos, ?ztake_nonpos by lia; try done.
      right; right. split_and!; try done. by eexists _, _, _.
Qed.

(** What flushing [R] leaves. *)
Definition flushed (x : X) (R : list byte) (c : wconn) (r : option werr) (c' : wconn) : Prop :=
  ∃ k, 0 <= k <= zlen R ∧ out_ok c' (zdrop k R) [] ∧ sent c' = sent c ++ ztake k R ∧
    writeTrigger c' = None ∧ result_ok x r (zdrop k R) ∧ (r = None → idle (reg c') ∨ quiet (reg c')).

Lemma flushed_more x n R c c1 r c' :
  0 <= n <= zlen R → sent c1 = sent c ++ ztake n R → flushed x (zdrop n R) c1 r c' → flushed x R c r c'.
Proof.
  intros Hn Hs (k&Hk&Hok&Hsk&Ht&Hr&Hreg). rewrite zlen_zdrop in Hk. rewrite zdrop_zdrop in Hok, Hr by lia.
  exists (n + k). split_and!; try done; [lia..|].
  by rewrite Hsk, Hs, <- app_assoc, ztake_add by lia.
Qed.

Lemma flushed_here x R c r :
  out_ok c R [] → writeTrigger c = None → result_ok x r R → (r = None → idle (reg c)) → flushed x R c r c.
Proof.
  intros Hok Ht Hr Hreg. pose proof (zlen_nonneg R). exists 0. rewrite ztake_nonpos, zdrop_nonpos, app_nil_r by lia.
  split_and!; try done; [lia..|]. auto.
Qed.

Lemma wp_waitFlush x fuel : ∀ c R,
  out_ok c R [] → R ≠ [] → writeTrigger c = None → waits (reg c) → oo_event ops (reg c) = true ∨ misses_event →
  (K - sends c + length R + 1 ≤ fuel)%nat → wp (waitFlush fuel) (flushed x R c) c.
Proof.
  induction fuel as [|fuel IH]; intros c R Hok Hne Ht Hw Hev Hf; [lia|]. simpl. wsteps. rewrite Ht.
  destruct (oo_event ops (reg c)) eqn:He.
  2:{ destruct Hev as [?|Hm]; [done|]. wsteps. by apply flushed_here. }
  wsteps. eapply wp_poll_write; [by split_and!|]. intros k c1 [Hk Hok1 Hs1 Hn1 Htr].
  assert (0 < length R)%nat by (destruct R; simpl; [done|lia]).
  destruct Htr as [(Ht1&Hne1&HK&Hw1&Hev1)|Htr].
  - eapply wp_mono; [eapply (IH c1 (zdrop k R)); try done|].
    + unfold zdrop. rewrite length_drop. destruct (decide (K ≤ sends c)%nat) as [E|E]; [specialize (HK E)|]; lia.
    + intros r c'. by apply flushed_more.
  - destruct fuel as [|fuel]; [lia|]. clear IH. simpl. wsteps.
    destruct Htr as [(->&HR&Hq)|(->&_&HR&Hfail)]; wsteps; exists k; split_and!; try lia; try done; auto.
    split; [done|by left].
Qed.

(** The end of flush: everything is written, or the poller writes the rest. *)
Lemma wp_send_rest fuel c R :
  out_ok c R [] → writeTrigger c = None → idle (reg c) → (K - sends c + length R + 1 ≤ fuel)%nat →
  wp (e ← out_IsEmpty; if e : bool then mret None else register_wait fuel) (flushed (reg c) R c) c.
Proof.
  intros Hok Ht Hreg Hf. wsteps. eapply wp_out_IsEmpty; [exact Hok|]. destruct (Z.eqb_spec (zlen R) 0) as [E|E].
  { apply zlen_0_nil in E. wsteps. by apply flushed_here. }
  unfold register_wait. wsteps. pose proof (ol_register _ _ _ _ laws _ Hreg) as Hy.
  assert (R ≠ []) as Hne by (by intros ->).
  destruct (oo_register ops (reg c)) as [[e|] y] eqn:Er; wsteps.
  - subst y. assert (set_reg (reg c) c = c) as -> by (by destruct c). apply flushed_here; try done.
    split; [done|right]. by rewrite Er.
  - destruct Hy as [Hw Hev]. apply (wp_waitFlush _ fuel (set_reg y c)); try done. by left.
Qed.

Lemma wp_flush_all fuel c R :
  out_ok c R [] → writeTrigger c = None → idle (reg c) → (K + length R + 1 ≤ fuel)%nat →
  wp (flush_all fuel) (flushed (reg c) R c) c.
Proof.
  intros Hok Ht Hreg Hf. pose proof (zlen_nonneg R). unfold flush_all. wsteps. eapply wp_out_IsEmpty; [exact Hok|].
  destruct (Z.eqb_spec (zlen R) 0) as [E|E].
  { apply zlen_0_nil in E. wsteps. by apply flushed_here. }
  assert (R ≠ []) as Hne by (by intros ->). wsteps.
  eapply wp_out_GetBytes; [exact Hok|]. intros vs Hvs.
  destruct (offered_front _ _ _ Hvs Hne) as (Hv&He&Hc&Eo&Hoff&Hle&Htk).
  unfold send_now. wsteps. eapply wp_some; [by eapply ol_send|].
  rewrite <- Eo. wsteps.
  destruct (kernel (sends c) (offered vs c)) as [n|e] eqn:Ek; cbn [sent_out out_n out_err out_sent].
  - destruct (kernel_ok _ _ _ Ek) as [Hn0 Hn]. rewrite Htk by done.
    rewrite bool_decide_eq_false_2 by (intros Hx; by apply Hx). cbn [andb].
    assert (∀ s, held KPlain others s (zdrop n R) [] →
      let c1 := set_outputBuffer s (set_sent (ztake n R) c) in
      wp (e ← out_IsEmpty; if e : bool then mret None else register_wait fuel) (flushed (reg c) R c) c1) as Hend.
    { intros s Hs c1. eapply wp_mono; [apply (wp_send_rest fuel c1 (zdrop n R))|]; [exact Hs|done|done| |].
      - simpl. unfold zdrop. rewrite length_drop. lia.
      - intros r c'. apply flushed_more; [lia|done..]. }
    destruct (Z.ltb_spec 0 n).
    + apply wp_bind. eapply wp_skip_release; [exact Hok|lia..|]. exact Hend.
    + apply wp_bind, wp_ret. rewrite <- (set_outputBuffer_id (set_sent _ c)). apply Hend.
      by rewrite zdrop_nonpos by lia.
  - rewrite bool_decide_eq_true_2 by done. cbn [errno_is andb].
    assert (∀ r c', flushed (reg c) R (set_sent [] c) r c' → flushed (reg c) R c r c') as Hnone.
    { intros r c' Hfl. eapply (flushed_more _ 0 _ _ (set_sent [] c)); [lia|by rewrite ztake_nonpos by lia|].
      by rewrite zdrop_nonpos by lia. }
    destruct (Z.eqb_spec e EAGAIN) as [->|Hea]; cbn [negb].
    + apply wp_bind, wp_ret. eapply wp_mono; [apply (wp_send_rest fuel (set_sent [] c) R)|]; [exact Hok|done|done|simpl; lia|].
      exact Hnone.
    + wsteps. apply Hnone, flushed_here; [exact Hok|done| |done]. split; [done|]. by eexists _, _, _.
Qed.

(** What Flush and Write need of the state, and what they leave: the lock is
    free unless the call blocks for ever. *)
Definition can_flush (fuel : nat) (R : list byte) (c : wconn) : Prop :=
  flushing c = 0 ∧ writeTrigger c = None ∧ idle (reg c) ∧ (K + length R + 1 ≤ fuel)%nat.

Definition flush_post (R : list byte) (c : wconn) (r : option werr) (c' : wconn) : Prop :=
  flushed (reg c) R c r c' ∧ (r ≠ Some WHangs → flushing c' = 0).

Lemma wp_flushing {A} err (busy : A) (m : M wconn A) c Q :
  flushing c = 0 →
  wp m (λ a c', ∀ f, (err a ≠ Some WHangs → f = 0) → Q a (set_flushing f c')) (set_flushing 1 c) →
  wp (with_flushing err busy m) Q c.
Proof.
  intros Hf Hm. unfold with_flushing. wsteps. rewrite (proj2 (Z.eqb_eq _ _) Hf). wsteps.
  eapply wp_mono; [exact Hm|]. intros a c' HQ. wsteps.
  destruct (err a) as [[]|] eqn:E; wsteps; try by apply HQ.
  specialize (HQ (flushing c')). destruct c'. by apply HQ.
Qed.

Lemma flushed_unlock R c c1 r c' f : sent c1 = sent c → (r ≠ Some WHangs → f = 0) →
  flushed (reg c) R c1 r c' → flush_post R c r (set_flushing f c').
Proof. intros Hs Hf (k&?&?&Hk&?&?&?). split; [|done]. exists k. by rewrite <- Hs. Qed.

Lemma wp_output_Flush fuel busy c R P :
  out_ok c R P → can_flush fuel (R ++ P) c → wp (with_flushing id busy (Flush_body fuel)) (flush_post (R ++ P) c) c.
Proof.
  intros Hok (Hfl&Ht&Hreg&Hf). apply wp_flushing; [done|]. unfold Flush_body. wsteps.
  eapply wp_outb_wexec; [exact Hok|done|]. intros s Hs.
  eapply wp_mono; [by apply (wp_flush_all fuel (set_outputBuffer s (set_flushing 1 c)) (R ++ P))|].
  intros r c' Hp f Hr. by eapply flushed_unlock; [..|exact Hp].
Qed.

Lemma wp_Write fuel busy c R P p :
  out_ok c R P → can_flush fuel (R ++ P ++ p) c →
  wp (with_flushing snd busy (Write_body fuel p)) (λ r c', r.1 = zlen p ∧ flush_post (R ++ P ++ p) c r.2 c') c.
Proof.
  intros Hok (Hfl&Ht&Hreg&Hf). apply wp_flushing; [done|]. unfold Write_body. wsteps.
  eapply wp_outb_wexec; [exact Hok|done|]. intros s1 Hs1. wsteps.
  eapply wp_outb_wexec; [exact Hs1|done|]. intros s2 Hs2. wsteps.
  eapply wp_mono; [by apply (wp_flush_all fuel _ (R ++ P ++ p))|]. intros r c' Hp. wsteps. intros f Hr.
  split; [done|]. by eapply flushed_unlock; [..|exact Hp].
Qed.

Lemma with_flushing_busy {A} err (busy : A) (m : M wconn A) c :
  flushing c ≠ 0 → with_flushing err busy m c = Ret (busy, c).
Proof. intros Hf. unfold with_flushing, mbind, M_bind. simpl. by rewrite (proj2 (Z.eqb_neq _ _) Hf). Qed.
End output.
