(* ===== verification/ConnOutput.v ===== *)
(** * The output side of a connection

    Flush, Write and the writing methods of src/connection_impl.go: the output
    side of Output.v with sendmsg(2) and with a connection's write events,
    which are monitored by PollR2RW and PollRW2R and level-triggered. *)

From stdpp Require Import strings.
From S2P Require Import Prelude GoMem Errors SysExec LinkNode LinkBuffer ByteQueue LinkHeap LinkInv LinkSpec LinkTheorems Output.

Open Scope Z_scope.

#[local] Arguments link_rexec : simpl never.
#[local] Arguments link_wexec : simpl never.

(** [control]: the error of operator.Control(PollR2RW); the state says whether
    write events are monitored. *)
Definition conn_ops (control : option Z) : output_ops bool := {|
  oo_send ans bs room m := sendmsg (λ _, ans) bs room false m;
  oo_register x := match control with Some e => (Some e, x) | None => (None, true) end;
  oo_unregister _ := false;
  oo_event x := x;
  oo_after _ x := x;
  oo_hup := ErrConnClosed;
|}.

Section conn.
Context {rt : Runtime}.
Context (kernel : nat → list byte → answer Z) (stat : answer Z).

(** The handlers and flush, with the operations of a connection. *)
Definition conn_rw2r : M (wconn bool) unit := all_written (conn_ops None).
Definition conn_outputs : M (wconn bool) (list slice) := outputs (conn_ops None).
Definition conn_outputAck (n : Z) : M (wconn bool) unit := outputAck (conn_ops None) n.
Definition conn_waitFlush (fuel : nat) : M (wconn bool) (option werr) := waitFlush (conn_ops None) kernel stat fuel.
Definition conn_flush (fuel : nat) (control : option Z) : M (wconn bool) (option werr) :=
  flush_all (conn_ops control) kernel stat fuel.

(** [c.Flush()] *)
Definition conn_Flush (fuel : nat) (control : option Z) : M (wconn bool) (option werr) :=
  c ← get;
  if wclosed c then mret (Some (WNo ErrConnClosed))
  else with_flushing id (Some (WNo ErrConcurrentAccess)) (Flush_body (conn_ops control) kernel stat fuel).

(** [c.Write(p)] *)
Definition conn_Write (fuel : nat) (control : option Z) (p : list byte) : M (wconn bool) (Z * option werr) :=
  c ← get;
  if wclosed c then mret (0, Some (WNo ErrConnClosed))
  else with_flushing snd (0, Some (WNo ErrConcurrentAccess)) (Write_body (conn_ops control) kernel stat fuel p).

Definition conn_Malloc (bs : list byte) : M (wconn bool) wres := outb (link_wexec (OMalloc bs)).
Definition conn_MallocLen : M (wconn bool) wres := outb (link_wexec OMallocLen).
Definition conn_MallocAck (n : Z) : M (wconn bool) wres := outb (link_wexec (OMallocAck n)).
Definition conn_WriteString (bs : list byte) : M (wconn bool) wres := outb (link_wexec (OWriteString bs)).
Definition conn_WriteBinary (bs : list byte) : M (wconn bool) wres := outb (link_wexec (OWriteBinary bs)).
Definition conn_WriteByte (c : byte) : M (wconn bool) wres := outb (link_wexec (OWriteByte c)).

(** ** What they do *)

Definition unmonitored (x : bool) : Prop := x = false.

Lemma conn_laws control : output_laws (conn_ops control) (λ _, True) (λ x, x = true) unmonitored.
Proof. constructor; [intros; by apply sendmsg_offered|by destruct control|naive_solver..]. Qed.

Context {rtok : RuntimeOk rt}.
Context (others : list loc).

(** sendmsg(2): it takes a part of what it is offered. *)
Context (kernel_ok : ∀ i p n, kernel i p = Answer n → 0 <= n <= zlen p).

(** From the [K]-th send on the kernel takes something or fails. *)
Context (K : nat).
Context (kernel_goes : ∀ i p, (K ≤ i)%nat → p ≠ [] →
  match kernel i p with Answer n => 0 < n | Fails e => e ≠ EAGAIN end).

(** What Flush of [R] leaves: all is sent and the result is nil; or not, and the
    result is the error of a send, that of a hang-up after a send of the poller
    has failed, or that of Control. *)
Definition conn_flushed (control : option Z) (R : list byte) (c : wconn bool) (r : option werr) (c' : wconn bool) : Prop :=
  ∃ k, 0 <= k <= zlen R ∧ out_ok others c' (zdrop k R) [] ∧ sent c' = sent c ++ ztake k R ∧
    writeTrigger c' = None ∧ flushing c' = 0 ∧
    match r with
    | None => zdrop k R = []
    | Some e => zdrop k R ≠ [] ∧
        match e with
        | WSys _ => kernel_fails kernel
        | WNo e => e = ErrConnClosed ∧ kernel_fails kernel ∨ control = Some e
        | WBuf _ | WHangs => False
        end
    end.

(** Events are level-triggered, so that none is missed. *)
Lemma conn_no_hang control R c r c' :
  flush_post (conn_ops control) kernel (λ _, True) unmonitored others R c r c' → conn_flushed control R c r c'.
Proof.
  intros [(k&?&?&?&?&Hr&_) Hf]. exists k.
  assert (r ≠ Some WHangs) as Hh by (intros ->; destruct Hr as [_ [(x&Hx&Hx') _]]; simpl in *; congruence).
  split_and!; try done; try lia; [by apply Hf|]. destruct r as [[]|]; try done. destruct Hr as [? [?|Hr]]; [naive_solver|].
  split; [done|right]. simpl in Hr. by destruct control.
Qed.


(** Write(p) returns len(p) and sends p behind everything that was written
    before, as Flush does. *)
Theorem conn_Write_spec fuel control c R P p :
  out_ok others c R P → wclosed c = false → flushing c = 0 → writeTrigger c = None →
  (K + length (R ++ P ++ p) + 1 ≤ fuel)%nat →
  wp (conn_Write fuel control p) (λ r c', r.1 = zlen p ∧ conn_flushed control (R ++ P ++ p) c r.2 c') c.
Proof.
  intros Hok Hcl Hfl Ht Hf. unfold conn_Write. wsteps. rewrite Hcl.
  eapply wp_mono; [eapply (wp_Write _ kernel stat _ _ _ (conn_laws control) others kernel_ok K kernel_goes); [exact Hok|done]|].
  intros r c' [? ?]. split; [done|]. by apply conn_no_hang.
Qed.
End conn.

(** ** Example: the kernel takes at most three bytes, and every second send
    finds no room *)

Definition demo_output (i : nat) (p : list byte) : answer Z :=
  if Nat.odd i && (i <? 6)%nat then Fails EAGAIN else Answer (Z.min 3 (zlen p)).

Lemma demo_output_ok i p n : demo_output i p = Answer n → 0 <= n <= zlen p.
Proof. unfold demo_output. pose proof (zlen_nonneg p). destruct (_ && _); [done|]. intros [= <-]. lia. Qed.

Lemma demo_output_goes i p : (6 ≤ i)%nat → p ≠ [] →
  match demo_output i p with Answer n => 0 < n | Fails e => e ≠ EAGAIN end.
Proof.
  intros Hi Hp. unfold demo_output. rewrite (proj2 (Nat.ltb_ge _ _)), andb_false_r by done.
  destruct p; [done|]. rewrite zlen_cons. pose proof (zlen_nonneg p). lia.
Qed.

Definition demo_wconn {X} (x : X) : wconn X := WConn (demo demo_ops) None 0 x false 0 [].

Lemma demo_wconn_ok {X} (x : X) : out_ok [] (demo_wconn x) demo_R demo_P.
Proof. destruct demo_ops_buffer as [regs Hb]. by exists regs. Qed.


Lemma conn_Write_spec_witness :
  wp (conn_Write (rt := demo_rt) demo_output (Answer 0xC1ED) 30 None (bytes [7; 8]%nat))
    (λ r c', r.1 = 2 ∧ conn_flushed demo_output [] None (demo_R ++ demo_P ++ bytes [7; 8]%nat) (demo_wconn false) r.2 c')
    (demo_wconn false).
Proof.
  apply (conn_Write_spec (rt := demo_rt) demo_output (Answer 0xC1ED) (rtok := demo_rt_ok) [] demo_output_ok 6
    demo_output_goes 30 None (demo_wconn false) demo_R demo_P (bytes [7; 8]%nat));
    [exact (demo_wconn_ok false)|done..|vm_compute; lia].
Defined.

Lemma demo_flush_sends_all :
  match conn_Flush (rt := demo_rt) demo_output (Answer 0xC1ED) 30 None (demo_wconn false) with
  | Ret (r, c) => r = None ∧ sent c = demo_R ++ demo_P ∧ reg c = false
  | _ => False
  end.
Proof. vm_compute. done. Qed.
