(* ===== verification/FifoWrite.v ===== *)
(** * The writer of a fifo

    writeFifo of src/fifo_write_impl.go and its handlers in
    src/fifo_reactor.go: the output side of Output.v with writev(2).  The file
    descriptor is registered with the poller when a flush has to wait
    (PollWritable, edge-triggered) and removed when all is written
    (PollDetach, which FDOperator.Control of src/fd_operator.go passes on only
    once). *)

From stdpp Require Import strings.
From S2P Require Import Prelude GoMem Errors SysExec LinkNode LinkBuffer ByteQueue LinkHeap LinkInv LinkSpec LinkTheorems Output ConnOutput.

Open Scope Z_scope.

#[local] Arguments link_rexec : simpl never.
#[local] Arguments link_wexec : simpl never.

(** The poller's side of the file descriptor: whether epoll knows it, the
    counter FDOperator.detached, and whether an event is pending. *)
Record wreg := WReg { registered : bool; detached : Z; edge : bool }.

(** [operator.Control(PollWritable)]: EPOLL_CTL_ADD, which fails for a file
    descriptor that is registered, and otherwise reports the state at once. *)
Definition control_writable (x : wreg) : option Z * wreg :=
  if registered x then (Some EEXIST, x) else (None, WReg true (detached x) true).

(** [operator.Control(PollDetach)] *)
Definition control_detach (x : wreg) : wreg :=
  let n := detached x + 1 in
  if 1 <? n then WReg (registered x) n (edge x) else WReg false n false.

(** epoll(7): the next event of an edge-triggered file descriptor comes after
    a write that found too little room. *)
Definition fifo_ops : output_ops wreg := {|
  oo_send ans bs room m := writev ans bs room m;
  oo_register := control_writable;
  oo_unregister := control_detach;
  oo_event := edge;
  oo_after full x := WReg (registered x) (detached x) (negb full);
  oo_hup := ErrEOF;
|}.

Section fifo.
Context {rt : Runtime}.
Context (kernel : nat → list byte → answer Z) (stat : answer Z).

(** The handlers and flush, with the operations of a fifo. *)
Definition fifo_detachWrite : M (wconn wreg) unit := all_written fifo_ops.
Definition fifo_outputs : M (wconn wreg) (list slice) := outputs fifo_ops.
Definition fifo_outputAck (n : Z) : M (wconn wreg) unit := outputAck fifo_ops n.
Definition fifo_waitFlush (fuel : nat) : M (wconn wreg) (option werr) := waitFlush fifo_ops kernel stat fuel.
Definition fifo_flush (fuel : nat) : M (wconn wreg) (option werr) := flush_all fifo_ops kernel stat fuel.

(** [f.Flush()] *)
Definition fifo_Flush (fuel : nat) : M (wconn wreg) (option werr) :=
  with_flushing id (Some (WNo ErrConcurrentAccess)) (Flush_body fifo_ops kernel stat fuel).

(** [f.Write(b)] *)
Definition fifo_Write (fuel : nat) (p : list byte) : M (wconn wreg) (Z * option werr) :=
  with_flushing snd (0, Some (WNo ErrConcurrentAccess)) (Write_body fifo_ops kernel stat fuel p).

Definition fifo_Malloc (bs : list byte) : M (wconn wreg) wres := outb (link_wexec (OMalloc bs)).
Definition fifo_MallocLen : M (wconn wreg) wres := outb (link_wexec OMallocLen).
Definition fifo_MallocAck (n : Z) : M (wconn wreg) wres := outb (link_wexec (OMallocAck n)).
Definition fifo_WriteString (bs : list byte) : M (wconn wreg) wres := outb (link_wexec (OWriteString bs)).
Definition fifo_WriteBinary (bs : list byte) : M (wconn wreg) wres := outb (link_wexec (OWriteBinary bs)).
Definition fifo_WriteByte (c : byte) : M (wconn wreg) wres := outb (link_wexec (OWriteByte c)).

(** ** What they do *)

Lemma writev_offered ans bs room m :
  Forall (valid m) bs → entries bs <= room → contents m bs ≠ [] →
  writev ans bs room m = Some (sent_out ans (ztake MaxInt32 (contents m bs)) bs).
Proof.
  intros Hv Hr Hc. destruct (offered_iovecs m bs room Hv Hr Hc) as (ivs&Ei&Hg&Hn).
  unfold writev. rewrite Ei. cbn [mbind option_bind]. rewrite (proj2 (Z.eqb_neq _ _)) by done.
  rewrite Hg. by destruct ans.
Qed.

Definition waiting (n : Z) (x : wreg) : Prop := registered x = true ∧ (n = 0 → detached x = 0).

Lemma fifo_laws : output_laws fifo_ops (λ _, True) (waiting 1) (λ _, True).
Proof.
  constructor; simpl; [by intros; apply writev_offered| |done..].
  intros [[] d e] _; unfold control_writable; simpl; [done|]. by split.
Qed.


Context {rtok : RuntimeOk rt}.
Context (others : list loc).

(** writev(2): it takes a part of what it is offered. *)
Context (kernel_ok : ∀ i p n, kernel i p = Answer n → 0 <= n <= zlen p).

(** From the [K]-th send on the kernel takes something or fails. *)
Context (K : nat).
Context (kernel_goes : ∀ i p, (K ≤ i)%nat → p ≠ [] →
  match kernel i p with Answer n => 0 < n | Fails e => e ≠ EAGAIN end).

(** What Flush of [R] leaves: all is sent and the result is nil; or not, and the
    result is the error of a write, that of a hang-up after a write of the
    poller has failed, or EEXIST, because the descriptor was registered; or the
    call blocks for ever because the poller wrote all it was offered, which was
    not everything, so that no event follows. *)
Definition fifo_flushed (R : list byte) (c : wconn wreg) (r : option werr) (c' : wconn wreg) : Prop :=
  ∃ k, 0 <= k <= zlen R ∧ out_ok others c' (zdrop k R) [] ∧ sent c' = sent c ++ ztake k R ∧
    writeTrigger c' = None ∧
    match r with
    | None => zdrop k R = [] ∧ flushing c' = 0
    | Some e => zdrop k R ≠ [] ∧ (e ≠ WHangs → flushing c' = 0) ∧
        match e with
        | WHangs => ∃ i p, p ≠ [] ∧ kernel i p = Answer (zlen p)
        | WSys _ => kernel_fails kernel
        | WNo e => e = ErrEOF ∧ kernel_fails kernel ∨ e = EEXIST ∧ registered (reg c) = true
        | WBuf _ => False
        end
    end.

Lemma fifo_flushed_post idle quiet R c r c' :
  flush_post fifo_ops kernel idle quiet others R c r c' →
  fifo_flushed R c r c' ∧ (r = None → idle (reg c') ∨ quiet (reg c')).
Proof.
  intros [(k&?&?&?&?&Hr&Hq) Hf]. split; [|done]. exists k. split_and!; try done; try lia.
  destruct r as [e|]; [|split; [done|by apply Hf]]. destruct Hr as [? Hr]. split_and!; [done|intros ?; apply Hf; congruence|].
  destruct e as [e| | |]; try done; [|by destruct Hr].
  destruct Hr as [?|Hr]; [by left|right]. simpl in Hr. unfold control_writable in Hr. destruct (registered _); by simplify_eq/=.
Qed.


(** Write(b) returns len(b) and sends b behind everything that was written
    before, as Flush does. *)
Theorem fifo_Write_spec fuel c R P p :
  out_ok others c R P → flushing c = 0 → writeTrigger c = None →
  (K + length (R ++ P ++ p) + 1 ≤ fuel)%nat →
  wp (fifo_Write fuel p) (λ r c', r.1 = zlen p ∧ fifo_flushed (R ++ P ++ p) c r.2 c') c.
Proof.
  intros Hok Hfl Ht Hf. unfold fifo_Write.
  eapply wp_mono; [eapply (wp_Write _ kernel stat _ _ _ fifo_laws others kernel_ok K kernel_goes);
    [exact Hok|by split_and!]|].
  by intros r c' [? [? _]%fifo_flushed_post].
Qed.

(** While another Flush or Write runs, and after the close callback has
    stopped the lock, nothing is written. *)
Theorem fifo_busy fuel c p : flushing c ≠ 0 →
  fifo_Flush fuel c = Ret (Some (WNo ErrConcurrentAccess), c) ∧
  fifo_Write fuel p c = Ret ((0, Some (WNo ErrConcurrentAccess)), c).
Proof. intros Hf. split; by apply with_flushing_busy. Qed.
End fifo.

(** ** Examples *)

Definition demo_wreg : wreg := WReg false 0 false.


(** The kernel takes three bytes at a time.  The second Write that waits
    succeeds but leaves the descriptor registered, since the operator passes
    on one PollDetach only; the third one fails after its first bytes. *)
Definition demo_writes : M (wconn wreg) (list (Z * option werr)) :=
  let w := fifo_Write (rt := demo_rt) (λ _ p, Answer (Z.min 3 (zlen p))) (Answer 0x11ED) 30 (bytes (seq 1 8)) in
  a ← w; b ← w; c ← w; mret [a; b; c].

Definition demo_empty : wconn wreg := WConn (demo []) None 0 demo_wreg false 0 [].

(** A fifo whose reader is slow can be written to twice: the third Flush
    or Write that has to wait for room fails with EEXIST, and what it did not
    send stays in the buffer. *)
Theorem fifo_third_wait_fails :
  match demo_writes demo_empty with
  | Ret (rs, c) => rs = [(8, None); (8, None); (8, Some (WNo EEXIST))] ∧
      sent c = bytes (seq 1 8 ++ seq 1 8 ++ seq 1 3) ∧ registered (reg c) = true
  | _ => False
  end.
Proof. vm_compute. done. Qed.

(** Nodes of 16 bytes; the kernel takes whatever it is offered. *)
Definition demo_nodes (n : nat) : wconn wreg :=
  WConn (demo (repeat (OWr (OMalloc (bytes (seq 0 16)))) n ++ [OWr OFlush])) None 0 demo_wreg false 0 [].

(** Flush of a buffer of more nodes than two sends can take blocks for
    ever although the fifo has room: the poller offers 32 nodes at its only
    event, the kernel takes all of them, and edge-triggered events follow only
    a write that found too little room. *)
Theorem fifo_many_nodes_hang :
  match fifo_Flush (rt := demo_rt) (λ _ p, Answer (zlen p)) (Answer 0x11ED) 2000 (demo_nodes 66) with
  | Ret (r, c) => r = Some WHangs ∧ zlen (sent c) = 1024 ∧ Len (lb (outputBuffer c)) = 32
  | _ => False
  end.
Proof. vm_compute. done. Qed.
