(* ===== verification/Threads.v ===== *)
(** * Interleavings of threads

    A system of threads that share a state: every thread is at a program
    counter, a step runs one atomic action of one thread, and an action may
    start further threads.  The components that synchronise with atomic
    operations ([OnEvent], [ShardQueue]) are instances of it; their invariants
    count the threads that are at certain program counters. *)

From S2P Require Import Prelude.

Section threads.
Context {St Pc Ch : Type}.

Record config := Cfg { shared : St; threads : list Pc }.

(** An action of a thread: the state and the program counter after it, and the
    threads it starts; [Ch] is the choice the environment makes. [None]: the
    thread has ended or has to wait. *)
Context (tstep : St → Pc → Ch → option (St * Pc * list Pc)).
(** The threads that may start at any time. *)
Context (starts : Pc → bool).

Inductive step : config → config → Prop :=
| step_thread s ths i p c s' p' sp :
    ths !! i = Some p → tstep s p c = Some (s', p', sp) →
    step (Cfg s ths) (Cfg s' (<[i := p']> ths ++ sp))
| step_start s ths p : starts p = true → step (Cfg s ths) (Cfg s (ths ++ [p])).

Definition reach : config → config → Prop := rtc step.

(** ** Invariants *)

Lemma reach_inv (I : config → Prop) :
  (∀ s ths i p c s' p' sp, I (Cfg s ths) → ths !! i = Some p → tstep s p c = Some (s', p', sp) →
     I (Cfg s' (<[i := p']> ths ++ sp))) →
  (∀ s ths p, I (Cfg s ths) → starts p = true → I (Cfg s (ths ++ [p]))) →
  ∀ c c', reach c c' → I c → I c'.
Proof.
  intros H1 H2 c c' Hr. induction Hr as [c|c1 c2 c3 Hs _ IH]; [done|]. intros Hi. apply IH.
  destruct Hs; eauto.
Qed.

(** The same, with the invariants known already of the configuration before
    the step. *)
Lemma reach_inv_from (c0 : config) (I : config → Prop) :
  (∀ s ths i p c s' p' sp, reach c0 (Cfg s ths) → I (Cfg s ths) → ths !! i = Some p →
     tstep s p c = Some (s', p', sp) → I (Cfg s' (<[i := p']> ths ++ sp))) →
  (∀ s ths p, I (Cfg s ths) → starts p = true → I (Cfg s (ths ++ [p]))) →
  I c0 → ∀ c, reach c0 c → I c.
Proof.
  intros H1 H2 H0. apply (rtc_ind_r I c0); [done|]. intros c1 c2 Hr Hs IH. destruct Hs; eauto.
Qed.

(** The threads, weighted by where they are. *)
Definition tally (f : Pc → nat) (ths : list Pc) : nat := sum_list_with f ths.

Lemma tally_app f l1 l2 : tally f (l1 ++ l2) = (tally f l1 + tally f l2)%nat.
Proof. apply sum_list_with_app. Qed.

Lemma tally_step f (ths : list Pc) i p p' sp : ths !! i = Some p →
  (tally f (<[i := p']> ths ++ sp) + f p = tally f ths + f p' + tally f sp)%nat.
Proof.
  intros Hi. rewrite tally_app. enough (tally f (<[i := p']> ths) + f p = tally f ths + f p')%nat by lia.
  revert i Hi. induction ths as [|q ths IH]; intros [|i] Hi; simplify_eq/=; [lia|].
  specialize (IH i Hi). unfold tally in *. simpl. lia.
Qed.

Lemma tally_start f (ths : list Pc) p : tally f (ths ++ [p]) = (tally f ths + f p)%nat.
Proof. rewrite tally_app. unfold tally. simpl. lia. Qed.

Lemma tally_pos f (ths : list Pc) i p : ths !! i = Some p → (f p ≤ tally f ths)%nat.
Proof.
  revert i. induction ths as [|q ths IH]; intros [|i] Hi; simplify_eq/=; [unfold tally; simpl; lia|].
  specialize (IH i Hi). unfold tally in *. simpl. lia.
Qed.

Lemma tally_two f (ths : list Pc) i j p q : i ≠ j → ths !! i = Some p → ths !! j = Some q → (f p + f q ≤ tally f ths)%nat.
Proof.
  revert i j. induction ths as [|x ths IH]; intros [|i] [|j] Hne Hi Hj; simplify_eq/=; unfold tally in *; simpl.
  - pose proof (tally_pos f ths j q Hj). unfold tally in *. lia.
  - pose proof (tally_pos f ths i p Hi). unfold tally in *. lia.
  - specialize (IH i j ltac:(congruence) Hi Hj). lia.
Qed.

Lemma tally_le f g (ths : list Pc) : (∀ p, (f p ≤ g p)%nat) → (tally f ths ≤ tally g ths)%nat.
Proof.
  intros Hle. induction ths as [|q ths IH]; [done|]. unfold tally in *. simpl. specialize (Hle q). lia.
Qed.

Lemma tally_plus f g (ths : list Pc) :
  tally (λ p, f p + g p)%nat ths = (tally f ths + tally g ths)%nat.
Proof. induction ths as [|q ths IH]; [done|]. unfold tally in *. simpl. lia. Qed.

Lemma tally_zero f (ths : list Pc) : (∀ p, p ∈ ths → f p = 0%nat) → tally f ths = 0%nat.
Proof.
  induction ths as [|q ths IH]; intros Hz; [done|]. unfold tally in *. simpl.
  rewrite Hz by left. rewrite IH; [done|]. intros p Hp. apply Hz. by right.
Qed.

Lemma tally_support f g (ths : list Pc) :
  (∀ p, f p = 0%nat → g p = 0%nat) → tally f ths = 0%nat → tally g ths = 0%nat.
Proof.
  intros Hfg. induction ths as [|q ths IH]; [done|]. unfold tally in *. simpl. specialize (Hfg q). lia.
Qed.

(** The only thread with weight [g] has all of a smaller weight. *)
Lemma tally_single f g (ths : list Pc) i p :
  (∀ q, (f q ≤ g q)%nat) → (tally g ths ≤ 1)%nat → ths !! i = Some p → g p = 1%nat → tally f ths = f p.
Proof.
  intros Hle. revert i. induction ths as [|q ths IH]; intros [|i] Hg Hi Hp; simplify_eq/=; unfold tally in *; simpl in *.
  - pose proof (tally_le f g ths Hle). unfold tally in *. lia.
  - pose proof (tally_pos g ths i p Hi) as Hpos. unfold tally in Hpos. pose proof (Hle q).
    rewrite (IH i); [lia|lia|done|done].
Qed.

(** ** Executions *)

Inductive act := Run (i : nat) (c : Ch) | Start (p : Pc).

Definition run_act (a : act) (c : config) : option config :=
  match a with
  | Run i ch =>
      p ← threads c !! i;
      '(s', p', sp) ← tstep (shared c) p ch;
      Some (Cfg s' (<[i := p']> (threads c) ++ sp))
  | Start p => if starts p then Some (Cfg (shared c) (threads c ++ [p])) else None
  end.

Fixpoint run_acts (l : list act) (c : config) : option config :=
  match l with
  | [] => Some c
  | a :: l => c' ← run_act a c; run_acts l c'
  end.

Lemma run_acts_reach l c c' : run_acts l c = Some c' → reach c c'.
Proof.
  revert c. induction l as [|a l IH]; intros c Hr; simplify_eq/=; [apply rtc_refl|].
  destruct (run_act a c) as [c1|] eqn:E; simplify_eq/=. eapply rtc_l; [|by apply IH].
  destruct c as [s ths], a as [i ch|p]; simpl in E.
  - destruct (ths !! i) as [p|] eqn:Hi; simplify_eq/=.
    destruct (tstep s p ch) as [[[s' p'] sp]|] eqn:Ht; simplify_eq/=. by econstructor.
  - destruct (starts p) eqn:Hp; simplify_eq/=. by constructor.
Qed.
End threads.

Arguments config : clear implicits.
Arguments act : clear implicits.

Open Scope Z_scope.

(** Split the cases of an unfolded step. *)
Ltac step_case :=
  repeat match goal with
  | H : context [match ?x with _ => _ end] |- _ =>
      lazymatch x with
      | context [match _ with _ => _ end] => fail
      | _ => let E := fresh "E" in destruct x eqn:E
      end
  end; simplify_eq/=;
  repeat match goal with
  | H : (_ =? _) = true |- _ => apply Z.eqb_eq in H
  | H : (_ =? _) = false |- _ => apply Z.eqb_neq in H
  | H : (_ <? _) = true |- _ => apply Z.ltb_lt in H
  | H : (_ <? _) = false |- _ => apply Z.ltb_ge in H
  | H : (_ <=? _) = true |- _ => apply Z.leb_le in H
  | H : (_ <=? _) = false |- _ => apply Z.leb_gt in H
  | H : negb _ = true |- _ => apply negb_true_iff in H
  | H : negb _ = false |- _ => apply negb_false_iff in H
  | H : _ && _ = true |- _ => apply andb_true_iff in H as [??]
  | H : _ && _ = false |- _ => apply andb_false_iff in H
  | H : _ || _ = true |- _ => apply orb_true_iff in H
  | H : _ || _ = false |- _ => apply orb_false_iff in H as [??]
  end.

(** The tally of [f] before and after the step [Hs] of the thread that [Hi] finds. *)
Ltac count f Hi Hs :=
  let Ht := fresh "Ht" in let Hp := fresh "Hp" in
  lazymatch type of Hs with
  | _ = Some (_, ?p', ?sp) =>
      pose proof (tally_step f _ _ _ p' sp Hi) as Ht; pose proof (tally_pos f _ _ _ Hi) as Hp
  end.
