(* ===== verification/SafeLinkBuffer.v ===== *)
(** * The link buffer of race builds

    Models src/nocopy_linkbuffer_race.go: each method of SafeLinkBuffer, as the
    list of its statements, locks a mutex, defers its release and calls the
    method of UnsafeLinkBuffer.  Goroutines call methods at the same time; the
    theorem is that what they see is what they would see if the calls ran one
    after the other.  A method of UnsafeLinkBuffer takes time: it reads the
    buffer at its beginning and stores what it makes of it at its end, so that
    two that overlap lose an update. *)

From stdpp Require Import strings list.
From S2P Require Import Prelude Threads GoMem LinkNode LinkBuffer ByteQueue LinkSpec LinkTheorems.

Open Scope Z_scope.

(** ** Methods that lock *)

(** The statements of a method: [b.Lock()], [defer b.Unlock()], and the call of
    a method of the embedded buffer, whose results are returned. *)
Inductive instr (Op : Type) := Lock | DeferUnlock | Call (o : Op).
Arguments Lock {Op}.
Arguments DeferUnlock {Op}.
Arguments Call {Op} o.

Section mutex.
Context {S Op Res : Type} (exec : Op → M S Res) (body : Op → list (instr Op)).

(** The mutex, what it protects, and the calls that were made, by goroutine. *)
Record guarded := Guarded { g_mutex : bool; g_state : S; g_log : list (nat * Op * Res) }.

(** A goroutine [t]: what it still calls and what its calls returned; in the
    method [o], the statements that are left, whether the unlock was deferred,
    and the result; [GMid]: inside the method of the embedded buffer, with what
    it will return and store. *)
Inductive gpc :=
| GIdle (t : nat) (os : list Op) (rs : list Res)
| GBody (t : nat) (o : Op) (code : list (instr Op)) (deferred : bool) (r : option Res) (os : list Op) (rs : list Res)
| GMid (t : nat) (o : Op) (code : list (instr Op)) (deferred : bool) (x : Res * S) (os : list Op) (rs : list Res).

(** A statement; a panic ends the program. *)
Definition guarded_step (g : guarded) (p : gpc) (_ : unit) : option (guarded * gpc * list gpc) :=
  match p with
  | GIdle t [] rs => None
  | GIdle t (o :: os) rs => Some (g, GBody t o (body o) false None os rs, [])
  | GBody t o (Lock :: code) d r os rs =>
      if g_mutex g then None else Some (Guarded true (g_state g) (g_log g), GBody t o code d r os rs, [])
  | GBody t o (DeferUnlock :: code) d r os rs => Some (g, GBody t o code true r os rs, [])
  | GBody t o (Call u :: code) d r os rs =>
      match exec u (g_state g) with
      | Ret x => Some (g, GMid t o code d x os rs, [])
      | _ => None
      end
  | GMid t o code d x os rs =>
      Some (Guarded (g_mutex g) x.2 (g_log g ++ [(t, o, x.1)]), GBody t o code d (Some x.1) os rs, [])
  | GBody t o [] true r os rs => Some (Guarded false (g_state g) (g_log g), GBody t o [] false r os rs, [])
  | GBody t o [] false (Some r) os rs => Some (g, GIdle t os (rs ++ [r]), [])
  | GBody t o [] false None os rs => None
  end.

(** The goroutines run the programs [progs]. *)
Definition guarded_init (s : S) (progs : list (list Op)) : config guarded gpc :=
  Cfg (Guarded false s []) (imap (λ t os, GIdle t os []) progs).

Definition guarded_reach (s : S) (progs : list (list Op)) : config guarded gpc → Prop :=
  reach guarded_step (λ _, false) (guarded_init s progs).

(** The calls one after the other. *)
Fixpoint run_ops (os : list Op) : M S (list Res) :=
  match os with
  | [] => mret []
  | o :: os => r ← exec o; rs ← run_ops os; mret (r :: rs)
  end.

Definition log_ops (l : list (nat * Op * Res)) : list Op := (λ x, x.1.2) <$> l.
Definition log_results (l : list (nat * Op * Res)) : list Res := (λ x, x.2) <$> l.

(** The calls of the goroutine [t]. *)
Definition log_of (t : nat) (l : list (nat * Op * Res)) : list (nat * Op * Res) := filter (λ x, x.1.1 = t) l.

Lemma run_ops_app os o s rs s1 r s2 :
  run_ops os s = Ret (rs, s1) → exec o s1 = Ret (r, s2) → run_ops (os ++ [o]) s = Ret (rs ++ [r], s2).
Proof.
  revert s rs. induction os as [|o' os IH]; intros s rs Hr He; simpl in *.
  - injection Hr as <- <-. unfold mbind, M_bind. by rewrite He.
  - unfold mbind, M_bind in *. destruct (exec o' s) as [[r' s']| |]; [|done..].
    destruct (run_ops os s') as [[rs' s'']| |] eqn:E; [|done..]. injection Hr as <- <-.
    by rewrite (IH s' rs' E He).
Qed.

Definition gid (p : gpc) : nat := match p with GIdle t _ _ | GBody t _ _ _ _ _ _ | GMid t _ _ _ _ _ _ => t end.

(** Inside a method of the embedded buffer. *)
Definition inside (p : gpc) : nat := match p with GMid _ _ _ _ _ _ _ => 1 | _ => 0 end.

(** Inside a method. *)
Definition busy (p : gpc) : Prop := match p with GIdle _ _ _ => False | _ => True end.

(** Between Lock and Unlock. *)
Definition owner (p : gpc) : nat :=
  match p with
  | GIdle _ _ _ | GBody _ _ (Lock :: _) _ _ _ _ | GBody _ _ [] false _ _ _ => 0
  | _ => 1
  end.

(** Every method is bracketed: this is what the theorem needs of the bodies. *)
Context (bracketed : ∀ o, body o = [Lock; DeferUnlock; Call o]).

(** Where a goroutine can be in a method. *)
Definition placed (p : gpc) : Prop :=
  match p with
  | GIdle _ _ _ => True
  | GBody _ o code d None _ _ =>
      code = [Lock; DeferUnlock; Call o] ∧ d = false ∨ code = [DeferUnlock; Call o] ∧ d = false ∨ code = [Call o] ∧ d = true
  | GBody _ _ code _ (Some _) _ _ => code = []
  | GMid _ _ code d _ _ _ => code = [] ∧ d = true
  end.

(** What a goroutine has called, in order, and what is left of its program. *)
Definition history (prog : list Op) (l : list (nat * Op * Res)) (p : gpc) : Prop :=
  match p with
  | GIdle t os rs => log_results (log_of t l) = rs ∧ prog = log_ops (log_of t l) ++ os
  | GBody t o _ _ None os rs | GMid t o _ _ _ os rs => log_results (log_of t l) = rs ∧ prog = log_ops (log_of t l) ++ o :: os
  | GBody t o _ _ (Some r) os rs => log_results (log_of t l) = rs ++ [r] ∧ prog = log_ops (log_of t l) ++ os
  end.

(** What a goroutine inside the buffer has read is still there. *)
Definition unchanged (s : S) (p : gpc) : Prop :=
  match p with GMid _ o _ _ x _ _ => exec o s = Ret x | _ => True end.

Record gpc_ok (progs : list (list Op)) (g : guarded) (t : nat) (p : gpc) : Prop := GpcOk {
  go_id : gid p = t;
  go_placed : placed p;
  go_history : ∃ prog, progs !! t = Some prog ∧ history prog (g_log g) p;
  go_unchanged : unchanged (g_state g) p;
}.

Definition guarded_inv (s0 : S) (progs : list (list Op)) (c : config guarded gpc) : Prop :=
  let g := shared c in
  tally owner (threads c) = (if g_mutex g then 1%nat else 0%nat) ∧
  run_ops (log_ops (g_log g)) s0 = Ret (log_results (g_log g), g_state g) ∧
  ∀ t p, threads c !! t = Some p → gpc_ok progs g t p.

Lemma log_of_app t l t' o r : log_of t (l ++ [(t', o, r)]) = log_of t l ++ (if decide (t' = t) then [(t', o, r)] else []).
Proof. unfold log_of. rewrite filter_app, filter_cons. simpl. by destruct (decide (t' = t)). Qed.

(** A step leaves the buffer and the log alone, but for the end of a call. *)
Lemma guarded_step_mid g p ch g' p' sp : guarded_step g p ch = Some (g', p', sp) → sp = [] ∧
  (inside p = 0%nat → g_state g' = g_state g ∧ g_log g' = g_log g).
Proof. destruct p as [t [|] rs|t o [|[]] [] []|]; simpl; intros; repeat case_match; by simplify_eq. Qed.

(** What a step does to the goroutine that makes it. *)
Lemma guarded_step_own progs g i p ch g' p' sp : gpc_ok progs g i p → guarded_step g p ch = Some (g', p', sp) →
  gpc_ok progs g' i p'.
Proof using bracketed.
  intros [Hid Hpl (prog&Hp&Hh) Hu] Hs.
  destruct p as [t [|o os] rs|t o code d [r|] os rs|t o code d [r s'] os rs]; simpl in Hid, Hpl; subst t; [done|..].
  - simplify_eq/=. rewrite bracketed. constructor; simpl; eauto.
  - subst code. destruct d; simplify_eq/=; constructor; simpl; eauto.
  - destruct Hpl as [[-> ->]|[[-> ->]|[-> ->]]]; simpl in Hs.
    + destruct (g_mutex g); simplify_eq. constructor; simpl; eauto.
    + simplify_eq. constructor; simpl; eauto.
    + destruct (exec o (g_state g)) as [x| |] eqn:E; simplify_eq. constructor; simpl; eauto.
  - destruct Hpl as [-> ->]. simplify_eq/=. destruct Hh as [<- ->]. constructor; simpl; [done..| |done].
    eexists. split; [done|]. rewrite log_of_app. destruct (decide (i = i)); [|done].
    unfold log_results, log_ops. rewrite !fmap_app. simpl. by rewrite <- app_assoc.
Qed.

(** The others see no change, or are not inside. *)
Lemma guarded_step_other progs g i p ch g' p' sp t q : i ≠ t → gpc_ok progs g i p →
  guarded_step g p ch = Some (g', p', sp) → (inside p = 1%nat → inside q = 0%nat) →
  gpc_ok progs g t q → gpc_ok progs g' t q.
Proof.
  intros Hne [Hid _ _ _] Hs Hin [Hq1 Hq2 (prog&Hp&Hh) Hq4]. destruct (guarded_step_mid _ _ _ _ _ _ Hs) as [_ Hsame].
  assert (log_of t (g_log g') = log_of t (g_log g)) as El.
  { destruct p; try (by rewrite (proj2 (Hsame eq_refl))). simplify_eq/=. rewrite log_of_app.
    destruct (decide _); [done|]. by rewrite app_nil_r. }
  constructor; try done.
  - exists prog. split; [done|]. unfold history in *. destruct q as [| |]; simpl in Hq1; subst; by rewrite El.
  - destruct q; try done. destruct p; simpl in *; try (by rewrite (proj1 (Hsame eq_refl))). by specialize (Hin eq_refl).
Qed.

Lemma inside_owner p : (inside p ≤ owner p)%nat.
Proof. destruct p; simpl; lia. Qed.

(** The log is a run of the buffer. *)
Lemma guarded_step_log s0 progs g i p ch g' p' sp : gpc_ok progs g i p → guarded_step g p ch = Some (g', p', sp) →
  run_ops (log_ops (g_log g)) s0 = Ret (log_results (g_log g), g_state g) →
  run_ops (log_ops (g_log g')) s0 = Ret (log_results (g_log g'), g_state g').
Proof.
  intros [_ _ _ Hu] Hs Hr. destruct (guarded_step_mid _ _ _ _ _ _ Hs) as [_ Hsame].
  destruct p as [| |t o code d [r s'] os rs]; try (by destruct (Hsame eq_refl) as [-> ->]). simplify_eq/=.
  unfold log_ops, log_results. rewrite !fmap_app. by apply run_ops_app with (g_state g).
Qed.

(** The mutex has one owner. *)
Lemma guarded_step_owner progs g i p ch g' p' sp : gpc_ok progs g i p → guarded_step g p ch = Some (g', p', sp) →
  (owner p ≤ (if g_mutex g then 1 else 0) →
   (if g_mutex g then 1 else 0) + owner p' = (if g_mutex g' then 1 else 0) + owner p)%nat.
Proof using bracketed.
  intros [_ Hpl _ _] Hs. destruct p as [t [|o os] rs|t o code d [r|] os rs|t o code d [r s'] os rs]; simpl in Hpl; [done|..].
  - simplify_eq/=. rewrite bracketed. simpl. lia.
  - subst code. destruct d; simplify_eq/=; repeat case_match; lia.
  - destruct Hpl as [[-> ->]|[[-> ->]|[-> ->]]]; simplify_eq/=; repeat (case_match; simplify_eq/=); lia.
  - destruct Hpl as [-> ->]. by simplify_eq/=.
Qed.

Lemma guarded_inv_step s0 progs g ths i p ch g' p' sp : guarded_inv s0 progs (Cfg g ths) → ths !! i = Some p →
  guarded_step g p ch = Some (g', p', sp) → guarded_inv s0 progs (Cfg g' (<[i:=p']> ths ++ sp)).
Proof using bracketed.
  intros (H1&H2&H4) Hi Hs. simpl in *. pose proof (H4 i p Hi) as Hp.
  destruct (guarded_step_mid _ _ _ _ _ _ Hs) as [-> _]. rewrite app_nil_r. split_and!; simpl.
  - pose proof (tally_step owner ths i p p' [] Hi) as Ht. pose proof (tally_pos owner ths i p Hi) as Hpos.
    rewrite app_nil_r in Ht. pose proof (guarded_step_owner _ _ _ _ _ _ _ _ Hp Hs). unfold tally in *. simpl in Ht. lia.
  - by eapply guarded_step_log.
  - intros t q Hq. destruct (decide (i = t)) as [<-|Hne].
    + rewrite list_lookup_insert_eq in Hq by (by eapply lookup_lt_Some). simplify_eq. by eapply guarded_step_own.
    + rewrite list_lookup_insert_ne in Hq by done. pose proof (H4 t q Hq) as Hq'.
      eapply guarded_step_other; [exact Hne|exact Hp|exact Hs| |exact Hq']. intros Hin.
      pose proof (tally_two owner ths i t p q Hne Hi Hq). pose proof (inside_owner p).
      pose proof (inside_owner q). destruct (g_mutex g); lia.
Qed.

Lemma guarded_inv_reach s progs c : guarded_reach s progs c → guarded_inv s progs c.
Proof using bracketed.
  intros Hr. eapply (reach_inv _ _ (guarded_inv s progs)); [| |exact Hr|].
  - intros g ths i p ch g' p' sp. apply guarded_inv_step.
  - done.
  - split_and!; simpl; [|done|].
    + apply tally_zero. intros p (t&os&->&_)%elem_of_lookup_imap. done.
    + intros t p Hp. rewrite list_lookup_imap in Hp. destruct (progs !! t) as [os|] eqn:E; simplify_eq/=. constructor; simpl; eauto.
Qed.

(** Only a goroutine that is in a method has the mutex. *)
Lemma owner_busy c s progs : guarded_inv s progs c → g_mutex (shared c) = true →
  ∃ t p, threads c !! t = Some p ∧ busy p.
Proof.
  intros (H1&_) Hm. rewrite Hm in H1. destruct (decide (Exists (λ p, owner p = 1%nat) (threads c))) as [E|E].
  - apply Exists_exists in E as (p&(t&Ht)%list_elem_of_lookup_1&Ho). exists t, p. split; [done|]. by destruct p.
  - rewrite tally_zero in H1; [done|]. intros p Hp. apply not_Exists_Forall in E; [|intros ?; apply _].
    rewrite Forall_forall in E. specialize (E p Hp). simpl in E. destruct p as [|? ? [|[]] []|]; simpl in *; lia.
Qed.
End mutex.

(** ** SafeLinkBuffer *)

Inductive sop :=
(* Reader *)
| SNext (n : Z) | SPeek (n : Z) | SSkip (n : Z) | SUntil (delim : byte) | SRelease | SReadString (n : Z) | SReadBinary (n : Z)
| SReadByte | SSlice (n : Z)
(* Writer *)
| SMalloc (n : Z) | SMallocLen | SMallocAck (n : Z) | SFlush | SAppend (w : writer) | SWriteBuffer (buf : option LinkBuffer)
| SWriteString (s : slice) | SWriteBinary (p : slice) | SWriteDirect (p : slice) (remainLen : Z) | SWriteByte (p : byte) | SClose
(* the connection's interface *)
| SBytes | SGetBytes (n : Z) | Sbook (bookSize maxSize : Z) | SbookAck (n : Z) | ScalcMaxSize | SresetTail (maxSize : Z)
| SindexByte (c : byte) (skip : Z).

Inductive sres :=
| VErr (e : option lberr) | VSlice (r : slice * option lberr) | VByte (r : byte * option lberr) | VInt (n : Z)
| VIntErr (r : Z * option lberr) | VSlices (r : list slice) | VBuffer (r : option LinkBuffer * option lberr) | VUnit.

(** *** The methods of SafeLinkBuffer *)

Definition safe_Next (n : Z) : list (instr sop) := [Lock; DeferUnlock; Call (SNext n)].
Definition safe_Peek (n : Z) : list (instr sop) := [Lock; DeferUnlock; Call (SPeek n)].
Definition safe_Skip (n : Z) : list (instr sop) := [Lock; DeferUnlock; Call (SSkip n)].
Definition safe_Until (delim : byte) : list (instr sop) := [Lock; DeferUnlock; Call (SUntil delim)].
Definition safe_Release : list (instr sop) := [Lock; DeferUnlock; Call SRelease].
Definition safe_ReadString (n : Z) : list (instr sop) := [Lock; DeferUnlock; Call (SReadString n)].
Definition safe_ReadBinary (n : Z) : list (instr sop) := [Lock; DeferUnlock; Call (SReadBinary n)].
Definition safe_ReadByte : list (instr sop) := [Lock; DeferUnlock; Call SReadByte].
Definition safe_Slice (n : Z) : list (instr sop) := [Lock; DeferUnlock; Call (SSlice n)].
Definition safe_Malloc (n : Z) : list (instr sop) := [Lock; DeferUnlock; Call (SMalloc n)].
Definition safe_MallocLen : list (instr sop) := [Lock; DeferUnlock; Call SMallocLen].
Definition safe_MallocAck (n : Z) : list (instr sop) := [Lock; DeferUnlock; Call (SMallocAck n)].
Definition safe_Flush : list (instr sop) := [Lock; DeferUnlock; Call SFlush].
Definition safe_Append (w : writer) : list (instr sop) := [Lock; DeferUnlock; Call (SAppend w)].
Definition safe_WriteBuffer (buf : option LinkBuffer) : list (instr sop) := [Lock; DeferUnlock; Call (SWriteBuffer buf)].
Definition safe_WriteString (s : slice) : list (instr sop) := [Lock; DeferUnlock; Call (SWriteString s)].
Definition safe_WriteBinary (p : slice) : list (instr sop) := [Lock; DeferUnlock; Call (SWriteBinary p)].
Definition safe_WriteDirect (p : slice) (remainLen : Z) : list (instr sop) := [Lock; DeferUnlock; Call (SWriteDirect p remainLen)].
Definition safe_WriteByte (p : byte) : list (instr sop) := [Lock; DeferUnlock; Call (SWriteByte p)].
Definition safe_Close : list (instr sop) := [Lock; DeferUnlock; Call SClose].
Definition safe_Bytes : list (instr sop) := [Lock; DeferUnlock; Call SBytes].
Definition safe_GetBytes (n : Z) : list (instr sop) := [Lock; DeferUnlock; Call (SGetBytes n)].
Definition safe_book (bookSize maxSize : Z) : list (instr sop) := [Lock; DeferUnlock; Call (Sbook bookSize maxSize)].
Definition safe_bookAck (n : Z) : list (instr sop) := [Lock; DeferUnlock; Call (SbookAck n)].
Definition safe_calcMaxSize : list (instr sop) := [Lock; DeferUnlock; Call ScalcMaxSize].
Definition safe_resetTail (maxSize : Z) : list (instr sop) := [Lock; DeferUnlock; Call (SresetTail maxSize)].
Definition safe_indexByte (c : byte) (skip : Z) : list (instr sop) := [Lock; DeferUnlock; Call (SindexByte c skip)].

Definition safe_body (o : sop) : list (instr sop) :=
  match o with
  | SNext n => safe_Next n
  | SPeek n => safe_Peek n
  | SSkip n => safe_Skip n
  | SUntil delim => safe_Until delim
  | SRelease => safe_Release
  | SReadString n => safe_ReadString n
  | SReadBinary n => safe_ReadBinary n
  | SReadByte => safe_ReadByte
  | SSlice n => safe_Slice n
  | SMalloc n => safe_Malloc n
  | SMallocLen => safe_MallocLen
  | SMallocAck n => safe_MallocAck n
  | SFlush => safe_Flush
  | SAppend w => safe_Append w
  | SWriteBuffer buf => safe_WriteBuffer buf
  | SWriteString s => safe_WriteString s
  | SWriteBinary p => safe_WriteBinary p
  | SWriteDirect p remainLen => safe_WriteDirect p remainLen
  | SWriteByte p => safe_WriteByte p
  | SClose => safe_Close
  | SBytes => safe_Bytes
  | SGetBytes n => safe_GetBytes n
  | Sbook bookSize maxSize => safe_book bookSize maxSize
  | SbookAck n => safe_bookAck n
  | ScalcMaxSize => safe_calcMaxSize
  | SresetTail maxSize => safe_resetTail maxSize
  | SindexByte c skip => safe_indexByte c skip
  end.

Lemma safe_bracketed o : safe_body o = [Lock; DeferUnlock; Call o].
Proof. by destruct o. Qed.

(** *** The methods of UnsafeLinkBuffer *)

Section safe.
Context {rt : Runtime}.

Definition unsafe_reader (o : sop) : M st sres :=
  match o with
  | SNext n => r ← Next n; mret (VSlice r)
  | SPeek n => r ← Peek n; mret (VSlice r)
  | SSkip n => r ← Skip n; mret (VErr r)
  | SUntil delim => r ← Until delim; mret (VSlice r)
  | SRelease => r ← Release; mret (VErr r)
  | SReadString n => r ← ReadString n; mret (VSlice r)
  | SReadBinary n => r ← ReadBinary n; mret (VSlice r)
  | SReadByte => r ← ReadByte; mret (VByte r)
  | SSlice n => r ← Slice_ n; mret (VBuffer r)
  | _ => panic
  end.

Definition unsafe_writer (o : sop) : M st sres :=
  match o with
  | SMalloc n => r ← Malloc n; mret (VSlice r)
  | SMallocLen => b ← getb; mret (VInt (MallocLen b))
  | SMallocAck n => r ← MallocAck n; mret (VErr r)
  | SFlush => r ← Flush; mret (VErr r)
  | SAppend w => r ← Append w; mret (VBuffer r)
  | SWriteBuffer buf => r ← WriteBuffer buf; mret (VBuffer (r, None))
  | SWriteString s => r ← WriteString s; mret (VIntErr r)
  | SWriteBinary p => r ← WriteBinary p; mret (VIntErr r)
  | SWriteDirect p remainLen => r ← WriteDirect p remainLen; mret (VErr r)
  | SWriteByte p => r ← WriteByte p; mret (VErr r)
  | SClose => r ← Close; mret (VErr r)
  | _ => panic
  end.

Definition unsafe_connection (o : sop) : M st sres :=
  match o with
  | SBytes => r ← Bytes; mret (VSlice (r, None))
  | SGetBytes n => r ← GetBytes n; mret (VSlices r)
  | Sbook bookSize maxSize => r ← book bookSize maxSize; mret (VSlice (r, None))
  | SbookAck n => r ← bookAck n; mret (VIntErr r)
  | ScalcMaxSize => r ← calcMaxSize; mret (VInt r)
  | SresetTail maxSize => _ ← resetTail maxSize; mret VUnit
  | SindexByte c skip => r ← indexByte c skip; mret (VInt r)
  | _ => panic
  end.

(** A method of UnsafeLinkBuffer. *)
Definition unsafe_exec (o : sop) : M st sres :=
  match o with
  | SNext _ | SPeek _ | SSkip _ | SUntil _ | SRelease | SReadString _ | SReadBinary _ | SReadByte | SSlice _ => unsafe_reader o
  | SBytes | SGetBytes _ | Sbook _ _ | SbookAck _ | ScalcMaxSize | SresetTail _ | SindexByte _ _ => unsafe_connection o
  | _ => unsafe_writer o
  end.

(** C21: goroutines that call the methods that SafeLinkBuffer overrides at the
    same time see what they would see if the calls were made one after the
    other: there is an order of all calls that agrees with the order in each
    goroutine, in which the link buffer returns the same results and ends in
    the same state; no two goroutines are inside a method of the unsafe buffer
    at a time, and none keeps the mutex when its method has returned.  The
    theorem is about calls that do not panic. *)
Theorem safe_linearizable s progs c :
  guarded_reach unsafe_exec safe_body s progs c →
  let log := g_log (shared c) in
  (tally inside (threads c) ≤ 1)%nat ∧
  (g_mutex (shared c) = true → ∃ t p, threads c !! t = Some p ∧ busy p) ∧
  run_ops unsafe_exec (log_ops log) s = Ret (log_results log, g_state (shared c)) ∧
  ∀ t os rs, threads c !! t = Some (GIdle t os rs) →
    ∃ prog, progs !! t = Some prog ∧ prog = log_ops (log_of t log) ++ os ∧ log_results (log_of t log) = rs.
Proof.
  intros Hr log. pose proof (guarded_inv_reach unsafe_exec safe_body safe_bracketed s progs c Hr) as Hi.
  split_and!; [|by eapply owner_busy|apply Hi|].
  - destruct Hi as (H1&_&_). assert (tally inside (threads c) ≤ tally owner (threads c))%nat.
    { apply tally_le, inside_owner. }
    destruct (g_mutex _); lia.
  - intros t os rs Ht. destruct Hi as (_&_&H4). destruct (go_history _ _ _ _ _ (H4 t _ Ht)) as (prog&Hp&Hh1&Hh2).
    by exists prog.
Qed.
End safe.

(** Two goroutines: one writes and flushes, the other reads. *)
Definition safe_progs : list (list sop) :=
  [[SWriteByte Byte.x07; SFlush; SMallocLen]; [SReadByte; SReadByte; SRelease]].

(** The seven steps of a call. *)
Definition a_call (i : nat) : list (act (@gpc st sop sres) unit) := replicate 7 (Run i tt).

(** The second goroutine begins to read while the first one writes. *)
Definition safe_acts : list (act (@gpc st sop sres) unit) :=
  [Run 0 tt; Run 0 tt; Run 1 tt; Run 0 tt; Run 0 tt; Run 0 tt; Run 0 tt; Run 0 tt] ++ replicate 6 (Run 1 tt) ++
  a_call 0 ++ a_call 1 ++ [Run 0 tt; Run 0 tt].

Definition safe_config : config (@guarded st sop sres) (@gpc st sop sres) :=
  default (guarded_init (new_state demo_rt 8) safe_progs)
    (run_acts (guarded_step (unsafe_exec (rt := demo_rt)) safe_body) (λ _, false) safe_acts
      (guarded_init (new_state demo_rt 8) safe_progs)).

Lemma safe_config_reach : guarded_reach (unsafe_exec (rt := demo_rt)) safe_body (new_state demo_rt 8) safe_progs safe_config.
Proof.
  unfold safe_config. destruct (run_acts _ _ _ _) as [c|] eqn:E; simpl; [|apply rtc_refl]. by eapply run_acts_reach.
Qed.

Definition safe_results : list sres := [VByte (Byte.x00, Some ErrReadByteEmpty); VByte (Byte.x07, None)].

Lemma safe_config_thread : threads safe_config !! 1%nat = Some (GIdle 1 [SRelease] safe_results).
Proof. vm_compute. reflexivity. Qed.

#[local] Opaque safe_config.

Lemma safe_linearizable_witness :
  ∃ prog, safe_progs !! 1%nat = Some prog ∧ prog = log_ops (log_of 1 (g_log (shared safe_config))) ++ [SRelease] ∧
    log_results (log_of 1 (g_log (shared safe_config))) = safe_results.
Proof.
  exact (proj2 (proj2 (proj2 (safe_linearizable (rt := demo_rt) (new_state demo_rt 8) safe_progs safe_config safe_config_reach)))
    1%nat [SRelease] safe_results safe_config_thread).
Defined.

(** Without the lock an update is lost: two goroutines that write a byte each
    leave one byte. *)
Lemma unlocked_loses_update :
  match run_acts (guarded_step (unsafe_exec (rt := demo_rt)) (λ o, [Call o])) (λ _, false)
      [Run 0 tt; Run 0 tt; Run 1 tt; Run 1 tt; Run 0 tt; Run 1 tt]
      (guarded_init (new_state demo_rt 8) [[SWriteByte Byte.x07]; [SWriteByte Byte.x08]]) with
  | Some c => length (g_log (shared c)) = 2%nat ∧ MallocLen (lb (g_state (shared c))) = 1
  | None => False
  end.
Proof. vm_compute. done. Qed.
