(* ===== verification/Locker.v ===== *)
(** * The locks of a connection and of a fifo

    Models src/connection_lock.go and src/fifo_lock.go: an array of int32
    words, one per key, that is only accessed by atomic operations.  0 means
    unlocked, 1 locked, 2 stopped; the word of [closing] says who closed the
    connection. *)

From S2P Require Import Prelude.

Open Scope Z_scope.

(** [type who = int32] *)
Definition none : Z := 0.
Definition user : Z := 1.
Definition poller : Z := 2.

(** ** connection *)

Inductive key := closing | connecting | processing | flushing.

(** [keychain [total]int32] *)
Record locker := Locker {
  kc_closing : Z;
  kc_connecting : Z;
  kc_processing : Z;
  kc_flushing : Z;
}.

Definition status (k : key) (l : locker) : Z :=
  match k with
  | closing => kc_closing l
  | connecting => kc_connecting l
  | processing => kc_processing l
  | flushing => kc_flushing l
  end.

(** [force]: an atomic store *)
Definition force (k : key) (v : Z) (l : locker) : locker :=
  match k with
  | closing => Locker v (kc_connecting l) (kc_processing l) (kc_flushing l)
  | connecting => Locker (kc_closing l) v (kc_processing l) (kc_flushing l)
  | processing => Locker (kc_closing l) (kc_connecting l) v (kc_flushing l)
  | flushing => Locker (kc_closing l) (kc_connecting l) (kc_processing l) v
  end.

(** [atomic.CompareAndSwapInt32]: whether it succeeds, and the words after it *)
Definition cas (k : key) (old new : Z) (l : locker) : bool * locker :=
  if status k l =? old then (true, force k new l) else (false, l).

Definition closeBy (w : Z) (l : locker) : bool * locker := cas closing 0 w l.
Definition isCloseBy (w : Z) (l : locker) : bool := status closing l =? w.
Definition lock (k : key) (l : locker) : bool * locker := cas k 0 1 l.
Definition unlock (k : key) (l : locker) : locker := force k 0 l.
Definition isUnlock (k : key) (l : locker) : bool := status k l =? 0.

(** One round of [stop]: [None] when it has to wait for the holder. *)
Definition stop (k : key) (l : locker) : option locker :=
  if (cas k 0 2 l).1 then Some (cas k 0 2 l).2
  else if status k l =? 2 then Some l else None.

Definition new_locker : locker := Locker 0 0 0 0.

(** ** fifo *)

Inductive fkey := fifoClosing | fifoProcessing | fifoFlushing.

(** [keychain [fifoTotal]int32] *)
Record fifoLocker := FifoLocker {
  kf_closing : Z;
  kf_processing : Z;
  kf_flushing : Z;
}.

Definition fifo_status (k : fkey) (l : fifoLocker) : Z :=
  match k with
  | fifoClosing => kf_closing l
  | fifoProcessing => kf_processing l
  | fifoFlushing => kf_flushing l
  end.

Definition fifo_force (k : fkey) (v : Z) (l : fifoLocker) : fifoLocker :=
  match k with
  | fifoClosing => FifoLocker v (kf_processing l) (kf_flushing l)
  | fifoProcessing => FifoLocker (kf_closing l) v (kf_flushing l)
  | fifoFlushing => FifoLocker (kf_closing l) (kf_processing l) v
  end.

Definition fifo_cas (k : fkey) (old new : Z) (l : fifoLocker) : bool * fifoLocker :=
  if fifo_status k l =? old then (true, fifo_force k new l) else (false, l).

Definition fifo_closeBy (w : Z) (l : fifoLocker) : bool * fifoLocker := fifo_cas fifoClosing 0 w l.
Definition fifo_isCloseBy (w : Z) (l : fifoLocker) : bool := fifo_status fifoClosing l =? w.
Definition fifo_lock (k : fkey) (l : fifoLocker) : bool * fifoLocker := fifo_cas k 0 1 l.
Definition fifo_unlock (k : fkey) (l : fifoLocker) : fifoLocker := fifo_force k 0 l.
Definition fifo_isUnlock (k : fkey) (l : fifoLocker) : bool := fifo_status k l =? 0.

Definition fifo_stop (k : fkey) (l : fifoLocker) : option fifoLocker :=
  if (fifo_cas k 0 2 l).1 then Some (fifo_cas k 0 2 l).2
  else if fifo_status k l =? 2 then Some l else None.
