(* ===== verification/FifoRead.v ===== *)
(** * The reader of a fifo

    The methods of readFifo of src/fifo_read_impl.go that read, with inputs
    and inputAck of src/fifo_reactor.go.  They are written a second time in
    the source; that they behave as those of a connection (ConnInput.v) is the
    theorem of this file for calls from the OnFifoRead callback, and it carries
    over what is proved there.  As there, a method that waits lets the poller
    read; whether inputAck then wakes it is part of the model, since there the
    two differ: a reader outside of the callback is not woken by the bytes that
    arrive in an empty buffer ([reader_outside_not_woken]). *)

From stdpp Require Import strings.
From S2P Require Import Prelude Sim GoMem Errors SysExec LinkNode LinkBuffer ByteQueue LinkHeap LinkInv LinkRead LinkScan LinkBook LinkBytes LinkSpec LinkTheorems Locker ConnInput.

Open Scope Z_scope.

#[local] Arguments link_rexec : simpl never.

Record readFifo := ReadFifo {
  f_inputBuffer : st;
  f_maxSize : Z;
  f_bookSize : Z;
  f_closing : Z;             (* keychain[fifoClosing] *)
  f_processing : bool;       (* whether keychain[fifoProcessing] is taken *)
  f_reads : nat;             (* the reads of the poller so far *)
  f_arrived : list byte;     (* all that they delivered *)
}.

Definition set_f_inputBuffer x f := ReadFifo x (f_maxSize f) (f_bookSize f) (f_closing f) (f_processing f) (f_reads f) (f_arrived f).
Definition set_f_maxSize x f := ReadFifo (f_inputBuffer f) x (f_bookSize f) (f_closing f) (f_processing f) (f_reads f) (f_arrived f).
Definition set_f_bookSize x f := ReadFifo (f_inputBuffer f) (f_maxSize f) x (f_closing f) (f_processing f) (f_reads f) (f_arrived f).
Definition set_f_closing x f := ReadFifo (f_inputBuffer f) (f_maxSize f) (f_bookSize f) x (f_processing f) (f_reads f) (f_arrived f).
Definition set_f_arrived bs f :=
  ReadFifo (f_inputBuffer f) (f_maxSize f) (f_bookSize f) (f_closing f) (f_processing f) (S (f_reads f)) (f_arrived f ++ bs).

Section fifo.
Context {rt : Runtime}.
Context (kernel : nat → Z → answer (list byte)).

Definition finb {A} (m : M st A) : M readFifo A := zoom f_inputBuffer set_f_inputBuffer m.

(** [f.inputs(vs)] *)
Definition fifo_inputs : M readFifo (list slice) :=
  f ← get;
  p ← finb (book (f_bookSize f) (f_maxSize f));
  mret [p].

(** [f.onProcess()]: it starts the task, and has then processed, when it can
    take the lock.  The task of a fifo without a callback only gives the lock
    back; with a callback it reads, which is the subject of FifoProcess.v, so
    that [f_processing] is [false] here only without a callback. *)
Definition fifo_onProcess (f : readFifo) : bool := negb (f_processing f).

(** [f.inputAck(n)] when waitReadSize is [w]: whether it calls triggerRead. *)
Definition fifo_inputAck (w n : Z) : M readFifo bool :=
  if n <=? 0 then _ ← finb (bookAck 0); mret false
  else
    _ ← modify (λ f, if (n =? f_bookSize f) && (f_bookSize f <? mallocMax)
                     then set_f_bookSize (Z.shiftl (f_bookSize f) 1) f else f);
    r ← finb (bookAck n);
    _ ← modify (λ f, if f_maxSize f <? r.1 then set_f_maxSize r.1 f else f);
    _ ← modify (λ f, if mallocMax <? f_maxSize f then set_f_maxSize mallocMax f else f);
    f ← get;
    let needTrigger := if r.1 =? n then negb (fifo_onProcess f) else true in
    mret (needTrigger && (w <=? r.1)).

(** The poller reads: Inputs, ioread, InputAck; a failed read closes and
    triggers.  The error, and whether a reader that waits is woken. *)
Definition fifo_poll_read (w : Z) : M readFifo (option error * bool) :=
  vs ← fifo_inputs;
  f ← get;
  let ans := kernel (f_reads f) (foldr Z.add 0 (slen <$> vs)) in
  r ← some (ioread (f_reads f) ans vs barriercap (hmem (hp (f_inputBuffer f))));
  _ ← finb (modify (λ s, St (lb s) (set_mem (io_mem r) (hp s))));
  _ ← modify (set_f_arrived (match ans with Answer data => data | Fails _ => [] end));
  woken ← fifo_inputAck w (io_n r);
  _ ← (match io_err r with None => mret tt | Some _ => modify (set_f_closing poller) end);
  mret (io_err r, woken || bool_decide (io_err r ≠ None)).

Definition fifo_Len : M readFifo Z := f ← get; mret (Len (lb (f_inputBuffer f))).

(** The loop of waitRead, with waitReadSize set to [n]; [woken]: it is not
    blocked on readTrigger.  While it is blocked, only the poller runs. *)
Fixpoint fifo_wait (fuel : nat) (woken : bool) (n : Z) : M readFifo (option Z) :=
  match fuel with
  | O => out_of_fuel
  | S fuel =>
      l ← fifo_Len;
      if woken && negb (l <? n) then mret None
      else
        f ← get;
        if woken && (f_closing f =? poller) then mret (Some ErrEOF)
        else if woken && (f_closing f =? user) then mret (Some ErrConnClosed)
        else r ← fifo_poll_read n; fifo_wait fuel r.2 n
  end.

Definition fifo_waitRead (fuel : nat) (n : Z) : M readFifo (option Z) := fifo_wait fuel true n.

Section methods.
Context (fuel : nat).

(** Wait for [n] bytes, then the method of the buffer. *)
Definition fifo_then (n : Z) (o : rop) : M readFifo cres :=
  e ← fifo_waitRead fuel n;
  match e with
  | Some e => mret (CErr e)
  | None => r ← finb (link_rexec o); mret (COk r)
  end.

Definition fifo_Next (n : Z) := fifo_then n (ONext n).
Definition fifo_Peek (n : Z) := fifo_then n (OPeek n).
Definition fifo_Skip (n : Z) := fifo_then n (OSkip n).
Definition fifo_ReadString (n : Z) := fifo_then n (OReadString n).
Definition fifo_ReadBinary (n : Z) := fifo_then n (OReadBinary n).
Definition fifo_ReadByte := fifo_then 1 OReadByte.

(** [f.Release()]; [got]: whether the operator can be locked. *)
Definition fifo_Release (got : bool) : M readFifo rres :=
  l ← fifo_Len;
  _ ← (if (l =? 0) && got then
         m ← finb calcMaxSize;
         let m := if mallocMax <? m then mallocMax else m in
         _ ← modify (λ f, if f_maxSize f <? m then set_f_maxSize m f else f);
         l ← fifo_Len;
         f ← get;
         if l =? 0 then finb (resetTail (f_maxSize f)) else mret tt
       else mret tt);
  finb (link_rexec ORelease).

Fixpoint fifo_Until_loop (rounds : nat) (delim : byte) (n : Z) : M readFifo (list byte * option cerr) :=
  match rounds with
  | O => out_of_fuel
  | S rounds =>
      e ← fifo_waitRead fuel (n + 1);
      match e with
      | Some e =>
          l ← fifo_Len;
          r ← finb (link_rexec (ONext l));
          mret ((res_bytes r).1, Some (CNo e))
      | None =>
          l ← fifo_Len;
          i ← finb (indexByte delim n);
          if i <? 0 then fifo_Until_loop rounds delim l
          else
            r ← fifo_Next (i + 1);
            mret (match r with COk r => res_bytes r | CErr e => ([], Some (CNo e)) end)
      end
  end.

Definition fifo_Until (delim : byte) : M readFifo (list byte * option cerr) := fifo_Until_loop fuel delim 0.

(** [f.Read(b)] with [len(b) = l]: the bytes that are copied, and the error. *)
Definition fifo_Read (l : Z) : M readFifo (list byte * option cerr) :=
  if l =? 0 then mret ([], None)
  else
    e ← fifo_waitRead fuel 1;
    match e with
    | Some e => mret ([], Some (CNo e))
    | None =>
        has ← fifo_Len;
        let l := if has <? l then has else l in
        r ← finb (link_rexec (ONext l));
        match (res_bytes r).2 with
        | Some e => mret ((res_bytes r).1, Some e)
        | None => e ← finb (link_rexec ORelease); mret ((res_bytes r).1, (res_bytes e).2)
        end
    end.
End methods.

(** The part of init that concerns the input. *)
Definition fifo_init (h : heap) : outcome readFifo :=
  match NewLinkBuffer defaultLinkBufferSize h with
  | Ret (b, h) => Ret (ReadFifo (St b h) defaultLinkBufferSize defaultLinkBufferSize 0 false 0 [])
  | _ => Panic
  end.

(** ** The fifo as a connection *)

Definition to_conn (f : readFifo) : conn :=
  Conn (f_inputBuffer f) (f_bookSize f) (f_maxSize f) (f_closing f =? poller) (f_reads f) (f_arrived f).

(** The user has not closed the fifo, and the calls come from its callback,
    which runs with the lock taken. *)
Definition fifo_open (f : readFifo) : Prop := (f_closing f = none ∨ f_closing f = poller) ∧ f_processing f = true.

Abbreviation fsim := (sim to_conn fifo_open).

Lemma sim_finb {A} (m : M st A) : fsim (finb m) (inb m).
Proof. by apply sim_zoom. Qed.

Lemma sim_Len : fsim fifo_Len conn_Len.
Proof. apply sim_get. intros f Hf. apply sim_ret. Qed.
Hint Resolve sim_finb sim_Len : sim.

Lemma sim_inputs : fsim fifo_inputs inputs.
Proof. apply sim_get. intros f Hf. eauto with sim. Qed.

(** The bytes that can be read change in bookAck alone, which returns them. *)
Lemma book_len bs ms s : yields (book bs ms) (λ _ s', Len (lb s') = Len (lb s)) s.
Proof.
  unfold book. do 2 (apply yields_bind; first [apply yields_zoom, yields_any; intros|intros ? ? [= <- <-]]).
  apply yields_bind. eapply (yields_mono _ (λ _ s', Len (lb s') = Len (lb s))).
  - case_match; [|by apply yields_ret].
    do 2 (apply yields_bind, yields_zoom, yields_any; intros). apply yields_bind, yields_modify. by apply yields_ret.
  - intros ? s1 E. apply yields_bind. intros ? ? [= <- <-]. by apply yields_zoom, yields_any.
Qed.

Lemma bookAck_len n s : yields (bookAck n) (λ r s', r.1 = Len (lb s') ∧ r.1 = Len (lb s) + n) s.
Proof.
  unfold bookAck. apply yields_bind. intros ? ? [= <- <-].
  do 2 (apply yields_bind, yields_zoom, yields_any; intros). apply yields_bind, yields_some. intros q _.
  apply yields_bind, yields_zoom, yields_any. intros. apply yields_bind, yields_modify. apply yields_bind.
  unfold recalLen. apply yields_bind. intros ? ? [= <- <-]. apply yields_bind.
  eapply (yields_mono _ (λ _ s', Len (lb s') = Len (lb s))).
  - repeat case_match; try by apply yields_ret. apply yields_bind, yields_some. intros c' _. by apply yields_modify.
  - intros ? s1 E. apply yields_bind, yields_modify, yields_ret, yields_ret. done.
Qed.

Lemma sim_inputAck w n : fsim (_ ← fifo_inputAck w n; mret tt) (_ ← inputAck n; mret tt).
Proof.
  intros f Hf. unfold fifo_inputAck, inputAck. destruct (n <=? 0).
  { unfold mbind, M_bind. destruct (sim_finb (bookAck 0) f Hf) as [-> Hok].
    destruct (finb (bookAck 0) f) as [[r f1]| |]; [|done..]. split; [done|]. intros ? ? [= <- <-]. by eapply Hok. }
  set (f0 := if (n =? f_bookSize f) && (f_bookSize f <? mallocMax)
             then set_f_bookSize (Z.shiftl (f_bookSize f) 1) f else f).
  assert (grow_bookSize n (to_conn f) = to_conn f0 ∧ fifo_open f0) as [E Hf0].
  { unfold grow_bookSize, f0. simpl. by destruct (_ && _). }
  unfold mbind, M_bind. cbn -[bookAck]. rewrite E. fold f0. destruct (sim_finb (bookAck n) f0 Hf0) as [-> Hok].
  destruct (finb (bookAck n) f0) as [[r f1]| |]; [|done..]. specialize (Hok _ _ eq_refl).
  simpl. split; [|intros ? ? [= <- <-]].
  - unfold grow_maxSize. simpl. by repeat (case_match; simpl in *; try congruence).
  - unfold fifo_open in *. by repeat (case_match; simpl in *).
Qed.

Lemma sim_poll_read w : fsim (r ← fifo_poll_read w; mret r.1) (poll_read kernel).
Proof.
  unfold fifo_poll_read, poll_read. apply sim_assoc, sim_bind; [apply sim_inputs|]. intros vs.
  apply sim_assoc, sim_get. intros f Hf. simpl. apply sim_assoc, sim_bind; [apply sim_some|]. intros r.
  apply sim_assoc, sim_bind; [apply sim_finb|]. intros _. apply sim_assoc, sim_bind; [by apply sim_modify|]. intros _.
  apply sim_assoc, sim_forget; [apply sim_inputAck|]. intros woken. apply sim_assoc, sim_bind; [|intros; apply sim_ret].
  destruct (io_err r); [|apply sim_ret]. apply sim_modify. intros g [_ Hg]. split; [done|]. split; [by right|done].
Qed.

(** In the callback, a reader that a read does not wake has too few bytes and
    is not closed. *)
Lemma not_woken n f : f_processing f = true → Len (lb (f_inputBuffer f)) < n →
  yields (fifo_poll_read n) (λ r f', r.2 = false → Len (lb (f_inputBuffer f')) < n ∧ f_closing f' = f_closing f) f.
Proof.
  intros Hp Hl. unfold fifo_poll_read, fifo_inputs. apply yields_bind, yields_bind, yields_get.
  apply yields_bind, yields_zoom. eapply yields_mono; [apply book_len|]. intros p s1 E1. apply yields_ret.
  apply yields_bind, yields_get. apply yields_bind, yields_some. intros r _.
  apply yields_bind, yields_zoom, yields_modify. apply yields_bind, yields_modify.
  match goal with |- yields _ _ ?g => set (f1 := g) end.
  assert (Len (lb (f_inputBuffer f1)) = Len (lb (f_inputBuffer f))) as El by exact E1.
  assert (f_closing f1 = f_closing f ∧ f_processing f1 = f_processing f) as [Ec1 Ep1] by done. clearbody f1.
  apply yields_bind. eapply (yields_mono _ (λ woken f', f_closing f' = f_closing f ∧
    (woken = false → Len (lb (f_inputBuffer f')) < n))).
  - unfold fifo_inputAck. destruct (io_n r <=? 0).
    { apply yields_bind, yields_zoom. eapply yields_mono; [apply bookAck_len|]. intros a s2 [Ea Eb].
      apply yields_ret. split; [done|]. simpl in *. lia. }
    apply yields_bind, yields_modify, yields_bind, yields_zoom. eapply yields_mono; [apply bookAck_len|].
    intros a s2 [Ea Eb]. do 2 apply yields_bind, yields_modify. apply yields_bind, yields_get, yields_ret.
    unfold fifo_onProcess. split; [rewrite <- Ec1; by repeat (case_match; simpl)|].
    match goal with |- context [f_processing ?g] => assert (f_processing g = true ∧ f_inputBuffer g = s2) as [-> ->] end.
    { rewrite <- Hp, <- Ep1. by repeat (case_match; simpl). }
    rewrite Ea. destruct (Len (lb s2) =? io_n r); simpl; intros ?%Z.leb_gt; lia.
  - intros woken f2 [Hc Hw]. apply yields_bind. destruct (io_err r).
    + apply yields_modify, yields_ret. simpl. by rewrite orb_true_r.
    + apply yields_ret, yields_ret. simpl. rewrite orb_false_r. intros E. by split; [apply Hw|].
Qed.

Lemma wait_as_connection fuel n : ∀ woken f,
  fifo_open f → (woken = false → Len (lb (f_inputBuffer f)) < n ∧ f_closing f = none) →
  waitRead kernel fuel n (to_conn f) = omap to_conn (fifo_wait fuel woken n f) ∧
  ∀ r f', fifo_wait fuel woken n f = Ret (r, f') → fifo_open f'.
Proof.
  induction fuel as [|fuel IH]; intros woken f Hf Hw; [done|].
  simpl. unfold fifo_Len, conn_Len, mbind, M_bind. cbn -[poll_read fifo_poll_read].
  set (l := Len (lb (f_inputBuffer f))) in *.
  assert (l < n → f_closing f = none →
    match poll_read kernel (to_conn f) with
    | Ret (a, s') => waitRead kernel fuel n s' | Panic => Panic | OutOfFuel => OutOfFuel
    end = omap to_conn match fifo_poll_read n f with
      | Ret (a, s') => fifo_wait fuel a.2 n s' | Panic => Panic | OutOfFuel => OutOfFuel
      end ∧ ∀ r f', match fifo_poll_read n f with
      | Ret (a, s') => fifo_wait fuel a.2 n s' | Panic => Panic | OutOfFuel => OutOfFuel
      end = Ret (r, f') → fifo_open f') as Hpoll.
  { intros Hl Hc. destruct (sim_poll_read n f Hf) as [E Hok]. pose proof (not_woken n f (proj2 Hf) Hl) as Hn.
    unfold yields in Hn. unfold mbind, M_bind in E, Hok. rewrite E. destruct (fifo_poll_read n f) as [[[e w] f1]| |]; [|done..].
    cbn. apply IH; [by eapply Hok|]. intros ->. rewrite <- Hc. by apply (Hn _ _ eq_refl). }
  destruct woken; simpl.
  - destruct (Z.ltb_spec l n) as [Hl|Hl]; simpl; [|split; [done|]; by intros ? ? [= <- <-]].
    destruct Hf as [[Hc|Hc] Hp]; rewrite Hc in *; simpl; [by apply Hpoll|].
    split; [done|]. intros ? ? [= <- <-]. by split; [right|].
  - destruct (Hw eq_refl) as [Hl Hc]. rewrite (proj2 (Z.ltb_lt _ _) Hl). cbn -[poll_read fifo_poll_read]. rewrite Hc. by apply Hpoll.
Qed.

Lemma sim_waitRead fuel n : fsim (fifo_waitRead fuel n) (waitRead kernel fuel n).
Proof. intros f Hf. by apply wait_as_connection. Qed.
Hint Resolve sim_waitRead : sim.

Section sim_methods.
Context (fuel : nat).

Lemma sim_then n o : fsim (fifo_then fuel n o) (wait_then kernel fuel n o).
Proof. apply sim_bind; [apply sim_waitRead|]. intros [e|]; eauto with sim. Qed.

Lemma sim_Release got : fsim (fifo_Release got) (conn_Release got).
Proof.
  apply sim_bind; [apply sim_Len|]. intros l. apply sim_bind; [|intros; apply sim_finb].
  apply sim_if; [done| |apply sim_ret]. apply sim_bind; [apply sim_finb|]. intros m. cbv zeta.
  apply sim_bind; [apply sim_modify; intros f Hf; simpl; by destruct (f_maxSize f <? _)|]. intros _.
  apply sim_bind; [apply sim_Len|]. intros l'. apply sim_get. intros f Hf. eauto with sim.
Qed.

Lemma sim_Until rounds delim : ∀ n, fsim (fifo_Until_loop fuel rounds delim n) (Until_loop kernel fuel rounds delim n).
Proof.
  induction rounds as [|rounds IH]; intros n; [apply sim_out_of_fuel|]. simpl.
  apply sim_bind; [apply sim_waitRead|]. intros [e|]; (apply sim_bind; [apply sim_Len|]; intros l).
  - eauto with sim.
  - apply sim_bind; [apply sim_finb|]. intros i. apply sim_if; [done|apply IH|].
    apply sim_bind; [apply sim_then|]. intros r. apply sim_ret.
Qed.

Lemma sim_Read l : fsim (fifo_Read fuel l) (conn_Read kernel fuel l).
Proof.
  apply sim_if; [done|apply sim_ret|]. apply sim_bind; [apply sim_waitRead|]. intros [e|]; [apply sim_ret|].
  apply sim_bind; [apply sim_Len|]. intros has. cbv zeta. apply sim_bind; [apply sim_finb|]. intros r.
  destruct (res_bytes r).2; eauto with sim.
Qed.
End sim_methods.

(** ** Programs of reading calls *)

Inductive call :=
| KNext (n : Z) | KPeek (n : Z) | KSkip (n : Z) | KReadString (n : Z) | KReadBinary (n : Z) | KReadByte
| KUntil (delim : byte) | KRead (l : Z) | KRelease (got : bool) | KLen | KEvent.

Inductive cval :=
| VRes (r : cres) | VBytes (r : list byte * option cerr) | VLen (n : Z) | VDone (r : rres) | VEvent (e : option error).

Definition conn_call (fuel : nat) (k : call) : M conn cval :=
  match k with
  | KNext n => r ← conn_Next kernel fuel n; mret (VRes r)
  | KPeek n => r ← conn_Peek kernel fuel n; mret (VRes r)
  | KSkip n => r ← conn_Skip kernel fuel n; mret (VRes r)
  | KReadString n => r ← conn_ReadString kernel fuel n; mret (VRes r)
  | KReadBinary n => r ← conn_ReadBinary kernel fuel n; mret (VRes r)
  | KReadByte => r ← conn_ReadByte kernel fuel; mret (VRes r)
  | KUntil d => r ← conn_Until kernel fuel d; mret (VBytes r)
  | KRead l => r ← conn_Read kernel fuel l; mret (VBytes r)
  | KRelease got => r ← conn_Release got; mret (VDone r)
  | KLen => r ← conn_Len; mret (VLen r)
  | KEvent => r ← poll_read kernel; mret (VEvent r)
  end.

Definition fifo_call (fuel : nat) (k : call) : M readFifo cval :=
  match k with
  | KNext n => r ← fifo_Next fuel n; mret (VRes r)
  | KPeek n => r ← fifo_Peek fuel n; mret (VRes r)
  | KSkip n => r ← fifo_Skip fuel n; mret (VRes r)
  | KReadString n => r ← fifo_ReadString fuel n; mret (VRes r)
  | KReadBinary n => r ← fifo_ReadBinary fuel n; mret (VRes r)
  | KReadByte => r ← fifo_ReadByte fuel; mret (VRes r)
  | KUntil d => r ← fifo_Until fuel d; mret (VBytes r)
  | KRead l => r ← fifo_Read fuel l; mret (VBytes r)
  | KRelease got => r ← fifo_Release got; mret (VDone r)
  | KLen => r ← fifo_Len; mret (VLen r)
  | KEvent => r ← (r ← fifo_poll_read 0; mret r.1); mret (VEvent r)
  end.

Fixpoint run_calls {S} (exec : call → M S cval) (ks : list call) : M S (list cval) :=
  match ks with
  | [] => mret []
  | k :: ks => r ← exec k; rs ← run_calls exec ks; mret (r :: rs)
  end.

Lemma sim_call fuel k : fsim (fifo_call fuel k) (conn_call fuel k).
Proof.
  destruct k; (apply sim_bind; [|intros; apply sim_ret]);
    first [apply sim_then|apply sim_Until|apply sim_Read|apply sim_Release|apply sim_Len|apply sim_poll_read].
Qed.

Lemma sim_run_calls fuel ks : fsim (run_calls (fifo_call fuel) ks) (run_calls (conn_call fuel) ks).
Proof.
  induction ks as [|k ks IH]; [apply sim_ret|]. apply sim_bind; [apply sim_call|]. eauto with sim.
Qed.

(** C17: Called from the OnFifoRead callback, the reading methods of a fifo that
    the user has not closed and that has no read time-out do what those of a
    connection do: every sequence of calls and of read events returns the same
    bytes and errors, after the same reads, and leaves the same buffer and the
    same sizes.  The callback runs with the processing lock taken, so that
    inputAck wakes its reader; a reader outside of the callback may not be
    woken, and is not meant. *)
Theorem fifo_reads_as_connection fuel ks f :
  fifo_open f →
  run_calls (conn_call fuel) ks (to_conn f) = omap to_conn (run_calls (fifo_call fuel) ks f).
Proof. intros Hf. by apply (sim_run_calls fuel ks f). Qed.

(** ** What that says about the fifo *)

Context {rtok : RuntimeOk rt}.

(** read(2), for a fifo whose writers go away before the [K]-th read. *)
Context (kernel_ok : ∀ i n data, 0 <= n → kernel i n = Answer data → zlen data <= n).
Context (others : list loc).
Context (K : nat) (kernel_ends : ∀ i n, (K ≤ i)%nat → kernel i n = Answer []).

Definition fifo_ok (f : readFifo) (R : list byte) : Prop := conn_ok others (to_conn f) R ∧ fifo_open f.

(** So a method that needs [n] bytes, called from the callback, returns as soon
    as they have arrived what a buffer with all of them returns, or ErrEOF when
    the writers have gone before; then the bytes stay readable. *)
Theorem fifo_read_spec fuel o f R :
  fifo_ok f R → (K + 2 ≤ fuel)%nat →
  wp (fifo_then fuel (needs o) (rop_of o))
    (λ r f', ∃ new, read_result kernel others o R new (to_conn f) r (to_conn f') ∧ fifo_open f') f.
Proof.
  intros [Hok Hopen] Hf.
  eapply wp_mono; [eapply sim_wp; [apply sim_then|exact Hopen|]|].
  - apply (wp_wait_then kernel kernel_ok others K kernel_ends fuel o (to_conn f) R
      (λ r c', ∃ new, read_result kernel others o R new (to_conn f) r c') Hok Hf).
    intros r new c' Hr. by exists new.
  - intros r f' [(new&Hr) Hopen']. by exists new.
Qed.
End fifo.

(** ** Example *)

Definition demo_fifo : readFifo :=
  ReadFifo (new_state demo_rt defaultLinkBufferSize) defaultLinkBufferSize defaultLinkBufferSize none true 0 [].

Definition demo_calls : list call := [KNext 5; KPeek 1; KUntil Byte.x0a; KLen; KRelease true; KUntil Byte.x0a; KRead 3].

Lemma fifo_reads_as_connection_witness :
  run_calls (conn_call (rt := demo_rt) demo_input 4) demo_calls (to_conn demo_fifo) =
    omap to_conn (run_calls (fifo_call (rt := demo_rt) demo_input 4) demo_calls demo_fifo) ∧
  match run_calls (fifo_call (rt := demo_rt) demo_input 4) demo_calls demo_fifo with
  | Ret (rs, f) => rs = [VRes (COk (RBytes (bytes [1; 2; 10; 3; 1]%nat) None)); VRes (COk (RBytes (bytes [2]%nat) None));
      VBytes (bytes [2; 10]%nat, None); VLen 1; VDone (RBytes [] None);
      VBytes (bytes [3]%nat, Some (CNo ErrEOF)); VBytes ([], Some (CNo ErrEOF))] ∧ f_closing f = poller
  | _ => False
  end.
Proof.
  split; [exact (fifo_reads_as_connection (rt := demo_rt) demo_input 4 demo_calls demo_fifo
    (conj (or_introl eq_refl) eq_refl))|].
  vm_compute. done.
Defined.

Lemma fifo_read_spec_witness :
  wp (fifo_then (rt := demo_rt) demo_input 4 5 (ONext 5))
    (λ r f', ∃ new, read_result demo_input [] (WNext 5) [] new (to_conn demo_fifo) r (to_conn f') ∧ fifo_open f') demo_fifo.
Proof.
  apply (fifo_read_spec (rt := demo_rt) demo_input (rtok := demo_rt_ok) demo_input_ok [] 2 demo_input_ends 4 (WNext 5)
    demo_fifo []); [split; [exact demo_conn_ok|by split; [left|]]|lia].
Defined.

(** Without a callback the lock is free, and onProcess takes it: the reader of
    three bytes is not woken by four that arrive, where that of a connection
    returns; it goes on waiting until there is another event. *)
Lemma reader_outside_not_woken :
  let f := ReadFifo (f_inputBuffer demo_fifo) defaultLinkBufferSize defaultLinkBufferSize none false 0 [] in
  match fifo_Next (rt := demo_rt) demo_input 4 3 f, conn_Next (rt := demo_rt) demo_input 4 3 (to_conn f) with
  | Ret (r, f'), Ret (r', c') => r = r' ∧ f_reads f' = 2%nat ∧ reads c' = 1%nat
  | _, _ => False
  end.
Proof. vm_compute. done. Qed.
