(* ===== verification/SliceIO.v ===== *)
(** * Slices of a connection and of a fifo

    Slice of src/connection_impl.go and of src/fifo_read_impl.go: it waits for
    the bytes like the other reading methods, and returns a reader of its own. *)

From S2P Require Import Prelude GoMem Errors SysExec Sim LinkNode LinkBuffer ByteQueue LinkHeap LinkInv LinkSlice LinkSpec LinkTheorems Locker ConnInput FifoRead.

Open Scope Z_scope.

Section slices.
Context {rt : Runtime}.
Context (kernel : nat → Z → answer (list byte)).

(** An error of waitRead, or what Slice of the buffer returns. *)
Definition conn_Slice (fuel : nat) (n : Z) : M conn (Z + (option LinkBuffer * option lberr)) :=
  e ← waitRead kernel fuel n;
  match e with
  | Some e => mret (inl e)
  | None => r ← inb (Slice_ n); mret (inr r)
  end.

Definition fifo_Slice (fuel : nat) (n : Z) : M readFifo (Z + (option LinkBuffer * option lberr)) :=
  e ← fifo_waitRead kernel fuel n;
  match e with
  | Some e => mret (inl e)
  | None => r ← finb (Slice_ n); mret (inr r)
  end.

Lemma sim_Slice fuel n : sim to_conn fifo_open (fifo_Slice fuel n) (conn_Slice fuel n).
Proof.
  apply sim_bind; [apply sim_waitRead|]. intros [e|]; [apply sim_ret|].
  apply sim_bind; [apply sim_finb|]. intros r. apply sim_ret.
Qed.

Context {rtok : RuntimeOk rt}.
Context (kernel_ok : ∀ i n data, 0 <= n → kernel i n = Answer data → zlen data <= n).
Context (others : list loc) (K : nat) (kernel_ends : ∀ i n, (K ≤ i)%nat → kernel i n = Answer []).

(** What Slice of [n] leaves, after the bytes [new] have arrived. *)
Definition sliced_off (n : Z) (R new : list byte) (r : Z + (option LinkBuffer * option lberr)) (c' : conn) : Prop :=
  match r with
  | inl e => e = ErrEOF ∧ closed c' = true ∧ zlen (R ++ new) < n ∧ conn_ok others c' (R ++ new)
  | inr r => n <= zlen (R ++ new) ∧ sizes_ok c' ∧ ∃ p regs, r = (Some p, None) ∧
      beside (inputBuffer c') KInput 0 (zdrop n (R ++ new)) [] p KSlice 0 (ztake n (R ++ new)) [] others regs
  end.

Lemma wp_conn_Slice fuel n c R : conn_ok others c R → (K + 2 ≤ fuel)%nat → 0 < n →
  wp (conn_Slice fuel n) (λ r c', ∃ new, arrived c' = arrived c ++ new ∧ sliced_off n R new r c') c.
Proof.
  intros Hok Hf Hn. unfold conn_Slice. wsteps. eapply wp_waitRead; [done..|exact Hok|lia|].
  intros r new c1 [Hok1 Har Hres Hen _]. destruct r as [e|]; wsteps.
  - destruct Hres as (->&?&?). by exists new.
  - apply wp_zoom. destruct Hok1 as [[regs Hb] Hs]. destruct c1 as [[b h] bs ms cl rd ar]. simpl in *.
    eapply wp_Slice; [exact Hb|done|done|]. intros p s' Hbs _. wsteps. exists new. split; [done|]. simpl.
    split; [done|]. split; [done|]. by exists p, regs.
Qed.

(** C25: Slice(n) of a connection waits until n bytes have arrived and then
    takes them off as a reader of their own: the reader holds exactly the next
    n bytes, the connection the rest, and the two share no memory that either
    may still change.  When the peer closes before, it returns ErrEOF and
    leaves what has arrived readable. *)
Theorem conn_Slice_spec fuel n c R :
  conn_ok others c R → (K + 2 ≤ fuel)%nat → 0 < n →
  wp (conn_Slice fuel n) (λ r c', ∃ new, arrived c' = arrived c ++ new ∧ sliced_off n R new r c') c.
Proof. apply wp_conn_Slice. Qed.

(** Slice of a fifo does the same. *)
Lemma fifo_Slice_spec fuel n f R :
  conn_ok others (to_conn f) R → fifo_open f → (K + 2 ≤ fuel)%nat → 0 < n →
  wp (fifo_Slice fuel n) (λ r f', fifo_open f' ∧ ∃ new, f_arrived f' = f_arrived f ++ new ∧ sliced_off n R new r (to_conn f')) f.
Proof.
  intros Hok Ho Hf Hn. eapply wp_mono; [eapply sim_wp; [apply sim_Slice|exact Ho|by apply wp_conn_Slice]|].
  by intros r f' [H1 H2].
Qed.
End slices.

Lemma conn_Slice_spec_witness :
  wp (conn_Slice (rt := demo_rt) demo_input 4 5) (λ r c', ∃ new, arrived c' = [] ++ new ∧ sliced_off [] 5 [] new r c') demo_conn.
Proof.
  apply (conn_Slice_spec (rt := demo_rt) demo_input (rtok := demo_rt_ok) demo_input_ok [] 2 demo_input_ends
    4 5 demo_conn []); [exact demo_conn_ok|lia|lia].
Defined.
