(* ===== verification/OnEvent.v ===== *)
(** * The life of a connection: events, callbacks and closing

    Models src/connection_onevent.go and the reactor side of closing in
    src/connection_reactor.go.  The poller, the users of the connection and the
    tasks that run the callbacks are threads that share the keychain, the state
    and the length of the input buffer; a step is one atomic operation of one
    of them, a callback of the user takes as long as it likes.  The counters
    [g_...] record what happened and no step depends on them. *)

From S2P Require Import Prelude Threads Locker.

Open Scope Z_scope.

Definition connStateNone : Z := 0.
Definition connStateConnected : Z := 1.
Definition connStateDisconnected : Z := 2.

(** The callbacks that are set before the connection is registered; [panics]:
    whether OnConnect and OnRequest may panic. *)
Record callbacks := Callbacks {
  cb_connect : bool;
  cb_disconnect : bool;
  panics : bool;
}.

Record conn := Conn {
  lk : locker;
  cstate : Z;          (** c.state *)
  cb_request : bool;   (** onRequestCallback is set *)
  input : Z;           (** c.inputBuffer.Len() *)
  detached : Z;        (** c.operator.detached *)
  g_detach : nat;      (** calls of poll.Control(PollDetach) *)
  g_close : nat;       (** complete runs of the close callbacks *)
  g_connect : nat;     (** OnConnect was called, *)
  g_connected : nat;   (** and returned *)
  g_disconnect : nat;  (** OnDisconnect was called *)
  g_left : bool;       (** onHup left the close to the user *)
}.

Definition new_conn (request : bool) : conn :=
  Conn new_locker connStateNone request 0 0 0 0 0 0 0 false.

Definition set_lk l s := Conn l (cstate s) (cb_request s) (input s) (detached s)
  (g_detach s) (g_close s) (g_connect s) (g_connected s) (g_disconnect s) (g_left s).
Definition set_cstate x s := Conn (lk s) x (cb_request s) (input s) (detached s)
  (g_detach s) (g_close s) (g_connect s) (g_connected s) (g_disconnect s) (g_left s).
Definition set_request s := Conn (lk s) (cstate s) true (input s) (detached s)
  (g_detach s) (g_close s) (g_connect s) (g_connected s) (g_disconnect s) (g_left s).
Definition set_input x s := Conn (lk s) (cstate s) (cb_request s) x (detached s)
  (g_detach s) (g_close s) (g_connect s) (g_connected s) (g_disconnect s) (g_left s).
Definition count_close s := Conn (lk s) (cstate s) (cb_request s) (input s) (detached s)
  (g_detach s) (S (g_close s)) (g_connect s) (g_connected s) (g_disconnect s) (g_left s).
Definition count_connect s := Conn (lk s) (cstate s) (cb_request s) (input s) (detached s)
  (g_detach s) (g_close s) (S (g_connect s)) (g_connected s) (g_disconnect s) (g_left s).
Definition count_connected s := Conn (lk s) (cstate s) (cb_request s) (input s) (detached s)
  (g_detach s) (g_close s) (g_connect s) (S (g_connected s)) (g_disconnect s) (g_left s).
Definition count_disconnect s := Conn (lk s) (cstate s) (cb_request s) (input s) (detached s)
  (g_detach s) (g_close s) (g_connect s) (g_connected s) (S (g_disconnect s)) (g_left s).
Definition leave_to_user s := Conn (lk s) (cstate s) (cb_request s) (input s) (detached s)
  (g_detach s) (g_close s) (g_connect s) (g_connected s) (g_disconnect s) true.

(** [operator.Control(PollDetach)]: the poll is called the first time only. *)
Definition detach s := Conn (lk s) (cstate s) (cb_request s) (input s) (detached s + 1)
  (if 1 <? detached s + 1 then g_detach s else S (g_detach s))
  (g_close s) (g_connect s) (g_connected s) (g_disconnect s) (g_left s).

(** [changeState(from, to)]: a compare-and-swap *)
Definition changeState (from to : Z) (s : conn) : bool * conn :=
  if cstate s =? from then (true, set_cstate to s) else (false, s).

(** [c.lock(k)] *)
Definition c_lock (k : key) (s : conn) : bool * conn :=
  let r := lock k (lk s) in (r.1, set_lk r.2 s).
Definition c_unlock (k : key) (s : conn) : conn := set_lk (unlock k (lk s)) s.
Definition c_status (k : key) (s : conn) : Z := status k (lk s).
Definition IsActive (s : conn) : bool := isCloseBy none (lk s).

(** Where a thread is. [oc]: it was given OnConnect; [rq]: it was given
    OnRequest; [w]: who closed the connection, as it has read it. *)
Inductive pc :=
(* the task of onProcess *)
| TBegin (oc rq : bool)
| TConnect (rq : bool)          (* in OnConnect *)
| TConnActive (rq : bool)
| TConnDisc (rq : bool)
| TConnOnDisc (rq : bool)       (* in OnDisconnect *)
| TConnUnlock (rq : bool)
| TStart (rq : bool)
| TReqFirst                     (* in OnRequest *)
| TLoad (rq : bool)
| TTest (rq : bool) (w : Z)
| TReq                          (* in OnRequest *)
| TAfter (rq : bool) (w : Z)
| TUnlock (rq : bool)
| TChkClose (rq : bool)
| TChkCloseLock (rq : bool)
| TChkData (rq : bool)
| TChkDataLock
| TPanicUnlock
| TPanicActive
(* closeCallback *)
| CCLock (needDetach : bool)
| CCDetach (needDetach : bool)
| CCUser                        (* in the close callbacks of the user *)
| CCStop                        (* in the finalizer: stop(flushing), *)
| CCFinal                       (* operator.Free, netFD.Close, closeBuffer *)
(* onHup *)
| HDetach
| HBegin
| ODBegin
| ODFree                        (* in OnDisconnect *)
| ODState
| ODLock
| ODChange
| ODRun                         (* in OnDisconnect *)
| ODUnlock
| HEnd
(* onClose *)
| UBegin
| UForce
(* inputAck and onRequest *)
| AAck (n : Z)
| RBegin
| RState
| RProcess
(* SetOnRequest *)
| SSet
| SLen
(* onConnect *)
| NBegin
| NLock
| NProcess (rq : bool)
(* Flush and Write *)
| FActive
| FLock
| FRun                          (* in outputBuffer.Flush and flush *)
| FUnlock
| Done.

(** What the environment decides: how much of the input a callback reads, and
    whether it panics. *)
Inductive choice := Go | Take (n : Z) | Panics.

Section steps.
Context (cb : callbacks).

Definition goto (s : conn) (p : pc) : option (conn * pc * list pc) := Some (s, p, []).

(** A callback that may read the input returns, or panics. *)
Definition callback (s : conn) (c : choice) (f : conn → conn) (p : pc) : option (conn * pc * list pc) :=
  match c with
  | Go => goto (f s) p
  | Take n => if (0 <=? n) && (n <=? input s) then goto (f (set_input (input s - n) s)) p else None
  | Panics => if panics cb then goto s TPanicUnlock else None
  end.

(** The task of onProcess. *)
Definition task_step (s : conn) (p : pc) (c : choice) : option (conn * pc * list pc) :=
  match p with
  | TBegin oc rq =>
      if oc then
        let r := changeState connStateNone connStateConnected s in
        if r.1 then goto (count_connect r.2) (TConnect rq) else goto s (TStart rq)
      else goto s (TStart rq)
  | TConnect rq => callback s c count_connected (TConnActive rq)
  | TConnActive rq => goto s (if IsActive s then TConnUnlock rq else TConnDisc rq)
  | TConnDisc rq =>
      let r := changeState connStateConnected connStateDisconnected s in
      if r.1 && cb_disconnect cb then goto (count_disconnect r.2) (TConnOnDisc rq)
      else goto r.2 (TConnUnlock rq)
  | TConnOnDisc rq => goto s (TConnUnlock rq)
  | TConnUnlock rq => goto (c_unlock connecting s) (TStart rq)
  (* START *)
  | TStart rq => goto s (if rq && (0 <? input s) then TReqFirst else TLoad rq)
  | TReqFirst => callback s c id (TLoad true)
  | TLoad rq => goto s (TTest rq (c_status closing s))
  | TTest rq w =>
      goto s (if (w =? user) || negb rq || (input s =? 0) then TAfter rq w else TReq)
  | TReq => callback s c id (TLoad true)
  | TAfter rq w => goto s (if w =? none then TUnlock rq else CCDetach (w =? user))
  | TUnlock rq => goto (c_unlock processing s) (TChkClose rq)
  | TChkClose rq => goto s (if c_status closing s =? 0 then TChkData rq else TChkCloseLock rq)
  | TChkCloseLock rq =>
      let r := c_lock processing s in goto r.2 (if r.1 then CCDetach false else TChkData rq)
  | TChkData rq => goto s (if rq && (0 <? input s) then TChkDataLock else Done)
  | TChkDataLock => let r := c_lock processing s in goto r.2 (if r.1 then TStart true else Done)
  (* the deferred function, after a panic *)
  | TPanicUnlock => goto (c_unlock processing s) TPanicActive
  | TPanicActive => goto s (if IsActive s then UBegin else CCDetach false)
  | _ => None
  end.

(** closeCallback, with the finalizer as the last callback. *)
Definition closeCallback_step (s : conn) (p : pc) : option (conn * pc * list pc) :=
  match p with
  | CCLock d => let r := c_lock processing s in goto r.2 (if r.1 then CCDetach d else Done)
  | CCDetach d => goto (if d then detach s else s) CCUser
  | CCUser => goto s CCStop
  | CCStop => l ← stop flushing (lk s); goto (set_lk l s) CCFinal
  | CCFinal => goto (count_close s) Done
  | _ => None
  end.

(** appendHup of the poll, onHup and onDisconnect. *)
Definition onHup_step (s : conn) (p : pc) : option (conn * pc * list pc) :=
  match p with
  | HDetach => goto (detach s) HBegin
  | HBegin =>
      let r := closeBy poller (lk s) in goto (set_lk r.2 s) (if r.1 then ODBegin else Done)
  | ODBegin =>
      if negb (cb_disconnect cb) then goto s HEnd
      else if negb (cb_connect cb) then
        goto (count_disconnect (set_cstate connStateDisconnected s)) ODFree
      else goto s ODState
  | ODFree => goto s HEnd
  | ODState => goto s (if cstate s =? connStateNone then HEnd else ODLock)
  | ODLock => let r := c_lock connecting s in goto r.2 (if r.1 then ODChange else HEnd)
  | ODChange =>
      let r := changeState connStateConnected connStateDisconnected s in
      if r.1 then goto (count_disconnect r.2) ODRun else goto s ODUnlock
  | ODRun => goto s ODUnlock
  | ODUnlock => goto (c_unlock connecting s) HEnd
  | HEnd => if cb_connect cb || cb_request s then goto s (CCLock false) else goto (leave_to_user s) Done
  | _ => None
  end.

Definition onClose_step (s : conn) (p : pc) : option (conn * pc * list pc) :=
  match p with
  | UBegin =>
      let r := closeBy user (lk s) in goto (set_lk r.2 s) (if r.1 then CCLock true else UForce)
  | UForce => goto (set_lk (force closing user (lk s)) s) (CCLock false)
  | _ => None
  end.

(** inputAck, onRequest, SetOnRequest and onConnect. *)
Definition onRequest_step (s : conn) (p : pc) : option (conn * pc * list pc) :=
  match p with
  | AAck n => goto (set_input (input s + n) s) (if input s + n =? n then RBegin else Done)
  | RBegin => goto s (if cb_request s then RState else Done)
  | RState => goto s (if (cstate s =? connStateNone) && cb_connect cb then Done else RProcess)
  | RProcess =>
      let r := c_lock processing s in Some (r.2, Done, if r.1 then [TBegin false true] else [])
  | SSet => goto (set_request s) SLen
  | SLen => goto s (if input s =? 0 then Done else RBegin)
  | NBegin =>
      if cb_connect cb then goto s NLock
      else goto (changeState connStateNone connStateConnected s).2 Done
  | NLock =>
      let r := c_lock connecting s in goto r.2 (if r.1 then NProcess (cb_request s) else Done)
  | NProcess rq =>
      let r := c_lock processing s in Some (r.2, Done, if r.1 then [TBegin true rq] else [])
  | _ => None
  end.

(** Flush and Write of the connection. *)
Definition flush_step (s : conn) (p : pc) : option (conn * pc * list pc) :=
  match p with
  | FActive => goto s (if IsActive s then FLock else Done)
  | FLock => let r := c_lock flushing s in goto r.2 (if r.1 then FRun else Done)
  | FRun => goto s FUnlock
  | FUnlock => goto (c_unlock flushing s) Done
  | _ => None
  end.

Definition conn_step (s : conn) (p : pc) (c : choice) : option (conn * pc * list pc) :=
  match p with
  | TBegin _ _ | TConnect _ | TConnActive _ | TConnDisc _ | TConnOnDisc _ | TConnUnlock _
  | TStart _ | TReqFirst | TLoad _ | TTest _ _ | TReq | TAfter _ _ | TUnlock _ | TChkClose _
  | TChkCloseLock _ | TChkData _ | TChkDataLock | TPanicUnlock | TPanicActive => task_step s p c
  | CCLock _ | CCDetach _ | CCUser | CCStop | CCFinal => closeCallback_step s p
  | HDetach | HBegin | ODBegin | ODFree | ODState | ODLock | ODChange | ODRun | ODUnlock | HEnd =>
      onHup_step s p
  | UBegin | UForce => onClose_step s p
  | AAck _ | RBegin | RState | RProcess | SSet | SLen | NBegin | NLock | NProcess _ =>
      onRequest_step s p
  | FActive | FLock | FRun | FUnlock => flush_step s p
  | Done => None
  end.

(** The poller may report data or a hang-up, and the user may close, flush and
    set OnRequest, at any time. *)
Definition conn_starts (p : pc) : bool :=
  match p with
  | HDetach | UBegin | SSet | FActive => true
  | AAck n => 0 <? n
  | _ => false
  end.

(** The connection was registered, and onConnect is called. *)
Definition conn_init (request : bool) : config conn pc := Cfg (new_conn request) [NBegin].

Definition conn_reach (request : bool) (c : config conn pc) : Prop :=
  reach conn_step conn_starts (conn_init request) c.
End steps.

(** All threads have ended. *)
Definition quiescent (ths : list pc) : Prop := Forall (λ p, p = Done) ths.
