(* ===== verification/OnEventInv.v ===== *)
(** * Invariants of a connection's life

    The invariants count the threads that hold a lock: they are proved for
    every interleaving of the steps of [OnEvent]. *)

From S2P Require Import Prelude Threads Locker OnEvent.

Open Scope Z_scope.

(** The threads between taking and releasing [processing]. *)
Definition holds_processing (p : pc) : nat :=
  match p with
  | TBegin _ _ | TConnect _ | TConnActive _ | TConnDisc _ | TConnOnDisc _ | TConnUnlock _
  | TStart _ | TReqFirst | TLoad _ | TTest _ _ | TReq | TAfter _ _ | TUnlock _
  | TPanicUnlock | CCDetach _ | CCUser | CCStop | CCFinal => 1
  | _ => 0
  end.

(** The threads that hold [flushing]. *)
Definition holds_flushing (p : pc) : nat :=
  match p with FRun | FUnlock => 1 | _ => 0 end.

(** A thread that has stopped the flushing. *)
Definition has_stopped (p : pc) : nat := match p with CCFinal => 1 | _ => 0 end.

(** The threads that hold [connecting]: in OnConnect, ... *)
Definition in_connect (p : pc) : nat := match p with TConnect _ => 1 | _ => 0 end.

(** ... in front of it or after it. *)
Definition holds_connecting (p : pc) : nat :=
  match p with
  | NProcess _ | TBegin true _ | TConnActive _ | TConnDisc _ | TConnOnDisc _ | TConnUnlock _
  | ODChange | ODRun | ODUnlock => 1
  | _ => 0
  end.

(** The threads there are with OnConnect only. *)
Definition with_connect (p : pc) : nat :=
  match p with
  | NLock | NProcess _ | TBegin true _ | TConnect _ | TConnActive _ | TConnDisc _ | TConnOnDisc _
  | TConnUnlock _ | ODState | ODLock | ODChange | ODRun | ODUnlock => 1
  | _ => 0
  end.

Definition in_od (p : pc) : nat := match p with ODBegin => 1 | _ => 0 end.

(** A thread that handles a panic. *)
Definition at_panic (p : pc) : nat := match p with TPanicUnlock | TPanicActive => 1 | _ => 0 end.

(** Unfold one step and split its cases. *)
Ltac conn_unfold H :=
  cbv [conn_step task_step closeCallback_step onHup_step onClose_step onRequest_step flush_step
    goto callback c_lock c_unlock c_status IsActive isCloseBy changeState closeBy lock unlock cas
    stop mbind option_bind fst snd id connStateNone connStateConnected connStateDisconnected
    none user poller] in H; simpl in H.
Ltac conn_solve s p Hs :=
  destruct s as [[]]; simpl in *; destruct p; conn_unfold Hs;
  try match goal with E : cb_connect _ = _ |- _ => rewrite !E in Hs; simpl in Hs end; step_case;
  rewrite ?Nat.add_0_r in *; unfold tally in *; simpl in *; try lia.

Section invariants.
Context (cb : callbacks).
Implicit Types (s : conn) (ths : list pc) (p : pc) (c : config conn pc).

(** ** processing *)

(** The lock is held by exactly one thread, or kept after the callbacks ran. *)
Definition lock_inv c : Prop :=
  kc_processing (lk (shared c)) = Z.of_nat (tally holds_processing (threads c) + g_close (shared c)) ∧
  kc_processing (lk (shared c)) <= 1 ∧ tally at_panic (threads c) = 0%nat.

Lemma lock_inv_step s ths i p ch s' p' sp :
  panics cb = false → lock_inv (Cfg s ths) → ths !! i = Some p → conn_step cb s p ch = Some (s', p', sp) →
  lock_inv (Cfg s' (<[i := p']> ths ++ sp)).
Proof.
  intros Hpn (Hl&Hle&Hpc) Hi Hs. unfold lock_inv in *. simpl in *.
  count holds_processing Hi Hs. count at_panic Hi Hs. conn_solve s p Hs.
Qed.

Lemma lock_inv_start s ths p : lock_inv (Cfg s ths) → conn_starts p = true → lock_inv (Cfg s (ths ++ [p])).
Proof. unfold lock_inv. simpl. rewrite !tally_start. by destruct p; simpl; try done; intros; lia. Qed.

(** ** flushing *)

Definition flush_inv c : Prop :=
  let f := kc_flushing (lk (shared c)) in
  0 <= f <= 2 ∧ Z.of_nat (tally holds_flushing (threads c)) = (if f =? 1 then 1 else 0) ∧
  ((0 < tally has_stopped (threads c) + g_close (shared c))%nat → f = 2).

Lemma flush_inv_step s ths i p ch s' p' sp :
  flush_inv (Cfg s ths) → ths !! i = Some p → conn_step cb s p ch = Some (s', p', sp) →
  flush_inv (Cfg s' (<[i := p']> ths ++ sp)).
Proof.
  intros (Hl&Hle&Hpc) Hi Hs. unfold flush_inv in *. simpl in *.
  count holds_flushing Hi Hs. count has_stopped Hi Hs.
  destruct (Z.eqb_spec (kc_flushing (lk s)) 1); conn_solve s p Hs; repeat case_match; lia.
Qed.

Lemma flush_inv_start s ths p : flush_inv (Cfg s ths) → conn_starts p = true → flush_inv (Cfg s (ths ++ [p])).
Proof. unfold flush_inv. simpl. rewrite !tally_start. destruct p; simpl; try done; rewrite ?Nat.add_0_r; done. Qed.

(** ** connecting *)

Definition connect_inv c : Prop :=
  let s := shared c in let l := lk s in
  0 <= kc_connecting l <= 1 ∧
  Z.of_nat (tally in_connect (threads c) + tally holds_connecting (threads c)) <= kc_connecting l ∧
  tally at_panic (threads c) = 0%nat ∧
  (tally in_connect (threads c) + g_connected s = g_connect s)%nat ∧
  (cb_connect cb = true →
     (cstate s = connStateNone ∧ g_connect s = 0%nat ∧ g_disconnect s = 0%nat) ∨
     (cstate s = connStateConnected ∧ g_connect s = 1%nat ∧ g_disconnect s = 0%nat) ∨
     (cstate s = connStateDisconnected ∧ g_connect s = 1%nat ∧ g_connected s = 1%nat ∧
      (g_disconnect s <= 1)%nat)) ∧
  (cb_connect cb = false →
     tally with_connect (threads c) = 0%nat ∧ g_connect s = 0%nat ∧
     Z.of_nat (tally in_od (threads c) + g_disconnect s) <= (if kc_closing l =? 0 then 0 else 1)).

Lemma connect_inv_step s ths i p ch s' p' sp :
  panics cb = false → connect_inv (Cfg s ths) → ths !! i = Some p → conn_step cb s p ch = Some (s', p', sp) →
  connect_inv (Cfg s' (<[i := p']> ths ++ sp)).
Proof.
  intros Hpn (Hl&Hle&Hpc&Hg&Hct&Hcf) Hi Hs. unfold connect_inv in *. simpl in *.
  count in_connect Hi Hs. count holds_connecting Hi Hs. count at_panic Hi Hs.
  count with_connect Hi Hs. count in_od Hi Hs. unfold connStateNone, connStateConnected, connStateDisconnected in *.
  destruct (cb_connect cb) eqn:Ec; [clear Hcf; specialize (Hct eq_refl)|clear Hct; specialize (Hcf eq_refl)].
  - conn_solve s p Hs; split_and!; intros; try done; lia.
  - conn_solve s p Hs; split_and!; intros; try done; repeat case_match; lia.
Qed.

Lemma connect_inv_start s ths p :
  connect_inv (Cfg s ths) → conn_starts p = true → connect_inv (Cfg s (ths ++ [p])).
Proof. unfold connect_inv. simpl. rewrite !tally_start. destruct p; simpl; try done; rewrite ?Nat.add_0_r; done. Qed.
End invariants.
