(* ===== verification/OnEventClose.v ===== *)
(** * Closing a connection and delivering its data

    What holds when all threads have ended: a connection that was closed has
    run its close callbacks, and the input of an open one was given to
    OnRequest. *)

From S2P Require Import Prelude Threads Locker OnEvent OnEventInv.

Open Scope Z_scope.

(** The threads that will try to take [processing] to run the close callbacks. *)
Definition will_close (p : pc) : nat :=
  match p with TChkClose _ | TChkCloseLock _ | CCLock _ => 1 | _ => 0 end.

(** The threads of onHup that have not reached closeCallback. *)
Definition in_hup (p : pc) : nat :=
  match p with ODBegin | ODFree | ODState | ODLock | ODChange | ODRun | ODUnlock | HEnd => 1 | _ => 0 end.

Definition at_hup (p : pc) : nat := match p with HBegin => 1 | _ => 0 end.

Section close.
Context (cb : callbacks).
Implicit Types (s : conn) (ths : list pc) (p : pc) (c : config conn pc).

(** Some thread will see to the callbacks of a connection that was closed. *)
Definition close_inv c : Prop :=
  let s := shared c in let w := kc_closing (lk s) in
  0 <= w <= 2 ∧
  (w = user → (0 < tally holds_processing (threads c) + tally will_close (threads c) + g_close s)%nat) ∧
  (w = poller → g_left s = false →
    (0 < tally holds_processing (threads c) + tally will_close (threads c) + tally in_hup (threads c) +
      g_close s)%nat).

Lemma close_inv_step s ths i p ch s' p' sp :
  panics cb = false → lock_inv (Cfg s ths) → close_inv (Cfg s ths) → ths !! i = Some p →
  conn_step cb s p ch = Some (s', p', sp) → close_inv (Cfg s' (<[i := p']> ths ++ sp)).
Proof.
  intros Hpn (Hl&Hle&Hpc) (Hw&Hu&Hh) Hi Hs. unfold close_inv, user, poller in *. simpl in *.
  count holds_processing Hi Hs. count will_close Hi Hs. count in_hup Hi Hs. count at_panic Hi Hs.
  destruct (g_left s) eqn:Eg; conn_solve s p Hs; split_and!; intros; try done; lia.
Qed.

Lemma close_inv_start s ths p :
  close_inv (Cfg s ths) → conn_starts p = true → close_inv (Cfg s (ths ++ [p])).
Proof. unfold close_inv. simpl. rewrite !tally_start. destruct p; simpl; try done; rewrite ?Nat.add_0_r; done. Qed.

(** The poll is told at most once to forget the descriptor, and before onHup. *)
Definition detach_inv c : Prop :=
  let s := shared c in
  0 <= detached s ∧ g_detach s = (if 0 <? detached s then 1%nat else 0%nat) ∧
  (kc_closing (lk s) = poller ∨ (0 < tally at_hup (threads c))%nat → 0 < detached s).

Lemma detach_inv_step s ths i p ch s' p' sp :
  detach_inv (Cfg s ths) → ths !! i = Some p →
  conn_step cb s p ch = Some (s', p', sp) → detach_inv (Cfg s' (<[i := p']> ths ++ sp)).
Proof.
  intros (Hw&Hu&Hh) Hi Hs. unfold detach_inv, poller in *. simpl in *. count at_hup Hi Hs.
  destruct (Z.ltb_spec 0 (detached s)); conn_solve s p Hs; split_and!; intros; repeat case_match; try lia.
Qed.

Lemma detach_inv_start s ths p :
  detach_inv (Cfg s ths) → conn_starts p = true → detach_inv (Cfg s (ths ++ [p])).
Proof. unfold detach_inv. simpl. rewrite !tally_start. destruct p; simpl; try done; rewrite ?Nat.add_0_r; done. Qed.
End close.
