(* ===== verification/OnEventData.v ===== *)
(** * The input of a connection reaches OnRequest

    As long as the connection is open, some thread will call OnRequest when
    there is input: no wake-up is lost between a task that exits and a poller
    that has just stored data. *)

From S2P Require Import Prelude Threads Locker OnEvent OnEventInv.

Open Scope Z_scope.

(** The threads there are only after the connection was closed. *)
Definition after_close (p : pc) : nat :=
  match p with
  | CCLock _ | CCDetach _ | CCUser | CCStop | CCFinal | UForce | TChkCloseLock _
  | ODBegin | ODFree | ODState | ODLock | ODChange | ODRun | ODUnlock | HEnd => 1
  | TTest _ w | TAfter _ w => if w =? 0 then 0 else 1
  | _ => 0
  end.

(** The threads that will call onRequest, or see whether there is data. *)
Definition will_read (p : pc) : nat :=
  match p with RBegin | RState | RProcess | TChkClose _ | TChkData _ | TChkDataLock => 1 | _ => 0 end.

(** onConnect before and after it has taken [connecting], ... *)
Definition before_lock (p : pc) : nat := match p with NBegin | NLock => 1 | _ => 0 end.
Definition at_process (p : pc) : nat := match p with NProcess _ => 1 | _ => 0 end.
(** ... and the beginning of its task. *)
Definition first_task (p : pc) : nat := match p with TBegin true _ => 1 | _ => 0 end.

(** The threads there are only after OnConnect was called. *)
Definition after_connect (p : pc) : nat :=
  match p with
  | TBegin false _ | TConnect _ | TConnActive _ | TConnDisc _ | TConnOnDisc _ | TConnUnlock _
  | TStart _ | TReqFirst | TLoad _ | TTest _ _ | TReq | TAfter _ _ | TUnlock _ | TChkClose _
  | TChkData _ | TChkDataLock | RProcess => 1
  | _ => 0
  end.

(** The threads that were not given OnRequest. *)
Definition no_request (p : pc) : nat :=
  match p with
  | TBegin _ false | TConnect false | TConnActive false | TConnDisc false | TConnOnDisc false
  | TConnUnlock false | TStart false | TLoad false | TTest false _ | TAfter false _ | TUnlock false
  | TChkClose false | TChkCloseLock false | TChkData false | NProcess false => 1
  | AAck n => if 0 <? n then 0 else 1
  | _ => 0
  end.

Section data.
Context (cb : callbacks).
Implicit Types (s : conn) (ths : list pc) (p : pc) (c : config conn pc).

Definition open_inv c : Prop :=
  kc_closing (lk (shared c)) = 0 → tally after_close (threads c) = 0%nat ∧ g_close (shared c) = 0%nat.

Lemma open_inv_step s ths i p ch s' p' sp :
  panics cb = false → tally at_panic ths = 0%nat → open_inv (Cfg s ths) → ths !! i = Some p →
  conn_step cb s p ch = Some (s', p', sp) → open_inv (Cfg s' (<[i := p']> ths ++ sp)).
Proof.
  intros Hpn Hpc Ho Hi Hs. unfold open_inv in *. simpl in *.
  count after_close Hi Hs. count at_panic Hi Hs.
  conn_solve s p Hs; intros; repeat case_match; subst; try lia.
Qed.

(** onConnect is called once. *)
Definition once_inv c : Prop :=
  cb_connect cb = true →
  let n := (tally before_lock (threads c) + tally at_process (threads c) + tally first_task (threads c))%nat in
  (n ≤ 1)%nat ∧ (cstate (shared c) ≠ connStateNone → n = 0%nat).

Lemma once_inv_step s ths i p ch s' p' sp :
  once_inv (Cfg s ths) → ths !! i = Some p →
  conn_step cb s p ch = Some (s', p', sp) → once_inv (Cfg s' (<[i := p']> ths ++ sp)).
Proof.
  intros Ho Hi Hs Hc. specialize (Ho Hc). unfold connStateNone in *. simpl in *.
  count before_lock Hi Hs. count at_process Hi Hs. count first_task Hi Hs.
  conn_solve s p Hs; intros; repeat case_match; subst; try done; try lia.
Qed.

(** Before OnConnect is called, nothing but onConnect uses the locks. *)
Definition start_inv c : Prop :=
  let s := shared c in
  cb_connect cb = true → cstate s = connStateNone → kc_closing (lk s) = 0 →
  tally after_connect (threads c) = 0%nat ∧
  (tally before_lock (threads c) + tally at_process (threads c) + tally first_task (threads c) = 1)%nat ∧
  kc_connecting (lk s) = Z.of_nat (tally at_process (threads c) + tally first_task (threads c)).

Lemma start_inv_step s ths i p ch s' p' sp :
  panics cb = false → lock_inv (Cfg s ths) → open_inv (Cfg s ths) → start_inv (Cfg s ths) →
  ths !! i = Some p → conn_step cb s p ch = Some (s', p', sp) → start_inv (Cfg s' (<[i := p']> ths ++ sp)).
Proof.
  intros Hpn (Hl&Hle&Hpc) Ho Hst Hi Hs. unfold start_inv, open_inv, connStateNone in *. simpl in *.
  intros Hc. specialize (Hst Hc).
  count after_connect Hi Hs. count before_lock Hi Hs. count first_task Hi Hs. count at_process Hi Hs.
  count after_close Hi Hs. count at_panic Hi Hs.
  assert (tally holds_processing ths ≤ tally first_task ths + tally after_connect ths +
    tally after_close ths + tally at_panic ths)%nat as Hh.
  { rewrite <- !tally_plus. apply tally_le. intros q. destruct q; simpl; repeat case_match; lia. }
  conn_solve s p Hs; intros; repeat case_match; subst; try lia.
Qed.

(** OnRequest was set before the connection was registered. *)
Definition data_inv c : Prop :=
  let s := shared c in
  cb_request s = true ∧ 0 <= input s ∧ tally no_request (threads c) = 0%nat ∧
  (kc_closing (lk s) = 0 → 0 < input s →
    (0 < tally holds_processing (threads c) + tally will_read (threads c) +
       (if cb_connect cb then tally before_lock (threads c) + tally at_process (threads c) else 0))%nat).

Lemma data_inv_step s ths i p ch s' p' sp :
  panics cb = false → lock_inv (Cfg s ths) → open_inv (Cfg s ths) → once_inv (Cfg s ths) →
  start_inv (Cfg s ths) → data_inv (Cfg s ths) →
  ths !! i = Some p → conn_step cb s p ch = Some (s', p', sp) → data_inv (Cfg s' (<[i := p']> ths ++ sp)).
Proof.
  intros Hpn (Hl&Hle&Hpc) Ho Hon Hst (Hrq&Hin&Hno&Hd) Hi Hs.
  unfold data_inv, start_inv, once_inv, open_inv, connStateNone in *.
  simpl in *. count holds_processing Hi Hs. count will_read Hi Hs. count before_lock Hi Hs. count at_process Hi Hs.
  count no_request Hi Hs. count after_close Hi Hs. count at_panic Hi Hs.
  assert (tally first_task ths ≤ tally holds_processing ths)%nat as Hh.
  { apply tally_le. intros q. destruct q; simpl; repeat case_match; lia. }
  destruct (cb_connect cb) eqn:Ec; conn_solve s p Hs; split_and!; intros; repeat case_match; subst; try done; try lia.
Qed.
End data.
