(* ===== verification/OnEventTheorems.v ===== *)
(** * The properties of a connection's life

    Safety of every interleaving, what is left when all threads have ended, and
    the executions that go wrong. *)

From S2P Require Import Prelude Threads Locker OnEvent OnEventInv OnEventClose OnEventData.

Open Scope Z_scope.

(** The threads that run OnConnect, OnDisconnect as part of the task of
    OnConnect, OnRequest, or the close callbacks. *)
Definition in_callback (p : pc) : nat :=
  match p with TConnect _ | TConnOnDisc _ | TReqFirst | TReq | CCUser | CCStop | CCFinal => 1 | _ => 0 end.

(** The threads that run OnDisconnect after OnConnect. *)
Definition in_disconnect (p : pc) : nat := match p with TConnOnDisc _ | ODRun => 1 | _ => 0 end.

Section reach.
Context (cb : callbacks).

Record conn_inv (request : bool) (c : config conn pc) : Prop := ConnInv {
  ci_lock : lock_inv c;
  ci_flush : flush_inv c;
  ci_connect : connect_inv cb c;
  ci_close : close_inv c;
  ci_detach : detach_inv c;
  ci_open : open_inv c;
  ci_once : once_inv cb c;
  ci_start : start_inv cb c;
  ci_data : request = true → data_inv cb c;
}.

Lemma conn_inv_init request : conn_inv request (conn_init request).
Proof.
  constructor; unfold lock_inv, flush_inv, connect_inv, close_inv, detach_inv, open_inv, once_inv, start_inv,
    data_inv, tally, connStateNone, connStateConnected, connStateDisconnected, user, poller; simpl;
    intros; subst; try (split_and!; intros; done || lia || (left; done)).
  all: repeat case_match; lia.
Qed.

Lemma conn_inv_start request s ths p :
  conn_inv request (Cfg s ths) → conn_starts p = true → conn_inv request (Cfg s (ths ++ [p])).
Proof.
  intros [] Hp. constructor; auto using lock_inv_start, flush_inv_start, connect_inv_start, close_inv_start,
    detach_inv_start.
  - unfold open_inv in *. simpl in *. rewrite !tally_start. destruct p; simpl in *; try done; rewrite ?Nat.add_0_r; done.
  - unfold once_inv in *. simpl in *. rewrite !tally_start. destruct p; simpl in *; try done; rewrite ?Nat.add_0_r; done.
  - unfold start_inv in *. simpl in *. rewrite !tally_start. destruct p; simpl in *; try done; rewrite ?Nat.add_0_r; done.
  - intros ->. specialize (ci_data0 eq_refl). unfold data_inv in *. simpl in *. rewrite !tally_start.
    destruct p; simpl in *; try done; rewrite ?Hp, ?Nat.add_0_r; try done.
Qed.

Lemma conn_inv_reach request c :
  panics cb = false → conn_reach cb request c → conn_inv request c.
Proof.
  intros Hpn Hr. refine (reach_inv _ _ (conn_inv request) _ _ _ _ Hr (conn_inv_init request)).
  - intros s ths i p ch s' p' sp [] Hi Hs. constructor; eauto using lock_inv_step, flush_inv_step, connect_inv_step,
      close_inv_step, detach_inv_step, open_inv_step, once_inv_step, start_inv_step, data_inv_step.
    eapply open_inv_step; eauto. apply ci_lock0.
  - intros s ths p. apply conn_inv_start.
Qed.

Lemma quiescent_tally ths f : quiescent ths → f Done = 0%nat → tally f ths = 0%nat.
Proof.
  intros Hq Hf. apply tally_zero. intros p Hp. unfold quiescent in Hq. rewrite Forall_forall in Hq.
  by rewrite (Hq p Hp).
Qed.

(** C6: as long as no callback panics, OnConnect, OnRequest and the close
    callbacks never run at the same time, the close callbacks run at most once,
    and neither OnConnect nor OnRequest runs after them, whatever the poller and
    the users do.  The same holds of the OnDisconnect that the task of OnConnect
    calls, but not of the OnDisconnect that onHup calls: that one is not covered,
    and can start after the close callbacks have run. *)
Theorem conn_callbacks_exclusive request c :
  panics cb = false → conn_reach cb request c →
  (tally in_callback (threads c) + g_close (shared c) ≤ 1)%nat.
Proof.
  intros Hpn Hr. destruct (conn_inv_reach _ _ Hpn Hr) as [(Hl&Hle&_) _ _ _ _ _ _ _ _].
  assert (tally in_callback (threads c) ≤ tally holds_processing (threads c))%nat.
  { apply tally_le. intros p. destruct p; simpl; lia. }
  lia.
Qed.

(** C5: as long as no callback panics, when all threads have ended, a
    connection the user has closed has run its close callbacks exactly once; a
    connection the poller has closed has, too, unless onHup found neither
    OnConnect nor OnRequest and left it to the user.  So no order of the events
    leaks the connection.  A callback that panics can make the close callbacks
    run twice. *)
Theorem conn_close_complete request c :
  panics cb = false → conn_reach cb request c → quiescent (threads c) →
  kc_closing (lk (shared c)) ≠ none →
  g_close (shared c) = 1%nat ∨ kc_closing (lk (shared c)) = poller ∧ g_left (shared c) = true.
Proof.
  intros Hpn Hr Hq Hc. destruct (conn_inv_reach _ _ Hpn Hr) as [(Hl&Hle&_) _ _ (Hw&Hu&Hp) _ _ _ _ _].
  rewrite (quiescent_tally _ holds_processing) in * by done.
  rewrite (quiescent_tally _ will_close) in * by done. rewrite (quiescent_tally _ in_hup) in * by done.
  unfold none, user, poller in *. destruct (g_left (shared c)); [|left; lia].
  destruct (decide (kc_closing (lk (shared c)) = 2)); [by right|]. left. lia.
Qed.

(** C4: as long as no callback panics, when OnRequest was set from the start, all threads have ended and the
    connection is open, then OnRequest has been offered all of the input: no
    wake-up is lost, in particular not when data arrives while a task is about
    to exit or before OnConnect has returned. *)
Theorem conn_no_lost_input c :
  panics cb = false → conn_reach cb true c → quiescent (threads c) →
  kc_closing (lk (shared c)) = none → input (shared c) = 0.
Proof.
  intros Hpn Hr Hq Hc. destruct (conn_inv_reach _ _ Hpn Hr) as [_ _ _ _ _ _ _ _ Hd].
  destruct (Hd eq_refl) as (_&Hin&_&Hd'). unfold none in Hc. specialize (Hd' Hc).
  rewrite (quiescent_tally _ holds_processing), (quiescent_tally _ will_read),
    (quiescent_tally _ before_lock), (quiescent_tally _ at_process) in Hd' by done.
  destruct (cb_connect cb); lia.
Qed.

(** OnConnect and OnDisconnect are called at most once each; with both set,
    OnDisconnect is called only after OnConnect has returned. *)
Theorem conn_disconnect_once request c :
  panics cb = false → conn_reach cb request c →
  (g_connect (shared c) ≤ 1)%nat ∧ (g_disconnect (shared c) ≤ 1)%nat ∧
  (cb_connect cb = true → (0 < g_disconnect (shared c))%nat → g_connected (shared c) = 1%nat) ∧
  (tally in_connect (threads c) + tally in_disconnect (threads c) ≤ 1)%nat.
Proof.
  intros Hpn Hr. destruct (conn_inv_reach _ _ Hpn Hr) as [_ _ (Hc&Hl&_&Hg&Ht&Hf) _ _ _ _ _ _].
  assert (tally in_disconnect (threads c) ≤ tally holds_connecting (threads c))%nat.
  { apply tally_le. intros p. destruct p; simpl; repeat case_match; lia. }
  destruct (cb_connect cb).
  - specialize (Ht eq_refl). split_and!; intros; lia.
  - destruct (Hf eq_refl) as (Hw&Hg0&Hd).
    assert (tally in_connect (threads c) ≤ tally with_connect (threads c))%nat.
    { apply tally_le. intros p. destruct p; simpl; repeat case_match; lia. }
    split_and!; intros; repeat case_match; try done; try lia.
Qed.

(** The finalizer closes the buffers only when no Flush or Write uses the
    output buffer, and none can start any more. *)
Theorem conn_flush_excludes_close request c :
  panics cb = false → conn_reach cb request c →
  (tally holds_flushing (threads c) ≤ 1)%nat ∧
  ((0 < tally has_stopped (threads c) + g_close (shared c))%nat →
    tally holds_flushing (threads c) = 0%nat ∧ (c_lock flushing (shared c)).1 = false).
Proof.
  intros Hpn Hr. destruct (conn_inv_reach _ _ Hpn Hr) as [_ (Hf&Ht&Hs) _ _ _ _ _ _ _].
  split; [repeat case_match; lia|]. intros H. specialize (Hs H). rewrite Hs in Ht. simpl in Ht.
  unfold c_lock, lock, cas. simpl. rewrite Hs. simpl. split; [lia|done].
Qed.

(** The poll is told at most once to forget the descriptor, and has been
    when the poller has closed the connection. *)
Theorem conn_detach_once request c :
  panics cb = false → conn_reach cb request c →
  (g_detach (shared c) ≤ 1)%nat ∧ (kc_closing (lk (shared c)) = poller → g_detach (shared c) = 1%nat).
Proof.
  intros Hpn Hr. destruct (conn_inv_reach _ _ Hpn Hr) as [_ _ _ _ (Hd&Hg&Hp) _ _ _ _].
  rewrite Hg. split; [case_match; lia|]. intros Hc. rewrite (proj2 (Z.ltb_lt _ _)); [done|]. apply Hp. by left.
Qed.
End reach.

(** ** Examples *)

(** Data arrives, OnRequest reads it, the peer hangs up. *)
Definition demo_cb : callbacks := Callbacks true true false.

Definition demo_acts : list (act pc choice) :=
  (* onConnect starts its task, data arrives while OnConnect runs *)
  [Run 0 Go; Run 0 Go; Run 0 Go; Run 1 Go; Start (AAck 5); Run 2 Go; Run 2 Go; Run 2 Go; Run 2 Go;
  (* OnConnect returns, OnRequest reads 3 bytes and then 2 *)
   Run 1 Go; Run 1 Go; Run 1 Go; Run 1 Go; Run 1 (Take 3); Run 1 Go; Run 1 Go; Run 1 (Take 2);
   Run 1 Go; Run 1 Go; Run 1 Go; Run 1 Go; Run 1 Go; Run 1 Go].

Definition hup_acts : list (act pc choice) :=
  [Start HDetach; Run 3 Go; Run 3 Go; Run 3 Go; Run 3 Go; Run 3 Go; Run 3 Go; Run 3 Go; Run 3 Go;
   Run 3 Go; Run 3 Go; Run 3 Go; Run 3 Go; Run 3 Go; Run 3 Go].

Definition acts_config (cb : callbacks) (request : bool) (l : list (act pc choice)) : config conn pc :=
  default (conn_init request) (run_acts (conn_step cb) conn_starts l (conn_init request)).

Lemma acts_config_reach cb request l : conn_reach cb request (acts_config cb request l).
Proof.
  unfold acts_config. destruct (run_acts _ _ l _) as [c|] eqn:E; simpl; [|apply rtc_refl].
  by eapply run_acts_reach.
Qed.

Lemma demo_acts_state :
  let c := acts_config demo_cb true demo_acts in
  threads c = [Done; Done; Done] ∧ input (shared c) = 0 ∧ cstate (shared c) = connStateConnected.
Proof. vm_compute. done. Qed.

Lemma hup_acts_state :
  let c := acts_config demo_cb true (demo_acts ++ hup_acts) in
  threads c = [Done; Done; Done; Done] ∧ g_close (shared c) = 1%nat ∧ g_disconnect (shared c) = 1%nat.
Proof. vm_compute. done. Qed.

Lemma conn_callbacks_exclusive_witness :
  let c := acts_config demo_cb true (demo_acts ++ hup_acts) in
  g_close (shared c) = 1%nat ∧ (tally in_callback (threads c) + g_close (shared c) ≤ 1)%nat.
Proof.
  split; [vm_compute; reflexivity|].
  apply (conn_callbacks_exclusive demo_cb true); [reflexivity|apply acts_config_reach].
Defined.

Lemma conn_close_complete_witness :
  let c := acts_config demo_cb true (demo_acts ++ hup_acts) in
  g_close (shared c) = 1%nat ∨ kc_closing (lk (shared c)) = poller ∧ g_left (shared c) = true.
Proof.
  apply (conn_close_complete demo_cb true); [reflexivity|apply acts_config_reach| |vm_compute; done].
  vm_compute. by repeat constructor.
Defined.

Lemma conn_no_lost_input_witness : input (shared (acts_config demo_cb true demo_acts)) = 0.
Proof.
  apply (conn_no_lost_input demo_cb); [reflexivity|apply acts_config_reach| |vm_compute; reflexivity].
  vm_compute. by repeat constructor.
Defined.

Lemma conn_disconnect_once_witness :
  let c := acts_config demo_cb true (demo_acts ++ hup_acts) in
  g_disconnect (shared c) = 1%nat ∧ g_connected (shared c) = 1%nat.
Proof.
  destruct (conn_disconnect_once demo_cb true (acts_config demo_cb true (demo_acts ++ hup_acts)))
    as (_&_&Hc&_); [reflexivity|apply acts_config_reach|].
  split; [vm_compute; reflexivity|]. apply Hc; [reflexivity|vm_compute; lia].
Defined.

Lemma conn_flush_excludes_close_witness :
  let c := acts_config demo_cb true (demo_acts ++ hup_acts) in
  tally holds_flushing (threads c) = 0%nat ∧ (c_lock flushing (shared c)).1 = false.
Proof.
  destruct (conn_flush_excludes_close demo_cb true (acts_config demo_cb true (demo_acts ++ hup_acts)))
    as (_&Hc); [reflexivity|apply acts_config_reach|]. apply Hc. vm_compute. lia.
Defined.

Lemma conn_detach_once_witness :
  g_detach (shared (acts_config demo_cb true (demo_acts ++ hup_acts))) = 1%nat.
Proof.
  destruct (conn_detach_once demo_cb true (acts_config demo_cb true (demo_acts ++ hup_acts)))
    as (_&Hc); [reflexivity|apply acts_config_reach|]. apply Hc. vm_compute. reflexivity.
Defined.

(** ** Executions that go wrong *)

(** The user closes the connection between the last look of the task at
    [closing] and its release of [processing]: the task then runs the close
    callbacks on behalf of the poller, which has not detached the operator, and
    neither does the user.  The descriptor stays registered in the poll, for
    good when Detach was called and the descriptor is not closed. *)
Lemma user_close_without_detach :
  let cb := Callbacks false false false in
  let c := acts_config cb true
    [Run 0 Go; Start (AAck 5); Run 1 Go; Run 1 Go; Run 1 Go; Run 1 Go;
     Run 2 Go; Run 2 Go; Run 2 (Take 5); Run 2 Go; Run 2 Go; Run 2 Go;
     Start UBegin; Run 3 Go; Run 3 Go;
     Run 2 Go; Run 2 Go; Run 2 Go; Run 2 Go; Run 2 Go; Run 2 Go; Run 2 Go] in
  conn_reach cb true c ∧ quiescent (threads c) ∧ kc_closing (lk (shared c)) = user ∧
  g_close (shared c) = 1%nat ∧ g_detach (shared c) = 0%nat.
Proof.
  split; [apply acts_config_reach|]. split; [vm_compute; by repeat constructor|]. vm_compute. done.
Qed.

(** OnConnect sets OnRequest after data has arrived: the task of onConnect was
    not given OnRequest, and SetOnRequest finds it running.  The data is never
    delivered, and later data does not start a task either, since the input
    buffer is not empty. *)
Lemma late_OnRequest_starves :
  let cb := Callbacks true false false in
  let acts := [Run 0 Go; Run 0 Go; Run 0 Go; Run 1 Go; Start (AAck 5); Run 2 Go; Run 2 Go;
     Start SSet; Run 3 Go; Run 3 Go; Run 3 Go; Run 3 Go; Run 3 Go;
     Run 1 Go; Run 1 Go; Run 1 Go; Run 1 Go; Run 1 Go; Run 1 Go; Run 1 Go; Run 1 Go; Run 1 Go; Run 1 Go] in
  let c := acts_config cb false acts in
  let c' := acts_config cb false (acts ++ [Start (AAck 3); Run 4 Go]) in
  conn_reach cb false c ∧ quiescent (threads c) ∧ kc_closing (lk (shared c)) = none ∧
  cb_request (shared c) = true ∧ input (shared c) = 5 ∧
  quiescent (threads c') ∧ input (shared c') = 8.
Proof.
  split; [apply acts_config_reach|]. split; [vm_compute; by repeat constructor|].
  split_and!; try (vm_compute; reflexivity). vm_compute. by repeat constructor.
Qed.

(** OnRequest panics while the peer hangs up: the deferred function releases
    [processing] and runs the close callbacks without it, and so does onHup. *)
Lemma panic_closes_twice :
  let cb := Callbacks false false true in
  let c := acts_config cb true
    [Run 0 Go; Start (AAck 5); Run 1 Go; Run 1 Go; Run 1 Go; Run 1 Go; Run 2 Go; Run 2 Go;
     Start HDetach; Run 3 Go; Run 3 Go; Run 3 Go; Run 3 Go;
     Run 2 Panics; Run 2 Go; Run 2 Go; Run 3 Go;
     Run 2 Go; Run 2 Go; Run 2 Go; Run 2 Go; Run 3 Go; Run 3 Go; Run 3 Go; Run 3 Go] in
  conn_reach cb true c ∧ g_close (shared c) = 2%nat.
Proof. split; [apply acts_config_reach|]. vm_compute. done. Qed.

(** The task of OnRequest sees that the poller has closed the connection, and
    runs the close callbacks, before onHup has called OnDisconnect, which is
    then called for a connection that is already torn down. *)
Lemma disconnect_after_close :
  let cb := Callbacks false true false in
  let c := acts_config cb true
    [Run 0 Go; Start (AAck 5); Run 1 Go; Run 1 Go; Run 1 Go; Run 1 Go; Run 2 Go; Run 2 Go; Run 2 (Take 5);
     Start HDetach; Run 3 Go; Run 3 Go;
     Run 2 Go; Run 2 Go; Run 2 Go; Run 2 Go; Run 2 Go; Run 2 Go; Run 2 Go; Run 3 Go] in
  conn_reach cb true c ∧ g_close (shared c) = 1%nat ∧ threads c !! 3%nat = Some ODFree ∧ g_disconnect (shared c) = 1%nat.
Proof. split; [apply acts_config_reach|]. vm_compute. done. Qed.
