(* ===== verification/FDOperator.v ===== *)
(** * Operators and their cache

    Models src/fd_operator.go and src/fd_operator_cache.go.  Operators live in
    a heap; the callbacks of an operator are identified by numbers.  The words
    [locked] and [freelocked] of the cache are spin locks that every function
    takes and releases: the functions run one after the other. *)

From S2P Require Import Prelude GoMem LinkNode Threads.

Open Scope Z_scope.

(** A word of 32 bits, as a signed number. *)
Definition int32 (z : Z) : Z := (z + 2 ^ 31) mod 2 ^ 32 - 2 ^ 31.

Record FDOperator := Operator {
  FD : Z;
  OnRead : option nat;
  OnWrite : option nat;
  OnHup : option nat;
  Inputs : option nat;
  InputAck : option nat;
  Outputs : option nat;
  OutputAck : option nat;
  op_poll : option nat;
  op_detached : Z;
  op_next : option nat;
  op_state : Z;   (* 0 unused, 1 in use, 2 between do and done *)
  op_index : Z;
}.

Definition set_op_next x op := Operator (FD op) (OnRead op) (OnWrite op) (OnHup op) (Inputs op)
  (InputAck op) (Outputs op) (OutputAck op) (op_poll op) (op_detached op) x (op_state op) (op_index op).
Definition set_op_state x op := Operator (FD op) (OnRead op) (OnWrite op) (OnHup op) (Inputs op)
  (InputAck op) (Outputs op) (OutputAck op) (op_poll op) (op_detached op) (op_next op) x (op_index op).
Definition set_op_detached x op := Operator (FD op) (OnRead op) (OnWrite op) (OnHup op) (Inputs op)
  (InputAck op) (Outputs op) (OutputAck op) (op_poll op) x (op_next op) (op_state op) (op_index op).
Definition set_op_poll x op := Operator (FD op) (OnRead op) (OnWrite op) (OnHup op) (Inputs op)
  (InputAck op) (Outputs op) (OutputAck op) x (op_detached op) (op_next op) (op_state op) (op_index op).

Inductive PollEvent := PollReadable | PollWritable | PollDetach | PollR2RW | PollRW2R.

#[global] Instance PollEvent_eq_dec : EqDecision PollEvent.
Proof. solve_decision. Defined.

(** Control: whether the poll is called, and the operator after it. *)
Definition op_Control (event : PollEvent) (op : FDOperator) : bool * FDOperator :=
  if decide (event = PollDetach) then
    let d := int32 (op_detached op + 1) in (negb (1 <? d), set_op_detached d op)
  else (true, op).

Definition op_do (op : FDOperator) : bool * FDOperator :=
  if op_state op =? 1 then (true, set_op_state 2 op) else (false, op).
Definition op_done (op : FDOperator) : FDOperator := set_op_state 1 op.

(** A round of the loops of inuse and unused: [None] when it has to wait. *)
Definition op_inuse (op : FDOperator) : option FDOperator :=
  if op_state op =? 0 then Some (set_op_state 1 op)
  else if op_state op =? 1 then Some op else None.
Definition op_unused (op : FDOperator) : option FDOperator :=
  if op_state op =? 1 then Some (set_op_state 0 op)
  else if op_state op =? 0 then Some op else None.
Definition op_isUnused (op : FDOperator) : bool := op_state op =? 0.

Definition op_reset (op : FDOperator) : FDOperator :=
  Operator 0 None None None None None None None None 0 (op_next op) (op_state op) (op_index op).

(** ** The cache *)

Record operatorCache := Cache {
  oc_first : option nat;
  oc_cache : list nat;
  oc_freelist : list Z;
}.

(** The operators, and the location of the next one. *)
Record ostate := OState {
  oc : operatorCache;
  ops : gmap nat FDOperator;
  ops_fresh : nat;
}.

Definition newOperatorCache : operatorCache := Cache None [] [].

(** [unsafe.Sizeof(FDOperator{})] on a 64-bit machine. *)
Definition opSize : Z := 104.

(** The loop of alloc. *)
Fixpoint alloc_loop (n : nat) (index : Z) (c : ostate) : ostate :=
  match n with
  | O => c
  | S n =>
      let pd := ops_fresh c in
      let op := Operator 0 None None None None None None None None 0 (oc_first (oc c)) 0 index in
      alloc_loop n (int32 (index + 1))
        (OState (Cache (Some pd) (oc_cache (oc c) ++ [pd]) (oc_freelist (oc c)))
                (<[pd := op]> (ops c)) (S pd))
  end.

Definition alloc_grow : M ostate unit := λ c,
  match oc_first (oc c) with
  | None =>
      let n := block4k / opSize in
      let n := if n =? 0 then 1 else n in
      Ret (tt, alloc_loop (Z.to_nat n) (int32 (zlen (oc_cache (oc c)))) c)
  | Some _ => Ret (tt, c)
  end.

Definition alloc_take : M ostate nat := λ c,
  match oc_first (oc c) with
  | None => Panic
  | Some l =>
      match ops c !! l with
      | None => Panic
      | Some op =>
          Ret (l, OState (Cache (op_next op) (oc_cache (oc c)) (oc_freelist (oc c))) (ops c) (ops_fresh c))
      end
  end.

Definition alloc : M ostate nat := _ ← alloc_grow; alloc_take.

(** freeable marks the operator that could be freed; [None] as long as the
    operator is between do and done. *)
Definition freeable (l : nat) (c : ostate) : option ostate :=
  op ← ops c !! l;
  op ← op_unused op;
  let op := op_reset op in
  Some (OState (Cache (oc_first (oc c)) (oc_cache (oc c)) (oc_freelist (oc c) ++ [op_index op]))
               (<[l := op]> (ops c)) (ops_fresh c)).

(** The loop of free. *)
Definition free_one (idx : Z) : M ostate unit := λ c,
  match (if idx <? 0 then None else oc_cache (oc c) !! Z.to_nat idx) with
  | None => Panic
  | Some l =>
      match ops c !! l with
      | None => Panic
      | Some op =>
          Ret (tt, OState (Cache (Some l) (oc_cache (oc c)) (oc_freelist (oc c)))
                          (<[l := set_op_next (oc_first (oc c)) op]> (ops c)) (ops_fresh c))
      end
  end.

Fixpoint free_loop (idxs : list Z) : M ostate unit :=
  match idxs with
  | [] => mret ()
  | idx :: idxs => _ ← free_one idx; free_loop idxs
  end.

Definition cache_free : M ostate unit :=
  c ← get;
  if zlen (oc_freelist (oc c)) =? 0 then mret ()
  else
    _ ← free_loop (oc_freelist (oc c));
    modify (λ c, OState (Cache (oc_first (oc c)) (oc_cache (oc c)) []) (ops c) (ops_fresh c)).

(** ** The invariant of the cache *)

Fixpoint ochain (m : gmap nat FDOperator) (p : option nat) (l : list nat) : Prop :=
  match l with
  | [] => p = None
  | x :: l => p = Some x ∧ ∃ op, m !! x = Some op ∧ ochain m (op_next op) l
  end.

(** Every operator of the cache is available, marked as freeable, or in use;
    [avail], [pend], [live]: these operators. *)
Record cache_ok (c : ostate) (avail pend live : list nat) : Prop := CacheOk {
  co_chain : ochain (ops c) (oc_first (oc c)) avail;
  co_index : ∀ i l, oc_cache (oc c) !! i = Some l → ∃ op, ops c !! l = Some op ∧ op_index op = Z.of_nat i;
  co_nodup : NoDup (oc_cache (oc c));
  co_parts : avail ++ pend ++ live ≡ₚ oc_cache (oc c);
  co_pend : Forall2 (λ idx l, ∃ i, idx = Z.of_nat i ∧ oc_cache (oc c) !! i = Some l) (oc_freelist (oc c)) pend;
  co_fresh : ∀ l, (ops_fresh c ≤ l)%nat → ops c !! l = None;
}.

Lemma ochain_frame m m' p l :
  (∀ x, x ∈ l → m' !! x = m !! x) → ochain m p l → ochain m' p l.
Proof.
  revert p. induction l as [|x l IH]; intros p Hf; [done|]. intros (->&op&Hx&Hl). split; [done|].
  exists op. split; [rewrite Hf by left; done|]. apply IH; [|done]. intros. apply Hf. by right.
Qed.

Lemma cache_ok_new : cache_ok (OState newOperatorCache ∅ 0) [] [] [].
Proof. constructor; simpl; try done; try (by constructor). Qed.

Lemma int32_id z : - 2 ^ 31 <= z < 2 ^ 31 → int32 z = z.
Proof. intros. unfold int32. rewrite Z.mod_small; lia. Qed.

Lemma alloc_loop_ok n : ∀ c avail pend live,
  cache_ok c avail pend live → zlen (oc_cache (oc c)) + Z.of_nat n < 2 ^ 31 →
  ∃ new, length new = n ∧
    cache_ok (alloc_loop n (int32 (zlen (oc_cache (oc c)))) c) (new ++ avail) pend live ∧
    ops c ⊆ ops (alloc_loop n (int32 (zlen (oc_cache (oc c)))) c).
Proof.
  induction n as [|n IH]; intros c avail pend live Hc Hlen; [by exists []|].
  pose proof (zlen_nonneg (oc_cache (oc c))) as Hz. rewrite int32_id by lia.
  set (x := ops_fresh c). cbn [alloc_loop]. fold x.
  set (op := Operator _ _ _ _ _ _ _ _ _ _ (oc_first (oc c)) _ _).
  set (c1 := OState _ _ _).
  assert (x ∉ oc_cache (oc c)) as Hx.
  { intros [i Hi]%list_elem_of_lookup. destruct (co_index _ _ _ _ Hc i x Hi) as (op'&E&_).
    rewrite (co_fresh _ _ _ _ Hc) in E by done. done. }
  assert (cache_ok c1 (x :: avail) pend live) as Hc1.
  { destruct Hc as [Hch Hix Hnd Hp Hpd Hf]. constructor; simpl.
    - split; [done|]. exists op. rewrite lookup_insert_eq. split; [done|]. simpl.
      eapply ochain_frame; [|exact Hch]. intros y Hy. apply lookup_insert_ne. intros ->.
      apply Hx. rewrite <- Hp. by apply elem_of_app; left.
    - intros i l Hi. apply lookup_app_Some in Hi as [Hi|[Hle Hi]].
      + destruct (Hix i l Hi) as (op'&?&?). exists op'. rewrite lookup_insert_ne; [done|]. intros ->.
        apply Hx. by eapply list_elem_of_lookup_2.
      + apply list_lookup_singleton_Some in Hi as [Hi <-]. exists op. rewrite lookup_insert_eq.
        split; [done|]. simpl. unfold zlen. lia.
    - apply NoDup_app. split_and!; [done|set_solver|apply NoDup_singleton].
    - rewrite Hp. apply Permutation_cons_append.
    - eapply Forall2_impl; [exact Hpd|]. intros idx l (i&->&Hi). exists i. split; [done|]. by apply lookup_app_l_Some.
    - intros l Hl. rewrite lookup_insert_ne by lia. apply Hf. lia. }
  destruct (IH c1 (x :: avail) pend live Hc1) as (new&Hn&Hok); [simpl; rewrite zlen_app, zlen_cons, zlen_nil; lia|].
  exists (new ++ [x]). split; [rewrite length_app; simpl; lia|]. rewrite <- app_assoc. simpl.
  simpl in Hok. rewrite zlen_app, zlen_cons, zlen_nil in Hok. destruct Hok as [Hok Hsub]. split; [exact Hok|].
  etrans; [|exact Hsub]. apply insert_subseteq. by apply (co_fresh _ _ _ _ Hc).
Qed.

Lemma cache_ok_nodup c avail pend live : cache_ok c avail pend live → NoDup (avail ++ pend ++ live).
Proof. intros [_ _ Hn Hp _ _]. by rewrite Hp. Qed.

Lemma blocks_39 : block4k / opSize = 39.
Proof. reflexivity. Qed.

(** The head of the chain leaves it. *)
Lemma wp_alloc_take c x avail pend live (Q : nat → ostate → Prop) :
  cache_ok c (x :: avail) pend live →
  (∀ c', cache_ok c' avail pend (x :: live) → ops c' = ops c → Q x c') → wp alloc_take Q c.
Proof.
  intros Hc HQ. pose proof (cache_ok_nodup _ _ _ _ Hc) as Hn. destruct Hc as [Hch Hix Hnd Hp Hpd Hf].
  destruct Hch as (Hx&op&Hop&Hch). unfold wp, alloc_take. rewrite Hx, Hop. apply HQ; [|done].
  constructor; try done. simpl. rewrite <- Hp. perm.
Qed.

Lemma wp_alloc c avail pend live :
  cache_ok c avail pend live → zlen (oc_cache (oc c)) + block4k / opSize < 2 ^ 31 →
  wp alloc (λ l c', (l ∉ live) ∧ (l ∉ pend) ∧ ∃ avail', cache_ok c' avail' pend (l :: live) ∧ ops c ⊆ ops c' ∧
    (avail = [] → length avail' = 38%nat) ∧ (avail ≠ [] → avail = l :: avail')) c.
Proof.
  intros Hc Hlen. unfold alloc. apply wp_bind.
  assert (∀ x av c1, cache_ok c1 (x :: av) pend live → ops c ⊆ ops c1 →
    (avail = [] → length av = 38%nat) → (avail ≠ [] → avail = x :: av) →
    wp alloc_take (λ l c', (l ∉ live) ∧ (l ∉ pend) ∧ ∃ avail', cache_ok c' avail' pend (l :: live) ∧ ops c ⊆ ops c' ∧
    (avail = [] → length avail' = 38%nat) ∧ (avail ≠ [] → avail = l :: avail')) c1) as Htake.
  { intros x av c1 Hc1 Hsub H1 H2. pose proof (cache_ok_nodup _ _ _ _ Hc1) as Hn. simpl in Hn.
    apply NoDup_cons in Hn as [Hn _]. eapply wp_alloc_take; [exact Hc1|]. intros c' Hc' E.
    split_and!; [set_solver..|]. exists av. by rewrite E. }
  unfold wp at 1, alloc_grow. rewrite blocks_39. cbn beta iota zeta. destruct avail as [|x avail].
  - pose proof (co_chain _ _ _ _ Hc) as Hch. simpl in Hch. rewrite Hch.
    destruct (alloc_loop_ok 39 c [] pend live Hc) as (new&Hn&Hok); [rewrite blocks_39 in Hlen; lia|].
    change (Z.to_nat (if 39 =? 0 then 1 else 39)) with 39%nat.
    generalize dependent (alloc_loop 39 (int32 (zlen (oc_cache (oc c)))) c). intros c1 [Hok Hsub].
    destruct new as [|x new]; [done|]. rewrite app_nil_r in Hok. apply (Htake x new); [exact Hok|done| |done].
    intros _. simpl in Hn. lia.
  - pose proof (co_chain _ _ _ _ Hc) as Hch. destruct Hch as (Hx&_). rewrite Hx. by apply (Htake x avail).
Qed.

(** Alloc returns an operator that no one uses: it is neither in use nor
    marked as freeable; it is in use afterwards, and the others stay what they
    were.  The cache grows by a block when no operator is available. *)
Theorem alloc_spec c avail pend live :
  cache_ok c avail pend live → zlen (oc_cache (oc c)) + block4k / opSize < 2 ^ 31 →
  wp alloc (λ l c', (l ∉ live) ∧ (l ∉ pend) ∧ ∃ avail', cache_ok c' avail' pend (l :: live) ∧ ops c ⊆ ops c' ∧
    (avail = [] → length avail' = 38%nat) ∧ (avail ≠ [] → avail = l :: avail')) c.
Proof. apply wp_alloc. Qed.

Lemma freeable_ok c avail pend live l op :
  cache_ok c avail pend (l :: live) → ops c !! l = Some op →
  match freeable l c with
  | Some c' => op_state op ≠ 2 ∧ cache_ok c' avail (pend ++ [l]) live ∧
      ops c' !! l = Some (op_reset (set_op_state 0 op))
  | None => op_state op ≠ 0 ∧ op_state op ≠ 1
  end.
Proof.
  intros Hc Hop. pose proof (cache_ok_nodup _ _ _ _ Hc) as Hn. unfold freeable. rewrite Hop. simpl.
  assert (∀ op', op_unused op = Some op' → op' = set_op_state 0 op ∧ op_state op ≠ 2) as Hun.
  { unfold op_unused. intros op'. destruct (Z.eqb_spec (op_state op) 1) as [E|E]; [intros [= <-]; split; [done|lia]|].
    destruct (Z.eqb_spec (op_state op) 0) as [E'|E']; [|done]. intros [= <-]. split; [|lia].
    destruct op; simpl in *. by subst. }
  destruct (op_unused op) as [op'|] eqn:Eu; simpl.
  2:{ unfold op_unused in Eu. destruct (Z.eqb_spec (op_state op) 1), (Z.eqb_spec (op_state op) 0); done. }
  destruct (Hun op' eq_refl) as [-> Hst]. split_and!; [done| |by rewrite lookup_insert_eq].
  destruct Hc as [Hch Hix Hnd Hp Hpd Hf].
  assert (l ∉ avail) as Hla. { apply NoDup_app in Hn as (_&Hn&_). set_solver. }
  assert (l ∈ oc_cache (oc c)) as [i Hi]%list_elem_of_lookup by (rewrite <- Hp; set_solver).
  constructor; simpl; try done.
  - eapply ochain_frame; [|exact Hch]. intros y Hy. apply lookup_insert_ne. set_solver.
  - intros j y Hj. destruct (Hix j y Hj) as (op'&Hy&Ej). destruct (decide (y = l)) as [->|].
    + rewrite lookup_insert_eq. simplify_eq. by eexists.
    + rewrite lookup_insert_ne by done. eauto.
  - rewrite <- Hp. perm.
  - apply Forall2_app; [done|]. constructor; [|constructor]. exists i. split; [|done].
    destruct (Hix i l Hi) as (op'&Hl&E). simplify_eq. done.
  - intros y Hy. rewrite lookup_insert_ne; [by apply Hf|]. intros <-. rewrite Hf in Hop by done. done.
Qed.

(** Freeable waits for an operator that is between do and done; then it
    resets the operator and marks it, and it is not handed out before free. *)
Theorem freeable_spec c avail pend live l op :
  cache_ok c avail pend (l :: live) → ops c !! l = Some op →
  match freeable l c with
  | Some c' => op_state op ≠ 2 ∧ cache_ok c' avail (pend ++ [l]) live ∧
      ops c' !! l = Some (op_reset (set_op_state 0 op))
  | None => op_state op ≠ 0 ∧ op_state op ≠ 1
  end.
Proof. apply freeable_ok. Qed.

(** As [cache_ok], with the indices [idxs] left to visit. *)
Record freeing (c : ostate) (avail pend live : list nat) (idxs : list Z) : Prop := Freeing {
  fg_chain : ochain (ops c) (oc_first (oc c)) avail;
  fg_index : ∀ i l, oc_cache (oc c) !! i = Some l → ∃ op, ops c !! l = Some op ∧ op_index op = Z.of_nat i;
  fg_nodup : NoDup (oc_cache (oc c));
  fg_parts : avail ++ pend ++ live ≡ₚ oc_cache (oc c);
  fg_pend : Forall2 (λ idx l, ∃ i, idx = Z.of_nat i ∧ oc_cache (oc c) !! i = Some l) idxs pend;
  fg_fresh : ∀ l, (ops_fresh c ≤ l)%nat → ops c !! l = None;
}.

Lemma wp_free_loop idxs : ∀ c avail pend live (Q : unit → ostate → Prop),
  freeing c avail pend live idxs →
  (∀ c', freeing c' (rev pend ++ avail) [] live [] → Q tt c') → wp (free_loop idxs) Q c.
Proof.
  induction idxs as [|idx idxs IH]; intros c avail pend live Q Hf HQ; simpl.
  - destruct Hf as [? ? ? ? Hp ?]. inversion Hp; subst. apply wp_ret, HQ. by constructor.
  - destruct Hf as [Hch Hix Hnd Hp Hpd Hf]. inversion Hpd as [|? x ? pend' (i&->&Hi) Hpd']; subst.
    destruct (Hix i x Hi) as (op&Hop&Eop).
    assert (NoDup (avail ++ x :: pend' ++ live)) as Hn by (simpl in Hp; by rewrite Hp).
    assert (x ∉ avail) as Hxa. { apply NoDup_app in Hn as (_&Hn&_). set_solver. }
    apply wp_bind. unfold wp at 1, free_one. rewrite (proj2 (Z.ltb_ge _ _)) by lia. rewrite Nat2Z.id, Hi, Hop.
    eapply (IH _ (x :: avail) pend' live).
    + constructor; simpl; try done.
      * split; [done|]. eexists. rewrite lookup_insert_eq. split; [done|]. simpl.
        eapply ochain_frame; [|exact Hch]. intros y Hy. apply lookup_insert_ne. set_solver.
      * intros j y Hj. destruct (Hix j y Hj) as (op'&Hy&Ej). destruct (decide (y = x)) as [->|].
        -- rewrite lookup_insert_eq. simplify_eq. by eexists.
        -- rewrite lookup_insert_ne by done. eauto.
      * rewrite <- Hp. perm.
      * intros y Hy. rewrite lookup_insert_ne; [by apply Hf|]. intros <-. rewrite Hf in Hop by done. done.
    + intros c' Hc'. apply HQ. simpl. by rewrite <- app_assoc.
Qed.

Lemma wp_cache_free c avail pend live :
  cache_ok c avail pend live → wp cache_free (λ _ c', cache_ok c' (rev pend ++ avail) [] live) c.
Proof.
  intros Hc. pose proof Hc as [Hch Hix Hnd Hp Hpd Hf]. unfold cache_free. apply wp_bind, wp_get.
  destruct (Z.eqb_spec (zlen (oc_freelist (oc c))) 0) as [E|E].
  - apply wp_ret. apply zlen_0_nil in E. rewrite E in Hpd. inversion Hpd; subst. done.
  - apply wp_bind. eapply (wp_free_loop _ _ avail pend live); [by constructor|].
    intros c' []. apply wp_modify. by constructor.
Qed.

(** Free makes the operators that were marked available again, once each,
    and leaves those in use alone. *)
Theorem cache_free_spec c avail pend live :
  cache_ok c avail pend live → wp cache_free (λ _ c', cache_ok c' (rev pend ++ avail) [] live) c.
Proof. apply wp_cache_free. Qed.

(** ** A cache of two operators, the first in use *)

Definition demo_op (next : option nat) (st idx : Z) : FDOperator :=
  Operator 7 None None (Some 1%nat) None None None None (Some 0%nat) 0 next st idx.
Definition demo_cache : ostate :=
  OState (Cache (Some 1%nat) [0; 1]%nat []) {[0%nat := demo_op None 1 0; 1%nat := demo_op None 0 1]} 2.

Lemma demo_cache_ok : cache_ok demo_cache [1%nat] [] [0%nat].
Proof.
  constructor; simpl.
  - split; [done|]. eexists. split; [reflexivity|]. reflexivity.
  - intros [|[|i]] l Hi; simplify_eq/=; eexists; split; reflexivity.
  - apply (bool_decide_unpack _). reflexivity.
  - perm.
  - constructor.
  - intros l Hl. by rewrite lookup_insert_ne, lookup_singleton_ne by lia.
Qed.

Lemma alloc_spec_witness :
  wp alloc (λ l c', (l ∉ [0%nat]) ∧ (l ∉ []) ∧ ∃ avail', cache_ok c' avail' [] (l :: [0%nat]) ∧ ops demo_cache ⊆ ops c' ∧
    ([1%nat] = [] → length avail' = 38%nat) ∧ ([1%nat] ≠ [] → [1%nat] = l :: avail')) demo_cache.
Proof. apply alloc_spec; [apply demo_cache_ok|reflexivity]. Defined.

Lemma freeable_spec_witness :
  match freeable 0 demo_cache with
  | Some c' => op_state (demo_op None 1 0) ≠ 2 ∧ cache_ok c' [1%nat] ([] ++ [0%nat]) [] ∧
      ops c' !! 0%nat = Some (op_reset (set_op_state 0 (demo_op None 1 0)))
  | None => op_state (demo_op None 1 0) ≠ 0 ∧ op_state (demo_op None 1 0) ≠ 1
  end.
Proof. apply freeable_spec; [apply demo_cache_ok|reflexivity]. Defined.

(** The cache after the first operator was marked as freeable. *)
Definition demo_freed : ostate :=
  OState (Cache (Some 1%nat) [0; 1]%nat [0])
         {[0%nat := op_reset (demo_op None 0 0); 1%nat := demo_op None 0 1]} 2.

Lemma demo_freed_ok : cache_ok demo_freed [1%nat] [0%nat] [].
Proof.
  constructor; simpl.
  - split; [done|]. eexists. split; [reflexivity|]. reflexivity.
  - intros [|[|i]] l Hi; simplify_eq/=; eexists; split; reflexivity.
  - apply (bool_decide_unpack _). reflexivity.
  - perm.
  - constructor; [by exists 0%nat|constructor].
  - intros l Hl. by rewrite lookup_insert_ne, lookup_singleton_ne by lia.
Qed.

Lemma cache_free_spec_witness :
  wp cache_free (λ _ c', cache_ok c' (rev [0%nat] ++ [1%nat]) [] []) demo_freed.
Proof. apply cache_free_spec, demo_freed_ok. Defined.
