(* ===== verification/WaitRead.v ===== *)
(** * Waiting for input

    Models waitRead and waitReadWithTimeout of src/connection_impl.go together
    with what wakes them: inputAck, onHup and onClose of
    src/connection_reactor.go and the channel readTrigger.  The reader, the
    poller and whoever closes the connection are threads; a step is one atomic
    operation.  A connection is read by one goroutine at a time: with OnRequest
    set it is the task that holds [processing]. *)

From S2P Require Import Prelude Threads Locker Errors.

Open Scope Z_scope.

(** OnRequest and OnConnect are set; [c.readTimeout > 0]. *)
Record rmode := RMode { m_request : bool; m_connect : bool; m_timeout : bool }.

Record rstate := RState {
  r_closing : Z;                  (* keychain[closing] *)
  r_len : Z;                      (* inputBuffer.Len() *)
  waitReadSize : Z;
  readTrigger : option (option Z);  (* a channel of capacity 1; an error or nil *)
  r_armed : bool;                 (* readTimer is running, *)
  r_fired : bool;                 (* readTimer.C holds a value *)
  r_processing : bool;            (* keychain[processing] is taken *)
  r_connected : bool;             (* the state is not connStateNone *)
  r_expired : bool;               (* history: readTimer expired since it was set last *)
}.

Definition set_closing x s := RState x (r_len s) (waitReadSize s) (readTrigger s) (r_armed s) (r_fired s) (r_processing s) (r_connected s) (r_expired s).
Definition set_len x s := RState (r_closing s) x (waitReadSize s) (readTrigger s) (r_armed s) (r_fired s) (r_processing s) (r_connected s) (r_expired s).
Definition set_wait x s := RState (r_closing s) (r_len s) x (readTrigger s) (r_armed s) (r_fired s) (r_processing s) (r_connected s) (r_expired s).
Definition set_trigger x s := RState (r_closing s) (r_len s) (waitReadSize s) x (r_armed s) (r_fired s) (r_processing s) (r_connected s) (r_expired s).
Definition set_timer x y s := RState (r_closing s) (r_len s) (waitReadSize s) (readTrigger s) x y (r_processing s) (r_connected s) (r_expired s).
Definition set_processing x s := RState (r_closing s) (r_len s) (waitReadSize s) (readTrigger s) (r_armed s) (r_fired s) x (r_connected s) (r_expired s).
Definition set_connected s := RState (r_closing s) (r_len s) (waitReadSize s) (readTrigger s) (r_armed s) (r_fired s) (r_processing s) true (r_expired s).
Definition set_expired x s := RState (r_closing s) (r_len s) (waitReadSize s) (readTrigger s) (r_armed s) (r_fired s) (r_processing s) (r_connected s) x.

(** Where a thread is; [n]: the bytes that are waited for, [e]: the error that
    is returned, [len]: the length that bookAck returned. *)
Inductive rpc :=
(* the code of the user, and waitRead *)
| RdRun
| RdEnter (n : Z)
| RdStore (n : Z)
| RdLoop (n : Z)
| RdStatus (n : Z)
| RdRecv (n : Z)
| RdReset (n : Z) (e : option Z)
| RdRet (n : Z) (e : option Z)
(* waitReadWithTimeout *)
| TmSet (n : Z)
| TmLoop (n : Z)
| TmStatus (n : Z)
| TmSelect (n : Z)
| TmDouble (n : Z)
| TmStop (n : Z) (e : option Z)
| TmDrain (n : Z) (e : option Z)
(* the task of onConnect *)
| CnBegin
| CnState
(* inputAck *)
| AkAck (n : Z)
| AkRequest (len : Z)
| AkLoad (len : Z)
| AkSend
(* onHup, onClose *)
| HpBegin
| HpSend
| UsBegin
| UsSend
| UsForce
| ClLock
(* the timer *)
| TmFire
| RdDone.

(** What the environment decides: how much is waited for or read, whether the
    callback returns, and which case of a select is taken. *)
Inductive rchoice := Want (n : Z) | Read (n : Z) | Return | ByTimer | ByTrigger | NoChoice.

(** [triggerRead(err)]: a send that does not block. *)
Definition triggerRead (err : option Z) (s : rstate) : rstate :=
  match readTrigger s with
  | None => set_trigger (Some err) s
  | Some _ => s
  end.

Section steps.
Context (m : rmode).

Definition rgoto (s : rstate) (p : rpc) : option (rstate * rpc * list rpc) := Some (s, p, []).

Definition waitRead_step (s : rstate) (p : rpc) (c : rchoice) : option (rstate * rpc * list rpc) :=
  match p with
  | RdRun =>
      match c with
      | Want n => rgoto s (RdEnter n)
      | Read n => if (0 <=? n) && (n <=? r_len s) then rgoto (set_len (r_len s - n) s) RdRun else None
      | Return => rgoto (if m_request m then set_processing false s else s) RdDone
      | _ => None
      end
  | RdEnter n => rgoto s (if n <=? r_len s then RdRet n None else RdStore n)
  | RdStore n => rgoto (set_wait n s) (if m_timeout m then TmSet n else RdLoop n)
  | RdLoop n => rgoto s (if r_len s <? n then RdStatus n else RdReset n None)
  | RdStatus n =>
      rgoto s (if r_closing s =? poller then RdReset n (Some ErrEOF)
               else if r_closing s =? user then RdReset n (Some ErrConnClosed)
               else RdRecv n)
  | RdRecv n =>
      e ← readTrigger s;
      rgoto (set_trigger None s) (match e with None => RdLoop n | Some _ => RdReset n e end)
  (* the deferred store *)
  | RdReset n e => rgoto (set_wait 0 s) (RdRet n e)
  | RdRet n e => rgoto s RdRun
  | _ => None
  end.

Definition waitReadWithTimeout_step (s : rstate) (p : rpc) (c : rchoice) : option (rstate * rpc * list rpc) :=
  match p with
  | TmSet n => rgoto (set_expired false (set_timer true (r_fired s) s)) (TmLoop n)
  | TmLoop n => rgoto s (if r_len s <? n then TmStatus n else TmStop n None)
  | TmStatus n =>
      rgoto s (if r_closing s =? poller then TmStop n (Some ErrEOF)
               else if r_closing s =? user then TmStop n (Some ErrConnClosed)
               else TmSelect n)
  | TmSelect n =>
      match c with
      | ByTimer => if r_fired s then rgoto (set_timer (r_armed s) false s) (TmDouble n) else None
      | ByTrigger =>
          e ← readTrigger s;
          rgoto (set_trigger None s) (match e with None => TmLoop n | Some _ => TmStop n e end)
      | _ => None
      end
  | TmDouble n => rgoto s (RdReset n (if n <=? r_len s then None else Some ErrReadTimeout))
  | TmStop n e => rgoto (set_timer false (r_fired s) s) (if r_armed s then RdReset n e else TmDrain n e)
  | TmDrain n e => if r_fired s then rgoto (set_timer (r_armed s) false s) (RdReset n e) else None
  | _ => None
  end.

(** inputAck; onRequest decides whether a trigger is needed. *)
Definition inputAck_step (s : rstate) (p : rpc) : option (rstate * rpc * list rpc) :=
  match p with
  | AkAck n =>
      if n <=? 0 then rgoto s RdDone
      else
        let len := r_len s + n in
        rgoto (set_len len s) (if len =? n then AkRequest len else AkLoad len)
  | AkRequest len =>
      if negb (m_request m) then rgoto s (AkLoad len)
      else if negb (r_connected s) && m_connect m then rgoto s RdDone
      else if r_processing s then rgoto s (AkLoad len)
      else Some (set_processing true s, RdDone, [RdRun])
  | AkLoad len => rgoto s (if waitReadSize s <=? len then AkSend else RdDone)
  | AkSend => rgoto (triggerRead None s) RdDone
  | _ => None
  end.

(** The part of onHup, onClose, onConnect and the timer that concerns reading. *)
Definition close_step (s : rstate) (p : rpc) : option (rstate * rpc * list rpc) :=
  match p with
  | HpBegin => if r_closing s =? 0 then rgoto (set_closing poller s) HpSend else rgoto s RdDone
  | HpSend => rgoto (triggerRead (Some ErrEOF) s) (if m_connect m || m_request m then ClLock else RdDone)
  | UsBegin => if r_closing s =? 0 then rgoto (set_closing user s) UsSend else rgoto s UsForce
  | UsSend => rgoto (triggerRead (Some ErrConnClosed) s) ClLock
  | UsForce => rgoto (set_closing user s) ClLock
  | ClLock => rgoto (set_processing true s) RdDone
  | CnBegin => if r_processing s then rgoto s RdDone else rgoto (set_processing true s) CnState
  | CnState => rgoto (set_connected s) RdRun
  | TmFire => if r_armed s then rgoto (set_expired true (set_timer false true s)) RdDone else None
  | _ => None
  end.

Definition rd_step (s : rstate) (p : rpc) (c : rchoice) : option (rstate * rpc * list rpc) :=
  match p with
  | RdRun | RdEnter _ | RdStore _ | RdLoop _ | RdStatus _ | RdRecv _ | RdReset _ _ | RdRet _ _ =>
      waitRead_step s p c
  | TmSet _ | TmLoop _ | TmStatus _ | TmSelect _ | TmDouble _ | TmStop _ _ | TmDrain _ _ =>
      waitReadWithTimeout_step s p c
  | AkAck _ | AkRequest _ | AkLoad _ | AkSend => inputAck_step s p
  | HpBegin | HpSend | UsBegin | UsSend | UsForce | ClLock | CnBegin | CnState | TmFire => close_step s p
  | RdDone => None
  end.

Definition rd_starts (p : rpc) : bool :=
  match p with
  | HpBegin | UsBegin | TmFire | AkAck _ => true
  | _ => false
  end.

Definition rd_init : config rstate rpc :=
  Cfg (RState 0 0 0 None false false false (negb (m_connect m)) false)
      (if m_request m then if m_connect m then [CnBegin] else [] else [RdRun]).

Definition rd_reach (c : config rstate rpc) : Prop := reach rd_step rd_starts rd_init c.
End steps.

(** ** Invariants *)

(** The threads that read or are about to, *)
Definition reads (p : rpc) : nat :=
  match p with
  | RdRun | RdEnter _ | RdStore _ | RdLoop _ | RdStatus _ | RdRecv _ | RdReset _ _ | RdRet _ _
  | TmSet _ | TmLoop _ | TmStatus _ | TmSelect _ | TmDouble _ | TmStop _ _ | TmDrain _ _ | CnState => 1
  | _ => 0
  end.

(** but for onConnect's task before OnConnect is called. *)
Definition started (p : rpc) : nat := match p with CnState => 0 | _ => reads p end.
Definition connects (p : rpc) : nat := match p with CnBegin | CnState => 1 | _ => 0 end.

(** waitReadSize is set to [n]. *)
Definition stored (n : Z) (p : rpc) : nat :=
  match p with
  | RdLoop k | RdStatus k | RdRecv k | RdReset k _
  | TmSet k | TmLoop k | TmStatus k | TmSelect k | TmDouble k | TmStop k _ | TmDrain k _ =>
      if k =? n then 1 else 0
  | _ => 0
  end.

(** The length was seen to be below [n]. *)
Definition waits (n : Z) (p : rpc) : nat :=
  match p with
  | RdStatus k | RdRecv k | TmStatus k | TmSelect k => if k =? n then 1 else 0
  | _ => 0
  end.

(** [closing] was seen to be 0. *)
Definition blocks (p : rpc) : nat :=
  match p with RdRecv _ | TmSelect _ => 1 | _ => 0 end.

(** The poller is about to wake a reader that waits for [n] bytes. *)
Definition wakes (n : Z) (p : rpc) : nat :=
  match p with
  | AkRequest len | AkLoad len => if n <=? len then 1 else 0
  | AkSend => 1
  | _ => 0
  end.

(** A thread has closed the connection and is about to wake the reader. *)
Definition hangs (p : rpc) : nat := match p with HpSend | UsSend => 1 | _ => 0 end.

(** waitRead is about to return nil for [n]. *)
Definition succeeds (n : Z) (p : rpc) : nat :=
  match p with
  | RdReset k None | RdRet k None | TmStop k None | TmDrain k None => if k =? n then 1 else 0
  | _ => 0
  end.

(** waitRead is about to return an error because the connection is closed; a
    different error. *)
Definition closed_error (e : Z) : bool := (e =? ErrEOF) || (e =? ErrConnClosed).
Definition fails_closed (p : rpc) : nat :=
  match p with
  | RdReset _ (Some e) | RdRet _ (Some e) | TmStop _ (Some e) | TmDrain _ (Some e) =>
      if closed_error e then 1 else 0
  | _ => 0
  end.
Definition fails_other (p : rpc) : nat :=
  match p with
  | TmStop _ (Some e) | TmDrain _ (Some e) => if closed_error e then 0 else 1
  | RdReset _ (Some e) | RdRet _ (Some e) => if closed_error e || (e =? ErrReadTimeout) then 0 else 1
  | _ => 0
  end.

(** waitRead is about to time out, or may. *)
Definition times_out (p : rpc) : nat :=
  match p with
  | TmSet _ | TmLoop _ | TmStatus _ | TmSelect _ | TmDouble _ | TmStop _ _ | TmDrain _ _ => 1
  | RdReset _ (Some e) | RdRet _ (Some e) => if closed_error e then 0 else 1
  | _ => 0
  end.

(** The timer runs or its channel is full, *)
Definition timed (p : rpc) : nat :=
  match p with TmLoop _ | TmStatus _ | TmSelect _ | TmStop _ _ | TmDrain _ _ => 1 | _ => 0 end.
(** its channel is full. *)
Definition drains (p : rpc) : nat := match p with TmDrain _ _ => 1 | _ => 0 end.

(** The reader has received from the channel of the timer, or returns
    ErrReadTimeout. *)
Definition expires (p : rpc) : nat :=
  match p with
  | TmDouble _ => 1
  | RdReset _ (Some e) | RdRet _ (Some e) => if closed_error e then 0 else 1
  | _ => 0
  end.

(** A thread has found the connection closed. *)
Definition closes (p : rpc) : nat := match p with HpSend | UsSend | UsForce => 1 | _ => 0 end.

Ltac rd_unfold H :=
  cbv [rd_step waitRead_step waitReadWithTimeout_step inputAck_step close_step rgoto triggerRead
    mbind option_bind none user poller] in H; simpl in H.
Ltac rd_solve s p Hs :=
  destruct s; simpl in *; destruct p; rd_unfold Hs;
  try match goal with E : m_request _ = _ |- _ => rewrite !E in Hs; simpl in Hs end;
  try match goal with E : m_connect _ = _ |- _ => rewrite !E in Hs; simpl in Hs end; step_case;
  rewrite ?Nat.add_0_r in *; unfold tally in *; simpl in *; try lia.

(** Use the hypotheses whose condition holds. *)
Ltac fire :=
  repeat match goal with
  | H : ?x = ?x → _ |- _ => specialize (H eq_refl)
  | H : ?x = ?y → _, E : ?x = ?y |- _ => specialize (H E)
  end; simpl in *.

Section invariants.
Context (m : rmode).

(** There is one reader at a time. *)
Definition reader_inv (c : config rstate rpc) : Prop :=
  (tally reads (threads c) ≤ 1)%nat ∧
  (m_request m = true → Z.of_nat (tally reads (threads c)) <= Z.b2z (r_processing (shared c))) ∧
  (m_request m = true → r_connected (shared c) = false → tally started (threads c) = 0%nat) ∧
  (m_request m = false → tally connects (threads c) = 0%nat) ∧
  (m_connect m = false → r_connected (shared c) = true).

Lemma reader_inv_reach c : rd_reach m c → reader_inv c.
Proof.
  intros Hr. eapply (reach_inv _ _ reader_inv); [| |exact Hr|].
  - intros s ths i p ch s' p' sp (H1&H2&H3&H4&H5) Hi Hs. unfold reader_inv in *. simpl in *.
    count reads Hi Hs. count started Hi Hs. count connects Hi Hs.
    destruct (m_request m) eqn:Em, (m_connect m) eqn:Ec; rd_solve s p Hs; simplify_eq/=;
    fire; split_and!; intros; simplify_eq/=; fire; try done; try lia.
  - intros s ths p (H1&H2&H3&H4&H5) Hs. unfold reader_inv in *. simpl in *. rewrite !tally_start.
    destruct p; simpl in *; try done; rewrite ?Nat.add_0_r; done.
  - unfold reader_inv, rd_init. destruct m as [[] [] t]; simpl; unfold tally; simpl; split_and!; intros; simplify_eq; lia.
Qed.

Definition filled {A} (ch : option A) : Z := match ch with Some _ => 1 | None => 0 end.

Lemma filled_nonneg {A} (ch : option A) : 0 <= filled ch.
Proof. destruct ch; simpl; lia. Qed.

(** A reader that waits although there is enough data is woken. *)
Definition wait_inv (n : Z) (c : config rstate rpc) : Prop :=
  ((1 ≤ tally (stored n) (threads c))%nat → waitReadSize (shared c) = n) ∧
  ((1 ≤ tally (waits n) (threads c))%nat → n <= r_len (shared c) →
    1 <= filled (readTrigger (shared c)) + Z.of_nat (tally (wakes n) (threads c))).

Lemma wait_inv_reach n c : rd_reach m c → wait_inv n c.
Proof.
  revert c. apply (reach_inv_from _ _ _ (wait_inv n)).
  - intros s ths i p ch s' p' sp Hr (H1&H2) Hi Hs. apply reader_inv_reach in Hr as (Hone&Hreq&Hcon&_).
    assert (∀ f : rpc → nat, (∀ q, (f q ≤ reads q)%nat) → reads p = 1%nat → tally f ths = f p) as Hsingle.
    { intros f Hf. by apply (tally_single f reads ths i). }
    assert (∀ q, (stored n q ≤ reads q)%nat) as Hst by (intros []; simpl; try case_match; lia).
    assert (∀ q, (waits n q ≤ reads q)%nat) as Hwt by (intros []; simpl; try case_match; lia).
    pose proof (Hsingle _ Hst) as S1. pose proof (Hsingle _ Hwt) as S2.
    assert (∀ q, (waits n q ≤ stored n q)%nat) as Hws by (intros []; simpl; try case_match; lia).
    assert (∀ q, (waits n q ≤ started q)%nat) as Hwr by (intros []; simpl; try case_match; lia).
    pose proof (tally_le _ _ ths Hws) as Hle. pose proof (tally_le _ _ ths Hwr) as Hle'.
    pose proof (tally_le _ _ ths Hwt) as Hle2. clear Hsingle Hst Hwt Hws Hwr. simpl in *.
    pose proof (filled_nonneg (readTrigger s)). count (stored n) Hi Hs. count (waits n) Hi Hs. count (wakes n) Hi Hs.
    unfold wait_inv. rd_solve s p Hs.
    all: split_and!; intros; try done; try lia; step_case; simplify_eq/=; fire;
      destruct_or?; simplify_eq/=; try done; try lia.
  - intros s ths p (H1&H2) Hs. unfold wait_inv in *. simpl in *. rewrite !tally_start.
    destruct p; simpl in *; try done; rewrite ?Nat.add_0_r; done.
  - unfold wait_inv, rd_init. simpl. repeat case_match; unfold tally; simpl; lia.
Qed.

(** The channel holds nil or the error of a close. *)
Definition trigger_ok (s : rstate) : Prop :=
  match readTrigger s with Some (Some e) => closed_error e = true ∧ r_closing s ≠ 0 | _ => True end.

(** A reader that waits although the connection is closed is woken. *)
Definition closed_inv (c : config rstate rpc) : Prop :=
  ((1 ≤ tally blocks (threads c))%nat → r_closing (shared c) ≠ 0 →
    1 <= filled (readTrigger (shared c)) + Z.of_nat (tally hangs (threads c))) ∧
  ((1 ≤ tally closes (threads c) + tally fails_closed (threads c))%nat → r_closing (shared c) ≠ 0) ∧
  tally fails_other (threads c) = 0%nat ∧ trigger_ok (shared c) ∧ 0 <= r_closing (shared c) <= 2.

Lemma closed_inv_reach c : rd_reach m c → closed_inv c.
Proof.
  revert c. apply (reach_inv_from _ _ _ closed_inv).
  - intros s ths i p ch s' p' sp Hr (H1&H2&H3&H4&H5) Hi Hs. unfold closed_inv, trigger_ok in *. simpl in *.
    apply reader_inv_reach in Hr as (Hone&_). simpl in Hone.
    assert (reads p = 1%nat → tally blocks ths = blocks p) as Hsingle.
    { apply (tally_single blocks reads ths i); [intros []; simpl; lia|done..]. }
    pose proof (filled_nonneg (readTrigger s)). count blocks Hi Hs. count hangs Hi Hs. count closes Hi Hs.
    count fails_closed Hi Hs. count fails_other Hi Hs.
    assert (∀ b : bool, b = true → (if b then 1 else 0)%nat = 1%nat ∧ (if b then 0 else 1)%nat = 0%nat)
      as Hif by (intros ? ->; done).
    rd_solve s p Hs. all: split_and!; intros; try done; try lia; destruct_and?.
    all: try (rewrite ?Hif in * by done; lia).
    all: step_case; try done; try lia.
  - intros s ths p (H1&H2&H3&H4&H5) Hs. unfold closed_inv in *. simpl in *. rewrite !tally_start.
    destruct p; simpl in *; try done; rewrite ?Nat.add_0_r; done.
  - unfold closed_inv, rd_init, trigger_ok. simpl. repeat case_match; unfold tally; simpl; split_and!; try done; lia.
Qed.
End invariants.
