(* ===== verification/WaitReadTheorems.v ===== *)
(** * What waitRead guarantees

    The theorems about waiting for input, from the invariants of [WaitRead],
    and executions of it. *)

From S2P Require Import Prelude Threads Locker Errors WaitRead.

Open Scope Z_scope.

Section results.
Context (m : rmode).

(** What waitRead found is still there when it returns. *)
Definition result_inv (n : Z) (c : config rstate rpc) : Prop :=
  ((1 ≤ tally (succeeds n) (threads c))%nat → n <= r_len (shared c)) ∧
  (m_timeout m = false → tally times_out (threads c) = 0%nat).

Lemma result_inv_reach n c : rd_reach m c → result_inv n c.
Proof.
  revert c. apply (reach_inv_from _ _ _ (result_inv n)).
  - intros s ths i p ch s' p' sp Hr (H1&H2) Hi Hs.
    pose proof (reader_inv_reach _ _ Hr) as (Hone&_). pose proof (closed_inv_reach _ _ Hr) as (_&_&_&Htr&_).
    assert (reads p = 1%nat → tally (succeeds n) ths = succeeds n p) as Hsingle.
    { apply (tally_single (succeeds n) reads ths i); [intros []; simpl; repeat case_match; lia|done..]. }
    clear Hr. unfold result_inv, trigger_ok in *. simpl in *. count (succeeds n) Hi Hs. count times_out Hi Hs.
    assert (∀ b : bool, b = true → (if b then 0 else 1)%nat = 0%nat) as Hif by (intros ? ->; done).
    rd_solve s p Hs. all: split_and!; intros; try done; try lia; destruct_and?.
    all: try (rewrite ?Hif in * by done; lia).
    all: step_case; fire; try done; try lia.
  - intros s ths p (H1&H2) Hs. unfold result_inv in *. simpl in *. rewrite !tally_start.
    destruct p; simpl in *; try done; rewrite ?Nat.add_0_r; done.
  - unfold result_inv, rd_init. simpl. repeat case_match; unfold tally; simpl; split_and!; try done; lia.
Qed.

(** The timer runs, or its channel is full, only while waitReadWithTimeout
    uses it. *)
Definition timer_inv (c : config rstate rpc) : Prop :=
  Z.b2z (r_armed (shared c)) + Z.b2z (r_fired (shared c)) = Z.of_nat (tally timed (threads c)) ∧
  Z.of_nat (tally drains (threads c)) <= Z.b2z (r_fired (shared c)).

Lemma timer_inv_reach c : rd_reach m c → timer_inv c.
Proof.
  revert c. apply (reach_inv_from _ _ _ timer_inv).
  - intros s ths i p ch s' p' sp Hr (H1&H2) Hi Hs.
    pose proof (reader_inv_reach _ _ Hr) as (Hone&_).
    pose proof (tally_le timed reads ths ltac:(intros []; simpl; lia)) as Htimed.
    clear Hr. unfold timer_inv in *. simpl in *. count timed Hi Hs. count drains Hi Hs. count reads Hi Hs.
    assert (reads p = 1%nat → tally timed ths = timed p) as Hsingle.
    { apply (tally_single timed reads ths i); [intros []; simpl; lia|done..]. }
    assert (reads p = 1%nat → tally drains ths = drains p) as Hdrains.
    { apply (tally_single drains reads ths i); [intros []; simpl; lia|done..]. }
    rd_solve s p Hs. all: fire; 
      repeat match goal with H : context [Z.b2z ?b] |- _ => is_var b; destruct b end; simpl in *; lia.
  - intros s ths p (H1&H2) Hs. unfold timer_inv in *. simpl in *. rewrite !tally_start.
    destruct p; simpl in *; try done; rewrite ?Nat.add_0_r; done.
  - unfold timer_inv, rd_init. simpl. repeat case_match; unfold tally; simpl; lia.
Qed.

(** A value in the channel of the timer comes from the wait that is going on. *)
Definition expired_inv (c : config rstate rpc) : Prop :=
  (r_fired (shared c) = true → r_expired (shared c) = true) ∧
  ((1 ≤ tally expires (threads c))%nat → r_expired (shared c) = true).

Lemma expired_inv_reach c : rd_reach m c → expired_inv c.
Proof.
  revert c. apply (reach_inv_from _ _ _ expired_inv).
  - intros s ths i p ch s' p' sp Hr (H1&H2) Hi Hs.
    pose proof (reader_inv_reach _ _ Hr) as (Hone&_). pose proof (timer_inv_reach _ Hr) as (Ht&_).
    pose proof (closed_inv_reach _ _ Hr) as (_&_&Hother&Htr&_).
    assert (reads p = 1%nat → tally expires ths = expires p) as Hsingle.
    { apply (tally_single expires reads ths i); [intros []; simpl; repeat case_match; lia|done..]. }
    assert (reads p = 1%nat → tally timed ths = timed p) as Htimed.
    { apply (tally_single timed reads ths i); [intros []; simpl; lia|done..]. }
    pose proof (tally_pos fails_other _ _ _ Hi) as Hp. simpl in Hother. rewrite Hother in Hp.
    clear Hr. unfold expired_inv, trigger_ok in *. simpl in *. count expires Hi Hs.
    assert (∀ b : bool, b = true → (if b then 0 else 1)%nat = 0%nat) as Hif by (intros ? ->; done).
    rd_solve s p Hs. all: split_and!; intros; try done; try lia; destruct_and?.
    all: try (rewrite ?Hif in * by done; lia).
    all: step_case; fire; try done; try lia; try (apply H2; lia).
    all: exfalso; match goal with E : context [Z.b2z ?b] |- _ => destruct b; simpl in E; lia end.
  - intros s ths p (H1&H2) Hs. unfold expired_inv in *. simpl in *. rewrite !tally_start.
    destruct p; simpl in *; try done; rewrite ?Nat.add_0_r; done.
  - unfold expired_inv, rd_init. simpl. repeat case_match; unfold tally; simpl; split_and!; try done; lia.
Qed.

(** C8: waitRead(n) returns nil only when n bytes can be read; it returns an
    error only because the connection was closed, by the peer or by the user,
    or, with a read time-out, because the timer that this call has set has
    expired. *)
Theorem waitRead_returns c i n e :
  rd_reach m c → threads c !! i = Some (RdRet n e) →
  match e with
  | None => n <= r_len (shared c)
  | Some e => (e = ErrEOF ∨ e = ErrConnClosed) ∧ r_closing (shared c) ≠ none
              ∨ e = ErrReadTimeout ∧ m_timeout m = true ∧ r_expired (shared c) = true
  end.
Proof.
  intros Hr Hi. pose proof (result_inv_reach n c Hr) as (H1&H2).
  pose proof (closed_inv_reach _ _ Hr) as (_&H4&H5&_). pose proof (expired_inv_reach _ Hr) as (_&H6).
  pose proof (tally_pos expires _ _ _ Hi).
  pose proof (tally_pos (succeeds n) _ _ _ Hi). pose proof (tally_pos fails_closed _ _ _ Hi).
  pose proof (tally_pos fails_other _ _ _ Hi). pose proof (tally_pos times_out _ _ _ Hi).
  destruct e as [e|]; simpl in *; [|rewrite Z.eqb_refl in *; apply H1; lia].
  unfold closed_error in *.
  destruct (Z.eqb_spec e ErrEOF); [left; split; [by left|apply H4; simpl in *; lia]|].
  destruct (Z.eqb_spec e ErrConnClosed); [left; split; [by right|apply H4; simpl in *; lia]|].
  destruct (Z.eqb_spec e ErrReadTimeout); simpl in *; [right; split; [done|]|lia].
  split; [|apply H6; lia]. destruct (m_timeout m); [done|]. fire. lia.
Qed.

(** C7: no wake-up of a reader is lost: when a goroutine is blocked in waitRead(n)
    and every other thread has ended, then there are fewer than n bytes and the
    connection is open.  The order in which inputAck, onHup, onClose and
    waitRead touch the length, waitReadSize, closing and the channel does not
    matter, nor does a trigger that was dropped or left over. *)
Theorem waitRead_no_lost_wakeup c i n :
  rd_reach m c → threads c !! i = Some (RdRecv n) ∨ threads c !! i = Some (TmSelect n) →
  readTrigger (shared c) = None →
  (∀ j p, j ≠ i → threads c !! j = Some p → p = RdDone ∨ p = TmFire) →
  r_len (shared c) < n ∧ r_closing (shared c) = none.
Proof.
  intros Hr Hi Htr Hdone. pose proof (wait_inv_reach _ n c Hr) as (_&H1).
  pose proof (closed_inv_reach _ _ Hr) as (H2&_). rewrite Htr in *. simpl in *.
  assert (∀ f : rpc → nat, f RdDone = 0%nat → f TmFire = 0%nat → f (RdRecv n) = 0%nat → f (TmSelect n) = 0%nat →
    tally f (threads c) = 0%nat) as Hz.
  { intros f ???? . apply tally_zero. intros p [j Hj]%list_elem_of_lookup.
    destruct (decide (j = i)) as [->|Hne]; [destruct Hi; by simplify_eq|].
    by destruct (Hdone _ _ Hne Hj) as [->| ->]. }
  rewrite (Hz (wakes n)) in H1 by done. rewrite (Hz hangs) in H2 by done.
  assert ((1 ≤ tally (waits n) (threads c))%nat ∧ (1 ≤ tally blocks (threads c))%nat) as [H3 H4].
  { destruct Hi as [Hi|Hi]; pose proof (tally_pos (waits n) _ _ _ Hi) as Hp;
    pose proof (tally_pos blocks _ _ _ Hi) as Hq; simpl in *; rewrite Z.eqb_refl in Hp; lia. }
  unfold none. lia.
Qed.

(** The timer of waitReadWithTimeout: while waitRead selects, the timer runs
    or has fired; cleaning the channel of the timer never blocks; and whenever
    waitRead is entered the timer is stopped and its channel is empty, so that
    Reset is correct. *)
Theorem waitRead_timer c i p :
  rd_reach m c → threads c !! i = Some p →
  match p with
  | TmSelect _ => xorb (r_armed (shared c)) (r_fired (shared c)) = true
  | TmDrain _ _ => rd_step m (shared c) p NoChoice ≠ None
  | RdRun | RdEnter _ | TmSet _ => r_armed (shared c) = false ∧ r_fired (shared c) = false
  | _ => True
  end.
Proof.
  intros Hr Hi. pose proof (timer_inv_reach c Hr) as (H1&H2). pose proof (reader_inv_reach _ _ Hr) as (Hone&_).
  assert (reads p = 1%nat → tally timed (threads c) = timed p ∧ tally drains (threads c) = drains p) as Hsingle.
  { intros Hp. split; [apply (tally_single timed reads _ i)|apply (tally_single drains reads _ i)];
    try done; intros []; simpl; lia. }
  destruct p; try done; destruct (Hsingle eq_refl) as [E1 E2]; rewrite E1, E2 in *; simpl in *;
  destruct (r_armed _), (r_fired _); simpl in *; try done; lia.
Qed.
End results.

(** ** Executions *)

Definition rd_config (m : rmode) (l : list (act rpc rchoice)) : config rstate rpc :=
  default (rd_init m) (run_acts (rd_step m) rd_starts l (rd_init m)).

Lemma rd_config_reach m l : rd_reach m (rd_config m l).
Proof.
  unfold rd_config. destruct (run_acts _ _ l _) as [c|] eqn:E; simpl; [|apply rtc_refl].
  by eapply run_acts_reach.
Qed.

(** A client waits for 5 bytes; 3 arrive, and then 2. *)
Definition client : rmode := RMode false false false.
Definition block_acts : list (act rpc rchoice) :=
  [Run 0 (Want 5); Run 0 NoChoice; Run 0 NoChoice; Run 0 NoChoice; Run 0 NoChoice;
   Start (AkAck 3); Run 1 NoChoice; Run 1 NoChoice; Run 1 NoChoice].
Definition wake_acts : list (act rpc rchoice) :=
  [Start (AkAck 2); Run 2 NoChoice; Run 2 NoChoice; Run 2 NoChoice;
   Run 0 NoChoice; Run 0 NoChoice; Run 0 NoChoice].

Lemma waitRead_no_lost_wakeup_witness :
  let c := rd_config client block_acts in
  threads c = [RdRecv 5; RdDone] ∧ r_len (shared c) < 5 ∧ r_closing (shared c) = none.
Proof.
  split; [vm_compute; reflexivity|].
  apply (waitRead_no_lost_wakeup client _ 0 5); [apply rd_config_reach|left; vm_compute; reflexivity|vm_compute; reflexivity|].
  intros [|[|j]] p Hne Hj; [done| |done]. vm_compute in Hj. simplify_eq. by left.
Defined.

(** With a timeout: the timer fires while data arrives. *)
Definition timed_client : rmode := RMode false false true.
Definition race_acts : list (act rpc rchoice) :=
  [Run 0 (Want 5); Run 0 NoChoice; Run 0 NoChoice; Run 0 NoChoice; Run 0 NoChoice; Run 0 NoChoice;
   Start (AkAck 5); Run 1 NoChoice; Run 1 NoChoice; Run 1 NoChoice; Run 1 NoChoice;
   Run 0 ByTrigger; Start TmFire; Run 2 NoChoice; Run 0 NoChoice; Run 0 NoChoice].

Lemma waitRead_timer_witness :
  let c := rd_config timed_client race_acts in
  threads c !! 0%nat = Some (TmDrain 5 None) ∧ rd_step timed_client (shared c) (TmDrain 5 None) NoChoice ≠ None.
Proof.
  split; [vm_compute; reflexivity|].
  apply (waitRead_timer timed_client _ 0 (TmDrain 5 None)); [apply rd_config_reach|vm_compute; reflexivity].
Defined.

(** Five bytes are waited for; they arrive, or the timer fires. *)
Definition expire_acts : list (act rpc rchoice) :=
  [Run 0 (Want 5); Run 0 NoChoice; Run 0 NoChoice; Run 0 NoChoice; Run 0 NoChoice; Run 0 NoChoice;
   Start TmFire; Run 1 NoChoice; Run 0 ByTimer; Run 0 NoChoice; Run 0 NoChoice].

Lemma waitRead_returns_witness :
  5 <= r_len (shared (rd_config client (block_acts ++ wake_acts))) ∧
  threads (rd_config timed_client expire_acts) !! 0%nat = Some (RdRet 5 (Some ErrReadTimeout)) ∧
  ((ErrReadTimeout = ErrEOF ∨ ErrReadTimeout = ErrConnClosed) ∧ r_closing (shared (rd_config timed_client expire_acts)) ≠ none
   ∨ ErrReadTimeout = ErrReadTimeout ∧ true = true ∧ r_expired (shared (rd_config timed_client expire_acts)) = true).
Proof.
  split; [apply (waitRead_returns client _ 0 5 None); [apply rd_config_reach|vm_compute; reflexivity]|].
  split; [vm_compute; reflexivity|].
  apply (waitRead_returns timed_client _ 0 5 (Some ErrReadTimeout)); [apply rd_config_reach|vm_compute; reflexivity].
Defined.
