(* ===== verification/FifoReact.v ===== *)
(** * The handlers of a fifo's reader

    Models onProcess, onHup, onClose and inputAck of src/fifo_reactor.go and
    waitRead, waitReadWithTimeout and closeCallback of src/fifo_read_impl.go
    as threads; a step is one atomic operation.  The reader is the goroutine
    of the user, when OnFifoRead is not set, and otherwise the task that
    onProcess starts. *)

From S2P Require Import Prelude Threads Locker Errors.

Open Scope Z_scope.

(** OnFifoRead is set; [f.readTimeout > 0]. *)
Record fmode := FMode { fm_callback : bool; fm_timeout : bool }.

Record fstate := FState {
  f_locks : fifoLocker;             (* keychain *)
  f_len : Z;                        (* inputBuffer.Len() *)
  f_waitReadSize : Z;
  f_trigger : option (option Z);    (* readTrigger: a channel of capacity 1 *)
  f_armed : bool;                   (* readTimer is running, *)
  f_fired : bool;                   (* readTimer.C holds a value *)
  f_callbacks : nat;                (* how often the close callbacks have run *)
}.

Definition fset_locks x s := FState x (f_len s) (f_waitReadSize s) (f_trigger s) (f_armed s) (f_fired s) (f_callbacks s).
Definition fset_len x s := FState (f_locks s) x (f_waitReadSize s) (f_trigger s) (f_armed s) (f_fired s) (f_callbacks s).
Definition fset_wait x s := FState (f_locks s) (f_len s) x (f_trigger s) (f_armed s) (f_fired s) (f_callbacks s).
Definition fset_trigger x s := FState (f_locks s) (f_len s) (f_waitReadSize s) x (f_armed s) (f_fired s) (f_callbacks s).
Definition fset_timer x y s := FState (f_locks s) (f_len s) (f_waitReadSize s) (f_trigger s) x y (f_callbacks s).
Definition fset_called s := FState (f_locks s) (f_len s) (f_waitReadSize s) (f_trigger s) (f_armed s) (f_fired s) (S (f_callbacks s)).

(** Where a thread is; [n]: the bytes that are waited for, [e]: the error that
    is returned, [w]: who closed, [d]: needDetach. *)
Inductive fpc :=
(* the code that reads *)
| FUser
| FEnter (n : Z) | FStore (n : Z) | FLoop (n : Z) | FStatus (n : Z) | FRecv (n : Z)
| FReset (n : Z) (e : option Z) | FRet (n : Z) (e : option Z)
(* waitReadWithTimeout *)
| MSet (n : Z) | MLoop (n : Z) | MStatus (n : Z) | MSelect (n : Z) | MDouble (n : Z)
| MStop (n : Z) (e : option Z) | MDrain (n : Z) (e : option Z)
(* the task of onProcess *)
| PStart | PLoop | PLen (w : Z) | PClosed (w : Z) | PUnlock | PRecheck | PTryClose | PRestart | PTryStart | PPanic
(* closeCallback *)
| CLock (d : bool) | CDetach (d : bool) | CRun
(* inputAck *)
| IAck (n : Z) | IProcess (len : Z) | ILoad (len : Z) | ISend
(* onHup, onClose *)
| HBegin | HSend | HLoad
| UBegin | USend | UForce
| FFire
| FEnd.

(** What the environment decides. *)
Inductive fchoice := FWant (n : Z) | FRead (n : Z) | FReturn | FPanics | FByTimer | FByTrigger | FNone.

(** [f.triggerRead(err)] *)
Definition fifo_triggerRead (err : option Z) (s : fstate) : fstate :=
  match f_trigger s with None => fset_trigger (Some err) s | Some _ => s end.

Section steps.
Context (m : fmode).

Definition fgoto (s : fstate) (p : fpc) : option (fstate * fpc * list fpc) := Some (s, p, []).

Definition fclosing (s : fstate) : Z := fifo_status fifoClosing (f_locks s).

(** [f.lock(fifoProcessing)]: where to go with the lock and without. *)
Definition ftake (s : fstate) (yes no : fpc) : option (fstate * fpc * list fpc) :=
  let '(got, l) := fifo_lock fifoProcessing (f_locks s) in
  if got : bool then fgoto (fset_locks l s) yes else fgoto s no.
Definition frelease (s : fstate) : fstate := fset_locks (fifo_unlock fifoProcessing (f_locks s)) s.

Definition fifo_waitRead_step (s : fstate) (p : fpc) (c : fchoice) : option (fstate * fpc * list fpc) :=
  match p with
  | FUser =>
      match c with
      | FWant n => fgoto s (FEnter n)
      | FRead n => if (0 <=? n) && (n <=? f_len s) then fgoto (fset_len (f_len s - n) s) FUser else None
      | FReturn => fgoto s (if fm_callback m then PLoop else FEnd)
      | FPanics => if fm_callback m then fgoto s PPanic else None
      | _ => None
      end
  | FEnter n => fgoto s (if n <=? f_len s then FRet n None else FStore n)
  | FStore n => fgoto (fset_wait n s) (if fm_timeout m then MSet n else FLoop n)
  | FLoop n => fgoto s (if f_len s <? n then FStatus n else FReset n None)
  | FStatus n =>
      fgoto s (if fclosing s =? poller then FReset n (Some ErrEOF)
               else if fclosing s =? user then FReset n (Some ErrConnClosed)
               else FRecv n)
  | FRecv n =>
      e ← f_trigger s;
      fgoto (fset_trigger None s) (match e with None => FLoop n | Some _ => FReset n e end)
  (* the deferred store *)
  | FReset n e => fgoto (fset_wait 0 s) (FRet n e)
  | FRet n e => fgoto s FUser
  | _ => None
  end.

Definition fifo_timeout_step (s : fstate) (p : fpc) (c : fchoice) : option (fstate * fpc * list fpc) :=
  match p with
  | MSet n => fgoto (fset_timer true (f_fired s) s) (MLoop n)
  | MLoop n => fgoto s (if f_len s <? n then MStatus n else MStop n None)
  | MStatus n =>
      fgoto s (if fclosing s =? poller then MStop n (Some ErrEOF)
               else if fclosing s =? user then MStop n (Some ErrConnClosed)
               else MSelect n)
  | MSelect n =>
      match c with
      | FByTimer => if f_fired s then fgoto (fset_timer (f_armed s) false s) (MDouble n) else None
      | FByTrigger =>
          e ← f_trigger s;
          fgoto (fset_trigger None s) (match e with None => MLoop n | Some _ => MStop n e end)
      | _ => None
      end
  | MDouble n => fgoto s (FReset n (if n <=? f_len s then None else Some ErrReadTimeout))
  | MStop n e => fgoto (fset_timer false (f_fired s) s) (if f_armed s then FReset n e else MDrain n e)
  | MDrain n e => if f_fired s then fgoto (fset_timer (f_armed s) false s) (FReset n e) else None
  | FFire => if f_armed s then fgoto (fset_timer false true s) FEnd else None
  | _ => None
  end.

(** The task; the callback is [FUser]. *)
Definition onProcess_step (s : fstate) (p : fpc) : option (fstate * fpc * list fpc) :=
  match p with
  | PStart => fgoto s (if fm_callback m && (0 <? f_len s) then FUser else PLoop)
  | PLoop => fgoto s (if (fclosing s =? user) || negb (fm_callback m) then PClosed (fclosing s) else PLen (fclosing s))
  | PLen w => fgoto s (if f_len s =? 0 then PClosed w else FUser)
  | PClosed w => fgoto s (if negb (w =? none) then CDetach (w =? user) else PUnlock)
  | PUnlock => fgoto (frelease s) PRecheck
  | PRecheck => fgoto s (if negb (fclosing s =? 0) then PTryClose else PRestart)
  | PTryClose => ftake s CRun PRestart
  | PRestart => fgoto s (if fm_callback m && (0 <? f_len s) then PTryStart else FEnd)
  | PTryStart => ftake s PStart FEnd
  | PPanic => fgoto (frelease s) UBegin
  | _ => None
  end.

(** closeCallback, from the lock on. *)
Definition fifo_closeCallback_step (s : fstate) (p : fpc) : option (fstate * fpc * list fpc) :=
  match p with
  | CLock d => ftake s (CDetach d) FEnd
  | CDetach d => fgoto s CRun
  | CRun => fgoto (fset_called s) FEnd
  | _ => None
  end.

Definition fifo_inputAck_step (s : fstate) (p : fpc) : option (fstate * fpc * list fpc) :=
  match p with
  | IAck n =>
      if n <=? 0 then fgoto s FEnd
      else
        let len := f_len s + n in
        fgoto (fset_len len s) (if len =? n then IProcess len else ILoad len)
  | IProcess len =>
      let '(got, l) := fifo_lock fifoProcessing (f_locks s) in
      if got : bool then Some (fset_locks l s, FEnd, [PStart]) else fgoto s (ILoad len)
  | ILoad len => fgoto s (if f_waitReadSize s <=? len then ISend else FEnd)
  | ISend => fgoto (fifo_triggerRead None s) FEnd
  | _ => None
  end.

Definition fifo_close_step (s : fstate) (p : fpc) : option (fstate * fpc * list fpc) :=
  match p with
  | HBegin =>
      let '(ok, l) := fifo_closeBy poller (f_locks s) in
      if ok : bool then fgoto (fset_locks l s) HSend else fgoto s FEnd
  | HSend => fgoto (fifo_triggerRead (Some ErrEOF) s) HLoad
  | HLoad => fgoto s (if fm_callback m then CLock false else FEnd)
  | UBegin =>
      let '(ok, l) := fifo_closeBy user (f_locks s) in
      if ok : bool then fgoto (fset_locks l s) USend else fgoto s UForce
  | USend => fgoto (fifo_triggerRead (Some ErrConnClosed) s) (CLock true)
  | UForce => fgoto (fset_locks (fifo_force fifoClosing user (f_locks s)) s) (CLock false)
  | _ => None
  end.

Definition fifo_step (s : fstate) (p : fpc) (c : fchoice) : option (fstate * fpc * list fpc) :=
  match p with
  | FUser | FEnter _ | FStore _ | FLoop _ | FStatus _ | FRecv _ | FReset _ _ | FRet _ _ => fifo_waitRead_step s p c
  | MSet _ | MLoop _ | MStatus _ | MSelect _ | MDouble _ | MStop _ _ | MDrain _ _ | FFire => fifo_timeout_step s p c
  | PStart | PLoop | PLen _ | PClosed _ | PUnlock | PRecheck | PTryClose | PRestart | PTryStart | PPanic =>
      onProcess_step s p
  | CLock _ | CDetach _ | CRun => fifo_closeCallback_step s p
  | IAck _ | IProcess _ | ILoad _ | ISend => fifo_inputAck_step s p
  | HBegin | HSend | HLoad | UBegin | USend | UForce => fifo_close_step s p
  | FEnd => None
  end.

(** The poller reads and hangs up, somebody closes, the timer fires;
    AttachReadFifo calls onProcess once, which is [PTryStart]. *)
Definition fifo_starts (p : fpc) : bool :=
  match p with HBegin | UBegin | FFire | IAck _ | PTryStart => true | _ => false end.

Definition fifo_start : config fstate fpc :=
  Cfg (FState (FifoLocker 0 0 0) 0 0 None false false 0) (if fm_callback m then [] else [FUser]).

Definition fifo_reach (c : config fstate fpc) : Prop := reach fifo_step fifo_starts fifo_start c.
End steps.

(** ** Invariants *)

(** The thread that reads. *)
Definition freads (p : fpc) : nat :=
  match p with
  | FUser | FEnter _ | FStore _ | FLoop _ | FStatus _ | FRecv _ | FReset _ _ | FRet _ _
  | MSet _ | MLoop _ | MStatus _ | MSelect _ | MDouble _ | MStop _ _ | MDrain _ _ => 1
  | _ => 0
  end.

(** The threads that hold fifoProcessing, but for the callback. *)
Definition fholds (p : fpc) : nat :=
  match p with PStart | PLoop | PLen _ | PClosed _ | PUnlock | PPanic | CDetach _ | CRun => 1 | _ => 0 end.

(** A thread that may call the callback. *)
Definition fcalls (p : fpc) : nat := match p with PLen _ => 1 | _ => 0 end.

(** A thread that has seen the fifo closed; *)
Definition fsaw (p : fpc) : nat :=
  match p with
  | HSend | HLoad | USend | UForce | CLock _ | CDetach _ | CRun | PTryClose => 1
  | PClosed w | PLen w => if w =? none then 0 else 1
  | _ => 0
  end.

(** it will try to run the close callbacks. *)
Definition fcloser (p : fpc) : nat :=
  match p with USend | UBegin | UForce | CLock _ | PRecheck | PTryClose => 1 | _ => 0 end.
Definition fhup (p : fpc) : nat := match p with HSend | HLoad => 1 | _ => 0 end.

(** A thread that will look at the length again. *)
Definition flooks (p : fpc) : nat :=
  match p with IProcess _ | PRecheck | PRestart | PTryStart | UBegin => 1 | _ => 0 end.

Ltac fifo_unfold H :=
  cbv [fifo_step fifo_waitRead_step fifo_timeout_step onProcess_step fifo_closeCallback_step fifo_inputAck_step
    fifo_close_step fgoto ftake frelease fclosing fifo_triggerRead fifo_lock fifo_unlock fifo_force fifo_closeBy
    fifo_cas fifo_status mbind option_bind none user poller] in H; simpl in H.
Ltac fifo_solve s p Hs :=
  destruct s as [[]]; simpl in *; destruct p; fifo_unfold Hs;
  try match goal with E : fm_callback _ = _ |- _ => rewrite !E in Hs; simpl in Hs end; step_case;
  rewrite ?Nat.add_0_r in *; unfold tally in *; simpl in *; try lia.

Section invariants.
Context (m : fmode).

(** The task holds the lock while the callback runs. *)
Definition in_task (c : config fstate fpc) : nat := if fm_callback m then tally freads (threads c) else 0.

Definition flock_inv (c : config fstate fpc) : Prop :=
  let l := kf_processing (f_locks (shared c)) in
  l = Z.of_nat (in_task c + tally fholds (threads c) + f_callbacks (shared c)) ∧ l <= 1 ∧
  (tally freads (threads c) ≤ 1)%nat ∧ (fm_callback m = false → tally fcalls (threads c) = 0%nat).

Lemma flock_inv_reach c : fifo_reach m c → flock_inv c.
Proof.
  intros Hr. eapply (reach_inv _ _ flock_inv); [| |exact Hr|].
  - intros s ths i p ch s' p' sp (H1&H2&H3&H4) Hi Hs. unfold flock_inv, in_task in *. simpl in *.
    count freads Hi Hs. count fcalls Hi Hs. count fholds Hi Hs. destruct (fm_callback m) eqn:Em; fifo_solve s p Hs;
      try specialize (H4 eq_refl); split_and!; intros; try done; lia.
  - intros s ths p Hinv Hs. unfold flock_inv, in_task in *. simpl in *. rewrite !tally_start.
    destruct p; simpl in *; try done; rewrite ?Nat.add_0_r; done.
  - unfold flock_inv, in_task, fifo_start. simpl. destruct (fm_callback m); unfold tally; simpl; lia.
Qed.

(** Whoever has seen the fifo closed is right, and the callbacks run only then. *)
Definition fsaw_inv (c : config fstate fpc) : Prop :=
  0 <= fclosing (shared c) <= 2 ∧ 0 <= f_len (shared c) ∧
  ((1 ≤ tally fsaw (threads c) + f_callbacks (shared c))%nat → fclosing (shared c) ≠ none).

Lemma fsaw_inv_reach c : fifo_reach m c → fsaw_inv c.
Proof.
  intros Hr. eapply (reach_inv _ _ fsaw_inv); [| |exact Hr|].
  - intros s ths i p ch s' p' sp (H1&H2&H3) Hi Hs. unfold fsaw_inv, fclosing, fifo_status, none in *. simpl in *.
    count fsaw Hi Hs. fifo_solve s p Hs. all: unfold none in *; repeat case_match; step_case; split_and!; intros; try lia.
  - intros s ths p Hinv Hs. unfold fsaw_inv in *. simpl in *. rewrite !tally_start.
    destruct p; simpl in *; try done; rewrite ?Nat.add_0_r; done.
  - unfold fsaw_inv, fifo_start. simpl. unfold fclosing. destruct (fm_callback m); unfold tally; simpl; split_and!; try done; lia.
Qed.
End invariants.
