(* ===== verification/FifoProcess.v ===== *)
(** * What the handlers of a fifo's reader guarantee

    The callback runs in one goroutine at a time and sees everything that
    arrives, the close callbacks run once, and a reader is woken, from the
    invariants of [FifoReact]; and what happens without a callback. *)

From S2P Require Import Prelude Threads Locker Errors FifoReact.

Open Scope Z_scope.

(** waitReadSize is set to [n]. *)
Definition fstored (n : Z) (p : fpc) : nat :=
  match p with
  | FLoop k | FStatus k | FRecv k | FReset k _
  | MSet k | MLoop k | MStatus k | MSelect k | MDouble k | MStop k _ | MDrain k _ => if k =? n then 1 else 0
  | _ => 0
  end.

(** The length was seen to be below [n]. *)
Definition fwaits (n : Z) (p : fpc) : nat :=
  match p with FStatus k | FRecv k | MStatus k | MSelect k => if k =? n then 1 else 0 | _ => 0 end.

(** The fifo was seen to be open. *)
Definition fblocks (p : fpc) : nat := match p with FRecv _ | MSelect _ => 1 | _ => 0 end.

(** The poller is about to wake a reader that waits for [n] bytes; somebody
    has closed the fifo and is about to. *)
Definition fwakes (n : Z) (p : fpc) : nat :=
  match p with IProcess len | ILoad len => if n <=? len then 1 else 0 | ISend => 1 | _ => 0 end.
Definition fhangs (p : fpc) : nat := match p with HSend | USend => 1 | _ => 0 end.

Ltac ffire :=
  repeat match goal with
  | H : ?x = ?x → _ |- _ => specialize (H eq_refl)
  | H : ?x = ?y → _, E : ?x = ?y |- _ => specialize (H E)
  end; simpl in *.

Section theorems.
Context (m : fmode).

(** ** Closing *)

(** The close callbacks have to run. *)
Definition must_close (s : fstate) : Prop :=
  fclosing s = user ∨ fm_callback m = true ∧ fclosing s = poller.

Definition fclose_inv (c : config fstate fpc) : Prop :=
  must_close (shared c) →
  1 <= kf_processing (f_locks (shared c)) +
       Z.of_nat (tally fcloser (threads c) + (if fm_callback m then tally fhup (threads c) else 0)).

Lemma fclose_inv_reach c : fifo_reach m c → fclose_inv c.
Proof.
  revert c. apply (reach_inv_from _ _ _ fclose_inv).
  - intros s ths i p ch s' p' sp Hr Hinv Hi Hs. apply flock_inv_reach in Hr as (H1&H2&_).
    unfold fclose_inv, must_close, fclosing, fifo_status, user, poller in *. simpl in *.
    count fcloser Hi Hs. count fhup Hi Hs.
    destruct (fm_callback m) eqn:Em; fifo_solve s p Hs; intros Hm; try specialize (Hinv Hm); try lia.
    all: destruct_or?; destruct_and?; simplify_eq/=; try lia; try done.
  - intros s ths p Hinv Hs. unfold fclose_inv in *. simpl in *. rewrite !tally_start.
    destruct p; simpl in *; try done; rewrite ?Nat.add_0_r; try done; intros Hm; specialize (Hinv Hm); lia.
  - unfold fclose_inv, must_close, fclosing. simpl. by intros [|[]].
Qed.

(** ** Input *)

(** Somebody will look at the bytes that have arrived. *)
Definition fdata_inv (c : config fstate fpc) : Prop :=
  fm_callback m = true → fclosing (shared c) = none → 0 < f_len (shared c) →
  1 <= kf_processing (f_locks (shared c)) + Z.of_nat (tally flooks (threads c)).

Lemma fdata_inv_reach c : fifo_reach m c → fdata_inv c.
Proof.
  revert c. apply (reach_inv_from _ _ _ fdata_inv).
  - intros s ths i p ch s' p' sp Hr Hinv Hi Hs. pose proof (fsaw_inv_reach _ _ Hr) as (_&Hlen&_).
    apply flock_inv_reach in Hr as (H1&H2&_). unfold fdata_inv, in_task, fclosing, fifo_status, none in *. simpl in *. intros Em. rewrite !Em in *.
    specialize (Hinv eq_refl). count flooks Hi Hs. count freads Hi Hs.
    fifo_solve s p Hs; intros; ffire; try lia.
  - intros s ths p Hinv Hs. unfold fdata_inv in *. simpl in *. rewrite !tally_start.
    destruct p; simpl in *; try done; rewrite ?Nat.add_0_r; try done; intros; ffire; lia.
  - unfold fdata_inv, fclosing. by simpl.
Qed.

(** ** Waiting *)

Definition ffilled {A} (ch : option A) : Z := match ch with Some _ => 1 | None => 0 end.

Lemma ffilled_nonneg {A} (ch : option A) : 0 <= ffilled ch.
Proof. destruct ch; simpl; lia. Qed.

Definition fwait_inv (n : Z) (c : config fstate fpc) : Prop :=
  fm_callback m = true →
  ((1 ≤ tally (fstored n) (threads c))%nat → f_waitReadSize (shared c) = n) ∧
  ((1 ≤ tally (fwaits n) (threads c))%nat → n <= f_len (shared c) →
    1 <= ffilled (f_trigger (shared c)) + Z.of_nat (tally (fwakes n) (threads c))).

Lemma fwait_inv_reach n c : fifo_reach m c → fwait_inv n c.
Proof.
  revert c. apply (reach_inv_from _ _ _ (fwait_inv n)).
  - intros s ths i p ch s' p' sp Hr Hinv Hi Hs Em. apply flock_inv_reach in Hr as (Hl&Hle&Hone&_).
    destruct (Hinv Em) as [H1 H2]. unfold in_task in Hl. rewrite Em in Hl.
    assert (∀ f : fpc → nat, (∀ q, (f q ≤ freads q)%nat) → freads p = 1%nat → tally f ths = f p) as Hsingle.
    { intros f Hf. by apply (tally_single f freads ths i). }
    assert (∀ q, (fstored n q ≤ freads q)%nat) as Hst by (intros []; simpl; try case_match; lia).
    assert (∀ q, (fwaits n q ≤ freads q)%nat) as Hwt by (intros []; simpl; try case_match; lia).
    assert (∀ q, (fwaits n q ≤ fstored n q)%nat) as Hws by (intros []; simpl; try case_match; lia).
    pose proof (Hsingle _ Hst) as S1. pose proof (Hsingle _ Hwt) as S2.
    pose proof (tally_le _ _ ths Hws) as Hle1. pose proof (tally_le _ _ ths Hwt) as Hle2. clear Hsingle Hst Hwt Hws Hinv.
    simpl in *. pose proof (ffilled_nonneg (f_trigger s)).
    count (fstored n) Hi Hs. count (fwaits n) Hi Hs. count (fwakes n) Hi Hs. fifo_solve s p Hs.
    all: split_and!; intros; try done; try lia; step_case; simplify_eq/=; ffire;
      destruct_or?; simplify_eq/=; try done; try lia.
  - intros s ths p Hinv Hs Em. specialize (Hinv Em). simpl in *. rewrite !tally_start.
    destruct p; simpl in *; try done; rewrite ?Nat.add_0_r; done.
  - intros Em. unfold fifo_start. simpl. rewrite Em. unfold tally. simpl. lia.
Qed.

Definition fclosed_inv (c : config fstate fpc) : Prop :=
  (1 ≤ tally fblocks (threads c))%nat → fclosing (shared c) ≠ none →
  1 <= ffilled (f_trigger (shared c)) + Z.of_nat (tally fhangs (threads c)).

Lemma fclosed_inv_reach c : fifo_reach m c → fclosed_inv c.
Proof.
  revert c. apply (reach_inv_from _ _ _ fclosed_inv).
  - intros s ths i p ch s' p' sp Hr Hinv Hi Hs.
    pose proof (flock_inv_reach _ _ Hr) as (_&_&Hone&_). apply fsaw_inv_reach in Hr as (Hc&_&Hsaw). simpl in *.
    assert (freads p = 1%nat → tally fblocks ths = fblocks p) as Hsingle.
    { apply (tally_single fblocks freads ths i); [intros []; simpl; lia|done..]. }
    pose proof (ffilled_nonneg (f_trigger s)). count fblocks Hi Hs. count fhangs Hi Hs. count fsaw Hi Hs.
    unfold fclosed_inv, fclosing, fifo_status, none in *. fifo_solve s p Hs.
    all: intros; ffire; try done; try lia; destruct_or?; step_case; try done; try lia.
  - intros s ths p Hinv Hs. unfold fclosed_inv in *. simpl in *. rewrite !tally_start.
    destruct p; simpl in *; try done; rewrite ?Nat.add_0_r; done.
  - by unfold fclosed_inv, fclosing.
Qed.

(** ** The theorems *)

(** A thread that has nothing left to do. *)
Definition fquiet (p : fpc) : Prop := p = FEnd ∨ p = FFire.

Lemma fquiet_tally (f : fpc → nat) (c : config fstate fpc) i q :
  threads c !! i = Some q → (∀ j p, j ≠ i → threads c !! j = Some p → fquiet p) →
  f FEnd = 0%nat → f FFire = 0%nat → f q = 0%nat → tally f (threads c) = 0%nat.
Proof.
  intros Hi Hq H1 H2 H3. apply tally_zero. intros p [j Hj]%list_elem_of_lookup.
  destruct (decide (j = i)) as [->|Hne]; [by simplify_eq|]. by destruct (Hq _ _ Hne Hj) as [->| ->].
Qed.

(** The callback of a fifo and its close callbacks never run in two
    goroutines at a time, and the close callbacks run once at most, and only
    when the fifo was closed. *)
Theorem fifo_handlers_exclusive c :
  fm_callback m = true → fifo_reach m c →
  let closers := tally (λ p, match p with CRun => 1 | _ => 0 end)%nat (threads c) in
  (tally freads (threads c) + closers + f_callbacks (shared c) ≤ 1)%nat ∧
  ((1 ≤ closers + f_callbacks (shared c))%nat → fclosing (shared c) ≠ none).
Proof.
  intros Em Hr closers. destruct (flock_inv_reach _ _ Hr) as (Hl&Hle&_). destruct (fsaw_inv_reach _ _ Hr) as (_&_&Hsaw).
  unfold in_task in Hl. rewrite Em in Hl.
  assert (closers ≤ tally fholds (threads c))%nat by (apply tally_le; intros []; simpl; lia).
  assert (closers ≤ tally fsaw (threads c))%nat by (apply tally_le; intros []; simpl; lia).
  split; [lia|]. intros. apply Hsaw. lia.
Qed.

(** C20: A fifo that the user closed, or that the writers left while OnFifoRead
    is set, is closed completely: once all handlers have ended, its close
    callbacks have run, exactly once, whatever the order of the hang-up, the
    calls of Close, the input and the callback that was running, and also when
    the callback panicked. *)
Theorem fifo_close_complete c :
  fifo_reach m c → must_close (shared c) →
  (∀ p, p ∈ threads c → fquiet p ∨ fm_callback m = false ∧ freads p = 1%nat) →
  f_callbacks (shared c) = 1%nat.
Proof.
  intros Hr Hm Hq. destruct (flock_inv_reach _ _ Hr) as (Hl&Hle&_). pose proof (fclose_inv_reach _ Hr Hm) as Hc.
  assert (∀ f : fpc → nat, f FEnd = 0%nat → f FFire = 0%nat → (∀ p, freads p = 1%nat → f p = 0%nat) →
    tally f (threads c) = 0%nat) as Hz.
  { intros f H1 H2 H3. apply tally_zero. intros p Hp. destruct (Hq _ Hp) as [[->| ->]|[_ ?]]; auto. }
  rewrite (Hz fcloser), (Hz fhup) in Hc by (try done; intros []; done).
  rewrite (Hz fholds) in Hl by (try done; intros []; done). unfold in_task in Hl.
  assert ((if fm_callback m then tally freads (threads c) else 0) = 0)%nat as E.
  { destruct (fm_callback m) eqn:Em; [|done]. apply tally_zero. intros p Hp.
    by destruct (Hq _ Hp) as [[->| ->]|[? _]]. }
  rewrite E in Hl. destruct (fm_callback m); lia.
Qed.

(** C19: With OnFifoRead set, no input is lost: once all handlers have ended and
    the fifo is open, the callback has seen everything that has arrived. *)
Theorem fifo_no_lost_input c :
  fm_callback m = true → fifo_reach m c → fclosing (shared c) = none → (∀ p, p ∈ threads c → fquiet p) →
  f_len (shared c) = 0.
Proof.
  intros Em Hr Hop Hq. destruct (flock_inv_reach _ _ Hr) as (Hl&Hle&_). pose proof (fdata_inv_reach _ Hr Em Hop) as Hd.
  destruct (fsaw_inv_reach _ _ Hr) as (_&Hlen&Hsaw). unfold in_task in Hl. rewrite Em in Hl.
  assert (∀ f : fpc → nat, f FEnd = 0%nat → f FFire = 0%nat → tally f (threads c) = 0%nat) as Hz.
  { intros f H1 H2. apply tally_zero. intros p Hp. by destruct (Hq _ Hp) as [->| ->]. }
  rewrite (Hz flooks) in Hd by done. rewrite (Hz freads), (Hz fholds) in Hl by done.
  destruct (decide (f_len (shared c) = 0)); [done|].
  assert (f_callbacks (shared c) = 1%nat) by lia. destruct Hsaw; [lia|done].
Qed.

(** C35: With OnFifoRead set, no wake-up of a callback that waits for more is
    lost: when it is blocked and every other thread has ended, then there are
    fewer bytes than it waits for, and the fifo is open. *)
Theorem fifo_no_lost_wakeup c i n :
  fm_callback m = true → fifo_reach m c → threads c !! i = Some (FRecv n) ∨ threads c !! i = Some (MSelect n) →
  f_trigger (shared c) = None → (∀ j p, j ≠ i → threads c !! j = Some p → fquiet p) →
  f_len (shared c) < n ∧ fclosing (shared c) = none.
Proof.
  intros Em Hr Hi Htr Hq. destruct (fwait_inv_reach n _ Hr Em) as [_ H1]. pose proof (fclosed_inv_reach _ Hr) as H2.
  unfold fclosed_inv in H2. rewrite Htr in *. simpl in *.
  assert (∃ q, threads c !! i = Some q ∧ fwakes n q = 0%nat ∧ fhangs q = 0%nat ∧ fwaits n q = 1%nat ∧ fblocks q = 1%nat)
    as (q&Hiq&E1&E2&E3&E4) by (destruct Hi as [Hi|Hi]; eexists; (split; [exact Hi|]); simpl; by rewrite Z.eqb_refl).
  rewrite (fquiet_tally (fwakes n) c i q) in H1 by done. rewrite (fquiet_tally fhangs c i q) in H2 by done.
  pose proof (tally_pos (fwaits n) _ _ _ Hiq). pose proof (tally_pos fblocks _ _ _ Hiq).
  split; [destruct (Z.lt_ge_cases (f_len (shared c)) n); [done|lia]|].
  destruct (decide (fclosing (shared c) = none)); [done|]. lia.
Qed.
End theorems.

(** ** Executions *)

Definition fifo_config (m : fmode) (l : list (act fpc fchoice)) (c : config fstate fpc) : config fstate fpc :=
  default c (run_acts (fifo_step m) fifo_starts l c).

Lemma fifo_config_reach m l : fifo_reach m (fifo_config m l (fifo_start m)).
Proof.
  unfold fifo_config. destruct (run_acts _ _ l _) as [c|] eqn:E; simpl; [|apply rtc_refl].
  by eapply run_acts_reach.
Qed.

Definition steps (i : nat) (n : nat) : list (act fpc fchoice) := repeat (Run i FNone) n.
Definition with_callback : fmode := FMode true false.
Definition without_callback : fmode := FMode false false.

(** Three bytes arrive; the callback reads one, and waits for five more. *)
Definition fblock_acts : list (act fpc fchoice) :=
  Start (IAck 3) :: steps 0 2 ++ steps 1 1 ++ [Run 1 (FRead 1); Run 1 (FWant 5)] ++ steps 1 4.

Lemma fifo_no_lost_wakeup_witness :
  let c := fifo_config with_callback fblock_acts (fifo_start with_callback) in
  threads c = [FEnd; FRecv 5] ∧ f_len (shared c) < 5 ∧ fclosing (shared c) = none.
Proof.
  split; [vm_compute; reflexivity|].
  apply (fifo_no_lost_wakeup with_callback _ 1 5); [done|apply fifo_config_reach|left; vm_compute; reflexivity
    |vm_compute; reflexivity|].
  intros [|[|j]] p Hne Hj; [|done|done]. vm_compute in Hj. simplify_eq. by left.
Defined.

(** Five more arrive; the callback reads all of them and returns. *)
Definition fread_acts : list (act fpc fchoice) :=
  fblock_acts ++ [Start (IAck 5)] ++ steps 2 3 ++ steps 1 4 ++ [Run 1 (FRead 7); Run 1 FReturn] ++ steps 1 6.

Lemma fifo_no_lost_input_witness :
  let c := fifo_config with_callback fread_acts (fifo_start with_callback) in
  threads c = [FEnd; FEnd; FEnd] ∧ f_len (shared c) = 0.
Proof.
  split; [vm_compute; reflexivity|].
  apply (fifo_no_lost_input with_callback); [done|apply fifo_config_reach|vm_compute; reflexivity|].
  intros p [[|[|[|j]]] Hj]%list_elem_of_lookup; vm_compute in Hj; simplify_eq; by left.
Defined.

(** The callback is running when the writers go away; it panics. *)
Definition fclose_acts : list (act fpc fchoice) :=
  [Start (IAck 3)] ++ steps 0 2 ++ steps 1 1 ++ [Start HBegin] ++ steps 2 4 ++ [Run 1 FPanics] ++ steps 1 6.

Lemma fifo_close_complete_witness :
  let c := fifo_config with_callback fclose_acts (fifo_start with_callback) in
  threads c = [FEnd; FEnd; FEnd] ∧ f_callbacks (shared c) = 1%nat.
Proof.
  split; [vm_compute; reflexivity|].
  apply (fifo_close_complete with_callback); [apply fifo_config_reach|left; vm_compute; reflexivity|].
  intros p [[|[|[|j]]] Hj]%list_elem_of_lookup; vm_compute in Hj; simplify_eq; by left; left.
Defined.

Lemma fifo_handlers_exclusive_witness :
  let c := fifo_config with_callback fblock_acts (fifo_start with_callback) in
  (tally freads (threads c) + tally (λ p, match p with CRun => 1 | _ => 0 end)%nat (threads c) +
    f_callbacks (shared c) ≤ 1)%nat.
Proof. apply (fifo_handlers_exclusive with_callback); [done|apply fifo_config_reach]. Defined.

(** A reader without a callback waits for five bytes, and five arrive. *)
Definition flost_acts : list (act fpc fchoice) :=
  [Run 0 (FWant 5)] ++ steps 0 4 ++ [Start (IAck 5)] ++ steps 1 2 ++ steps 2 6.

(** Without OnFifoRead, a reader that waits for the first input is not
    woken by it: inputAck finds that it is the first, onProcess takes the
    lock, starts a task that has nothing to do and reports that the input was
    processed, and no trigger is sent.  The reader stays blocked although the
    bytes it waits for are there and everybody else has ended. *)
Theorem fifo_lost_wakeup :
  let c := fifo_config without_callback flost_acts (fifo_start without_callback) in
  fifo_reach without_callback c ∧ threads c = [FRecv 5; FEnd; FEnd] ∧
  f_len (shared c) = 5 ∧ f_trigger (shared c) = None ∧ fclosing (shared c) = none.
Proof. split; [apply fifo_config_reach|vm_compute; done]. Qed.

(** Input arrives before SetOnFifoRead, as it may in fifoConnection.init, which
    sets the callback when the reader is registered already; and then more. *)
Definition flate_acts1 : list (act fpc fchoice) := [Start (IAck 5)] ++ steps 0 2 ++ steps 1 6.
Definition flate_acts2 : list (act fpc fchoice) := [Start (IAck 3)] ++ steps 2 3.

(** A callback that is set after the first input has arrived is never
    called: only input that finds the buffer empty starts the task. *)
Theorem fifo_late_callback :
  let c1 := fifo_config without_callback flate_acts1 (fifo_start with_callback) in
  let c2 := fifo_config with_callback flate_acts2 c1 in
  threads c1 = [FEnd; FEnd] ∧ f_len (shared c1) = 5 ∧
  threads c2 = [FEnd; FEnd; FEnd] ∧ f_len (shared c2) = 8 ∧ fclosing (shared c2) = none.
Proof. vm_compute. done. Qed.
