(* ===== verification/FifoConn.v ===== *)
(** * The life of a fifo, a fifo connection and the fifo manager

    Models src/fifo_event.go and src/fifo_base_impl.go, init, Close, Detach,
    closeCallback and the finalizers of src/fifo_read_impl.go and
    src/fifo_write_impl.go with onHup and onClose of src/fifo_reactor.go,
    src/fifo_connection_impl.go and src/fifo_manager.go, as one goroutine runs
    them; the interleavings are the subject of FifoReact.v.  A method called
    on the nil operator panics.  What the system calls answer is a parameter. *)

From stdpp Require Import strings.
From S2P Require Import Prelude Errors SysExec LinkNode LinkInv Locker.

Open Scope Z_scope.

Definition ENXIO : Z := 6.

(** A close callback: the finalizer of init, what the manager adds, or one of
    the user. *)
Inductive side := Reader | Writer.
Inductive fcb := Finalizer | DelFifo (sd : side) (fd : Z) | UserCb (id : nat).

#[global] Instance side_eq_dec : EqDecision side.
Proof. solve_decision. Defined.

Record fifo := Fifo {
  ff_fd : Z;
  ff_path : string;
  ff_operator : option bool;     (* nil, or whether operator.poll is set *)
  ff_locks : fifoLocker;
  ff_closing : bool;             (* Detach was called *)
  ff_callbacks : list fcb;       (* closeCallbacks, the latest first *)
  ff_onRead : bool;              (* onFifoReadCallback is set *)
}.

Definition new_fifo : fifo := Fifo 0 EmptyString None (FifoLocker 0 0 0) false [] false.

Definition set_fd x f := Fifo x (ff_path f) (ff_operator f) (ff_locks f) (ff_closing f) (ff_callbacks f) (ff_onRead f).
Definition set_path x f := Fifo (ff_fd f) x (ff_operator f) (ff_locks f) (ff_closing f) (ff_callbacks f) (ff_onRead f).
Definition set_operator x f := Fifo (ff_fd f) (ff_path f) x (ff_locks f) (ff_closing f) (ff_callbacks f) (ff_onRead f).
Definition set_locks x f := Fifo (ff_fd f) (ff_path f) (ff_operator f) x (ff_closing f) (ff_callbacks f) (ff_onRead f).
Definition set_detach f := Fifo (ff_fd f) (ff_path f) (ff_operator f) (ff_locks f) true (ff_callbacks f) (ff_onRead f).
Definition set_callbacks x f := Fifo (ff_fd f) (ff_path f) (ff_operator f) (ff_locks f) (ff_closing f) x (ff_onRead f).
Definition set_onRead f := Fifo (ff_fd f) (ff_path f) (ff_operator f) (ff_locks f) (ff_closing f) (ff_callbacks f) true.

(** What there is besides: the open descriptors, those the poller knows, the
    manager's fifos by kind and descriptor, and the callbacks of users that have run. *)
Record world := World {
  w_open : list Z;
  w_polled : list Z;
  w_fifos : list (side * Z);
  w_ran : list nat;
}.

Definition set_open x w := World x (w_polled w) (w_fifos w) (w_ran w).
Definition set_polled x w := World (w_open w) x (w_fifos w) (w_ran w).
Definition set_fifos x w := World (w_open w) (w_polled w) x (w_ran w).
Definition set_ran x w := World (w_open w) (w_polled w) (w_fifos w) x.

(** Without [x]. *)
Definition without {A} `{EqDecision A} (x : A) (l : list A) : list A := filter (λ y, y ≠ x) l.

Record fw := FW { fo : fifo; wo : world }.

Definition upd (g : fifo → fifo) : M fw unit := modify (λ s, FW (g (fo s)) (wo s)).
Definition updw (g : world → world) : M fw unit := modify (λ s, FW (fo s) (g (wo s))).

(** [f.AddCloseCallback(callback)] *)
Definition AddCloseCallback (cb : fcb) : M fw unit := upd (λ f, set_callbacks (cb :: ff_callbacks f) f).

Section fifo.
(** mkfifo(2), open(2) with the descriptors that are open, and epoll_ctl(2);
    the error, or the descriptor. *)
Context (mkfifo : string → option Z) (open : side → string → list Z → answer Z) (epoll_add : Z → option Z).

(** [operator.Free()], and the end of the descriptor. *)
Definition finalizer (sd : side) : M fw unit :=
  s ← get;
  _ ← (match sd with
       | Reader => mret tt
       | Writer =>    (* it spins while somebody flushes *)
           match fifo_stop fifoFlushing (ff_locks (fo s)) with
           | Some l => upd (set_locks l)
           | None => out_of_fuel
           end
       end);
  match ff_operator (fo s) with
  | None => panic
  | Some _ =>
      _ ← upd (set_operator (Some false));
      let fd := ff_fd (fo s) in
      if negb (ff_closing (fo s)) && (2 <? fd) then updw (λ w, set_open (without fd (w_open w)) w) else mret tt
  end.

Definition run_callback (sd : side) (cb : fcb) : M fw unit :=
  match cb with
  | Finalizer => finalizer sd
  | DelFifo sd fd => updw (λ w, set_fifos (without (sd, fd) (w_fifos w)) w)
  | UserCb id => updw (λ w, set_ran (w_ran w ++ [id]) w)
  end.

(** The loop over the callbacks, from the latest on. *)
Fixpoint run_callbacks (sd : side) (cbs : list fcb) : M fw unit :=
  match cbs with
  | [] => mret tt
  | cb :: cbs => _ ← run_callback sd cb; run_callbacks sd cbs
  end.

(** [f.closeCallback(needLock, needDetach)] *)
Definition closeCallback (sd : side) (needLock needDetach : bool) : M fw unit :=
  s ← get;
  let '(got, l) := fifo_lock fifoProcessing (ff_locks (fo s)) in
  if needLock && negb got then mret tt
  else
    _ ← (if needLock then upd (set_locks l) else mret tt);
    _ ← (if needDetach : bool then
           match ff_operator (fo s) with
           | None => panic
           | Some poll => if poll : bool then updw (λ w, set_polled (without (ff_fd (fo s)) (w_polled w)) w) else mret tt
           end
         else mret tt);
    s ← get;
    run_callbacks sd (ff_callbacks (fo s)).

(** [f.onClose()], which is [f.Close()] *)
Definition onClose (sd : side) : M fw unit :=
  s ← get;
  let '(ok, l) := fifo_closeBy user (ff_locks (fo s)) in
  if ok : bool then _ ← upd (set_locks l); closeCallback sd true true
  else _ ← upd (λ f, set_locks (fifo_force fifoClosing user (ff_locks f)) f); closeCallback sd true false.

(** [f.Detach()] *)
Definition Detach (sd : side) : M fw unit := _ ← upd set_detach; onClose sd.

(** [f.onHup(p)]: the poller has removed the descriptor. *)
Definition onHup (sd : side) : M fw unit :=
  s ← get;
  _ ← updw (λ w, set_polled (without (ff_fd (fo s)) (w_polled w)) w);
  let '(ok, l) := fifo_closeBy poller (ff_locks (fo s)) in
  if ok : bool then
    _ ← upd (set_locks l);
    match sd with
    | Reader => if ff_onRead (fo s) then closeCallback sd true false else mret tt
    | Writer => closeCallback sd true false
    end
  else mret tt.

(** The rest of init, when the file exists; [onRead]: opts.onFifoRead is set.
    The reader registers at once, the writer when it has to wait. *)
Definition init_open (sd : side) (path : string) (onRead : bool) : M fw (option Z) :=
  s ← get;
  match open sd path (w_open (wo s)) with
  | Fails e => mret (Some e)
  | Answer fd =>
      _ ← updw (λ w, set_open (fd :: w_open w) w);
      _ ← upd (set_fd fd);
      _ ← upd (set_operator (Some true));
      _ ← AddCloseCallback Finalizer;
      match sd with
      | Writer => mret None
      | Reader =>
          _ ← (if onRead then upd set_onRead else mret tt);
          match epoll_add fd with
          | Some _ => _ ← onClose sd; mret (Some ErrConnClosed)
          | None => _ ← updw (λ w, set_polled (fd :: w_polled w) w); mret None
          end
      end
  end.

(** [f.init(path, opts)] *)
Definition init (sd : side) (path : string) (onRead : bool) : M fw (option Z) :=
  _ ← upd (set_path path);
  match mkfifo path with
  | Some e => if Errno_Is e (Sentinel SExist) then init_open sd path onRead else mret (Some e)
  | None => init_open sd path onRead
  end.

(** ** fifoConnection *)

Inductive ccb := CUser (id : nat) | DelConn (path : string).

Record fifoConnection := FifoConnection {
  fc_reader : option fifo;
  fc_writer : option fifo;
  fc_callbacks : list ccb;
  fc_writerReady : bool;
  fc_writerPath : string;
}.

Definition new_conn : fifoConnection := FifoConnection None None [] false EmptyString.

Definition set_reader x c := FifoConnection x (fc_writer c) (fc_callbacks c) (fc_writerReady c) (fc_writerPath c).
Definition set_writer x c := FifoConnection (fc_reader c) x (fc_callbacks c) (fc_writerReady c) (fc_writerPath c).
Definition set_ccallbacks x c := FifoConnection (fc_reader c) (fc_writer c) x (fc_writerReady c) (fc_writerPath c).
Definition set_ready x c := FifoConnection (fc_reader c) (fc_writer c) (fc_callbacks c) x (fc_writerPath c).
Definition set_writerPath x c := FifoConnection (fc_reader c) (fc_writer c) (fc_callbacks c) (fc_writerReady c) x.

(** The connection, the world, and the connections the manager knows. *)
Record cw := CW { co : fifoConnection; cwo : world; w_conns : list string }.

Definition updc (g : fifoConnection → fifoConnection) : M cw unit := modify (λ s, CW (g (co s)) (cwo s) (w_conns s)).

(** A method of the reader or the writer; it panics on nil. *)
Definition on_side {A} (sd : side) (m : M fw A) : M cw A := λ s,
  match (match sd with Reader => fc_reader | Writer => fc_writer end) (co s) with
  | None => Panic
  | Some f =>
      match m (FW f (cwo s)) with
      | Ret (a, FW f' w') =>
          Ret (a, CW ((match sd with Reader => set_reader | Writer => set_writer end) (Some f') (co s)) w' (w_conns s))
      | Panic => Panic
      | OutOfFuel => OutOfFuel
      end
  end.

(** [f.AddCloseCallback(callback)] and [f.closeCallback()] *)
Definition conn_AddCloseCallback (cb : ccb) : M cw unit := updc (λ c, set_ccallbacks (cb :: fc_callbacks c) c).

Definition conn_run_callback (cb : ccb) : M cw unit :=
  match cb with
  | CUser id => modify (λ s, CW (co s) (set_ran (w_ran (cwo s) ++ [id]) (cwo s)) (w_conns s))
  | DelConn path => modify (λ s, CW (co s) (cwo s) (without path (w_conns s)))
  end.

Fixpoint conn_closeCallback (cbs : list ccb) : M cw unit :=
  match cbs with
  | [] => mret tt
  | cb :: cbs => _ ← conn_run_callback cb; conn_closeCallback cbs
  end.

(** [f.Close()]; the errors of the two are nil. *)
Definition conn_Close : M cw unit :=
  s ← get;
  _ ← conn_closeCallback (fc_callbacks (co s));
  s ← get;
  _ ← (match fc_reader (co s) with Some _ => on_side Reader (onClose Reader) | None => mret tt end);
  s ← get;
  match fc_writer (co s) with Some _ => on_side Writer (onClose Writer) | None => mret tt end.

(** [f.GetFDs()] *)
Definition GetFDs (c : fifoConnection) : Z * Z :=
  match fc_reader c, fc_writer c with
  | None, None => (-1, -1)
  | None, Some w => (-1, ff_fd w)
  | Some r, None => (ff_fd r, -1)
  | Some r, Some w => (ff_fd r, ff_fd w)
  end.

Definition IsWriterReady (c : fifoConnection) : bool :=
  match fc_writer c with None => false | Some _ => fc_writerReady c end.

(** [f.TryInitWriter()] *)
Definition TryInitWriter : M cw (option Z) :=
  s ← get;
  if IsWriterReady (co s) then mret None
  else
    e ← on_side Writer (init Writer (fc_writerPath (co s)) false);
    match e with
    | Some e => mret (Some e)
    | None => _ ← updc (set_ready true); mret None
    end.

(** [f.Write(b)] up to the write of the writer, [write]. *)
Definition conn_Write {A} (write : M fw A) : M cw (A + Z) :=
  s ← get;
  e ← (if negb (IsWriterReady (co s)) then TryInitWriter else mret None);
  match e with
  | Some e => mret (inr e)
  | None => a ← on_side Writer write; mret (inl a)
  end.

(** [f.init(readerPath, writerPath, opts)]; [opts]: onFifoTransfer and
    onFifoRead are set.  The first error is not a system error. *)
Inductive initError := NoTransfer | InitErr (e : Z).

Definition conn_init (readerPath writerPath : string) (onTransfer onRead : bool) : M cw (option initError) :=
  if negb onTransfer then mret (Some NoTransfer)
  else
    _ ← updc (set_writerPath writerPath);
    _ ← updc (set_ready false);
    _ ← updc (set_reader (Some new_fifo));
    e ← on_side Reader (init Reader readerPath onRead);
    match e with
    | Some e => mret (Some (InitErr e))
    | None =>
        _ ← on_side Reader (upd set_onRead);
        _ ← updc (set_writer (Some new_fifo));
        e ← on_side Writer (init Writer writerPath false);
        match e with
        | None => _ ← updc (set_ready true); mret None
        | Some e => if e =? ENXIO then mret None else mret (Some (InitErr e))
        end
    end.

(** ** fifoManager *)

(** The objects, in the order in which Range finds them; an entry of the maps
    readFifos, writeFifos and fifoConnections is an object whose key is in
    [w_fifos] or [mg_keys]. *)
Record manager := Manager {
  mg_fifos : list (side * fifo);
  mg_conns : list (string * fifoConnection);
  mg_keys : list string;
  mg_world : world;
}.

Definition new_manager (w : world) : manager := Manager [] [] [] w.

(** AttachReadFifo and GenerateWriteFifo; [onRead]: opts.onFifoRead is set. *)
Definition attach (sd : side) (path : string) (onRead : bool) : M manager (option Z) := λ g,
  match (e ← init sd path onRead;
         match e with
         | Some e => mret (Some e)
         | None =>
             s ← get;
             let fd := ff_fd (fo s) in
             _ ← AddCloseCallback (DelFifo sd fd);
             _ ← updw (λ w, set_fifos ((sd, fd) :: without (sd, fd) (w_fifos w)) w);
             mret None
         end) (FW new_fifo (mg_world g)) with
  | Ret (Some e, s) => Ret (Some e, Manager (mg_fifos g) (mg_conns g) (mg_keys g) (wo s))
  | Ret (None, s) => Ret (None, Manager (filter (λ x, (x.1, ff_fd x.2) ≠ (sd, ff_fd (fo s))) (mg_fifos g) ++ [(sd, fo s)]) (mg_conns g) (mg_keys g) (wo s))
  | Panic => Panic
  | OutOfFuel => OutOfFuel
  end.

Definition AttachFifoConnection (readerPath writerPath : string) (onTransfer onRead : bool) : M manager (option initError) := λ g,
  match (e ← conn_init readerPath writerPath onTransfer onRead;
         match e with
         | Some e => mret (Some e)
         | None =>
             _ ← conn_AddCloseCallback (DelConn readerPath);
             _ ← modify (λ s, CW (co s) (cwo s) (readerPath :: without readerPath (w_conns s)));
             mret None
         end) (CW new_conn (mg_world g) (mg_keys g)) with
  | Ret (Some e, s) => Ret (Some e, Manager (mg_fifos g) (mg_conns g) (w_conns s) (cwo s))
  | Ret (None, s) => Ret (None, Manager (mg_fifos g) (filter (λ x, x.1 ≠ readerPath) (mg_conns g) ++ [(readerPath, co s)]) (w_conns s) (cwo s))
  | Panic => Panic
  | OutOfFuel => OutOfFuel
  end.

(** The loops of Close. *)
Fixpoint close_fifos (fs : list (side * fifo)) : M world unit :=
  match fs with
  | [] => mret tt
  | (sd, f) :: fs =>
      w ← get;
      _ ← (if bool_decide ((sd, ff_fd f) ∈ w_fifos w) then
             λ w, match onClose sd (FW f w) with Ret (_, s) => Ret (tt, wo s) | Panic => Panic | OutOfFuel => OutOfFuel end
           else mret tt);
      close_fifos fs
  end.

Fixpoint close_conns (cs : list (string * fifoConnection)) : M (world * list string) unit :=
  match cs with
  | [] => mret tt
  | (path, c) :: cs =>
      w ← get;
      _ ← (if bool_decide (path ∈ w.2) then
             λ w, match conn_Close (CW c w.1 w.2) with
                  | Ret (_, s) => Ret (tt, (cwo s, w_conns s)) | Panic => Panic | OutOfFuel => OutOfFuel end
           else mret tt);
      close_conns cs
  end.

(** [m.Close()]: the readers, the writers, the connections *)
Definition manager_Close : M manager unit := λ g,
  let all sd := filter (λ x : side * fifo, x.1 = sd) (mg_fifos g) in
  match (_ ← close_fifos (all Reader); close_fifos (all Writer)) (mg_world g) with
  | Ret (_, w) =>
      match close_conns (mg_conns g) (w, mg_keys g) with
      | Ret (_, (w, keys)) => Ret (tt, Manager (mg_fifos g) (mg_conns g) keys w)
      | Panic => Panic
      | OutOfFuel => OutOfFuel
      end
  | Panic => Panic
  | OutOfFuel => OutOfFuel
  end.

(** [m.GetFifoConnectionByReaderPath(readerPath)] *)
Definition GetFifoConnectionByReaderPath (path : string) (g : manager) : option fifoConnection :=
  if bool_decide (path ∈ mg_keys g) then (λ x, x.2.2) <$> list_find (λ x, x.1 = path) (mg_conns g) else None.

(** [m.GetFifoConnections()] *)
Definition GetFifoConnections (g : manager) : list fifoConnection :=
  omap (λ path, GetFifoConnectionByReaderPath path g) (mg_keys g).
End fifo.
