(* ===== verification/FifoConnTheorems.v ===== *)
(** * What opening and closing fifos does

    The theorems about [FifoConn]: descriptors are closed once, the poller
    forgets them, callbacks run in the reverse order; and what goes wrong when
    a fifo connection has no writer yet. *)

From stdpp Require Import strings.
From S2P Require Import Prelude Errors SysExec LinkNode LinkInv Locker FifoConn.

Open Scope Z_scope.

Lemma filter_all {A} (P : A → Prop) `{∀ x, Decision (P x)} (l : list A) : (∀ x, x ∈ l → P x) → filter P l = l.
Proof.
  induction l as [|y l IH]; intros Hp; [done|]. rewrite filter_cons_True by (apply Hp; left).
  rewrite IH; [done|]. intros x Hx. apply Hp. by right.
Qed.

Lemma without_fresh {A} `{EqDecision A} (x : A) l : x ∉ l → without x l = l.
Proof.
  intros Hx. apply filter_all. intros y Hy ->. done.
Qed.

Lemma without_cons {A} `{EqDecision A} (x : A) l : x ∉ l → without x (x :: l) = l.
Proof. intros Hx. unfold without. rewrite filter_cons_False by (intros H; by apply H). by apply without_fresh. Qed.

Lemma elem_of_without {A} `{EqDecision A} (x y : A) l : y ∈ without x l ↔ y ≠ x ∧ y ∈ l.
Proof. unfold without. by rewrite list_elem_of_filter. Qed.

(** A descriptor is used up by its finalizer: what the callbacks before it do
    to the rest. *)
Definition cb_world (cb : fcb) (w : world) : world :=
  match cb with
  | Finalizer => w
  | DelFifo sd fd => set_fifos (without (sd, fd) (w_fifos w)) w
  | UserCb id => set_ran (w_ran w ++ [id]) w
  end.
Definition cbs_world (cbs : list fcb) (w : world) : world := foldl (λ w cb, cb_world cb w) w cbs.

Lemma run_plain sd cbs rest f w :
  Finalizer ∉ cbs → run_callbacks sd (cbs ++ rest) (FW f w) = run_callbacks sd rest (FW f (cbs_world cbs w)).
Proof.
  revert w. induction cbs as [|cb cbs IH]; intros w Hf; [done|].
  rewrite not_elem_of_cons in Hf. destruct Hf as [Hcb Hf]. simpl. destruct cb; [done| |]; by apply IH.
Qed.

(** What callbacks leave alone. *)
Lemma cbs_world_open cbs w : w_open (cbs_world cbs w) = w_open w ∧ w_polled (cbs_world cbs w) = w_polled w.
Proof. revert w. induction cbs as [|[] cbs IH]; intros w; [done|..]; simpl; by rewrite !(proj1 (IH _)), !(proj2 (IH _)). Qed.

(** An open fifo, to which callbacks were added since init. *)
Record live (f : fifo) (cbs : list fcb) : Prop := Live {
  lv_fd : 2 < ff_fd f;
  lv_operator : ff_operator f = Some true;
  lv_locks : ff_locks f = FifoLocker 0 0 0;
  lv_callbacks : ff_callbacks f = cbs ++ [Finalizer];
  lv_plain : Finalizer ∉ cbs;
}.

(** What closing it does to the rest: the poller forgets the descriptor, the
    callbacks run, the latest first, and the descriptor is closed. *)
Definition closed_world (detach : bool) (f : fifo) (cbs : list fcb) (w : world) : world :=
  let w := cbs_world cbs (set_polled (without (ff_fd f) (w_polled w)) w) in
  if detach then w else set_open (without (ff_fd f) (w_open w)) w.

Definition closed_locks (sd : side) (who : Z) : fifoLocker :=
  FifoLocker who 1 (match sd with Reader => 0 | Writer => 2 end).

Lemma onClose_live sd f cbs w : live f cbs →
  onClose sd (FW f w) =
    Ret (tt, FW (set_operator (Some false) (set_locks (closed_locks sd user) f)) (closed_world (ff_closing f) f cbs w)).
Proof.
  intros [Hfd Hop Hl Hcb Hpl]. destruct f as [fd path op l cl cb onr]. simpl in *. subst op l cb.
  unfold onClose, closeCallback, upd, updw, mbind, M_bind, get, modify. simpl.
  rewrite run_plain by done. simpl. unfold finalizer, upd, updw, mbind, M_bind, get, modify. simpl.
  unfold closed_world. simpl. destruct sd, cl; simpl; rewrite ?(proj2 (Z.ltb_lt 2 fd)) by done; done.
Qed.

(** A fifo that was closed stays closed. *)
Definition gone (sd : side) (f : fifo) : Prop :=
  kf_closing (ff_locks f) ≠ 0 ∧ kf_processing (ff_locks f) = 1.

Lemma onClose_gone sd f w : gone sd f →
  onClose sd (FW f w) = Ret (tt, FW (set_locks (fifo_force fifoClosing user (ff_locks f)) f) w).
Proof.
  intros [Hc Hp]. destruct f as [fd path op [c p fl] cl cb onr]. simpl in *. subst p.
  unfold onClose, closeCallback, upd, mbind, M_bind, get, modify, fifo_closeBy, fifo_lock, fifo_cas. simpl.
  by rewrite (proj2 (Z.eqb_neq c 0)) by done.
Qed.

(** Close of an open fifo makes the poller forget its descriptor, runs the
    close callbacks, the latest first, and closes the descriptor; Detach does
    the same and leaves the descriptor open.  A second Close changes nothing
    but the mark of who closed. *)
Theorem fifo_Close_once sd f cbs w : live f cbs →
  ∃ f', onClose sd (FW f w) = Ret (tt, FW f' (closed_world (ff_closing f) f cbs w)) ∧
    (∃ f1, Detach sd (FW f w) = Ret (tt, FW f1 (closed_world true f cbs w))) ∧
    (∀ w', ∃ f2, onClose sd (FW f' w') = Ret (tt, FW f2 w')) ∧
    w_open (closed_world false f cbs w) = without (ff_fd f) (w_open w) ∧
    w_open (closed_world true f cbs w) = w_open w ∧
    w_polled (closed_world (ff_closing f) f cbs w) = without (ff_fd f) (w_polled w) ∧
    (∀ ids, cbs = UserCb <$> ids → w_ran (closed_world (ff_closing f) f cbs w) = w_ran w ++ ids).
Proof.
  intros Hl. eexists. split; [by apply onClose_live|]. split; [|split; [|split; [|split; [|split]]]].
  - unfold Detach, upd, mbind, M_bind, modify. simpl. eexists.
    rewrite (onClose_live sd (set_detach f) cbs w) by (destruct Hl; by constructor). done.
  - intros w'. eexists. by apply onClose_gone.
  - unfold closed_world. simpl. by rewrite (proj1 (cbs_world_open _ _)).
  - unfold closed_world. simpl. by rewrite (proj1 (cbs_world_open _ _)).
  - unfold closed_world. simpl. destruct (ff_closing f); simpl; by rewrite (proj2 (cbs_world_open _ _)).
  - intros ids ->. assert (∀ w, w_ran (cbs_world (UserCb <$> ids) w) = w_ran w ++ ids) as Hr.
    { clear. induction ids as [|i ids IH]; intros w; [by rewrite app_nil_r|].
      change (w_ran (cbs_world (UserCb <$> ids) (cb_world (UserCb i) w)) = w_ran w ++ i :: ids). rewrite IH. simpl. by rewrite <- app_assoc. }
    unfold closed_world. destruct (ff_closing f); simpl; by rewrite Hr.
Qed.

(** The poller knows only open descriptors. *)
Definition world_ok (w : world) : Prop := ∀ fd, fd ∈ w_polled w → fd ∈ w_open w.

Definition opened_world (sd : side) (fd : Z) (w : world) : world :=
  World (fd :: w_open w) (match sd with Reader => fd :: w_polled w | Writer => w_polled w end) (w_fifos w) (w_ran w).

Lemma opened_ok sd fd w : world_ok w → world_ok (opened_world sd fd w).
Proof. intros Hw x. destruct sd; simpl; rewrite ?elem_of_cons; naive_solver. Qed.

Section init.
Context (mkfifo : string → option Z) (open : side → string → list Z → answer Z) (epoll_add : Z → option Z).

(** open(2) returns a descriptor that is not in use; 0 to 2 are. *)
Context (open_fresh : ∀ sd path l fd, open sd path l = Answer fd → 2 < fd ∧ fd ∉ l).

Definition init_post (sd : side) (path : string) (w : world) (e : option Z) (s : fw) : Prop :=
  match e with
  | None => live (fo s) [] ∧ ff_closing (fo s) = false ∧ (ff_fd (fo s) ∉ w_open w) ∧
      wo s = opened_world sd (ff_fd (fo s)) w ∧ ff_path (fo s) = path
  | Some _ => wo s = w ∧ (sd = Writer → fo s = set_path path new_fifo)
  end.

Lemma wp_init_open sd path onRead f w : world_ok w →
  f = set_path path new_fifo → wp (init_open open epoll_add sd path onRead) (init_post sd path w) (FW f w).
Proof.
  intros Hw ->. unfold init_open, AddCloseCallback, upd, updw. wsteps. cbn [wo fo].
  destruct (open sd path (w_open w)) as [fd|e] eqn:Eo; [|wsteps; by destruct sd].
  destruct (open_fresh _ _ _ _ Eo) as [Hfd Hfr]. assert (fd ∉ w_polled w) as Hnp by (intros H; by apply Hfr, Hw).
  wsteps. destruct sd; wsteps.
  2:{ split_and!; try done. constructor; try done. apply not_elem_of_nil. }
  assert (∀ b : bool, wp (if b then upd set_onRead else mret tt) (λ _ s, ∃ b', s =
      FW (Fifo fd path (Some true) (FifoLocker 0 0 0) false [Finalizer] b') (set_open (fd :: w_open w) w))
      (FW (set_callbacks [Finalizer] (set_operator (Some true) (set_fd fd (set_path path new_fifo))))
          (set_open (fd :: w_open w) w))) as Hon.
  { intros []; unfold upd; wsteps; by eexists. }
  eapply wp_mono; [apply Hon|]. intros _ ? [b ->].
  destruct (epoll_add fd) as [e|]; wsteps.
  - unfold wp, mbind, M_bind. rewrite (onClose_live Reader _ []) by (constructor; try done; apply not_elem_of_nil). simpl.
    unfold closed_world. simpl. rewrite without_cons by done. rewrite without_fresh by done. by destruct w.
  - split_and!; try done. constructor; try done. apply not_elem_of_nil.
Qed.

Lemma wp_init sd path onRead w : world_ok w →
  wp (init mkfifo open epoll_add sd path onRead) (init_post sd path w) (FW new_fifo w).
Proof.
  intros Hw. unfold init, upd. wsteps. destruct (mkfifo path) as [e|]; [|by apply wp_init_open].
  destruct (Errno_Is e (Sentinel SExist)); [by apply wp_init_open|]. wsteps. by destruct sd.
Qed.

(** ** fifoConnection *)

Definition get_side (sd : side) : fifoConnection → option fifo :=
  match sd with Reader => fc_reader | Writer => fc_writer end.
Definition set_side (sd : side) : option fifo → fifoConnection → fifoConnection :=
  match sd with Reader => set_reader | Writer => set_writer end.

Lemma wp_on_side {A} sd (m : M fw A) (Q : A → cw → Prop) c w keys f :
  get_side sd c = Some f → wp m (λ a s, Q a (CW (set_side sd (Some (fo s)) c) (wo s) keys)) (FW f w) →
  wp (on_side sd m) Q (CW c w keys).
Proof.
  intros Hf Hm. unfold wp, on_side in *. destruct sd; simpl in *; rewrite Hf;
    destruct (m (FW f w)) as [[a [f' w']]| |]; done.
Qed.

(** A connection that was initialised from the world [w]: its writer is open
    or waits for somebody who reads. *)
Record conn_open (w : world) (s : cw) (r wr : fifo) : Prop := ConnOpen {
  cn_reader : fc_reader (co s) = Some r;
  cn_live : live r [] ∧ ff_closing r = false ∧ (ff_fd r ∉ w_open w);
  cn_writer : fc_writer (co s) = Some wr;
  cn_callbacks : fc_callbacks (co s) = [];
  cn_ready : if fc_writerReady (co s)
    then live wr [] ∧ ff_closing wr = false ∧ (ff_fd wr ∉ ff_fd r :: w_open w) ∧
         cwo s = opened_world Writer (ff_fd wr) (opened_world Reader (ff_fd r) w)
    else wr = set_path (fc_writerPath (co s)) new_fifo ∧ cwo s = opened_world Reader (ff_fd r) w;
}.

Lemma live_onRead f cbs : live f cbs → live (set_onRead f) cbs.
Proof. intros []. by constructor. Qed.

(** What init leaves, from the world [w]. *)
Definition conn_init_post (rpath wpath : string) (w : world) (keys : list string) (onTransfer : bool)
  (e : option initError) (s : cw) : Prop :=
  w_conns s = keys ∧
  match e with
  | None => ∃ r wr, conn_open w s r wr ∧ ff_path r = rpath ∧ fc_writerPath (co s) = wpath
  | Some NoTransfer => onTransfer = false ∧ cwo s = w
  | Some (InitErr e) => cwo s = w ∨
      e ≠ ENXIO ∧ ∃ r, fc_reader (co s) = Some r ∧ live r [] ∧ cwo s = opened_world Reader (ff_fd r) w
  end.

Lemma wp_conn_init rpath wpath onTransfer onRead w keys :
  world_ok w →
  wp (conn_init mkfifo open epoll_add rpath wpath onTransfer onRead)
    (conn_init_post rpath wpath w keys onTransfer) (CW new_conn w keys).
Proof.
  intros Hw. unfold conn_init, updc. destruct onTransfer; simpl; [|by wsteps]. wsteps.
  eapply wp_on_side; [done|]. eapply wp_mono; [by apply wp_init|]. intros [e|] [r w1] Hi; simpl in Hi; wsteps.
  { destruct Hi as [-> _]. split; [done|by left]. }
  destruct Hi as (Hl&Hcl&Hfr&->&Hpa). eapply wp_on_side; [done|]. unfold upd. wsteps.
  eapply wp_on_side; [done|]. eapply wp_mono; [by apply wp_init, opened_ok|]. intros [e|] [wr w2] Hj; simpl in Hj.
  - destruct Hj as [-> Hnew]. specialize (Hnew eq_refl). destruct (Z.eqb_spec e ENXIO) as [->|He]; wsteps; (split; [done|]).
    + exists (set_onRead r), wr. split; [|done]. constructor; try done. by split; [apply live_onRead|].
    + right. split; [done|]. exists (set_onRead r). split; [done|]. by split; [apply live_onRead|].
  - destruct Hj as (Hl2&Hcl2&Hfr2&->&_). wsteps. split; [done|]. exists (set_onRead r), wr.
    split; [|done]. constructor; try done. by split; [apply live_onRead|].
Qed.

(** init of a fifo connection returns nil when the reader is open and
    registered, and the writer is open or nobody reads yet (ENXIO).  When the
    reader cannot be opened or registered, nothing is left behind.  When the
    writer fails otherwise, the error is returned although the reader stays
    open and registered. *)
Theorem fifo_conn_init_spec rpath wpath onTransfer onRead w keys :
  world_ok w →
  wp (conn_init mkfifo open epoll_add rpath wpath onTransfer onRead)
    (conn_init_post rpath wpath w keys onTransfer) (CW new_conn w keys).
Proof. apply wp_conn_init. Qed.

(** TryInitWriter makes a connection ready or reports why the writer cannot be
    opened, and then leaves everything as it was, so that it can be tried
    again; it does nothing when the writer is ready. *)
Theorem fifo_TryInitWriter_spec w s r wr :
  world_ok w → conn_open w s r wr →
  wp (TryInitWriter mkfifo open epoll_add) (λ e s', match e with
    | None => ∃ wr', conn_open w s' r wr' ∧ fc_writerReady (co s') = true
    | Some _ => fc_writerReady (co s) = false ∧ s' = s
    end) s.
Proof.
  intros Hw [Hr Hlr Hwr Hcb Hrd]. destruct s as [[rd wd cbs rdy wpath] w1 keys]. simpl in *. subst rd wd cbs.
  unfold TryInitWriter, IsWriterReady. wsteps. simpl. destruct rdy; simpl.
  { wsteps. exists wr. split; [|done]. by constructor. }
  destruct Hrd as [-> ->]. wsteps. eapply wp_on_side; [done|]. simpl.
  eapply wp_mono; [exact (wp_init Writer wpath false (opened_world Reader (ff_fd r) w) (opened_ok _ _ _ Hw))|].
  intros [e|] [f w2] Hi; simpl in Hi.
  - destruct Hi as [-> Hf]. wsteps. split; [done|]. by rewrite Hf.
  - destruct Hi as (Hl&Hcl&Hfr&->&_). unfold updc. wsteps. exists f. split; [|done]. by constructor.
Qed.
End init.

(** What Close of an initialised connection does. *)
Lemma conn_Close_open w s r wr : world_ok w → conn_open w s r wr →
  if fc_writerReady (co s) then ∃ s', conn_Close s = Ret (tt, s') ∧ cwo s' = w ∧ w_conns s' = w_conns s
  else conn_Close s = Panic.
Proof.
  intros Hw [Hr (Hlr&Hcr&Hfr) Hwr Hcb Hrd]. destruct s as [[rd wd cbs rdy wpath] w1 keys]. simpl in *. subst rd wd cbs.
  assert (∀ fd, fd ∉ w_open w → fd ∉ w_polled w) as Hnp by (intros fd H1 H2; by apply H1, Hw).
  unfold conn_Close, on_side, mbind, M_bind, get. cbn [fc_callbacks co conn_closeCallback mret M_ret fc_reader fc_writer cwo w_conns].
  rewrite (onClose_live Reader r []) by done. rewrite Hcr. cbn [set_reader fc_reader fc_writer co cwo].
  destruct rdy.
  - destruct Hrd as (Hlw&Hcw&Hfw&->). rewrite not_elem_of_cons in Hfw. destruct Hfw as [Hne Hfw].
    rewrite (onClose_live Writer wr []) by done. rewrite Hcw. eexists. split; [done|]. simpl. split; [|done].
    unfold closed_world. simpl. rewrite without_cons by auto.
    unfold without at 1 2. rewrite filter_cons_True by done. fold (without (ff_fd r) (ff_fd r :: w_open w)).
    rewrite without_cons by done. fold (without (ff_fd wr) (ff_fd wr :: w_open w)).
    rewrite without_cons by done. rewrite (without_fresh (ff_fd wr)) by auto. by destruct w.
  - destruct Hrd as [-> ->]. done.
Qed.

(** C37: Close of a fifo connection whose writer is open undoes init: both
    descriptors are closed and the poller has forgotten them.  Close of one
    whose writer was not ready, which init accepts, panics: the writer has no
    operator yet. *)
Theorem fifo_conn_Close_spec w s r wr :
  world_ok w → conn_open w s r wr →
  if fc_writerReady (co s) then ∃ s', conn_Close s = Ret (tt, s') ∧ cwo s' = w ∧ w_conns s' = w_conns s
  else conn_Close s = Panic.
Proof. apply conn_Close_open. Qed.

(** ** fifoManager *)

Definition fifo_key (x : side * fifo) : side * Z := (x.1, ff_fd x.2).

(** What the manager holds: open fifos and connections, under their keys. *)
Definition attached (x : side * fifo) : Prop := live x.2 [DelFifo x.1 (ff_fd x.2)] ∧ ff_closing x.2 = false.

Record conn_attached (x : string * fifoConnection) : Prop := ConnAttached {
  ca_reader : ∃ r, fc_reader x.2 = Some r ∧ live r [] ∧ ff_closing r = false;
  ca_writer : ∃ wr, fc_writer x.2 = Some wr ∧
    if fc_writerReady x.2 then live wr [] ∧ ff_closing wr = false else wr = set_path (fc_writerPath x.2) new_fifo;
  ca_callbacks : fc_callbacks x.2 = [DelConn x.1];
}.

Record manager_ok (g : manager) : Prop := ManagerOk {
  mo_fifos : Forall attached (mg_fifos g);
  mo_fifo_keys : NoDup (fifo_key <$> mg_fifos g) ∧ ∀ k, k ∈ w_fifos (mg_world g) ↔ k ∈ fifo_key <$> mg_fifos g;
  mo_open : Forall (λ x, ff_fd x.2 ∈ w_open (mg_world g)) (mg_fifos g);
  mo_world : world_ok (mg_world g);
  mo_conns : Forall conn_attached (mg_conns g);
  mo_conn_keys : NoDup (mg_conns g).*1 ∧ ∀ p, p ∈ mg_keys g ↔ p ∈ (mg_conns g).*1;
}.

(** The descriptors of a connection. *)
Definition conn_fds (c : fifoConnection) : list Z := [(GetFDs c).1; (GetFDs c).2].

(** The world without some descriptors and keys. *)
Definition forget (fds : list Z) (ks : list (side * Z)) (w w' : world) : Prop :=
  (∀ fd, fd ∈ w_open w' ↔ fd ∈ w_open w ∧ fd ∉ fds) ∧ (∀ fd, fd ∈ w_polled w' ↔ fd ∈ w_polled w ∧ fd ∉ fds) ∧
  (∀ k, k ∈ w_fifos w' ↔ k ∈ w_fifos w ∧ k ∉ ks).

Lemma forget_trans fds ks fds' ks' w w1 w2 :
  forget fds ks w w1 → forget fds' ks' w1 w2 → forget (fds ++ fds') (ks ++ ks') w w2.
Proof.
  intros (H1&H2&H3) (H4&H5&H6). split_and!; intros x.
  - rewrite H4, H1, elem_of_app. tauto.
  - rewrite H5, H2, elem_of_app. tauto.
  - rewrite H6, H3, elem_of_app. tauto.
Qed.

Lemma forget_nil w : forget [] [] w w.
Proof. split_and!; intros x; rewrite elem_of_nil; tauto. Qed.

Lemma closed_forget_nil f w : ff_closing f = false → forget [ff_fd f] [] w (closed_world (ff_closing f) f [] w).
Proof.
  intros ->. split_and!; simpl; intros x; rewrite ?elem_of_without, ?list_elem_of_singleton, ?elem_of_nil; tauto.
Qed.

Lemma closed_forget_key sd f w : ff_closing f = false →
  forget [ff_fd f] [(sd, ff_fd f)] w (closed_world (ff_closing f) f [DelFifo sd (ff_fd f)] w).
Proof.
  intros ->. split_and!; simpl; intros x; rewrite ?elem_of_without, ?list_elem_of_singleton, ?elem_of_nil; tauto.
Qed.

Lemma close_fifos_ok fs : ∀ w, Forall attached fs → NoDup (fifo_key <$> fs) →
  (∀ x, x ∈ fs → fifo_key x ∈ w_fifos w) →
  ∃ w', close_fifos fs w = Ret (tt, w') ∧ forget ((λ x, ff_fd x.2) <$> fs) (fifo_key <$> fs) w w'.
Proof.
  induction fs as [|[sd f] fs IH]; intros w Hat Hnd Hkeys; [exists w; split; [done|apply forget_nil]|].
  apply Forall_cons in Hat as [[Hl Hcl] Hat]. apply NoDup_cons in Hnd as [Hnk Hnd].
  pose proof (closed_forget_key sd f w Hcl) as Hf. simpl in *.
  destruct (IH (closed_world (ff_closing f) f [DelFifo sd (ff_fd f)] w) Hat Hnd) as (w'&E&Hw').
  { intros x Hx. apply Hf. split; [by apply Hkeys; right|]. rewrite list_elem_of_singleton. intros Ek.
    apply Hnk, list_elem_of_fmap. by exists x. }
  exists w'. split.
  - unfold mbind, M_bind, get. rewrite bool_decide_eq_true_2 by (apply (Hkeys (sd, f)); left).
    by rewrite (onClose_live sd f _ w Hl).
  - exact (forget_trans _ _ _ _ _ _ _ Hf Hw').
Qed.

Lemma wp_onClose sd f cbs w (Q : unit → fw → Prop) : live f cbs →
  Q tt (FW (set_operator (Some false) (set_locks (closed_locks sd user) f)) (closed_world (ff_closing f) f cbs w)) →
  wp (onClose sd) Q (FW f w).
Proof. intros Hl HQ. unfold wp. by rewrite (onClose_live sd f cbs w). Qed.

Lemma conn_Close_attached x w keys : conn_attached x → fc_writerReady x.2 = true →
  wp conn_Close (λ _ s, w_conns s = without x.1 keys ∧ forget (conn_fds x.2) [] w (cwo s)) (CW x.2 w keys).
Proof.
  intros [(r&Hr&Hlr&Hcr) (wr&Hwr&Hrd) Hcb] Hready. destruct x as [path [rd wd cbs rdy wpath]]. simpl in *. subst.
  destruct Hrd as [Hlw Hcw]. unfold conn_Close. wsteps. simpl. wsteps. simpl.
  eapply wp_on_side; [done|]. eapply wp_onClose; [done|]. wsteps. simpl.
  eapply wp_on_side; [done|]. eapply wp_onClose; [done|]. split; [done|].
  exact (forget_trans [_] [] [_] [] _ _ _ (closed_forget_nil r w Hcr) (closed_forget_nil wr _ Hcw)).
Qed.

Lemma close_conns_ok cs : ∀ w keys, Forall conn_attached cs → Forall (λ x, fc_writerReady x.2 = true) cs → NoDup cs.*1 →
  (∀ x, x ∈ cs → x.1 ∈ keys) →
  ∃ w' keys', close_conns cs (w, keys) = Ret (tt, (w', keys')) ∧
    forget (concat (conn_fds ∘ snd <$> cs)) [] w w' ∧ ∀ p, p ∈ keys' ↔ p ∈ keys ∧ p ∉ cs.*1.
Proof.
  induction cs as [|[path c] cs IH]; intros w keys Hat Hrd Hnd Hkeys.
  { exists w, keys. split_and!; [done|apply forget_nil|]. simpl. intros p. rewrite elem_of_nil. tauto. }
  apply Forall_cons in Hat as [Hc Hat]. apply Forall_cons in Hrd as [Hr Hrd]. apply NoDup_cons in Hnd as [Hnk Hnd].
  pose proof (conn_Close_attached (path, c) w keys Hc Hr) as Hcl. unfold wp in Hcl. simpl in *.
  destruct (conn_Close (CW c w keys)) as [[[] s]| |] eqn:E; [|done..]. destruct Hcl as [Ek Hf].
  destruct (IH (cwo s) (w_conns s) Hat Hrd Hnd) as (w'&keys'&E'&Hf'&Hk').
  { intros x Hx. rewrite Ek, elem_of_without. split; [|by apply Hkeys; right].
    intros Ep. apply Hnk, list_elem_of_fmap. by exists x. }
  exists w', keys'. split_and!.
  - unfold mbind, M_bind, get. rewrite bool_decide_eq_true_2 by (apply (Hkeys (path, c)); left). cbn [fst snd]. by rewrite E.
  - exact (forget_trans _ _ _ _ _ _ _ Hf Hf').
  - intros p. rewrite Hk', Ek, elem_of_without, elem_of_cons. tauto.
Qed.

(** Close of a fifo manager all of whose connections have a writer closes
    every descriptor of its fifos and connections, makes the poller forget
    them, and leaves the maps empty; other descriptors are left alone. *)
Theorem fifo_manager_Close_spec g :
  manager_ok g → Forall (λ x, fc_writerReady x.2 = true) (mg_conns g) →
  let fds := ((λ x, ff_fd x.2) <$> mg_fifos g) ++ concat (conn_fds ∘ snd <$> mg_conns g) in
  ∃ g', manager_Close g = Ret (tt, g') ∧ mg_keys g' = [] ∧ w_fifos (mg_world g') = [] ∧
    (∀ fd, fd ∈ w_open (mg_world g') ↔ fd ∈ w_open (mg_world g) ∧ fd ∉ fds) ∧
    (∀ fd, fd ∈ w_polled (mg_world g') ↔ fd ∈ w_polled (mg_world g) ∧ fd ∉ fds).
Proof.
  intros [Hf [Hfn Hfk] _ _ Hc [Hcn Hck]] Hrd fds. destruct g as [fs cs keys w]. simpl in *.
  set (all sd := filter (λ x : side * fifo, x.1 = sd) fs).
  assert (∀ sd, Forall attached (all sd)) as Ha 
    by (intros sd; rewrite Forall_forall in *; intros x [_ ?]%list_elem_of_filter; auto).
  assert (∀ sd, NoDup (fifo_key <$> all sd)) as Hn.
  { intros sd. eapply sublist_NoDup; [exact Hfn|]. apply fmap_sublist, sublist_filter. }
  destruct (close_fifos_ok (all Reader) w) as (w1&E1&F1); [done..| |].
  { intros x [_ Hx]%list_elem_of_filter. apply Hfk. by apply list_elem_of_fmap_2. }
  destruct (close_fifos_ok (all Writer) w1) as (w2&E2&F2); [done..| |].
  { intros x [Ex Hx]%list_elem_of_filter. apply F1. split; [apply Hfk; by apply list_elem_of_fmap_2|].
    intros (y&Ey&[Hy _]%list_elem_of_filter)%list_elem_of_fmap. unfold fifo_key in Ey. congruence. }
  destruct (close_conns_ok cs w2 keys) as (w3&keys'&E3&F3&K3); [done..| |].
  { intros x Hx. apply Hck. by apply list_elem_of_fmap_2. }
  pose proof (forget_trans _ _ _ _ _ _ _ (forget_trans _ _ _ _ _ _ _ F1 F2) F3) as (G1&G2&G3).
  assert (∀ x, x ∈ fs ↔ x ∈ all Reader ++ all Writer) as Hall.
  { intros [sd f]. unfold all. rewrite elem_of_app, !list_elem_of_filter. destruct sd; naive_solver. }
  assert (∀ {B} (h : side * fifo → B) b, b ∈ h <$> fs ↔ b ∈ (h <$> all Reader) ++ (h <$> all Writer)) as Hmap.
  { intros B h b. rewrite <- fmap_app, !list_elem_of_fmap. setoid_rewrite Hall. done. }
  exists (Manager fs cs keys' w3). split_and!; simpl.
  - unfold manager_Close, mbind, M_bind. simpl. fold (all Reader). fold (all Writer). by rewrite E1, E2, E3.
  - apply elem_of_nil_inv. intros p. rewrite K3, Hck. tauto.
  - apply elem_of_nil_inv. intros k. rewrite G3, Hfk, (Hmap _ fifo_key), app_nil_r. tauto.
  - intros fd. rewrite G1. unfold fds. rewrite !(elem_of_app _ _ fd), (Hmap _ (λ x, ff_fd x.2)), !(elem_of_app _ _ fd). tauto.
  - intros fd. rewrite G2. unfold fds. rewrite !(elem_of_app _ _ fd), (Hmap _ (λ x, ff_fd x.2)), !(elem_of_app _ _ fd). tauto.
Qed.

Section attach.
Context (mkfifo : string → option Z) (open : side → string → list Z → answer Z) (epoll_add : Z → option Z).
Context (open_fresh : ∀ sd path l fd, open sd path l = Answer fd → 2 < fd ∧ fd ∉ l).

(** What the manager holds, by path. *)
Definition fifo_paths (g : manager) : list (side * string) := (λ x, (x.1, ff_path x.2)) <$> mg_fifos g.
Definition conn_paths (g : manager) : list (string * string) := (λ x, (x.1, fc_writerPath x.2)) <$> mg_conns g.

(** Keys are bound once. *)
Definition bind_path (r w : string) (l : list (string * string)) : list (string * string) :=
  filter (λ x, x.1 ≠ r) l ++ [(r, w)].

Lemma wp_attach sd path onRead g : manager_ok g →
  wp (attach mkfifo open epoll_add sd path onRead) (λ e g', manager_ok g' ∧ conn_paths g' = conn_paths g ∧
    fifo_paths g' = match e with None => fifo_paths g ++ [(sd, path)] | Some _ => fifo_paths g end) g.
Proof.
  intros [Hf [Hfn Hfk] Ho Hw Hc [Hcn Hck]]. unfold wp, attach, mbind, M_bind.
  pose proof (wp_init mkfifo open epoll_add open_fresh sd path onRead (mg_world g) Hw) as Hi. unfold wp in Hi.
  destruct (init _ _ _ _ _ _ _) as [[[e|] [f w]]| |]; [| |done..]; simpl in *.
  { destruct Hi as [-> _]. split; [by constructor|done]. }
  destruct Hi as (Hl&Hcl&Hfr&->&<-). set (fd := ff_fd f) in *.
  assert (∀ x, x ∈ mg_fifos g → ff_fd x.2 ≠ fd) as Hne.
  { intros x Hx E. apply Hfr. rewrite <- E. by apply (proj1 (Forall_forall _ _) Ho). }
  assert (filter (λ x, (x.1, ff_fd x.2) ≠ (sd, fd)) (mg_fifos g) = mg_fifos g) as Efil.
  { apply filter_all. intros x Hx E. simplify_eq. by apply (Hne x Hx). }
  assert ((sd, fd) ∉ fifo_key <$> mg_fifos g) as Hnk.
  { intros (x&E&Hx)%list_elem_of_fmap. unfold fifo_key in E. simplify_eq. by apply (Hne x Hx). }
  unfold fifo_paths. simpl. rewrite Efil. split; [|by rewrite fmap_app]. constructor; simpl.
  - apply Forall_app. split; [done|]. apply Forall_singleton. destruct Hl as [? ? ? Hcb ?].
    split; [|done]. constructor; simpl; try done; [by rewrite Hcb|]. by rewrite list_elem_of_singleton.
  - rewrite fmap_app. split.
    + apply NoDup_app. split_and!; [done| |apply NoDup_singleton]. intros k Hk. simpl. rewrite list_elem_of_singleton.
      intros ->. done.
    + intros k. simpl. rewrite elem_of_cons, elem_of_without, elem_of_app, list_elem_of_singleton, Hfk.
      change (fifo_key (sd, _)) with (sd, fd). destruct (decide (k = (sd, fd))); naive_solver.
  - apply Forall_app. split; [|apply Forall_singleton; left]. eapply Forall_impl; [exact Ho|]. simpl. intros. by right.
  - by apply (opened_ok sd fd (mg_world g)) in Hw.
  - done.
  - done.
Qed.

(** What init does not touch. *)
Definition grows (w w' : world) : Prop :=
  world_ok w' ∧ w_fifos w' = w_fifos w ∧ ∀ fd, fd ∈ w_open w → fd ∈ w_open w'.

Lemma opened_grows sd fd w w' : grows w w' → grows w (opened_world sd fd w').
Proof. intros (H1&H2&H3). split_and!; [by apply opened_ok|done|]. intros x Hx. simpl. right. auto. Qed.

Lemma conn_init_grows rpath wpath w keys onTransfer e s : world_ok w →
  conn_init_post rpath wpath w keys onTransfer e s → grows w (cwo s).
Proof.
  intros Hw [_ Hi]. assert (grows w w) as H0 by done.
  destruct e as [[|e]|]; [by destruct Hi as [_ ->]|destruct Hi as [->|(_&r&_&_&->)]; auto using opened_grows|].
  destruct Hi as (r&wr&[_ _ _ _ Hrd]&_). destruct (fc_writerReady (co s)); [destruct Hrd as (_&_&_&->)|destruct Hrd as [_ ->]];
    auto using opened_grows.
Qed.

Lemma filter_paths r (l : list (string * fifoConnection)) :
  (λ x, (x.1, fc_writerPath x.2)) <$> filter (λ x, x.1 ≠ r) l =
  filter (λ x : string * string, x.1 ≠ r) ((λ x, (x.1, fc_writerPath x.2)) <$> l).
Proof. induction l as [|x l IH]; [done|]. rewrite fmap_cons, !filter_cons. simpl. case_decide; csimpl; by rewrite IH. Qed.

Lemma wp_AttachFifoConnection rpath wpath onTransfer onRead g : manager_ok g →
  wp (AttachFifoConnection mkfifo open epoll_add rpath wpath onTransfer onRead) (λ e g', manager_ok g' ∧
    fifo_paths g' = fifo_paths g ∧
    conn_paths g' = match e with None => bind_path rpath wpath (conn_paths g) | Some _ => conn_paths g end) g.
Proof.
  intros [Hf [Hfn Hfk] Ho Hw Hc [Hcn Hck]]. unfold wp, AttachFifoConnection, mbind, M_bind.
  pose proof (wp_conn_init mkfifo open epoll_add open_fresh rpath wpath onTransfer onRead (mg_world g) (mg_keys g) Hw) as Hi.
  unfold wp in Hi. destruct (conn_init _ _ _ _ _ _ _ _) as [[e s]| |]; [|done..].
  destruct (conn_init_grows _ _ _ _ _ _ _ Hw Hi) as (Hw'&Ef&Hop). destruct Hi as [Hk Hi].
  assert (Forall (λ x, ff_fd x.2 ∈ w_open (cwo s)) (mg_fifos g)) as Ho' by (eapply Forall_impl; [exact Ho|]; auto).
  destruct e as [e|]; [split; [constructor; simpl; rewrite ?Ef, ?Hk; done|done]|].
  destruct Hi as (r&wr&[Hr (Hlr&Hcr&_) Hwr Hcb Hrd]&_&Hpw). destruct s as [c w keys]. simpl in *. subst keys.
  split; [|split; [done|unfold conn_paths, bind_path; simpl; rewrite fmap_app, filter_paths; simpl; by rewrite Hpw]].
  constructor; simpl; rewrite ?Ef; try done.
  - apply Forall_app. split; [apply Forall_forall; intros x [_ Hx]%list_elem_of_filter; by apply (proj1 (Forall_forall _ _) Hc)|].
    apply Forall_singleton. constructor; simpl; [by exists r| |by rewrite Hcb].
    exists wr. split; [done|]. destruct (fc_writerReady c); naive_solver.
  - rewrite fmap_app. split.
    + apply NoDup_app. split_and!; [|simpl; intros p|apply NoDup_singleton].
      * eapply sublist_NoDup; [exact Hcn|]. apply fmap_sublist, sublist_filter.
      * intros (x&->&[Hx _]%list_elem_of_filter)%list_elem_of_fmap. by rewrite list_elem_of_singleton.
    + intros p. rewrite elem_of_cons, elem_of_without, elem_of_app, Hck. simpl. rewrite list_elem_of_singleton, !list_elem_of_fmap.
      setoid_rewrite list_elem_of_filter. destruct (decide (p = rpath)); naive_solver.
Qed.

(** The connection under a path. *)
Lemma get_conn_held g path : manager_ok g →
  is_Some (GetFifoConnectionByReaderPath path g) ↔ path ∈ (conn_paths g).*1.
Proof.
  intros [_ _ _ _ _ [_ Hk]]. unfold conn_paths. rewrite <- list_fmap_compose.
  change (path ∈ fst ∘ _ <$> mg_conns g) with (path ∈ fst <$> mg_conns g). rewrite <- Hk.
  unfold GetFifoConnectionByReaderPath. case_bool_decide as Hin; [|split; [by intros []|done]].
  split; [done|]. intros _. rewrite fmap_is_Some. apply Hk, list_elem_of_fmap in Hin as (x&->&Hx).
  by eapply (list_find_elem_of _ _ x).
Qed.

(** A program that attaches fifos and connections. *)
Inductive attach_op := AFifo (sd : side) (path : string) (onRead : bool) | AConn (rpath wpath : string) (onTransfer onRead : bool).

Definition do_attach (o : attach_op) : M manager bool :=
  match o with
  | AFifo sd path onRead => e ← attach mkfifo open epoll_add sd path onRead; mret (bool_decide (e = None))
  | AConn rpath wpath onTransfer onRead =>
      e ← AttachFifoConnection mkfifo open epoll_add rpath wpath onTransfer onRead;
      mret (match e with None => true | Some _ => false end)
  end.

Fixpoint do_attaches (os : list attach_op) : M manager (list bool) :=
  match os with
  | [] => mret []
  | o :: os => b ← do_attach o; bs ← do_attaches os; mret (b :: bs)
  end.

(** The fifos and the connections that were attached, from the results. *)
Definition fifos_after (l : list (side * string)) (x : attach_op * bool) : list (side * string) :=
  match x with (AFifo sd path _, true) => l ++ [(sd, path)] | _ => l end.
Definition conns_after (l : list (string * string)) (x : attach_op * bool) : list (string * string) :=
  match x with (AConn rpath wpath _ _, true) => bind_path rpath wpath l | _ => l end.

Definition holds (os : list attach_op) (bs : list bool) (fs : list (side * string)) (cs : list (string * string)) (g : manager) : Prop :=
  manager_ok g ∧ length bs = length os ∧
  fifo_paths g = foldl fifos_after fs (zip os bs) ∧ conn_paths g = foldl conns_after cs (zip os bs).

Lemma wp_do_attach o g : manager_ok g →
  wp (do_attach o) (λ b g', manager_ok g' ∧ fifo_paths g' = fifos_after (fifo_paths g) (o, b) ∧
    conn_paths g' = conns_after (conn_paths g) (o, b)) g.
Proof.
  intros Hg. destruct o; simpl; wsteps; (eapply wp_mono; [by first [apply wp_attach|apply wp_AttachFifoConnection]|]);
    intros [e|] g' (?&E1&E2); wsteps; by rewrite ?bool_decide_true, ?bool_decide_false by done.
Qed.

Lemma wp_do_attaches_from os : ∀ g, manager_ok g →
  wp (do_attaches os) (λ bs g', holds os bs (fifo_paths g) (conn_paths g) g') g.
Proof.
  induction os as [|o os IH]; intros g Hg; simpl; wsteps; [by split_and!|].
  eapply wp_mono; [by apply wp_do_attach|]. intros b g1 (Hg1&E1&E2). wsteps. eapply wp_mono; [by apply IH|].
  intros bs g2 (?&?&F1&F2). wsteps. rewrite E1 in F1. rewrite E2 in F2. split_and!; [done|simpl; lia|done..].
Qed.

Lemma wp_do_attaches os w :
  world_ok w → w_fifos w = [] → wp (do_attaches os) (λ bs g, holds os bs [] [] g) (new_manager w).
Proof.
  intros Hw Hk. apply wp_do_attaches_from. constructor; simpl; try done; (split; [apply NoDup_nil_2|]); [by rewrite Hk|done].
Qed.

(** C36: whatever is attached to a new manager, and whether the system calls
    succeed or fail, the manager holds what the calls that returned nil have
    opened, and nothing else: every fifo in order, under its descriptor, and
    for every reader path the connection that was attached last, which
    GetFifoConnectionByReaderPath finds; each is open, and has the callback that
    removes it from the manager.  A connection that was attached before under
    the same reader path is not held any more, although nothing closes it. *)
Theorem fifo_manager_attach os w :
  world_ok w → w_fifos w = [] →
  wp (do_attaches os) (λ bs g, holds os bs [] [] g ∧
    ∀ path, is_Some (GetFifoConnectionByReaderPath path g) ↔ path ∈ (foldl conns_after [] (zip os bs)).*1) (new_manager w).
Proof.
  intros Hw Hk. eapply wp_mono; [by apply wp_do_attaches|]. intros bs g Hh. split; [done|]. intros path.
  destruct Hh as (Hg&_&_&<-). by apply get_conn_held.
Qed.
End attach.

(** ** Examples *)

Lemma wp_result {S A} (m : M S A) (Q : A → S → Prop) s a s' : m s = Ret (a, s') → wp m Q s → Q a s'.
Proof. unfold wp. by intros ->. Qed.

(** Every call succeeds, but nobody reads the fifo b yet, and c must not be
    written. *)
Definition demo_mkfifo (path : string) : option Z := Some EEXIST.
Definition demo_open (sd : side) (path : string) (l : list Z) : answer Z :=
  match sd with
  | Writer => if String.eqb path "b" then Fails ENXIO else if String.eqb path "c" then Fails EACCES
              else Answer (foldr Z.max 2 l + 1)
  | Reader => Answer (foldr Z.max 2 l + 1)
  end.
Definition demo_add (fd : Z) : option Z := None.
Definition demo_world : world := World [0; 1; 2] [] [] [].

Lemma demo_open_fresh sd path l fd : demo_open sd path l = Answer fd → 2 < fd ∧ fd ∉ l.
Proof.
  assert (2 <= foldr Z.max 2 l) as H2 by (induction l; simpl; lia).
  assert (∀ x, x ∈ l → x <= foldr Z.max 2 l) as Hm.
  { clear. induction l as [|y l IH]; intros x; [by rewrite elem_of_nil|]. rewrite elem_of_cons. simpl.
    intros [->|Hx]; [lia|]. specialize (IH x Hx). lia. }
  assert (foldr Z.max 2 l + 1 ∉ l) as Hn by (intros H%Hm; lia).
  unfold demo_open. destruct sd; repeat case_match; intros [= <-]; split; try done; lia.
Qed.

Lemma demo_world_ok : world_ok demo_world.
Proof. intros fd. by rewrite elem_of_nil. Qed.

Definition demo_live : fifo := Fifo 3 "a" (Some true) (FifoLocker 0 0 0) false [UserCb 8; UserCb 7; Finalizer] true.

Lemma fifo_Close_once_witness :
  live demo_live (UserCb <$> [8; 7]%nat) ∧
  ∃ f', onClose Reader (FW demo_live (World [3; 0] [3] [] [])) = Ret (tt, FW f' (World [0] [] [] [8; 7]%nat)).
Proof.
  assert (live demo_live (UserCb <$> [8; 7]%nat)) as Hl by (constructor; [done..|]; simpl; rewrite !elem_of_cons, elem_of_nil; naive_solver).
  split; [exact Hl|]. destruct (fifo_Close_once Reader demo_live _ (World [3; 0] [3] [] []) Hl) as (f'&E&_).
  exists f'. exact E.
Defined.

Lemma fifo_conn_init_spec_witness :
  wp (conn_init demo_mkfifo demo_open demo_add "a" "c" true false) (conn_init_post "a" "c" demo_world [] true)
    (CW new_conn demo_world []).
Proof. apply (fifo_conn_init_spec demo_mkfifo demo_open demo_add demo_open_fresh). exact demo_world_ok. Defined.

(** The reader stays open when the writer cannot be opened. *)
Lemma fifo_conn_init_leak :
  match conn_init demo_mkfifo demo_open demo_add "a" "c" true false (CW new_conn demo_world []) with
  | Ret (e, s) => e = Some (InitErr EACCES) ∧ w_open (cwo s) = [3; 0; 1; 2] ∧ w_polled (cwo s) = [3]
  | _ => False
  end.
Proof. vm_compute. done. Qed.

(** A connection whose writer waits for somebody who reads. *)
Definition demo_conn : cw :=
  match conn_init demo_mkfifo demo_open demo_add "a" "b" true false (CW new_conn demo_world []) with
  | Ret (_, s) => s
  | _ => CW new_conn demo_world []
  end.

Lemma demo_conn_run : conn_init demo_mkfifo demo_open demo_add "a" "b" true false (CW new_conn demo_world []) =
  Ret (None, demo_conn).
Proof. vm_compute. reflexivity. Qed.

Lemma demo_conn_open : ∃ r wr, conn_open demo_world demo_conn r wr.
Proof.
  destruct (wp_result _ (conn_init_post "a" "b" demo_world [] true) (CW new_conn demo_world []) None demo_conn demo_conn_run
    (wp_conn_init demo_mkfifo demo_open demo_add demo_open_fresh "a" "b" true false demo_world [] demo_world_ok))
    as [_ (r&wr&?&_)]. by exists r, wr.
Qed.

Lemma fifo_conn_Close_spec_witness : fc_writerReady (co demo_conn) = false ∧ conn_Close demo_conn = Panic.
Proof.
  split; [vm_compute; reflexivity|]. destruct demo_conn_open as (r&wr&Ho).
  exact (fifo_conn_Close_spec demo_world demo_conn r wr demo_world_ok Ho).
Defined.

(** Close runs the close callbacks of a connection each time it is called. *)
Lemma fifo_conn_Close_twice :
  match (_ ← conn_init demo_mkfifo demo_open demo_add "a" "d" true false; _ ← conn_AddCloseCallback (CUser 5);
         _ ← conn_Close; conn_Close) (CW new_conn demo_world []) with
  | Ret (_, s) => w_ran (cwo s) = [5; 5]%nat ∧ w_open (cwo s) = [0; 1; 2]
  | _ => False
  end.
Proof. vm_compute. done. Qed.

(** A hang-up closes the reader, but leaves the connection with the manager. *)
Lemma fifo_hup_keeps_conn :
  match (_ ← conn_init demo_mkfifo demo_open demo_add "a" "d" true false; _ ← conn_AddCloseCallback (DelConn "a");
         on_side Reader (onHup Reader)) (CW new_conn demo_world ["a"%string]) with
  | Ret (_, s) => w_conns s = ["a"%string] ∧ w_open (cwo s) = [4; 0; 1; 2]
  | _ => False
  end.
Proof. vm_compute. done. Qed.

Definition demo_attaches : list attach_op :=
  [AFifo Reader "a" true; AFifo Writer "e" false; AConn "f" "g" true false; AFifo Writer "c" false; AConn "h" "i" true false].

Definition demo_manager : manager :=
  match do_attaches demo_mkfifo demo_open demo_add demo_attaches (new_manager demo_world) with
  | Ret (_, g) => g
  | _ => new_manager demo_world
  end.

Lemma demo_attaches_run : do_attaches demo_mkfifo demo_open demo_add demo_attaches (new_manager demo_world) =
  Ret ([true; true; true; false; true], demo_manager).
Proof. vm_compute. reflexivity. Qed.

Lemma demo_fifo_manager_ok : manager_ok demo_manager.
Proof.
  exact (proj1 (wp_result _ _ (new_manager demo_world) _ demo_manager demo_attaches_run
    (wp_do_attaches demo_mkfifo demo_open demo_add demo_open_fresh demo_attaches demo_world demo_world_ok eq_refl))).
Qed.

Lemma fifo_manager_attach_witness :
  (holds demo_attaches [true; true; true; false; true] [] [] demo_manager ∧
   ∀ path, is_Some (GetFifoConnectionByReaderPath path demo_manager) ↔ path ∈ ["f"; "h"]%string) ∧
  fifo_paths demo_manager = [(Reader, "a"); (Writer, "e")]%string ∧ mg_keys demo_manager = ["h"; "f"]%string.
Proof.
  split; [|vm_compute; done].
  exact (wp_result _ _ (new_manager demo_world) _ demo_manager demo_attaches_run
    (fifo_manager_attach demo_mkfifo demo_open demo_add demo_open_fresh demo_attaches demo_world demo_world_ok eq_refl)).
Defined.

(** Two connections are attached under one reader path: Close of the manager
    closes the second, and the descriptors of the first stay open. *)
Lemma fifo_path_twice_leaks :
  match (bs ← do_attaches demo_mkfifo demo_open demo_add [AConn "a" "d" true false; AConn "a" "e" true false];
         _ ← manager_Close; mret bs) (new_manager demo_world) with
  | Ret (bs, g) => bs = [true; true] ∧ mg_keys g = [] ∧ w_open (mg_world g) = [4; 3; 0; 1; 2] ∧ w_polled (mg_world g) = [3]
  | _ => False
  end.
Proof. vm_compute. done. Qed.

Lemma demo_manager_ready : Forall (λ x, fc_writerReady x.2 = true) (mg_conns demo_manager).
Proof. vm_compute. repeat constructor. Qed.

#[local] Opaque demo_manager manager_Close.

Lemma fifo_manager_Close_spec_witness :
  w_open (mg_world demo_manager) = [8; 7; 6; 5; 4; 3; 0; 1; 2] ∧
  ∃ g', manager_Close demo_manager = Ret (tt, g') ∧ mg_keys g' = [].
Proof.
  split; [vm_compute; reflexivity|].
  destruct (fifo_manager_Close_spec demo_manager demo_fifo_manager_ok demo_manager_ready) as (g'&E&Ek&_).
  exists g'. split; [exact E|exact Ek].
Defined.
