(* ===== verification/FifoFlush.v ===== *)
(** * Flushing a fifo

    Models Flush, flush and waitFlush of src/fifo_write_impl.go together with
    outputs, outputAck, detachWrite, onHup and onClose of src/fifo_reactor.go,
    closeCallback and the finalizer, and the words of src/fd_operator.go that
    they use: goroutines that flush, the poller, and whoever closes, as
    threads.  A call of Control is one step.  FifoWrite.v has the bytes; here
    are the interleavings: who is in the output buffer, which has no lock of
    its own, and when. *)

From Stdlib Require Import ZifyBool.
From S2P Require Import Prelude Threads Locker Errors.

Open Scope Z_scope.

Record fwstate := FW {
  fw_closing : Z;                     (* keychain[fifoClosing] *)
  fw_processing : bool;               (* keychain[fifoProcessing] is taken *)
  fw_flushing : Z;                    (* keychain[fifoFlushing]: 0, 1, or 2 for stopped *)
  fw_len : Z;                         (* outputBuffer.Len() *)
  fw_trigger : option (option Z);     (* writeTrigger, a channel of capacity 1 *)
  fw_registered : bool;               (* epoll knows the descriptor *)
  fw_detached : Z;                    (* operator.detached *)
  fw_op : Z;                          (* operator.state: 0 unused, 1 in use, 2 between do and done *)
  fw_armed : bool;                    (* writeTimer is running, *)
  fw_fired : bool;                    (* writeTimer.C holds a value *)
  fw_freed : bool;                    (* the output buffer was closed *)
  fw_sent : Z;                        (* the bytes that the kernel took, *)
  fw_total : Z;                       (* those that were flushed, *)
  fw_waits : Z;                       (* and how often a flush has registered *)
}.

Definition fw_init : fwstate := FW 0 false 0 0 None false 0 0 false false false 0 0 0.

Definition fws_closing x s := FW x (fw_processing s) (fw_flushing s) (fw_len s) (fw_trigger s) (fw_registered s) (fw_detached s) (fw_op s) (fw_armed s) (fw_fired s) (fw_freed s) (fw_sent s) (fw_total s) (fw_waits s).
Definition fws_processing s := FW (fw_closing s) true (fw_flushing s) (fw_len s) (fw_trigger s) (fw_registered s) (fw_detached s) (fw_op s) (fw_armed s) (fw_fired s) (fw_freed s) (fw_sent s) (fw_total s) (fw_waits s).
Definition fws_flushing x s := FW (fw_closing s) (fw_processing s) x (fw_len s) (fw_trigger s) (fw_registered s) (fw_detached s) (fw_op s) (fw_armed s) (fw_fired s) (fw_freed s) (fw_sent s) (fw_total s) (fw_waits s).
Definition fws_trigger x s := FW (fw_closing s) (fw_processing s) (fw_flushing s) (fw_len s) x (fw_registered s) (fw_detached s) (fw_op s) (fw_armed s) (fw_fired s) (fw_freed s) (fw_sent s) (fw_total s) (fw_waits s).
Definition fws_op x s := FW (fw_closing s) (fw_processing s) (fw_flushing s) (fw_len s) (fw_trigger s) (fw_registered s) (fw_detached s) x (fw_armed s) (fw_fired s) (fw_freed s) (fw_sent s) (fw_total s) (fw_waits s).
Definition fws_timer x y s := FW (fw_closing s) (fw_processing s) (fw_flushing s) (fw_len s) (fw_trigger s) (fw_registered s) (fw_detached s) (fw_op s) x y (fw_freed s) (fw_sent s) (fw_total s) (fw_waits s).
(** close(2) of the descriptor, which epoll then forgets; closeBuffer. *)
Definition fws_close s := FW (fw_closing s) (fw_processing s) (fw_flushing s) (fw_len s) (fw_trigger s) false (fw_detached s) (fw_op s) (fw_armed s) (fw_fired s) (fw_freed s) (fw_sent s) (fw_total s) (fw_waits s).
Definition fws_freed s := FW (fw_closing s) (fw_processing s) (fw_flushing s) (fw_len s) (fw_trigger s) (fw_registered s) (fw_detached s) (fw_op s) (fw_armed s) (fw_fired s) true (fw_sent s) (fw_total s) (fw_waits s).
(** [outputBuffer.Flush()] makes [n] bytes readable; the kernel takes [k]. *)
Definition fws_flush n s := FW (fw_closing s) (fw_processing s) (fw_flushing s) (fw_len s + n) (fw_trigger s) (fw_registered s) (fw_detached s) (fw_op s) (fw_armed s) (fw_fired s) (fw_freed s) (fw_sent s) (fw_total s + n) (fw_waits s).
Definition fws_send k s := FW (fw_closing s) (fw_processing s) (fw_flushing s) (fw_len s) (fw_trigger s) (fw_registered s) (fw_detached s) (fw_op s) (fw_armed s) (fw_fired s) (fw_freed s) (fw_sent s + k) (fw_total s) (fw_waits s).
(** [outputBuffer.Skip(k)], which does nothing when there are fewer. *)
Definition fws_skip k s := FW (fw_closing s) (fw_processing s) (fw_flushing s) (if fw_len s <? k then fw_len s else fw_len s - k) (fw_trigger s) (fw_registered s) (fw_detached s) (fw_op s) (fw_armed s) (fw_fired s) (fw_freed s) (fw_sent s) (fw_total s) (fw_waits s).

(** [operator.Control(PollDetach)]: passed on the first time only. *)
Definition fw_detach s :=
  let n := fw_detached s + 1 in
  FW (fw_closing s) (fw_processing s) (fw_flushing s) (fw_len s) (fw_trigger s) (if 1 <? n then fw_registered s else false) n (fw_op s) (fw_armed s) (fw_fired s) (fw_freed s) (fw_sent s) (fw_total s) (fw_waits s).

(** [operator.Control(PollWritable)]: inuse, and EPOLL_CTL_ADD. *)
Definition fw_register s :=
  FW (fw_closing s) (fw_processing s) (fw_flushing s) (fw_len s) (fw_trigger s) true (fw_detached s) 1 (fw_armed s) (fw_fired s) (fw_freed s) (fw_sent s) (fw_total s) (fw_waits s + 1).

(** A value that the channel holds stays. *)
Definition fw_triggerWrite (err : option Z) s := fws_trigger (Some (default err (fw_trigger s))) s.

(** [e]: the error that is returned; [k]: the bytes that were sent. *)
Inductive fwpc :=
(* the code of the user; Flush of [n] pending bytes *)
| FwRun | FwLock (n : Z) | FwFlush (n : Z) | FwEmpty | FwSend | FwSkip (k : Z) | FwCheck | FwControl
| FwUnlock (e : option Z) | FwRet (e : option Z)
(* waitFlush *)
| FwWait | FwTimer | FwSelect | FwStop (e : option Z) | FwDrain (e : option Z) | FwFetch | FwTimeout
(* the poller: do, outputs, sendmsg, outputAck, detachWrite; [hup]: a hang-up;
   outputAck(-1) and detachWrite after a send that failed *)
| PwIdle | PwDo (hup : bool) | PwOutputs | PwSend | PwAck (k : Z) | PwEmpty | PwDetach | PwTrigger | PwDone | PwHup | PwHupDone
| PwFailed | PwFDetach | PwFTrigger
(* onHup, onClose, closeCallback ([d]: needDetach) with the finalizer *)
| HfBegin | HfTrigger | UfBegin | UfTrigger
| CfLock (d : bool) | CfDetach | CfStop | CfFree | CfClose | CfBuffer
(* the timer *)
| TfFire
| FwDone.

Inductive fwchoice := FFlush (n : Z) | FSent (k : Z) | FErr (e : Z) | FHup | FTimer | FTrigger | FGo.

Section steps.
(** [f.writeTimeout != 0] *)
Context (timeout : bool).

Definition fgoto (s : fwstate) (p : fwpc) : option (fwstate * fwpc * list fwpc) := Some (s, p, []).

(** The error of [outputBuffer.Skip] *)
Definition ErrNotEnoughData : Z := -1.

Definition fifo_Flush_step (s : fwstate) (p : fwpc) (c : fwchoice) : option (fwstate * fwpc * list fwpc) :=
  match p with
  | FwRun => match c with FFlush n => if 0 <=? n then fgoto s (FwLock n) else None | _ => None end
  | FwLock n =>
      if fw_flushing s =? 0 then fgoto (fws_flushing 1 s) (FwFlush n)
      else fgoto s (FwRet (Some ErrConcurrentAccess))
  | FwFlush n => fgoto (fws_flush n s) FwEmpty
  (* flush *)
  | FwEmpty => fgoto s (if fw_len s =? 0 then FwUnlock None else FwSend)
  | FwSend =>
      match c with
      | FSent k => if (0 <=? k) && (k <=? fw_len s) then fgoto (fws_send k s) (FwSkip k) else None
      | FErr e => fgoto s (FwUnlock (Some e))
      | _ => None
      end
  | FwSkip k =>
      if fw_len s <? k then fgoto s (FwUnlock (Some ErrNotEnoughData)) else fgoto (fws_skip k s) FwCheck
  | FwCheck => fgoto s (if fw_len s =? 0 then FwUnlock None else FwControl)
  | FwControl =>
      if fw_op s =? 2 then None   (* inuse waits *)
      else
        match c with
        | FErr e => fgoto (fws_op 1 s) (FwUnlock (Some e))
        | FGo => if fw_registered s then fgoto (fws_op 1 s) (FwUnlock (Some EEXIST))
                 else fgoto (fw_register s) (if timeout then FwTimer else FwWait)
        | _ => None
        end
  (* the deferred unlock *)
  | FwUnlock e => fgoto (fws_flushing 0 s) (FwRet e)
  | FwRet e => fgoto s FwRun
  | _ => None
  end.

Definition fifo_waitFlush_step (s : fwstate) (p : fwpc) (c : fwchoice) : option (fwstate * fwpc * list fwpc) :=
  match p with
  | FwWait => e ← fw_trigger s; fgoto (fws_trigger None s) (FwUnlock e)
  | FwTimer => fgoto (fws_timer true (fw_fired s) s) FwSelect
  | FwSelect =>
      match c with
      | FTrigger => e ← fw_trigger s; fgoto (fws_trigger None s) (FwStop e)
      | FTimer => if fw_fired s then fgoto (fws_timer (fw_armed s) false s) FwFetch else None
      | _ => None
      end
  | FwStop e => fgoto (fws_timer false (fw_fired s) s) (if fw_armed s then FwUnlock e else FwDrain e)
  | FwDrain e => if fw_fired s then fgoto (fws_timer (fw_armed s) false s) (FwUnlock e) else None
  | FwFetch =>
      match fw_trigger s with
      | Some e => fgoto (fws_trigger None s) (FwUnlock e)
      | None => fgoto s FwTimeout
      end
  | FwTimeout => fgoto (fw_detach s) (FwUnlock (Some ErrWriteTimeout))
  | _ => None
  end.

(** A round of the poller for this descriptor; outputs and outputAck call
    detachWrite when the buffer is empty; after a send that failed outputAck is
    called with -1, and appendHup follows. *)
Definition fifo_poll_step (s : fwstate) (p : fwpc) (c : fwchoice) : option (fwstate * fwpc * list fwpc) :=
  match p with
  | PwIdle =>
      if fw_registered s then
        match c with FGo => fgoto s (PwDo false) | FHup => fgoto s (PwDo true) | _ => None end
      else None
  | PwDo hup => if fw_op s =? 1 then fgoto (fws_op 2 s) (if hup then PwHup else PwOutputs) else fgoto s PwIdle
  | PwOutputs => fgoto s (if fw_len s =? 0 then PwDetach else PwSend)
  | PwSend =>
      match c with
      | FSent k => if (0 <=? k) && (k <=? fw_len s) then fgoto (fws_send k s) (PwAck k) else None
      | FErr _ => fgoto s PwFailed
      | _ => None
      end
  | PwAck k => fgoto (fws_skip k s) PwEmpty
  | PwEmpty => fgoto s (if fw_len s =? 0 then PwDetach else PwDone)
  | PwDetach => fgoto (fw_detach s) PwTrigger
  | PwTrigger => fgoto (fw_triggerWrite None s) PwDone
  | PwFailed => fgoto s (if fw_len s =? 0 then PwFDetach else PwHup)
  | PwFDetach => fgoto (fw_detach s) PwFTrigger
  | PwFTrigger => fgoto (fw_triggerWrite None s) PwHup
  | PwDone => fgoto (fws_op 1 s) PwIdle
  | PwHup => fgoto (fw_detach s) PwHupDone
  | PwHupDone => Some (fws_op 1 s, PwIdle, [HfBegin])
  | _ => None
  end.

(** onHup, onClose, closeCallback and the finalizer; the timer. *)
Definition fifo_end_step (s : fwstate) (p : fwpc) : option (fwstate * fwpc * list fwpc) :=
  match p with
  | HfBegin => if fw_closing s =? 0 then fgoto (fws_closing poller s) HfTrigger else fgoto s FwDone
  | HfTrigger => fgoto (fw_triggerWrite (Some ErrEOF) s) (CfLock false)
  | UfBegin => if fw_closing s =? 0 then fgoto (fws_closing user s) UfTrigger else fgoto (fws_closing user s) (CfLock false)
  | UfTrigger => fgoto (fw_triggerWrite (Some ErrConnClosed) s) (CfLock true)
  | CfLock d => if fw_processing s then fgoto s FwDone else fgoto (fws_processing s) (if d then CfDetach else CfStop)
  | CfDetach => fgoto (fw_detach s) CfStop
  | CfStop =>
      if fw_flushing s =? 0 then fgoto (fws_flushing 2 s) CfFree
      else if fw_flushing s =? 2 then fgoto s CfFree else None
  | CfFree => if fw_op s =? 2 then None else fgoto (fws_op 0 s) CfClose   (* unused waits *)
  | CfClose => fgoto (fws_close s) CfBuffer
  | CfBuffer => fgoto (fws_freed s) FwDone
  | TfFire => if fw_armed s then fgoto (fws_timer false true s) FwDone else None
  | _ => None
  end.

Definition fwstep (s : fwstate) (p : fwpc) (c : fwchoice) : option (fwstate * fwpc * list fwpc) :=
  match p with
  | FwRun | FwLock _ | FwFlush _ | FwEmpty | FwSend | FwSkip _ | FwCheck | FwControl | FwUnlock _ | FwRet _ => fifo_Flush_step s p c
  | FwWait | FwTimer | FwSelect | FwStop _ | FwDrain _ | FwFetch | FwTimeout => fifo_waitFlush_step s p c
  | PwIdle | PwDo _ | PwOutputs | PwSend | PwAck _ | PwEmpty | PwDetach | PwTrigger | PwDone | PwHup | PwHupDone
  | PwFailed | PwFDetach | PwFTrigger => fifo_poll_step s p c
  | HfBegin | HfTrigger | UfBegin | UfTrigger | CfLock _ | CfDetach | CfStop | CfFree | CfClose | CfBuffer | TfFire => fifo_end_step s p
  | FwDone => None
  end.

(** Flushes, closes and the timer start at any time. *)
Definition fwstarts (p : fwpc) : bool := match p with FwRun | UfBegin | TfFire => true | _ => false end.
Definition fw_cfg := config fwstate fwpc.
Definition fw_reach (c : fw_cfg) : Prop := reach fwstep fwstarts (Cfg fw_init [PwIdle]) c.
End steps.

(** ** Invariants *)

(** Holds the lock of flushing; is in the buffer; waits for the trigger. *)
Definition holder (p : fwpc) : nat :=
  match p with
  | FwFlush _ | FwEmpty | FwSend | FwSkip _ | FwCheck | FwControl | FwUnlock _
  | FwWait | FwTimer | FwSelect | FwStop _ | FwDrain _ | FwFetch | FwTimeout => 1
  | _ => 0
  end.
Definition uses (p : fwpc) : nat := match p with FwFlush _ | FwEmpty | FwSend | FwSkip _ | FwCheck => 1 | _ => 0 end.
Definition fwaits (p : fwpc) : nat := match p with FwWait => 1 | _ => 0 end.
Definition ftimers (p : fwpc) : nat :=
  match p with FwTimer | FwSelect | FwStop _ | FwDrain _ | FwFetch | FwTimeout => 1 | _ => 0 end.
(** The poller; it is between do and done, in the buffer, or behind it. *)
Definition pollers (p : fwpc) : nat :=
  match p with PwIdle | PwDo _ | PwOutputs | PwSend | PwAck _ | PwEmpty | PwDetach | PwTrigger | PwDone | PwHup | PwHupDone
  | PwFailed | PwFDetach | PwFTrigger => 1 | _ => 0 end.
Definition doing (p : fwpc) : nat :=
  match p with PwOutputs | PwSend | PwAck _ | PwEmpty | PwDetach | PwTrigger | PwDone | PwHup | PwHupDone
  | PwFailed | PwFDetach | PwFTrigger => 1 | _ => 0 end.
Definition outputting (p : fwpc) : nat := match p with PwOutputs | PwSend | PwAck _ | PwEmpty | PwFailed => 1 | _ => 0 end.
Definition handling (p : fwpc) : nat :=
  match p with PwDo _ | PwOutputs | PwSend | PwAck _ | PwEmpty | PwDetach | PwHup | PwFailed => 1 | _ => 0 end.
Definition emptied (p : fwpc) : nat := match p with PwDetach | PwTrigger => 1 | _ => 0 end.
(** It has bytes to send, or could not send them; and would find that there are
    none after all. *)
Definition failing (p : fwpc) : nat := match p with PwSend | PwFailed => 1 | _ => 0 end.
Definition fnone (p : fwpc) : nat := match p with PwFDetach | PwFTrigger => 1 | _ => 0 end.
Definition telling (p : fwpc) : nat := match p with PwTrigger => 1 | _ => 0 end.
(** Somebody closes: past the lock of processing, the stop, the free. *)
Definition closers (p : fwpc) : nat := match p with CfDetach | CfStop | CfFree | CfClose | CfBuffer => 1 | _ => 0 end.
Definition stopped (p : fwpc) : nat := match p with CfFree | CfClose | CfBuffer => 1 | _ => 0 end.
Definition released (p : fwpc) : nat := match p with CfClose | CfBuffer => 1 | _ => 0 end.
Definition announced (p : fwpc) : nat := match p with HfTrigger | UfTrigger | CfLock _ => 1 | _ => 0 end.
(** A Flush is about to return nil. *)
Definition succeeds (p : fwpc) : nat := match p with FwUnlock None => 1 | _ => 0 end.
(** The bytes the kernel has taken and the buffer still holds. *)
Definition ftaken (p : fwpc) : nat := match p with FwSkip k | PwAck k => Z.to_nat k | _ => 0 end.
Definition fnegative (p : fwpc) : nat := match p with FwLock n | FwFlush n | FwSkip n | PwAck n => Nat.b2n (n <? 0)%Z | _ => 0 end.

(** The lock of flushing: one holder; none after the stop. *)
Definition fi_lock (c : fw_cfg) : Prop :=
  tally holder (threads c) = Nat.b2n (fw_flushing (shared c) =? 1) ∧
  (fw_flushing (shared c) = 0 ∨ fw_flushing (shared c) = 1 ∨ fw_flushing (shared c) = 2).
(** One poller, and the word of the operator. *)
Definition fi_poll (c : fw_cfg) : Prop := tally pollers (threads c) = 1%nat.
Definition fi_op (c : fw_cfg) : Prop :=
  tally doing (threads c) = Nat.b2n (fw_op (shared c) =? 2) ∧
  (fw_op (shared c) = 0 ∨ fw_op (shared c) = 1 ∨ fw_op (shared c) = 2).
(** One closer; the lock stays stopped, the operator unused. *)
Definition fi_close (c : fw_cfg) : Prop :=
  (tally closers (threads c) + Nat.b2n (fw_freed (shared c)) ≤ Nat.b2n (fw_processing (shared c)))%nat.
Definition fi_stop (c : fw_cfg) : Prop :=
  (1 ≤ tally stopped (threads c) + Nat.b2n (fw_freed (shared c)))%nat → fw_flushing (shared c) = 2.
Definition fi_free (c : fw_cfg) : Prop :=
  (1 ≤ tally released (threads c) + Nat.b2n (fw_freed (shared c)))%nat → fw_op (shared c) = 0.
(** The channel holds a value. *)
Definition full (tr : option (option Z)) : bool := match tr with Some _ => true | None => false end.

(** Nobody has closed, and at most one flush has had to wait. *)
Definition quiet (s : fwstate) : Prop := fw_closing s = 0 ∧ fw_waits s <= 1.

(** Who closes has said so. *)
Definition fi_said (c : fw_cfg) : Prop := (1 ≤ tally announced (threads c) + tally closers (threads c))%nat → fw_closing (shared c) ≠ 0.
(** Without a timeout nobody waits with the timer. *)
Definition fi_timers (c : fw_cfg) : Prop := tally ftimers (threads c) = 0%nat.
(** The bytes that could not be sent are still there. *)
Definition fi_fail (c : fw_cfg) : Prop := quiet (shared c) →
  ((1 ≤ tally failing (threads c))%nat → fw_len (shared c) ≠ 0) ∧ tally fnone (threads c) = 0%nat.
(** While the descriptor is registered a flush waits. *)
Definition fi_reg (c : fw_cfg) : Prop := quiet (shared c) →
  (fw_registered (shared c) = true → fw_detached (shared c) = 0 ∧ fw_waits (shared c) = 1 ∧ (1 ≤ tally fwaits (threads c))%nat) ∧
  ((1 ≤ tally handling (threads c))%nat → fw_registered (shared c) = true).
(** After the poller has sent everything, until the flush takes the trigger. *)
Definition fi_tell (c : fw_cfg) : Prop := quiet (shared c) →
  ((1 ≤ tally telling (threads c))%nat → full (fw_trigger (shared c)) = false) ∧
  ((1 ≤ tally telling (threads c))%nat ∨ full (fw_trigger (shared c)) = true →
     fw_registered (shared c) = false ∧ 1 <= fw_detached (shared c) ∧ (1 ≤ tally fwaits (threads c))%nat).
(** Before the first wait. *)
Definition fi_none (c : fw_cfg) : Prop :=
  0 <= fw_waits (shared c) ∧ 0 <= fw_detached (shared c) ∧
  (quiet (shared c) → fw_waits (shared c) = 0 →
    fw_registered (shared c) = false ∧ fw_detached (shared c) = 0 ∧ tally telling (threads c) = 0%nat ∧ full (fw_trigger (shared c)) = false ∧
    tally fwaits (threads c) = 0%nat ∧ tally handling (threads c) = 0%nat).
(** The bytes that the kernel took are those that left the buffer, up to those
    it still holds. *)
Definition utaken (p : fwpc) : nat := match p with FwSkip k => Z.to_nat k | _ => 0 end.
Definition ptaken (p : fwpc) : nat := match p with PwAck k => Z.to_nat k | _ => 0 end.
Definition skipping (p : fwpc) : nat := match p with FwSkip _ => 1 | _ => 0 end.
Definition acking (p : fwpc) : nat := match p with PwAck _ => 1 | _ => 0 end.
Definition fi_sign (c : fw_cfg) : Prop := tally fnegative (threads c) = 0%nat.
Definition fi_len (c : fw_cfg) : Prop := quiet (shared c) →
  fw_sent (shared c) + fw_len (shared c) =
    fw_total (shared c) + Z.of_nat (tally utaken (threads c)) + Z.of_nat (tally ptaken (threads c)) ∧
  Z.of_nat (tally utaken (threads c)) + Z.of_nat (tally ptaken (threads c)) <= fw_len (shared c).
(** Nothing is left when the poller or Flush say so. *)
Definition fi_empty (c : fw_cfg) : Prop := quiet (shared c) →
  (1 ≤ tally emptied (threads c) + tally succeeds (threads c))%nat ∨ full (fw_trigger (shared c)) = true → fw_len (shared c) = 0.

Record fw_inv (c : fw_cfg) : Prop := FwInv {
  f_lock : fi_lock c; f_poll : fi_poll c; f_op : fi_op c; f_close : fi_close c; f_stop : fi_stop c; f_free : fi_free c;
}.

(** Without a timeout. *)
Record fw_quiet (c : fw_cfg) : Prop := FwQuiet {
  f_said : fi_said c; f_timers : fi_timers c; f_none : fi_none c; f_reg : fi_reg c; f_tell : fi_tell c;
  f_fail : fi_fail c; f_sign : fi_sign c; f_len : fi_len c; f_empty : fi_empty c;
}.

Ltac fw_unfold := unfold fi_lock, fi_poll, fi_op, fi_close, fi_stop, fi_free, fi_said, fi_timers, fi_reg, fi_tell, fi_none, fi_fail, fi_sign, fi_len, fi_empty, quiet in *; cbn [shared threads] in *.

Lemma succeeds_holder q : (succeeds q ≤ holder q)%nat.
Proof. destruct q; simpl; try lia. by case_match; lia. Qed.

(** Nobody who flushes is in the buffer while the poller handles an event, or
    has left its word for the flush that waits. *)
Lemma fw_apart c : fi_lock c → fi_reg c → fi_tell c → quiet (shared c) →
  (1 ≤ tally handling (threads c) + tally telling (threads c))%nat ∨ full (fw_trigger (shared c)) = true →
  tally uses (threads c) = 0%nat ∧ tally succeeds (threads c) = 0%nat.
Proof.
  intros [H1 _] H2 H3 Hq Hor. specialize (H2 Hq). specialize (H3 Hq).
  assert (tally uses (threads c) + tally succeeds (threads c) + tally fwaits (threads c) ≤ tally holder (threads c))%nat.
  { rewrite <- !tally_plus. apply tally_le. intros q. pose proof (succeeds_holder q). by destruct q; simpl in *; lia. }
  destruct (fw_flushing (shared c) =? 1); simpl in H1; lia.
Qed.

Section step.
Context (timeout : bool).
Context (s : fwstate) (ths : list fwpc) (i : nat) (p : fwpc) (c : fwchoice) (s' : fwstate) (p' : fwpc) (sp : list fwpc).
Context (Hi : ths !! i = Some p) (Hs : fwstep timeout s p c = Some (s', p', sp)).

(** The poller is one thread. *)
Lemma pw_is f : (∀ q, f q ≤ pollers q)%nat → fi_poll (Cfg s ths) → pollers p = 1%nat → tally f ths = f p.
Proof. intros Hf H1 Hp. unfold fi_poll in H1. cbn [threads] in H1. apply (tally_single f pollers _ i); [done|lia|done..]. Qed.

(** The cases of the step. *)
Ltac fw_cases :=
  fw_unfold; destruct s as [cl pr fl le tr rg dt op ar fi fr se to wa]; destruct p;
  cbv [fwstep fifo_Flush_step fifo_waitFlush_step fifo_poll_step fifo_end_step fgoto mbind option_bind] in Hs; simpl in Hs;
  repeat match type of Hs with context [match ?x with _ => _ end] => destruct x eqn:? end;
  try discriminate Hs; injection Hs as <- <- <-;
  unfold fw_triggerWrite, user, poller in *; simpl in *; subst;
  repeat match goal with |- context [?x <? ?y] => destruct (Z.ltb_spec x y) end; try lia.

Abbreviation old := (Cfg s ths).
Abbreviation new := (Cfg s' (<[i := p']> ths ++ sp)).

Lemma st_lock : fi_lock old → fi_lock new.
Proof using Hi Hs. intros I. count holder Hi Hs. fw_cases. Qed.

Lemma st_poll : fi_poll old → fi_poll new.
Proof using Hi Hs. intros I. count pollers Hi Hs. fw_cases. Qed.

Lemma st_op : fi_op old → fi_op new.
Proof using Hi Hs. intros I. count doing Hi Hs. fw_cases. Qed.

Lemma st_close : fi_close old → fi_close new.
Proof using Hi Hs. intros I. count closers Hi Hs. fw_cases. Qed.

Lemma st_stop : fi_lock old → fi_stop old → fi_stop new.
Proof using Hi Hs. intros I1 I. count stopped Hi Hs. pose proof (tally_pos holder _ _ _ Hi). fw_cases. Qed.

Lemma st_free : fi_lock old → fi_op old → fi_stop old → fi_free old → fi_free new.
Proof using Hi Hs.
  intros I1 I2 I3 I. count released Hi Hs. pose proof (tally_pos holder _ _ _ Hi). pose proof (tally_pos doing _ _ _ Hi).
  pose proof (tally_pos stopped _ _ _ Hi).
  assert (tally released ths ≤ tally stopped ths)%nat by (apply tally_le; by intros []; simpl; lia). fw_cases.
Qed.

Lemma st_said : fi_said old → fi_said new.
Proof using Hi Hs. intros I. count announced Hi Hs. count closers Hi Hs. fw_cases. Qed.

Lemma st_timers : timeout = false → fi_timers old → fi_timers new.
Proof using Hi Hs. intros Ht I. count ftimers Hi Hs. fw_cases. Qed.

Lemma st_fail : fi_lock old → fi_poll old → fi_reg old → fi_tell old → fi_fail old → fi_fail new.
Proof using Hi Hs.
  intros I1 I2 I3 I4 I. count failing Hi Hs. count fnone Hi Hs. pose proof (fw_apart old I1 I3 I4) as Ha.
  pose proof (tally_pos uses _ _ _ Hi). pose proof (pw_is failing ltac:(by intros []; simpl; lia) I2) as W.
  assert (tally failing ths ≤ tally handling ths)%nat by (apply tally_le; by intros []; simpl; lia).
  clear I1 I2 I3 I4. fw_cases.
Qed.

Lemma st_none : fi_said old → fi_timers old → fi_fail old → fi_none old → fi_none new.
Proof using Hi Hs.
  intros I1 I2 I3 I. pose proof (tally_pos fnone _ _ _ Hi). count telling Hi Hs. count fwaits Hi Hs. count handling Hi Hs.
  pose proof (tally_pos announced _ _ _ Hi). pose proof (tally_pos closers _ _ _ Hi). pose proof (tally_pos ftimers _ _ _ Hi). fw_cases.
Qed.

Lemma st_reg : timeout = false → fi_poll old → fi_said old → fi_timers old → fi_fail old → fi_tell old → fi_none old → fi_reg old → fi_reg new.
Proof using Hi Hs.
  intros Ht I1 I2 I3 I6 I4 I5 I. pose proof (tally_pos fnone _ _ _ Hi). count fwaits Hi Hs. count handling Hi Hs. pose proof (tally_pos telling _ _ _ Hi).
  pose proof (tally_pos closers _ _ _ Hi). pose proof (tally_pos ftimers _ _ _ Hi).
  pose proof (pw_is handling ltac:(by intros []; simpl; lia) I1) as W. clear I1. fw_cases.
Qed.

Lemma st_tell : fi_poll old → fi_said old → fi_timers old → fi_fail old → fi_reg old → fi_none old → fi_tell old → fi_tell new.
Proof using Hi Hs.
  intros I1 I2 I3 I6 I4 I5 I. pose proof (tally_pos fnone _ _ _ Hi). count fwaits Hi Hs. count telling Hi Hs. pose proof (tally_pos handling _ _ _ Hi).
  pose proof (tally_pos closers _ _ _ Hi). pose proof (tally_pos announced _ _ _ Hi). pose proof (tally_pos ftimers _ _ _ Hi).
  pose proof (pw_is telling ltac:(by intros []; simpl; lia) I1) as W. clear I1. fw_cases.
Qed.

Lemma st_sign : fi_sign old → fi_sign new.
Proof using Hi Hs. intros I. count fnegative Hi Hs. fw_cases. Qed.

(** The one that has the lock. *)
Lemma holder_is f : (∀ q, f q ≤ holder q)%nat → fi_lock old → holder p = 1%nat → tally f ths = f p.
Proof using Hi. intros Hf [H1 _] Hp. cbn [threads] in H1. apply (tally_single f holder _ i); [done| |done..]. rewrite H1. by destruct (_ =? _); simpl; lia. Qed.

Lemma st_empty : fi_lock old → fi_poll old → fi_said old → fi_timers old → fi_fail old → fi_reg old → fi_tell old → fi_empty old → fi_empty new.
Proof using Hi Hs.
  intros I1 I0 I2 I3 I6 I4 I5 I. pose proof (tally_pos fnone _ _ _ Hi). count emptied Hi Hs. count succeeds Hi Hs.
  pose proof (fw_apart old I1 I4 I5) as Ha. pose proof (tally_pos uses _ _ _ Hi). pose proof (tally_pos handling _ _ _ Hi).
  pose proof (tally_pos telling _ _ _ Hi). pose proof (tally_pos ftimers _ _ _ Hi). pose proof (tally_pos announced _ _ _ Hi).
  assert (tally emptied ths ≤ tally handling ths + tally telling ths)%nat by (rewrite <- tally_plus; apply tally_le; by intros []; simpl; lia).
  pose proof (holder_is succeeds succeeds_holder I1) as W.
  pose proof (pw_is emptied ltac:(by intros []; simpl; lia) I0) as W'. clear I1 I0. fw_cases.
Qed.

(** Nobody else has bytes in flight. *)
Lemma taken_none : fi_lock old → fi_poll old →
  (holder p = 1%nat → skipping p = 0%nat → tally utaken ths = 0%nat) ∧ (pollers p = 1%nat → acking p = 0%nat → tally ptaken ths = 0%nat) ∧
  (tally uses ths = 0%nat → tally utaken ths = 0%nat) ∧ (tally handling ths = 0%nat → tally ptaken ths = 0%nat).
Proof using Hi.
  intros I1 I2. split_and!.
  - intros Hh Hk. apply (tally_support skipping); [by intros []|]. rewrite (holder_is skipping ltac:(by intros []; simpl; lia) I1 Hh). done.
  - intros Hh Hk. apply (tally_support acking); [by intros []|]. rewrite (pw_is acking ltac:(by intros []; simpl; lia) I2 Hh). done.
  - apply tally_support. by intros [].
  - apply tally_support. by intros [].
Qed.

Lemma st_len : fi_lock old → fi_poll old → fi_reg old → fi_tell old → fi_sign old → fi_len old → fi_len new.
Proof using Hi Hs.
  intros I1 I2 I3 I4 I5 I. count utaken Hi Hs. count ptaken Hi Hs. pose proof (tally_pos fnegative _ _ _ Hi).
  pose proof (fw_apart old I1 I3 I4) as Ha. pose proof (tally_pos uses _ _ _ Hi). pose proof (tally_pos handling _ _ _ Hi).
  destruct (taken_none I1 I2) as (T1&T2&T3&T4). clear I1 I2 I3 I4. fw_cases.
Qed.

Lemma fw_inv_step : fw_inv old → fw_inv new.
Proof using Hi Hs. intros []. constructor; eauto using st_lock, st_poll, st_op, st_close, st_stop, st_free. Qed.

Lemma fw_quiet_step : timeout = false → fw_inv old → fw_quiet old → fw_quiet new.
Proof using Hi Hs.
  intros Ht [] []. constructor; eauto using st_said, st_timers, st_fail, st_none, st_reg, st_tell, st_sign, st_len, st_empty.
Qed.
End step.

(** What starts is nowhere yet. *)
Ltac fw_start Hp :=
  fw_unfold; rewrite ?tally_start; destruct_and?;
  match type of Hp with fwstarts ?p = true => destruct p; try discriminate Hp end; simpl; rewrite ?Nat.add_0_r in *; done.

Lemma fw_inv_reach timeout c : fw_reach timeout c → fw_inv c.
Proof.
  apply (reach_inv_from _ _ _).
  - intros s ths i p ch s' p' sp _ HI Hi Hs. by apply (fw_inv_step timeout s ths i p ch s' p' sp).
  - intros s ths p [] Hp. constructor; fw_start Hp.
  - constructor; fw_unfold; unfold tally; simpl; lia.
Qed.

Lemma fw_quiet_reach c : fw_reach false c → fw_quiet c.
Proof.
  apply (reach_inv_from _ _ _).
  - intros s ths i p ch s' p' sp Hr HI Hi Hs. apply (fw_quiet_step false s ths i p ch s' p' sp Hi Hs eq_refl); [|done].
    by apply (fw_inv_reach false).
  - intros s ths p [] Hp. constructor; fw_start Hp.
  - constructor; fw_unfold; unfold tally; simpl; lia.
Qed.

(** ** What follows *)

(** C12: Nobody is in the output buffer of a fifo when it is closed: whenever
    closeBuffer runs or has run, no Flush holds the lock and the poller is not
    between outputs and outputAck, whatever flushes, closes, hang-ups and
    timeouts came before.  Without a timeout, as long as nobody has closed and
    at most one flush has had to wait for the poller, the flushes and the
    poller are never in the buffer at the same time, and a Flush that is about
    to return nil leaves nothing: the kernel took exactly the bytes that were
    flushed. *)
Theorem fifo_flush_safe timeout c :
  fw_reach timeout c →
  (fw_freed (shared c) = true ∨ CfBuffer ∈ threads c → tally holder (threads c) = 0%nat ∧ tally outputting (threads c) = 0%nat) ∧
  (timeout = false → fw_closing (shared c) = 0 → fw_waits (shared c) <= 1 →
    (tally uses (threads c) + tally outputting (threads c) ≤ 1)%nat ∧
    ∀ i, threads c !! i = Some (FwUnlock None) → fw_len (shared c) = 0 ∧ fw_sent (shared c) = fw_total (shared c)).
Proof.
  intros Hr. destruct (fw_inv_reach _ _ Hr) as [H1 H2 H3 H4 H5 H6]. split.
  - intros Hf. assert (1 ≤ tally released (threads c) + Nat.b2n (fw_freed (shared c)))%nat as Hpos.
    { destruct Hf as [->|[i Hi]%list_elem_of_lookup]; [simpl; lia|]. pose proof (tally_pos released _ _ _ Hi). simpl in *. lia. }
    assert (tally released (threads c) ≤ tally stopped (threads c))%nat by (apply tally_le; by intros []; simpl; lia).
    assert (tally outputting (threads c) ≤ tally doing (threads c))%nat by (apply tally_le; by intros []; simpl; lia).
    destruct H1 as [H1 _], H3 as [H3 _]. rewrite H1. rewrite (H6 Hpos) in H3. rewrite H5 by lia. simpl in *. lia.
  - intros -> Hc Hw. destruct (fw_quiet_reach _ Hr) as [_ _ _ Hreg Htell _ _ Hlen Hemp].
    assert (quiet (shared c)) as Hq by (by split). pose proof (fw_apart c H1 Hreg Htell Hq) as Ha.
    assert (tally uses (threads c) ≤ tally holder (threads c))%nat by (apply tally_le; by intros []; simpl; lia).
    assert (tally outputting (threads c) ≤ tally handling (threads c))%nat by (apply tally_le; by intros []; simpl; lia).
    assert (tally outputting (threads c) ≤ tally pollers (threads c))%nat by (apply tally_le; by intros []; simpl; lia).
    destruct H1 as [H1 _]. unfold fi_poll in H2. split; [destruct (fw_flushing (shared c) =? 1); simpl in H1; lia|].
    intros i Hi. pose proof (tally_pos succeeds _ _ _ Hi) as Hs. simpl in Hs.
    destruct (Hlen Hq) as [L1 L2]. assert (fw_len (shared c) = 0) as Hz by (apply (Hemp Hq); left; lia). split; [done|]. lia.
Qed.

(** A Flush of [n] bytes of which the kernel takes [k] at once, and the poller's
    round that sends the rest. *)
Definition fl_part (n k : Z) : list (act fwpc fwchoice) :=
  Run 1 <$> [FFlush n; FGo; FGo; FGo; FSent k; FGo; FGo; FGo].
Definition po_rest (k : Z) : list (act fwpc fwchoice) :=
  Run 0 <$> [FGo; FGo; FGo; FSent k; FGo; FGo; FGo; FGo; FGo].
Definition fl_taken : list (act fwpc fwchoice) := Run 1 <$> [FGo].
Definition fl_return : list (act fwpc fwchoice) := Run 1 <$> [FGo; FGo].

Definition fw_run (timeout : bool) (l : list (act fwpc fwchoice)) : fw_cfg :=
  default (Cfg fw_init [PwIdle]) (run_acts (fwstep timeout) fwstarts l (Cfg fw_init [PwIdle])).

Lemma fw_run_reach timeout l : fw_reach timeout (fw_run timeout l).
Proof.
  unfold fw_run. destruct (run_acts _ _ l _) as [c|] eqn:E; [by apply (run_acts_reach _ _ l)|apply rtc_refl].
Qed.

Definition demo_flush : fw_cfg := fw_run false ([Start FwRun] ++ fl_part 10 4 ++ po_rest 6 ++ fl_taken).

Lemma fifo_flush_safe_witness :
  threads demo_flush !! 1%nat = Some (FwUnlock None) ∧ fw_total (shared demo_flush) = 10 ∧
  (fw_freed (shared demo_flush) = true ∨ CfBuffer ∈ threads demo_flush →
     tally holder (threads demo_flush) = 0%nat ∧ tally outputting (threads demo_flush) = 0%nat) ∧
  (false = false → fw_closing (shared demo_flush) = 0 → fw_waits (shared demo_flush) <= 1 →
    (tally uses (threads demo_flush) + tally outputting (threads demo_flush) ≤ 1)%nat ∧
    ∀ i, threads demo_flush !! i = Some (FwUnlock None) → fw_len (shared demo_flush) = 0 ∧ fw_sent (shared demo_flush) = fw_total (shared demo_flush)).
Proof.
  split; [vm_compute; reflexivity|]. split; [vm_compute; reflexivity|].
  exact (fifo_flush_safe false demo_flush (fw_run_reach false ([Start FwRun] ++ fl_part 10 4 ++ po_rest 6 ++ fl_taken))).
Defined.

(** ** Where it ends *)

(** After the second flush that has waited, Control does not pass PollDetach
    on: the descriptor stays registered, and the poller sends from the buffer
    while the third Flush does, the same bytes. *)
Lemma fifo_sends_twice : ∃ c, fw_reach false c ∧ fw_closing (shared c) = 0 ∧ fw_waits (shared c) = 2 ∧
  threads c = [PwAck 10; FwSkip 10] ∧ fw_sent (shared c) = fw_total (shared c) + 10.
Proof.
  eexists. split; [apply (fw_run_reach false ([Start FwRun] ++ fl_part 10 4 ++ po_rest 6 ++ fl_taken ++ fl_return
    ++ fl_part 10 4 ++ po_rest 6 ++ fl_taken ++ fl_return
    ++ (Run 1 <$> [FFlush 10; FGo; FGo; FGo]) ++ (Run 0 <$> [FGo; FGo; FGo; FSent 10]) ++ [Run 1 (FSent 10)]))|].
  split_and!; vm_compute; reflexivity.
Qed.

(** After a timeout nothing keeps the next Flush from the buffer that the
    poller is sending from. *)
Lemma fifo_timeout_overlaps : ∃ c, fw_reach true c ∧ fw_closing (shared c) = 0 ∧ fw_waits (shared c) = 1 ∧
  threads c = [PwAck 6; FwSkip 6; FwDone] ∧ fw_sent (shared c) = fw_total (shared c) + 6.
Proof.
  eexists. split; [apply (fw_run_reach true ([Start FwRun] ++ fl_part 10 4 ++ [Run 1 FGo; Start TfFire; Run 2 FGo]
    ++ (Run 0 <$> [FGo; FGo; FGo]) ++ [Run 1 FTimer; Run 1 FGo; Run 1 FGo] ++ fl_return
    ++ (Run 1 <$> [FFlush 0; FGo; FGo; FGo]) ++ [Run 0 (FSent 6); Run 1 (FSent 6)]))|].
  split_and!; vm_compute; reflexivity.
Qed.

(** Flush does not look at closing: one that begins after Close has left its
    word waits for the reader, and Close waits for the Flush. *)
Lemma fifo_close_waits : ∃ c, fw_reach false c ∧ threads c = [PwIdle; FwWait; CfStop] ∧ fw_closing (shared c) = user ∧
  fw_trigger (shared c) = None ∧ fwstep false (shared c) FwWait FGo = None ∧ fwstep false (shared c) CfStop FGo = None.
Proof.
  eexists. split; [apply (fw_run_reach false ([Start FwRun] ++ fl_part 10 4 ++ po_rest 6
    ++ [Start UfBegin] ++ (Run 2 <$> [FGo; FGo; FGo; FGo]) ++ fl_taken ++ fl_return ++ fl_part 10 4))|].
  split_and!; vm_compute; reflexivity.
Qed.
