(* ===== verification/ShardQueue.v ===== *)
(** * The shard queue

    Models src/mux/shard_queue.go: Add, Close, triggering, foreach, deal and
    flush as threads that share the queue; a step is one atomic operation, or
    what a thread does under a lock.  A getter is a number; [q_pend],
    [q_added], [q_dealt] and [q_flushed] only record what happened.  What the
    connection answers to Append and Flush is a choice. *)

From S2P Require Import Prelude Threads.

Open Scope Z_scope.

Definition active : Z := 0.
Definition closing : Z := 1.
Definition closed : Z := 2.

(** int32 arithmetic *)
Definition int32 (z : Z) : Z := (z + 2 ^ 31) mod 2 ^ 32 - 2 ^ 31.

Record queue := Queue {
  q_idx : Z;
  q_getters : list (list nat);   (* one list per shard *)
  q_locks : list bool;
  q_trigger : Z;
  q_state : Z;
  q_runNum : Z;
  q_w : Z;
  q_r : Z;
  q_list : list Z;               (* the ring *)
  q_listLock : bool;
  q_pend : list Z;               (* the shards in the ring *)
  q_added : list nat;            (* the getters that were added, *)
  q_dealt : list nat;            (* that were appended to the writer, *)
  q_flushed : list nat;          (* and that were flushed *)
  q_broken : bool;               (* the connection was closed by deal or flush *)
}.

Definition NewShardQueue (size : nat) : queue :=
  Queue 0 (replicate size []) (replicate size false) 0 active 0 0 0 (replicate size 0) false [] [] [] [] false.

Definition q_size (q : queue) : Z := zlen (q_getters q).

Definition set_idx x q := Queue x (q_getters q) (q_locks q) (q_trigger q) (q_state q) (q_runNum q) (q_w q) (q_r q) (q_list q) (q_listLock q) (q_pend q) (q_added q) (q_dealt q) (q_flushed q) (q_broken q).
Definition set_getters x q := Queue (q_idx q) x (q_locks q) (q_trigger q) (q_state q) (q_runNum q) (q_w q) (q_r q) (q_list q) (q_listLock q) (q_pend q) (q_added q) (q_dealt q) (q_flushed q) (q_broken q).
Definition set_locks x q := Queue (q_idx q) (q_getters q) x (q_trigger q) (q_state q) (q_runNum q) (q_w q) (q_r q) (q_list q) (q_listLock q) (q_pend q) (q_added q) (q_dealt q) (q_flushed q) (q_broken q).
Definition set_trigger x q := Queue (q_idx q) (q_getters q) (q_locks q) x (q_state q) (q_runNum q) (q_w q) (q_r q) (q_list q) (q_listLock q) (q_pend q) (q_added q) (q_dealt q) (q_flushed q) (q_broken q).
Definition set_state x q := Queue (q_idx q) (q_getters q) (q_locks q) (q_trigger q) x (q_runNum q) (q_w q) (q_r q) (q_list q) (q_listLock q) (q_pend q) (q_added q) (q_dealt q) (q_flushed q) (q_broken q).
Definition set_runNum x q := Queue (q_idx q) (q_getters q) (q_locks q) (q_trigger q) (q_state q) x (q_w q) (q_r q) (q_list q) (q_listLock q) (q_pend q) (q_added q) (q_dealt q) (q_flushed q) (q_broken q).
Definition set_listLock x q := Queue (q_idx q) (q_getters q) (q_locks q) (q_trigger q) (q_state q) (q_runNum q) (q_w q) (q_r q) (q_list q) x (q_pend q) (q_added q) (q_dealt q) (q_flushed q) (q_broken q).
(** The ring and what is in it. *)
Definition set_write w l p q := Queue (q_idx q) (q_getters q) (q_locks q) (q_trigger q) (q_state q) (q_runNum q) w (q_r q) l (q_listLock q) p (q_added q) (q_dealt q) (q_flushed q) (q_broken q).
Definition set_read r p q := Queue (q_idx q) (q_getters q) (q_locks q) (q_trigger q) (q_state q) (q_runNum q) (q_w q) r (q_list q) (q_listLock q) p (q_added q) (q_dealt q) (q_flushed q) (q_broken q).
Definition set_added x q := Queue (q_idx q) (q_getters q) (q_locks q) (q_trigger q) (q_state q) (q_runNum q) (q_w q) (q_r q) (q_list q) (q_listLock q) (q_pend q) x (q_dealt q) (q_flushed q) (q_broken q).
Definition set_dealt x b q := Queue (q_idx q) (q_getters q) (q_locks q) (q_trigger q) (q_state q) (q_runNum q) (q_w q) (q_r q) (q_list q) (q_listLock q) (q_pend q) (q_added q) x (q_flushed q) b.
Definition set_flushed x b q := Queue (q_idx q) (q_getters q) (q_locks q) (q_trigger q) (q_state q) (q_runNum q) (q_w q) (q_r q) (q_list q) (q_listLock q) (q_pend q) (q_added q) (q_dealt q) x b.

(** Where a thread is; [gs]: getters, [s]: a shard, [tn] and [neg]: triggerNum
    and negNum. *)
Inductive qpc :=
(* Add *)
| AdBegin (gs : list nat) | AdIdx (gs : list nat) | AdLock (s : Z) (gs : list nat) | AdPush (s : Z) (gs : list nat)
| AdUnlock (s : Z) (trigger : bool) | AdPanic
(* triggering *)
| TrLock (s : Z) | TrWrite (s : Z) | TrUnlock | TrAdd
(* foreach *)
| FeBegin
| TkLoad | TkLoop (tn neg : Z) | TkPop (tn neg : Z) | TkLock (s tn neg : Z) | TkSwap (s tn neg : Z)
| TkUnlock (s : Z) (gs : list nat) (tn neg : Z) | TkDeal (gs : list nat) (tn neg : Z) | TkNeg (tn neg : Z) | TkSub (neg : Z)
| TkFlush | TkZero | TkCheck | TkCas
(* Close *)
| ClBegin | ClLoop | ClTrigger | ClStore | ClRet (err : bool)
| QEnd.

(** Whether an operation of the connection fails; [k]: after how many
    getters. *)
Inductive qchoice := Works | Breaks (k : nat).

Section steps.

Definition qgoto (q : queue) (p : qpc) : option (queue * qpc * list qpc) := Some (q, p, []).

(** Go's array access. *)
Definition at_ {A} (l : list A) (i : Z) : option A := if i <? 0 then None else l !! Z.to_nat i.
Definition put {A} (i : Z) (x : A) (l : list A) : list A := <[Z.to_nat i := x]> l.

(** A spin lock of a shard. *)
Definition q_lock (s : Z) (q : queue) (p : qpc) : option (queue * qpc * list qpc) :=
  match at_ (q_locks q) s with
  | Some false => qgoto (set_locks (put s true (q_locks q)) q) p
  | _ => None
  end.
Definition q_unlock (s : Z) (q : queue) : queue := set_locks (put s false (q_locks q)) q.

Definition Add_step (q : queue) (p : qpc) : option (queue * qpc * list qpc) :=
  match p with
  | AdBegin gs => qgoto q (if q_state q =? active then AdIdx gs else QEnd)
  | AdIdx gs =>
      let idx := int32 (q_idx q + 1) in
      let shard := Z.rem idx (q_size q) in
      qgoto (set_idx idx q) (if shard <? 0 then AdPanic else AdLock shard gs)
  | AdLock s gs => q_lock s q (AdPush s gs)
  | AdPush s gs =>
      old ← at_ (q_getters q) s;
      qgoto (set_added (q_added q ++ gs) (set_getters (put s (old ++ gs) (q_getters q)) q))
            (AdUnlock s (match old with [] => true | _ => false end))
  | AdUnlock s trigger => qgoto (q_unlock s q) (if trigger then TrLock s else QEnd)
  | _ => None
  end.

Definition triggering_step (q : queue) (p : qpc) : option (queue * qpc * list qpc) :=
  match p with
  | TrLock s => if q_listLock q then None else qgoto (set_listLock true q) (TrWrite s)
  | TrWrite s =>
      let w := Z.rem (q_w q + 1) (q_size q) in
      qgoto (set_write w (put w s (q_list q)) (q_pend q ++ [s]) q) TrUnlock
  | TrUnlock => qgoto (set_listLock false q) TrAdd
  | TrAdd => qgoto (set_trigger (q_trigger q + 1) q) (if 1 <? q_trigger q + 1 then QEnd else FeBegin)
  | _ => None
  end.

Definition foreach_step (q : queue) (p : qpc) (c : qchoice) : option (queue * qpc * list qpc) :=
  match p with
  | FeBegin =>
      Some (set_runNum (q_runNum q + 1) q, QEnd, if 1 <? q_runNum q + 1 then [] else [TkLoad])
  | TkLoad => qgoto q (TkLoop (q_trigger q) 0)
  | TkLoop tn neg => qgoto q (if 0 <? tn then TkPop tn neg else TkFlush)
  | TkPop tn neg =>
      let r := Z.rem (q_r q + 1) (q_size q) in
      s ← at_ (q_list q) r;
      qgoto (set_read r (drop 1 (q_pend q)) q) (TkLock s tn neg)
  | TkLock s tn neg => q_lock s q (TkSwap s tn neg)
  | TkSwap s tn neg =>
      tmp ← at_ (q_getters q) s;
      qgoto (set_getters (put s [] (q_getters q)) q) (TkUnlock s tmp tn neg)
  | TkUnlock s gs tn neg => qgoto (q_unlock s q) (TkDeal gs tn neg)
  (* deal *)
  | TkDeal gs tn neg =>
      match c with
      | Works => qgoto (set_dealt (q_dealt q ++ gs) (q_broken q) q) (TkNeg tn neg)
      | Breaks k => qgoto (set_dealt (q_dealt q ++ take k gs) true q) (TkNeg tn neg)
      end
  | TkNeg tn neg => qgoto q (if tn + (neg - 1) =? 0 then TkSub (neg - 1) else TkLoop tn (neg - 1))
  | TkSub neg => qgoto (set_trigger (q_trigger q + neg) q) (TkLoop (q_trigger q + neg) 0)
  (* flush *)
  | TkFlush =>
      match c with
      | Works => qgoto (set_flushed (q_dealt q) (q_broken q) q) TkZero
      | Breaks _ => qgoto (set_flushed (q_flushed q) true q) TkZero
      end
  | TkZero => qgoto (set_runNum 0 q) TkCheck
  | TkCheck => qgoto q (if 0 <? q_trigger q then FeBegin else TkCas)
  | TkCas => qgoto (if q_state q =? closing then set_state closed q else q) QEnd
  | _ => None
  end.

Definition Close_step (q : queue) (p : qpc) : option (queue * qpc * list qpc) :=
  match p with
  | ClBegin => if q_state q =? active then qgoto (set_state closing q) ClLoop else qgoto q (ClRet true)
  | ClLoop => qgoto q (if q_state q =? closed then ClRet false else ClTrigger)
  | ClTrigger => qgoto q (if q_trigger q =? 0 then ClStore else ClLoop)
  | ClStore => qgoto (set_state closed q) (ClRet false)
  | _ => None
  end.

Definition q_step (q : queue) (p : qpc) (c : qchoice) : option (queue * qpc * list qpc) :=
  match p with
  | AdBegin _ | AdIdx _ | AdLock _ _ | AdPush _ _ | AdUnlock _ _ => Add_step q p
  | TrLock _ | TrWrite _ | TrUnlock | TrAdd => triggering_step q p
  | FeBegin | TkLoad | TkLoop _ _ | TkPop _ _ | TkLock _ _ _ | TkSwap _ _ _ | TkUnlock _ _ _ _ | TkDeal _ _ _
  | TkNeg _ _ | TkSub _ | TkFlush | TkZero | TkCheck | TkCas => foreach_step q p c
  | ClBegin | ClLoop | ClTrigger | ClStore => Close_step q p
  | AdPanic | ClRet _ | QEnd => None
  end.
End steps.

(** The calls: Add, with any getters, and Close; those with a getter. *)
Definition q_starts (p : qpc) : bool := match p with AdBegin _ | ClBegin => true | _ => false end.
Definition with_getters (p : qpc) : bool := match p with AdBegin [] => false | _ => true end.

Definition q_init (size : nat) : config queue qpc := Cfg (NewShardQueue size) [].
(** The calls are among those that satisfy [ok]. *)
Definition q_reach (ok : qpc → bool) (size : nat) (c : config queue qpc) : Prop :=
  reach q_step (λ p, q_starts p && ok p) (q_init size) c.
