(* ===== verification/ShardQueueInv.v ===== *)
(** * Invariants of the shard queue

    One task runs at a time; the ring holds each shard with getters once, so
    that it does not overflow; the trigger counts what is in the ring. *)

From stdpp Require Import list.
From S2P Require Import Prelude Threads ShardQueue.

Open Scope Z_scope.

Ltac q_unfold H :=
  cbv [q_step Add_step triggering_step foreach_step Close_step qgoto q_lock q_unlock mbind option_bind] in H; simpl in H.
Ltac q_case q p Hs := destruct p; q_unfold Hs; step_case; simpl in *.

(** All of a weight is at the only thread that has one. *)
Lemma tally_only {Pc} (f g : Pc → nat) (ths : list Pc) i p :
  (∀ q, g q = 0%nat → f q = 0%nat) → (tally g ths ≤ 1)%nat → ths !! i = Some p → (1 ≤ g p)%nat → tally f ths = f p.
Proof.
  intros Hfg. revert i. induction ths as [|q ths IH]; intros [|i] Hg Hi Hp; simplify_eq/=; unfold tally in *; simpl in *.
  - assert (sum_list_with f ths = 0)%nat; [|lia]. apply (tally_support g f); [done|]. unfold tally. lia.
  - pose proof (tally_pos g ths i p Hi) as Hpos. unfold tally in Hpos.
    rewrite (Hfg q), (IH i); try done; lia.
Qed.

(** Every other thread has none. *)
Lemma tally_others {Pc} (g : Pc → nat) (ths : list Pc) i j p q :
  (tally g ths ≤ 1)%nat → ths !! i = Some p → (1 ≤ g p)%nat → i ≠ j → ths !! j = Some q → g q = 0%nat.
Proof.
  intros Hg Hi Hp Hij Hj. revert i j Hi Hj Hij Hg. induction ths as [|x ths IH]; intros [|i] [|j] Hi Hj Hij Hg; try done;
    unfold tally in *; simplify_eq/=.
  - pose proof (tally_pos g ths j q Hj). unfold tally in *. lia.
  - pose proof (tally_pos g ths i p Hi). unfold tally in *. lia.
  - eapply (IH i j); try done; lia.
Qed.

Section invariants.
Context (size : nat) (size_pos : (0 < size)%nat).
Implicit Types (q : queue) (p : qpc) (c : config queue qpc).

Definition in_range (s : Z) : Prop := 0 <= s < Z.of_nat size.

(** ** Shape *)

Definition pc_ok (p : qpc) : Prop :=
  match p with
  | AdBegin gs | AdIdx gs => gs ≠ []
  | AdLock s gs | AdPush s gs => in_range s ∧ gs ≠ []
  | AdUnlock s _ | TrLock s | TrWrite s | TkLock s _ _ | TkSwap s _ _ | TkUnlock s _ _ _ => in_range s
  | _ => True
  end.

Record shape q : Prop := Shape {
  sh_getters : length (q_getters q) = size;
  sh_list : length (q_list q) = size;
  sh_range : Forall in_range (q_list q);
  sh_r : in_range (q_r q);
  sh_w : in_range (q_w q);
}.

Definition shape_inv c : Prop := shape (shared c) ∧ Forall pc_ok (threads c).

Lemma at_range {A} (l : list A) s x : at_ l s = Some x → 0 <= s ∧ l !! Z.to_nat s = Some x.
Proof. unfold at_. destruct (Z.ltb_spec s 0); [done|]. done. Qed.

Lemma rem_range z : 0 <= z → in_range (Z.rem z (Z.of_nat size)).
Proof. intros. unfold in_range. apply Z.rem_bound_pos; lia. Qed.

Lemma put_length {A} i (x : A) l : length (put i x l) = length l.
Proof. apply length_insert. Qed.

Lemma put_range i x l : in_range x → Forall in_range l → Forall in_range (put i x l).
Proof. intros Hx Hl. by apply Forall_insert. Qed.

Lemma shape_inv_step q ths i p ch q' p' sp :
  shape_inv (Cfg q ths) → ths !! i = Some p → q_step q p ch = Some (q', p', sp) →
  shape_inv (Cfg q' (<[i := p']> ths ++ sp)).
Proof.
  intros [[Hg Hl Hr H1 H2] Hpc] Hi Hs. simpl in *.
  pose proof (proj1 (Forall_lookup _ _) Hpc _ _ Hi) as Hp.
  assert (q_size q = Z.of_nat size) as Hsz by (unfold q_size, zlen; by rewrite Hg).
  enough (shape q' ∧ pc_ok p' ∧ Forall pc_ok sp) as (Hq&Hp'&Hsp).
  { split; [done|]. apply Forall_app. split; [by apply Forall_insert|done]. }
  unfold in_range in *.
  q_case q p Hs; rewrite ?Hsz in *; (split; [constructor; simpl; rewrite ?put_length; try done; try lia|]);
    try (split; simpl; auto; fail).
  all: try (apply put_range; done); try (apply rem_range; lia).
  all: try (split; [simpl|by apply Forall_nil]); try done.
  all: try (destruct Hp; done).
  all: try (split; [|done]); try (apply rem_range; lia).
  - unfold in_range. pose proof (Z.rem_bound_abs (int32 (q_idx q + 1)) (Z.of_nat size)). lia.
  - apply at_range in E as [_ E]. by apply (proj1 (Forall_lookup _ _) Hr) in E.
Qed.

(** ** The task *)

Definition runs p : nat :=
  match p with
  | TkLoad | TkLoop _ _ | TkPop _ _ | TkLock _ _ _ | TkSwap _ _ _ | TkUnlock _ _ _ _ | TkDeal _ _ _ | TkNeg _ _ | TkSub _
  | TkFlush | TkZero => 1
  | _ => 0
  end.

Definition run_inv c : Prop :=
  0 <= q_runNum (shared c) ∧ Z.of_nat (tally runs (threads c)) = (if q_runNum (shared c) =? 0 then 0 else 1).

Lemma run_inv_step q ths i p ch q' p' sp :
  run_inv (Cfg q ths) → ths !! i = Some p → q_step q p ch = Some (q', p', sp) → run_inv (Cfg q' (<[i := p']> ths ++ sp)).
Proof.
  intros [H0 H1] Hi Hs. unfold run_inv in *. simpl in *. count runs Hi Hs.
  destruct (Z.eqb_spec (q_runNum q) 0); q_case q p Hs; unfold tally in *; simpl in *;
    repeat case_match; step_case; lia.
Qed.

(** ** The trigger *)

Definition uncounted p : nat := match p with TrUnlock | TrAdd => 1 | _ => 0 end.

(** What the task took out of the ring since it last changed the trigger. *)
Definition popped p : nat :=
  match p with
  | TkLoop _ neg | TkPop _ neg | TkSub neg => Z.to_nat (- neg)
  | TkLock _ _ neg | TkSwap _ _ neg | TkUnlock _ _ _ neg | TkDeal _ _ neg | TkNeg _ neg => S (Z.to_nat (- neg))
  | _ => 0
  end.

Definition task_ok (trigger : Z) p : Prop :=
  match p with
  | TkLoop tn neg => neg <= 0 ∧ 0 <= tn <= trigger ∧ (tn = 0 → neg = 0) ∧ (0 < tn → 0 < tn + neg)
  | TkPop tn neg | TkLock _ tn neg | TkSwap _ tn neg | TkUnlock _ _ tn neg | TkDeal _ tn neg | TkNeg tn neg =>
      neg <= 0 ∧ tn <= trigger ∧ 0 < tn + neg
  | TkSub neg => neg < 0 ∧ - neg <= trigger
  | _ => True
  end.

Definition count_inv c : Prop :=
  0 <= q_trigger (shared c) ∧ Forall (task_ok (q_trigger (shared c))) (threads c) ∧
  q_trigger (shared c) + Z.of_nat (tally uncounted (threads c)) =
    zlen (q_pend (shared c)) + Z.of_nat (tally popped (threads c)).

Lemma task_ok_mono t t' p : t <= t' → task_ok t p → task_ok t' p.
Proof. intros Ht. destruct p; simpl; try done; intros; destruct_and?; split_and?; try done; lia. Qed.

Lemma task_ok_none t p : runs p = 0%nat → task_ok t p.
Proof. by destruct p. Qed.

Lemma popped_runs p : runs p = 0%nat → popped p = 0%nat.
Proof. by destruct p. Qed.

Lemma run_one c : run_inv c → (tally runs (threads c) ≤ 1)%nat.
Proof. intros [_ H]. destruct (_ =? 0); lia. Qed.

(** What is in the ring when the task takes from it. *)
Lemma pend_pop c i tn neg : run_inv c → count_inv c → threads c !! i = Some (TkPop tn neg) → q_pend (shared c) ≠ [].
Proof.
  intros Hr (Ht&Hok&Hcnt) Hi E. pose proof (proj1 (Forall_lookup _ _) Hok _ _ Hi) as (?&?&?).
  rewrite (tally_only popped runs _ i _ popped_runs (run_one _ Hr) Hi) in Hcnt by done.
  rewrite E, zlen_nil in Hcnt. simpl in Hcnt. lia.
Qed.

(** A property of all threads, after a step. *)
Lemma Forall_step (P : qpc → Prop) ths i p' sp :
  (∀ j x, i ≠ j → ths !! j = Some x → P x) → P p' → Forall P sp → Forall P (<[i := p']> ths ++ sp).
Proof.
  intros Hoth Hp' Hsp. apply Forall_app. split; [|done]. apply Forall_lookup. intros j x Hj.
  destruct (decide (i = j)) as [<-|Hne].
  - destruct (decide (i < length ths)%nat).
    + rewrite list_lookup_insert_eq in Hj by done. by simplify_eq.
    + apply lookup_lt_Some in Hj. rewrite length_insert in Hj. lia.
  - rewrite list_lookup_insert_ne in Hj by done. eauto.
Qed.

(** The locals of the task stay right: others only raise the trigger. *)
Lemma task_ok_step q ths i p ch q' p' sp :
  run_inv (Cfg q ths) → Forall (task_ok (q_trigger q)) ths → 0 <= q_trigger q →
  ths !! i = Some p → q_step q p ch = Some (q', p', sp) →
  0 <= q_trigger q' ∧ Forall (task_ok (q_trigger q')) (<[i := p']> ths ++ sp).
Proof.
  intros Hr Hok Ht Hi Hs. pose proof (proj1 (Forall_lookup _ _) Hok _ _ Hi) as Hp.
  assert (q_trigger q <= q_trigger q' ∨ (1 ≤ runs p)%nat) as Hmono.
  { clear -Hs. q_case q p Hs; simpl; auto; left; lia. }
  assert (0 <= q_trigger q' ∧ task_ok (q_trigger q') p' ∧ Forall (task_ok (q_trigger q')) sp) as (?&?&?).
  { clear Hi Hr Hok Hmono. q_case q p Hs; destruct_and?; split_and!; try done; try lia; repeat constructor. }
  split; [done|]. apply Forall_step; [|done..]. intros j x Hj Hx. destruct Hmono as [Hm|Hm].
  - eapply task_ok_mono; [exact Hm|]. by eapply (proj1 (Forall_lookup _ _) Hok).
  - apply task_ok_none. by eapply (tally_others runs ths i j p); [apply (run_one _ Hr)|..].
Qed.

Lemma count_inv_step q ths i p ch q' p' sp :
  run_inv (Cfg q ths) → count_inv (Cfg q ths) → ths !! i = Some p → q_step q p ch = Some (q', p', sp) →
  count_inv (Cfg q' (<[i := p']> ths ++ sp)).
Proof.
  intros Hr Hc Hi Hs. pose proof (pend_pop (Cfg q ths) i) as Hpop. specialize (λ tn neg, Hpop tn neg Hr Hc).
  destruct Hc as (Ht&Hok&Hcnt). simpl in *.
  destruct (task_ok_step q ths i p ch q' p' sp Hr Hok Ht Hi Hs) as [Ht' Hok']. split_and!; [done..|].
  pose proof (proj1 (Forall_lookup _ _) Hok _ _ Hi) as Hp. clear Hok Hok' Hr. simpl.
  count uncounted Hi Hs. count popped Hi Hs.
  q_case q p Hs; unfold tally in *; simpl in *; rewrite ?zlen_app in *; destruct_and?; try lia.
  - change (zlen [s]) with 1. lia.
  - specialize (Hpop _ _ Hi). destruct (q_pend q); [done|]. rewrite zlen_cons in *. simpl. rewrite drop_0. lia.
Qed.

(** ** The shards in the ring *)

Definition occurs (s : Z) (l : list Z) : nat := length (filter (λ x, x = s) l).

(** A thread that is about to put [s] into the ring, or has just taken it out. *)
Definition carries (s : Z) p : nat :=
  match p with
  | AdUnlock t true | TrLock t | TrWrite t | TkLock t _ _ | TkSwap t _ _ => if t =? s then 1 else 0
  | _ => 0
  end.

Definition shard_getters (s : Z) (l : list (list nat)) : list nat := default [] (l !! Z.to_nat s).

Definition occupied (l : list nat) : nat := match l with [] => 0 | _ => 1 end.
#[local] Arguments occupied : simpl never.

(** A shard is in the ring, or on its way, once when it has getters. *)
Definition occ_inv (s : Z) c : Prop :=
  (occurs s (q_pend (shared c)) + tally (carries s) (threads c) = occupied (shard_getters s (q_getters (shared c))))%nat.

Definition ring_inv q : Prop :=
  q_w q = (q_r q + zlen (q_pend q)) mod Z.of_nat size ∧ zlen (q_pend q) <= Z.of_nat size ∧ Forall in_range (q_pend q) ∧
  ∀ k x, q_pend q !! k = Some x → q_list q !! Z.to_nat ((q_r q + 1 + Z.of_nat k) mod Z.of_nat size) = Some x.

Lemma occurs_app s l k : occurs s (l ++ k) = (occurs s l + occurs s k)%nat.
Proof. unfold occurs. by rewrite filter_app, length_app. Qed.

Lemma occurs_one s t : occurs s [t] = if t =? s then 1%nat else 0%nat.
Proof. unfold occurs. rewrite filter_cons. destruct (decide (t = s)) as [->|Hne]; [by rewrite Z.eqb_refl|]. by rewrite (proj2 (Z.eqb_neq _ _)). Qed.

Lemma occurs_in s l : s ∈ l → (1 ≤ occurs s l)%nat.
Proof. intros (l1&l2&->)%list_elem_of_split. rewrite occurs_app. change (s :: l2) with ([s] ++ l2). rewrite occurs_app, occurs_one, Z.eqb_refl. lia. Qed.

Lemma occurs_NoDup l : (∀ s, s ∈ l → (occurs s l ≤ 1)%nat) → NoDup l.
Proof.
  induction l as [|x l IH]; intros Ho; [apply NoDup_nil_2|]. apply NoDup_cons.
  change (x :: l) with ([x] ++ l) in Ho. split.
  - intros Hx. specialize (Ho x ltac:(left)). rewrite occurs_app, occurs_one, Z.eqb_refl in Ho.
    pose proof (occurs_in x l Hx). lia.
  - apply IH. intros s Hs. specialize (Ho s ltac:(by right)). rewrite occurs_app in Ho. lia.
Qed.

(** Different shards fit into the ring. *)
Lemma range_NoDup l : NoDup l → Forall in_range l → zlen l <= Z.of_nat size.
Proof.
  intros Hn Hr. assert (l ⊆+ seqZ 0 (Z.of_nat size)) as Hs.
  { apply NoDup_submseteq; [done|]. intros x Hx. apply elem_of_seqZ. by apply (proj1 (Forall_forall _ _) Hr). }
  apply submseteq_length in Hs. rewrite length_seqZ in Hs. unfold zlen. lia.
Qed.

Lemma getters_put s t gs l : length l = size → in_range t → 0 <= s →
  shard_getters s (put t gs l) = if t =? s then gs else shard_getters s l.
Proof.
  intros Hl Ht Hs. unfold shard_getters, put, in_range in *. destruct (Z.eqb_spec t s) as [->|Hne].
  - by rewrite list_lookup_insert_eq by lia.
  - by rewrite list_lookup_insert_ne by lia.
Qed.

Lemma at_getters s gs l : at_ l s = Some gs → shard_getters s l = gs.
Proof. intros [_ E]%at_range. unfold shard_getters. by rewrite E. Qed.

(** What the task takes out of the ring. *)
Lemma ring_head q z : shape q → ring_inv q → q_pend q ≠ [] →
  at_ (q_list q) (Z.rem (q_r q + 1) (Z.of_nat size)) = Some z → ∃ rest, q_pend q = z :: rest.
Proof.
  intros [Hg _ _ Hr _] (_&_&_&Hring) Hne [_ Hz]%at_range. unfold in_range in Hr.
  destruct (q_pend q) as [|x rest]; [done|]. specialize (Hring 0%nat x eq_refl).
  rewrite Z.rem_mod_nonneg in Hz by lia. rewrite Z.add_0_r in Hring. exists rest. congruence.
Qed.

Lemma occ_inv_step s q ths i p ch q' p' sp :
  in_range s → shape_inv (Cfg q ths) → ring_inv q → (∀ tn neg, p = TkPop tn neg → q_pend q ≠ []) →
  occ_inv s (Cfg q ths) → ths !! i = Some p → q_step q p ch = Some (q', p', sp) →
  occ_inv s (Cfg q' (<[i := p']> ths ++ sp)).
Proof.
  intros Hs0 [Hsh Hpc] Hring Hpop Hocc Hi Hs. pose proof (proj1 (Forall_lookup _ _) Hpc _ _ Hi) as Hp. simpl in *.
  assert (q_size q = Z.of_nat size) as Hsz by (unfold q_size, zlen; by rewrite (sh_getters _ Hsh)).
  pose proof (λ t gs, getters_put s t gs (q_getters q) (sh_getters _ Hsh)) as Hput. unfold in_range in Hs0.
  unfold occ_inv in *. simpl in *. count (carries s) Hi Hs. clear Hpc Hi.
  q_case q p Hs; unfold tally in *; simpl in *; try lia.
  (* AdPush *)
  1,2: destruct Hp as [Hr Hgs]; rewrite Hput by (done || lia); apply at_getters in E; destruct (Z.eqb_spec s0 s) as [->|];
    rewrite ?E in *; [destruct gs; [done|]|]; unfold occupied in *; simpl in *; lia.
  - rewrite occurs_app, occurs_one. lia.
  - rewrite Hsz in E. destruct (ring_head q z Hsh Hring (Hpop _ _ eq_refl) E) as [rest Er]. rewrite Er in *.
    change (z :: rest) with ([z] ++ rest) in Hocc. rewrite occurs_app, occurs_one in Hocc. simpl. rewrite drop_0. lia.
  - rewrite Hput by (done || lia). destruct (Z.eqb_spec s0 s) as [->|]; [|lia].
    unfold occupied in *. destruct (shard_getters s (q_getters q)); lia.
Qed.

Lemma mod_ne a k l n : 0 <= k → k < l → l < n → (a + k) mod n ≠ (a + l) mod n.
Proof.
  intros Hk Hl Hn E. pose proof (Z.div_mod (a + k) n ltac:(lia)) as E1. pose proof (Z.div_mod (a + l) n ltac:(lia)) as E2.
  rewrite E in E1. assert (n * ((a + l) / n - (a + k) / n) = l - k) as E3 by lia.
  destruct (Z.lt_trichotomy ((a + l) / n - (a + k) / n) 0) as [|[|]]; nia.
Qed.

(** A shard is put into the ring behind the others, of which there is none
    twice, so that there is room. *)
Lemma ring_write q t : shape q → ring_inv q → in_range t → zlen (q_pend q ++ [t]) <= Z.of_nat size →
  let w := Z.rem (q_w q + 1) (Z.of_nat size) in
  ring_inv (set_write w (put w t (q_list q)) (q_pend q ++ [t]) q).
Proof.
  intros [_ Hl _ Hr Hw] (Ew&_&Hin&Hring) Ht Hlen w. unfold in_range in Hr, Hw. rewrite zlen_app in Hlen. change (zlen [t]) with 1 in Hlen.
  pose proof (zlen_nonneg (q_pend q)).
  assert (w = (q_r q + 1 + zlen (q_pend q)) mod Z.of_nat size) as Ew'.
  { unfold w. rewrite Z.rem_mod_nonneg, Ew, Z.add_mod_idemp_l by lia. f_equal. lia. }
  assert (0 <= w < Z.of_nat size) as Hwr by (rewrite Ew'; apply Z.mod_pos_bound; lia).
  split_and!; simpl.
  - rewrite zlen_app. change (zlen [t]) with 1. rewrite Ew'. f_equal. lia.
  - rewrite zlen_app. done.
  - apply Forall_app. by split; [|apply Forall_singleton].
  - intros k x Hk. unfold put. apply lookup_app_Some in Hk as [Hk|[Hge Hk]].
    + pose proof (lookup_lt_Some _ _ _ Hk). rewrite list_lookup_insert_ne; [by apply Hring|].
      rewrite Ew'. intros E. apply (mod_ne (q_r q + 1) (Z.of_nat k) (zlen (q_pend q)) (Z.of_nat size)); [unfold zlen in *; lia..|].
      apply Z2Nat.inj in E; [lia|apply Z.mod_pos_bound; lia..].
    + apply list_lookup_singleton_Some in Hk as [Hk <-]. replace (Z.of_nat k) with (zlen (q_pend q)) by (unfold zlen; lia).
      rewrite <- Ew', list_lookup_insert_eq by lia. done.
Qed.

Lemma ring_read q : shape q → ring_inv q → q_pend q ≠ [] →
  ring_inv (set_read (Z.rem (q_r q + 1) (Z.of_nat size)) (drop 1 (q_pend q)) q).
Proof.
  intros [_ Hl _ Hr Hw] (Ew&Hlen&Hin&Hring) Hne. unfold in_range in Hr, Hw.
  destruct (q_pend q) as [|y rest] eqn:Ep; [done|]. rewrite zlen_cons in *. apply Forall_cons in Hin as [_ Hin].
  pose proof (zlen_nonneg rest). rewrite Z.rem_mod_nonneg by lia.
  split_and!; simpl; rewrite ?drop_0; [|lia|done|].
  - rewrite Ew, Z.add_mod_idemp_l by lia. f_equal. lia.
  - intros k x Hk. rewrite <- (Hring (S k) x Hk). do 2 f_equal.
    rewrite <- Z.add_assoc, Z.add_mod_idemp_l by lia. f_equal. lia.
Qed.

Lemma ring_inv_step q ths i p ch q' p' sp :
  shape_inv (Cfg q ths) → ring_inv q → (∀ s, in_range s → occ_inv s (Cfg q ths)) →
  (∀ tn neg, p = TkPop tn neg → q_pend q ≠ []) →
  ths !! i = Some p → q_step q p ch = Some (q', p', sp) → ring_inv q'.
Proof.
  intros [Hsh Hpc] Hring Hocc Hpop Hi Hs. pose proof (proj1 (Forall_lookup _ _) Hpc _ _ Hi) as Hp. simpl in *.
  assert (q_size q = Z.of_nat size) as Hsz by (unfold q_size, zlen; by rewrite (sh_getters _ Hsh)).
  q_case q p Hs; rewrite ?Hsz; try exact Hring.
  - apply ring_write; [done..|]. apply range_NoDup.
    + apply occurs_NoDup. intros x Hx. rewrite occurs_app, occurs_one.
      assert (in_range x) as Hrx.
      { apply elem_of_app in Hx as [Hx|Hx%list_elem_of_singleton]; [|by subst]. destruct Hring as (_&_&Hin&_).
        by apply (proj1 (Forall_forall _ _) Hin). }
      specialize (Hocc x Hrx). unfold occ_inv, occupied in Hocc. simpl in Hocc.
      pose proof (tally_pos (carries x) _ _ _ Hi). simpl in *. destruct (shard_getters x _); lia.
    + apply Forall_app. split; [apply Hring|by apply Forall_singleton].
  - apply ring_read; [done..|]. by eapply Hpop.
Qed.

(** ** All of it *)

Definition core_inv c : Prop :=
  shape_inv c ∧ run_inv c ∧ count_inv c ∧ (∀ s, in_range s → occ_inv s c) ∧ ring_inv (shared c).

Lemma core_inv_reach c : q_reach with_getters size c → core_inv c.
Proof.
  intros Hr. eapply (reach_inv _ _ core_inv); [| |exact Hr|].
  - intros q ths i p ch q' p' sp (H1&H2&H3&H4&H5) Hi Hs. simpl in *.
    assert (∀ tn neg, p = TkPop tn neg → q_pend q ≠ []) as Hpop.
    { intros tn neg ->. exact (pend_pop (Cfg q ths) i tn neg H2 H3 Hi). }
    split_and!; simpl; eauto using shape_inv_step, run_inv_step, count_inv_step, ring_inv_step.
    intros s Hs0. eauto using occ_inv_step.
  - intros q ths p (H1&H2&H3&H4&H5) Hs. destruct H1 as [Hsh Hpc], H3 as (Ht&Hok&Hcnt).
    assert (∀ f : qpc → nat, f p = 0%nat → tally f (ths ++ [p]) = tally f ths) as Htl by (intros f E; rewrite tally_start; lia).
    unfold core_inv, shape_inv, run_inv, count_inv, occ_inv in *. simpl in *.
    assert (pc_ok p ∧ ∀ t, task_ok t p) as [Hp1 Hp2] by (destruct p; try done; by destruct gs).
    rewrite !Htl by (by destruct p).
    destruct H2 as [H2 H2']. assert (∀ P : qpc → Prop, Forall P ths → P p → Forall P (ths ++ [p])) as Happ
      by (intros; apply Forall_app; by split; [|apply Forall_singleton]).
    split_and!; auto. intros s Hr0. rewrite Htl by (by destruct p). by apply H4.
  - split_and!; simpl.
    + split; [|apply Forall_nil_2]. constructor; simpl; rewrite ?length_replicate; try done; [|unfold in_range; lia..].
      apply Forall_replicate. unfold in_range. lia.
    + done.
    + split_and!; simpl; [done|apply Forall_nil_2|done].
    + intros s Hs. unfold occ_inv, shard_getters, occupied. simpl. unfold in_range in Hs.
      by rewrite lookup_replicate_2 by lia.
    + split_and!; simpl; [by rewrite Z.mod_0_l by lia|unfold zlen; simpl; lia|apply Forall_nil_2|done].
Qed.
End invariants.
