(* ===== verification/ShardQueueTheorems.v ===== *)
(** * What the shard queue guarantees

    Everything that is added is appended and flushed once, by one task at a
    time, and the ring of triggered shards does not overflow; and executions
    in which Close returns early, or Add is called without a getter. *)

From stdpp Require Import list.
From S2P Require Import Prelude Threads ShardQueue ShardQueueInv.

Open Scope Z_scope.

Section theorems.
Context (size : nat) (size_pos : (0 < size)%nat).
Implicit Types (q : queue) (p : qpc) (c : config queue qpc).

(** ** Every getter is somewhere *)

Abbreviation times g l := (count_occ Nat.eq_dec l g).

(** The task holds the getters of a shard. *)
Definition hand (g : nat) p : nat :=
  match p with TkUnlock _ gs _ _ | TkDeal gs _ _ => times g gs | _ => 0 end.

Definition data_inv (g : nat) c : Prop :=
  let q := shared c in q_broken q = false →
  (times g (q_added q) = times g (q_dealt q) + tally (λ l, times g l) (q_getters q) + tally (hand g) (threads c))%nat.

Lemma tally_put {A} (f : A → nat) s (x y : A) l : at_ l s = Some x → (tally f (put s y l) + f x = tally f l + f y)%nat.
Proof.
  intros [_ E]%at_range. pose proof (tally_step f l (Z.to_nat s) x y [] E) as Ht. rewrite app_nil_r in Ht.
  unfold tally in *. simpl in Ht. unfold put. lia.
Qed.

Lemma data_inv_reach g c : q_reach with_getters size c → data_inv g c.
Proof.
  intros Hr. eapply (reach_inv _ _ (data_inv g)); [| |exact Hr|].
  - intros q ths i p ch q' p' sp Hd Hi Hs. unfold data_inv in *. simpl in *. count (hand g) Hi Hs.
    q_case q p Hs; intros Hb; simplify_eq/=; try specialize (Hd Hb); rewrite ?count_occ_app in *; rewrite ?Nat.add_0_r in *; try lia.
    + pose proof (tally_put (λ l, times g l) s _ gs _ E). simpl in *. lia.
    + pose proof (tally_put (λ l, times g l) s _ ((n :: l0) ++ gs) _ E) as Hp'. cbv beta in Hp'.
      rewrite count_occ_app in Hp'. simpl app in Hp'. lia.
    + pose proof (tally_put (λ l, times g l) s _ [] _ E). simpl in *. lia.
  - intros q ths p Hd Hs. unfold data_inv in *. simpl in *. rewrite tally_start. intros Hb. rewrite (Hd Hb). destruct p; simpl in *; try done; lia.
  - intros _. simpl. unfold tally. simpl. clear. induction size as [|n IH]; simpl; [done|]. simpl in *. lia.
Qed.

(** ** What is dealt is flushed *)

Definition unflushed p : nat := match p with TkZero => 0 | _ => runs p end.

Definition flush_inv c : Prop :=
  q_broken (shared c) = false → tally unflushed (threads c) = 0%nat → q_flushed (shared c) = q_dealt (shared c).

Lemma flush_inv_reach c : q_reach with_getters size c → flush_inv c.
Proof.
  intros Hr. eapply (reach_inv _ _ flush_inv); [| |exact Hr|].
  - intros q ths i p ch q' p' sp Hd Hi Hs. unfold flush_inv in *. simpl in *. count unflushed Hi Hs.
    q_case q p Hs; unfold tally in *; simpl in *; intros Hb Hz; simplify_eq/=; try done; try lia; apply Hd; (done || lia).
  - intros q ths p Hd Hs. unfold flush_inv in *. simpl in *. rewrite tally_start. intros Hb Hz. apply Hd; [done|lia].
  - done.
Qed.

(** ** Somebody works while there is something to do *)

Definition starting p : nat := match p with FeBegin | TkCheck => 1 | _ => 0 end.

Definition work_inv c : Prop :=
  0 < q_trigger (shared c) → (1 ≤ tally runs (threads c) + tally starting (threads c))%nat.

Lemma work_inv_reach c : q_reach with_getters size c → work_inv c.
Proof.
  revert c. apply (reach_inv_from _ _ _ work_inv).
  - intros q ths i p ch q' p' sp Hr Hw Hi Hs. apply (core_inv_reach size size_pos) in Hr as (_&[Hn Hrun]&_).
    unfold work_inv in *. simpl in *. count runs Hi Hs. count starting Hi Hs.
    destruct (Z.eqb_spec (q_runNum q) 0); q_case q p Hs; unfold tally in *; simpl in *; intros; try lia.
  - intros q ths p Hw Hs. unfold work_inv in *. simpl in *. rewrite !tally_start. intros Ht. specialize (Hw Ht). lia.
  - by unfold work_inv.
Qed.

(** ** The theorems *)

Definition q_ended p : Prop := p = QEnd ∨ ∃ err, p = ClRet err.

(** C16: When every Add is given at least one getter, then whatever the order in
    which Adds, the task and Close run, once they have ended and the connection
    took everything, each getter that was added was appended to the writer
    exactly once and flushed; no shard is left with getters.  An Add without a
    getter can make the queue lose the getters of other Adds. *)
Theorem shardqueue_delivers c :
  q_reach with_getters size c → q_broken (shared c) = false → (∀ p, p ∈ threads c → q_ended p) →
  Permutation (q_added (shared c)) (q_flushed (shared c)) ∧ Forall (λ gs, gs = []) (q_getters (shared c)).
Proof.
  intros Hr Hb Hend. destruct (core_inv_reach size size_pos _ Hr) as ([Hsh _]&_&(Ht0&_&Hcnt)&Hocc&_).
  assert (∀ f : qpc → nat, (∀ p, q_ended p → f p = 0%nat) → tally f (threads c) = 0%nat) as Hz.
  { intros f Hf. apply tally_zero. intros p Hp. auto. }
  assert (∀ f : qpc → nat, f QEnd = 0%nat → (∀ err, f (ClRet err) = 0%nat) → tally f (threads c) = 0%nat) as Hz'.
  { intros f H1 H2. apply Hz. intros p [->|[err ->]]; auto. }
  pose proof (work_inv_reach c Hr) as Hw. unfold work_inv in Hw. rewrite (Hz' runs), (Hz' starting) in Hw by done.
  rewrite (Hz' uncounted), (Hz' popped) in Hcnt by done. pose proof (zlen_nonneg (q_pend (shared c))).
  assert (q_pend (shared c) = []) as Ep by (apply zlen_0_nil; lia).
  assert (Forall (λ gs, gs = []) (q_getters (shared c))) as Hall.
  { apply Forall_lookup. intros k gs Hk. pose proof (lookup_lt_Some _ _ _ Hk) as Hlt. rewrite (sh_getters _ _ Hsh) in Hlt.
    specialize (Hocc (Z.of_nat k) ltac:(unfold in_range; lia)). unfold occ_inv, shard_getters in Hocc.
    rewrite Nat2Z.id, Hk, Ep, (Hz' (carries (Z.of_nat k))) in Hocc by done. by destruct gs. }
  split; [|done]. rewrite (flush_inv_reach c Hr Hb (Hz' unflushed eq_refl (λ _, eq_refl))).
  apply (Permutation_count_occ Nat.eq_dec). intros g. rewrite (data_inv_reach g c Hr Hb), (Hz' (hand g)) by done.
  rewrite (tally_zero (λ l, times g l)); [lia|]. intros gs Hgs. by rewrite (proj1 (Forall_forall _ _) Hall gs Hgs).
Qed.

(** C38: When every Add is given at least one getter, one task at a time appends
    and flushes; the ring has room for every shard that is triggered, holds
    none twice, and what the task has not read yet is not overwritten.  An Add
    without a getter can make the ring overflow. *)
Theorem shardqueue_ring c :
  q_reach with_getters size c →
  (tally runs (threads c) ≤ 1)%nat ∧ NoDup (q_pend (shared c)) ∧ zlen (q_pend (shared c)) <= Z.of_nat size ∧
  ∀ k s, q_pend (shared c) !! k = Some s →
    q_list (shared c) !! Z.to_nat ((q_r (shared c) + 1 + Z.of_nat k) mod Z.of_nat size) = Some s.
Proof.
  intros Hr. destruct (core_inv_reach size size_pos _ Hr) as (_&Hrun&_&Hocc&(_&Hlen&Hin&Hring)).
  split_and!; try done; [by apply (run_one size size_pos)|]. apply (occurs_NoDup size size_pos). intros s Hs.
  specialize (Hocc s (proj1 (Forall_forall _ _) Hin s Hs)). unfold occ_inv, occupied in Hocc. destruct (shard_getters _ _); lia.
Qed.
End theorems.

(** ** Executions *)

Definition q_config (ok : qpc → bool) (size : nat) (l : list (act qpc qchoice)) : config queue qpc :=
  default (q_init size) (run_acts q_step (λ p, q_starts p && ok p) l (q_init size)).

Lemma q_config_reach ok size l : q_reach ok size (q_config ok size l).
Proof.
  unfold q_config. destruct (run_acts _ _ l _) as [c|] eqn:E; simpl; [|apply rtc_refl]. by eapply run_acts_reach.
Qed.

Definition go (i n : nat) : list (act qpc qchoice) := repeat (Run i Works) n.

(** Two Adds of one getter; the second comes while the task is running. *)
Definition two_adds : list (act qpc qchoice) :=
  [Start (AdBegin [7%nat])] ++ go 0 10 ++ go 1 4 ++ [Start (AdBegin [8; 9]%nat)] ++ go 2 9 ++ go 1 18.

Lemma shardqueue_delivers_witness :
  let c := q_config with_getters 2 two_adds in
  threads c = [QEnd; QEnd; QEnd] ∧ q_flushed (shared c) = [7; 8; 9]%nat ∧
  Permutation (q_added (shared c)) (q_flushed (shared c)) ∧ Forall (λ gs, gs = []) (q_getters (shared c)).
Proof.
  split; [vm_compute; reflexivity|]. split; [vm_compute; reflexivity|].
  apply (shardqueue_delivers 2 ltac:(lia)); [apply q_config_reach|vm_compute; reflexivity|].
  intros p [[|[|[|j]]] Hj]%list_elem_of_lookup; vm_compute in Hj; simplify_eq; by left.
Defined.

(** Both shards are triggered, and the task has read neither. *)
Definition two_shards : list (act qpc qchoice) :=
  [Start (AdBegin [7%nat])] ++ go 0 10 ++ [Start (AdBegin [8; 9]%nat)] ++ go 2 9.

Lemma shardqueue_ring_witness :
  let c := q_config with_getters 2 two_shards in
  q_pend (shared c) = [1; 0] ∧
  ((tally runs (threads c) ≤ 1)%nat ∧ NoDup (q_pend (shared c)) ∧ zlen (q_pend (shared c)) <= Z.of_nat 2 ∧
   ∀ k s, q_pend (shared c) !! k = Some s →
     q_list (shared c) !! Z.to_nat ((q_r (shared c) + 1 + Z.of_nat k) mod Z.of_nat 2) = Some s).
Proof.
  split; [vm_compute; reflexivity|].
  apply (shardqueue_ring 2 ltac:(lia) (q_config with_getters 2 two_shards)). apply q_config_reach.
Defined.

(** Close while the task is between dealing and flushing. *)
Definition close_early : list (act qpc qchoice) :=
  [Start (AdBegin [7%nat])] ++ go 0 10 ++ go 1 9 ++ [Start ClBegin] ++ go 2 4.

(** Close can return before the task has flushed what was added: it waits
    for the trigger to become 0, which the task sets before it flushes. *)
Theorem shardqueue_close_early :
  let c := q_config with_getters 1 close_early in
  q_reach with_getters 1 c ∧ threads c = [QEnd; TkLoop 0 0; ClRet false] ∧ q_state (shared c) = closed ∧
  q_added (shared c) = [7%nat] ∧ q_flushed (shared c) = [].
Proof. split; [apply q_config_reach|vm_compute; done]. Qed.

(** Adds of nothing to the shard 1 between Adds to the shard 0. *)
Definition empty_adds : list (act qpc qchoice) :=
  [Start (AdBegin [])] ++ go 0 9 ++ [Start (AdBegin [5%nat])] ++ go 1 9 ++ [Start (AdBegin [])] ++ go 2 9 ++
  [Start (AdBegin [6%nat])] ++ go 3 5 ++ [Start (AdBegin [])] ++ go 4 9 ++ go 0 1 ++ go 5 35.

(** Add without a getter triggers its shard each time; the ring overflows,
    the trigger of another shard is overwritten, and its getters are never
    dealt, since later Adds find the shard not empty. *)
Theorem shardqueue_empty_add_loses :
  let c := q_config (λ _, true) 2 empty_adds in
  q_reach (λ _, true) 2 c ∧ threads c = replicate 6 QEnd ∧ q_trigger (shared c) = 0 ∧
  q_getters (shared c) = [[5; 6]; []]%nat ∧ q_flushed (shared c) = [].
Proof. split; [apply q_config_reach|vm_compute; done]. Qed.

(** After 2^31 - 1 Adds the index is negative, and the next Add panics unless
    the size divides 2^31. *)
Theorem shardqueue_index_overflow gs q :
  q_idx q = 2 ^ 31 - 1 → q_size q = 3 → Add_step q (AdIdx gs) = Some (set_idx (- 2 ^ 31) q, AdPanic, []).
Proof. intros E1 E2. unfold Add_step. by rewrite E1, E2. Qed.
