(* ===== verification/WaitFlush.v ===== *)
(** * Flushing

    Models Flush, flush and waitFlush of src/connection_impl.go together with
    outputs, outputAck and rw2r of src/connection_reactor.go, by which the poller
    sends what is left, and the channel writeTrigger.  The goroutine that
    flushes, the poller and whoever closes the connection are threads. *)

From S2P Require Import Prelude Threads Locker Errors WaitRead.

Open Scope Z_scope.

Record wstate := WState {
  w_closing : Z;                    (* keychain[closing] *)
  w_flushing : bool;                (* keychain[flushing] is taken *)
  w_len : Z;                        (* outputBuffer.Len() *)
  writeTrigger : option (option Z);   (* a channel of capacity 1 *)
  w_writable : bool;                (* the poll monitors write events *)
  w_detached : bool;                (* the poll has forgotten the descriptor *)
  w_armed : bool;                   (* writeTimer is running, *)
  w_fired : bool;                   (* writeTimer.C holds a value *)
  w_sent : Z;                       (* the bytes that were given to the kernel, *)
  w_total : Z;                      (* and those that were flushed *)
}.

Definition wset_closing x s := WState x (w_flushing s) (w_len s) (writeTrigger s) (w_writable s) (w_detached s) (w_armed s) (w_fired s) (w_sent s) (w_total s).
Definition wset_flushing x s := WState (w_closing s) x (w_len s) (writeTrigger s) (w_writable s) (w_detached s) (w_armed s) (w_fired s) (w_sent s) (w_total s).
Definition wset_len x s := WState (w_closing s) (w_flushing s) x (writeTrigger s) (w_writable s) (w_detached s) (w_armed s) (w_fired s) (w_sent s) (w_total s).
Definition wset_trigger x s := WState (w_closing s) (w_flushing s) (w_len s) x (w_writable s) (w_detached s) (w_armed s) (w_fired s) (w_sent s) (w_total s).
Definition wset_writable x s := WState (w_closing s) (w_flushing s) (w_len s) (writeTrigger s) x (w_detached s) (w_armed s) (w_fired s) (w_sent s) (w_total s).
Definition wset_timer x y s := WState (w_closing s) (w_flushing s) (w_len s) (writeTrigger s) (w_writable s) (w_detached s) x y (w_sent s) (w_total s).
(** [Control(PollDetach)] *)
Definition wdetach s := WState (w_closing s) (w_flushing s) (w_len s) (writeTrigger s) false true (w_armed s) (w_fired s) (w_sent s) (w_total s).
(** [outputBuffer.Flush()] makes [n] bytes readable. *)
Definition wflush n s := WState (w_closing s) (w_flushing s) (w_len s + n) (writeTrigger s) (w_writable s) (w_detached s) (w_armed s) (w_fired s) (w_sent s) (w_total s + n).
(** The kernel takes [k] bytes. *)
Definition wsend k s := WState (w_closing s) (w_flushing s) (w_len s) (writeTrigger s) (w_writable s) (w_detached s) (w_armed s) (w_fired s) (w_sent s + k) (w_total s).

Definition triggerWrite (err : option Z) (s : wstate) : wstate :=
  match writeTrigger s with
  | None => wset_trigger (Some err) s
  | Some _ => s
  end.

(** [e]: the error that is returned; [k]: the bytes that were sent. *)
Inductive wpc :=
(* the code of the user; Flush of [n] pending bytes *)
| FlRun
| FlActive (n : Z)
| FlLock (n : Z)
| FlFlush (n : Z)
| FlEmpty
| FlSend
| FlSkip (k : Z)
| FlCheck
| FlControl
| FlUnlock (e : option Z)
| FlRet (e : option Z)
(* waitFlush *)
| FlWait
| FlTimer
| FlSelect
| FlStop (e : option Z)
| FlDrain (e : option Z)
| FlFetch
| FlRw2r
(* the poller: outputs, sendmsg, outputAck *)
| PoIdle
| PoOutputs
| PoSend
| PoAck (k : Z)
| PoEmpty
| PoRw2r
| PoTrigger
(* onHup, onClose *)
| HwBegin
| HwSend
| UwBegin
| UwSend
| UwDetach
(* the timer *)
| WtFire
| WDone.

(** The environment decides how much is flushed, what the kernel takes, whether
    a system call fails, and which case of a select is taken. *)
Inductive wchoice := WFlush (n : Z) | Sent (k : Z) | SysErr (e : Z) | Hangup | OnTimer | OnTrigger | WGo.

Section steps.
(** [c.writeTimeout != 0] *)
Context (timeout : bool).

Definition wgoto (s : wstate) (p : wpc) : option (wstate * wpc * list wpc) := Some (s, p, []).

Definition Flush_step (s : wstate) (p : wpc) (c : wchoice) : option (wstate * wpc * list wpc) :=
  match p with
  | FlRun => match c with WFlush n => if 0 <=? n then wgoto s (FlActive n) else None | _ => None end
  | FlActive n => wgoto s (if w_closing s =? none then FlLock n else FlRet (Some ErrConnClosed))
  | FlLock n =>
      if w_flushing s then wgoto s (FlRet (Some ErrConcurrentAccess))
      else wgoto (wset_flushing true s) (FlFlush n)
  | FlFlush n => wgoto (wflush n s) FlEmpty
  (* flush *)
  | FlEmpty => wgoto s (if w_len s =? 0 then FlUnlock None else FlSend)
  | FlSend =>
      match c with
      | Sent k => if (0 <=? k) && (k <=? w_len s) then wgoto (wsend k s) (FlSkip k) else None
      | SysErr e => wgoto s (FlUnlock (Some e))
      | _ => None
      end
  | FlSkip k => wgoto (wset_len (w_len s - k) s) FlCheck
  | FlCheck => wgoto s (if w_len s =? 0 then FlUnlock None else FlControl)
  | FlControl =>
      match c with
      | SysErr e => wgoto s (FlUnlock (Some e))
      | WGo => if w_detached s then wgoto s (FlUnlock (Some ENOENT))
               else wgoto (wset_writable true s) (if timeout then FlTimer else FlWait)
      | _ => None
      end
  (* the deferred unlock *)
  | FlUnlock e => wgoto (wset_flushing false s) (FlRet e)
  | FlRet e => wgoto s FlRun
  | _ => None
  end.

Definition waitFlush_step (s : wstate) (p : wpc) (c : wchoice) : option (wstate * wpc * list wpc) :=
  match p with
  | FlWait => e ← writeTrigger s; wgoto (wset_trigger None s) (FlUnlock e)
  | FlTimer => wgoto (wset_timer true (w_fired s) s) FlSelect
  | FlSelect =>
      match c with
      | OnTrigger => e ← writeTrigger s; wgoto (wset_trigger None s) (FlStop e)
      | OnTimer => if w_fired s then wgoto (wset_timer (w_armed s) false s) FlFetch else None
      | _ => None
      end
  | FlStop e => wgoto (wset_timer false (w_fired s) s) (if w_armed s then FlUnlock e else FlDrain e)
  | FlDrain e => if w_fired s then wgoto (wset_timer (w_armed s) false s) (FlUnlock e) else None
  | FlFetch =>
      match writeTrigger s with
      | Some e => wgoto (wset_trigger None s) (FlUnlock e)
      | None => wgoto s FlRw2r
      end
  | FlRw2r => wgoto (wset_writable false s) (FlUnlock (Some ErrWriteTimeout))
  | _ => None
  end.

(** A round of the poller for this descriptor. *)
Definition outputs_step (s : wstate) (p : wpc) (c : wchoice) : option (wstate * wpc * list wpc) :=
  match p with
  | PoIdle =>
      match c with
      | WGo => if w_writable s then wgoto s PoOutputs else None
      | Hangup => if w_detached s then None else Some (wdetach s, PoIdle, [HwBegin])
      | _ => None
      end
  | PoOutputs => wgoto s (if w_len s =? 0 then PoRw2r else PoSend)
  | PoSend =>
      match c with
      | Sent k => if (0 <=? k) && (k <=? w_len s) then wgoto (wsend k s) (PoAck k) else None
      | SysErr _ => Some (wdetach s, PoIdle, [HwBegin])
      | _ => None
      end
  | PoAck k => wgoto (wset_len (w_len s - k) s) PoEmpty
  | PoEmpty => wgoto s (if w_len s =? 0 then PoRw2r else PoIdle)
  | PoRw2r => wgoto (wset_writable false s) PoTrigger
  | PoTrigger => wgoto (triggerWrite None s) PoIdle
  | _ => None
  end.

(** The part of onHup, onClose and the timer that concerns flushing. *)
Definition wclose_step (s : wstate) (p : wpc) : option (wstate * wpc * list wpc) :=
  match p with
  | HwBegin => if w_closing s =? 0 then wgoto (wset_closing poller s) HwSend else wgoto s WDone
  | HwSend => wgoto (triggerWrite (Some ErrConnClosed) s) WDone
  | UwBegin => if w_closing s =? 0 then wgoto (wset_closing user s) UwSend else wgoto (wset_closing user s) WDone
  | UwSend => wgoto (triggerWrite (Some ErrConnClosed) s) UwDetach
  | UwDetach => wgoto (wdetach s) WDone
  | WtFire => if w_armed s then wgoto (wset_timer false true s) WDone else None
  | _ => None
  end.

Definition fl_step (s : wstate) (p : wpc) (c : wchoice) : option (wstate * wpc * list wpc) :=
  match p with
  | FlRun | FlActive _ | FlLock _ | FlFlush _ | FlEmpty | FlSend | FlSkip _ | FlCheck | FlControl
  | FlUnlock _ | FlRet _ => Flush_step s p c
  | FlWait | FlTimer | FlSelect | FlStop _ | FlDrain _ | FlFetch | FlRw2r => waitFlush_step s p c
  | PoIdle | PoOutputs | PoSend | PoAck _ | PoEmpty | PoRw2r | PoTrigger => outputs_step s p c
  | HwBegin | HwSend | UwBegin | UwSend | UwDetach | WtFire => wclose_step s p
  | WDone => None
  end.

Definition fl_starts (p : wpc) : bool :=
  match p with UwBegin | WtFire => true | _ => false end.

(** The poller of the descriptor and [writers] goroutines that flush. *)
Definition fl_init (writers : nat) : config wstate wpc :=
  Cfg (WState 0 false 0 None false false false false 0 0) (PoIdle :: replicate writers FlRun).

Definition fl_reach (writers : nat) (c : config wstate wpc) : Prop :=
  reach fl_step fl_starts (fl_init writers) c.
End steps.

(** ** Invariants *)

Definition writer (p : wpc) : nat :=
  match p with
  | FlRun | FlActive _ | FlLock _ | FlFlush _ | FlEmpty | FlSend | FlSkip _ | FlCheck | FlControl
  | FlUnlock _ | FlRet _ | FlWait | FlTimer | FlSelect | FlStop _ | FlDrain _ | FlFetch | FlRw2r => 1
  | _ => 0
  end.
Definition polls (p : wpc) : nat :=
  match p with PoIdle | PoOutputs | PoSend | PoAck _ | PoEmpty | PoRw2r | PoTrigger => 1 | _ => 0 end.

(** Has seen the connection open, and has not been woken. *)
Definition active (p : wpc) : nat :=
  match p with
  | FlLock _ | FlFlush _ | FlEmpty | FlSend | FlSkip _ | FlCheck | FlControl | FlWait => 1
  | _ => 0
  end.
Definition awaits (p : wpc) : nat := match p with FlWait => 1 | _ => 0 end.
Definition registers (p : wpc) : nat := match p with FlControl => 1 | _ => 0 end.
Definition timers (p : wpc) : nat :=
  match p with FlTimer | FlSelect | FlStop _ | FlDrain _ | FlFetch | FlRw2r => 1 | _ => 0 end.
Definition flushed (p : wpc) : nat := match p with FlUnlock None | FlRet None => 1 | _ => 0 end.

(** The poller sends, has sent, has sent everything. *)
Definition sending (p : wpc) : nat := match p with PoOutputs | PoSend | PoAck _ | PoEmpty => 1 | _ => 0 end.
Definition acked (p : wpc) : nat := match p with PoEmpty => 1 | _ => 0 end.
Definition emptied (p : wpc) : nat := match p with PoRw2r | PoTrigger => 1 | _ => 0 end.
Definition triggers (p : wpc) : nat := match p with PoTrigger => 1 | _ => 0 end.

(** The bytes the kernel has taken and the buffer still holds. *)
Definition taken (p : wpc) : nat := match p with FlSkip k | PoAck k => Z.to_nat k | _ => 0 end.
Definition negative (p : wpc) : nat :=
  match p with FlActive n | FlLock n | FlFlush n | FlSkip n | PoAck n => if n <? 0 then 1 else 0 | _ => 0 end.

Definition skips (p : wpc) : nat := match p with FlSkip _ => 1 | _ => 0 end.
Definition acks (p : wpc) : nat := match p with PoAck _ => 1 | _ => 0 end.

Definition hup (p : wpc) : nat := match p with HwBegin => 1 | _ => 0 end.
Definition tells (p : wpc) : nat := match p with HwSend | UwSend => 1 | _ => 0 end.
Definition has_closed (p : wpc) : nat := match p with HwSend | UwSend | UwDetach => 1 | _ => 0 end.

Ltac fl_unfold H :=
  cbv [fl_step Flush_step waitFlush_step outputs_step wclose_step wgoto triggerWrite
    mbind option_bind none user poller] in H; simpl in H.
Ltac fl_cases s p Hs :=
  destruct s; simpl in *; destruct p; fl_unfold Hs; step_case;
  rewrite ?Nat.add_0_r in *; unfold tally in *; simpl in *.
Ltac fl_solve s p Hs := fl_cases s p Hs; try lia.
