(* ===== verification/WaitFlushTheorems.v ===== *)
(** * What Flush guarantees

    The theorems about [WaitFlush], without a write timeout, and executions. *)

From S2P Require Import Prelude Threads Locker Errors WaitRead WaitFlush.

Open Scope Z_scope.

(** One goroutine flushes, one poller polls. *)
Definition roles_inv (c : config wstate wpc) : Prop :=
  tally writer (threads c) = 1%nat ∧ tally polls (threads c) = 1%nat ∧
  tally timers (threads c) = 0%nat ∧ tally negative (threads c) = 0%nat.

Lemma roles_inv_reach c : fl_reach false 1 c → roles_inv c.
Proof.
  apply (reach_inv_from _ _ _ roles_inv).
  - intros s ths i p ch s' p' sp _ (H1&H2&H3&H4) Hi Hs. unfold roles_inv in *. simpl in *.
    count writer Hi Hs. count polls Hi Hs. count timers Hi Hs. count negative Hi Hs. fl_solve s p Hs.
    all: repeat case_match; simpl in *; lia.
  - intros s ths p (H1&H2&H3&H4) Hs. unfold roles_inv in *. simpl in *. rewrite !tally_start.
    destruct p; simpl in *; try done; rewrite ?Nat.add_0_r; done.
  - done.
Qed.

Ltac alone f role Hone Hi :=
  let H := fresh "Hs" in
  lazymatch type of Hi with
  | ?ths !! ?i = Some ?p =>
      assert (role p = 1%nat → tally f ths = f p) as H
        by (apply (tally_single f role ths i); [intros []; simpl; repeat case_match; lia|rewrite Hone; lia|exact Hi])
  end.

(** Whoever closes the connection wakes the goroutine that has seen it open. *)
Definition wclosed_inv (c : config wstate wpc) : Prop :=
  ((1 ≤ tally has_closed (threads c))%nat → w_closing (shared c) ≠ 0) ∧
  (w_closing (shared c) ≠ 0 → (1 ≤ tally active (threads c))%nat →
    1 <= filled (writeTrigger (shared c)) + Z.of_nat (tally tells (threads c))).

Lemma wclosed_inv_reach c : fl_reach false 1 c → wclosed_inv c.
Proof.
  apply (reach_inv_from _ _ _ wclosed_inv).
  - intros s ths i p ch s' p' sp Hr (H1&H2) Hi Hs. apply roles_inv_reach in Hr as (R1&_&R3&_).
    unfold wclosed_inv in *. simpl in *. alone active writer R1 Hi. pose proof (tally_pos timers _ _ _ Hi).
    pose proof (filled_nonneg (writeTrigger s)). count has_closed Hi Hs. count active Hi Hs. count tells Hi Hs.
    fl_solve s p Hs. all: fire; simpl in *; lia.
  - intros s ths p (H1&H2) Hs. unfold wclosed_inv in *. simpl in *. rewrite !tally_start.
    destruct p; simpl in *; try done; rewrite ?Nat.add_0_r; done.
  - split; simpl; unfold tally; simpl; lia.
Qed.

Lemma b2z_range (b : bool) : 0 <= Z.b2z b <= 1.
Proof. destruct b; simpl; lia. Qed.

(** The channel holds an error. *)
Definition failure (ch : option (option Z)) : Z := match ch with Some (Some _) => 1 | _ => 0 end.

(** As long as the connection is open, the poller and the channel work for the
    goroutine that waits. *)
Record open_ok (s : wstate) (ths : list wpc) : Prop := OpenOk {
  oo_owner : 1 <= Z.b2z (w_writable s) + Z.of_nat (tally sending ths + tally emptied ths) + filled (writeTrigger s) →
    tally awaits ths = 1%nat;
  oo_token : 1 <= filled (writeTrigger s) → failure (writeTrigger s) = 0 ∧ w_len s = 0 ∧ Z.b2z (w_writable s) = 0 ∧
    tally sending ths = 0%nat ∧ tally emptied ths = 0%nat;
  oo_emptied : (1 ≤ tally emptied ths)%nat → w_len s = 0;
  oo_triggers : (1 ≤ tally triggers ths)%nat → Z.b2z (w_writable s) = 0;
  oo_awaits : (1 ≤ tally awaits ths)%nat →
    1 <= Z.b2z (w_writable s) + Z.of_nat (tally triggers ths + tally hup ths) + filled (writeTrigger s);
  oo_left : (1 ≤ tally awaits ths)%nat →
    1 <= w_len s + Z.of_nat (tally acked ths + tally emptied ths) + filled (writeTrigger s);
  oo_registers : (1 ≤ tally registers ths)%nat → 1 <= w_len s;
  oo_flushed : (1 ≤ tally flushed ths)%nat → w_len s = 0;
  oo_taken : Z.of_nat (tally taken ths) <= w_len s;
  oo_sent : w_sent s + w_len s = w_total s + Z.of_nat (tally taken ths);
}.

Definition open_inv (c : config wstate wpc) : Prop := w_closing (shared c) = 0 → open_ok (shared c) (threads c).

Lemma open_inv_reach c : fl_reach false 1 c → open_inv c.
Proof.
  apply (reach_inv_from _ _ _ open_inv).
  - intros s ths i p ch s' p' sp Hr Ho Hi Hs Hc. simpl in *. pose proof (wclosed_inv_reach _ Hr) as (Hcl&_).
    apply roles_inv_reach in Hr as (R1&R2&R3&R4). simpl in *.
    assert (w_closing s = 0) as Hc0.
    { destruct s; destruct p; fl_unfold Hs; step_case; done. }
    destruct (Ho Hc0) as [H1 H2 H3 H4 H5 H6 H7 H8 H9 H10]. clear Ho. simpl in *.
    alone awaits writer R1 Hi. alone registers writer R1 Hi. alone flushed writer R1 Hi.
    alone sending polls R2 Hi. alone acked polls R2 Hi. alone emptied polls R2 Hi. alone triggers polls R2 Hi.
    pose proof (filled_nonneg (writeTrigger s)). pose proof (b2z_range (w_writable s)). pose proof (tally_pos timers _ _ _ Hi). pose proof (tally_pos negative _ _ _ Hi).
    count awaits Hi Hs. count registers Hi Hs. count flushed Hi Hs. count sending Hi Hs. count acked Hi Hs.
    count emptied Hi Hs. count triggers Hi Hs. count hup Hi Hs. count taken Hi Hs.
    alone skips writer R1 Hi. alone acks polls R2 Hi.
    pose proof (tally_le triggers emptied ths ltac:(intros []; simpl; lia)).
    pose proof (tally_le acks sending ths ltac:(intros []; simpl; lia)).
    pose proof (tally_le (λ p, awaits p + (registers p + skips p))%nat writer ths ltac:(intros []; simpl; lia)) as Hw.
    rewrite !tally_plus in Hw.
    pose proof (tally_support (λ p, skips p + acks p)%nat taken ths ltac:(intros []; simpl; lia)) as Htk.
    rewrite tally_plus in Htk. pose proof (tally_pos has_closed _ _ _ Hi).
    fl_cases s p Hs.
    all: fire; repeat match goal with H : 0%nat = 1%nat → _ |- _ => clear H end.
    all: constructor; simpl; unfold tally; intros; try lia; step_case; try lia.
  - intros s ths p Ho Hs Hc. destruct (Ho Hc) as [H1 H2 H3 H4 H5 H6 H7 H8 H9 H10].
    constructor; simpl in *; rewrite !tally_start; destruct p; simpl in *; try done; rewrite ?Nat.add_0_r; done.
  - intros _. constructor; simpl; unfold tally; simpl; lia.
Qed.

(** C9: on a connection without a write timeout that a single goroutine
    flushes, Flush returns nil only when the kernel has taken every byte that
    was flushed, as long as the connection is open: a trigger of the poller is
    never stale, and no byte is sent twice. *)
Theorem Flush_sends_all c i :
  fl_reach false 1 c → threads c !! i = Some (FlRet None) → w_closing (shared c) = none →
  w_len (shared c) = 0 ∧ w_sent (shared c) = w_total (shared c).
Proof.
  intros Hr Hi Hc. pose proof (roles_inv_reach _ Hr) as (R1&R2&_). destruct (open_inv_reach _ Hr Hc).
  pose proof (tally_pos flushed _ _ _ Hi). simpl in *.
  alone awaits writer R1 Hi. alone skips writer R1 Hi.
  pose proof (tally_le acks sending (threads c) ltac:(intros []; simpl; lia)).
  pose proof (tally_support (λ p, skips p + acks p)%nat taken (threads c) ltac:(intros []; simpl; lia)) as Htk.
  rewrite tally_plus in Htk. simpl in *. fire. pose proof (filled_nonneg (writeTrigger (shared c))).
  pose proof (b2z_range (w_writable (shared c))). lia.
Qed.

(** C10: on a connection without a write timeout that a single goroutine
    flushes, no wake-up of a flush is lost: when the goroutine is blocked in
    waitFlush, the poller is idle and every other thread has ended, then the
    connection is open, bytes are left to send, and the poll monitors write
    events.  With a second goroutine that flushes, the wake-up of a close can
    be taken by the wrong one. *)
Theorem waitFlush_no_lost_wakeup c i :
  fl_reach false 1 c → threads c !! i = Some FlWait → writeTrigger (shared c) = None →
  (∀ j p, j ≠ i → threads c !! j = Some p → p = PoIdle ∨ p = WDone ∨ p = WtFire) →
  w_closing (shared c) = none ∧ 0 < w_len (shared c) ∧ w_writable (shared c) = true.
Proof.
  intros Hr Hi Htr Hdone.
  assert (∀ f : wpc → nat, f PoIdle = 0%nat → f WDone = 0%nat → f WtFire = 0%nat → f FlWait = 0%nat →
    tally f (threads c) = 0%nat) as Hz.
  { intros f ????. apply tally_zero. intros p [j Hj]%list_elem_of_lookup.
    destruct (decide (j = i)) as [->|Hne]; [by simplify_eq|].
    by destruct (Hdone _ _ Hne Hj) as [->|[->| ->]]. }
  pose proof (wclosed_inv_reach _ Hr) as (_&Hcl). rewrite Htr, (Hz tells) in Hcl by done.
  pose proof (tally_pos active _ _ _ Hi). pose proof (tally_pos awaits _ _ _ Hi). simpl in *.
  assert (w_closing (shared c) = 0) as Hc by lia. split; [done|].
  destruct (open_inv_reach _ Hr Hc) as [_ _ _ _ H5 H6 _ _ _ _]. rewrite Htr in *. simpl in *.
  rewrite (Hz acked), (Hz emptied) in H6 by done. rewrite (Hz triggers), (Hz hup) in H5 by done.
  split; [lia|]. destruct (w_writable (shared c)); [done|]. simpl in H5. lia.
Qed.

(** ** Executions *)

Definition fl_config (timeout : bool) (writers : nat) (l : list (act wpc wchoice)) : config wstate wpc :=
  default (fl_init writers) (run_acts (fl_step timeout) fl_starts l (fl_init writers)).

Lemma fl_config_reach timeout writers l : fl_reach timeout writers (fl_config timeout writers l).
Proof.
  unfold fl_config. destruct (run_acts _ _ l _) as [c|] eqn:E; simpl; [|apply rtc_refl].
  by eapply run_acts_reach.
Qed.

(** Of 10 bytes the kernel takes 4; the goroutine waits for the poller, *)
Definition partial_acts : list (act wpc wchoice) :=
  [Run 1 (WFlush 10); Run 1 WGo; Run 1 WGo; Run 1 WGo; Run 1 WGo; Run 1 (Sent 4); Run 1 WGo; Run 1 WGo; Run 1 WGo].
(** which sends the others. *)
Definition poll_acts : list (act wpc wchoice) :=
  [Run 0 WGo; Run 0 WGo; Run 0 (Sent 6); Run 0 WGo; Run 0 WGo; Run 0 WGo; Run 0 WGo; Run 1 WGo; Run 1 WGo].

Lemma waitFlush_no_lost_wakeup_witness :
  let c := fl_config false 1 partial_acts in
  w_closing (shared c) = none ∧ 0 < w_len (shared c) ∧ w_writable (shared c) = true.
Proof.
  apply (waitFlush_no_lost_wakeup _ 1); [apply fl_config_reach|vm_compute; reflexivity..|].
  intros [|[|j]] p Hne Hj; [|done|done]. vm_compute in Hj. simplify_eq. by left.
Defined.

Lemma Flush_sends_all_witness :
  let c := fl_config false 1 (partial_acts ++ poll_acts) in
  w_len (shared c) = 0 ∧ w_sent (shared c) = w_total (shared c).
Proof. apply (Flush_sends_all _ 1); [apply fl_config_reach|vm_compute; reflexivity..]. Defined.

(** With a write timeout a trigger can be stale: the timer fires while the
    poller sends the last bytes, and the trigger of the poller stays in the
    channel.  The next Flush returns nil although nothing of it was sent. *)
Definition stale_acts : list (act wpc wchoice) :=
  [Run 1 (WFlush 10); Run 1 WGo; Run 1 WGo; Run 1 WGo; Run 1 WGo; Run 1 (Sent 4); Run 1 WGo; Run 1 WGo; Run 1 WGo;
   Run 1 WGo; Run 0 WGo; Start WtFire; Run 2 WGo; Run 1 OnTimer; Run 1 WGo; Run 1 WGo; Run 1 WGo; Run 1 WGo;
   Run 0 WGo; Run 0 (Sent 6); Run 0 WGo; Run 0 WGo; Run 0 WGo; Run 0 WGo;
   Run 1 (WFlush 7); Run 1 WGo; Run 1 WGo; Run 1 WGo; Run 1 WGo; Run 1 (Sent 0); Run 1 WGo; Run 1 WGo; Run 1 WGo;
   Run 1 WGo; Run 1 OnTrigger; Run 1 WGo; Run 1 WGo].

Lemma write_timeout_stale_trigger :
  let c := fl_config true 1 stale_acts in
  threads c !! 1%nat = Some (FlRet None) ∧ w_closing (shared c) = none ∧ w_len (shared c) = 7.
Proof. vm_compute. done. Qed.

(** Two goroutines flush, against the contract, and the user closes: the first
    takes the trigger of the close, the second waits for ever. *)
Definition two_acts : list (act wpc wchoice) :=
  [Run 1 (WFlush 10); Run 1 WGo; Run 1 WGo; Run 1 WGo; Run 1 WGo; Run 1 (Sent 4); Run 1 WGo; Run 1 WGo; Run 1 WGo;
   Run 2 (WFlush 5); Run 2 WGo; Start UwBegin; Run 3 WGo; Run 3 WGo; Run 1 WGo; Run 1 WGo; Run 1 WGo;
   Run 2 WGo; Run 2 WGo; Run 2 WGo; Run 2 (Sent 0); Run 2 WGo; Run 2 WGo; Run 2 WGo; Run 3 WGo].

Lemma two_flushes_block :
  let c := fl_config false 2 two_acts in
  threads c = [PoIdle; FlRun; FlWait; WDone] ∧ writeTrigger (shared c) = None ∧ w_writable (shared c) = false ∧
  w_flushing (shared c) = true.
Proof. vm_compute. done. Qed.
