(* ===== verification/Poll.v ===== *)
(** * The poll

    Models src/poll_default.go and src/poll_default_linux.go: the handler of a
    batch of events, Wait, Control, Trigger and Close.  The callbacks of the
    operators and the kernel are the environment: what they answer to the calls
    for an event comes with the event, and the calls are recorded in a trace.
    Between do and done nobody else changes an operator. *)

From stdpp Require Import strings.
From S2P Require Import Prelude GoMem Errors SysExec FDOperator.

Open Scope Z_scope.

(** ** Events *)

Definition EPOLLIN : Z := 0x1.
Definition EPOLLOUT : Z := 0x4.
Definition EPOLLERR : Z := 0x8.
Definition EPOLLHUP : Z := 0x10.
Definition EPOLLRDHUP : Z := 0x2000.
Definition EPOLLET : Z := 0x80000000.

Inductive ctl := EPOLL_CTL_ADD | EPOLL_CTL_MOD | EPOLL_CTL_DEL.

(** The result of ioread or iosend. *)
Abbreviation ioresult := (Z * option error)%type.

(** The answers to the calls for one event. [an_inputs], [an_outputs]: whether
    Inputs and Outputs return slices; [an_left]: the same and the answer of
    ioread, for every round of readall; [an_errqueue]: the error of recvmsg;
    [an_buf]: the first byte read from the eventfd. *)
Record answers := Answers {
  an_inputs : bool;
  an_read : ioresult;
  an_left : list (bool * ioresult);
  an_errqueue : Z;
  an_outputs : bool;
  an_send : ioresult;
  an_buf : Z;
}.

Record event := Event { ev_op : option nat; ev_events : Z; ev_answers : answers }.

(** What the handler calls. *)
Inductive call :=
| KOnRead (op : nat)
| KInputs (op : nat)
| KRead (op : nat)
| KInputAck (op : nat) (n : Z)
| KErrQueue (op : nat)
| KOnWrite (op : nat)
| KOutputs (op : nat)
| KSend (op : nat)
| KOutputAck (op : nat) (n : Z)
| KCtlDel (op : nat)
| KReadEventfd
| KCloseFds
| KLog.

(** The part of defaultPoll that the handler uses; [pl_wop]: the descriptor of
    the eventfd. *)
Record poll := Poll_ {
  pl_ops : gmap nat FDOperator;
  pl_hups : list (option nat);
  pl_trigger : Z;
  pl_trace : list call;
}.

Definition set_ops x p := Poll_ x (pl_hups p) (pl_trigger p) (pl_trace p).
Definition set_hups x p := Poll_ (pl_ops p) x (pl_trigger p) (pl_trace p).
Definition set_ptrigger x p := Poll_ (pl_ops p) (pl_hups p) x (pl_trace p).
Definition record (l : list call) p := Poll_ (pl_ops p) (pl_hups p) (pl_trigger p) (pl_trace p ++ l).

Definition update_op (l : nat) (op : FDOperator) (p : poll) : poll := set_ops (<[l := op]> (pl_ops p)) p.

(** appendHup, with detach and the first part of Control; [op]: the operator
    at [l]. *)
Definition appendHup (l : nat) (op : FDOperator) (p : poll) : poll :=
  let p := set_hups (pl_hups p ++ [OnHup op]) p in
  let r := op_Control PollDetach op in
  let p := if r.1 then record [KCtlDel l] p else p in
  update_op l (op_done r.2) p.

(** onhups: the callbacks that the goroutine it starts calls, in order. *)
Definition onhups (p : poll) : list nat * poll :=
  (omap id (pl_hups p), set_hups [] p).

(** ioread into slices that an earlier ioread has set to nil. *)
Definition read_again : ioresult := (0, Some (Exc 0 ErrEOF EmptyString)).

(** readall; [None]: the answers do not suffice, the loop goes on. *)
Fixpoint readall (l : nat) (rounds : list (bool * ioresult)) (total : Z) : option (Z * option error * list call) :=
  match rounds with
  | [] => None
  | (false, _) :: _ => Some (total, None, [KInputs l])
  | (true, (n, err)) :: rounds =>
      let total := total + n in
      match err with
      | Some _ => Some (total, err, [KInputs l; KRead l; KInputAck l n])
      | None =>
          if n =? 0 then
            (* TryRead *)
            Some (total + read_again.1, read_again.2,
                  [KInputs l; KRead l; KInputAck l n; KRead l; KInputAck l read_again.1])
          else
            '(t, e, calls) ← readall l rounds total;
            Some (t, e, [KInputs l; KRead l; KInputAck l n] ++ calls)
      end
  end.

(** The branch [if triggerRead]: the bytes that were read and whether the
    connection has to be closed. *)
Definition read_part (l : nat) (op : FDOperator) (a : answers) : Z * bool * list call :=
  match OnRead op, Inputs op with
  | Some _, _ => (0, false, [KOnRead l])
  | None, Some _ =>
      if an_inputs a then
        ((an_read a).1, bool_decide ((an_read a).2 ≠ None), [KInputs l; KRead l; KInputAck l (an_read a).1])
      else (0, false, [KInputs l])
  | None, None => (0, false, [KLog])
  end.

(** The branch [if triggerHup]. *)
Definition hup_part (l : nat) (op : FDOperator) (a : answers) (triggerRead : bool) (totalRead : Z) :
    option (bool * list call) :=
  if triggerRead && bool_decide (Inputs op ≠ None) then
    '(leftRead, err, calls) ← readall l (an_left a) 0;
    let log :=
      match err with Some e => if errors_Is e (Errno ErrEOF) then [] else [KLog] | None => [] end in
    Some (totalRead + leftRead =? 0, calls ++ log)
  else Some (totalRead =? 0, []).

(** The branch [if triggerWrite]: whether the connection has to be closed. *)
Definition write_part (l : nat) (op : FDOperator) (a : answers) : bool * list call :=
  match OnWrite op, Outputs op with
  | Some _, _ => (false, [KOnWrite l])
  | None, Some _ =>
      if an_outputs a then
        (bool_decide ((an_send a).2 ≠ None), [KOutputs l; KSend l; KOutputAck l (an_send a).1])
      else (false, [KOutputs l])
  | None, None => (false, [KLog])
  end.

(** How the handling of an event ends: by appendHup, by done, or with the exit
    of the handler. *)
Inductive ending := EHup | EDone | EExit.

(** The calls for an event of the operator [op] at [l], and how it ends;
    [None]: readall goes on. *)
Definition handle (wop : Z) (l : nat) (op : FDOperator) (evt : Z) (a : answers) : option (ending * list call) :=
  let triggerRead := negb (Z.land evt EPOLLIN =? 0) in
  let triggerWrite := negb (Z.land evt EPOLLOUT =? 0) in
  let triggerHup := negb (Z.land evt (Z.lor EPOLLHUP EPOLLRDHUP) =? 0) in
  let triggerError := negb (Z.land evt EPOLLERR =? 0) in
  if FD op =? wop then
    if 0 <? an_buf a then Some (EExit, [KReadEventfd; KCloseFds]) else Some (EDone, [KReadEventfd])
  else
    let '(totalRead, rerr, rcalls) := if triggerRead then read_part l op a else (0, false, []) in
    if rerr then Some (EHup, rcalls)
    else
      '(hup, hcalls) ← (if triggerHup then hup_part l op a triggerRead totalRead else Some (false, []));
      if hup : bool then Some (EHup, rcalls ++ hcalls)
      else if triggerError then
        Some (if an_errqueue a =? EAGAIN then EDone else EHup, rcalls ++ hcalls ++ [KErrQueue l])
      else
        let '(werr, wcalls) := if triggerWrite then write_part l op a else (false, []) in
        Some (if werr then EHup else EDone, rcalls ++ hcalls ++ wcalls).

(** One round of the loop of the handler: whether it goes on. *)
Definition handle_event (wop : Z) (e : event) (p : poll) : option (bool * poll) :=
  match ev_op e with
  | None => Some (true, p)
  | Some l =>
      op ← pl_ops p !! l;
      let r := op_do op in
      if r.1 then
        let op := r.2 in
        '(how, calls) ← handle wop l op (ev_events e) (ev_answers e);
        let p := record calls (update_op l op p) in
        let p := if FD op =? wop then set_ptrigger 0 p else p in
        match how with
        | EHup => Some (true, appendHup l op p)
        | EDone => Some (true, update_op l (op_done op) p)
        | EExit => Some (false, update_op l (op_done op) p)
        end
      else Some (true, p)
  end.

Fixpoint handler_loop (wop : Z) (events : list event) (p : poll) : option (bool * poll) :=
  match events with
  | [] => Some (true, p)
  | e :: events =>
      '(go, p) ← handle_event wop e p;
      if go : bool then handler_loop wop events p else Some (false, p)
  end.

(** handler: whether the poll is closed, and the callbacks of the operators
    that hung up. *)
Definition handler (wop : Z) (events : list event) (p : poll) : option (bool * list nat * poll) :=
  '(go, p) ← handler_loop wop events p;
  if go : bool then let '(hups, p) := onhups p in Some (false, hups, p) else Some (true, [], p).

(** ** Control, Trigger and Close *)

(** The request to the kernel; [None]: inuse has to wait. *)
Definition Control (op : FDOperator) (event : PollEvent) : option (ctl * Z * Z * FDOperator) :=
  let fd := FD op in
  let rd := Z.lor EPOLLIN (Z.lor EPOLLRDHUP EPOLLERR) in
  let rw := Z.lor EPOLLIN (Z.lor EPOLLOUT (Z.lor EPOLLRDHUP EPOLLERR)) in
  match event with
  | PollReadable => op ← op_inuse op; Some (EPOLL_CTL_ADD, fd, rd, op)
  | PollWritable =>
      op ← op_inuse op;
      Some (EPOLL_CTL_ADD, fd, Z.lor EPOLLET (Z.lor EPOLLOUT (Z.lor EPOLLRDHUP EPOLLERR)), op)
  | PollDetach => Some (EPOLL_CTL_DEL, fd, rw, op)
  | PollR2RW => Some (EPOLL_CTL_MOD, fd, rw, op)
  | PollRW2R => Some (EPOLL_CTL_MOD, fd, rd, op)
  end.

Definition uint32 (z : Z) : Z := z mod 2 ^ 32.

(** Trigger and Close: the bytes that are written to the eventfd. *)
Definition Trigger (p : poll) : option (list Z) * poll :=
  let t := uint32 (pl_trigger p + 1) in
  (if 1 <? t then None else Some [0; 0; 0; 0; 0; 0; 0; 1], set_ptrigger t p).
Definition poll_Close : list Z := [1; 0; 0; 0; 0; 0; 0; 0].

(** ** Wait *)

(** What Wait keeps: the size of the events and the barriers, the timeout of
    the next call and the result of the last one. *)
Record waiting := Waiting { wt_size : Z; wt_msec : Z; wt_n : Z; wt_poll : poll }.

(** [pollArgs.reset] *)
Definition args_reset (size : Z) (w : waiting) : waiting := Waiting size (wt_msec w) (wt_n w) (wt_poll w).

Definition Wait_init (p : poll) : waiting := args_reset 128 (Waiting 0 (-1) 0 p).

Inductive wait_result := WErr (e : Z) | WClosed | WRuns (w : waiting) (hups : list nat).

(** The size for the next call of epoll_wait. *)
Definition Wait_grow (w : waiting) : waiting :=
  if (wt_n w =? wt_size w) && (wt_size w <? 128 * 1024) then args_reset (Z.shiftl (wt_size w) 1) w else w.

(** A round of the loop: epoll_wait returns [n] events or an error. [free]:
    what [opcache.free()] does to the operators. *)
Definition Wait_round (wop : Z) (free : poll → poll) (n : Z) (err : option Z) (events : list event) (w : waiting) :
    option wait_result :=
  let w := Wait_grow w in
  let failed := match err with Some e => negb (e =? EINTR) | None => false end in
  if failed then Some (WErr (default 0 err))
  else if n <=? 0 then Some (WRuns (Waiting (wt_size w) (-1) n (wt_poll w)) [])
  else
    '(closed, hups, p) ← handler wop events (wt_poll w);
    if closed : bool then Some WClosed else Some (WRuns (Waiting (wt_size w) 0 n (free p)) hups).

(** ** The handler keeps the protocol of the operators *)

(** The operators an event may change: only the words [detached]. *)
Definition same_op (op op' : FDOperator) : Prop :=
  op' = set_op_detached (op_detached op') op ∧ (op_state op ≠ 1 → op' = op).

Lemma same_op_refl op : same_op op op.
Proof. split; [by destruct op|done]. Qed.

Lemma same_op_trans op1 op2 op3 : same_op op1 op2 → same_op op2 op3 → same_op op1 op3.
Proof.
  intros [E1 H1] [E2 H2]. split.
  - rewrite E2, E1. by destruct op1.
  - intros Hs. rewrite <- (H1 Hs). apply H2. by rewrite (H1 Hs).
Qed.

Definition same_ops (p p' : poll) : Prop :=
  ∀ l op, pl_ops p !! l = Some op → ∃ op', pl_ops p' !! l = Some op' ∧ same_op op op'.

Lemma handle_event_ops wop e p go p' : handle_event wop e p = Some (go, p') → same_ops p p'.
Proof.
  unfold handle_event. intros He k opk Hk. destruct (ev_op e) as [l|]; [|simplify_eq; eauto using same_op_refl].
  destruct (pl_ops p !! l) as [op|] eqn:Hl; simplify_eq/=.
  unfold op_do in He. destruct (Z.eqb_spec (op_state op) 1) as [Est|Est]; simpl in He; [|simplify_eq; eauto using same_op_refl].
  destruct (handle wop l _ _ _) as [[how calls]|]; simplify_eq/=.
  assert (∀ q d, pl_ops q = <[l := set_op_state 2 op]> (pl_ops p) →
    ∃ op', <[l := op_done (set_op_detached d (set_op_state 2 op))]> (pl_ops q) !! k = Some op' ∧ same_op opk op') as Hput.
  { intros q d Hq. rewrite Hq. destruct (decide (k = l)) as [->|Hne].
    - assert (opk = op) as -> by congruence. rewrite lookup_insert_eq. eexists. split; [done|].
      split; [unfold op_done, set_op_detached, set_op_state; destruct op; simpl in *; by subst|done].
    - rewrite !lookup_insert_ne by done. eauto using same_op_refl. }
  destruct how; simplify_eq/=.
  - eapply (Hput _ (int32 (op_detached op + 1))). by repeat case_match.
  - destruct (Hput (Poll_ (<[l := set_op_state 2 op]> (pl_ops p)) [] 0 []) (op_detached op) eq_refl) as (op'&E&?).
    exists op'. split; [|done]. rewrite <- E. destruct op. by repeat case_match.
  - destruct (Hput (Poll_ (<[l := set_op_state 2 op]> (pl_ops p)) [] 0 []) (op_detached op) eq_refl) as (op'&E&?).
    exists op'. split; [|done]. rewrite <- E. destruct op. by repeat case_match.
Qed.

Lemma handler_loop_ops wop events : ∀ p go p', handler_loop wop events p = Some (go, p') → same_ops p p'.
Proof.
  induction events as [|e events IH]; intros p go p' Hh l op Hl; simplify_eq/=; [eauto using same_op_refl|].
  destruct (handle_event wop e p) as [[go1 p1]|] eqn:He; simplify_eq/=.
  destruct (handle_event_ops _ _ _ _ _ He l op Hl) as (op1&Hl1&H1).
  destruct go1; simplify_eq; [|eauto]. destruct (IH _ _ _ Hh l op1 Hl1) as (op2&?&?).
  eauto using same_op_trans.
Qed.

(** C28: the handler gives back every operator it takes, on every path through
    it: after a batch, each operator is in the state it was in before, with its
    callbacks; those that are not in use, or that someone else holds, are not
    touched at all. *)
Theorem handler_releases wop events p closed hups p' :
  handler wop events p = Some (closed, hups, p') →
  ∀ l op, pl_ops p !! l = Some op →
    ∃ op', pl_ops p' !! l = Some op' ∧ op_state op' = op_state op ∧
      op' = set_op_detached (op_detached op') op ∧ (op_state op ≠ 1 → op' = op).
Proof.
  unfold handler. destruct (handler_loop wop events p) as [[go p1]|] eqn:E; simpl; [|done].
  intros Hh l op Hl. destruct (handler_loop_ops _ _ _ _ _ E l op Hl) as (op'&Hl'&[E1 H1]).
  exists op'. split_and!; [destruct go; by simplify_eq| |done..]. rewrite E1. by destruct op.
Qed.

(** ** The handler acknowledges what it reads and writes *)

(** Every ioread is followed by its InputAck, every iosend by its OutputAck. *)
Fixpoint paired (t : list call) : bool :=
  match t with
  | [] => true
  | KRead l :: KInputAck l' _ :: t => (l =? l')%nat && paired t
  | KSend l :: KOutputAck l' _ :: t => (l =? l')%nat && paired t
  | KRead _ :: _ | KSend _ :: _ | KInputAck _ _ :: _ | KOutputAck _ _ :: _ => false
  | _ :: t => paired t
  end.

Lemma paired_app t1 t2 : paired t1 = true → paired t2 = true → paired (t1 ++ t2) = true.
Proof.
  intros H1 H2. remember (length t1) as n eqn:Hn. assert (length t1 ≤ n)%nat as Hle by lia. clear Hn.
  revert t1 Hle H1. induction n as [|n IH]; intros [|c t1] Hle H1; try done; simpl in Hle; [lia|].
  destruct c; simpl in *; try done; try (apply IH; [lia|done]);
    destruct t1 as [|[] t1]; simpl in *; try done;
    apply andb_true_iff in H1 as [H1 H1']; rewrite H1; simpl; (apply IH; [lia|done]).
Qed.

Lemma readall_paired l rounds : ∀ t r, readall l rounds t = Some r → paired r.2 = true.
Proof.
  induction rounds as [|[[] [n err]] rounds IH]; intros t r Hr; simplify_eq/=; [|done].
  destruct err as [e|]; simplify_eq/=; [by rewrite Nat.eqb_refl|].
  destruct (n =? 0); simplify_eq/=; [by rewrite Nat.eqb_refl|].
  destruct (readall l rounds (t + n)) as [[[t' e] calls]|] eqn:E; simplify_eq/=.
  rewrite Nat.eqb_refl. by apply (IH _ _ E).
Qed.

Lemma handle_paired wop l op evt a how calls : handle wop l op evt a = Some (how, calls) → paired calls = true.
Proof.
  unfold handle. cbv zeta. intros Hh. destruct (FD op =? wop); [destruct (0 <? an_buf a); by simplify_eq|].
  destruct (if negb (Z.land evt EPOLLIN =? 0) then _ else _) as [[tot rerr] rcalls] eqn:Er.
  assert (paired rcalls = true) as Hr.
  { destruct (negb _); [|by simplify_eq]. unfold read_part in Er.
    destruct (OnRead op), (Inputs op), (an_inputs a); simplify_eq/=; rewrite ?Nat.eqb_refl; done. }
  destruct rerr; [by simplify_eq|].
  destruct (if negb (Z.land evt (Z.lor EPOLLHUP EPOLLRDHUP) =? 0) then _ else _) as [[hup hcalls]|] eqn:Eh; [|done].
  assert (paired hcalls = true) as Hp.
  { destruct (negb (Z.land evt (Z.lor _ _) =? 0)); [|by simplify_eq]. unfold hup_part in Eh.
    destruct (negb _ && _); [|by simplify_eq].
    destruct (readall l (an_left a) 0) as [[[t e] c]|] eqn:Ea; simplify_eq/=.
    apply paired_app; [by apply (readall_paired _ _ _ _ Ea)|by repeat case_match]. }
  simpl in Hh. destruct hup; [simplify_eq; by apply paired_app|].
  destruct (negb (Z.land evt EPOLLERR =? 0)); [simplify_eq; apply paired_app, paired_app; done|].
  destruct (if negb (Z.land evt EPOLLOUT =? 0) then _ else _) as [werr wcalls] eqn:Ew. simplify_eq.
  apply paired_app; [done|]. apply paired_app; [done|].
  clear Er Eh. destruct (negb _); [|by simplify_eq]. unfold write_part in Ew.
  destruct (OnWrite op), (Outputs op), (an_outputs a); simplify_eq/=; rewrite ?Nat.eqb_refl; done.
Qed.

Lemma handle_event_trace wop e p go p' :
  handle_event wop e p = Some (go, p') → ∃ t, pl_trace p' = pl_trace p ++ t ∧ paired t = true.
Proof.
  unfold handle_event. destruct (ev_op e) as [l|]; [|intros; simplify_eq; exists []; by rewrite app_nil_r].
  destruct (pl_ops p !! l) as [op|]; [|done]. simpl. destruct (op_do op) as [[] op']; simpl;
    [|intros; simplify_eq; exists []; by rewrite app_nil_r].
  destruct (handle wop l op' _ _) as [[how calls]|] eqn:Eh; [|done]. simpl. intros Hh.
  pose proof (handle_paired _ _ _ _ _ _ _ Eh) as Hp.
  assert (∀ b, pl_trace (if b : bool then set_ptrigger 0 (record calls (update_op l op' p)) else record calls (update_op l op' p))
    = pl_trace p ++ calls) as Ht by (by intros []).
  destruct how; simplify_eq; [|exists calls; split; [apply Ht|done]..].
  unfold appendHup. destruct (op_Control PollDetach op') as [[] op2]; simpl.
  - exists (calls ++ [KCtlDel l]). split; [by rewrite Ht, <- app_assoc|]. by apply paired_app.
  - exists calls. split; [apply Ht|done].
Qed.

(** C29: whatever the operators and the kernel answer, the handler acknowledges
    every read with InputAck and every write with OutputAck, right after it and
    once, also when it failed. *)
Theorem handler_acks wop events p closed hups p' :
  handler wop events p = Some (closed, hups, p') →
  ∃ t, pl_trace p' = pl_trace p ++ t ∧ paired t = true.
Proof.
  unfold handler. destruct (handler_loop wop events p) as [[go p1]|] eqn:E; simpl; [|done].
  intros Hh. assert (pl_trace p' = pl_trace p1) as -> by (destruct go; by simplify_eq). clear Hh.
  revert p E. induction events as [|e events IH]; intros p E; simplify_eq/=; [exists []; by rewrite app_nil_r|].
  destruct (handle_event wop e p) as [[go1 p2]|] eqn:He; simplify_eq/=.
  destruct (handle_event_trace _ _ _ _ _ He) as (t1&E1&H1).
  destruct go1; simplify_eq; [|eauto]. destruct (IH _ E) as (t2&E2&H2).
  exists (t1 ++ t2). rewrite E2, E1, app_assoc. split; [done|]. by apply paired_app.
Qed.

(** ** readall *)

(** The bytes that were acknowledged. *)
Definition reported (t : list call) : Z :=
  foldr (λ c s, match c with KInputAck _ n => n + s | _ => s end) 0 t.

Lemma acked_app t1 t2 : reported (t1 ++ t2) = reported t1 + reported t2.
Proof. induction t1 as [|[] t1 IH]; simpl; rewrite ?IH; lia. Qed.

(** A round after which readall stops. *)
Definition stops (r : bool * ioresult) : bool :=
  negb r.1 || bool_decide (r.2.2 ≠ None) || (r.2.1 =? 0).

Lemma readall_stops l rounds : ∀ t r, readall l rounds t = Some r → existsb stops rounds = true.
Proof.
  induction rounds as [|[[] [n [e|]]] rounds IH]; intros t r Hr; simpl in *; try done.
  unfold stops at 1. simpl. destruct (n =? 0); [done|]. simpl.
  destruct (readall l rounds (t + n)) as [r'|] eqn:E; [by eapply IH|done].
Qed.

Lemma readall_total l rounds :
  existsb stops rounds = true ↔
  ∃ err calls, readall l rounds 0 = Some (reported calls, err, calls).
Proof.
  assert (∀ t, existsb stops rounds = true ↔
    ∃ err calls, readall l rounds t = Some (t + reported calls, err, calls)) as Hgen; [|apply Hgen].
  induction rounds as [|[b [n err]] rounds IH]; intros t; [split; [done|intros (?&?&?); done]|].
  assert (∀ (a : Z) (e : option error) c, a = t + reported c →
    ∃ err calls, Some (a, e, c) = Some (t + reported calls, err, calls)) as Hret by (intros a e c ->; eauto).
  destruct b; unfold stops at 1; simpl; [|split; [intros _; apply Hret; simpl; lia|done]].
  destruct err as [e|]; simpl; [split; [intros _; apply Hret; simpl; lia|done]|].
  destruct (Z.eqb_spec n 0) as [->|Hn]; simpl; [split; [intros _; apply Hret; simpl; lia|done]|].
  rewrite (IH (t + n)). split.
  - intros (e&calls&->). simpl. apply Hret. simpl. lia.
  - intros (e&calls&E). destruct (readall l rounds (t + n)) as [[[t' e'] calls']|] eqn:Er; [|done].
    simpl in E. injection E as E <- <-. exists e', calls'. simpl in E. f_equal. f_equal. f_equal. lia.
Qed.

(** readall ends as soon as the operator has no room, the read fails or
    nothing is read, and not before; what it returns is the sum of what it has
    acknowledged.  So it ends on every descriptor that reports the end of its
    input. *)
Theorem readall_spec l rounds :
  (existsb stops rounds = true ↔ ∃ r, readall l rounds 0 = Some r) ∧
  ∀ total err calls, readall l rounds 0 = Some (total, err, calls) → total = reported calls.
Proof.
  split.
  - rewrite (readall_total l). split; [intros (?&?&?); eauto|].
    intros [r Hr]. apply readall_total. by eapply readall_stops.
  - intros total err calls Hr. pose proof (readall_stops _ _ _ _ Hr) as Hs.
    apply (readall_total l) in Hs as (e&c&E). congruence.
Qed.

(** Data that arrives together with a hang-up is delivered first: for a
    connection or a fifo whose read did not fail, an event without EPOLLERR and
    EPOLLOUT closes it only when not a single byte was read, and then all of
    the input has been asked for. *)
Theorem hup_after_data wop l op evt a how calls :
  handle wop l op evt a = Some (how, calls) →
  FD op ≠ wop → OnRead op = None → Inputs op ≠ None →
  Z.land evt EPOLLERR = 0 → Z.land evt EPOLLOUT = 0 → Z.land evt EPOLLIN ≠ 0 → (an_read a).2 = None →
  how = EHup ↔ Z.land evt (Z.lor EPOLLHUP EPOLLRDHUP) ≠ 0 ∧ reported calls = 0.
Proof.
  intros Hh Hfd Hr Hi He Ho Hin Herr. unfold handle in Hh. cbv zeta in Hh.
  rewrite (proj2 (Z.eqb_neq _ _) Hfd), (proj2 (Z.eqb_neq _ _) Hin), He, Ho in Hh. simpl in Hh.
  destruct (Inputs op) as [i|] eqn:Ei; [|done].
  assert (∃ tot rcalls, read_part l op a = (tot, false, rcalls) ∧ reported rcalls = tot) as (tot&rcalls&Er&Hacked).
  { unfold read_part. rewrite Hr, Ei, Herr. destruct (an_inputs a); eexists _, _; (split; [reflexivity|simpl; lia]). }
  rewrite Er in Hh. destruct (Z.eqb_spec (Z.land evt (Z.lor EPOLLHUP EPOLLRDHUP)) 0) as [E|E]; simpl in Hh;
    [simplify_eq; split; [done|by intros [? _]]|].
  unfold hup_part in Hh. rewrite Ei in Hh. simpl in Hh.
  destruct (existsb stops (an_left a)) eqn:Es.
  2:{ destruct (readall l (an_left a) 0) as [r|] eqn:Era; [|done].
      apply readall_stops in Era. congruence. }
  apply (readall_total l) in Es as (err&lcalls&Ea). rewrite Ea in Hh. simpl in Hh.
  assert (reported (match err with Some e => if errors_Is e (Errno ErrEOF) then [] else [KLog] | None => [] end) = 0)
    as Hlog by (by repeat case_match).
  destruct (Z.eqb_spec (tot + reported lcalls) 0) as [Ez|Ez]; simplify_eq; rewrite ?app_nil_r, !acked_app, Hlog; split; try done; try lia.
Qed.

(** ** The batches of Wait *)

(** The sizes Wait uses. *)
Definition size_ok (size : Z) : Prop := ∃ k, 0 <= k <= 10 ∧ size = 128 * 2 ^ k.

Lemma Wait_grow_ok w : size_ok (wt_size w) → size_ok (wt_size (Wait_grow w)).
Proof.
  intros (k&Hk&E). unfold Wait_grow. destruct (_ && _) eqn:Hg; [|by exists k].
  apply andb_true_iff in Hg as [_ Hlt%Z.ltb_lt]. simpl. exists (k + 1). rewrite E in Hlt.
  assert (k < 10).
  { destruct (decide (k = 10)) as [->|]; [|lia]. vm_compute in Hlt. done. }
  split; [lia|]. rewrite E, Z.shiftl_mul_pow2 by lia. rewrite Z.pow_add_r by lia. lia.
Qed.

(** The buffers of Wait: their size is a power of two between 128 and
    131072, it is doubled exactly when epoll_wait has filled them, and the
    events of a batch, of which the kernel returns at most that many, all have a
    barrier. *)
Theorem Wait_sizes wop free n err events w w' hups :
  size_ok (wt_size w) → n <= wt_size (Wait_grow w) → zlen events = Z.max 0 n →
  Wait_round wop free n err events w = Some (WRuns w' hups) →
  size_ok (wt_size w') ∧ zlen events <= wt_size w' ∧ wt_n w' <= wt_size w' ∧
  wt_size w' = (if (wt_n w =? wt_size w) && (wt_size w <? 131072) then 2 * wt_size w else wt_size w).
Proof.
  intros Hs Hn He Hw. pose proof (Wait_grow_ok w Hs) as Hg.
  assert (wt_size w' = wt_size (Wait_grow w) ∧ wt_n w' = n) as [-> ->].
  { unfold Wait_round in Hw. destruct (match err with Some _ => _ | None => _ end); [done|].
    destruct (n <=? 0); [by simplify_eq|].
    destruct (handler wop events _) as [[[[] hs] p]|]; simplify_eq/=; done. }
  split_and!; try done.
  - destruct Hg as (k&?&E). pose proof (Z.pow_pos_nonneg 2 k). lia.
  - unfold Wait_grow. change (128 * 1024) with 131072. destruct (_ && _); [|done]. simpl. rewrite Z.shiftl_mul_pow2; lia.
Qed.

(** ** A batch of two events *)

Definition demo_conn (fd : Z) : FDOperator :=
  Operator fd None None (Some 1%nat) (Some 2%nat) (Some 3%nat) (Some 4%nat) (Some 5%nat) (Some 0%nat) 0 None 1 0.
Definition demo_poll : poll := Poll_ {[1%nat := demo_conn 7; 2%nat := demo_conn 8]} [] 0 [].

(** The first connection reads 5 bytes and is closed by the peer; the second
    one fails to read. *)
Definition demo_answers : answers :=
  Answers true (5, None) [(true, (3, None)); (true, read_again)] 0 false (0, None) 0.
Definition demo_failing : answers :=
  Answers true (-1, Some (Errno 104)) [] 0 false (0, None) 0.
Definition demo_events : list event :=
  [Event (Some 1%nat) (Z.lor EPOLLIN EPOLLRDHUP) demo_answers; Event (Some 2%nat) EPOLLIN demo_failing].

Definition demo_after : poll := default demo_poll (snd <$> handler 4 demo_events demo_poll).

Lemma demo_handler : handler 4 demo_events demo_poll = Some (false, [1%nat], demo_after).
Proof. vm_compute. reflexivity. Qed.

Lemma handler_releases_witness :
  ∃ op', pl_ops demo_after !! 2%nat = Some op' ∧ op_state op' = op_state (demo_conn 8) ∧
    op' = set_op_detached (op_detached op') (demo_conn 8) ∧ (op_state (demo_conn 8) ≠ 1 → op' = demo_conn 8).
Proof. apply (handler_releases _ _ _ _ _ _ demo_handler). vm_compute. reflexivity. Defined.

Lemma handler_acks_witness : ∃ t, pl_trace demo_after = pl_trace demo_poll ++ t ∧ paired t = true.
Proof. apply (handler_acks _ _ _ _ _ _ demo_handler). Defined.

Definition demo_calls : list call :=
  [KInputs 1; KRead 1; KInputAck 1 5; KInputs 1; KRead 1; KInputAck 1 3; KInputs 1; KRead 1; KInputAck 1 0].

Lemma hup_after_data_witness :
  EDone = EHup ↔ Z.land (Z.lor EPOLLIN EPOLLRDHUP) (Z.lor EPOLLHUP EPOLLRDHUP) ≠ 0 ∧ reported demo_calls = 0.
Proof. apply (hup_after_data 4 1 (demo_conn 7) _ demo_answers); done. Defined.

Lemma Wait_sizes_witness :
  let w := Waiting 128 (-1) 128 demo_poll in
  ∃ w' hups, Wait_round 4 id 2 None demo_events w = Some (WRuns w' hups) ∧ wt_size w' = 256.
Proof.
  eexists _, _. split; [vm_compute; reflexivity|].
  refine (let H := Wait_sizes 4 id 2 None demo_events (Waiting 128 (-1) 128 demo_poll) _ _ _ _ _ _ in
    proj2 (proj2 (proj2 H))); [exists 0; done|vm_compute; done|reflexivity|vm_compute; reflexivity].
Defined.
