(* ===== verification/PollBatch.v ===== *)
(** * Operators and batches of events

    The poll, the connections that allocate, register and free operators, and
    the cache they come from (src/fd_operator_cache.go, src/poll_default.go and
    the loop of src/poll_default_linux.go), as a system of steps.  epoll_wait
    returns pointers to operators; by the time the handler reaches an event the
    operator may have been freed by another goroutine.  [gen] counts how often
    an operator was handed out, and tells its uses apart. *)

From S2P Require Import Prelude GoMem LinkNode FDOperator.

Open Scope Z_scope.

(** [b_held]: the operators that were allocated and not freed; [b_reg]: the
    registrations with epoll, each an operator with the use it was made for;
    [b_batch]: the events that are left, with the registration they were
    reported for; [b_log]: the events that were handled, with the use of the
    operator they were handled for; [b_leaked]: a history of the uses that were
    freed while a registration of theirs was still there. *)
Record bstate := BState {
  b_cache : ostate;
  b_gen : gmap nat nat;
  b_held : list nat;
  b_reg : list (nat * nat);
  b_batch : list (nat * nat);
  b_log : list (nat * nat * nat);
  b_leaked : list (nat * nat);
}.

Definition use_of (g : gmap nat nat) (l : nat) : nat := default 0%nat (g !! l).

Definition put_op (l : nat) (op : FDOperator) (c : ostate) : ostate :=
  OState (oc c) (<[l := op]> (ops c)) (ops_fresh c).

Definition leak (x : nat * nat) (reg leaked : list (nat * nat)) : list (nat * nat) :=
  if decide (x ∈ reg) then x :: leaked else leaked.

Inductive bstep : bstate → bstate → Prop :=
(* poll.Alloc *)
| b_alloc c g held reg batch log lk l c' :
    alloc c = Ret (l, c') →
    bstep (BState c g held reg batch log lk)
          (BState c' (<[l := S (use_of g l)]> g) (l :: held) reg batch log lk)
(* poll.Control with PollReadable or PollWritable, by the holder *)
| b_register c g held reg batch log lk l op op' :
    l ∈ held → ops c !! l = Some op → op_inuse op = Some op' →
    bstep (BState c g held reg batch log lk)
          (BState (put_op l op' c) g held ((l, use_of g l) :: reg) batch log lk)
(* poll.Control with PollDetach, or the descriptor is closed *)
| b_detach c g held reg batch log lk x :
    bstep (BState c g held reg batch log lk)
          (BState c g held (filter (λ y, y ≠ x) reg) batch log lk)
(* poll.Free, whether or not the operator was detached *)
| b_free c g held held' reg batch log lk l c' :
    held ≡ₚ l :: held' → freeable l c = Some c' →
    bstep (BState c g held reg batch log lk)
          (BState c' g held' reg batch log (leak (l, use_of g l) reg lk))
(* epoll_wait *)
| b_wait c g held reg log lk es :
    (∀ x, x ∈ es → x ∈ reg) →
    bstep (BState c g held reg [] log lk) (BState c g held reg es log lk)
(* a round of the handler *)
| b_handle c g held reg l u batch log lk op op' :
    ops c !! l = Some op → op_do op = (true, op') →
    bstep (BState c g held reg ((l, u) :: batch) log lk)
          (BState (put_op l (op_done op') c) g held reg batch (log ++ [(l, u, use_of g l)]) lk)
| b_skip c g held reg l u batch log lk op op' :
    ops c !! l = Some op → op_do op = (false, op') →
    bstep (BState c g held reg ((l, u) :: batch) log lk) (BState c g held reg batch log lk)
(* opcache.free(), when the handler has finished *)
| b_cache_free c g held reg log lk u c' :
    cache_free c = Ret (u, c') →
    bstep (BState c g held reg [] log lk) (BState c' g held reg [] log lk).

Definition b_init : bstate := BState (OState newOperatorCache ∅ 0) ∅ [] [] [] [] [].

(** ** The invariant *)

(** Use [u] of operator [l] is the present one. *)
Definition present (s : bstate) (l u : nat) : Prop := l ∈ b_held s ∧ use_of (b_gen s) l = u.

Record batch_ok (s : bstate) (avail pend : list nat) : Prop := BatchOk {
  bk_cache : cache_ok (b_cache s) avail pend (b_held s);
  bk_reg : ∀ l u, (l, u) ∈ b_reg s → present s l u ∨ (l, u) ∈ b_leaked s;
  bk_pend : ∀ l, l ∈ pend → ∃ op, ops (b_cache s) !! l = Some op ∧ op_state op = 0;
  bk_batch : ∀ l u, (l, u) ∈ b_batch s → present s l u ∨ (l, u) ∈ b_leaked s ∨ l ∈ pend;
  bk_log : ∀ l u v, (l, u, v) ∈ b_log s → u = v ∨ (l, u) ∈ b_leaked s;
}.

(** The cache does not depend on the states of the operators. *)
Lemma cache_ok_put c avail pend live l op op' :
  cache_ok c avail pend live → ops c !! l = Some op → op_next op' = op_next op → op_index op' = op_index op →
  cache_ok (put_op l op' c) avail pend live.
Proof.
  intros [Hch Hix Hnd Hp Hpd Hf] Hl Hn Hi. constructor; simpl; try done.
  - clear -Hch Hl Hn. revert Hch. generalize (oc_first (oc c)). induction avail as [|x avail IH]; intros p; [done|].
    intros (->&opx&Hx&Hc). split; [done|]. destruct (decide (x = l)) as [->|Hne].
    + simplify_eq. exists op'. rewrite lookup_insert_eq. split; [done|]. rewrite Hn. auto.
    + exists opx. rewrite lookup_insert_ne by done. auto.
  - intros i x Hx. destruct (Hix i x Hx) as (opx&Hox&E). destruct (decide (x = l)) as [->|Hne].
    + simplify_eq. exists op'. rewrite lookup_insert_eq. split; [done|congruence].
    + exists opx. by rewrite lookup_insert_ne.
  - intros x Hx. rewrite lookup_insert_ne; [by apply Hf|]. intros <-. rewrite Hf in Hl by done. done.
Qed.

Lemma put_pend c (pend : list nat) l op' :
  (∀ x, x ∈ pend → ∃ op, ops c !! x = Some op ∧ op_state op = 0) → l ∉ pend →
  ∀ x, x ∈ pend → ∃ op, ops (put_op l op' c) !! x = Some op ∧ op_state op = 0.
Proof. intros Hp Hl x Hx. simpl. rewrite lookup_insert_ne by (intros ->; done). auto. Qed.

Lemma cache_ok_disjoint c (avail pend live : list nat) l : cache_ok c avail pend live → l ∈ live → (l ∉ pend) ∧ (l ∉ avail).
Proof.
  intros Hc Hl. pose proof (cache_ok_nodup _ _ _ _ Hc) as Hn.
  apply NoDup_app in Hn as (_&H1&Hn). apply NoDup_app in Hn as (_&H2&_). set_solver.
Qed.

Lemma batch_ok_init : batch_ok b_init [] [].
Proof. constructor; simpl; try set_solver. apply cache_ok_new. Qed.

Lemma op_do_true op op' : op_do op = (true, op') → op_state op = 1 ∧ op_done op' = op.
Proof.
  unfold op_do, op_done. destruct (Z.eqb_spec (op_state op) 1) as [E|]; [|done]. intros [= <-].
  split; [done|]. destruct op; simpl in *. by subst.
Qed.

(** The index of an operator is an int32: the cache has fewer than 2^31. *)
Definition small (s : bstate) : Prop := zlen (oc_cache (oc (b_cache s))) + block4k / opSize < 2 ^ 31.

Lemma leak_in x y reg lk : x ∈ lk → x ∈ leak y reg lk.
Proof. unfold leak. case_decide; [by right|done]. Qed.

Lemma leak_reg x reg lk : x ∈ reg → x ∈ leak x reg lk.
Proof. unfold leak. intros ?. case_decide; [by left|done]. Qed.

Lemma alloc_ok c g held reg batch log lk avail pend l c' :
  batch_ok (BState c g held reg batch log lk) avail pend → small (BState c g held reg batch log lk) →
  alloc c = Ret (l, c') →
  ∃ avail', batch_ok (BState c' (<[l := S (use_of g l)]> g) (l :: held) reg batch log lk) avail' pend.
Proof.
  intros [Hc Hreg Hpend Hbatch Hlog] Hlen Ha. pose proof (wp_alloc c avail pend held Hc Hlen) as Hw.
  unfold wp in Hw. rewrite Ha in Hw. destruct Hw as (Hl1&Hl2&avail'&Hc'&Hsub&_). exists avail'.
  assert (∀ x u, present (BState c g held reg batch log lk) x u →
    present (BState c' (<[l := S (use_of g l)]> g) (l :: held) reg batch log lk) x u) as Hkeep.
  { intros x u [Hh Hu]. split; [by right|]. unfold use_of in *. simpl in *. rewrite lookup_insert_ne; [done|].
    by intros ->. }
  constructor; simpl in *; try done; [naive_solver| |naive_solver].
  intros x Hx. destruct (Hpend x Hx) as (op&Ho&?). exists op. split; [|done]. by eapply lookup_weaken.
Qed.

Lemma free_ok c g held held' reg batch log lk avail pend l c' :
  batch_ok (BState c g held reg batch log lk) avail pend → held ≡ₚ l :: held' → freeable l c = Some c' →
  batch_ok (BState c' g held' reg batch log (leak (l, use_of g l) reg lk)) avail (pend ++ [l]).
Proof.
  intros [Hc Hreg Hpend Hbatch Hlog] Hh Hfr. simpl in *.
  assert (cache_ok c avail pend (l :: held')) as Hc'.
  { destruct Hc as [? ? ? Hp ? ?]. constructor; try done. rewrite <- Hp. by rewrite Hh. }
  destruct (ops c !! l) as [op|] eqn:Hl; [|unfold freeable in *; by rewrite Hl in *].
  pose proof (freeable_ok c avail pend held' l op Hc' Hl) as Hf. rewrite Hfr in Hf. destruct Hf as (_&Hok&Hnew).
  assert (∀ x u, present (BState c g held reg batch log lk) x u → x ∈ held' ∨ x = l ∧ u = use_of g l) as Hkeep.
  { intros x u [Hx Hu]. simpl in *. rewrite Hh in Hx. set_solver. }
  unfold present in *. simpl in *. constructor; simpl; try done.
  - intros x u Hx. destruct (Hreg x u Hx) as [Hp|?]; [|right; by apply leak_in].
    destruct (Hkeep x u Hp) as [?|[-> ->]]; [left; split; [done|apply Hp]|right; by apply leak_reg].
  - intros x [Hx| ->%list_elem_of_singleton]%elem_of_app; [|by eexists].
    destruct (Hpend x Hx) as (opx&?&?). exists opx. split; [|done].
    destruct (cache_ok_disjoint _ _ _ _ l Hc' ltac:(by left)) as [Hlp _].
    unfold freeable in Hfr. rewrite Hl in Hfr. simpl in Hfr. destruct (op_unused op); simplify_eq/=.
    rewrite lookup_insert_ne by (intros ->; done). done.
  - intros x u Hx. destruct (Hbatch x u Hx) as [Hp|[?|?]]; [|right; left; by apply leak_in|set_solver].
    destruct (Hkeep x u Hp) as [?|[-> _]]; [left; split; [done|apply Hp]|set_solver].
  - intros x u v Hx. destruct (Hlog x u v Hx); [by left|right; by apply leak_in].
Qed.

Lemma batch_ok_step s s' avail pend :
  batch_ok s avail pend → small s → bstep s s' →
  ∃ avail' pend', batch_ok s' avail' pend'.
Proof.
  intros Hk Hlen Hs. destruct Hs as [c g held reg batch log lk l c' Ha|? ? ? ? ? ? ? l op op' Hl Hop Hin| | | |
    c g held reg l u batch log lk op op' Hop Hdo| |].
  - destruct (alloc_ok _ _ _ _ _ _ _ _ _ _ _ Hk Hlen Ha) as [avail' ?]. by exists avail', pend.
  - destruct Hk as [Hc Hreg Hpend Hbatch Hlog]. exists avail, pend. simpl in *.
    destruct (cache_ok_disjoint _ _ _ _ _ Hc Hl) as [Hlp _].
    assert (op_next op' = op_next op ∧ op_index op' = op_index op) as [? ?].
    { unfold op_inuse in *. repeat case_match; by simplify_eq. }
    constructor; simpl; try done; [by eapply cache_ok_put| |by apply put_pend].
    intros x u [[= -> ->]|Hx]%elem_of_cons; [left; by split|by apply Hreg].
  - destruct Hk as [Hc Hreg Hpend Hbatch Hlog]. exists avail, pend. constructor; simpl; try done.
    intros y u [_ Hx]%list_elem_of_filter. by apply Hreg.
  - eexists _, _. by eapply free_ok.
  - destruct Hk as [Hc Hreg Hpend Hbatch Hlog]. exists avail, pend. constructor; simpl in *; try done.
    intros x u Hx. destruct (Hreg x u); [by auto|by left|right; by left].
  - destruct Hk as [Hc Hreg Hpend Hbatch Hlog]. simpl in *. destruct (op_do_true _ _ Hdo) as [Hst Hd]. rewrite Hd.
    assert (put_op l op c = c) as -> by (unfold put_op; rewrite insert_id by done; by destruct c).
    exists avail, pend. constructor; simpl; try done; [intros; apply Hbatch; by right|].
    intros x v w [Hx|Hx%list_elem_of_singleton]%elem_of_app; [by eapply Hlog|]. injection Hx as -> -> ->.
    destruct (Hbatch l u ltac:(by left)) as [[_ Hu]|[?|Hp]]; [by left|by right|].
    destruct (Hpend l Hp) as (op2&?&?). by simplify_eq.
  - destruct Hk as [Hc Hreg Hpend Hbatch Hlog]. exists avail, pend. constructor; simpl in *; try done.
    intros; apply Hbatch. by right.
  - destruct Hk as [Hc Hreg Hpend Hbatch Hlog]. simpl in *. pose proof (wp_cache_free _ avail pend held Hc) as Hw.
    unfold wp in Hw. rewrite H in Hw. exists (rev pend ++ avail), []. constructor; simpl; try done; set_solver.
Qed.

Definition b_reach (s : bstate) : Prop := rtc (λ s s', small s ∧ bstep s s') b_init s.

Lemma batch_ok_reach s : b_reach s → ∃ avail pend, batch_ok s avail pend.
Proof.
  revert s. apply (rtc_ind_r (λ s, ∃ avail pend, batch_ok s avail pend)).
  - exists [], []. apply batch_ok_init.
  - intros s s' _ [Hs Hst] (avail&pend&Hok). by eapply batch_ok_step.
Qed.

(** C27: an event is handled for the use of its operator that it was reported
    for, unless that use freed the operator while it was registered: an operator
    that is freed while a batch is being handled is not handed out again before
    the batch has ended, and the handler skips it until then.  So the event of a
    connection that was detached before it freed its operator never reaches the
    connection that uses the operator next. *)
Theorem events_not_stale s l u v : b_reach s → (l, u, v) ∈ b_log s → u = v ∨ (l, u) ∈ b_leaked s.
Proof. intros Hr Hin. destruct (batch_ok_reach s Hr) as (avail&pend&Hok). by eapply bk_log. Qed.

(** ** Runs *)

Definition demo_cache : ostate :=
  match alloc (OState newOperatorCache ∅ 0) with Ret (_, c) => c | _ => OState newOperatorCache ∅ 0 end.

Lemma demo_alloc : alloc (OState newOperatorCache ∅ 0) = Ret (38%nat, demo_cache).
Proof. vm_compute. reflexivity. Qed.

Definition demo_op : FDOperator := Operator 0 None None None None None None None None 0 (Some 37%nat) 0 38.

(** An operator is allocated and registered. *)
Definition demo_registered : bstate :=
  BState (put_op 38 (set_op_state 1 demo_op) demo_cache)
    (<[38%nat := 1%nat]> ∅) [38%nat] [(38%nat, 1%nat)] [] [] [].

Ltac b_step := eapply rtc_l; [split; [vm_compute; reflexivity|]|].

Lemma demo_registered_reach : b_reach demo_registered.
Proof.
  unfold b_reach, b_init. b_step; [apply b_alloc, demo_alloc|].
  b_step; [|apply rtc_refl].
  change (S (use_of ∅ 38)) with 1%nat. unfold demo_registered.
  change (38%nat, 1%nat) with (38%nat, use_of (<[38%nat := 1%nat]> ∅) 38).
  apply (b_register demo_cache (<[38%nat := 1%nat]> ∅) [38%nat] [] [] [] [] 38%nat
    demo_op (set_op_state 1 demo_op)); [left|vm_compute; reflexivity..].
Qed.

(** Its event is handled. *)
Lemma demo_handled : ∃ s, b_reach s ∧ b_log s = [(38%nat, 1%nat, 1%nat)] ∧ b_leaked s = [].
Proof.
  eexists. split_and!; [unfold b_reach; etrans; [exact demo_registered_reach|]|..].
  - b_step; [apply (b_wait _ _ _ _ _ _ [(38%nat, 1%nat)]); set_solver|].
    b_step; [eapply b_handle; vm_compute; reflexivity|]. apply rtc_refl.
  - reflexivity.
  - reflexivity.
Qed.

(** When the operator is freed while it is registered, and the next connection
    gets it, an event of the former descriptor is handled for that
    connection. *)
Lemma leaked_event_stale : ∃ s, b_reach s ∧ b_log s = [(38%nat, 1%nat, 2%nat)] ∧ b_leaked s = [(38%nat, 1%nat)].
Proof.
  eexists. split_and!; [unfold b_reach; etrans; [exact demo_registered_reach|]|..].
  - b_step; [eapply (b_free _ _ _ []); [reflexivity|vm_compute; reflexivity]|].
    b_step; [eapply b_cache_free; vm_compute; reflexivity|].
    b_step; [eapply b_alloc; vm_compute; reflexivity|].
    b_step; [eapply (b_register _ _ _ _ _ _ _ 38%nat); [left|vm_compute; reflexivity..]|].
    b_step; [apply (b_wait _ _ _ _ _ _ [(38%nat, 1%nat)]); set_solver|].
    b_step; [eapply b_handle; vm_compute; reflexivity|]. apply rtc_refl.
  - vm_compute. reflexivity.
  - vm_compute. reflexivity.
Qed.

Lemma events_not_stale_witness :
  ∃ s, b_reach s ∧ (38%nat, 1%nat, 1%nat) ∈ b_log s ∧ (1%nat = 1%nat ∨ (38%nat, 1%nat) ∈ b_leaked s).
Proof.
  destruct demo_handled as (s&Hr&Hlog&_). exists s.
  assert ((38%nat, 1%nat, 1%nat) ∈ b_log s) as Hin by (rewrite Hlog; left).
  split_and!; [done|done|]. exact (events_not_stale s 38 1 1 Hr Hin).
Defined.
