(* ===== verification/PollBsd.v ===== *)
(** * The poll on kqueue

    Models src/poll_default_bsd.go, the counterpart of
    src/poll_default_linux.go: the loop of Wait over a batch of events,
    Control, Trigger and openDefaultPoll.  Its handling of an event is written
    a second time in the source; that it does what the one for epoll does
    carries over what is proved in Poll.v.  Also here, for both systems: how a
    poll is opened, and how the operator of an event is found, with and without
    the race detector (src/poll_default_{linux,bsd}_{race,norace}.go).
    Calling a function that is nil panics. *)

From stdpp Require Import strings.
From S2P Require Import Prelude GoMem Errors SysExec FDOperator Poll.

Open Scope Z_scope.

Definition EVFILT_READ : Z := -1.
Definition EVFILT_WRITE : Z := -2.
Definition EV_ADD : Z := 0x1.
Definition EV_DELETE : Z := 0x2.
Definition EV_ENABLE : Z := 0x4.
Definition EV_EOF : Z := 0x8000.

(** [syscall.Kevent_t], with the operator that Udata refers to, and the answers
    to the calls for the event as in Poll.v. *)
Record kevent := Kevent {
  kv_ident : Z;
  kv_filter : Z;
  kv_flags : Z;
  kv_op : option nat;
  kv_answers : answers;
}.

Definition has_flag (e : kevent) (f : Z) : bool := negb (Z.land (kv_flags e) f =? 0).
Definition k_triggerRead (e : kevent) : bool := (kv_filter e =? EVFILT_READ) && has_flag e EV_ENABLE.
Definition k_triggerWrite (e : kevent) : bool := (kv_filter e =? EVFILT_WRITE) && has_flag e EV_ENABLE.
Definition k_triggerHup (e : kevent) : bool := has_flag e EV_EOF.

(** The branch [if triggerRead] *)
Definition k_read (l : nat) (op : FDOperator) (a : answers) : outcome (Z * bool * list call) :=
  match OnRead op, Inputs op with
  | Some _, _ => Ret (0, false, [KOnRead l])
  | None, Some _ =>
      if an_inputs a then
        Ret ((an_read a).1, bool_decide ((an_read a).2 ≠ None), [KInputs l; KRead l; KInputAck l (an_read a).1])
      else Ret (0, false, [KInputs l])
  | None, None => Panic
  end.

(** The branch [if triggerHup] *)
Definition k_hup (l : nat) (op : FDOperator) (a : answers) (triggerRead : bool) (totalRead : Z) : outcome (bool * list call) :=
  if triggerRead && bool_decide (Inputs op ≠ None) then
    match readall l (an_left a) 0 with
    | None => OutOfFuel
    | Some (leftRead, err, calls) =>
        let log := match err with Some e => if errors_Is e (Errno ErrEOF) then [] else [KLog] | None => [] end in
        Ret (totalRead + leftRead =? 0, calls ++ log)
    end
  else Ret (totalRead =? 0, []).

(** The branch [if triggerWrite] *)
Definition k_write (l : nat) (op : FDOperator) (a : answers) : outcome (bool * list call) :=
  match OnWrite op, Outputs op with
  | Some _, _ => Ret (false, [KOnWrite l])
  | None, Some _ =>
      if an_outputs a then
        Ret (bool_decide ((an_send a).2 ≠ None), [KOutputs l; KSend l; KOutputAck l (an_send a).1])
      else Ret (false, [KOutputs l])
  | None, None => Panic
  end.

Definition obind {A B} (m : outcome A) (k : A → outcome B) : outcome B :=
  match m with Ret a => k a | Panic => Panic | OutOfFuel => OutOfFuel end.

(** The calls for an event of the operator [op] at [l], and how it ends. *)
Definition k_handle (l : nat) (op : FDOperator) (e : kevent) : outcome (ending * list call) :=
  let a := kv_answers e in
  obind (if k_triggerRead e then k_read l op a else Ret (0, false, [])) (λ '(totalRead, rerr, rcalls),
    if rerr : bool then Ret (EHup, rcalls)
    else obind (if k_triggerHup e then k_hup l op a (k_triggerRead e) totalRead else Ret (false, [])) (λ '(hup, hcalls),
      if hup : bool then Ret (EHup, rcalls ++ hcalls)
      else obind (if k_triggerWrite e then k_write l op a else Ret (false, [])) (λ '(werr, wcalls),
        Ret (if werr : bool then EHup else EDone, rcalls ++ hcalls ++ wcalls)))).

(** One round of the loop over the events; the identifier 0 is the trigger. *)
Definition k_event (e : kevent) (p : poll) : outcome poll :=
  if kv_ident e =? 0 then Ret (set_ptrigger 0 p)
  else
    match kv_op e with
    | None => Ret p
    | Some l =>
        match pl_ops p !! l with
        | None => Panic
        | Some op =>
            let r := op_do op in
            if r.1 then
              obind (k_handle l r.2 e) (λ '(how, calls),
                let p := record calls (update_op l r.2 p) in
                match how with
                | EHup => Ret (appendHup l r.2 p)
                | _ => Ret (update_op l (op_done r.2) p)
                end)
            else Ret p
        end
    end.

Fixpoint k_events (events : list kevent) (p : poll) : outcome poll :=
  match events with
  | [] => Ret p
  | e :: events => obind (k_event e p) (k_events events)
  end.

Inductive k_result := KErr (e : Z) | KClosed | KRuns (hups : list nat) (p : poll).

Definition EBADF : Z := 9.

(** A round of Wait: Kevent returns events or an error; [free]: what
    [opcache.free()] does to the operators. *)
Definition k_Wait_round (free : poll → poll) (err : option Z) (events : list kevent) (p : poll) : outcome k_result :=
  match err with
  | Some e =>
      if negb (e =? EINTR) then Ret (if e =? EBADF then KClosed else KErr e)
      else let '(hups, p) := onhups p in Ret (KRuns hups (free p))
  | None => obind (k_events events p) (λ p, let '(hups, p) := onhups p in Ret (KRuns hups (free p)))
  end.

(** The change that Control asks the kernel for: the filter, and whether it is
    added; [None]: inuse has to wait. *)
Definition k_Control (op : FDOperator) (event : PollEvent) : option (Z * Z * FDOperator) :=
  match event with
  | PollReadable => op ← op_inuse op; Some (EVFILT_READ, Z.lor EV_ADD EV_ENABLE, op)
  | PollWritable => op ← op_inuse op; Some (EVFILT_WRITE, Z.lor EV_ADD EV_ENABLE, op)
  | PollDetach => Some (match OnWrite op with Some _ => EVFILT_WRITE | None => EVFILT_READ end, EV_DELETE, op)
  | PollR2RW => Some (EVFILT_WRITE, Z.lor EV_ADD EV_ENABLE, op)
  | PollRW2R => Some (EVFILT_WRITE, EV_DELETE, op)
  end.

(** kevent(2), for the filters of a descriptor: EV_DELETE of a filter that is
    not there fails. *)
Definition k_change (filter flags : Z) (X : gset Z) : option Z * gset Z :=
  if negb (Z.land flags EV_ADD =? 0) then (None, {[filter]} ∪ X)
  else if decide (filter ∈ X) then (None, X ∖ {[filter]}) else (Some ENOENT, X).

(** [p.Trigger()]: whether NOTE_TRIGGER is sent. *)
Definition k_Trigger (p : poll) : bool * poll :=
  let t := uint32 (pl_trigger p + 1) in (negb (1 <? t), set_ptrigger t p).

(** ** It does what the poll on epoll does *)

(** The event of epoll that says the same. *)
Definition to_epoll (e : kevent) : event :=
  Event (kv_op e)
    (Z.lor (if k_triggerRead e then EPOLLIN else 0) (Z.lor (if k_triggerWrite e then EPOLLOUT else 0) (if k_triggerHup e then EPOLLRDHUP else 0)))
    (kv_answers e).

(** The operator has a function for the event: what it reads with, when bytes
    can be read, and what it writes with, when they can be written. *)
Definition able (op : FDOperator) (e : kevent) : Prop :=
  (k_triggerRead e = true → OnRead op ≠ None ∨ Inputs op ≠ None) ∧
  (k_triggerWrite e = true → OnWrite op ≠ None ∨ Outputs op ≠ None).

Definition lift {A} (r : option A) : outcome A := match r with Some a => Ret a | None => OutOfFuel end.

Lemma to_epoll_bits e :
  negb (Z.land (ev_events (to_epoll e)) EPOLLIN =? 0) = k_triggerRead e ∧
  negb (Z.land (ev_events (to_epoll e)) EPOLLOUT =? 0) = k_triggerWrite e ∧
  negb (Z.land (ev_events (to_epoll e)) (Z.lor EPOLLHUP EPOLLRDHUP) =? 0) = k_triggerHup e ∧
  negb (Z.land (ev_events (to_epoll e)) EPOLLERR =? 0) = false.
Proof. unfold to_epoll. simpl. by destruct (k_triggerRead e), (k_triggerWrite e), (k_triggerHup e). Qed.

Lemma k_handle_epoll wop l op e : able op e → FD op ≠ wop →
  k_handle l op e = lift (handle wop l op (ev_events (to_epoll e)) (kv_answers e)).
Proof.
  intros [Hr Hw] Hf. destruct (to_epoll_bits e) as (E1&E2&E3&E4). unfold k_handle, handle.
  rewrite E1, E2, E3, E4, (proj2 (Z.eqb_neq _ _) Hf). cbv zeta.
  assert ((if k_triggerRead e then k_read l op (kv_answers e) else Ret (0, false, [])) =
    Ret (if k_triggerRead e then read_part l op (kv_answers e) else (0, false, []))) as ->.
  { destruct (k_triggerRead e); [|done]. unfold k_read, read_part.
    destruct (OnRead op), (Inputs op); try done; [by destruct (an_inputs _)|by destruct (Hr eq_refl)]. }
  cbn [obind]. destruct (if k_triggerRead e then read_part _ _ _ else _) as [[tot rerr] rcalls]. destruct rerr; [done|].
  assert ((if k_triggerHup e then k_hup l op (kv_answers e) (k_triggerRead e) tot else Ret (false, [])) =
    lift (if k_triggerHup e then hup_part l op (kv_answers e) (k_triggerRead e) tot else Some (false, []))) as ->.
  { destruct (k_triggerHup e); [|done]. unfold k_hup, hup_part. destruct (_ && _); [|done].
    by destruct (readall l _ 0) as [[[??]?]|]. }
  destruct (if k_triggerHup e then hup_part _ _ _ _ _ else _) as [[hup hcalls]|]; [|done]. cbn [obind lift mbind option_bind].
  destruct hup; [done|].
  assert ((if k_triggerWrite e then k_write l op (kv_answers e) else Ret (false, [])) =
    Ret (if k_triggerWrite e then write_part l op (kv_answers e) else (false, []))) as ->.
  { destruct (k_triggerWrite e); [|done]. unfold k_write, write_part.
    destruct (OnWrite op), (Outputs op); try done; [by destruct (an_outputs _)|by destruct (Hw eq_refl)]. }
  cbn [obind]. by destruct (if k_triggerWrite e then write_part _ _ _ else _) as [[] wcalls].
Qed.

Lemma able_same op op' e : same_op op op' → able op e → able op' e.
Proof. intros [-> _]. by destruct op. Qed.

(** No operator is that of the eventfd, which kqueue does not have, *)
Definition no_eventfd (wop : Z) (p : poll) : Prop := ∀ l op, pl_ops p !! l = Some op → FD op ≠ wop.
(** and the operators of the events have a function for them. *)
Definition all_able (events : list kevent) (p : poll) : Prop :=
  ∀ e l, e ∈ events → kv_op e = Some l → ∃ op, pl_ops p !! l = Some op ∧ able op e.

Lemma handle_no_exit wop l op evt a r : FD op ≠ wop → handle wop l op evt a = Some r → r.1 ≠ EExit.
Proof.
  intros Hf. unfold handle. cbv zeta. rewrite (proj2 (Z.eqb_neq _ _) Hf).
  destruct (if negb (Z.land evt EPOLLIN =? 0) then _ else _) as [[tot []] rcalls]; [by intros; simplify_eq|].
  destruct (if negb (Z.land evt (Z.lor EPOLLHUP EPOLLRDHUP) =? 0) then _ else _) as [[[] hcalls]|];
    cbn [mbind option_bind]; [by intros; simplify_eq| |done].
  destruct (negb (Z.land evt EPOLLERR =? 0)); [by destruct (_ =? _); intros; simplify_eq|].
  by destruct (if negb (Z.land evt EPOLLOUT =? 0) then _ else _) as [[] ?]; intros; simplify_eq.
Qed.

Lemma k_event_epoll wop e p :
  no_eventfd wop p → kv_ident e ≠ 0 → (∀ l, kv_op e = Some l → ∃ op, pl_ops p !! l = Some op ∧ able op e) →
  k_event e p = obind (lift (handle_event wop (to_epoll e) p)) (λ r, Ret r.2) ∧
  (∀ r, handle_event wop (to_epoll e) p = Some r → r.1 = true).
Proof.
  intros Hc Hi Ho. unfold k_event, handle_event. rewrite (proj2 (Z.eqb_neq _ _) Hi). simpl ev_op.
  destruct (kv_op e) as [l|]; [|split; [done|intros; by simplify_eq]].
  destruct (Ho l eq_refl) as (op&Hl&Ha). rewrite Hl. cbn [mbind option_bind].
  destruct (op_do op) as [[] op'] eqn:Ed; cbn [fst snd]; [|split; [done|intros; by simplify_eq]].
  assert (able op' e ∧ FD op' ≠ wop) as [Ha' Hf].
  { specialize (Hc _ _ Hl). unfold op_do in Ed. destruct (_ =? 1); simplify_eq. by destruct op. }
  rewrite (k_handle_epoll wop) by done. simpl ev_answers.
  destruct (handle wop l op' _ _) as [[how calls]|] eqn:Eh; [|done]. cbn [lift obind mbind option_bind].
  pose proof (handle_no_exit _ _ _ _ _ _ Hf Eh) as Hx.
  rewrite (proj2 (Z.eqb_neq _ _) Hf).
  destruct how; [| |done]; (split; [done|intros; by simplify_eq]).
Qed.

Lemma handle_event_dom wop e p r l : handle_event wop e p = Some r → is_Some (pl_ops r.2 !! l) ↔ is_Some (pl_ops p !! l).
Proof.
  unfold handle_event. destruct (ev_op e) as [k|]; [|by intros; simplify_eq].
  destruct (pl_ops p !! k) as [op|] eqn:Hk; [|done]. cbn [mbind option_bind]. destruct (op_do op) as [[] op'];
    cbn [fst snd]; [|by intros; simplify_eq].
  destruct (handle wop k op' _ _) as [[how calls]|]; [|done]. cbn [mbind option_bind]. intros Hh.
  assert (∃ q o, pl_ops q = <[k := op']> (pl_ops p) ∧ pl_ops r.2 = <[k := o]> (pl_ops q)) as (q&o&Eq&->).
  { exists (update_op k op' p). destruct how; simplify_eq/=; unfold appendHup;
      repeat (case_match; simpl); eexists; done. }
  rewrite Eq. destruct (decide (l = k)) as [->|Hn]; [|by rewrite !lookup_insert_ne].
  rewrite lookup_insert_eq, Hk. split; intros; by eexists.
Qed.

Lemma handle_event_same wop e p go p' l op' : handle_event wop e p = Some (go, p') → pl_ops p' !! l = Some op' →
  ∃ op, pl_ops p !! l = Some op ∧ same_op op op'.
Proof.
  intros He Hl'. destruct (proj1 (handle_event_dom _ _ _ _ l He)) as [op Hl]; [by eexists|].
  destruct (handle_event_ops _ _ _ _ _ He _ _ Hl) as (op2&E&?). simpl in *. simplify_eq. eauto.
Qed.

Lemma handle_event_no_eventfd wop e p go p' : handle_event wop e p = Some (go, p') → no_eventfd wop p → no_eventfd wop p'.
Proof.
  intros He Hc l op' Hl'. destruct (handle_event_same _ _ _ _ _ _ _ He Hl') as (op&Hl&[-> _]). specialize (Hc _ _ Hl). by destruct op.
Qed.

Lemma handle_event_able wop e p go p' events : handle_event wop e p = Some (go, p') → all_able events p → all_able events p'.
Proof.
  intros He Ha e' l Hin Hl. destruct (Ha e' l Hin Hl) as (op&Ho&Hab).
  destruct (handle_event_ops _ _ _ _ _ He _ _ Ho) as (op'&Ho'&Hs). exists op'. eauto using able_same.
Qed.

Lemma obind_lift {A B} (m : option A) (k : A → outcome B) :
  obind (lift m) k = match m with Some a => k a | None => OutOfFuel end.
Proof. by destruct m. Qed.

(** The events of a batch that are not for the trigger. *)
Definition is_conn (e : kevent) : bool := negb (kv_ident e =? 0).
Definition triggered (events : list kevent) : bool := existsb (λ e, kv_ident e =? 0) events.

Lemma handle_event_trigger wop e p t : no_eventfd wop p →
  handle_event wop e (set_ptrigger t p) = prod_map id (set_ptrigger t) <$> handle_event wop e p.
Proof.
  intros Hc. unfold handle_event. destruct (ev_op e) as [l|]; [|done]. simpl pl_ops.
  destruct (pl_ops p !! l) as [op|] eqn:Hl; [|done]. cbn [mbind option_bind].
  destruct (op_do op) as [[] op'] eqn:Ed; [|done]. cbn [fst snd].
  assert (FD op' ≠ wop) as Hf.
  { specialize (Hc _ _ Hl). unfold op_do in Ed. destruct (_ =? 1); by simplify_eq. }
  destruct (handle wop l op' _ _) as [[how calls]|]; [|done]. cbn [mbind option_bind fmap option_fmap option_map].
  rewrite (proj2 (Z.eqb_neq _ _) Hf). destruct how; try done. unfold appendHup. by destruct (op_Control _ _) as [[] ?].
Qed.

Lemma handler_loop_trigger wop events t : ∀ p, no_eventfd wop p →
  handler_loop wop events (set_ptrigger t p) = prod_map id (set_ptrigger t) <$> handler_loop wop events p.
Proof.
  induction events as [|e events IH]; intros p Hc; [done|]. simpl. rewrite handle_event_trigger by done.
  destruct (handle_event wop e p) as [[go p1]|] eqn:He; [|done]. cbn [mbind option_bind fmap option_fmap option_map prod_map id fst snd].
  destruct go; [|done]. apply IH. by eapply handle_event_no_eventfd.
Qed.

Lemma k_events_epoll wop events : ∀ p,
  no_eventfd wop p → all_able events p →
  k_events events p =
    obind (lift (handler_loop wop (to_epoll <$> List.filter is_conn events) p))
      (λ r, if r.1 then Ret (if triggered events then set_ptrigger 0 r.2 else r.2) else Panic).
Proof.
  induction events as [|e events IH]; intros p Hc Ho; [done|]. simpl. unfold is_conn at 1, triggered. simpl.
  assert (all_able events p) as Ho' by (intros e' l ??; apply Ho; [by right|done]).
  destruct (Z.eqb_spec (kv_ident e) 0) as [Ez|Ez]; simpl.
  - unfold k_event. rewrite Ez. simpl. rewrite IH by done. rewrite handler_loop_trigger by done. fold (triggered events).
    destruct (handler_loop wop _ p) as [[[] q]|]; simpl; [|done..]. by destruct (triggered events).
  - destruct (k_event_epoll wop e p) as [-> Hgo]; [done..|intros; eapply Ho; [left|]; done|].
    destruct (handle_event wop (to_epoll e) p) as [[go p1]|] eqn:He; [|done]. specialize (Hgo _ eq_refl). simpl in Hgo. subst go.
    simpl. apply IH; [by eapply handle_event_no_eventfd|by eapply handle_event_able].
Qed.

(** C14: On kqueue, a round of Wait handles a batch of events as the handler for
    epoll handles the events that say the same: the same calls in the same
    order, the same operators given back or hung up, the same callbacks run
    after it; the events of the trigger in between only clear the trigger.  It
    ends when the other one ends.  This holds when no operator is that of an
    eventfd, which kqueue does not have, and when the operator of each event has
    a function for it: what it reads with for an event of EVFILT_READ, what it
    writes with for one of EVFILT_WRITE.  Without one the poll on kqueue calls
    nil, where the one on epoll writes to the log. *)
Theorem kqueue_as_epoll wop free events p :
  no_eventfd wop p → all_able events p →
  k_Wait_round free None events p =
    obind (lift (handler wop (to_epoll <$> List.filter is_conn events) p)) (λ '(closed, hups, q),
      if closed : bool then Panic
      else Ret (KRuns hups (free (if triggered events then set_ptrigger 0 q else q)))).
Proof.
  intros Hc Ho. simpl. rewrite (k_events_epoll wop) by done. unfold handler.
  destruct (handler_loop wop _ p) as [[[] q]|]; simpl; [|done..]. by destruct (triggered events).
Qed.

(** A connection and a listener; the connection's peer closes after its data,
    the poll is triggered, and a connection comes in. *)
Definition demo_k_poll : poll := Poll_
  {[ 1%nat := Operator 7 None None (Some 11%nat) (Some 1%nat) (Some 1%nat) (Some 1%nat) (Some 1%nat) None 0 None 1 0;
     2%nat := Operator 8 (Some 2%nat) None None None None None None None 0 None 1 1 ]} [] 1 [].
Definition demo_k_answers : answers :=
  Answers true (0, None) [(true, (0, Some (Exc 0 ErrEOF EmptyString)))] 0 false (0, None) 0.
Definition demo_k_events : list kevent :=
  [ Kevent 7 EVFILT_READ (Z.lor EV_ENABLE EV_EOF) (Some 1%nat) demo_k_answers;
    Kevent 0 (-10) 0 None demo_k_answers;
    Kevent 8 EVFILT_READ EV_ENABLE (Some 2%nat) demo_k_answers ].

Lemma demo_k_no_eventfd : no_eventfd 3 demo_k_poll.
Proof.
  intros l op. simpl. rewrite lookup_insert_Some, lookup_singleton_Some. by intros [[<- <-]|[_ [<- <-]]].
Qed.

Lemma demo_k_able : all_able demo_k_events demo_k_poll.
Proof.
  intros e l He Hl. unfold demo_k_events in He. rewrite !elem_of_cons, elem_of_nil in He.
  destruct He as [-> |[-> |[-> |[]]]]; simplify_eq/=; eexists; (split; [done|]); split; naive_solver.
Qed.

Lemma kqueue_as_epoll_witness :
  ∃ q, k_Wait_round id None demo_k_events demo_k_poll = Ret (KRuns [11%nat] q) ∧ pl_trigger q = 0 ∧
    pl_trace q = [KInputs 1; KRead 1; KInputAck 1 0; KInputs 1; KRead 1; KInputAck 1 0; KCtlDel 1; KOnRead 2].
Proof.
  rewrite (kqueue_as_epoll 3 id demo_k_events demo_k_poll demo_k_no_eventfd demo_k_able).
  eexists. split; [vm_compute; reflexivity|]. by split.
Defined.

(** ** The filters of a descriptor *)

(** A sequence of calls to Control for an operator: the errors, and the filters
    that are left; [None]: inuse has to wait. *)
Fixpoint k_controls (op : FDOperator) (evs : list PollEvent) (X : gset Z) : option (list Z * gset Z) :=
  match evs with
  | [] => Some ([], X)
  | ev :: evs =>
      '(filter, flags, op) ← k_Control op ev;
      let '(err, X) := k_change filter flags X in
      '(errs, X) ← k_controls op evs X;
      Some (option_list err ++ errs, X)
  end.

(** The rounds of flush, which ask for writability and give it up. *)
Fixpoint flushes (n : nat) : list PollEvent :=
  match n with O => [] | S n => PollR2RW :: PollRW2R :: flushes n end.

Lemma k_controls_flushes op evs r n :
  k_controls op evs {[EVFILT_READ]} = Some r → k_controls op (flushes n ++ evs) {[EVFILT_READ]} = Some r.
Proof.
  intros Hr. induction n as [|n IH]; [done|]. simpl. unfold k_change. simpl. rewrite decide_True by set_solver.
  assert (({[EVFILT_WRITE; EVFILT_READ]} ∖ {[EVFILT_WRITE]} : gset Z) = {[EVFILT_READ]}) as -> by (vm_compute; reflexivity).
  rewrite IH. by destruct r.
Qed.

(** A sequence of calls for an operator that has what it reads with when it asks
    for readability, and what it writes with when it asks for writability: as
    those of listeners, which only read, of pollDesc, which only write, and of
    connections.  The kernel then reports no event for which it has no function. *)
Definition asks_able (op : FDOperator) (ev : PollEvent) : Prop :=
  match ev with
  | PollReadable => OnRead op ≠ None ∨ Inputs op ≠ None
  | PollWritable | PollR2RW => OnWrite op ≠ None ∨ Outputs op ≠ None
  | PollDetach | PollRW2R => True
  end.

Definition filter_able (op : FDOperator) (f : Z) : Prop :=
  (f = EVFILT_READ → OnRead op ≠ None ∨ Inputs op ≠ None) ∧ (f = EVFILT_WRITE → OnWrite op ≠ None ∨ Outputs op ≠ None).

Lemma k_Control_able op ev f flags op1 : k_Control op ev = Some (f, flags, op1) → asks_able op ev →
  (negb (Z.land flags EV_ADD =? 0) = true → filter_able op f) ∧
  (∀ ev, asks_able op ev → asks_able op1 ev) ∧ (∀ g, filter_able op1 g ↔ filter_able op g).
Proof.
  destruct op, ev; unfold k_Control, op_inuse; simpl; repeat case_match; intros; simplify_eq/=; split_and!; try done;
    intros; by split.
Qed.

Lemma k_controls_able evs : ∀ op X errs X',
  Forall (asks_able op) evs → (∀ f, f ∈ X → filter_able op f) → k_controls op evs X = Some (errs, X') →
  ∀ e, kv_filter e ∈ X' → able op e.
Proof.
  induction evs as [|ev evs IH]; intros op X errs X' Hok HX E e He.
  { simplify_eq/=. destruct (HX _ He) as [H1 H2]. unfold able, k_triggerRead, k_triggerWrite.
    split; intros [?%Z.eqb_eq _]%andb_true_iff; auto. }
  apply Forall_cons in Hok as [Hev Hevs]. simpl in E. destruct (k_Control op ev) as [[[f flags] op1]|] eqn:Ec; [|done].
  simpl in E. destruct (k_change f flags X) as [err X1] eqn:Ek.
  destruct (k_controls op1 evs X1) as [[errs1 X2]|] eqn:E2; [|done]. simpl in E. simplify_eq.
  destruct (k_Control_able _ _ _ _ _ Ec Hev) as (Hadd&Hasks&Hsame).
  assert (able op1 e → able op e) as Hab.
  { clear -Ec. destruct op, ev; unfold k_Control, op_inuse in Ec; simpl in Ec; repeat case_match; by simplify_eq/=. }
  eapply Hab, (IH op1 X1); [by eapply Forall_impl| |exact E2|done].
  intros g Hg. apply Hsame. unfold k_change in Ek. destruct (negb _) eqn:Ea; [|destruct (decide _)]; simplify_eq; [|set_solver..].
  apply elem_of_union in Hg as [->%elem_of_singleton|?]; auto.
Qed.

(** The operator of a connection is taken off the queue after any number of
    flushes; when one is pending its filter for writing stays. The operator of
    a pollDesc, which has OnWrite, is taken off too; one that waits to write
    with Outputs is not, and the call fails. *)
Lemma k_detach_spec op n (pending : bool) : op_state op = 0 →
  (OnWrite op = None →
    k_controls op ([PollReadable] ++ flushes n ++ (if pending then [PollR2RW] else []) ++ [PollDetach]) ∅ =
      Some ([], if pending then {[EVFILT_WRITE]} else ∅)) ∧
  k_controls op [PollWritable; PollDetach] ∅ =
    Some (match OnWrite op with Some _ => ([], ∅) | None => ([ENOENT], {[EVFILT_WRITE]}) end).
Proof.
  intros Hs. split.
  - intros Hw. simpl. unfold op_inuse. rewrite Hs. simpl.
    assert (({[EVFILT_READ]} ∪ ∅ : gset Z) = {[EVFILT_READ]}) as -> by set_solver.
    rewrite (k_controls_flushes _ _ ([], if pending then {[EVFILT_WRITE]} else ∅)); [by destruct pending|].
    destruct pending; simpl; by rewrite Hw.
  - simpl. unfold op_inuse. rewrite Hs. simpl. by destruct (OnWrite op).
Qed.

(** ** Opening a poll *)

(** openDefaultPoll for epoll. The answers of epoll_create, of eventfd2 and of
    Control for the eventfd: a descriptor, or an error. Returns the descriptors
    of the poll and of the eventfd; [X]: the open descriptors. *)
Definition openDefaultPoll (create eventfd : Z + Z) (ctl : option Z) (X : gset Z) : (Z + (Z * Z)) * gset Z :=
  match create with
  | inl e => (inl e, X)
  | inr p =>
      let X := {[p]} ∪ X in
      match eventfd with
      | inl e => (inl e, X ∖ {[p]})
      | inr r0 =>
          let X := {[r0]} ∪ X in
          match ctl with
          | Some e => (inl e, X ∖ {[r0]} ∖ {[p]})
          | None => (inr (p, r0), X)
          end
      end
  end.

(** openDefaultPoll for kqueue. *)
Definition k_openDefaultPoll (kqueue : Z + Z) (user : option Z) (X : gset Z) : (Z + Z) * gset Z :=
  match kqueue with
  | inl e => (inl e, X)
  | inr p =>
      let X := {[p]} ∪ X in
      match user with
      | Some e => (inl e, X ∖ {[p]})
      | None => (inr p, X)
      end
  end.

(** A poll that cannot be opened leaves no descriptor open. *)
Lemma openDefaultPoll_accounts create eventfd ctl (X : gset Z) :
  (∀ p, create = inr p → p ∉ X) → (∀ p r, create = inr p → eventfd = inr r → r ∉ {[p]} ∪ X) →
  let '(r, X') := openDefaultPoll create eventfd ctl X in
  match r with inl _ => X' = X | inr (p, r0) => X' = {[r0]} ∪ ({[p]} ∪ X) ∧ p ≠ r0 end.
Proof.
  intros Hp Hr. destruct create as [?|p]; [done|]. specialize (Hp p eq_refl).
  destruct eventfd as [?|r]; simpl; [set_solver|]. specialize (Hr p r eq_refl eq_refl).
  destruct ctl; simpl; [set_solver|]. split; [done|]. intros ->. set_solver.
Qed.

Lemma k_openDefaultPoll_accounts kqueue user (X : gset Z) : (∀ p, kqueue = inr p → p ∉ X) →
  let '(r, X') := k_openDefaultPoll kqueue user X in
  match r with inl _ => X' = X | inr p => X' = {[p]} ∪ X end.
Proof. intros Hp. destruct kqueue as [?|p]; [done|]. specialize (Hp p eq_refl). destruct user; simpl; [set_solver|done]. Qed.

(** ** Finding the operator of an event *)

(** What Control stores with the event: the pointer or, with the race detector
    on Linux, the descriptor. *)
Inductive data := DPointer (op : nat) | DFd (fd : Z).

(** The map of the poll, and what the kernel keeps for each descriptor. *)
Record lookup := Lookup { lk_m : gmap Z nat; lk_kernel : gmap Z data }.

Definition getOperator (d : data) : option nat := match d with DPointer op => Some op | DFd _ => None end.
Definition setOperator (op : nat) : data := DPointer op.

(** With the race detector, on Linux; for kqueue the descriptor is the one of
    the event. *)
Definition race_getOperator (m : gmap Z nat) (d : data) : option nat :=
  match d with DFd fd => m !! fd | DPointer _ => None end.
Definition race_setOperator (op : nat) (fd : Z) (m : gmap Z nat) : data * gmap Z nat := (DFd (int32 fd), <[fd := op]> m).
Definition race_delOperator (fd : Z) (m : gmap Z nat) : gmap Z nat := delete fd m.
Definition k_race_getOperator (fd : Z) (m : gmap Z nat) : option nat := m !! fd.

(** The effect of a Control that the kernel accepts. *)
Definition kernel_ctl (fd : Z) (d : data) (event : PollEvent) (k : gmap Z data) : gmap Z data :=
  if decide (event = PollDetach) then delete fd k else <[fd := d]> k.
Definition norace_Control (op : nat) (fd : Z) (event : PollEvent) (s : lookup) : lookup :=
  Lookup (lk_m s) (kernel_ctl fd (setOperator op) event (lk_kernel s)).
Definition race_Control (op : nat) (fd : Z) (event : PollEvent) (s : lookup) : lookup :=
  let '(d, m) := race_setOperator op fd (lk_m s) in
  let m := if decide (event = PollDetach) then race_delOperator fd m else m in
  Lookup m (kernel_ctl fd d event (lk_kernel s)).

Definition run_controls (ctl : nat → Z → PollEvent → lookup → lookup) (l : list (nat * Z * PollEvent)) (s : lookup) : lookup :=
  foldl (λ s '(op, fd, ev), ctl op fd ev s) s l.

(** The builds with and without the race detector agree on the operator of
    every event that the kernel can report, on both systems: the descriptors
    fit in 32 bits. *)
Lemma race_agrees l :
  Forall (λ '(_, fd, _), 0 <= fd < 2 ^ 31) l →
  let s := run_controls norace_Control l (Lookup ∅ ∅) in
  let r := run_controls race_Control l (Lookup ∅ ∅) in
  ∀ fd, (lk_kernel s !! fd ≫= getOperator) = (lk_kernel r !! fd ≫= race_getOperator (lk_m r)) ∧
        (lk_kernel s !! fd ≫= getOperator) = k_race_getOperator fd (lk_m r).
Proof.
  intros Hl. cbv zeta.
  assert (∀ fd, lk_kernel (run_controls race_Control l (Lookup ∅ ∅)) !! fd =
      (λ _, DFd fd) <$> lk_m (run_controls race_Control l (Lookup ∅ ∅)) !! fd ∧
    lk_kernel (run_controls norace_Control l (Lookup ∅ ∅)) !! fd =
      DPointer <$> lk_m (run_controls race_Control l (Lookup ∅ ∅)) !! fd) as H.
  { induction l as [|[[op g] ev] l IH] using rev_ind; intros fd; [done|].
    apply Forall_app in Hl as [Hl [Hg _]%Forall_cons]. specialize (IH Hl). unfold run_controls in *. rewrite !foldl_app. simpl.
    destruct (IH fd) as [E1 E2]. unfold norace_Control, race_Control, kernel_ctl, race_delOperator, setOperator. simpl.
    assert (int32 g = g) as -> by (unfold int32; rewrite Z.mod_small by lia; lia).
    destruct (decide (ev = PollDetach)), (decide (fd = g)) as [->|Hn]; simpl;
      rewrite ?lookup_delete_eq, ?lookup_insert_eq by done; try done;
      rewrite ?lookup_delete_ne, ?lookup_insert_ne by done; done. }
  intros fd. destruct (H fd) as [-> ->]. unfold k_race_getOperator.
  destruct (lk_m _ !! fd) as [op|] eqn:E; simpl; by rewrite ?E.
Qed.
