(* ===== verification/Manager.v ===== *)
(** * The manager of the polls and its load balancing

    Models src/poll_manager.go and src/poll_loadbalance.go.  Polls are numbers;
    the world knows which of them were opened and closed, and decides whether
    openPoll succeeds.  The random numbers of fastrand are a parameter. *)

From S2P Require Import Prelude FDOperator.

Open Scope Z_scope.

Definition managerUninitialized : Z := 0.
Definition managerInitializing : Z := 1.
Definition managerInitialized : Z := 2.

Inductive LoadBalance := RoundRobin | Random.

#[global] Instance LoadBalance_eq_dec : EqDecision LoadBalance.
Proof. solve_decision. Defined.

(** A load balancer: [lb_accepted] is the counter of roundRobinLB. *)
Record loadbalance := Balance {
  lb_kind : LoadBalance;
  lb_polls : list nat;
  lb_pollSize : Z;
  lb_accepted : Z;
}.

(** [lb] may be any int: the default is round robin. *)
Definition newLoadbalance (lb : option LoadBalance) (polls : list nat) : loadbalance :=
  match lb with
  | Some Random => Balance Random polls (zlen polls) 0
  | _ => Balance RoundRobin polls (zlen polls) 0
  end.

Definition Rebalance (polls : list nat) (b : loadbalance) : loadbalance :=
  Balance (lb_kind b) polls (zlen polls) (lb_accepted b).

Definition uintptr (z : Z) : Z := z mod 2 ^ 64.
(** [int(x)] of a uintptr. *)
Definition int_of (z : Z) : Z := if z <? 2 ^ 63 then z else z - 2 ^ 64.

Definition poll_at (polls : list nat) (idx : Z) : outcome nat :=
  match (if idx <? 0 then None else polls !! Z.to_nat idx) with Some p => Ret p | None => Panic end.

Record manager := Manager {
  m_numLoops : Z;
  m_status : Z;
  m_balance : option loadbalance;
  m_polls : list nat;
}.

(** The world: the polls that were opened and run, those that were closed, and
    whether the next calls of openPoll succeed. *)
Record world := World {
  wd_fresh : nat;
  wd_opened : list nat;
  wd_closed : list nat;
  wd_opens : list bool;
}.

Record mstate := MState { mg : manager; wd : world }.

Definition set_mg (f : manager → manager) : M mstate unit := modify (λ s, MState (f (mg s)) (wd s)).

(** [poll.Close()] never fails but for a write to the eventfd; [close_err]
    says which. *)
Section manager.
Context (Intn : Z → Z → Z) (close_err : nat → bool).

Definition poll_close (p : nat) : M mstate bool := λ s,
  Ret (close_err p, MState (mg s) (World (wd_fresh (wd s)) (wd_opened (wd s)) (p :: wd_closed (wd s)) (wd_opens (wd s)))).

(** [openPoll()] and [go poll.Wait()] *)
Definition open_poll : M mstate (option nat) := λ s,
  let w := wd s in
  match wd_opens w with
  | false :: rest => Ret (None, MState (mg s) (World (wd_fresh w) (wd_opened w) (wd_closed w) rest))
  | _ => Ret (Some (wd_fresh w),
              MState (mg s) (World (S (wd_fresh w)) (wd_fresh w :: wd_opened w) (wd_closed w) (tail (wd_opens w))))
  end.

(** Pick of a load balancer; [seed]: the state of fastrand. *)
Definition lb_Pick (seed : Z) (b : loadbalance) : outcome (nat * loadbalance) :=
  match lb_kind b with
  | RoundRobin =>
      let accepted := uintptr (lb_accepted b + 1) in
      if lb_pollSize b =? 0 then Panic
      else
        match poll_at (lb_polls b) (Z.rem (int_of accepted) (lb_pollSize b)) with
        | Ret p => Ret (p, Balance RoundRobin (lb_polls b) (lb_pollSize b) accepted)
        | _ => Panic
        end
  | Random =>
      if lb_pollSize b <=? 0 then Panic
      else
        match poll_at (lb_polls b) (Intn seed (lb_pollSize b)) with
        | Ret p => Ret (p, b)
        | _ => Panic
        end
  end.

(** [m.balance.Pick()]: a nil interface panics. *)
Definition balance_Pick (seed : Z) : M mstate nat := λ s,
  match m_balance (mg s) with
  | None => Panic
  | Some b =>
      match lb_Pick seed b with
      | Ret (p, b) => Ret (p, MState (Manager (m_numLoops (mg s)) (m_status (mg s)) (Some b) (m_polls (mg s))) (wd s))
      | _ => Panic
      end
  end.

(** SetNumLoops: whether it returns an error. *)
Definition SetNumLoops (numLoops : Z) : M mstate bool :=
  if numLoops <? 1 then mret true
  else
    _ ← set_mg (λ m, Manager (int32 numLoops) managerUninitialized (m_balance m) (m_polls m));
    mret false.

Definition SetLoadBalance (lb : LoadBalance) : M mstate unit :=
  s ← get;
  match m_balance (mg s) with
  | Some b => if decide (lb_kind b = lb) then mret () else
      set_mg (λ m, Manager (m_numLoops m) (m_status m) (Some (newLoadbalance (Some lb) (m_polls m))) (m_polls m))
  | None =>
      set_mg (λ m, Manager (m_numLoops m) (m_status m) (Some (newLoadbalance (Some lb) (m_polls m))) (m_polls m))
  end.

(** Close the polls of a list; the error of the last one. *)
Fixpoint close_all (l : list nat) (err : bool) : M mstate bool :=
  match l with
  | [] => mret err
  | p :: l => e ← poll_close p; close_all l e
  end.

Definition manager_Close : M mstate bool :=
  s ← get;
  err ← close_all (m_polls (mg s)) false;
  _ ← set_mg (λ m, Manager 0 (m_status m) None []);
  mret err.

(** The loop that opens polls: the polls, or an error. *)
Fixpoint open_loop (n : nat) (acc : list nat) : M mstate (option (list nat)) :=
  match n with
  | O => mret (Some acc)
  | S n =>
      r ← open_poll;
      match r with
      | None => mret None
      | Some p => open_loop n (acc ++ [p])
      end
  end.

(** [m.polls = polls], and Rebalance *)
Definition set_polls (polls : list nat) : M mstate unit := λ s,
  match m_balance (mg s) with
  | None => Panic
  | Some b => Ret (tt, MState (Manager (m_numLoops (mg s)) (m_status (mg s)) (Some (Rebalance polls b)) polls) (wd s))
  end.

(** Run: whether it returns an error. *)
Definition Run : M mstate bool :=
  s ← get;
  let numLoops := m_numLoops (mg s) in
  let old := m_polls (mg s) in
  if numLoops =? zlen old then mret false
  else if numLoops <? 0 then panic
  else if numLoops <? zlen old then
    _ ← close_all (zdrop numLoops old) false;
    _ ← set_polls (ztake numLoops old);
    mret false
  else
    r ← open_loop (Z.to_nat (numLoops - zlen old)) old;
    match r with
    | None => _ ← manager_Close; mret true
    | Some polls => _ ← set_polls polls; mret false
    end.

Definition manager_Reset : M mstate bool :=
  s ← get;
  _ ← close_all (m_polls (mg s)) false;
  _ ← set_mg (λ m, Manager (m_numLoops m) (m_status m) (m_balance m) []);
  Run.

Definition cas_status (old new : Z) : M mstate bool := λ s,
  let m := mg s in
  if m_status m =? old then Ret (true, MState (Manager (m_numLoops m) new (m_balance m) (m_polls m)) (wd s))
  else Ret (false, s).

(** Pick, when no other goroutine is in Run: the status is not Initializing. *)
Definition Pick (seed : Z) : M mstate nat :=
  s ← get;
  if m_status (mg s) =? managerInitialized then balance_Pick seed
  else
    ok ← cas_status managerUninitialized managerInitializing;
    if ok : bool then
      _ ← Run;
      _ ← cas_status managerInitializing managerInitialized;
      balance_Pick seed
    else out_of_fuel.

Definition newManager (numLoops : Z) : M mstate unit :=
  _ ← set_mg (λ _, Manager 0 0 None []);
  _ ← SetLoadBalance RoundRobin;
  _ ← SetNumLoops numLoops;
  mret ().
End manager.

(** ** The invariant *)

(** Every poll that was opened is in use or was closed; the balancer picks
    among those in use. *)
Record mgr_ok (s : mstate) : Prop := MgrOk {
  mk_balance : ∃ b, m_balance (mg s) = Some b ∧ lb_polls b = m_polls (mg s) ∧
    lb_pollSize b = zlen (m_polls (mg s)) ∧ 0 <= lb_accepted b;
  mk_loops : 1 <= m_numLoops (mg s) < 2 ^ 31;
  mk_status : m_status (mg s) = managerUninitialized ∨
    m_status (mg s) = managerInitialized ∧ zlen (m_polls (mg s)) = m_numLoops (mg s);
  mk_parts : m_polls (mg s) ++ wd_closed (wd s) ≡ₚ wd_opened (wd s);
  mk_fresh : ∀ p, p ∈ wd_opened (wd s) → (p < wd_fresh (wd s))%nat;
  mk_nodup : NoDup (wd_opened (wd s));
}.

Section proofs.
Context (Intn : Z → Z → Z) (close_err : nat → bool).

Lemma wp_close_all l : ∀ err (Q : bool → mstate → Prop) s,
  (∀ r, Q r (MState (mg s) (World (wd_fresh (wd s)) (wd_opened (wd s)) (rev l ++ wd_closed (wd s)) (wd_opens (wd s))))) →
  wp (close_all close_err l err) Q s.
Proof.
  induction l as [|p l IH]; intros err Q s HQ; simpl.
  - apply wp_ret. by destruct s as [? []].
  - apply wp_bind. unfold wp at 1, poll_close. apply IH. simpl. simpl in HQ. intros r.
    specialize (HQ r). by rewrite <- app_assoc in HQ.
Qed.

Lemma wp_open_loop n : ∀ acc (Q : option (list nat) → mstate → Prop) s,
  Forall (λ b, b = true) (wd_opens (wd s)) →
  (∀ opens, Forall (λ b, b = true) opens →
    Q (Some (acc ++ seq (wd_fresh (wd s)) n))
      (MState (mg s) (World (wd_fresh (wd s) + n) (rev (seq (wd_fresh (wd s)) n) ++ wd_opened (wd s)) (wd_closed (wd s)) opens))) →
  wp (open_loop n acc) Q s.
Proof.
  induction n as [|n IH]; intros acc Q s Ho HQ; simpl.
  - apply wp_ret. specialize (HQ _ Ho). destruct s as [? []]. simpl in *. by rewrite app_nil_r, Nat.add_0_r in HQ.
  - apply wp_bind. unfold wp at 1, open_poll. destruct (wd_opens (wd s)) as [|[] rest] eqn:E.
    3:{ by apply Forall_cons in Ho as [? _]. }
    all: apply IH; simpl; [try done; by apply Forall_cons in Ho as [_ ?]|]; intros opens Hopens;
      specialize (HQ opens Hopens); simpl in HQ; rewrite <- !app_assoc in *; simpl in *;
      by replace (S (wd_fresh (wd s) + n)) with (wd_fresh (wd s) + S n)%nat by lia.
Qed.

Lemma seq_opened s n : mgr_ok s →
  NoDup (rev (seq (wd_fresh (wd s)) n) ++ wd_opened (wd s)) ∧
  ∀ p, p ∈ rev (seq (wd_fresh (wd s)) n) ++ wd_opened (wd s) → (p < wd_fresh (wd s) + n)%nat.
Proof.
  intros [_ _ _ _ Hf Hn]. split.
  - apply NoDup_app. split_and!; [rewrite <- Permutation_rev; apply NoDup_seq| |done].
    intros p Hp Hin. apply Hf in Hin. rewrite <- Permutation_rev in Hp. apply elem_of_seq in Hp. lia.
  - intros p [Hp|Hp]%elem_of_app; [rewrite <- Permutation_rev in Hp; apply elem_of_seq in Hp; lia|]. apply Hf in Hp. lia.
Qed.

(** Run keeps the polls it can, closes those that are too many and opens those
    that are missing. *)
Lemma wp_Run s (Q : bool → mstate → Prop) :
  mgr_ok (MState (Manager (m_numLoops (mg s)) 0 (m_balance (mg s)) (m_polls (mg s))) (wd s)) →
  Forall (λ b, b = true) (wd_opens (wd s)) →
  (∀ s' added, m_status (mg s') = m_status (mg s) →
    mgr_ok (MState (Manager (m_numLoops (mg s')) 0 (m_balance (mg s')) (m_polls (mg s'))) (wd s')) →
    m_numLoops (mg s') = m_numLoops (mg s) → zlen (m_polls (mg s')) = m_numLoops (mg s) →
    (lb_accepted <$> m_balance (mg s')) = (lb_accepted <$> m_balance (mg s)) →
    m_polls (mg s') = ztake (m_numLoops (mg s)) (m_polls (mg s)) ++ added → Q false s') →
  wp (Run close_err) Q s.
Proof.
  intros Hok Ho HQ. destruct s as [[loops st bal polls] w]. simpl in *.
  pose proof Hok as [(b&Hb&Hlp&Hsz&Hacc) Hl _ Hp Hf Hn]. simpl in *. subst bal.
  pose proof (zlen_nonneg polls). unfold Run. apply wp_bind, wp_get. simpl.
  destruct (Z.eqb_spec loops (zlen polls)) as [E|E].
  { apply wp_ret. apply (HQ _ []); simpl; try done. rewrite app_nil_r, ztake_ge by lia. done. }
  destruct (Z.ltb_spec loops 0); [lia|]. destruct (Z.ltb_spec loops (zlen polls)).
  - apply wp_bind, wp_close_all. intros r. apply wp_bind. unfold wp at 1, set_polls. simpl. apply wp_ret.
    apply (HQ _ []); simpl; try done; [|zl|by rewrite app_nil_r].
    constructor; simpl; try done; [eexists; by split_and!|by left|].
    rewrite <- Hp, <- Permutation_rev, app_assoc, ztake_zdrop. done.
  - apply wp_bind, wp_open_loop; [done|]. intros opens Hopens. apply wp_bind. unfold wp at 1, set_polls. simpl. apply wp_ret.
    destruct (seq_opened _ (Z.to_nat (loops - zlen polls)) Hok) as [Hn' Hf'].
    apply (HQ _ (seq (wd_fresh w) (Z.to_nat (loops - zlen polls)))); simpl; try done.
    + constructor; simpl; try done; [eexists; split_and!; done|by left|].
      rewrite <- Hp, <- Permutation_rev. perm.
    + rewrite zlen_app. unfold zlen at 2. rewrite length_seq. lia.
    + by rewrite ztake_ge by lia.
Qed.

Lemma poll_at_in polls idx : 0 <= idx < zlen polls → ∃ p, poll_at polls idx = Ret p ∧ p ∈ polls.
Proof.
  intros Hi. unfold poll_at. rewrite (proj2 (Z.ltb_ge _ _)) by lia.
  destruct (lookup_lt_is_Some_2 polls (Z.to_nat idx)) as [p Hp]; [unfold zlen in Hi; lia|].
  rewrite Hp. exists p. split; [done|]. by eapply list_elem_of_lookup_2.
Qed.

(** What a caller may rely on: fewer than 2^63 picks; the documented range of
    fastrand.Intn. *)
Definition picks_left (s : mstate) : Prop :=
  ∀ b, m_balance (mg s) = Some b → lb_accepted b < 2 ^ 63 - 1.

Lemma lb_Pick_in seed b :
  0 < lb_pollSize b ∧ lb_pollSize b = zlen (lb_polls b) → 0 <= lb_accepted b < 2 ^ 63 - 1 →
  (∀ n, 0 < n → 0 <= Intn seed n < n) →
  ∃ p b', lb_Pick Intn seed b = Ret (p, b') ∧ p ∈ lb_polls b ∧ lb_polls b' = lb_polls b ∧
    lb_pollSize b' = lb_pollSize b ∧ lb_accepted b <= lb_accepted b' <= lb_accepted b + 1.
Proof.
  intros [Hpos Hsz] Hacc Hint. unfold lb_Pick. destruct (lb_kind b).
  - rewrite (proj2 (Z.eqb_neq _ _)) by lia. unfold uintptr. rewrite Z.mod_small by lia.
    unfold int_of. rewrite (proj2 (Z.ltb_lt _ _)) by lia.
    destruct (poll_at_in (lb_polls b) (Z.rem (lb_accepted b + 1) (lb_pollSize b))) as (p&->&Hp).
    { rewrite <- Hsz. apply Z.rem_bound_pos; lia. }
    eexists _, _. split_and!; [done..|simpl; lia|simpl; lia].
  - rewrite (proj2 (Z.leb_gt _ _)) by lia.
    destruct (poll_at_in (lb_polls b) (Intn seed (lb_pollSize b))) as (p&->&Hp); [rewrite <- Hsz; auto|].
    eexists _, _. split_and!; [done..|lia|lia].
Qed.

Lemma wp_balance_Pick seed s (Q : nat → mstate → Prop) :
  mgr_ok s → 0 < zlen (m_polls (mg s)) → picks_left s → (∀ n, 0 < n → 0 <= Intn seed n < n) →
  (∀ p b, p ∈ m_polls (mg s) →
    let s' := MState (Manager (m_numLoops (mg s)) (m_status (mg s)) (Some b) (m_polls (mg s))) (wd s) in
    mgr_ok s' → Q p s') →
  wp (balance_Pick Intn seed) Q s.
Proof.
  intros Hok Hpos Hleft Hint HQ. destruct Hok as [(b&Hb&Hlp&Hsz&Hacc) Hl Hst Hp Hf Hn].
  unfold wp, balance_Pick. rewrite Hb.
  destruct (lb_Pick_in seed b) as (p&b'&->&Hin&E1&E2&E3); [rewrite Hsz, Hlp; lia|split; [done|by apply Hleft]|done|].
  apply HQ; [by rewrite <- Hlp|]. constructor; simpl; try done. exists b'. split_and!; [done|congruence..|lia].
Qed.

(** C39: when every openPoll succeeds, fewer than 2^63 - 1 polls were picked
    before and the random numbers are in their range, Pick does not panic and
    returns a poll that is open; it first adjusts the polls to the number that
    was set: those that can stay stay in their order, the others are closed,
    missing ones are opened.  Afterwards every poll that was ever opened is
    still in use or has been closed: none is leaked.  When openPoll fails the
    polls that were opened before are leaked and Pick panics. *)
Theorem Pick_spec seed s :
  mgr_ok s → Forall (λ b, b = true) (wd_opens (wd s)) → picks_left s →
  (∀ n, 0 < n → 0 <= Intn seed n < n) →
  wp (Pick Intn close_err seed) (λ p s', mgr_ok s' ∧ p ∈ m_polls (mg s') ∧ (p ∉ wd_closed (wd s')) ∧
    m_status (mg s') = managerInitialized ∧ zlen (m_polls (mg s')) = m_numLoops (mg s) ∧
    ∃ added, m_polls (mg s') = ztake (m_numLoops (mg s)) (m_polls (mg s)) ++ added) s.
Proof.
  intros Hok Ho Hleft Hint. pose proof Hok as [Hbal Hl Hst _ _ _].
  assert (∀ p s', mgr_ok s' → p ∈ m_polls (mg s') → p ∉ wd_closed (wd s')) as Hopen.
  { intros p s' [_ _ _ Hp _ Hn] Hin. rewrite <- Hp in Hn. apply NoDup_app in Hn as (_&Hd&_). auto. }
  unfold Pick. apply wp_bind, wp_get. destruct Hst as [Hst|[Hst Hlen]]; rewrite Hst; simpl.
  - apply wp_bind. unfold wp at 1, cas_status. rewrite Hst. simpl. apply wp_bind.
    apply wp_Run; simpl; [by destruct s as [[]]; simpl in *; subst|done|].
    intros s' added Est Hok' En Ez Eacc Epolls. apply wp_bind. unfold wp at 1, cas_status. rewrite Est. simpl.
    apply wp_balance_Pick; simpl; try done.
    + destruct Hok' as [? ? _ ? ? ?]. constructor; try done. right. simpl in *. split; [done|congruence].
    + lia.
    + intros b Hb. simpl in Hb. rewrite Hb in Eacc. destruct (m_balance (mg s)) as [b0|] eqn:E0; simpl in Eacc; [|done].
      injection Eacc as ->. by apply Hleft.
    + intros p b Hin Hok2. simpl. split_and!; try done; [by apply (Hopen _ _ Hok2)|]. eauto.
  - apply wp_balance_Pick; try done; [lia|]. intros p b Hin s1 Hok2. simpl.
    split_and!; try done; [by apply (Hopen _ _ Hok2)|]. exists []. rewrite app_nil_r, ztake_ge by lia. done.
Qed.
End proofs.

(** SetNumLoops and SetLoadBalance keep the invariant; the former refuses
    numbers below 1. *)
Lemma wp_SetNumLoops n s (Q : bool → mstate → Prop) :
  mgr_ok s → n < 2 ^ 31 →
  (n < 1 → Q true s) →
  (∀ s', 1 <= n → mgr_ok s' → m_numLoops (mg s') = n → m_polls (mg s') = m_polls (mg s) → Q false s') →
  wp (SetNumLoops n) Q s.
Proof.
  intros [? ? ? ? ? ?] Hn H1 H2. unfold SetNumLoops. destruct (Z.ltb_spec n 1); [by apply wp_ret, H1|].
  apply wp_bind, wp_modify, wp_ret. apply H2; simpl; try done; [|by apply int32_id; lia].
  constructor; simpl; try done; [rewrite int32_id by lia; lia|by left].
Qed.

Lemma wp_SetLoadBalance lb s (Q : unit → mstate → Prop) :
  mgr_ok s → (∀ s' b, mgr_ok s' → m_balance (mg s') = Some b → lb_kind b = lb → Q tt s') →
  wp (SetLoadBalance lb) Q s.
Proof.
  intros Hok HQ. pose proof Hok as [(b&Hb&?&?&?) ? ? ? ? ?]. unfold SetLoadBalance. apply wp_bind, wp_get.
  rewrite Hb. destruct (decide (lb_kind b = lb)) as [E|E]; [by eapply wp_ret, HQ|].
  apply wp_modify. eapply (HQ _ (newLoadbalance (Some lb) (m_polls (mg s)))); simpl; [|done|by destruct lb].
  constructor; simpl; try done. eexists. split; [done|]. by destruct lb.
Qed.

(** ** Round robin is fair *)

(** [n] picks in a row. *)
Fixpoint picks (Intn : Z → Z → Z) (n : nat) (b : loadbalance) : list nat :=
  match n with
  | O => []
  | S n => match lb_Pick Intn 0 b with Ret (p, b) => p :: picks Intn n b | _ => [] end
  end.

Lemma picks_lookup Intn k : ∀ b,
  lb_kind b = RoundRobin → 0 < lb_pollSize b → lb_pollSize b = zlen (lb_polls b) →
  0 <= lb_accepted b → lb_accepted b + Z.of_nat k < 2 ^ 63 →
  length (picks Intn k b) = k ∧
  ∀ i, (i < k)%nat → picks Intn k b !! i = lb_polls b !! Z.to_nat ((lb_accepted b + 1 + Z.of_nat i) mod lb_pollSize b).
Proof.
  induction k as [|k IH]; intros b Hk Hpos Hsz Hacc Hb; [split; [done|lia]|].
  cbn [picks]. unfold lb_Pick. rewrite Hk, (proj2 (Z.eqb_neq _ _)) by lia.
  unfold uintptr. rewrite Z.mod_small by lia. unfold int_of. rewrite (proj2 (Z.ltb_lt _ _)) by lia.
  rewrite Z.rem_mod_nonneg by lia.
  pose proof (Z.mod_pos_bound (lb_accepted b + 1) (lb_pollSize b)) as Hmod.
  unfold poll_at. rewrite (proj2 (Z.ltb_ge _ _)) by lia.
  destruct (lookup_lt_is_Some_2 (lb_polls b) (Z.to_nat ((lb_accepted b + 1) mod lb_pollSize b))) as [p Hp];
    [unfold zlen in Hsz; lia|]. rewrite Hp.
  destruct (IH (Balance RoundRobin (lb_polls b) (lb_pollSize b) (lb_accepted b + 1))) as [Hlen Hi]; simpl; [done|lia..|].
  split; [simpl; lia|]. intros [|i] Hlt; simpl; [by rewrite Z.add_0_r|].
  rewrite Hi by lia. simpl. do 3 f_equal. lia.
Qed.

(** Round robin is fair: as many picks in a row as there are polls pick
    every poll exactly once, from whatever point the counter is at. *)
Theorem RoundRobin_fair Intn b :
  lb_kind b = RoundRobin → 0 < lb_pollSize b → lb_pollSize b = zlen (lb_polls b) →
  0 <= lb_accepted b → lb_accepted b + lb_pollSize b < 2 ^ 63 →
  picks Intn (Z.to_nat (lb_pollSize b)) b ≡ₚ lb_polls b.
Proof.
  intros Hk Hpos Hsz Hacc Hb.
  destruct (picks_lookup Intn (Z.to_nat (lb_pollSize b)) b) as [Hlen Hi]; try done; [lia|].
  set (n := lb_pollSize b) in *. pose proof (Z.mod_pos_bound (lb_accepted b + 1) n Hpos) as Hr.
  set (r := (lb_accepted b + 1) mod n) in *.
  assert (picks Intn (Z.to_nat n) b = zdrop r (lb_polls b) ++ ztake r (lb_polls b)) as ->.
  2:{ rewrite Permutation_app_comm, ztake_zdrop. done. }
  apply list_eq_same_length with (n := Z.to_nat n); [|done|].
  { rewrite length_app. pose proof (zlen_zdrop r (lb_polls b)). pose proof (zlen_ztake r (lb_polls b)).
    unfold zlen in *. lia. }
  intros i x y Hin Hx Hy. rewrite Hi in Hx by lia. clear Hi Hlen.
  assert ((lb_accepted b + 1 + Z.of_nat i) mod n = if r + Z.of_nat i <? n then r + Z.of_nat i else r + Z.of_nat i - n) as Em.
  { rewrite Z.add_mod by lia. fold r. rewrite (Z.mod_small (Z.of_nat i)) by lia. destruct (Z.ltb_spec (r + Z.of_nat i) n).
    - rewrite Z.mod_small; lia.
    - rewrite <- (Z.mod_add _ (-1)) by lia. rewrite Z.mod_small; lia. }
  rewrite Em in Hx. unfold zdrop, ztake in Hy. unfold zlen in Hsz. destruct (Z.ltb_spec (r + Z.of_nat i) n).
  - rewrite lookup_app_l in Hy by (rewrite length_drop; lia). rewrite lookup_drop in Hy.
    replace (Z.to_nat r + i)%nat with (Z.to_nat (r + Z.of_nat i)) in Hy by lia. congruence.
  - rewrite lookup_app_r in Hy by (rewrite length_drop; lia). rewrite length_drop, lookup_take_lt in Hy by lia.
    replace (i - (length (lb_polls b) - Z.to_nat r))%nat with (Z.to_nat (r + Z.of_nat i - n)) in Hy by lia. congruence.
Qed.

(** ** Examples *)

Definition demo_manager : mstate :=
  MState (Manager 3 managerUninitialized (Some (newLoadbalance None [0%nat])) [0%nat]) (World 1 [0%nat] [] []).

Lemma demo_manager_ok : mgr_ok demo_manager.
Proof.
  constructor; simpl; try lia; try done.
  - eexists. split_and!; done.
  - intros p Hp. apply list_elem_of_singleton in Hp. lia.
  - apply NoDup_singleton.
Qed.

Lemma Pick_spec_witness :
  wp (Pick (λ _ _, 0) (λ _, false) 0) (λ p s', mgr_ok s' ∧ p ∈ m_polls (mg s') ∧ (p ∉ wd_closed (wd s')) ∧
    m_status (mg s') = managerInitialized ∧ zlen (m_polls (mg s')) = 3 ∧
    ∃ added, m_polls (mg s') = ztake 3 [0%nat] ++ added) demo_manager.
Proof.
  apply (Pick_spec (λ _ _, 0) (λ _, false) 0 demo_manager); [apply demo_manager_ok|constructor| |lia].
  intros b [= <-]. simpl. lia.
Defined.

Lemma RoundRobin_fair_witness : picks (λ _ _, 0) 3 (Balance RoundRobin [7; 8; 9]%nat 3 4) ≡ₚ [7; 8; 9]%nat.
Proof. apply (RoundRobin_fair _ (Balance RoundRobin [7; 8; 9]%nat 3 4)); simpl; done || lia. Defined.

(** When openPoll fails, Run closes the polls of the manager, but not those it
    has opened itself: poll 1 runs for ever.  The balancer is nil afterwards, and
    the Pick that called Run panics. *)
Definition failing_manager : mstate :=
  MState (Manager 3 managerUninitialized (Some (newLoadbalance None [0%nat])) [0%nat])
         (World 1 [0%nat] [] [true; false]).

Lemma Run_failure_leaks :
  (∃ s', Run (λ _, false) failing_manager = Ret (true, s') ∧
    wd_opened (wd s') = [1; 0]%nat ∧ wd_closed (wd s') = [0%nat] ∧ m_polls (mg s') = [] ∧ m_balance (mg s') = None) ∧
  Pick (λ _ _, 0) (λ _, false) 0 failing_manager = Panic.
Proof. split; [eexists; split_and!; vm_compute; reflexivity|reflexivity]. Qed.
