(* ===== verification/Config.v ===== *)
(** * Configuration

    Models Configure and the setters of src/netpoll_unix.go with Config of
    src/netpoll_config.go, and the choice of the runner in
    src/internal/runner/runner.go.  The pools of goroutines are named, not
    modelled: tasks are threads in the models that start them. *)

From stdpp Require Import strings.
From S2P Require Import Prelude GoMem Manager.

Open Scope Z_scope.

(** ** The runner *)

(** The value of RunTask: goRunTask, the pools of the two packages, or a
    function of the user. *)
Inductive runner := RGo | RBytedance | RCloudwego | RUser (id : nat).

(** [strconv.ParseBool]: [None] is an error, with the value false. *)
Definition ParseBool (s : string) : option bool :=
  if decide (s ∈ ["1"; "t"; "T"; "true"; "TRUE"; "True"]%string) then Some true
  else if decide (s ∈ ["0"; "f"; "F"; "false"; "FALSE"; "False"]%string) then Some false
  else None.

(** init of the package; [env]: the value of USE_CLOUDWEGO_GOPOOL. *)
Definition runner_init (env : string) : runner := if default false (ParseBool env) then RCloudwego else RBytedance.

(** ** The globals *)

Record globals := Globals {
  gl_defaultLinkBufferSize : Z;
  gl_featureAlwaysNoCopyRead : bool;
  gl_RunTask : runner;
  gl_logger : option nat;   (* [None]: os.Stderr *)
  gl_pollmanager : mstate;
}.

Record Config := MkConfig {
  PollerNum : Z;
  BufferSize : Z;
  Runner : option nat;
  LoggerOutput : option nat;
  cf_LoadBalance : Z;
  AlwaysNoCopyRead : bool;
}.

Definition set_manager (m : mstate) (g : globals) : globals :=
  Globals (gl_defaultLinkBufferSize g) (gl_featureAlwaysNoCopyRead g) (gl_RunTask g) (gl_logger g) m.
Definition set_bufferSize (x : Z) (g : globals) : globals :=
  Globals x (gl_featureAlwaysNoCopyRead g) (gl_RunTask g) (gl_logger g) (gl_pollmanager g).
Definition set_noCopy (x : bool) (g : globals) : globals :=
  Globals (gl_defaultLinkBufferSize g) x (gl_RunTask g) (gl_logger g) (gl_pollmanager g).

Definition SetRunner (r : runner) (g : globals) : globals :=
  Globals (gl_defaultLinkBufferSize g) (gl_featureAlwaysNoCopyRead g) r (gl_logger g) (gl_pollmanager g).
Definition SetLoggerOutput (l : nat) (g : globals) : globals :=
  Globals (gl_defaultLinkBufferSize g) (gl_featureAlwaysNoCopyRead g) (gl_RunTask g) (Some l) (gl_pollmanager g).
Definition DisableGopool (g : globals) : globals := SetRunner RGo g.

(** [pollmanager.SetLoadBalance(lb)] for an int: one that is not a constant of
    the package is none of an existing balancer. *)
Definition lb_of (lb : Z) : option LoadBalance :=
  if lb =? 0 then Some RoundRobin else if lb =? 1 then Some Random else None.
Definition mgr_SetLoadBalance (lb : Z) : M mstate unit :=
  match lb_of lb with
  | Some lb => Manager.SetLoadBalance lb
  | None => set_mg (λ m, Manager (m_numLoops m) (m_status m) (Some (newLoadbalance None (m_polls m))) (m_polls m))
  end.

(** A call of a method of the manager. *)
Definition on_manager {A} (m : M mstate A) : M globals A := λ g,
  match m (gl_pollmanager g) with
  | Ret (a, s) => Ret (a, set_manager s g)
  | Panic => Panic
  | OutOfFuel => OutOfFuel
  end.

(** [Configure(config)]: whether it returns an error. *)
Definition Configure (config : Config) : M globals bool :=
  err ← (if 0 <? PollerNum config then on_manager (SetNumLoops (PollerNum config)) else mret false);
  if err : bool then mret true
  else
    _ ← modify (λ g, if 0 <? BufferSize config then set_bufferSize (BufferSize config) g else g);
    _ ← modify (λ g, match Runner config with Some f => SetRunner (RUser f) g | None => g end);
    _ ← modify (λ g, match LoggerOutput config with Some l => SetLoggerOutput l g | None => g end);
    _ ← (if 0 <=? cf_LoadBalance config then on_manager (mgr_SetLoadBalance (cf_LoadBalance config)) else mret tt);
    _ ← modify (set_noCopy (AlwaysNoCopyRead config));
    mret false.

(** ** What they do *)

Lemma wp_on_manager {A} (m : M mstate A) (Q : A → globals → Prop) g :
  wp m (λ a s, Q a (set_manager s g)) (gl_pollmanager g) → wp (on_manager m) Q g.
Proof. unfold wp, on_manager. by destruct (m (gl_pollmanager g)) as [[??]| |]. Qed.

(** The balancer after SetLoadBalance. *)
Definition kind_of (lb : Z) : LoadBalance := if lb =? 1 then Random else RoundRobin.

Lemma wp_mgr_SetLoadBalance lb s : mgr_ok s →
  wp (mgr_SetLoadBalance lb) (λ _ s', mgr_ok s' ∧ (lb_kind <$> m_balance (mg s')) = Some (kind_of lb) ∧
    m_numLoops (mg s') = m_numLoops (mg s) ∧ m_polls (mg s') = m_polls (mg s) ∧ m_status (mg s') = m_status (mg s) ∧ wd s' = wd s) s.
Proof.
  intros Hok. destruct (mk_balance _ Hok) as (b&Eb&Ep&Es&Ea).
  assert (∀ olb, default RoundRobin olb = kind_of lb → wp (set_mg (λ m, Manager (m_numLoops m) (m_status m) (Some (newLoadbalance olb (m_polls m))) (m_polls m)))
    (λ _ s', mgr_ok s' ∧ (lb_kind <$> m_balance (mg s')) = Some (kind_of lb) ∧ m_numLoops (mg s') = m_numLoops (mg s) ∧
      m_polls (mg s') = m_polls (mg s) ∧ m_status (mg s') = m_status (mg s) ∧ wd s' = wd s) s) as Hset.
  { intros olb Hk. apply wp_modify. simpl. split_and!; try done.
    - destruct Hok. constructor; try done. eexists. split; [done|]. by destruct olb as [[]|].
    - rewrite <- Hk. by destruct olb as [[]|]. }
  unfold mgr_SetLoadBalance, lb_of. destruct (Z.eqb_spec lb 0) as [->|H0]; [|destruct (Z.eqb_spec lb 1) as [->|H1]].
  - unfold Manager.SetLoadBalance. apply wp_bind, wp_get. rewrite Eb. destruct (decide _) as [E|E]; [|by apply Hset].
    apply wp_ret. rewrite Eb. simpl. by rewrite E.
  - unfold Manager.SetLoadBalance. apply wp_bind, wp_get. rewrite Eb. destruct (decide _) as [E|E]; [|by apply Hset].
    apply wp_ret. rewrite Eb. simpl. by rewrite E.
  - apply Hset. unfold kind_of. by rewrite (proj2 (Z.eqb_neq _ _) H1).
Qed.

(** The manager after the number of pollers was set, and after the balancer. *)
Lemma wp_config_loops config g : mgr_ok (gl_pollmanager g) → PollerNum config < 2 ^ 31 →
  wp (if 0 <? PollerNum config then on_manager (SetNumLoops (PollerNum config)) else mret false) (λ err g1, err = false ∧
    ∃ s, g1 = set_manager s g ∧ mgr_ok s ∧ wd s = wd (gl_pollmanager g) ∧ m_polls (mg s) = m_polls (mg (gl_pollmanager g)) ∧
      m_balance (mg s) = m_balance (mg (gl_pollmanager g)) ∧ (m_numLoops (mg s), m_status (mg s)) =
      (if 0 <? PollerNum config then (PollerNum config, managerUninitialized)
       else (m_numLoops (mg (gl_pollmanager g)), m_status (mg (gl_pollmanager g))))) g.
Proof.
  intros Hok Hn. destruct (Z.ltb_spec 0 (PollerNum config)) as [Hp|Hp];
    [|apply wp_ret; split; [done|]; exists (gl_pollmanager g); by destruct g].
  apply wp_on_manager. unfold SetNumLoops. rewrite (proj2 (Z.ltb_ge _ _)) by lia. apply wp_bind, wp_modify, wp_ret.
  assert (FDOperator.int32 (PollerNum config) = PollerNum config) as -> by (unfold FDOperator.int32; rewrite Z.mod_small; lia).
  split; [done|]. eexists. split; [done|]. split_and!; try done. destruct Hok. constructor; try done; simpl; [lia|by left].
Qed.

Lemma wp_config_balance config g : mgr_ok (gl_pollmanager g) →
  wp (if 0 <=? cf_LoadBalance config then on_manager (mgr_SetLoadBalance (cf_LoadBalance config)) else mret tt)
    (λ _ g', ∃ s, g' = set_manager s g ∧ mgr_ok s ∧ (lb_kind <$> m_balance (mg s)) =
      (if 0 <=? cf_LoadBalance config then Some (kind_of (cf_LoadBalance config)) else lb_kind <$> m_balance (mg (gl_pollmanager g))) ∧
      m_numLoops (mg s) = m_numLoops (mg (gl_pollmanager g)) ∧ m_polls (mg s) = m_polls (mg (gl_pollmanager g)) ∧
      m_status (mg s) = m_status (mg (gl_pollmanager g)) ∧ wd s = wd (gl_pollmanager g)) g.
Proof.
  intros Hok. destruct (0 <=? _); [|apply wp_ret; exists (gl_pollmanager g); by destruct g].
  apply wp_on_manager. eapply wp_mono; [by apply wp_mgr_SetLoadBalance|]. intros ? s H. eexists. split; [done|]. exact H.
Qed.

(** What a configuration makes of the globals. *)
Record configured (config : Config) (g g' : globals) : Prop := Configured {
  cd_ok : mgr_ok (gl_pollmanager g');
  cd_world : wd (gl_pollmanager g') = wd (gl_pollmanager g);
  cd_polls : m_polls (mg (gl_pollmanager g')) = m_polls (mg (gl_pollmanager g));
  cd_loops : (m_numLoops (mg (gl_pollmanager g')), m_status (mg (gl_pollmanager g'))) =
    if 0 <? PollerNum config then (PollerNum config, managerUninitialized)
    else (m_numLoops (mg (gl_pollmanager g)), m_status (mg (gl_pollmanager g)));
  cd_balance : (lb_kind <$> m_balance (mg (gl_pollmanager g'))) =
    if 0 <=? cf_LoadBalance config then Some (kind_of (cf_LoadBalance config)) else lb_kind <$> m_balance (mg (gl_pollmanager g));
  cd_buffer : gl_defaultLinkBufferSize g' = if 0 <? BufferSize config then BufferSize config else gl_defaultLinkBufferSize g;
  cd_runner : gl_RunTask g' = from_option RUser (gl_RunTask g) (Runner config);
  cd_logger : gl_logger g' = from_option Some (gl_logger g) (LoggerOutput config);
  cd_feature : gl_featureAlwaysNoCopyRead g' = AlwaysNoCopyRead config;
}.

(** Configure never fails and never panics, for any number of pollers that
    fits in 32 bits and any int for the balancer.  It leaves the manager in
    order, with the polls it had, to be adjusted by the next Pick when the
    number is given; each parameter that is given is set, the others keep their
    values, but for the balancer, where 0 means round robin and only a negative
    number keeps the present one, and the feature, which is always set. *)
Theorem Configure_spec config g :
  mgr_ok (gl_pollmanager g) → PollerNum config < 2 ^ 31 →
  ∃ g', Configure config g = Ret (false, g') ∧ configured config g g'.
Proof.
  intros Hok Hn. enough (wp (Configure config) (λ r g', r = false ∧ configured config g g') g) as Hw.
  { apply wp_run in Hw as (r&g'&E&->&H). by exists g'. }
  unfold Configure. apply wp_bind. eapply wp_mono; [by apply wp_config_loops|]. intros err g1 (->&s&->&Hs&Ew&Ep&Eb&El).
  do 3 apply wp_bind, wp_modify. apply wp_bind. set (g2 := match LoggerOutput config with Some _ => _ | None => _ end).
  assert (gl_pollmanager g2 = s) as E2 by (unfold g2; by repeat case_match).
  eapply wp_mono; [apply wp_config_balance; by rewrite E2|]. rewrite E2. intros [] g3 (s3&->&Hs3&Ek&?&?&?&?).
  apply wp_bind, wp_modify, wp_ret. split; [done|]. constructor; simpl; rewrite ?Ek, ?Eb; try congruence.
  all: unfold g2; by repeat case_match.
Qed.

(** A manager with a poll; a configuration of two pollers and a runner. *)
Definition demo_globals : globals := Globals 4096 true RBytedance None
  (MState (Manager 1 managerInitialized (Some (Balance Random [0%nat] 1 0)) [0%nat]) (World 1 [0%nat] [] [])).

Lemma demo_globals_ok : mgr_ok (gl_pollmanager demo_globals).
Proof.
  constructor; simpl; [by eexists|lia|by right|done|intros p; set_unfold; intros [->|[]]; lia|apply NoDup_singleton].
Qed.

Lemma Configure_spec_witness :
  ∃ g', Configure (MkConfig 2 0 (Some 3%nat) None 0 false) demo_globals = Ret (false, g') ∧
    configured (MkConfig 2 0 (Some 3%nat) None 0 false) demo_globals g'.
Proof. apply (Configure_spec (MkConfig 2 0 (Some 3%nat) None 0 false) demo_globals demo_globals_ok). by vm_compute. Defined.
