(* ===== verification/Server.v ===== *)
(** * The server

    src/netpoll_server.go: what OnRead does with the answer of Accept, the
    goroutine that retries while there are no descriptors left, onAccept and
    the graceful Close, with FDOperator.Control of src/fd_operator.go for the
    listener.  The answers of Accept and isIdle, what other goroutines do to
    the map and which case select takes are parameters. *)

From stdpp Require Import gmap list.
From S2P Require Import Prelude Errors Threads.

Open Scope Z_scope.

(** ** The listener and the poller *)

(** Whether epoll knows the descriptor, and the counter FDOperator.detached. *)
Record lreg := LReg { l_registered : bool; l_detached : Z }.

(** [operator.Control(PollReadable)]: EPOLL_CTL_ADD *)
Definition listener_readable (x : lreg) : option Z * lreg :=
  if l_registered x then (Some EEXIST, x) else (None, LReg true (l_detached x)).

(** [operator.Control(PollDetach)]: EPOLL_CTL_DEL, the first time only *)
Definition listener_detach (x : lreg) : option Z * lreg :=
  let n := l_detached x + 1 in
  if 1 <? n then (None, LReg (l_registered x) n)
  else if l_registered x then (None, LReg false n) else (Some ENOENT, LReg false n).

(** What [ln.Accept()] answers: a connection (and whether it is active after
    its init), neither a connection nor an error, an errno (no text of which
    contains "closed"), or another error (and whether its text does). *)
Inductive accept_result :=
| AConn (fd : Z) (active : bool) | ANone | AErrno (e : Z) | AError (closed : bool).

Record server := Server {
  s_operator : lreg;
  s_connections : gset Z;      (* the keys of connections *)
  s_retries : nat;             (* the goroutines that retry *)
  s_quits : nat;               (* the calls of onQuit *)
}.

Definition set_operator x s := Server x (s_connections s) (s_retries s) (s_quits s).
Definition set_connections x s := Server (s_operator s) x (s_retries s) (s_quits s).
Definition set_retries x s := Server (s_operator s) (s_connections s) x (s_quits s).
Definition call_onQuit s := Server (s_operator s) (s_connections s) (s_retries s) (S (s_quits s)).

Definition isOutOfFdErr (a : accept_result) : bool :=
  match a with AErrno e => (e =? EMFILE) || (e =? ENFILE) | _ => false end.

Definition says_closed (a : accept_result) : bool :=
  match a with AError closed => closed | _ => false end.

(** [s.Run()], with a new operator; [add]: what EPOLL_CTL_ADD answers. *)
Definition server_Run (add : option Z) (s : server) : option Z * server :=
  match add with
  | None => (None, set_operator (LReg true 0) s)
  | Some e => (Some e, call_onQuit (set_operator (LReg false 0) s))
  end.

(** [s.onAccept(conn)], and the callback it adds for the close *)
Definition onAccept (fd : Z) (active : bool) (s : server) : server :=
  if active then set_connections ({[fd]} ∪ s_connections s) s else s.

Definition onConnClose (fd : Z) (s : server) : server :=
  set_connections (s_connections s ∖ {[fd]}) s.

(** [s.OnRead(p)]: whether it returns an error *)
Definition server_OnRead (a : accept_result) (s : server) : bool * server :=
  match a with
  | AConn fd active => (false, onAccept fd active s)
  | ANone => (false, s)
  | _ =>
      if isOutOfFdErr a then
        let '(cerr, x) := listener_detach (s_operator s) in
        let s := set_operator x s in
        if cerr is Some _ then (true, s) else (true, set_retries (S (s_retries s)) s)
      else if says_closed a then (true, call_onQuit (set_operator (listener_detach (s_operator s)).2 s))
      else (true, s)
  end.

(** [s.OnHup(p)] *)
Definition server_OnHup (s : server) : server := call_onQuit s.

(** ** The goroutine that retries *)

(** In milliseconds *)
Definition retryTimes : list Z := [0; 10; 50; 100; 200; 500; 1000].

(** One iteration at retryTimeIndex [i]: what it sleeps, and the index of the
    next iteration, if there is one. *)
Definition retry_round (i : nat) (a : accept_result) (s : server) : Z * option nat * server :=
  let sleep := if (0 <? i)%nat then retryTimes !!! i else 0 in
  match a with
  | ANone => (sleep, None, set_retries (pred (s_retries s)) (set_operator (listener_readable (s_operator s)).2 s))
  | AConn fd active => (sleep, Some 0%nat, onAccept fd active s)
  | _ => (sleep, Some (if (i + 1 <? length retryTimes)%nat then (i + 1)%nat else i), s)
  end.

(** The loop for as long as Accept answers [answers]: what it sleeps, whether
    the goroutine has ended, and the state. *)
Fixpoint retry (i : nat) (answers : list accept_result) (s : server) : list Z * bool * server :=
  match answers with
  | [] => ([], false, s)
  | a :: answers =>
      match retry_round i a s with
      | (sleep, None, s) => ([sleep], true, s)
      | (sleep, Some i, s) => let '(l, fin, s) := retry i answers s in (sleep :: l, fin, s)
      end
  end.

(** ** Close *)

(** In milliseconds *)
Definition waitTime (activeConn : Z) : Z :=
  if 1000 <? activeConn then 1000 else if activeConn <? 50 then 50 else activeConn.

Section close.
(** In the [k]-th round: whether isIdle holds of a connection, what the other
    goroutines do to the map before the next round (they store connections
    whose Accept was under way, and delete those that are closed elsewhere),
    and whether select takes ctx.Done. *)
Context (isIdle : nat → Z → bool) (others : nat → gset Z → gset Z) (ctx_done : nat → bool).

(** Whether nil is returned, in which round, what was waited for, the
    connections that were closed, with the round, and those that are left. *)
Record closing := Closing {
  cl_nil : bool; cl_round : nat; cl_waits : list Z; cl_closed : list (nat * Z); cl_left : gset Z }.

(** The connections a round closes, whose callbacks delete them, and those it
    counts in activeConn *)
Definition round_closes (k : nat) (conns : gset Z) : gset Z := filter (λ fd, isIdle k fd = true) conns.
Definition round_active (k : nat) (conns : gset Z) : gset Z := filter (λ fd, isIdle k fd = false) conns.
Definition activeConn (k : nat) (conns : gset Z) : Z := Z.of_nat (size (round_active k conns)).

Fixpoint Close_loop (fuel k : nat) (conns : gset Z) : option closing :=
  match fuel with
  | O => None
  | S fuel =>
      let closed := (λ fd, (k, fd)) <$> elements (round_closes k conns) in
      let conns' := conns ∖ round_closes k conns in
      if activeConn k conns =? 0 then Some (Closing true k [] closed conns')
      else if ctx_done k then Some (Closing false k [] closed conns')
      else
        r ← Close_loop fuel (S k) (others k conns');
        Some (Closing (cl_nil r) (cl_round r) (waitTime (activeConn k conns) :: cl_waits r) (closed ++ cl_closed r) (cl_left r))
  end.

(** [s.Close(ctx)]: ln.Close closes the descriptor, which epoll forgets. *)
Definition server_Close (fuel : nat) (s : server) : option (closing * server) :=
  let x := (listener_detach (s_operator s)).2 in
  r ← Close_loop fuel 0 (s_connections s);
  Some (r, set_connections (cl_left r) (set_operator (LReg false (l_detached x)) s)).

(** ** What they do *)

(** The map at the beginning of the round [k + n], when the rounds from [k] on
    all wait. *)
Fixpoint conns_at (n k : nat) (conns : gset Z) : gset Z :=
  match n with
  | O => conns
  | S n => conns_at n (S k) (others k (conns ∖ round_closes k conns))
  end.

Lemma closed_elem j k conns fd :
  (j, fd) ∈ (λ fd, (k, fd)) <$> elements (round_closes k conns) ↔ j = k ∧ fd ∈ conns ∧ isIdle k fd = true.
Proof.
  rewrite list_elem_of_fmap. unfold round_closes. setoid_rewrite elem_of_elements. setoid_rewrite elem_of_filter. naive_solver.
Qed.

Lemma active_left k conns : conns ∖ round_closes k conns = round_active k conns.
Proof.
  apply set_eq. intros fd. unfold round_closes, round_active. rewrite elem_of_difference, !elem_of_filter.
  destruct (isIdle k fd); naive_solver.
Qed.

Lemma activeConn_0 k conns : activeConn k conns = 0 ↔ conns ∖ round_closes k conns = ∅.
Proof.
  rewrite active_left. unfold activeConn. rewrite <- leibniz_equiv_iff, <- size_empty_iff. lia.
Qed.

Lemma waitTime_bounds n : 50 <= waitTime n <= 1000.
Proof. unfold waitTime. destruct (Z.ltb_spec 1000 n); [lia|]. destruct (Z.ltb_spec n 50); lia. Qed.

(** What a run of the rounds from [k] on, with [conns] in the map, gives. *)
Definition closes_from (k : nat) (conns : gset Z) (r : closing) : Prop :=
  let at_ j := conns_at (j - k) k conns in
  let n := cl_round r in
  (k ≤ n)%nat ∧
  (∀ j, (k ≤ j < n)%nat → (∃ fd, fd ∈ at_ j ∧ isIdle j fd = false) ∧ ctx_done j = false) ∧
  (∀ fd, fd ∈ cl_left r ↔ fd ∈ at_ n ∧ isIdle n fd = false) ∧
  (cl_nil r = true ↔ cl_left r = ∅) ∧ (cl_nil r = false → ctx_done n = true) ∧
  (∀ j fd, (j, fd) ∈ cl_closed r ↔ (k ≤ j ≤ n)%nat ∧ fd ∈ at_ j ∧ isIdle j fd = true) ∧
  length (cl_waits r) = (n - k)%nat ∧ Forall (λ t, 50 <= t <= 1000) (cl_waits r).

Lemma closes_last k conns (b : bool) :
  (b = true ↔ activeConn k conns = 0) → (b = false → ctx_done k = true) →
  closes_from k conns (Closing b k [] ((λ fd, (k, fd)) <$> elements (round_closes k conns)) (conns ∖ round_closes k conns)).
Proof.
  intros Hb Hd. unfold closes_from. cbn [cl_round cl_left cl_nil cl_closed cl_waits]. rewrite Nat.sub_diag. cbn [conns_at].
  split_and!; [done|lia| |by rewrite Hb, activeConn_0|done| |done|done].
  - intros fd. rewrite active_left. unfold round_active. rewrite elem_of_filter. tauto.
  - intros j fd. rewrite closed_elem. split.
    + intros (->&?&?). rewrite Nat.sub_diag. split; [lia|done].
    + intros (?&?&?). assert (j = k) as -> by lia. by rewrite Nat.sub_diag in *.
Qed.

Lemma closes_next k conns r :
  activeConn k conns ≠ 0 → ctx_done k = false → closes_from (S k) (others k (conns ∖ round_closes k conns)) r →
  closes_from k conns (Closing (cl_nil r) (cl_round r) (waitTime (activeConn k conns) :: cl_waits r)
    (((λ fd, (k, fd)) <$> elements (round_closes k conns)) ++ cl_closed r) (cl_left r)).
Proof.
  intros Ha Hd (Hk&Hg&Hl&Hn&He&Hc&Hw&Hf).
  assert (∀ j, (S k ≤ j)%nat → conns_at (j - k) k conns = conns_at (j - S k) (S k) (others k (conns ∖ round_closes k conns))) as Hat.
  { intros j Hj. by replace (j - k)%nat with (S (j - S k)) by lia. }
  unfold closes_from. cbn [cl_round cl_left cl_nil cl_closed cl_waits]. split_and!; [lia| | |done|done| | |].
  - intros j Hj. destruct (decide (j = k)) as [->|]; [|rewrite Hat by lia; apply Hg; lia].
    split; [|done]. rewrite Nat.sub_diag. cbn [conns_at]. rewrite activeConn_0, active_left in Ha.
    apply set_choose_L in Ha as [fd Hfd]. exists fd. unfold round_active in Hfd. apply elem_of_filter in Hfd. tauto.
  - intros fd. rewrite Hat by lia. apply Hl.
  - intros j fd. rewrite elem_of_app, closed_elem, Hc. destruct (decide (j = k)) as [->|].
    + rewrite Nat.sub_diag. cbn [conns_at]. split; [intros [?|[? _]]; [|lia]|intros; left]; intuition lia.
    + split; [intros [[? _]|(?&?)]; [done|]|intros [? ?]; right]; [rewrite Hat by lia|rewrite <- Hat by lia]; split; done || lia.
  - simpl. lia.
  - constructor; [apply waitTime_bounds|done].
Qed.

Lemma Close_loop_ok fuel : ∀ k conns r, Close_loop fuel k conns = Some r → closes_from k conns r.
Proof.
  induction fuel as [|fuel IH]; intros k conns r Hr; [done|]. simpl in Hr.
  destruct (Z.eqb_spec (activeConn k conns) 0) as [E|E]; [|destruct (ctx_done k) eqn:Ed].
  1,2: injection Hr as <-; by apply closes_last.
  destruct (Close_loop fuel (S k) _) as [r'|] eqn:Er; [|done]. injection Hr as <-. apply closes_next; auto.
Qed.

Lemma Close_loop_ends fuel : ∀ k conns n, (k ≤ n)%nat → ctx_done n = true → (n - k < fuel)%nat →
  is_Some (Close_loop fuel k conns).
Proof.
  induction fuel as [|fuel IH]; intros k conns n Hk Hd Hf; [lia|]. simpl.
  destruct (activeConn k conns =? 0); [eauto|]. destruct (ctx_done k) eqn:Ed; [eauto|].
  assert (k ≠ n) by congruence.
  destruct (IH (S k) (others k (conns ∖ round_closes k conns)) n) as [r ->]; [lia|done|lia|]. simpl. eauto.
Qed.

(** C26: Close of a server returns, at the latest in the round [n] in which the
    context is done.  It goes through the rounds as long as one finds a
    connection in use and the context is not done; it has closed exactly the
    connections that a round found idle, and those the last round found in use
    are left.  It returns nil when none is left, and otherwise the error of
    the context, which is done then.  Between two rounds it waits for 50
    milliseconds to a second, and the listener is registered no more. *)
Theorem server_Close_spec fuel n s :
  ctx_done n = true → (n < fuel)%nat →
  ∃ r s', server_Close fuel s = Some (r, s') ∧ l_registered (s_operator s') = false ∧
    s_connections s' = cl_left r ∧ (cl_round r ≤ n)%nat ∧ closes_from 0 (s_connections s) r.
Proof.
  intros Hd Hf. destruct (Close_loop_ends fuel 0 (s_connections s) n) as [r Er]; [lia|done|lia|].
  pose proof (Close_loop_ok _ _ _ _ Er) as Hr. unfold server_Close. rewrite Er.
  eexists r, _. split_and!; try done.
  destruct (decide (cl_round r ≤ n)%nat); [done|]. destruct Hr as (_&Hg&_). destruct (Hg n) as [_ ?]; [lia|congruence].
Qed.
End close.

(** ** Accepting again *)

(** What onAccept adds for the answers of Accept. *)
Definition accepts (answers : list accept_result) : gset Z :=
  list_to_set (omap (λ a, match a with AConn fd true => Some fd | _ => None end) answers).

Lemma retryTimes_bounds i : 0 <= retryTimes !!! i <= 1000.
Proof. do 7 (destruct i as [|i]; [done|]). done. Qed.

Lemma retry_conns answers : ∀ i s, ANone ∉ answers →
  ∃ l s', retry i (answers ++ [ANone]) s = (l, true, s') ∧
    s_connections s' = s_connections s ∪ accepts answers ∧
    s_operator s' = (listener_readable (s_operator s)).2 ∧
    s_retries s' = pred (s_retries s) ∧ s_quits s' = s_quits s ∧
    length l = S (length answers) ∧ Forall (λ t, 0 <= t <= 1000) l.
Proof.
  induction answers as [|a answers IH]; intros i s Hn.
  { simpl. eexists _, _. split; [done|]. unfold accepts. simpl. split_and!; try done; [set_solver|].
    constructor; [|done]. destruct (0 <? i)%nat; [apply retryTimes_bounds|lia]. }
  apply not_elem_of_cons in Hn as [Ha Hn]. cbn [app retry].
  assert (0 <= (if (0 <? i)%nat then retryTimes !!! i else 0) <= 1000) as Hs.
  { destruct (0 <? i)%nat; [apply retryTimes_bounds|lia]. }
  assert (∃ j s1, retry_round i a s = ((if (0 <? i)%nat then retryTimes !!! i else 0), Some j, s1) ∧
    s_connections s1 = s_connections s ∪ accepts [a] ∧ s_operator s1 = s_operator s ∧
    s_retries s1 = s_retries s ∧ s_quits s1 = s_quits s) as (j&s1&->&Hc&Ho&Hr&Hq).
  { destruct a as [fd []| | |]; [..|done| |]; eexists _, _; (split; [done|]); unfold accepts; simpl; split_and!; set_solver. }
  destruct (IH j s1 Hn) as (l&s'&->&Hc'&Ho'&Hr'&Hq'&Hl&Hf). eexists _, s'. split; [done|].
  rewrite Hc', Ho', Hr', Hq', Hc, Ho, Hr, Hq. split_and!; try done; [|simpl; lia|by constructor].
  unfold accepts. simpl. destruct a as [fd []| | |]; simpl; set_solver.
Qed.

(** The first time Accept runs out of descriptors, OnRead takes the
    listener from the poller and starts the goroutine.  That ends with the
    first call of Accept that finds no connection; until then it stores every
    active connection Accept answers, sleeps at most a second before each try,
    and afterwards the listener is registered again. *)
Theorem server_retry_spec s e answers :
  s_operator s = LReg true 0 → e = EMFILE ∨ e = ENFILE → ANone ∉ answers →
  ∃ s1 l s2, server_OnRead (AErrno e) s = (true, s1) ∧
    l_registered (s_operator s1) = false ∧ s_retries s1 = S (s_retries s) ∧
    retry 0 (answers ++ [ANone]) s1 = (l, true, s2) ∧
    s_connections s2 = s_connections s ∪ accepts answers ∧
    l_registered (s_operator s2) = true ∧ s_retries s2 = s_retries s ∧
    Forall (λ t, 0 <= t <= 1000) l.
Proof.
  intros Ho He Hn. destruct s as [o cs rs qs]. simpl in Ho. subst o.
  assert (server_OnRead (AErrno e) (Server (LReg true 0) cs rs qs) = (true, Server (LReg false 1) cs (S rs) qs)) as ->
    by (by destruct He; subst e).
  eexists. destruct (retry_conns answers 0 (Server (LReg false 1) cs (S rs) qs) Hn) as (l&s'&E&Hc&Ho&Hr&_&_&Hf).
  exists l, s'. split_and!; try done. by rewrite Ho.
Qed.

Definition demo_server : server := Server (LReg true 0) {[5; 7]} 0 0.
Definition demo_answers : list accept_result := [AErrno EMFILE; AConn 8 true; AConn 9 false].

Lemma server_retry_spec_witness :
  ∃ s1 l s2, server_OnRead (AErrno EMFILE) demo_server = (true, s1) ∧
    l_registered (s_operator s1) = false ∧ s_retries s1 = S (s_retries demo_server) ∧
    retry 0 (demo_answers ++ [ANone]) s1 = (l, true, s2) ∧
    s_connections s2 = s_connections demo_server ∪ accepts demo_answers ∧
    l_registered (s_operator s2) = true ∧ s_retries s2 = s_retries demo_server ∧ Forall (λ t, 0 <= t <= 1000) l.
Proof.
  apply (server_retry_spec demo_server EMFILE demo_answers); [done|by left|].
  unfold demo_answers. rewrite !not_elem_of_cons. split_and!; try done. apply not_elem_of_nil.
Defined.

(** [n] events of the listener while there are no descriptors. *)
Definition out_of_fds (n : nat) (s : server) : server := Nat.iter n (λ s, (server_OnRead (AErrno EMFILE) s).2) s.

Lemma OnRead_later r d cs rs qs : 1 <= d →
  server_OnRead (AErrno EMFILE) (Server (LReg r d) cs rs qs) = (true, Server (LReg r (d + 1)) cs (S rs) qs).
Proof.
  intros Hd. cbv -[Z.add Z.ltb]. by rewrite (proj2 (Z.ltb_lt 1 (d + 1))) by lia.
Qed.

(** From the second shortage of descriptors on, FDOperator.Control does not
    pass PollDetach on: the listener stays registered, although OnRead means
    to detach it, and since it is level-triggered the poller calls OnRead
    again and again, where each of the [n] calls starts another goroutine. *)
Theorem server_detaches_once s n :
  l_registered (s_operator s) = true → 1 <= l_detached (s_operator s) →
  l_registered (s_operator (out_of_fds n s)) = true ∧ s_retries (out_of_fds n s) = (n + s_retries s)%nat.
Proof.
  intros Hr Hd. unfold out_of_fds.
  enough (∀ t, t = Nat.iter n (λ s, (server_OnRead (AErrno EMFILE) s).2) s →
    l_registered (s_operator t) = true ∧ 1 <= l_detached (s_operator t) ∧ s_retries t = (n + s_retries s)%nat) by naive_solver.
  induction n as [|n IH]; intros t ->; [done|]. rewrite Nat.iter_succ. destruct (IH _ eq_refl) as (H1&H2&H3).
  destruct (Nat.iter n _ s) as [[r d] cs rs qs]. cbn [s_operator l_detached l_registered s_retries] in *.
  rewrite OnRead_later by done. simpl. split_and!; [done|lia|by rewrite H3].
Qed.

Lemma server_detaches_once_witness :
  l_registered (s_operator (out_of_fds 3 (Server (LReg true 1) ∅ 0 0))) = true ∧
  s_retries (out_of_fds 3 (Server (LReg true 1) ∅ 0 0)) = 3%nat.
Proof. apply (server_detaches_once (Server (LReg true 1) ∅ 0 0) 3); [done|simpl; lia]. Defined.

(** A goroutine that retries does not end once Accept only fails, which is
    what it does after ln.Close: Close of the server leaves it behind. *)
Lemma retry_never_ends es : ∀ i s, ∃ l, retry i (map AErrno es) s = (l, false, s).
Proof.
  induction es as [|e es IH]; intros i s; [by exists []|]. cbn [map retry retry_round].
  destruct (IH (if (i + 1 <? length retryTimes)%nat then (i + 1)%nat else i) s) as [l ->]. eauto.
Qed.

(** The second of two connections is in use in the first two rounds. *)
Definition demo_idle (k : nat) (fd : Z) : bool := (fd =? 5) || (2 <=? k)%nat.

Lemma server_Close_spec_witness :
  ∃ r s', server_Close demo_idle (λ _ m, m) (λ k, (5 <=? k)%nat) 6 demo_server = Some (r, s') ∧
    l_registered (s_operator s') = false ∧ s_connections s' = cl_left r ∧ (cl_round r ≤ 5)%nat ∧
    closes_from demo_idle (λ _ m, m) (λ k, (5 <=? k)%nat) 0 (s_connections demo_server) r.
Proof. apply (server_Close_spec demo_idle (λ _ m, m) (λ k, (5 <=? k)%nat) 6 5); [done|lia]. Defined.

(** ** A connection that closes while it is accepted *)

(** What onAccept and whoever closes the connection share: whether the
    connection is active, whether the close callback was added, and whether
    the map has the connection. *)
Record accepting := Accepting { a_active : bool; a_callback : bool; a_stored : bool }.

(** onAccept after init, and the close of the connection (closeBy, and then
    the callbacks that closeCallback loads). *)
Inductive apc := OaActive | OaAdd | OaStore | OaDone | CcClose | CcLoad | CcDelete | CcDone.

Definition accept_step (s : accepting) (p : apc) (_ : unit) : option (accepting * apc * list apc) :=
  match p with
  | OaActive => Some (s, if a_active s then OaAdd else OaDone, [])
  | OaAdd => Some (Accepting (a_active s) true (a_stored s), OaStore, [])
  | OaStore => Some (Accepting (a_active s) (a_callback s) true, OaDone, [])
  | CcClose => Some (Accepting false (a_callback s) (a_stored s), CcLoad, [])
  | CcLoad => Some (s, if a_callback s then CcDelete else CcDone, [])
  | CcDelete => Some (Accepting (a_active s) (a_callback s) false, CcDone, [])
  | OaDone | CcDone => None
  end.

(** A connection that is closed after onAccept has looked whether it is
    active stays in the map for ever, whether its callbacks are loaded before
    onAccept adds one or run before onAccept stores the connection. *)
Lemma accept_close_race :
  let s := Accepting true false false in
  let stale := Some (Cfg (Accepting false true true) [OaDone; CcDone]) in
  run_acts accept_step (λ _, false) [Run 0 (); Run 1 (); Run 1 (); Run 0 (); Run 0 ()] (Cfg s [OaActive; CcClose]) = stale ∧
  run_acts accept_step (λ _, false) [Run 0 (); Run 0 (); Run 1 (); Run 1 (); Run 1 (); Run 0 ()] (Cfg s [OaActive; CcClose]) = stale.
Proof. done. Qed.
