(* ===== verification/EventLoop.v ===== *)
(** * The event loop

    eventLoop of src/netpoll_unix.go: Serve, ServeFifo, ServeAll, Shutdown,
    GetFifoManager and the callbacks onServerQuit and onFifoManagerQuit, as
    threads that share the fields, the mutex and the channel [stop].  What
    registering the listener and closing the server and the manager answer is
    the choice of the step.  Serve and ServeAll are modelled from where
    ConvertListener has succeeded. *)

From Stdlib Require Import ZifyBool.
From S2P Require Import Prelude Threads.

Open Scope Z_scope.

(** The fields; of svr and fifoManager, whether they are set; [ev_stop]: the
    error in the channel, whose capacity is 1. *)
Record eventLoop := EventLoop {
  ev_lock : bool;
  ev_svr : bool;
  ev_fifoManager : bool;
  ev_svrRunning : bool;
  ev_fifoRunning : bool;
  ev_forceQuit : bool;
  ev_stop : option (option Z);
}.

Definition set_lock x s := EventLoop x (ev_svr s) (ev_fifoManager s) (ev_svrRunning s) (ev_fifoRunning s) (ev_forceQuit s) (ev_stop s).
Definition set_stop x s := EventLoop (ev_lock s) (ev_svr s) (ev_fifoManager s) (ev_svrRunning s) (ev_fifoRunning s) (ev_forceQuit s) x.
Definition serve_server s := EventLoop (ev_lock s) true (ev_fifoManager s) true (ev_fifoRunning s) (ev_forceQuit s) (ev_stop s).
Definition serve_fifo s := EventLoop (ev_lock s) (ev_svr s) true (ev_svrRunning s) true (ev_forceQuit s) (ev_stop s).
Definition shut s := EventLoop (ev_lock s) false false false false true (ev_stop s).

(** [NewEventLoop] *)
Definition new_evl : eventLoop := EventLoop false false false false false false None.

(** Which of the two has quit. *)
Inductive part := PServer | PFifo.

Definition stopped (w : part) (s : eventLoop) : eventLoop :=
  match w with
  | PServer => EventLoop (ev_lock s) (ev_svr s) (ev_fifoManager s) false (ev_fifoRunning s) (ev_forceQuit s) (ev_stop s)
  | PFifo => EventLoop (ev_lock s) (ev_svr s) (ev_fifoManager s) (ev_svrRunning s) false (ev_forceQuit s) (ev_stop s)
  end.

(** [evl.quit(err)] *)
Definition quit (err : option Z) (s : eventLoop) : eventLoop :=
  if ev_stop s is Some _ then s else set_stop (Some err) s.

(** The loop quits when it has to, or when nothing runs. *)
Definition due (s : eventLoop) : bool := ev_forceQuit s || (negb (ev_svrRunning s) && negb (ev_fifoRunning s)).

(** [evl.checkQuit(err)] *)
Definition checkQuit (err : option Z) (s : eventLoop) : eventLoop := if due s then quit err s else s.

(** The error of Shutdown *)
Inductive shut_err := ShutNil | ShutOne (e : Z) | ShutBoth (svrErr fifoErr : Z).

Definition combine_errors (svrErr fifoErr : option Z) : shut_err :=
  match svrErr, fifoErr with
  | None, None => ShutNil
  | None, Some e | Some e, None => ShutOne e
  | Some e, Some e' => ShutBoth e e'
  end.

(** Who calls onQuit: Run, called by Serve; fifoManager.Close, called by
    Shutdown; or the poller or a user of the manager. *)
Inductive caller := KServe | KShutdown (svrErr fifoErr : option Z) | KOther.

Inductive epc :=
(* ServeFifo, and Serve and ServeAll *)
| FLock | FBody | SLock (all : bool) | SBody (all : bool) | SRun
| VUnlock | VWait | VReturned (err : option Z)
(* onServerQuit and onFifoManagerQuit *)
| QLock (w : part) (err : option Z) (k : caller) | QBody (w : part) (err : option Z) (k : caller) | QUnlock (k : caller) | QDone
(* the poller, for a listener that is registered *)
| Armed
(* Shutdown *)
| DLock | DBody | DUnlock (svr fifo : bool) | DSvr (svr fifo : bool) | DFifo (fifo : bool) (svrErr : option Z)
| DQuit (svrErr fifoErr : option Z) | DReturned (err : shut_err)
(* GetFifoManager, whose caller may close the manager it got *)
| GLock | GBody | GUnlock (found : bool) | GReturned (found : bool).

Definition acquire (s : eventLoop) (p : epc) : option (eventLoop * epc * list epc) :=
  if ev_lock s then None else Some (set_lock true s, p, []).

Definition estep (s : eventLoop) (p : epc) (c : option Z) : option (eventLoop * epc * list epc) :=
  match p with
  | FLock => acquire s FBody
  | FBody => Some (serve_fifo s, VUnlock, [])
  | SLock all => acquire s (SBody all)
  | SBody all => Some (if all then serve_fifo (serve_server s) else serve_server s, SRun, [])
  | SRun =>
      match c with
      | None => Some (s, VUnlock, [Armed])
      | Some e => Some (s, QLock PServer (Some e) KServe, [])
      end
  | VUnlock => Some (set_lock false s, VWait, [])
  | VWait =>
      match ev_stop s with
      | Some err => Some (set_stop None s, VReturned err, [])
      | None => None
      end
  | QLock w err k => acquire s (QBody w err k)
  | QBody w err k => Some (checkQuit err (stopped w s), QUnlock k, [])
  | QUnlock k =>
      Some (set_lock false s, match k with KServe => VUnlock | KShutdown e e' => DQuit e e' | KOther => QDone end, [])
  | Armed => Some (s, Armed, [QLock PServer c KOther])
  | DLock => acquire s DBody
  | DBody => Some (shut s, DUnlock (ev_svr s) (ev_fifoManager s), [])
  | DUnlock svr fifo => Some (set_lock false s, DSvr svr fifo, [])
  | DSvr svr fifo => Some (s, DFifo fifo (if svr then c else None), [])
  | DFifo fifo svrErr =>
      Some (s, if fifo : bool then QLock PFifo c (KShutdown svrErr c) else DQuit svrErr None, [])
  | DQuit svrErr fifoErr => Some (quit None s, DReturned (combine_errors svrErr fifoErr), [])
  | GLock => acquire s GBody
  | GBody => Some (s, GUnlock (ev_fifoManager s), [])
  | GUnlock found => Some (set_lock false s, GReturned found, [])
  | GReturned true => Some (s, GReturned true, [QLock PFifo c KOther])
  | VReturned _ | QDone | DReturned _ | GReturned false => None
  end.

Definition estarts (p : epc) : bool :=
  match p with FLock | SLock _ | DLock | GLock => true | _ => false end.

Definition evl_cfg := config eventLoop epc.
Definition evl_reach : evl_cfg → evl_cfg → Prop := reach estep estarts.
Definition evl_init : evl_cfg := Cfg new_evl [].

(** ** The mutex *)

(** The threads that have locked it, and how often; Run is called with the
    lock held. *)
Definition holds (p : epc) : nat :=
  match p with
  | QBody _ _ KServe | QUnlock KServe => 2
  | FBody | SBody _ | SRun | VUnlock | QLock _ _ KServe | QBody _ _ _ | QUnlock _ | DBody | DUnlock _ _ | GBody | GUnlock _ => 1
  | _ => 0
  end.

Definition evl_lock_inv (c : evl_cfg) : Prop := tally holds (threads c) = if ev_lock (shared c) then 1%nat else 0%nat.

Lemma quit_fields err s : ∃ x, quit err s = set_stop x s ∧ x ≠ None ∧ (ev_stop s ≠ None → x = ev_stop s).
Proof.
  unfold quit. destruct s as [l a b c d e [x|]]; simpl; [by exists (Some x)|by exists (Some err)].
Qed.

#[local] Arguments checkQuit : simpl never.
#[local] Arguments quit : simpl never.

Lemma checkQuit_cases err s :
  (due s = false ∧ checkQuit err s = s) ∨ (due s = true ∧ ∃ x, checkQuit err s = set_stop (Some x) s).
Proof.
  unfold checkQuit. destruct (due s); [right|by left]. split; [done|].
  destruct (quit_fields err s) as ([x|]&->&?&_); [by exists x|done].
Qed.

Lemma quit_fills err s : ∃ x, quit err s = set_stop (Some x) s.
Proof. destruct (quit_fields err s) as ([x|]&->&?&_); [by exists x|done]. Qed.

(** The step that [Hs] describes, with the calls of quit resolved. *)
Ltac evl_step Hs :=
  match type of Hs with estep _ ?p _ = _ => destruct p end;
  cbn [estep] in Hs; unfold acquire in Hs;
  repeat match type of Hs with
  | context [checkQuit ?e ?s] => let E := fresh "E" in destruct (checkQuit_cases e s) as [[? E]|[? [? E]]]; rewrite E in Hs; clear E
  | context [quit ?e ?s] => let E := fresh "E" in destruct (quit_fills e s) as [? E]; rewrite E in Hs; clear E
  end; repeat match goal with w : part |- _ => destruct w | k : caller |- _ => destruct k end;
  repeat case_match; simplify_eq/=.

Lemma evl_lock_inv_step s ths i p c s' p' sp :
  evl_lock_inv (Cfg s ths) → ths !! i = Some p → estep s p c = Some (s', p', sp) →
  evl_lock_inv (Cfg s' (<[i := p']> ths ++ sp)).
Proof.
  unfold evl_lock_inv. cbn [shared threads]. intros HI Hi Hs. count holds Hi Hs.
  destruct s as [l sv fm sr fr fq st]. evl_step Hs; lia.
Qed.

Lemma evl_lock_inv_start s ths p : evl_lock_inv (Cfg s ths) → estarts p = true → evl_lock_inv (Cfg s (ths ++ [p])).
Proof. unfold evl_lock_inv. cbn [shared threads]. rewrite tally_start. intros HI Hp. destruct p; simplify_eq/=; lia. Qed.

Lemma evl_lock_inv_reach c : evl_reach evl_init c → evl_lock_inv c.
Proof.
  apply (reach_inv_from _ _ evl_init); [|exact evl_lock_inv_start|done].
  intros s ths i p ch s' p' sp _. apply evl_lock_inv_step.
Qed.

(** ** Quitting *)

(** Calls of Serve, ServeFifo and ServeAll, those that have not set their
    fields yet, and those that have returned. *)
Definition serving (p : epc) : nat :=
  match p with
  | FLock | FBody | SLock _ | SBody _ | SRun | VUnlock | VWait | VReturned _
  | QLock _ _ KServe | QBody _ _ KServe | QUnlock KServe => 1
  | _ => 0
  end.
Definition before (p : epc) : nat := match p with FLock | FBody | SLock _ | SBody _ => 1 | _ => 0 end.
Definition returned (p : epc) : nat := match p with VReturned _ => 1 | _ => 0 end.

(** A Shutdown that has set forceQuit and has not called quit yet. *)
Definition shutting (p : epc) : nat :=
  match p with
  | DUnlock _ _ | DSvr _ _ | DFifo _ _ | DQuit _ _ | QLock _ _ (KShutdown _ _) | QBody _ _ (KShutdown _ _) | QUnlock (KShutdown _ _) => 1
  | _ => 0
  end.

(** Who may call onQuit apart from Shutdown. *)
Definition quits (p : epc) : nat :=
  match p with
  | SRun | Armed | QLock _ _ KServe | QBody _ _ KServe | QLock _ _ KOther | QBody _ _ KOther | GUnlock true | GReturned true => 1
  | _ => 0
  end.

Definition full (s : eventLoop) : bool := if ev_stop s is Some _ then true else false.
Definition has_quit (c : evl_cfg) : Prop := full (shared c) = true ∨ (1 ≤ tally returned (threads c))%nat.

Definition shut_inv (c : evl_cfg) : Prop :=
  ((1 ≤ tally shutting (threads c))%nat → ev_forceQuit (shared c) = true) ∧
  (ev_forceQuit (shared c) = true → tally shutting (threads c) = 0%nat → has_quit c).

Lemma shut_inv_step s ths i p c s' p' sp :
  shut_inv (Cfg s ths) → ths !! i = Some p → estep s p c = Some (s', p', sp) →
  shut_inv (Cfg s' (<[i := p']> ths ++ sp)).
Proof.
  unfold shut_inv, has_quit, full. cbn [shared threads]. intros [H1 H2] Hi Hs.
  count shutting Hi Hs. count returned Hi Hs. destruct s as [l sv fm sr fr fq st].
  evl_step Hs; try destruct st; simpl in *; lia.
Qed.

Lemma shut_inv_start s ths p : shut_inv (Cfg s ths) → estarts p = true → shut_inv (Cfg s (ths ++ [p])).
Proof.
  unfold shut_inv, has_quit. cbn [shared threads]. rewrite !tally_start. intros [H1 H2] Hp.
  destruct p; simplify_eq/=; rewrite !Nat.add_0_r; done.
Qed.

Lemma shut_inv_reach c : evl_reach evl_init c → shut_inv c.
Proof.
  apply (reach_inv_from _ _ evl_init); [|exact shut_inv_start|].
  - intros s ths i p ch s' p' sp _. apply shut_inv_step.
  - split; unfold tally; simpl; [lia|done].
Qed.

(** With one call of Serve, ServeFifo or ServeAll. *)
Definition one_inv (c : evl_cfg) : Prop :=
  (tally serving (threads c) ≤ 1)%nat →
  (tally serving (threads c) = tally before (threads c) →
     tally quits (threads c) = 0%nat ∧ ev_fifoManager (shared c) = false ∧ (full (shared c) = true → ev_forceQuit (shared c) = true)) ∧
  (has_quit c → due (shared c) = true) ∧
  ((tally before (threads c) < tally serving (threads c))%nat → due (shared c) = true →
     tally shutting (threads c) = 0%nat → has_quit c).

Lemma served_le ths : (tally before ths + tally returned ths ≤ tally serving ths)%nat.
Proof. rewrite <- tally_plus. apply tally_le. intros p. destruct p; simpl; repeat case_match; lia. Qed.

Lemma one_inv_step s ths i p c s' p' sp :
  shut_inv (Cfg s ths) → one_inv (Cfg s ths) → ths !! i = Some p → estep s p c = Some (s', p', sp) →
  one_inv (Cfg s' (<[i := p']> ths ++ sp)).
Proof.
  unfold shut_inv, one_inv, has_quit, full. cbn [shared threads]. intros [S1 S2] HI Hi Hs Hone.
  pose proof (served_le ths). pose proof (served_le (<[i := p']> ths ++ sp)).
  count serving Hi Hs. count before Hi Hs. count returned Hi Hs. count shutting Hi Hs. count quits Hi Hs.
  assert (serving p' = serving p ∧ tally serving sp = 0%nat) as [Es Esp].
  { destruct s as [l sv fm sr fr fq st]. clear -Hs. evl_step Hs; done. }
  destruct HI as (Ha&Hb&Hd); [lia|]. destruct s as [l sv fm sr fr fq st].
  evl_step Hs; unfold due in *; try destruct st; simpl in *; lia || (destruct fm; lia).
Qed.

Lemma one_inv_start s ths p : one_inv (Cfg s ths) → estarts p = true → one_inv (Cfg s (ths ++ [p])).
Proof.
  unfold one_inv, has_quit. cbn [shared threads]. rewrite !tally_start. intros HI Hp Hone.
  pose proof (served_le ths). destruct HI as (Ha&Hb&Hd); [lia|]. destruct p; simplify_eq/=; lia.
Qed.

Lemma one_inv_reach c : evl_reach evl_init c → one_inv c.
Proof.
  apply (reach_inv_from _ _ evl_init); [|exact one_inv_start|].
  - intros s ths i p ch s' p' sp Hr. apply one_inv_step. by apply shut_inv_reach.
  - intros _. unfold has_quit, tally. simpl. split_and!; [done|intros [?|?]; [done|lia]|lia].
Qed.

(** C22: With one call of Serve, ServeFifo or ServeAll, waiting for the end, and
    no Shutdown under way, an error (or nil) is there for it to return exactly
    when the loop has to quit: after Shutdown, or when neither the server nor
    the fifo manager runs any more.  So it does not return while one of them
    runs, and it does not miss the end. *)
Theorem evl_quits c i :
  evl_reach evl_init c → (tally serving (threads c) ≤ 1)%nat → tally shutting (threads c) = 0%nat →
  threads c !! i = Some VWait →
  (∃ err, estep (shared c) VWait None = Some (set_stop None (shared c), VReturned err, [])) ↔
  ev_forceQuit (shared c) = true ∨ (ev_svrRunning (shared c) = false ∧ ev_fifoRunning (shared c) = false).
Proof.
  intros Hr Hone Hsh Hi. destruct (one_inv_reach c Hr Hone) as (_&Hb&Hd).
  pose proof (tally_pos serving _ _ _ Hi) as Hs. simpl in Hs.
  assert (∀ f, (∀ q, f q ≤ serving q)%nat → tally f (threads c) = f VWait) as Hone'.
  { intros f Hf. by apply (tally_single f serving _ i). }
  assert (tally before (threads c) = 0%nat) as Eb by (apply Hone'; intros q; destruct q; simpl; lia).
  assert (tally returned (threads c) = 0%nat) as Er by (apply Hone'; intros q; destruct q; simpl; lia).
  unfold has_quit in *. rewrite Er in *. destruct c as [[l sv fm sr fr fq st] ths]. unfold due, full in *. simpl in *.
  destruct st as [err|]; simpl in *; split; [intros _|by eauto|by intros [err ?]|]; lia.
Qed.

(** A server and no fifos: the server quits, and Serve may return. *)
Definition demo_quit : list (act epc (option Z)) :=
  [Start (SLock false); Run 0 None; Run 0 None; Run 0 None; Run 0 None; Run 1 (Some 9); Run 2 None; Run 2 None; Run 2 None].

Definition demo_quit_cfg : evl_cfg := default evl_init (run_acts estep estarts demo_quit evl_init).

Lemma demo_quit_reach : evl_reach evl_init demo_quit_cfg.
Proof. by apply (run_acts_reach _ _ demo_quit). Qed.

Lemma evl_quits_witness :
  (∃ err, estep (shared demo_quit_cfg) VWait None = Some (set_stop None (shared demo_quit_cfg), VReturned err, [])) ↔
  ev_forceQuit (shared demo_quit_cfg) = true ∨
    (ev_svrRunning (shared demo_quit_cfg) = false ∧ ev_fifoRunning (shared demo_quit_cfg) = false).
Proof. apply (evl_quits demo_quit_cfg 0 demo_quit_reach); [vm_compute; lia|by vm_compute|by vm_compute]. Defined.

(** When registering the listener fails, Run calls onServerQuit while Serve
    holds the mutex that onServerQuit locks: Serve does not return, whatever
    the other threads do, and none of them gets the mutex any more. *)
Theorem serve_failure_deadlocks c i e :
  evl_reach evl_init c → threads c !! i = Some (QLock PServer (Some e) KServe) →
  ∀ c', evl_reach c c' → threads c' !! i = Some (QLock PServer (Some e) KServe) ∧ ev_lock (shared c') = true.
Proof.
  intros Hr Hi c' Hr'.
  assert (∀ c1, evl_lock_inv c1 → threads c1 !! i = Some (QLock PServer (Some e) KServe) → ev_lock (shared c1) = true) as Hl.
  { unfold evl_lock_inv. intros c1 HI H1. pose proof (tally_pos holds _ _ _ H1) as Hp. simpl in Hp. destruct (ev_lock _); [done|lia]. }
  enough (evl_lock_inv c' ∧ threads c' !! i = Some (QLock PServer (Some e) KServe)) as [? ?] by auto.
  apply (reach_inv estep estarts (λ c, evl_lock_inv c ∧ threads c !! i = Some (QLock PServer (Some e) KServe))) with c;
    [..|done|split; [by apply evl_lock_inv_reach|done]].
  - intros s ths j p ch s' p' sp [HI H1] Hj Hs. split; [by eapply evl_lock_inv_step|]. cbn [threads] in *.
    apply lookup_app_l_Some. destruct (decide (i = j)) as [->|]; [|by rewrite list_lookup_insert_ne].
    simplify_eq. pose proof (Hl _ HI H1) as E. cbn [shared] in E. cbn [estep] in Hs. unfold acquire in Hs. by rewrite E in Hs.
  - intros s ths p [HI H1] Hp. split; [by apply evl_lock_inv_start|]. by apply lookup_app_l_Some.
Qed.

Definition demo_fail : list (act epc (option Z)) := [Start (SLock false); Run 0 None; Run 0 None; Run 0 (Some 12)].
Definition demo_fail_cfg : evl_cfg := default evl_init (run_acts estep estarts demo_fail evl_init).

Lemma demo_fail_reach : evl_reach evl_init demo_fail_cfg.
Proof. by apply (run_acts_reach _ _ demo_fail). Qed.

(** Shutdown is called later. *)
Definition demo_stuck_cfg : evl_cfg := default demo_fail_cfg (run_acts estep estarts [Start DLock] demo_fail_cfg).

Lemma demo_stuck_reach : evl_reach demo_fail_cfg demo_stuck_cfg.
Proof. by apply (run_acts_reach _ _ [Start DLock]). Qed.

Lemma serve_failure_deadlocks_witness :
  threads demo_stuck_cfg !! 0%nat = Some (QLock PServer (Some 12) KServe) ∧ ev_lock (shared demo_stuck_cfg) = true.
Proof. by apply (serve_failure_deadlocks demo_fail_cfg 0 12 demo_fail_reach eq_refl demo_stuck_cfg demo_stuck_reach). Defined.

(** Serve and ServeFifo wait for the same channel, which holds one error,
    and quit drops a second one: there is an execution in which Shutdown and
    Serve have returned, the server and the manager are gone, and ServeFifo
    still waits on the empty channel. *)
Theorem shutdown_leaves_waiter :
  ∃ c, evl_reach evl_init c ∧ threads c !! 0%nat = Some (VReturned None) ∧ threads c !! 1%nat = Some VWait ∧
    DReturned ShutNil ∈ threads c ∧ ev_stop (shared c) = None ∧
    ev_svr (shared c) = false ∧ ev_fifoManager (shared c) = false.
Proof.
  set (acts := [Start (SLock false); Start FLock; Start DLock;
    Run 0 None; Run 0 None; Run 0 None; Run 0 None; Run 1 None; Run 1 None; Run 1 None;
    Run 2 None; Run 2 None; Run 2 None; Run 2 None; Run 2 None; Run 2 None; Run 2 None; Run 2 None; Run 2 None; Run 0 None] : list (act epc (option Z))).
  destruct (run_acts estep estarts acts evl_init) as [c|] eqn:E; [|by vm_compute in E].
  exists c. split; [by apply (run_acts_reach _ _ acts)|]. vm_compute in E. injection E as <-. split_and!; try done.
  repeat constructor.
Qed.
