(* ===== verification/NetAddr.v ===== *)
(** * Addresses

    The addresses of src/net_tcpsock.go, src/net_unixsock.go and
    src/net_sock.go and their conversions from and to the socket addresses of
    package syscall, with what they use of net.IP.  An IP is a slice of bytes,
    [None] if it is nil.  The names of the network interfaces are a
    parameter. *)

From stdpp Require Import strings.
From Stdlib Require Import Ascii.
From S2P Require Import Prelude.

Open Scope Z_scope.

(** ** net.IP *)

Definition IP := option (list Z).

Definition ip_bytes (ip : IP) : list Z := match ip with Some l => l | None => [] end.
Definition ip_len (ip : IP) : nat := length (ip_bytes ip).

Definition v4InV6Prefix : list Z := replicate 10 0 ++ [0xff; 0xff].

(** [net.IPv4] has the form of 16 bytes. *)
Definition IPv4 (a b c d : Z) : IP := Some (v4InV6Prefix ++ [a; b; c; d]).
Definition IPv4zero : IP := IPv4 0 0 0 0.
Definition IPv6zero : IP := Some (replicate 16 0).
Definition IPv6loopback : IP := Some (replicate 15 0 ++ [1]).

Definition To4 (ip : IP) : IP :=
  if decide (ip_len ip = 4%nat) then ip
  else if decide (ip_len ip = 16%nat ∧ take 12 (ip_bytes ip) = v4InV6Prefix) then Some (drop 12 (ip_bytes ip))
  else None.

Definition To16 (ip : IP) : IP :=
  if decide (ip_len ip = 4%nat) then Some (v4InV6Prefix ++ ip_bytes ip)
  else if decide (ip_len ip = 16%nat) then ip
  else None.

Definition Equal (ip x : IP) : bool :=
  if decide (ip_len ip = ip_len x) then bool_decide (ip_bytes ip = ip_bytes x)
  else if decide (ip_len ip = 4%nat ∧ ip_len x = 16%nat) then bool_decide (ip_bytes x = v4InV6Prefix ++ ip_bytes ip)
  else if decide (ip_len ip = 16%nat ∧ ip_len x = 4%nat) then bool_decide (ip_bytes ip = v4InV6Prefix ++ ip_bytes x)
  else false.

Definition IsUnspecified (ip : IP) : bool := Equal ip IPv4zero || Equal ip IPv6zero.

(** ** The addresses *)

Record TCPAddr := MkTCPAddr { a_IP : IP; a_Port : Z; a_Zone : string }.
Record UnixAddr := MkUnixAddr { u_Name : string; u_Net : string }.

(** A value of the interface [sockaddr], which may hold a nil pointer. *)
Inductive saddr := STCP (a : option TCPAddr) | SUnix (a : option UnixAddr).

#[global] Instance TCPAddr_eq_dec : EqDecision TCPAddr.
Proof. solve_decision. Defined.
#[global] Instance UnixAddr_eq_dec : EqDecision UnixAddr.
Proof. solve_decision. Defined.
#[global] Instance saddr_eq_dec : EqDecision saddr.
Proof. solve_decision. Defined.

(** [syscall.Sockaddr] *)
Inductive Sockaddr :=
| SockaddrInet4 (port : Z) (addr : list Z)
| SockaddrInet6 (port : Z) (zoneId : Z) (addr : list Z)
| SockaddrUnix (name : string).

Definition AF_UNIX : Z := 1.
Definition AF_INET : Z := 2.
Definition AF_INET6 : Z := 10.

(** [*net.AddrError] *)
Inductive AddrError := NonIPv4 | NonIPv6 | InvalidFamily.

Definition isWildcard (a : saddr) : bool :=
  match a with
  | STCP None => true
  | STCP (Some a) => match a_IP a with None => true | ip => IsUnspecified ip end
  | SUnix None => true
  | SUnix (Some a) => bool_decide (u_Name a = EmptyString)
  end.

Definition family (a : saddr) : Z :=
  match a with
  | STCP None => AF_INET
  | STCP (Some a) =>
      if (ip_len (a_IP a) <=? 4)%nat then AF_INET
      else match To4 (a_IP a) with Some _ => AF_INET | None => AF_INET6 end
  | SUnix _ => AF_UNIX
  end.

(** [copy(sa.Addr[:], ip)] into an array of [n] zeros *)
Definition copy_addr (n : nat) (ip : list Z) : list Z := take n ip ++ replicate (n - length ip) 0.

Definition ipToSockaddr (fam : Z) (ip : IP) (port : Z) (zone : string) : AddrError + Sockaddr :=
  if fam =? AF_INET then
    let ip := if (ip_len ip =? 0)%nat then IPv4zero else ip in
    match To4 ip with
    | None => inl NonIPv4
    | Some ip4 => inr (SockaddrInet4 port (copy_addr 4 ip4))
    end
  else if fam =? AF_INET6 then
    let ip := if (ip_len ip =? 0)%nat || Equal ip IPv4zero then IPv6zero else ip in
    match To16 ip with
    | None => inl NonIPv6
    | Some ip6 => inr (SockaddrInet6 port 0 (copy_addr 16 ip6))
    end
  else inl InvalidFamily.

(** [a.sockaddr(family)]: nil for a nil address *)
Definition sockaddr (a : saddr) (fam : Z) : AddrError + option Sockaddr :=
  match a with
  | STCP None | SUnix None => inr None
  | STCP (Some a) =>
      match ipToSockaddr fam (a_IP a) (a_Port a) (a_Zone a) with inl e => inl e | inr sa => inr (Some sa) end
  | SUnix (Some a) => inr (Some (SockaddrUnix (u_Name a)))
  end.

(** The last byte of a name; [None]: the index is out of range. *)
Fixpoint last_char (s : string) : option ascii :=
  match s with
  | EmptyString => None
  | String c EmptyString => Some c
  | String _ s => last_char s
  end.

Definition loopbackIP (network : string) : IP :=
  if decide (last_char network = Some "6"%char) then IPv6loopback else Some [127; 0; 0; 1].

(** [a.toLocal(network)]; [None]: a nil pointer is dereferenced *)
Definition toLocal (a : saddr) (network : string) : option saddr :=
  match a with
  | STCP None => None
  | STCP (Some a) => Some (STCP (Some (MkTCPAddr (loopbackIP network) (a_Port a) (a_Zone a))))
  | SUnix a => Some (SUnix a)
  end.

Definition is_inet (a : option saddr) : bool :=
  match a with None => true | Some a => family a =? AF_INET end.

(** The family and IPV6_V6ONLY; [None]: the name of the network is empty *)
Definition favoriteAddrFamily (network : string) (laddr raddr : option saddr) : option (Z * bool) :=
  c ← last_char network;
  Some (if decide (c = "4"%char) then (AF_INET, false)
        else if decide (c = "6"%char) then (AF_INET6, true)
        else if is_inet laddr && is_inet raddr then (AF_INET, false)
        else (AF_INET6, false)).

(** [net.Addr], as far as it is made here *)
Inductive Addr := ATCP (a : TCPAddr) | AUnix (a : UnixAddr).

Section to_addr.
(** [net.InterfaceByIndex] *)
Context (interface : Z → option string).

Definition sockaddrToAddr (sa : option Sockaddr) : option Addr :=
  match sa with
  | None => None
  | Some (SockaddrInet4 port addr) => Some (ATCP (MkTCPAddr (Some addr) port EmptyString))
  | Some (SockaddrInet6 port zoneId addr) =>
      let zone := if zoneId =? 0 then EmptyString else default EmptyString (interface zoneId) in
      Some (ATCP (MkTCPAddr (Some addr) port zone))
  | Some (SockaddrUnix name) => Some (AUnix (MkUnixAddr name "unix"))
  end.
End to_addr.

(** ** What they do *)

(** An IP that package net makes: none, or of 4 or of 16 bytes. *)
Definition ip_ok (ip : IP) : Prop := ip = None ∨ ip_len ip = 4%nat ∨ ip_len ip = 16%nat.

Definition addr_ok (a : option saddr) : Prop :=
  match a with Some (STCP (Some a)) => ip_ok (a_IP a) | _ => True end.

Lemma copy_addr_full n l : length l = n → copy_addr n l = l.
Proof. intros <-. unfold copy_addr. by rewrite firstn_all, Nat.sub_diag, app_nil_r. Qed.

Lemma split_mapped l : length l = 16%nat → take 12 l = v4InV6Prefix → l = v4InV6Prefix ++ drop 12 l.
Proof. intros Hl <-. by rewrite take_drop. Qed.

Lemma Equal_refl ip : Equal ip ip = true.
Proof. unfold Equal. rewrite decide_True by done. by apply bool_decide_eq_true. Qed.

Lemma Equal_mapped ip x : ip_len ip = 4%nat → ip_len x = 16%nat → ip_bytes x = v4InV6Prefix ++ ip_bytes ip →
  Equal ip x = true ∧ Equal x ip = true.
Proof.
  intros H1 H2 H3. unfold Equal. rewrite H1, H2. split.
  - rewrite decide_False, decide_True by lia. by apply bool_decide_eq_true.
  - rewrite !decide_False by lia. rewrite decide_True by done. by apply bool_decide_eq_true.
Qed.

(** The forms of 4 and of 16 bytes are the same address. *)
Lemma To4_Equal ip ip4 : To4 ip = Some ip4 → length ip4 = 4%nat ∧ Equal (Some ip4) ip = true.
Proof.
  unfold To4. destruct (decide (ip_len ip = 4%nat)) as [E|E]; [intros ->; split; [done|apply Equal_refl]|].
  destruct (decide _) as [[El Ep]|]; [|done]. intros [= <-].
  assert (length (drop 12 (ip_bytes ip)) = 4%nat) as Hl by (rewrite length_drop; unfold ip_len in El; lia).
  split; [exact Hl|]. apply (Equal_mapped (Some _) ip Hl El). by apply split_mapped.
Qed.

Lemma To16_Equal ip ip6 : To16 ip = Some ip6 → length ip6 = 16%nat ∧ Equal (Some ip6) ip = true.
Proof.
  unfold To16. destruct (decide (ip_len ip = 4%nat)) as [E|E].
  - intros [= <-]. assert (length (v4InV6Prefix ++ ip_bytes ip) = 16%nat) as Hl by (rewrite length_app; unfold ip_len in E; by rewrite E).
    split; [exact Hl|]. by apply (Equal_mapped ip (Some _) E Hl).
  - destruct (decide _) as [El|]; [|done]. intros ->. split; [done|apply Equal_refl].
Qed.

Lemma To4_None ip : ip_ok ip → ip ≠ None → To4 ip = None → ip_len ip = 16%nat.
Proof. intros [->|[E|E]] Hn; [done| |done]. unfold To4. rewrite decide_True by done. by intros ->. Qed.

Lemma To16_ok ip : ip_ok ip → ip ≠ None → ∃ ip6, To16 ip = Some ip6.
Proof.
  intros [->|[E|E]] Hn; [done| |]; unfold To16; [by rewrite decide_True by done; eauto|].
  rewrite decide_False by lia. rewrite decide_True by done. destruct ip; [eauto|done].
Qed.

Lemma ip_len_0 ip : ip_ok ip → (ip_len ip =? 0)%nat = true ↔ ip = None.
Proof. rewrite Nat.eqb_eq. intros [->|[E|E]]; [done|rewrite E..]; split; try done; by intros ->. Qed.

(** The family of an address is AF_INET exactly if it has a form of 4 bytes. *)
Lemma family_To4 a : ip_ok (a_IP a) →
  family (STCP (Some a)) = if decide (a_IP a = None ∨ To4 (a_IP a) ≠ None) then AF_INET else AF_INET6.
Proof.
  intros Hok. simpl. destruct (Nat.leb_spec (ip_len (a_IP a)) 4).
  - rewrite decide_True; [done|]. destruct Hok as [E|[E|E]]; [by left|right|lia].
    unfold To4. rewrite decide_True by done. intros E'. by rewrite E' in E.
  - destruct (To4 (a_IP a)) eqn:E; [by rewrite decide_True by (right; done)|].
    rewrite decide_False; [done|]. intros [E'|]; [|done]. rewrite E' in H. unfold ip_len in H. simpl in H. lia.
Qed.

(** When an address of package net cannot be converted. *)
Lemma ipToSockaddr_fails fam ip port zone : ip_ok ip → fam = AF_INET ∨ fam = AF_INET6 →
  ipToSockaddr fam ip port zone = inl NonIPv4 ∧ fam = AF_INET ∧ ip ≠ None ∧ To4 ip = None ∨
  (∃ sa, ipToSockaddr fam ip port zone = inr sa) ∧ (fam = AF_INET → ip = None ∨ To4 ip ≠ None).
Proof.
  intros Hok [->| ->]; unfold ipToSockaddr; cbn [Z.eqb AF_INET AF_INET6 Pos.eqb].
  - destruct (ip_len ip =? 0)%nat eqn:E0.
    + apply ip_len_0 in E0; [|done]. right. split; [by eexists|by left].
    + assert (ip ≠ None) by (intros Hn; apply (ip_len_0 ip Hok) in Hn; congruence).
      destruct (To4 ip) eqn:E4; [right|by left]. split; [by eexists|]. intros _. by right.
  - right. split; [|done]. destruct ((ip_len ip =? 0)%nat || Equal ip IPv4zero) eqn:E0; [by eexists|].
    apply orb_false_iff in E0 as [E0 _].
    assert (ip ≠ None) as Hn by (intros Hn; apply (ip_len_0 ip Hok) in Hn; congruence).
    destruct (To16_ok ip Hok Hn) as [ip6 ->]. by eexists.
Qed.

(** The address does not fit into 4 bytes. *)
Definition only_v6 (a : option saddr) : Prop :=
  match a with Some (STCP (Some a)) => a_IP a ≠ None ∧ To4 (a_IP a) = None | _ => False end.

Lemma is_inet_v6 a : addr_ok (STCP <$> a) → is_inet (STCP <$> a) = true ↔ ¬ only_v6 (STCP <$> a).
Proof.
  destruct a as [[a|]|]; [|by intros _; simpl; tauto..]. intros Hok. cbn [fmap option_fmap option_map is_inet only_v6].
  rewrite family_To4 by done. destruct (decide _) as [H|H]; (split; [|done || intros H']); [by intros _ [? ?]; tauto|done|].
  destruct H' . split; [by intros ?; apply H; left|]. destruct (To4 (a_IP a)); [|done]. by destruct H; right.
Qed.

(** C33: The family that favoriteAddrFamily chooses for a TCP network suits the
    addresses: the conversion of the local and of the remote address to it
    fails only for a network of IPv4 ("tcp4") with an address that is none;
    with "tcp" and "tcp6" it never fails. *)
Theorem family_suits network (laddr raddr : option (option TCPAddr)) fam v6only :
  network ∈ ["tcp"; "tcp4"; "tcp6"]%string → addr_ok (STCP <$> laddr) → addr_ok (STCP <$> raddr) →
  favoriteAddrFamily network (STCP <$> laddr) (STCP <$> raddr) = Some (fam, v6only) →
  ∀ a, a ∈ [laddr; raddr] →
    match STCP <$> a with
    | None => True
    | Some sa =>
        (∃ r, sockaddr sa fam = inr r) ∨
        sockaddr sa fam = inl NonIPv4 ∧ network = "tcp4"%string ∧ only_v6 (Some sa)
    end.
Proof.
  intros Hnet Hl Hr Hf a Ha.
  assert (addr_ok (STCP <$> a)) as Hok by (rewrite !elem_of_cons in Ha; destruct Ha as [->|[->|Ha]]; [done..|by apply elem_of_nil in Ha]).
  assert ((fam = AF_INET ∨ fam = AF_INET6) ∧ (fam = AF_INET → network ≠ "tcp4"%string → ¬ only_v6 (STCP <$> a))) as [Hfam Hv4].
  { rewrite !elem_of_cons in Hnet. destruct Hnet as [->|[->|[->|Hnet]]]; [| | |by apply elem_of_nil in Hnet];
      unfold favoriteAddrFamily in Hf; simpl in Hf; [|simplify_eq; tauto|simplify_eq; split; [by right|done]].
    destruct (is_inet (STCP <$> laddr)) eqn:E1, (is_inet (STCP <$> raddr)) eqn:E2; simplify_eq/=; (split; [auto|]); try done.
    intros _ _. rewrite !elem_of_cons in Ha. destruct Ha as [->|[->|Ha]]; [by apply is_inet_v6..|by apply elem_of_nil in Ha]. }
  destruct a as [[a|]|]; [|by left; eexists|done]. cbn [fmap option_fmap option_map sockaddr only_v6] in *.
  destruct (ipToSockaddr_fails fam (a_IP a) (a_Port a) (a_Zone a) Hok Hfam) as [(->&->&?&?)|[[sa ->] _]]; [right|left; eauto].
  split_and!; try done. destruct (decide (network = "tcp4"%string)); [done|]. exfalso. by apply Hv4.
Qed.

Definition demo_v6 : TCPAddr := MkTCPAddr IPv6loopback 80 EmptyString.

Lemma family_suits_witness :
  match STCP <$> Some (Some demo_v6) with
  | None => True
  | Some sa =>
      (∃ r, sockaddr sa AF_INET6 = inr r) ∨
      sockaddr sa AF_INET6 = inl NonIPv4 ∧ "tcp"%string = "tcp4"%string ∧ only_v6 (Some sa)
  end.
Proof.
  apply (family_suits "tcp" None (Some (Some demo_v6)) AF_INET6 false); [left|done|by right; right|done|right; left].
Defined.

(** Equal compares the forms of 16 bytes. *)
Lemma Equal_To16 l m : length l = 4%nat ∨ length l = 16%nat → length m = 4%nat ∨ length m = 16%nat →
  Equal (Some l) (Some m) = bool_decide (To16 (Some l) = To16 (Some m)).
Proof.
  intros Hl Hm. unfold Equal, To16, ip_len. cbn [ip_bytes].
  destruct Hl as [El|El], Hm as [Em|Em]; rewrite El, Em; cbn [decide]; repeat (rewrite decide_True by done || rewrite decide_False by lia);
    apply bool_decide_ext; generalize v4InV6Prefix; intros pre; simplify_eq/=; naive_solver.
Qed.

Lemma Equal_unspecified l m : length l = 4%nat ∨ length l = 16%nat → length m = 4%nat ∨ length m = 16%nat →
  Equal (Some l) (Some m) = true → IsUnspecified (Some l) = IsUnspecified (Some m).
Proof.
  intros Hl Hm. unfold IsUnspecified, IPv4zero, IPv4, IPv6zero. rewrite !Equal_To16 by (done || by right).
  intros ->%bool_decide_eq_true. done.
Qed.

(** C32: An address of TCP that is converted to its own family and back, as by
    connect and getpeername, is the same address: the port is the same and the
    IPs are Equal, unless it has no IP, and then the IP is the unspecified
    one.  Only the zone is lost. *)
Theorem addr_roundtrip interface a sa :
  ip_ok (a_IP a) → sockaddr (STCP (Some a)) (family (STCP (Some a))) = inr sa →
  ∃ b, sockaddrToAddr interface sa = Some (ATCP b) ∧ a_Port b = a_Port a ∧ a_Zone b = EmptyString ∧
    isWildcard (STCP (Some b)) = isWildcard (STCP (Some a)) ∧
    (a_IP a ≠ None → Equal (a_IP b) (a_IP a) = true).
Proof.
  intros Hok. rewrite family_To4 by done. cbn [sockaddr]. destruct a as [[l|] port zone]; cbn [a_IP a_Port a_Zone] in *.
  2: { intros [= <-]. eexists. split; [done|]. by vm_compute. }
  assert (length l = 4%nat ∨ length l = 16%nat) as Hl by (destruct Hok as [|[|]]; [done|by left|by right]).
  destruct (To4 (Some l)) as [ip4|] eqn:E4.
  - rewrite decide_True by by right. unfold ipToSockaddr, ip_len. cbn [ip_bytes AF_INET Z.eqb Pos.eqb].
    rewrite (proj2 (Nat.eqb_neq (length l) 0)) by (destruct Hl; lia). rewrite E4. intros [= <-].
    destruct (To4_Equal _ _ E4) as [H4 He]. rewrite copy_addr_full by done.
    eexists. split; [done|]. cbn [a_IP a_Port a_Zone isWildcard]. split_and!; try done.
    apply Equal_unspecified; [by left|done..].
  - rewrite decide_False by (by intros [|]). unfold ipToSockaddr, ip_len. cbn [ip_bytes AF_INET AF_INET6 Z.eqb Pos.eqb].
    rewrite (proj2 (Nat.eqb_neq (length l) 0)) by (destruct Hl; lia). cbn [orb].
    assert (length l = 16%nat) as H16 by (apply (To4_None (Some l)); done).
    destruct (Equal (Some l) IPv4zero) eqn:Ez.
    { exfalso. unfold IPv4zero, IPv4 in Ez. rewrite Equal_To16 in Ez by (done || by right).
      apply bool_decide_eq_true in Ez. unfold To16, ip_len in Ez. cbn [ip_bytes] in Ez. rewrite H16 in Ez.
      injection Ez as ->. done. }
    assert (To16 (Some l) = Some l) as -> by (unfold To16, ip_len; cbn [ip_bytes]; by rewrite H16).
    intros [= <-]. rewrite copy_addr_full by done. eexists. split; [done|].
    split_and!; try done. intros _. apply Equal_refl.
Qed.

Lemma addr_roundtrip_witness :
  ∃ b, sockaddrToAddr (λ _, None) (Some (SockaddrInet6 80 0 (ip_bytes IPv6loopback))) = Some (ATCP b) ∧
    a_Port b = a_Port demo_v6 ∧ a_Zone b = EmptyString ∧
    isWildcard (STCP (Some b)) = isWildcard (STCP (Some demo_v6)) ∧
    (a_IP demo_v6 ≠ None → Equal (a_IP b) (a_IP demo_v6) = true).
Proof. apply (addr_roundtrip (λ _, None) demo_v6); [by right; right|done]. Defined.

(** The zone of a link-local address does not reach connect. *)
Lemma zone_ignored : ∀ fam ip port z1 z2, ipToSockaddr fam ip port z1 = ipToSockaddr fam ip port z2.
Proof. done. Qed.
