(* ===== verification/ConnLife.v ===== *)
(** * Opening and closing a connection

    init, onPrepare, register, Close, Detach and closeCallback of
    src/connection_impl.go, src/connection_onevent.go and
    src/connection_reactor.go, with netFD of src/net_netfd.go and
    src/net_netfd_conn.go and the options of src/netpoll_options.go, as one
    goroutine runs them; the interleavings are the subject of OnEvent.v.  The
    theorems follow the descriptor, its registration with the poller and the
    operator.  What the system calls answer is a parameter. *)

From stdpp Require Import strings.
From S2P Require Import Prelude Errors Locker NetAddr.

Open Scope Z_scope.

(** ** netFD *)

Definition SOCK_STREAM : Z := 1.
Definition SOCK_DGRAM : Z := 2.
Definition SOCK_RAW : Z := 3.
Definition SOCK_SEQPACKET : Z := 5.

Record netFD := NetFD {
  nf_fd : Z;
  nf_closed : Z;
  nf_isStream : bool;
  nf_zeroReadIsEOF : bool;
  nf_family : Z;
  nf_sotype : Z;
  nf_isConnected : bool;
  nf_network : string;
  nf_localAddr : option Addr;
  nf_remoteAddr : option Addr;
  nf_detaching : bool;
}.

(** [netFD{fd: fd, localAddr: l, remoteAddr: r}] *)
Definition plain_netFD (fd : Z) (l r : option Addr) : netFD :=
  NetFD fd 0 false false 0 0 false EmptyString l r false.

Definition newNetFD (fd fam sotype : Z) (network : string) : netFD :=
  NetFD fd 0 (sotype =? SOCK_STREAM) (negb (sotype =? SOCK_DGRAM) && negb (sotype =? SOCK_RAW))
    fam sotype false network None None false.

Definition set_nf_closed x n := NetFD (nf_fd n) x (nf_isStream n) (nf_zeroReadIsEOF n) (nf_family n) (nf_sotype n)
  (nf_isConnected n) (nf_network n) (nf_localAddr n) (nf_remoteAddr n) (nf_detaching n).
Definition set_nf_detaching n := NetFD (nf_fd n) (nf_closed n) (nf_isStream n) (nf_zeroReadIsEOF n) (nf_family n) (nf_sotype n)
  (nf_isConnected n) (nf_network n) (nf_localAddr n) (nf_remoteAddr n) true.
Definition set_nf_connected l r n := NetFD (nf_fd n) (nf_closed n) (nf_isStream n) (nf_zeroReadIsEOF n) (nf_family n) (nf_sotype n)
  true (nf_network n) l r (nf_detaching n).

(** The open descriptors, those the poller knows, the operators in use, and
    the callbacks of users that have run. *)
Record net := Net { n_open : gset Z; n_polled : gset Z; n_ops : Z; n_ran : list nat }.

Definition set_ran x w := Net (n_open w) (n_polled w) (n_ops w) x.

(** close(2), after which epoll does not know the descriptor. *)
Definition sys_close (fd : Z) (w : net) : net := Net (n_open w ∖ {[fd]}) (n_polled w ∖ {[fd]}) (n_ops w) (n_ran w).
Definition sys_add (fd : Z) (w : net) : net := Net (n_open w) ({[fd]} ∪ n_polled w) (n_ops w) (n_ran w).
Definition sys_del (fd : Z) (w : net) : net := Net (n_open w) (n_polled w ∖ {[fd]}) (n_ops w) (n_ran w).
(** EPOLL_CTL_ADD of a descriptor that is known to the poller fails; otherwise
    [epoll_add] is the answer. *)
Definition ctl_add (epoll_add : Z → option Z) (fd : Z) (w : net) : option Z :=
  if decide (fd ∈ n_polled w) then Some EEXIST else epoll_add fd.
Definition add_ops (d : Z) (w : net) : net := Net (n_open w) (n_polled w) (n_ops w + d) (n_ran w).

(** [netFD.Close()] *)
Definition netFD_Close (n : netFD) (w : net) : netFD * net :=
  let closed := (nf_closed n + 1) mod 2 ^ 32 in
  let n' := set_nf_closed closed n in
  if negb (closed =? 1) then (n', w)
  else if negb (nf_detaching n) && (2 <? nf_fd n) then (n', sys_close (nf_fd n) w)
  else (n', w).

(** [netFD.Read] and [netFD.Write]: the kernel answers a number or an error. *)
Definition netFD_Read (ans : Z + Z) : Z * option Z :=
  match ans with
  | inr n => (n, None)
  | inl e => if (e =? EAGAIN) || (e =? EINTR) then (0, None) else (-1, Some e)
  end.

Definition netFD_Write (ans : Z + Z) : Z * option Z :=
  match ans with
  | inr n => (n, None)
  | inl e => if e =? EAGAIN then (0, None) else (-1, Some e)
  end.

(** ** connection *)

(** A close callback: the finalizer of init, or one of the user. *)
Inductive ccb := CFinalizer | CUser (id : nat).

Record connection := Connection {
  c_netFD : netFD;
  c_poll : bool;              (* operator.poll is set *)
  c_detached : Z;             (* operator.detached *)
  c_locks : locker;
  c_callbacks : list ccb;     (* closeCallbacks, the latest first *)
  c_onConnect : bool;
  c_onDisconnect : bool;
  c_onRequest : bool;
  c_readTimeout : Z;
  c_writeTimeout : Z;
  c_ctx : bool;               (* the context of the user, not Background *)
  c_supportZeroCopy : bool;
  c_input : option Z;         (* the length of inputBuffer; closed *)
  c_output : option Z;
}.

(** What of a connection a step changes. *)
Definition set_netFD x c := Connection x (c_poll c) (c_detached c) (c_locks c) (c_callbacks c) (c_onConnect c) (c_onDisconnect c) (c_onRequest c)
  (c_readTimeout c) (c_writeTimeout c) (c_ctx c) (c_supportZeroCopy c) (c_input c) (c_output c).
Definition set_poll x c := Connection (c_netFD c) x (c_detached c) (c_locks c) (c_callbacks c) (c_onConnect c) (c_onDisconnect c) (c_onRequest c)
  (c_readTimeout c) (c_writeTimeout c) (c_ctx c) (c_supportZeroCopy c) (c_input c) (c_output c).
Definition set_detached x c := Connection (c_netFD c) (c_poll c) x (c_locks c) (c_callbacks c) (c_onConnect c) (c_onDisconnect c) (c_onRequest c)
  (c_readTimeout c) (c_writeTimeout c) (c_ctx c) (c_supportZeroCopy c) (c_input c) (c_output c).
Definition set_locks x c := Connection (c_netFD c) (c_poll c) (c_detached c) x (c_callbacks c) (c_onConnect c) (c_onDisconnect c) (c_onRequest c)
  (c_readTimeout c) (c_writeTimeout c) (c_ctx c) (c_supportZeroCopy c) (c_input c) (c_output c).
Definition set_callbacks x c := Connection (c_netFD c) (c_poll c) (c_detached c) (c_locks c) x (c_onConnect c) (c_onDisconnect c) (c_onRequest c)
  (c_readTimeout c) (c_writeTimeout c) (c_ctx c) (c_supportZeroCopy c) (c_input c) (c_output c).
Definition set_handlers a b r c := Connection (c_netFD c) (c_poll c) (c_detached c) (c_locks c) (c_callbacks c) a b r
  (c_readTimeout c) (c_writeTimeout c) (c_ctx c) (c_supportZeroCopy c) (c_input c) (c_output c).
Definition set_timeouts r w c := Connection (c_netFD c) (c_poll c) (c_detached c) (c_locks c) (c_callbacks c) (c_onConnect c) (c_onDisconnect c)
  (c_onRequest c) r w (c_ctx c) (c_supportZeroCopy c) (c_input c) (c_output c).
Definition set_ctx x c := Connection (c_netFD c) (c_poll c) (c_detached c) (c_locks c) (c_callbacks c) (c_onConnect c) (c_onDisconnect c) (c_onRequest c)
  (c_readTimeout c) (c_writeTimeout c) x (c_supportZeroCopy c) (c_input c) (c_output c).
Definition set_zeroCopy x c := Connection (c_netFD c) (c_poll c) (c_detached c) (c_locks c) (c_callbacks c) (c_onConnect c) (c_onDisconnect c)
  (c_onRequest c) (c_readTimeout c) (c_writeTimeout c) (c_ctx c) x (c_input c) (c_output c).
Definition set_buffers i o c := Connection (c_netFD c) (c_poll c) (c_detached c) (c_locks c) (c_callbacks c) (c_onConnect c) (c_onDisconnect c)
  (c_onRequest c) (c_readTimeout c) (c_writeTimeout c) (c_ctx c) (c_supportZeroCopy c) i o.

Record cw := CW { co : connection; nw : net }.

Definition upd (g : connection → connection) : M cw unit := modify (λ s, CW (g (co s)) (nw s)).
Definition updw (g : net → net) : M cw unit := modify (λ s, CW (co s) (g (nw s))).

(** [c.AddCloseCallback(callback)] *)
Definition AddCloseCallback (cb : ccb) : M cw unit := upd (λ c, set_callbacks (cb :: c_callbacks c) c).

(** [c.IsActive()] *)
Definition IsActive (c : connection) : bool := isCloseBy none (c_locks c).

(** [c.closeBuffer()] *)
Definition close_buffer (handled : bool) (b : option Z) : option Z :=
  match b with Some len => if (len =? 0) || handled then None else Some len | None => None end.
Definition closeBuffer : M cw unit := upd (λ c,
  let handled := c_onConnect c || c_onRequest c in
  set_buffers (close_buffer handled (c_input c)) (close_buffer handled (c_output c)) c).

(** The callback of initFinalizer: it spins while somebody flushes, and a
    method of the nil poll panics. *)
Definition finalizer : M cw unit :=
  s ← get;
  match stop flushing (c_locks (co s)) with
  | None => out_of_fuel
  | Some l =>
      _ ← upd (set_locks l);
      if c_poll (co s) then
        _ ← upd (λ c, set_detached 0 (set_poll false c));
        _ ← updw (add_ops (-1));
        _ ← modify (λ s, let '(n, w) := netFD_Close (c_netFD (co s)) (nw s) in CW (set_netFD n (co s)) w);
        closeBuffer
      else panic
  end.

Definition run_callback (cb : ccb) : M cw unit :=
  match cb with
  | CFinalizer => finalizer
  | CUser id => updw (λ w, set_ran (n_ran w ++ [id]) w)
  end.

(** The loop over the callbacks, from the latest on. *)
Fixpoint run_callbacks (cbs : list ccb) : M cw unit :=
  match cbs with
  | [] => mret tt
  | cb :: cbs => _ ← run_callback cb; run_callbacks cbs
  end.

(** [c.operator.Control(PollDetach)]: the poller is called the first time only. *)
Definition control_detach : M cw unit :=
  s ← get;
  let n := c_detached (co s) + 1 in
  _ ← upd (set_detached n);
  if 1 <? n then mret tt else updw (sys_del (nf_fd (c_netFD (co s)))).

(** [c.closeCallback(needLock, needDetach)] *)
Definition closeCallback (needLock needDetach : bool) : M cw unit :=
  s ← get;
  let '(got, l) := lock processing (c_locks (co s)) in
  if needLock && negb got then mret tt
  else
    _ ← (if needLock then upd (set_locks l) else mret tt);
    _ ← (if needDetach && c_poll (co s) then control_detach else mret tt);
    s ← get;
    run_callbacks (c_callbacks (co s)).

(** [c.onClose()], which is [c.Close()].  The values that it and onHup leave for
    calls that wait, by triggerRead and triggerWrite, are the subject of
    WaitRead.v and WaitFlush.v; here nobody waits. *)
Definition onClose : M cw unit :=
  s ← get;
  let '(ok, l) := closeBy user (c_locks (co s)) in
  if ok : bool then _ ← upd (set_locks l); closeCallback true true
  else _ ← upd (λ c, set_locks (force closing user (c_locks c)) c); closeCallback true false.

(** [c.Detach()] *)
Definition Detach : M cw unit := _ ← upd (λ c, set_netFD (set_nf_detaching (c_netFD c)) c); onClose.

(** [c.onHup(p)]; OnDisconnect is the subject of OnEvent.v. *)
Definition onHup : M cw unit :=
  s ← get;
  let '(ok, l) := closeBy poller (c_locks (co s)) in
  if ok : bool then
    _ ← upd (set_locks l);
    if c_onConnect (co s) || c_onRequest (co s) then closeCallback true false else mret tt
  else mret tt.

(** The poller sees a hang-up: it detaches the operator and calls onHup.  Of an
    operator that was given back it handles no event. *)
Definition hang_up : M cw unit :=
  s ← get;
  if c_poll (co s) then _ ← control_detach; onHup else mret tt.

(** ** Options *)

(** What OnPrepare does with the connection. *)
Inductive uact := UClose | UDetach | UAddCloseCallback (id : nat) | USetOnRequest.

(** Of the callbacks, whether they are set; durations in nanoseconds. *)
Record options := Options {
  o_onPrepare : option (list uact * bool);   (* what it does; whether it returns a context *)
  o_onConnect : bool;
  o_onDisconnect : bool;
  o_onRequest : bool;
  o_readTimeout : Z;
  o_writeTimeout : Z;
  o_idleTimeout : Z;
}.

Definition WithOnPrepare x op := Options x (o_onConnect op) (o_onDisconnect op) (o_onRequest op)
  (o_readTimeout op) (o_writeTimeout op) (o_idleTimeout op).
Definition WithOnConnect x op := Options (o_onPrepare op) x (o_onDisconnect op) (o_onRequest op)
  (o_readTimeout op) (o_writeTimeout op) (o_idleTimeout op).
Definition WithOnDisconnect x op := Options (o_onPrepare op) (o_onConnect op) x (o_onRequest op)
  (o_readTimeout op) (o_writeTimeout op) (o_idleTimeout op).
Definition WithReadTimeout x op := Options (o_onPrepare op) (o_onConnect op) (o_onDisconnect op) (o_onRequest op)
  x (o_writeTimeout op) (o_idleTimeout op).
Definition WithWriteTimeout x op := Options (o_onPrepare op) (o_onConnect op) (o_onDisconnect op) (o_onRequest op)
  (o_readTimeout op) x (o_idleTimeout op).
Definition WithIdleTimeout x op := Options (o_onPrepare op) (o_onConnect op) (o_onDisconnect op) (o_onRequest op)
  (o_readTimeout op) (o_writeTimeout op) x.

(** The options of [NewEventLoop(onRequest, ops...)] *)
Definition new_options (onRequest : bool) (ops : list (options → options)) : options :=
  foldl (λ op f, f op) (Options None false false onRequest 0 0 0) ops.

(** The setters of a connection; nil is ignored. *)
Definition SetOnConnect (x : bool) (c : connection) : connection :=
  if x then set_handlers true (c_onDisconnect c) (c_onRequest c) c else c.
Definition SetOnDisconnect (x : bool) (c : connection) : connection :=
  if x then set_handlers (c_onConnect c) true (c_onRequest c) c else c.
(** With input it also starts onRequest, see OnEvent.v; there is none before
    the connection is registered. *)
Definition SetOnRequest (x : bool) (c : connection) : connection :=
  if x then set_handlers (c_onConnect c) (c_onDisconnect c) true c else c.
Definition SetReadTimeout (t : Z) (c : connection) : connection :=
  if 0 <=? t then set_timeouts t (c_writeTimeout c) c else c.
Definition SetWriteTimeout (t : Z) (c : connection) : connection :=
  if 0 <=? t then set_timeouts (c_readTimeout c) t c else c.

(** ** init *)

Section init.
(** EPOLL_CTL_ADD, and SO_ZEROCOPY and SO_ZEROBLOCKTIMEO: the error *)
Context (epoll_add : Z → option Z) (zerocopy : option Z * option Z).

Definition uact_run (a : uact) : M cw unit :=
  match a with
  | UClose => onClose
  | UDetach => Detach
  | UAddCloseCallback id => AddCloseCallback (CUser id)
  | USetOnRequest => upd (SetOnRequest true)
  end.

Fixpoint uacts_run (l : list uact) : M cw unit :=
  match l with
  | [] => mret tt
  | a :: l => _ ← uact_run a; uacts_run l
  end.

(** [c.register()] *)
Definition register : M cw (option Z) :=
  s ← get;
  let fd := nf_fd (c_netFD (co s)) in
  match ctl_add epoll_add fd (nw s) with
  | None => _ ← updw (sys_add fd); mret None
  | Some _ => _ ← onClose; mret (Some ErrConnClosed)
  end.

(** [c.onPrepare(opts)]; the keep-alive options of the socket are left out. *)
Definition onPrepare (opts : option options) : M cw (option Z) :=
  _ ← (match opts with
       | None => mret tt
       | Some op =>
           _ ← upd (SetOnConnect (o_onConnect op));
           _ ← upd (SetOnDisconnect (o_onDisconnect op));
           _ ← upd (SetOnRequest (o_onRequest op));
           _ ← upd (SetReadTimeout (o_readTimeout op));
           _ ← upd (SetWriteTimeout (o_writeTimeout op));
           match o_onPrepare op with
           | None => mret tt
           | Some (acts, ctx) => _ ← uacts_run acts; upd (set_ctx ctx)
           end
       end);
  s ← get;
  if IsActive (co s) then register else mret None.

(** The value [conn] that init gets: a [*netFD], or another Conn. *)
Inductive Conn := CNetFD (n : netFD) | COther (fd : Z) (l r : option Addr).

Definition initNetFD (conn : Conn) : netFD :=
  match conn with CNetFD n => n | COther fd l r => plain_netFD fd l r end.

(** A connection after initNetFD and initFDOperator. *)
Definition new_connection (n : netFD) : connection :=
  Connection n true 0 new_locker [] false false false 0 0 false false (Some 0) (Some 0).

(** [c.init(conn, opts)]; the options it sets on the socket without looking at
    the result (non-blocking, TCP_NODELAY) do not show in the model. *)
Definition init (conn : Conn) (opts : option options) (w : net) : outcome (option Z * cw) :=
  (_ ← updw (add_ops 1);
   _ ← AddCloseCallback CFinalizer;
   _ ← upd (set_zeroCopy (bool_decide (zerocopy = (None, None))));
   onPrepare opts) (CW (new_connection (initNetFD conn)) w).

End init.

(** ** What they do *)

(** The connection holds its descriptor and an operator, in the world [w]; [us]:
    the callbacks of users, the latest first; [hup]: the poller has removed
    the descriptor, and the user has to close. *)
Record held (w : net) (fd : Z) (reg detached hup : bool) (us : list nat) (s : cw) : Prop := Held {
  h_fd : nf_fd (c_netFD (co s)) = fd;
  h_closed : nf_closed (c_netFD (co s)) = 0;
  h_detaching : nf_detaching (c_netFD (co s)) = detached;
  h_poll : c_poll (co s) = true;
  h_detached : 0 <= c_detached (co s) ∧ (hup = false → c_detached (co s) = 0);
  h_closing : kc_closing (c_locks (co s)) = if hup then poller else none;
  h_hup : hup = true → reg = false;
  h_processing : kc_processing (c_locks (co s)) = 0;
  h_flushing : kc_flushing (c_locks (co s)) = 0;
  h_callbacks : c_callbacks (co s) = (CUser <$> us) ++ [CFinalizer];
  h_net : nw s = Net (n_open w) (if reg then {[fd]} ∪ n_polled w else n_polled w) (n_ops w + 1) (n_ran w);
}.

(** It has given them back, and the callbacks have run; a detached connection
    leaves the descriptor open. *)
Record released (w : net) (fd : Z) (detached : bool) (us : list nat) (s : cw) : Prop := Released {
  r_fd : nf_fd (c_netFD (co s)) = fd;
  r_poll : c_poll (co s) = false;
  r_closing : kc_closing (c_locks (co s)) ≠ 0;
  r_processing : kc_processing (c_locks (co s)) ≠ 0;
  r_net : nw s = Net (if detached then n_open w else n_open w ∖ {[fd]}) (n_polled w) (n_ops w) (n_ran w ++ us);
}.

(** What OnPrepare has done: whether it ended the connection, and then whether by
    Detach, and the callbacks it added before that, the latest first. *)
Fixpoint prepared (l : list uact) (us : list nat) : option bool * list nat :=
  match l with
  | [] => (None, us)
  | UClose :: _ => (Some false, us)
  | UDetach :: _ => (Some true, us)
  | UAddCloseCallback id :: l => prepared l (id :: us)
  | USetOnRequest :: l => prepared l us
  end.

Definition prepare_acts (opts : option options) : list uact :=
  match opts ≫= o_onPrepare with Some (acts, _) => acts | None => [] end.

(** How init ends: OnPrepare has ended the connection, or it is registered, or
    it is closed because it could not be. *)
Definition init_end (epoll_add : Z → option Z) (opts : option options) (w : net) (fd : Z) (r : option Z) (s : cw) : Prop :=
  let '(e, us) := prepared (prepare_acts opts) [] in
  match e, epoll_add fd with
  | Some d, _ => r = None ∧ released w fd d us s
  | None, None => r = None ∧ held w fd true false false us s
  | None, Some _ => r = Some ErrConnClosed ∧ released w fd false us s
  end.

Lemma run_users us : ∀ s Q cbs, wp (run_callbacks cbs) Q (CW (co s) (set_ran (n_ran (nw s) ++ us) (nw s))) →
  wp (run_callbacks ((CUser <$> us) ++ cbs)) Q s.
Proof.
  induction us as [|u us IH]; intros [c [o p n r]] Q cbs H; simpl in *; [by rewrite app_nil_r in H|].
  apply wp_bind, wp_modify, IH. simpl. by rewrite <- (assoc_L app).
Qed.

Section one.
Context (fd : Z) (w : net) (Hfd : 2 < fd) (Hnew : fd ∉ n_polled w).

(** The rest of closing, once the lock is taken. *)
Lemma callbacks_held d us s :
  nf_fd (c_netFD (co s)) = fd → nf_closed (c_netFD (co s)) = 0 → nf_detaching (c_netFD (co s)) = d → c_poll (co s) = true →
  kc_closing (c_locks (co s)) ≠ 0 → kc_processing (c_locks (co s)) ≠ 0 → kc_flushing (c_locks (co s)) = 0 →
  nw s = Net (n_open w) (n_polled w) (n_ops w + 1) (n_ran w) →
  wp (run_callbacks ((CUser <$> us) ++ [CFinalizer])) (λ _, released w fd d us) s.
Proof.
  destruct s as [[[fd' cl st ze fam so ic ne l r de] p dt [k1 k2 k3 k4] cbs h1 h2 h3 t1 t2 ctx z i o] nw].
  simpl. intros. subst. apply run_users. simpl. apply wp_bind. unfold finalizer. apply wp_bind, wp_get. simpl.
  apply wp_bind, wp_modify, wp_bind, wp_modify, wp_bind, wp_modify, wp_bind, wp_modify. simpl.
  assert ((2 <? fd) = true) as E by lia. unfold netFD_Close. simpl. rewrite E. apply wp_modify, wp_ret.
  destruct d; simpl; constructor; simpl; try done; unfold sys_close, add_ops, set_ran; simpl; f_equal; try lia; set_solver.
Qed.

(** The counter lets the descriptor be removed when it is registered. *)
Lemma control_detach_ok reg (Q : unit → cw → Prop) s :
  nf_fd (c_netFD (co s)) = fd → 0 <= c_detached (co s) ∧ (reg = true → c_detached (co s) = 0) →
  nw s = Net (n_open w) (if reg then {[fd]} ∪ n_polled w else n_polled w) (n_ops w + 1) (n_ran w) →
  Q tt (CW (set_detached (c_detached (co s) + 1) (co s)) (Net (n_open w) (n_polled w) (n_ops w + 1) (n_ran w))) →
  wp control_detach Q s.
Proof.
  destruct s as [c nw]. simpl. intros Hf [H0 Hreg] -> HQ. unfold control_detach.
  apply wp_bind, wp_get, wp_bind, wp_modify. simpl. rewrite Hf. destruct (Z.ltb_spec 1 (c_detached c + 1)).
  - destruct reg; [rewrite Hreg in * by done; lia|]. by apply wp_ret.
  - apply wp_modify. unfold sys_del. simpl. destruct reg; replace (_ ∖ _) with (n_polled w) by set_solver; done.
Qed.

(** Closing releases, whether or not the descriptor is registered. *)
Lemma onClose_held reg d hup us s : held w fd reg d hup us s → wp onClose (λ _, released w fd d us) s.
Proof.
  destruct s as [[[fd' cl st ze fam so ic ne l r de] p dt [k1 k2 k3 k4] cbs h1 h2 h3 t1 t2 ctx z i o] nw].
  intros [? ? ? ? ? ? Hhup ? ? ? ?]. simpl in *. subst. unfold onClose. apply wp_bind, wp_get. destruct hup; simpl.
  - rewrite Hhup by done. apply wp_bind, wp_modify. unfold closeCallback. apply wp_bind, wp_get. simpl.
    apply wp_bind, wp_modify, wp_bind, wp_ret, wp_bind, wp_get. simpl. by apply callbacks_held.
  - apply wp_bind, wp_modify. unfold closeCallback. apply wp_bind, wp_get. simpl.
    apply wp_bind, wp_modify, wp_bind. apply (control_detach_ok reg); [done|naive_solver|done|]. apply wp_bind, wp_get. simpl.
    by apply callbacks_held.
Qed.

Lemma onClose_released d us s : released w fd d us s → wp onClose (λ _, released w fd d us) s.
Proof.
  destruct s as [[n p dt [k1 k2 k3 k4] cbs h1 h2 h3 t1 t2 ctx z i o] nw]. intros []. simpl in *. subst.
  unfold onClose, closeBy, cas. apply wp_bind, wp_get. simpl. rewrite (proj2 (Z.eqb_neq k1 0)) by done.
  apply wp_bind, wp_modify. unfold closeCallback, lock, cas. apply wp_bind, wp_get. simpl.
  rewrite (proj2 (Z.eqb_neq k3 0)) by done. by apply wp_ret.
Qed.

(** A program of the user. *)
Lemma uacts_run_released l : ∀ d us s, released w fd d us s → wp (uacts_run l) (λ _, released w fd d us) s.
Proof.
  induction l as [|a l IH]; intros d us s H; [by apply wp_ret|]. simpl. apply wp_bind.
  eapply (wp_mono _ (λ _, released w fd d us)); [|intros _ s' H'; by apply IH]. destruct a; cbn [uact_run].
  - by apply onClose_released.
  - unfold Detach. apply wp_bind, wp_modify, onClose_released. destruct s, H. by constructor.
  - apply wp_modify. destruct s, H. by constructor.
  - apply wp_modify. destruct s, H. by constructor.
Qed.

Lemma uacts_run_ok l : ∀ s us, held w fd false false false us s →
  wp (uacts_run l) (λ _ s', let '(e, us') := prepared l us in
    match e with None => held w fd false false false us' s' | Some d => released w fd d us' s' end) s.
Proof.
  induction l as [|a l IH]; intros s us H; [by apply wp_ret|]. simpl. apply wp_bind. destruct a; cbn [uact_run].
  - eapply wp_mono; [exact (onClose_held _ _ _ _ _ H)|]. intros ? s'. apply uacts_run_released.
  - unfold Detach. apply wp_bind, wp_modify. eapply wp_mono; [apply (onClose_held false true false us)|].
    + destruct s, H. by constructor.
    + intros ? s'. apply uacts_run_released.
  - apply wp_modify, IH. destruct s, H. constructor; try done. simpl in *. by f_equal.
  - apply wp_modify, IH. destruct s, H. by constructor.
Qed.

(** EPOLL_CTL_ADD, and the options for zero-copy *)
Context (epoll_add : Z → option Z).

Lemma register_ok us s : held w fd false false false us s →
  wp (register epoll_add) (λ r s', r = None ∧ epoll_add fd = None ∧ held w fd true false false us s' ∨
                       r = Some ErrConnClosed ∧ epoll_add fd ≠ None ∧ released w fd false us s') s.
Proof.
  intros Hh. unfold register. apply wp_bind, wp_get. rewrite (h_fd _ _ _ _ _ _ _ Hh).
  assert (ctl_add epoll_add fd (nw s) = epoll_add fd) as ->.
  { unfold ctl_add. rewrite (h_net _ _ _ _ _ _ _ Hh). by rewrite decide_False. }
  destruct (epoll_add fd) eqn:E.
  - apply wp_bind. eapply wp_mono; [by eapply onClose_held|]. intros ? s' H. apply wp_ret. by right.
  - apply wp_bind, wp_modify, wp_ret. left. split_and!; try done. destruct s, Hh. constructor; try done. simpl in *. by subst.
Qed.

(** What sets an option leaves the rest alone. *)
Lemma held_setter (g : connection → connection) us s :
  (∀ c, c_netFD (g c) = c_netFD c ∧ c_poll (g c) = c_poll c ∧ c_detached (g c) = c_detached c ∧ c_locks (g c) = c_locks c ∧ c_callbacks (g c) = c_callbacks c) →
  held w fd false false false us s → held w fd false false false us (CW (g (co s)) (nw s)).
Proof.
  intros Hg []. destruct (Hg (co s)) as (E1&E2&E3&E4&E5). constructor; cbn [co nw]; rewrite ?E1, ?E2, ?E3, ?E4, ?E5; done.
Qed.

Ltac setters :=
  intros []; unfold SetOnConnect, SetOnDisconnect, SetOnRequest, SetReadTimeout, SetWriteTimeout; simpl; repeat case_match; done.

Lemma onPrepare_ok opts s : held w fd false false false [] s →
  wp (onPrepare epoll_add opts) (init_end epoll_add opts w fd) s.
Proof.
  intros Hh. unfold onPrepare, init_end. apply wp_bind.
  eapply (wp_mono _ (λ _ s', let '(e, us') := prepared (prepare_acts opts) [] in
    match e with None => held w fd false false false us' s' | Some d => released w fd d us' s' end)).
  - destruct opts as [op|]; [|by apply wp_ret].
    apply wp_bind, wp_modify, wp_bind, wp_modify, wp_bind, wp_modify, wp_bind, wp_modify, wp_bind, wp_modify. cbn [co nw].
    assert (held w fd false false false [] (CW (SetWriteTimeout (o_writeTimeout op) (SetReadTimeout (o_readTimeout op)
      (SetOnRequest (o_onRequest op) (SetOnDisconnect (o_onDisconnect op) (SetOnConnect (o_onConnect op) (co s)))))) (nw s))) as Hh'.
    { apply (held_setter (SetWriteTimeout _) _ (CW _ _)); [setters|]. apply (held_setter (SetReadTimeout _) _ (CW _ _)); [setters|].
      apply (held_setter (SetOnRequest _) _ (CW _ _)); [setters|]. apply (held_setter (SetOnDisconnect _) _ (CW _ _)); [setters|].
      apply (held_setter (SetOnConnect _) _ (CW _ _)); [setters|]. by destruct s. }
    unfold prepare_acts. simpl. destruct (o_onPrepare op) as [[acts ctx]|]; [|by apply wp_ret]. apply wp_bind.
    eapply wp_mono; [by apply (uacts_run_ok acts _ [])|]. intros ? s' H. apply wp_modify.
    destruct (prepared acts []) as [[d|] us]; destruct s', H; by constructor.
  - intros _ s'. destruct (prepared (prepare_acts opts) []) as [[d|] us]; intros H; apply wp_bind, wp_get.
    + unfold IsActive, isCloseBy. cbn [status]. rewrite (proj2 (Z.eqb_neq _ _)) by apply (r_closing _ _ _ _ _ H).
      by apply wp_ret.
    + unfold IsActive, isCloseBy. cbn [status]. rewrite (h_closing _ _ _ _ _ _ _ H). cbn.
      eapply wp_mono; [by apply register_ok|]. intros r s'' [(->&->&?)|(->&?&?)]; [done|]. by destruct (epoll_add fd).
Qed.
End one.

(** How init ends. *)
Lemma init_ok epoll_add zerocopy conn opts w :
  let fd := nf_fd (initNetFD conn) in
  2 < fd → fd ∉ n_polled w → nf_closed (initNetFD conn) = 0 → nf_detaching (initNetFD conn) = false →
  ∃ r s, init epoll_add zerocopy conn opts w = Ret (r, s) ∧ init_end epoll_add opts w fd r s.
Proof.
  intros fd Hfd Hnew Hc Hd. set (s0 := CW (new_connection (initNetFD conn)) w).
  assert (wp (_ ← updw (add_ops 1); _ ← AddCloseCallback CFinalizer;
    _ ← upd (set_zeroCopy (bool_decide (zerocopy = (None, None)))); onPrepare epoll_add opts)
    (init_end epoll_add opts w fd) s0) as Hw.
  { apply wp_bind, wp_modify, wp_bind, wp_modify, wp_bind, wp_modify. by apply onPrepare_ok. }
  apply wp_run in Hw as (r&s&E&H). by exists r, s.
Qed.

Lemma held_active w fd reg d us s : held w fd reg d false us s → IsActive (co s) = true.
Proof. intros H. unfold IsActive, isCloseBy. cbn [status]. by rewrite (h_closing _ _ _ _ _ _ _ H). Qed.

Lemma released_inactive w fd d us s : released w fd d us s → IsActive (co s) = false.
Proof. intros H. unfold IsActive, isCloseBy. cbn [status]. apply Z.eqb_neq, (r_closing _ _ _ _ _ H). Qed.

(** C40: init of a connection, on a descriptor above 2 that is not registered
    and that the connection has neither closed nor detached, returns, whichever
    callbacks OnPrepare adds, whether it closes or detaches the connection, and
    whatever epoll_ctl and SO_ZEROCOPY answer.  When OnPrepare leaves the
    connection open and registering succeeds, the result is nil and the
    connection is active: it is registered, one operator is in use, and the
    finalizer is behind the callbacks of the user.  When registering fails the
    result is ErrConnClosed; then, and when OnPrepare has ended the connection,
    the operator is given back, the callbacks of the user have run, the latest
    first, the descriptor is not registered, and it is closed unless OnPrepare
    called Detach.  The goroutines that OnConnect and the poller may start are
    not part of it. *)
Theorem conn_init_spec epoll_add zerocopy conn opts w :
  let fd := nf_fd (initNetFD conn) in
  2 < fd → fd ∉ n_polled w → nf_closed (initNetFD conn) = 0 → nf_detaching (initNetFD conn) = false →
  ∃ r s, init epoll_add zerocopy conn opts w = Ret (r, s) ∧
    let '(e, us) := prepared (prepare_acts opts) [] in
    match e, epoll_add fd with
    | None, None => r = None ∧ IsActive (co s) = true ∧ c_callbacks (co s) = (CUser <$> us) ++ [CFinalizer] ∧
        nw s = Net (n_open w) ({[fd]} ∪ n_polled w) (n_ops w + 1) (n_ran w)
    | Some detached, _ => r = None ∧ IsActive (co s) = false ∧
        nw s = Net (if detached then n_open w else n_open w ∖ {[fd]}) (n_polled w) (n_ops w) (n_ran w ++ us)
    | None, Some _ => r = Some ErrConnClosed ∧ IsActive (co s) = false ∧
        nw s = Net (n_open w ∖ {[fd]}) (n_polled w) (n_ops w) (n_ran w ++ us)
    end.
Proof.
  intros fd Hfd Hnew Hc Hd. destruct (init_ok epoll_add zerocopy conn opts w Hfd Hnew Hc Hd) as (r&s&E&H).
  exists r, s. split; [done|]. unfold init_end in H. fold fd in H.
  destruct (prepared _ _) as [[d|] us]; [|destruct (epoll_add fd)]; destruct H as [-> H].
  - split_and!; [done|by eapply released_inactive|apply (r_net _ _ _ _ _ H)].
  - split_and!; [done|by eapply released_inactive|apply (r_net _ _ _ _ _ H)].
  - split_and!; [done|by eapply held_active|apply (h_callbacks _ _ _ _ _ _ _ H)|apply (h_net _ _ _ _ _ _ _ H)].
Qed.

(** Without options, init registers the connection or releases it. *)
Lemma init_plain epoll_add zerocopy conn w :
  let fd := nf_fd (initNetFD conn) in
  2 < fd → fd ∉ n_polled w → nf_closed (initNetFD conn) = 0 → nf_detaching (initNetFD conn) = false →
  ∃ r s, init epoll_add zerocopy conn None w = Ret (r, s) ∧
    (r = None ∧ c_netFD (co s) = initNetFD conn ∧ IsActive (co s) = true ∧
       nw s = Net (n_open w) ({[fd]} ∪ n_polled w) (n_ops w + 1) (n_ran w) ∨
     r = Some ErrConnClosed ∧ nw s = Net (n_open w ∖ {[fd]}) (n_polled w) (n_ops w) (n_ran w ++ [])).
Proof.
  intros fd Hfd Hnew Hc Hd. set (s0 := CW (set_zeroCopy (bool_decide (zerocopy = (None, None)))
    (set_callbacks [CFinalizer] (new_connection (initNetFD conn)))) (add_ops 1 w)).
  change (init epoll_add zerocopy conn None w) with (register epoll_add s0).
  assert (held w fd false false false [] s0) as Hh by (by constructor).
  destruct (wp_run _ _ _ (register_ok fd w Hfd Hnew epoll_add [] s0 Hh)) as (r&s&E&H). exists r, s. split; [done|].
  destruct H as [(->&Ea&H)|(->&_&H)]; [left|right; split; [done|apply (r_net _ _ _ _ _ H)]].
  split_and!; [done| | |apply (h_net _ _ _ _ _ _ _ H)].
  - unfold register, mbind, M_bind, ctl_add in E. simpl in E. fold fd in E. rewrite decide_False, Ea in E by done.
    by injection E as <-.
  - by eapply held_active.
Qed.

(** ** The end of a connection *)

Inductive life := LClose | LDetach | LHup.

#[global] Instance life_eq_dec : EqDecision life.
Proof. solve_decision. Defined.

Definition life_run (a : life) : M cw unit :=
  match a with LClose => onClose | LDetach => Detach | LHup => hang_up end.

Fixpoint lives_run (l : list life) : M cw unit :=
  match l with
  | [] => mret tt
  | a :: l => _ ← life_run a; lives_run l
  end.

(** What gives the connection's resources back: a hang-up only with a handler. *)
Definition ends (c : connection) (a : life) : bool :=
  match a with LClose | LDetach => true | LHup => c_onConnect c || c_onRequest c end.

Definition same_handlers (c c' : connection) : Prop := c_onConnect c' = c_onConnect c ∧ c_onRequest c' = c_onRequest c.

Section ends.
Context (fd : Z) (w : net) (Hfd : 2 < fd) (Hnew : fd ∉ n_polled w).

Lemma hang_up_held reg hup us s : held w fd reg false hup us s →
  wp hang_up (λ _ s', if negb hup && ends (co s) LHup then released w fd false us s'
                    else held w fd false false true us s' ∧ same_handlers (co s) (co s')) s.
Proof.
  intros Hh. pose proof Hh as [Hf _ _ Hp Hr _ Hu _ _ _ Hn]. unfold hang_up. apply wp_bind, wp_get. rewrite Hp. apply wp_bind.
  apply (control_detach_ok fd w Hfd Hnew reg); [done|destruct hup, reg; naive_solver|done|]. clear Hn.
  destruct s as [[[fd' cl st ze fam so ic ne l r de] p dt [k1 k2 k3 k4] cbs h1 h2 h3 t1 t2 ctx z i o] nw].
  destruct Hh as [? ? ? ? ? ? Hhup ? ? ? ?]. simpl in *. subst. unfold onHup. apply wp_bind, wp_get. simpl.
  destruct hup; simpl; [|apply wp_bind, wp_modify; simpl; destruct (h1 || h3) eqn:Eh; simpl].
  - apply wp_ret. split; [|done]. constructor; try done. simpl. lia.
  - unfold closeCallback. apply wp_bind, wp_get. simpl. apply wp_bind, wp_modify, wp_bind, wp_ret, wp_bind, wp_get. simpl.
    by apply callbacks_held.
  - apply wp_ret. split; [|done]. constructor; try done. simpl. lia.
Qed.

Lemma hang_up_released d us s : released w fd d us s → wp hang_up (λ _, released w fd d us) s.
Proof. intros H. unfold hang_up. apply wp_bind, wp_get. rewrite (r_poll _ _ _ _ _ H). by apply wp_ret. Qed.

Lemma life_held a reg hup us s : held w fd reg false hup us s →
  wp (life_run a) (λ _ s', if ends (co s) a && negb (hup && bool_decide (a = LHup))
    then ∃ d, released w fd d us s' ∧ (d = true ↔ a = LDetach)
    else held w fd false false true us s' ∧ same_handlers (co s) (co s')) s.
Proof.
  intros Hh. destruct a; cbn [life_run ends andb].
  - rewrite andb_false_r. eapply wp_mono; [by eapply onClose_held|]. intros ? s' H. exists false. by split.
  - rewrite andb_false_r. unfold Detach. apply wp_bind, wp_modify.
    eapply wp_mono; [apply (onClose_held fd w Hfd Hnew reg true hup us)|intros ? s' H; exists true; by split].
    destruct s, Hh. by constructor.
  - rewrite andb_true_r. eapply wp_mono; [by eapply hang_up_held|]. intros ? s' H. cbn [ends] in H. rewrite andb_comm.
    destruct (negb hup && _); [|done]. exists false. by split.
Qed.
Lemma lives_released l : ∀ d us s, released w fd d us s → wp (lives_run l) (λ _, released w fd d us) s.
Proof.
  induction l as [|a l IH]; intros d us s H; [by apply wp_ret|]. apply wp_bind. eapply wp_mono; [|intros ? s'; apply IH].
  destruct a; cbn [life_run]; [by apply onClose_released| |by apply hang_up_released].
  unfold Detach. apply wp_bind, wp_modify. apply onClose_released; [done..|]. destruct s, H. by constructor.
Qed.

(** The first event that ends the connection is a Detach. *)
Definition detached_by (c : connection) (l : list life) : bool :=
  match head (filter (λ a, ends c a = true) l) with Some LDetach => true | _ => false end.

Lemma lives_held l : ∀ reg hup us s, held w fd reg false hup us s → (hup = true → ends (co s) LHup = false) →
  wp (lives_run l) (λ _ s',
    if existsb (ends (co s)) l then released w fd (detached_by (co s) l) us s'
    else ∃ hup', held w fd (reg && bool_decide (l = [])) false hup' us s') s.
Proof.
  induction l as [|a l IH]; intros reg hup us s Hh Hn; [apply wp_ret; exists hup; by rewrite andb_true_r|].
  apply wp_bind. eapply wp_mono; [exact (life_held a reg hup us s Hh)|]. intros [] s1 H1. cbn [existsb].
  assert (ends (co s) a && negb (hup && bool_decide (a = LHup)) = ends (co s) a) as Ea.
  { destruct hup; [|by rewrite andb_true_r]. destruct a; [done..|]. by rewrite Hn. }
  rewrite Ea in H1. unfold detached_by. rewrite filter_cons. destruct (ends (co s) a) eqn:E.
  - destruct H1 as (d&H1&Hd). rewrite decide_True by done. cbn [orb head].
    replace (match a with LDetach => true | _ => false end) with d; [by apply lives_released|].
    destruct a, d; try done; destruct Hd as [Hd1 Hd2]; naive_solver.
  - destruct H1 as [H1 [Hc Hq]]. rewrite decide_False by done. cbn [orb].
    assert (ends (co s1) = ends (co s)) as Eb by (unfold ends; by rewrite Hc, Hq).
    eapply wp_mono; [apply (IH false true us s1 H1); rewrite Eb; by destruct a|].
    intros ? s' H. unfold detached_by in H. rewrite Eb in H. destruct (existsb (ends (co s)) l); [done|].
    destruct H as [h H]. exists h. by rewrite (bool_decide_eq_false_2 (a :: l = [])), andb_false_r.
Qed.
End ends.

Lemma lives_ends fd w us s l :
  2 < fd → fd ∉ n_polled w → held w fd true false false us s →
  ∃ s', lives_run l s = Ret (tt, s') ∧
    nw s' = if existsb (ends (co s)) l
      then Net (if detached_by (co s) l then n_open w else n_open w ∖ {[fd]}) (n_polled w) (n_ops w) (n_ran w ++ us)
      else Net (n_open w) (if decide (l = []) then {[fd]} ∪ n_polled w else n_polled w) (n_ops w + 1) (n_ran w).
Proof.
  intros Hfd Hnew Hh. destruct (wp_run _ _ _ (lives_held fd w Hfd Hnew l _ _ _ _ Hh ltac:(done))) as ([]&s'&E&H).
  exists s'. split; [done|]. destruct (existsb _ l); [apply (r_net _ _ _ _ _ H)|]. destruct H as [hup H].
  rewrite (h_net _ _ _ _ _ _ _ H). by destruct l.
Qed.

(** C23: A registered connection ends once.  Whatever sequence of Close, Detach
    and hang-ups reaches it, as soon as one of them ends it (a hang-up does
    when a handler is set) the descriptor is closed, unless that one was
    Detach, and forgotten by the poller, the operator is given back, and the
    close callbacks have run once, the latest first; before that, and when
    none does, the descriptor is open, and only a hang-up takes it from the
    poller. *)
Theorem conn_ends_once fd w us s l :
  2 < fd → fd ∉ n_polled w → held w fd true false false us s →
  ∃ s', lives_run l s = Ret (tt, s') ∧
    nw s' = if existsb (ends (co s)) l
      then Net (if detached_by (co s) l then n_open w else n_open w ∖ {[fd]}) (n_polled w) (n_ops w) (n_ran w ++ us)
      else Net (n_open w) (if decide (l = []) then {[fd]} ∪ n_polled w else n_polled w) (n_ops w + 1) (n_ran w).
Proof. apply lives_ends. Qed.

(** ** Examples *)

Definition demo_net : net := Net {[7]} ∅ 0 [].

(** A connection to which OnPrepare adds a callback. *)
Definition demo_options : options := new_options false [WithOnPrepare (Some ([UAddCloseCallback 1; UAddCloseCallback 2], false))].

Lemma conn_init_spec_witness :
  ∃ r s, init (λ _, None) (None, None) (CNetFD (plain_netFD 7 None None)) (Some demo_options) demo_net = Ret (r, s) ∧
    r = None ∧ IsActive (co s) = true ∧ c_callbacks (co s) = [CUser 2; CUser 1; CFinalizer] ∧
    nw s = Net {[7]} ({[7]} ∪ ∅) (0 + 1) [].
Proof.
  apply (conn_init_spec (λ _, None) (None, None) (CNetFD (plain_netFD 7 None None)) (Some demo_options) demo_net);
    [done|apply not_elem_of_empty|done|done].
Defined.

Definition demo_cw : cw :=
  CW (set_callbacks [CUser 2; CUser 1; CFinalizer] (new_connection (plain_netFD 7 None None))) (Net {[7]} ({[7]} ∪ ∅) (0 + 1) []).

Lemma conn_ends_once_witness :
  ∃ s', lives_run [LHup; LClose; LClose] demo_cw = Ret (tt, s') ∧
    nw s' = if existsb (ends (co demo_cw)) [LHup; LClose; LClose]
      then Net (if detached_by (co demo_cw) [LHup; LClose; LClose] then {[7]} else {[7]} ∖ {[7]}) ∅ 0 ([] ++ [2; 1]%nat)
      else Net {[7]} (if decide ([LHup; LClose; LClose] = []) then {[7]} ∪ ∅ else ∅) (0 + 1) [].
Proof. apply (conn_ends_once 7 demo_net [2; 1]%nat demo_cw); [done|apply not_elem_of_empty|by constructor]. Defined.
