(* ===== verification/PollDesc.v ===== *)
(** * Waiting for connect

    Models src/net_polldesc.go, with Control, do, done and unused of
    src/fd_operator.go: the dialing goroutine that waits in WaitWrite and then
    gives its operator back, the poller, which calls onwrite, and the goroutine
    that calls onhup after the poller has removed the descriptor, as threads.  A
    step is one atomic operation; a select that looks at a channel and the close
    that follows are two, and so are the counter of Control and the system call. *)

From Stdlib Require Import ZifyBool.
From S2P Require Import Prelude Threads.

Open Scope Z_scope.

(** The operator (its state, whether epoll knows the descriptor and the counter
    detached) and the two channels, which are closed or not; [pd_broken]: a
    closed channel was closed again, which panics; [pd_hups]: how often epoll,
    which watches the descriptor edge-triggered, may still report a hang-up. *)
Record pollDesc := PollDesc {
  pd_state : Z;
  pd_registered : bool;
  pd_detached : Z;
  pd_write : bool;
  pd_close : bool;
  pd_broken : bool;
  pd_hups : nat;
}.

Definition set_state x s := PollDesc x (pd_registered s) (pd_detached s) (pd_write s) (pd_close s) (pd_broken s) (pd_hups s).
Definition set_registered x s := PollDesc (pd_state s) x (pd_detached s) (pd_write s) (pd_close s) (pd_broken s) (pd_hups s).
Definition set_detached x s := PollDesc (pd_state s) (pd_registered s) x (pd_write s) (pd_close s) (pd_broken s) (pd_hups s).
Definition set_hups x s := PollDesc (pd_state s) (pd_registered s) (pd_detached s) (pd_write s) (pd_close s) (pd_broken s) x.

(** [newPollDesc(fd)] *)
Definition newPollDesc (hups : nat) : pollDesc := PollDesc 0 false 0 false false false hups.

(** [operator.Control(PollWritable)]: the operator is marked before the kernel
    is asked, which may refuse. *)
Definition pd_control (ok : bool) (s : pollDesc) : pollDesc := set_registered ok (set_state 1 s).

(** [operator.Control(PollDetach)]: [atomic.AddInt32(&op.detached, 1)]; whether
    the system call follows. *)
Definition pd_count (s : pollDesc) : pollDesc := set_detached (pd_detached s + 1) s.
Definition pd_first (s : pollDesc) : bool := negb (1 <? pd_detached s + 1).
(** EPOLL_CTL_DEL *)
Definition pd_del (s : pollDesc) : pollDesc := set_registered false s.

Definition close_write (s : pollDesc) : pollDesc :=
  PollDesc (pd_state s) (pd_registered s) (pd_detached s) true (pd_close s) (pd_broken s || pd_write s) (pd_hups s).
Definition close_close (s : pollDesc) : pollDesc :=
  PollDesc (pd_state s) (pd_registered s) (pd_detached s) (pd_write s) true (pd_broken s || pd_close s) (pd_hups s).

(** The results of WaitWrite. *)
Inductive wait_err := ERegister | EClosed | ECtx.

Inductive ppc :=
(* WaitWrite; then connect waits again, or gives the operator back *)
| WStart | WControl | WSelect | WDetach | WDel | WCheck (err : option wait_err) | WReturned (err : option wait_err)
| WFree (err : option wait_err) | WEnded (err : option wait_err)
(* the poller: it waits, has fetched an event, runs onwrite or appendHup *)
| PIdle | PEvent (hup : bool) | PWrite | PDetach | PDel | PClose | PDone | PHup | PHupDel | PHupDone
(* onhup *)
| HSelect | HClose | HDone.

(** Which case of a select is taken, or which event there is; whether the
    kernel registers; whether connect is done. *)
Inductive pchoice := CWrite | CClose | CCtx | CFail.

Definition WaitWrite_step (s : pollDesc) (p : ppc) (c : pchoice) : option (pollDesc * ppc * list ppc) :=
  match p, c with
  | WStart, _ => Some (s, if pd_state s =? 0 then WControl else WSelect, [])
  | WControl, CFail => Some (pd_control false s, WReturned (Some ERegister), [])
  | WControl, _ => Some (pd_control true s, WSelect, [])
  | WSelect, CClose => if pd_close s then Some (s, WReturned (Some EClosed), []) else None
  | WSelect, CWrite => if pd_write s then Some (s, WCheck None, []) else None
  | WSelect, CCtx => Some (s, WDetach, [])
  | WDetach, _ => Some (pd_count s, if pd_first s then WDel else WCheck (Some ECtx), [])
  | WDel, _ => Some (pd_del s, WCheck (Some ECtx), [])
  | WCheck err, _ => Some (s, WReturned (if pd_close s then Some EClosed else err), [])
  | WReturned None, CWrite => Some (s, WStart, [])      (* connect waits again *)
  | WReturned err, _ => Some (s, WFree err, [])
  (* [operator.Free()] waits while the poller handles an event *)
  | WFree err, _ => if pd_state s =? 2 then None else Some (set_state 0 s, WEnded err, [])
  | _, _ => None
  end.

(** The poller gets events as long as epoll knows the descriptor, and handles
    them when it can take the operator. *)
Definition onwrite_step (s : pollDesc) (p : ppc) (c : pchoice) : option (pollDesc * ppc * list ppc) :=
  match p, c with
  | PIdle, CWrite => if pd_registered s then Some (s, PEvent false, []) else None
  | PIdle, CClose =>
      match pd_hups s with
      | S n => if pd_registered s then Some (set_hups n s, PEvent true, []) else None
      | O => None
      end
  | PEvent hup, _ =>
      if pd_state s =? 1 then Some (set_state 2 s, if hup then PHup else PWrite, []) else Some (s, PIdle, [])
  | PWrite, _ => Some (s, if pd_write s then PDone else PDetach, [])
  | PDetach, _ => Some (pd_count s, if pd_first s then PDel else PClose, [])
  | PDel, _ => Some (pd_del s, PClose, [])
  | PClose, _ => Some (close_write s, PDone, [])
  | PDone, _ => Some (set_state 1 s, PIdle, [])
  | PHup, _ => Some (pd_count s, if pd_first s then PHupDel else PHupDone, [])
  | PHupDel, _ => Some (pd_del s, PHupDone, [])
  | PHupDone, _ => Some (set_state 1 s, PIdle, [HSelect])
  | _, _ => None
  end.

Definition onhup_step (s : pollDesc) (p : ppc) : option (pollDesc * ppc * list ppc) :=
  match p with
  | HSelect => Some (s, if pd_close s then HDone else HClose, [])
  | HClose => Some (close_close s, HDone, [])
  | _ => None
  end.

Definition pdstep (s : pollDesc) (p : ppc) (c : pchoice) : option (pollDesc * ppc * list ppc) :=
  match p with
  | WStart | WControl | WSelect | WDetach | WDel | WCheck _ | WReturned _ | WFree _ | WEnded _ => WaitWrite_step s p c
  | PIdle | PEvent _ | PWrite | PDetach | PDel | PClose | PDone | PHup | PHupDel | PHupDone => onwrite_step s p c
  | HSelect | HClose | HDone => onhup_step s p
  end.

Definition pd_cfg := config pollDesc ppc.
Definition pd_reach : pd_cfg → pd_cfg → Prop := reach pdstep (λ _, false).

(** One goroutine dials, one poller. *)
Definition pd_init (hups : nat) : pd_cfg := Cfg (newPollDesc hups) [WStart; PIdle].

(** ** Invariants *)

Definition waiter (p : ppc) : nat :=
  match p with
  | WStart | WControl | WSelect | WDetach | WDel | WCheck _ | WReturned _ | WFree _ | WEnded _ => 1
  | _ => 0
  end.
Definition poller (p : ppc) : nat :=
  match p with
  | PIdle | PEvent _ | PWrite | PDetach | PDel | PClose | PDone | PHup | PHupDel | PHupDone => 1
  | _ => 0
  end.

(** The waiter has not registered yet. *)
Definition unregistered (p : ppc) : nat := match p with WControl => 1 | _ => 0 end.
(** The poller has taken the operator. *)
Definition busy (p : ppc) : nat :=
  match p with PWrite | PDetach | PDel | PClose | PDone | PHup | PHupDel | PHupDone => 1 | _ => 0 end.
(** The poller is past its check of writeTrigger. *)
Definition writing (p : ppc) : nat := match p with PDetach | PDel | PClose => 1 | _ => 0 end.
(** The poller has an event of a hang-up; the goroutine of onhup runs. *)
Definition hanging (p : ppc) : nat := match p with PEvent true | PHup | PHupDel | PHupDone => 1 | _ => 0 end.
Definition upping (p : ppc) : nat := match p with HSelect | HClose => 1 | _ => 0 end.
(** The waiter, or the poller, is about to remove the descriptor. *)
Definition wdels (p : ppc) : nat := match p with WDel => 1 | _ => 0 end.
Definition pdels (p : ppc) : nat := match p with PDel | PHupDel => 1 | _ => 0 end.
(** The poller is past the removal, and a channel will be closed. *)
Definition wakes (p : ppc) : nat := match p with PClose | PHupDone | HSelect | HClose => 1 | _ => 0 end.
(** The waiter is after a detach for the end of the context, or has returned
    with an error, or connect is done; it has given the operator back. *)
Definition gone (p : ppc) : nat :=
  match p with WCheck (Some _) | WReturned (Some _) | WFree _ | WEnded _ => 1 | _ => 0 end.
Definition ended (p : ppc) : nat := match p with WEnded _ => 1 | _ => 0 end.
Definition returned_ok (p : ppc) : nat := match p with WCheck None | WReturned None => 1 | _ => 0 end.
Definition returned_closed (p : ppc) : nat := match p with WCheck (Some EClosed) | WReturned (Some EClosed) => 1 | _ => 0 end.
(** It waits, or is about to. *)
Definition waits (p : ppc) : nat := match p with WSelect => 1 | _ => 0 end.
(** It has registered. *)
Definition started (p : ppc) : nat :=
  match p with WSelect | WDetach | WDel | WCheck _ | WReturned _ | WFree _ => 1 | _ => 0 end.
Definition starting (p : ppc) : nat := match p with WStart => 1 | _ => 0 end.
Definition events (p : ppc) : nat :=
  match p with PIdle | WStart | WControl | WSelect | WDetach | WDel | WCheck _ | WReturned _ | WFree _ | WEnded _ | HDone => 0 | _ => 1 end.

(** One waiter, one poller. *)
Definition inv_one (c : pd_cfg) : Prop := tally waiter (threads c) = 1%nat ∧ tally poller (threads c) = 1%nat.
(** Before the descriptor is registered nothing has happened. *)
Definition inv_start (c : pd_cfg) : Prop := pd_state (shared c) = 0 → tally ended (threads c) = 0%nat →
  pd_registered (shared c) = false ∧ pd_detached (shared c) = 0 ∧ pd_write (shared c) = false ∧ pd_close (shared c) = false ∧
  tally events (threads c) = 0%nat ∧ tally started (threads c) = 0%nat.
Definition inv_fresh (c : pd_cfg) : Prop := (1 ≤ tally unregistered (threads c))%nat → pd_state (shared c) = 0.
(** The operator is taken while the poller handles an event. *)
Definition inv_state (c : pd_cfg) : Prop :=
  0 <= pd_state (shared c) <= 2 ∧ tally busy (threads c) = Nat.b2n (pd_state (shared c) =? 2).
(** It is registered once: whoever counts first removes it. *)
Definition inv_detached (c : pd_cfg) : Prop :=
  0 <= pd_detached (shared c) ∧
  (1 <= pd_detached (shared c) → pd_registered (shared c) = true → (1 ≤ tally wdels (threads c) + tally pdels (threads c))%nat) ∧
  ((1 ≤ tally wdels (threads c) + tally pdels (threads c))%nat → 1 <= pd_detached (shared c)).
Definition inv_write (c : pd_cfg) : Prop := (1 ≤ tally writing (threads c))%nat → pd_write (shared c) = false.
(** A channel is closed after the removal, or while the waiter is about to
    remove the descriptor, *)
Definition inv_after (c : pd_cfg) : Prop :=
  pd_write (shared c) = true ∨ pd_close (shared c) = true ∨ (1 ≤ tally wakes (threads c))%nat →
  1 <= pd_detached (shared c) ∧ (pd_registered (shared c) = true → (1 ≤ tally wdels (threads c))%nat).
(** and WaitWrite returns after it, or while the poller is about to. *)
Definition inv_gone (c : pd_cfg) : Prop :=
  (1 ≤ tally gone (threads c))%nat → pd_registered (shared c) = true → (1 ≤ tally pdels (threads c))%nat.
Definition inv_ended (c : pd_cfg) : Prop :=
  (1 ≤ tally ended (threads c))%nat → pd_registered (shared c) = false ∧ pd_state (shared c) = 0.
(** There is one hang-up at most. *)
Definition inv_hup (c : pd_cfg) : Prop :=
  (tally upping (threads c) + tally hanging (threads c) + Nat.b2n (pd_close (shared c)) + pd_hups (shared c) ≤ 1)%nat.
Definition inv_ok (c : pd_cfg) : Prop := (1 ≤ tally returned_ok (threads c))%nat → pd_write (shared c) = true.
Definition inv_closed (c : pd_cfg) : Prop := (1 ≤ tally returned_closed (threads c))%nat → pd_close (shared c) = true.
Definition inv_again (c : pd_cfg) : Prop :=
  (1 ≤ tally starting (threads c))%nat → pd_state (shared c) ≠ 0 → pd_write (shared c) = true.
(** Somebody will wake the waiter. *)
Definition inv_waits (c : pd_cfg) : Prop := (1 ≤ tally waits (threads c))%nat →
  pd_registered (shared c) = true ∨ pd_write (shared c) = true ∨ pd_close (shared c) = true ∨ (1 ≤ tally wakes (threads c))%nat.
Definition inv_broken (c : pd_cfg) : Prop := pd_broken (shared c) = false.

(** What holds for any number of hang-ups, *)
Record pd_inv (c : pd_cfg) : Prop := PdInv {
  i_one : inv_one c; i_start : inv_start c; i_fresh : inv_fresh c; i_state : inv_state c; i_detached : inv_detached c;
  i_write : inv_write c; i_after : inv_after c; i_ok : inv_ok c; i_closed : inv_closed c; i_gone : inv_gone c;
  i_ended : inv_ended c; i_again : inv_again c; i_waits : inv_waits c;
}.
(** and for one. *)
Record pd_inv1 (c : pd_cfg) : Prop := PdInv1 { i_all : pd_inv c; i_hup : inv_hup c; i_broken : inv_broken c }.

Ltac pd_unfold := unfold inv_one, inv_start, inv_fresh, inv_state, inv_detached, inv_write, inv_after, inv_hup, inv_ok, inv_closed,
  inv_gone, inv_ended, inv_again, inv_waits, inv_broken in *; cbn [shared threads] in *.

Ltac weights := intros q; destruct q as [| | | | |[[]|]|[[]|]|[[]|]|[[]|]| |[]| | | | | | | | | | |]; simpl; lia.

Section step.
Context (s : pollDesc) (ths : list ppc) (i : nat) (p : ppc) (c : pchoice) (s' : pollDesc) (p' : ppc) (sp : list ppc).
Context (Hi : ths !! i = Some p) (Hs : pdstep s p c = Some (s', p', sp)).

(** The waiter and the poller are one thread each. *)
Lemma waiter_is f : (∀ q, f q ≤ waiter q)%nat → inv_one (Cfg s ths) → waiter p = 1%nat → tally f ths = f p.
Proof. intros Hf [H1 _] Hp. apply (tally_single f waiter _ i); [done|cbn [threads] in H1; lia|done..]. Qed.

Lemma poller_is f : (∀ q, f q ≤ poller q)%nat → inv_one (Cfg s ths) → poller p = 1%nat → tally f ths = f p.
Proof. intros Hf [_ H1] Hp. apply (tally_single f poller _ i); [done|cbn [threads] in H1; lia|done..]. Qed.

(** The cases of the step. *)
Ltac pd_cases :=
  pd_unfold; destruct s as [st rg dt wt ct br hu];
  cbn [pd_state pd_registered pd_detached pd_write pd_close pd_broken pd_hups] in *;
  destruct p as [| | | | |[[]|]|[[]|]|[[]|]|[[]|]| |[]| | | | | | | | | | |];
  cbv [pdstep WaitWrite_step onwrite_step onhup_step pd_control pd_count pd_first pd_del close_write close_close
    set_state set_registered set_detached set_hups] in Hs;
  cbn [pd_state pd_registered pd_detached pd_write pd_close pd_broken pd_hups] in Hs;
  repeat match type of Hs with
  | context [negb (1 <? ?x)] => destruct (Z.ltb_spec 1 x); cbn [negb] in Hs
  | context [?x =? ?y] => destruct (Z.eqb_spec x y)
  | context [match ?x with _ => _ end] => is_var x; destruct x
  end;
  try discriminate Hs; injection Hs as <- <- <-; simpl in *; try lia.

Abbreviation old := (Cfg s ths).
Abbreviation new := (Cfg s' (<[i := p']> ths ++ sp)).

Lemma st_one : inv_one old → inv_one new.
Proof using Hi Hs. intros I. count waiter Hi Hs. count poller Hi Hs. pd_cases. Qed.

Lemma st_start : inv_one old → inv_fresh old → inv_state old → inv_start old → inv_start new.
Proof using Hi Hs.
  intros I1 I2 I3 I. count events Hi Hs. count started Hi Hs. count ended Hi Hs. pose proof (tally_pos busy _ _ _ Hi).
  pose proof (waiter_is ended ltac:(weights) I1) as W. clear I1. pd_cases.
Qed.

Lemma st_fresh : inv_one old → inv_state old → inv_fresh old → inv_fresh new.
Proof using Hi Hs.
  intros I1 I2 I. count unregistered Hi Hs. pose proof (waiter_is unregistered ltac:(weights) I1) as W.
  pose proof (tally_pos busy _ _ _ Hi). clear I1. pd_cases.
Qed.

Lemma st_state : inv_one old → inv_fresh old → inv_state old → inv_state new.
Proof using Hi Hs. intros I1 I2 I. count busy Hi Hs. pose proof (tally_pos unregistered _ _ _ Hi). clear I1. pd_cases. Qed.

Lemma st_detached : inv_one old → inv_start old → inv_fresh old → inv_detached old → inv_detached new.
Proof using Hi Hs.
  intros I1 I2 I3 I. count wdels Hi Hs. count pdels Hi Hs. pose proof (tally_pos unregistered _ _ _ Hi).
  pose proof (waiter_is ended ltac:(weights) I1) as W. clear I1. pd_cases.
Qed.

Lemma st_write : inv_one old → inv_write old → inv_write new.
Proof using Hi Hs.
  intros I1 I. count writing Hi Hs. pose proof (poller_is writing ltac:(weights) I1) as W. clear I1. pd_cases.
Qed.

Lemma st_after : inv_one old → inv_start old → inv_fresh old → inv_detached old → inv_after old → inv_after new.
Proof using Hi Hs.
  intros I1 I2 I3 I4 I. count wakes Hi Hs. count wdels Hi Hs. pose proof (tally_pos unregistered _ _ _ Hi).
  pose proof (tally_le wakes events ths ltac:(weights)). pose proof (poller_is pdels ltac:(weights) I1) as P.
  pose proof (waiter_is ended ltac:(weights) I1) as W. clear I1. pd_cases.
Qed.

Lemma st_hup : inv_hup old → inv_hup new.
Proof using Hi Hs. intros I. count upping Hi Hs. count hanging Hi Hs. pd_cases. Qed.

Lemma st_ok : inv_ok old → inv_ok new.
Proof using Hi Hs. intros I. count returned_ok Hi Hs. pd_cases. Qed.

Lemma st_closed : inv_closed old → inv_closed new.
Proof using Hi Hs. intros I. count returned_closed Hi Hs. pd_cases. Qed.

Lemma st_gone : inv_one old → inv_detached old → inv_after old → inv_ok old → inv_gone old → inv_gone new.
Proof using Hi Hs.
  intros I1 I2 I3 I4 I. count gone Hi Hs. count pdels Hi Hs. pose proof (tally_pos returned_ok _ _ _ Hi).
  pose proof (waiter_is wdels ltac:(weights) I1) as W. pose proof (waiter_is gone ltac:(weights) I1) as W'. clear I1. pd_cases.
Qed.

Lemma st_ended : inv_one old → inv_state old → inv_gone old → inv_ended old → inv_ended new.
Proof using Hi Hs.
  intros I1 I2 I3 I. count ended Hi Hs. pose proof (tally_pos gone _ _ _ Hi). pose proof (tally_pos busy _ _ _ Hi).
  pose proof (tally_le pdels busy ths ltac:(weights)). pose proof (waiter_is ended ltac:(weights) I1) as W. clear I1. pd_cases.
Qed.

Lemma st_again : inv_one old → inv_state old → inv_ok old → inv_again old → inv_again new.
Proof using Hi Hs.
  intros I1 I2 I3 I. count starting Hi Hs. pose proof (waiter_is starting ltac:(weights) I1) as W.
  pose proof (tally_pos returned_ok _ _ _ Hi). pose proof (tally_pos busy _ _ _ Hi). clear I1. pd_cases.
Qed.

Lemma st_waits : inv_one old → inv_again old → inv_waits old → inv_waits new.
Proof using Hi Hs.
  intros I1 I2 I. count waits Hi Hs. count wakes Hi Hs.
  pose proof (tally_pos starting _ _ _ Hi). pose proof (waiter_is waits ltac:(weights) I1) as W. clear I1. pd_cases.
Qed.

Lemma st_broken : inv_write old → inv_hup old → inv_broken old → inv_broken new.
Proof using Hi Hs.
  intros I1 I2 I. pose proof (tally_pos writing _ _ _ Hi). pose proof (tally_pos upping _ _ _ Hi). pd_cases.
Qed.

Lemma pd_inv_step : pd_inv old → pd_inv new.
Proof using Hi Hs.
  intros []. constructor; eauto using st_one, st_start, st_fresh, st_state, st_detached, st_write, st_after, st_ok, st_closed, st_gone,
    st_ended, st_again, st_waits.
Qed.

Lemma pd_inv1_step : pd_inv1 old → pd_inv1 new.
Proof using Hi Hs. intros [I ? ?]. constructor; [by apply pd_inv_step|by apply st_hup|]. destruct I. by apply st_broken. Qed.
End step.

Lemma pd_inv_reach n c : pd_reach (pd_init n) c → pd_inv c.
Proof.
  apply (reach_inv_from _ _ (pd_init n)); [|done|constructor; pd_unfold; unfold tally; simpl; lia].
  intros s ths i p ch s' p' sp _ HI Hi Hs. by apply (pd_inv_step s ths i p ch s' p' sp).
Qed.

Lemma pd_inv1_reach c : pd_reach (pd_init 1) c → pd_inv1 c.
Proof.
  apply (reach_inv_from _ _ (pd_init 1)); [|done|constructor; [by apply (pd_inv_reach 1), rtc_refl|pd_unfold; unfold tally; simpl; lia..]].
  intros s ths i p ch s' p' sp _ HI Hi Hs. by apply (pd_inv1_step s ths i p ch s' p' sp).
Qed.

(** What the others are about to do for the one that waits. *)
Definition pending (p : ppc) : nat :=
  match p with PEvent _ | PWrite | PDetach | PDel | PClose | PHup | PHupDel | PHupDone | HSelect | HClose => 1 | _ => 0 end.

(** C15: While connect waits in WaitWrite, as long as epoll reports at most one
    hang-up, and whatever the order of events, the hang-up and the end of the
    context: no channel is closed twice; a goroutine that cannot go on is one
    whose descriptor epoll knows, so that the next event is reported, or to
    which the poller or onhup is about to close a channel; when WaitWrite
    returns, unless registering failed, epoll does not know the descriptor any
    more, or the context has ended and the poller is about to remove the
    descriptor; giving back the operator waits for the poller then, and when
    that is done epoll does not know the descriptor and the operator is unused,
    however connect ended. *)
Theorem waitwrite_safe c i p :
  pd_reach (pd_init 1) c → threads c !! i = Some p →
  pd_broken (shared c) = false ∧
  (p = WSelect → (∀ ch, ch ≠ CCtx → pdstep (shared c) p ch = None) →
     pd_registered (shared c) = true ∨ (1 ≤ tally pending (threads c))%nat) ∧
  (∀ err, p = WReturned err → err ≠ Some ERegister →
     pd_registered (shared c) = false ∨ err = Some ECtx ∧ (1 ≤ tally pdels (threads c))%nat) ∧
  (∀ err, p = WFree err → pdstep (shared c) p CFail = None → (1 ≤ tally busy (threads c))%nat) ∧
  (∀ err, p = WEnded err → pd_registered (shared c) = false ∧ pd_state (shared c) = 0).
Proof.
  intros Hr Hi. destruct (pd_inv1_reach c Hr) as [[I1 _ _ [_ I4] _ _ I7 I8 I9 I10 I11 _ I13] _ I14].
  assert (waiter p = 1%nat → wdels p = 0%nat → tally wdels (threads c) = 0%nat) as Hw.
  { intros Hp <-. apply (tally_single wdels waiter _ i); [weights|destruct I1; lia|done..]. }
  split_and!; [done| | | |].
  - intros -> Hb. pose proof (tally_pos waits _ _ _ Hi) as Hpos. simpl in Hpos.
    pose proof (Hb CWrite ltac:(done)) as B1. pose proof (Hb CClose ltac:(done)) as B2. simpl in B1, B2.
    pose proof (tally_le wakes pending (threads c) ltac:(weights)). specialize (I13 Hpos).
    destruct (pd_write (shared c)), (pd_close (shared c)); simplify_eq. lia.
  - intros err -> He. specialize (Hw eq_refl eq_refl). destruct (pd_registered (shared c)) eqn:E; [right|by left].
    pose proof (tally_pos gone _ _ _ Hi) as G. pose proof (tally_pos returned_ok _ _ _ Hi) as R.
    pose proof (tally_pos returned_closed _ _ _ Hi) as C. unfold inv_after, inv_ok, inv_closed, inv_gone in *. rewrite E in *.
    destruct err as [[]|]; simpl in *; [done|lia|split; [done|lia]|lia].
  - intros err -> Hb. simpl in Hb. destruct (Z.eqb_spec (pd_state (shared c)) 2); [lia|]. by destruct err.
  - intros err ->. pose proof (tally_pos ended _ _ _ Hi) as G. simpl in G. by apply I11.
Qed.

(** The context ends while the poller handles a write event: the poller counts
    first and is about to remove the descriptor when WaitWrite returns.  Then it
    does, and connect gives the operator back. *)
Definition demo_wait : list (act ppc pchoice) :=
  [Run 0 CWrite; Run 0 CWrite; Run 1 CWrite; Run 1 CWrite; Run 1 CWrite; Run 1 CWrite;
   Run 0 CCtx; Run 0 CCtx; Run 0 CCtx].
Definition demo_end : list (act ppc pchoice) := [Run 0 CCtx; Run 1 CWrite; Run 1 CWrite; Run 1 CWrite; Run 0 CCtx].
Definition pd_config (hups : nat) (l : list (act ppc pchoice)) : pd_cfg :=
  default (pd_init hups) (run_acts pdstep (λ _, false) l (pd_init hups)).

Lemma pd_config_reach hups l : pd_reach (pd_init hups) (pd_config hups l).
Proof.
  unfold pd_config. destruct (run_acts _ _ l _) as [c|] eqn:E; simpl; [|apply rtc_refl]. by eapply run_acts_reach.
Qed.

Lemma waitwrite_safe_witness :
  let c := pd_config 1 demo_wait in
  let c' := pd_config 1 (demo_wait ++ demo_end) in
  threads c = [WReturned (Some ECtx); PDel] ∧ pd_registered (shared c) = true ∧
  (pd_registered (shared c) = false ∨ Some ECtx = Some ECtx ∧ (1 ≤ tally pdels (threads c))%nat) ∧
  threads c' = [WEnded (Some ECtx); PIdle] ∧ (pd_registered (shared c') = false ∧ pd_state (shared c') = 0).
Proof.
  split; [vm_compute; reflexivity|]. split; [vm_compute; reflexivity|]. split; [|split; [vm_compute; reflexivity|]].
  - by apply (waitwrite_safe (pd_config 1 demo_wait) 0 (WReturned (Some ECtx)) (pd_config_reach 1 demo_wait)).
  - by apply (waitwrite_safe (pd_config 1 (demo_wait ++ demo_end)) 0 (WEnded (Some ECtx)) (pd_config_reach 1 (demo_wait ++ demo_end))
      eq_refl) with (err := Some ECtx).
Defined.

(** When epoll reports two hang-ups before the descriptor is removed, which the
    end of the context delays, there are two goroutines of onhup, both find
    closeTrigger open, and the second close panics. *)
Lemma two_hups_close_twice :
  let c := pd_config 2 [Run 0 CWrite; Run 0 CWrite; Run 0 CCtx; Run 0 CCtx;
    Run 1 CClose; Run 1 CClose; Run 1 CClose; Run 1 CClose; Run 1 CClose; Run 1 CClose; Run 1 CClose; Run 1 CClose;
    Run 2 CWrite; Run 3 CWrite; Run 2 CWrite; Run 3 CWrite] in
  pd_reach (pd_init 2) c ∧ pd_broken (shared c) = true.
Proof. split; [apply pd_config_reach|]. vm_compute. done. Qed.

(** After the first wake-up writeTrigger stays closed and the descriptor is not
    registered again: WaitWrite returns at once each time.  So connect does not
    wait again when it finds the socket not connected yet; it spins. *)
Lemma waitwrite_spins n c i :
  pd_reach (pd_init n) c → threads c !! i = Some (WReturned None) → pd_close (shared c) = false →
  ∃ c', run_acts pdstep (λ _, false) [Run i CWrite; Run i CWrite; Run i CWrite; Run i CWrite] c = Some c' ∧
    shared c' = shared c ∧ threads c' !! i = Some (WReturned None) ∧ pd_registered (shared c') = false.
Proof.
  intros Hr Hi Hc. destruct (pd_inv_reach n c Hr) as [I1 I2 _ _ _ _ I7 I8 _ _ I11 _ _].
  assert (∀ f, (∀ q, f q ≤ waiter q)%nat → tally f (threads c) = f (WReturned None)) as Hone.
  { intros f Hf. apply (tally_single f waiter _ i); [done|destruct I1; lia|done..]. }
  assert (pd_write (shared c) = true) as Hwr.
  { apply I8. pose proof (tally_pos returned_ok _ _ _ Hi). simpl in *. lia. }
  assert ((pd_state (shared c) =? 0) = false) as Hst.
  { apply Z.eqb_neq. intros E. destruct (I2 E) as (_&_&E'&_); [apply (Hone ended); weights|]. congruence. }
  assert (pd_registered (shared c) = false) as Hrg.
  { unfold inv_after in I7. rewrite (Hone wdels) in I7 by weights. simpl in I7. destruct (pd_registered (shared c)); [lia|done]. }
  assert (i < length (threads c))%nat as Hlt by (by apply lookup_lt_Some in Hi).
  destruct c as [s ths]. cbn [shared threads] in *. clear Hone.
  assert (∀ p p' (l : list ppc), l !! i = Some p → pdstep s p CWrite = Some (s, p', []) →
    run_act pdstep (λ _, false) (Run i CWrite) (Cfg s l) = Some (Cfg s (<[i := p']> l ++ []))) as Hone.
  { intros p p' l Hl Hs. simpl. rewrite Hl. simpl. by rewrite Hs. }
  eexists. split.
  - cbn [run_acts]. rewrite (Hone _ WStart _ Hi) by done. cbn [mbind option_bind].
    rewrite (Hone WStart WSelect) by (rewrite ?app_nil_r, ?list_lookup_insert_eq by (rewrite ?length_insert; done); simpl; rewrite ?Hst; done). cbn [mbind option_bind].
    rewrite (Hone WSelect (WCheck None)) by (rewrite ?app_nil_r, ?list_lookup_insert_eq by (rewrite ?length_insert; done); simpl; rewrite ?Hwr; done). cbn [mbind option_bind].
    rewrite (Hone (WCheck None) (WReturned None)) by (rewrite ?app_nil_r, ?list_lookup_insert_eq by (rewrite ?length_insert; done); simpl; rewrite ?Hc; done). done.
  - split_and!; [done| |done]. cbn [threads]. rewrite !app_nil_r. rewrite list_lookup_insert_eq; [done|]. by rewrite !length_insert.
Qed.
