(* ===== verification/NetDial.v ===== *)
(** * Dialing

    src/net_dialer.go, the dialing of src/net_tcpsock.go, src/net_unixsock.go,
    src/net_sock.go and src/net_netfd.go, and sysSocket of src/sys_exec.go, on
    Linux.  The answers of the system calls of one attempt to connect are a
    parameter; a call that is given a nil address panics.  Who wakes WaitWrite is
    the subject of PollDesc.v; here that is one of the answers, and the
    registration of the descriptor is followed. *)

From stdpp Require Import strings.
From S2P Require Import Prelude Errors Locker NetAddr ConnLife.

Open Scope Z_scope.

Definition EADDRNOTAVAIL : Z := 99.
Definition EISCONN : Z := 106.
Definition EALREADY : Z := 114.
Definition EINPROGRESS : Z := 115.

(** ** Errors *)

(** The error of a context, which is one of two, and what mapErr makes of it. *)
Inductive ctxerr := Canceled | DeadlineExceeded.
Inductive neterr := errCanceled | errIOTimeout.

Definition mapErr (e : ctxerr) : neterr :=
  match e with Canceled => errCanceled | DeadlineExceeded => errIOTimeout end.

Inductive derr :=
| DSys (call : string) (e : Z)        (* os.SyscallError *)
| DAddr (e : AddrError)
| DNet (e : neterr)
| DExc (e : Z)                        (* an exception, or the error of Control *)
| DMissingAddress
| DUnknownNetwork
| DResolve (e : string).               (* of the resolver of package net *)

(** ** The answers to one attempt *)

(** What wakes WaitWrite: a write event, a hang-up, or the end of the context. *)
Inductive wake := WakeWrite | WakeHup | WakeCtx (e : ctxerr).

(** A round of the loop of connect: what ends WaitWrite, SO_ERROR or the error
    of getsockopt, and the answer of getpeername. *)
Record wait_round := WaitRound { wr_wake : wake; wr_soerror : Z + Z; wr_peer : option Sockaddr }.

Record attempt := Attempt {
  at_socket : Z + Z;                  (* the error, or the descriptor *)
  at_nonblock : option Z;
  at_broadcast : option Z;
  at_bind : option Z;
  at_connect : option Z;
  at_ctx : option ctxerr;             (* ctx.Done, after a connect that succeeds at once *)
  at_register : option Z;             (* EPOLL_CTL_ADD of WaitWrite *)
  at_waits : list wait_round;
  at_sockname : option Sockaddr;
  at_peername : option Sockaddr;
}.

Definition sys_open (fd : Z) (w : net) : net := Net ({[fd]} ∪ n_open w) (n_polled w) (n_ops w) (n_ran w).

Definition in_progress (e : Z) : bool := (e =? EINPROGRESS) || (e =? EALREADY) || (e =? EINTR).

(** ** One attempt *)

Section attempt.
Context (interface : Z → option string) (a : attempt).

Definition sysSocket : M net (derr + Z) :=
  match at_socket a with
  | inl e => mret (inl (DSys "socket" e))
  | inr fd =>
      _ ← modify (sys_open fd);
      match at_nonblock a with
      | Some e => _ ← modify (sys_close fd); mret (inl (DSys "setnonblock" e))
      | None => mret (inr fd)
      end
  end.

(** [os.NewSyscallError("setsockopt", ...)] *)
Definition setDefaultSockopts : option derr := DSys "setsockopt" <$> at_broadcast a.

(** [pd.WaitWrite(ctx)] on the descriptor [fd]; [unused]: nobody has called it
    yet.  The first call registers the descriptor; the poller removes it before
    it wakes the call, and so does the call when the context ends.  The operator
    lets only the first of these removals through, and later calls find a
    trigger closed. *)
Definition WaitWrite (fd : Z) (unused : bool) (by_ : wake) : M net (option derr) :=
  w ← get;
  match (if unused then ctl_add (λ _, at_register a) fd w else None) with
  | Some e => mret (Some (DExc e))
  | None =>
      _ ← (if unused then _ ← modify (sys_add fd); modify (sys_del fd) else mret tt);
      mret (match by_ with
            | WakeWrite => None
            | WakeHup => Some (DExc ErrConnClosed)
            | WakeCtx e => Some (DNet (mapErr e))
            end)
  end.

(** The loop of connect; it goes on for as long as there are answers. *)
Fixpoint connect_loop (fd : Z) (unused : bool) (rounds : list wait_round) : M net (derr + option Sockaddr) :=
  match rounds with
  | [] => out_of_fuel
  | r :: rounds =>
      e ← WaitWrite fd unused (wr_wake r);
      match e, wr_soerror r with
      | Some e, _ => mret (inl e)
      | None, inl e => mret (inl (DSys "getsockopt" e))
      | None, inr nerr =>
          if in_progress nerr then connect_loop fd false rounds
          else if nerr =? EISCONN then mret (inr None)
          else if nerr =? 0 then
            match wr_peer r with Some rsa => mret (inr (Some rsa)) | None => connect_loop fd false rounds end
          else mret (inl (DSys "connect" nerr))
      end
  end.

(** [c.connect(ctx, lsa, rsa)]: newPollDesc takes an operator, which is given
    back at the end. *)
Definition connect (fd : Z) (rsa : option Sockaddr) : M net (derr + option Sockaddr) :=
  match rsa with
  | None => panic
  | Some _ =>
      let waits := _ ← modify (add_ops 1); r ← connect_loop fd true (at_waits a); _ ← modify (add_ops (-1)); mret r in
      let done := match at_ctx a with Some e => mret (inl (DNet (mapErr e))) | None => mret (inr None) end in
      match at_connect a with
      | None => done
      | Some e =>
          if in_progress e then waits
          else if e =? EISCONN then done
          else mret (inl (DSys "connect" e))
      end
  end.

(** [if addr != nil { addr.sockaddr(family) }] *)
Definition to_sockaddr (addr : option saddr) (fam : Z) : derr + option Sockaddr :=
  match addr with
  | None => inr None
  | Some x => match sockaddr x fam with inl e => inl (DAddr e) | inr sa => inr sa end
  end.

(** [c.dial(ctx, laddr, raddr)] *)
Definition dial (n : netFD) (laddr raddr : option saddr) : M net (derr + netFD) :=
  match to_sockaddr laddr (nf_family n) with
  | inl e => mret (inl e)
  | inr lsa =>
      match lsa, at_bind a with
      | Some _, Some e => mret (inl (DSys "bind" e))
      | _, _ =>
          match to_sockaddr raddr (nf_family n) with
          | inl e => mret (inl e)
          | inr rsa =>
              r ← connect (nf_fd n) rsa;
              match r with
              | inl e => mret (inl e)
              | inr crsa =>
                  let remote :=
                    match crsa, at_peername a with
                    | Some sa, _ => Some sa
                    | None, Some sa => Some sa
                    | None, None => rsa
                    end in
                  mret (inr (set_nf_connected (sockaddrToAddr interface (at_sockname a)) (sockaddrToAddr interface remote) n))
              end
          end
      end
  end.

Definition socket (network : string) (fam sotype : Z) (laddr raddr : option saddr) : M net (derr + netFD) :=
  r ← sysSocket;
  match r with
  | inl e => mret (inl e)
  | inr fd =>
      match setDefaultSockopts with
      | Some e => _ ← modify (sys_close fd); mret (inl e)
      | None =>
          let n := newNetFD fd fam sotype network in
          r ← dial n laddr raddr;
          match r with
          | inl e => _ ← modify (λ w, (netFD_Close n w).2); mret (inl e)
          | inr n => mret (inr n)
          end
      end
  end.

Definition internetSocket (network : string) (laddr raddr : option saddr) (sotype : Z) : M net (derr + netFD) :=
  match favoriteAddrFamily network laddr raddr with
  | None => panic
  | Some (fam, _) => socket network fam sotype laddr raddr
  end.

(** [unixSocket(ctx, network, laddr, raddr, "dial")] *)
Definition unixSocket (network : string) (laddr raddr : option saddr) : M net (derr + netFD) :=
  let sotype :=
    if decide (network = "unix"%string) then Some SOCK_STREAM
    else if decide (network = "unixgram"%string) then Some SOCK_DGRAM
    else if decide (network = "unixpacket"%string) then Some SOCK_SEQPACKET
    else None in
  match sotype with
  | None => mret (inl DUnknownNetwork)
  | Some sotype =>
      let named x := match x with Some x => if isWildcard x then None else Some x | None => None end in
      let laddr := named laddr in
      let raddr := named raddr in
      if bool_decide (raddr = None) && (negb (sotype =? SOCK_DGRAM) || bool_decide (laddr = None)) then mret (inl DMissingAddress)
      else socket network AF_UNIX sotype laddr raddr
  end.
End attempt.

(** ** Connections *)

Section dial.
Context (interface : Z → option string) (epoll_add : Z → option Z) (zerocopy : option Z * option Z).

(** [newTCPConnection(conn)] and [newUnixConnection(conn)] *)
Definition newConnection (n : netFD) : M net (derr + connection) := λ w,
  match init epoll_add zerocopy (CNetFD n) None w with
  | Ret (None, s) => Ret (inr (co s), nw s)
  | Ret (Some e, s) => Ret (inl (DExc e), nw s)
  | Panic => Panic
  | OutOfFuel => OutOfFuel
  end.

(** [NewFDConnection(fd)] *)
Definition NewFDConnection (fd : Z) : M net (derr + connection) := newConnection (plain_netFD fd None None).

(** [selfConnect(conn, err)]; [None]: an address is none of TCP. *)
Definition selfConnect (r : derr + netFD) : option bool :=
  match r with
  | inl _ => Some false
  | inr n =>
      match nf_localAddr n, nf_remoteAddr n with
      | None, _ | _, None => Some true
      | Some (ATCP l), Some (ATCP r) => Some ((a_Port l =? a_Port r) && Equal (a_IP l) (a_IP r))
      | _, _ => None
      end
  end.

Definition spuriousENOTAVAIL (r : derr + netFD) : bool :=
  match r with inl (DSys _ e) | inl (DExc e) => e =? EADDRNOTAVAIL | _ => false end.

(** [laddr == nil || laddr.Port == 0] *)
Definition any_port (laddr : option TCPAddr) : bool :=
  match laddr with None => true | Some l => a_Port l =? 0 end.

(** The loop of sd.dialTCP, with [n] rounds left, after the attempt [i]; the
    number of the last attempt. *)
Fixpoint dialTCP_loop (ats : nat → attempt) (network : string) (laddr raddr : option TCPAddr) (n i : nat) (r : derr + netFD) :
    M net (nat * (derr + netFD)) :=
  match n with
  | O => mret (i, r)
  | S n =>
      if any_port laddr then
        match selfConnect r with
        | None => panic
        | Some self =>
            if self || spuriousENOTAVAIL r then
              _ ← (match r with inr c => modify (λ w, (netFD_Close c w).2) | inl _ => mret tt end);
              r ← internetSocket interface (ats (S i)) network (Some (STCP laddr)) (Some (STCP raddr)) SOCK_STREAM;
              dialTCP_loop ats network laddr raddr n (S i) r
            else mret (i, r)
        end
      else mret (i, r)
  end.

(** [sd.dialTCP(ctx, laddr, raddr)] *)
Definition sd_dialTCP (ats : nat → attempt) (network : string) (laddr raddr : option TCPAddr) : M net (nat * (derr + connection)) :=
  r ← internetSocket interface (ats 0%nat) network (Some (STCP laddr)) (Some (STCP raddr)) SOCK_STREAM;
  '(i, r) ← dialTCP_loop ats network laddr raddr 2 0 r;
  match r with
  | inl e => mret (i, inl e)
  | inr n => r ← newConnection n; mret (i, r)
  end.

(** [DialTCP(ctx, network, laddr, raddr)]; the errors are wrapped in an
    OpError that refers to [raddr]. *)
Definition DialTCP (ats : nat → attempt) (network : string) (laddr raddr : option TCPAddr) : M net (derr + connection) :=
  if decide (network ∈ ["tcp"; "tcp4"; "tcp6"]%string) then
    match raddr with
    | None => mret (inl DMissingAddress)
    | Some _ => '(_, r) ← sd_dialTCP ats network laddr raddr; mret r
    end
  else mret (inl DUnknownNetwork).

(** [DialUnix(network, laddr, raddr)] *)
Definition DialUnix (a : attempt) (network : string) (laddr raddr : option UnixAddr) : M net (derr + connection) :=
  if decide (network ∈ ["unix"; "unixgram"; "unixpacket"]%string) then
    match raddr with
    | None => panic   (* raddr.String() *)
    | Some _ =>
        r ← unixSocket interface a network (Some (SUnix laddr)) (Some (SUnix raddr));
        match r with inl e => mret (inl e) | inr n => newConnection n end
    end
  else mret (inl DUnknownNetwork).

(** The loop of d.dialTCP over the addresses of the host: [ats k]: the attempts
    with the [k]-th one; [ctx_done k]: the context is done after it.  The
    variable tcpAddr is shared by the rounds and by the errors; its value at
    the end is returned too. *)
Fixpoint dial_addrs (ats : nat → nat → attempt) (ctx_done : nat → bool) (port : Z) (k : nat)
    (ipaddrs : list (IP * string)) (firstErr : option derr) (tcpAddr : TCPAddr) : M net ((derr + connection) * TCPAddr) :=
  match ipaddrs with
  | [] => mret (inl (default DMissingAddress firstErr), tcpAddr)
  | (ip, zone) :: ipaddrs =>
      let tcpAddr := MkTCPAddr ip port zone in
      let v6 := match ip with None => false | Some _ => bool_decide (To4 ip = None) end in
      r ← DialTCP (ats k) (if v6 then "tcp6" else "tcp")%string None (Some tcpAddr);
      match r with
      | inr c => mret (inr c, tcpAddr)
      | inl e =>
          if ctx_done k then mret (inl e, tcpAddr)
          else dial_addrs ats ctx_done port (S k) ipaddrs (Some (default e firstErr)) tcpAddr
      end
  end.

(** What package net answers: SplitHostPort, LookupPort and LookupIPAddr. *)
Record resolver := Resolver {
  rs_split : string → string + (string * string);
  rs_port : string → string → string + Z;
  rs_ips : string → string + list (IP * string);
}.

(** [d.dialTCP(ctx, network, address)] *)
Definition d_dialTCP (rs : resolver) (ats : nat → nat → attempt) (ctx_done : nat → bool) (network address : string) :
    M net (derr + connection) :=
  match rs_split rs address with
  | inl e => mret (inl (DResolve e))
  | inr (host, port) =>
      match rs_port rs network port with
      | inl e => mret (inl (DResolve e))
      | inr portnum =>
          match (if decide (host = EmptyString) then inr [(None, EmptyString)] else rs_ips rs host) with
          | inl e => mret (inl (DResolve e))
          | inr [] => mret (inl (DResolve "no such host"))
          | inr ipaddrs =>
              '(r, _) ← dial_addrs ats ctx_done portnum 0 ipaddrs None (MkTCPAddr None 0 EmptyString);
              mret r
          end
      end
  end.

(** [d.DialConnection(network, address, timeout)]; the context, which the
    timeout bounds, reaches the sockets of TCP only. *)
Definition DialConnection (rs : resolver) (ats : nat → nat → attempt) (ctx_done : nat → bool) (network address : string) :
    M net (derr + connection) :=
  if decide (network ∈ ["tcp"; "tcp4"; "tcp6"]%string) then d_dialTCP rs ats ctx_done network address
  else if decide (network ∈ ["unix"; "unixgram"; "unixpacket"]%string) then
    DialUnix (ats 0%nat 0%nat) network None (Some (MkUnixAddr address network))
  else mret (inl DUnknownNetwork).
End dial.

(** ** What they do *)

(** The descriptor of an attempt is new; 0 to 2 are in use. *)
Definition fresh_fd (w : net) (a : attempt) : Prop :=
  ∀ fd, at_socket a = inr fd → 2 < fd ∧ (fd ∉ n_open w) ∧ (fd ∉ n_polled w).

(** A round that ends the loop of connect. *)
Definition decides (r : wait_round) : bool :=
  match wr_wake r, wr_soerror r with
  | WakeHup, _ | WakeCtx _, _ | WakeWrite, inl _ => true
  | WakeWrite, inr e => negb (in_progress e) && (negb (e =? 0) || bool_decide (wr_peer r ≠ None))
  end.

(** connect does not have to wait, or it cannot, or some round ends its loop. *)
Definition settles (a : attempt) : bool :=
  match at_connect a with
  | Some e => negb (in_progress e) || bool_decide (at_register a ≠ None ∧ at_waits a ≠ []) || existsb decides (at_waits a)
  | None => true
  end.

(** ** Programs that need not end

    [wpd D m Q s]: [m] does not panic, what it returns satisfies [Q], and when it
    does not return, then [D]. *)
Definition wpd {S A} (D : Prop) (m : M S A) (Q : A → S → Prop) (s : S) : Prop :=
  match m s with Ret (a, s') => Q a s' | Panic => False | OutOfFuel => D end.

Lemma wpd_ret {S A} D (a : A) (Q : A → S → Prop) s : Q a s → wpd D (mret a) Q s.
Proof. done. Qed.

Lemma wpd_get {S} D (Q : S → S → Prop) s : Q s s → wpd D get Q s.
Proof. done. Qed.

Lemma wpd_modify {S} D (f : S → S) Q s : Q () (f s) → wpd D (modify f) Q s.
Proof. done. Qed.

Lemma wpd_bind {S A B} D (m : M S A) (k : A → M S B) Q s : wpd D m (λ a, wpd D (k a) Q) s → wpd D (m ≫= k) Q s.
Proof. unfold wpd, mbind, M_bind. by destruct (m s) as [[a s']| |]. Qed.

Lemma wpd_mono {S A} D (m : M S A) (P Q : A → S → Prop) s : wpd D m P s → (∀ a s', P a s' → Q a s') → wpd D m Q s.
Proof. unfold wpd. destruct (m s) as [[a s']| |]; auto. Qed.

Lemma wpd_wp {S A} D (m : M S A) Q s : wp m Q s → wpd D m Q s.
Proof. unfold wp, wpd. by destruct (m s) as [[a s']| |]. Qed.

Lemma net_close fd w : fd ∉ n_open w → fd ∉ n_polled w → sys_close fd (sys_open fd w) = w.
Proof. intros H1 H2. destruct w. unfold sys_close, sys_open. simpl in *. f_equal; set_solver. Qed.

(** The kernel answers with addresses of TCP. *)
Definition inet_sa (sa : option Sockaddr) : Prop := match sa with Some (SockaddrUnix _) => False | _ => True end.
Definition inet_answers (a : attempt) : Prop :=
  inet_sa (at_sockname a) ∧ inet_sa (at_peername a) ∧ Forall (λ r, inet_sa (wr_peer r)) (at_waits a).

(** WaitWrite leaves the descriptor unregistered. *)
Lemma WaitWrite_ok D a fd unused by_ w : fd ∉ n_polled w →
  wpd D (WaitWrite a fd unused by_)
    (λ e w', w' = w ∧ (e = None → by_ = WakeWrite ∧ (unused = true → at_register a = None))) w.
Proof.
  intros Hp. unfold WaitWrite. apply wpd_bind, wpd_get. unfold ctl_add. rewrite decide_False by done.
  destruct unused; [destruct (at_register a); [by apply wpd_ret|]|].
  - apply wpd_bind, wpd_bind, wpd_modify, wpd_modify, wpd_ret. split; [|by destruct by_].
    destruct w. unfold sys_add, sys_del. simpl in *. f_equal. set_solver.
  - apply wpd_bind, wpd_ret, wpd_ret. split; [done|]. by destruct by_.
Qed.

Lemma connect_loop_ok D a fd l : ∀ unused w, fd ∉ n_polled w →
  (existsb decides l = true ∨ unused = true ∧ at_register a ≠ None ∧ l ≠ []) ∨ D →
  wpd D (connect_loop a fd unused l)
    (λ r w', w' = w ∧ (Forall (λ r, inet_sa (wr_peer r)) l → ∀ sa, r = inr sa → inet_sa sa)) w.
Proof.
  induction l as [|[by_ es ep] l IH]; intros unused w Hp Hd; [by naive_solver|]. cbn [connect_loop wr_wake wr_soerror wr_peer].
  apply wpd_bind. eapply wpd_mono; [by apply WaitWrite_ok|]. intros [e|] w' [-> He]; [by apply wpd_ret|].
  destruct (He eq_refl) as [-> Hr]. destruct es as [e|e]; [by apply wpd_ret|]. simpl in Hd. unfold decides at 1 in Hd. simpl in Hd.
  assert ((negb (in_progress e) && (negb (e =? 0) || bool_decide (ep ≠ None)) = false) →
    wpd D (connect_loop a fd false l) (λ r w', w' = w ∧
    (Forall (λ r, inet_sa (wr_peer r)) (WaitRound WakeWrite (inr e) ep :: l) → ∀ sa, r = inr sa → inet_sa sa)) w) as Hn.
  { intros E. rewrite E in Hd. eapply wpd_mono; [apply IH; [done|naive_solver]|]. intros r w' [-> H']. split; [done|].
    intros [_ ?]%Forall_cons. auto. }
  destruct (in_progress e); [by apply Hn|]. destruct (e =? EISCONN).
  { apply wpd_ret. split; [done|]. by intros _ sa [= <-]. }
  destruct (e =? 0) eqn:E0; [|by apply wpd_ret]. destruct ep; [|by apply Hn].
  apply wpd_ret. split; [done|]. intros [H _]%Forall_cons sa [= <-]. done.
Qed.

Section ends_or.
Context (D : Prop).

Lemma connect_ok a fd rsa w : fd ∉ n_polled w → settles a = true ∨ D → rsa ≠ None →
  wpd D (connect a fd rsa) (λ r w', w' = w ∧ (inet_answers a → ∀ sa, r = inr sa → inet_sa sa)) w.
Proof.
  intros Hp Hs Hr. destruct rsa as [sa|]; [|done]. unfold connect, settles in *.
  assert (wpd D (match at_ctx a with Some e => mret (inl (DNet (mapErr e))) | None => mret (inr None) end)
    (λ (r : derr + option Sockaddr) w', w' = w ∧ (inet_answers a → ∀ sa, r = inr sa → inet_sa sa)) w) as Hd.
  { destruct (at_ctx a); apply wpd_ret; [done|]. split; [done|]. by intros _ ? [= <-]. }
  destruct (at_connect a) as [e|]; [|done]. destruct (in_progress e); [|destruct (e =? EISCONN); [done|by apply wpd_ret]].
  apply wpd_bind, wpd_modify, wpd_bind. eapply wpd_mono; [apply connect_loop_ok; [done|]|].
  { destruct Hs as [Hs|]; [left|by right]. simpl in Hs. apply orb_true_iff in Hs as [Hs%bool_decide_eq_true|]; [right; naive_solver|by left]. }
  intros r w' [-> H].
  apply wpd_bind, wpd_modify, wpd_ret. split; [destruct w; unfold add_ops; simpl; f_equal; lia|]. intros (_&_&?). auto.
Qed.

(** The address reaches connect(2). *)
Definition addressed (raddr : option saddr) (fam : Z) : Prop := to_sockaddr raddr fam ≠ inr None.

(** Both addresses of the connection are of TCP. *)
Definition tcp_ends (n : netFD) : Prop :=
  match nf_localAddr n with Some (AUnix _) => False | _ => True end ∧
  match nf_remoteAddr n with Some (AUnix _) => False | _ => True end.

Lemma sockaddrToAddr_inet interface sa : inet_sa sa → match sockaddrToAddr interface sa with Some (AUnix _) => False | _ => True end.
Proof. by destruct sa as [[]|]. Qed.

(** What a dial on the new descriptor [n] gives. *)
Definition dialed (a : attempt) (raddr : option saddr) (n : netFD) (r : derr + netFD) : Prop :=
  ∀ n', r = inr n' → (∃ l r, n' = set_nf_connected l r n) ∧
    (inet_answers a → (∀ fam rsa, to_sockaddr raddr fam = inr rsa → inet_sa rsa) → tcp_ends n').

Lemma dial_ok interface a n laddr raddr w :
  (nf_fd n ∉ n_polled w) → settles a = true ∨ D → addressed raddr (nf_family n) →
  wpd D (dial interface a n laddr raddr) (λ r w', w' = w ∧ dialed a raddr n r) w.
Proof.
  intros Hp Hs Ha. unfold dial. destruct (to_sockaddr laddr _) as [e|lsa]; [by apply wpd_ret|].
  unfold addressed in Ha. destruct (to_sockaddr raddr _) as [e|rsa] eqn:Er; [destruct lsa, (at_bind a); by apply wpd_ret|].
  assert (wpd D (r ← connect a (nf_fd n) rsa; match r with
    | inl e => mret (inl e)
    | inr crsa =>
        let remote := match crsa, at_peername a with Some sa, _ => Some sa | None, Some sa => Some sa | None, None => rsa end in
        mret (inr (set_nf_connected (sockaddrToAddr interface (at_sockname a)) (sockaddrToAddr interface remote) n)) end)
    (λ r w', w' = w ∧ dialed a raddr n r) w) as Hc.
  { apply wpd_bind. eapply wpd_mono; [apply connect_ok; [done..|congruence]|].
    intros [e|crsa] w' [-> Hi]; apply wpd_ret; (split; [done|]); [done|]. intros n' [= <-]. split; [eauto|].
    intros Hin Hto. pose proof Hin as (H1&H2&_). split; simpl; apply sockaddrToAddr_inet; [done|].
    specialize (Hi Hin crsa eq_refl). specialize (Hto _ _ Er). destruct crsa; [done|]. by destruct (at_peername a). }
  destruct lsa; [|done]. destruct (at_bind a); [by apply wpd_ret|done].
Qed.

(** The result of an attempt: a connected socket, the only new descriptor, or
    an error and nothing. *)
Definition attempted (w : net) (a : attempt) (r : derr + netFD) (w' : net) : Prop :=
  match r with
  | inl _ => w' = w
  | inr n => ∃ fd, at_socket a = inr fd ∧ nf_fd n = fd ∧ nf_closed n = 0 ∧ nf_detaching n = false ∧
      nf_isConnected n = true ∧ w' = sys_open fd w
  end.

Lemma netFD_Close_new n w : nf_closed n = 0 → nf_detaching n = false → 2 < nf_fd n → (netFD_Close n w).2 = sys_close (nf_fd n) w.
Proof. intros E1 E2 E3. unfold netFD_Close. rewrite E1, E2. simpl. by rewrite (proj2 (Z.ltb_lt _ _)). Qed.

Lemma socket_ok interface a network fam sotype laddr raddr w :
  fresh_fd w a → settles a = true ∨ D → addressed raddr fam →
  wpd D (socket interface a network fam sotype laddr raddr) (λ r w', attempted w a r w' ∧
    (inet_answers a → (∀ fam rsa, to_sockaddr raddr fam = inr rsa → inet_sa rsa) → ∀ n, r = inr n → tcp_ends n)) w.
Proof.
  intros Hf Hs Ha. unfold socket, sysSocket. destruct (at_socket a) as [e|fd] eqn:Es; [apply wpd_bind, wpd_ret, wpd_ret; by split|].
  destruct (Hf fd Es) as (H2&Ho&Hp). apply wpd_bind, wpd_bind, wpd_modify.
  destruct (at_nonblock a); [apply wpd_bind, wpd_modify, wpd_ret, wpd_ret; split; [by apply net_close|done]|]. apply wpd_ret.
  destruct (setDefaultSockopts a); [apply wpd_bind, wpd_modify, wpd_ret; split; [by apply net_close|done]|].
  apply wpd_bind. eapply wpd_mono; [by apply dial_ok|]. intros [e|n] w' [-> Hd].
  - apply wpd_bind, wpd_modify, wpd_ret. split; [|done]. cbn [attempted]. rewrite netFD_Close_new by done. by apply net_close.
  - apply wpd_ret. destruct (Hd n eq_refl) as [(l&r&->) Ht]. split; [by exists fd|]. intros Hi Hr n [= <-]. auto.
Qed.

Lemma tcp_inet raddr fam rsa : to_sockaddr (Some (STCP (Some raddr))) fam = inr rsa → inet_sa rsa.
Proof.
  simpl. unfold ipToSockaddr. repeat case_match; intros; simplify_eq; done.
Qed.

Lemma tcp_addressed raddr fam : addressed (Some (STCP (Some raddr))) fam.
Proof. unfold addressed. simpl. by destruct (ipToSockaddr _ _ _ _). Qed.

Lemma internetSocket_ok interface a network laddr raddr sotype w :
  network ≠ EmptyString → fresh_fd w a → settles a = true ∨ D → inet_answers a →
  wpd D (internetSocket interface a network laddr (Some (STCP (Some raddr))) sotype)
    (λ r w', attempted w a r w' ∧ ∀ n, r = inr n → tcp_ends n) w.
Proof.
  intros Hn Hf Hs Hi. unfold internetSocket.
  assert (∃ x, favoriteAddrFamily network laddr (Some (STCP (Some raddr))) = Some x) as [[fam b] ->].
  { unfold favoriteAddrFamily. assert (∃ c, last_char network = Some c) as [c ->]; [|by eexists].
    clear -Hn. induction network as [|c s IH]; [done|]. destruct s; [by eexists|]. by apply IH. }
  eapply wpd_mono; [apply socket_ok; [done..|apply tcp_addressed]|]. intros r w' [H1 H2]. split; [done|].
  intros n. apply H2; [done|]. intros. by eapply tcp_inet.
Qed.

(** ** A dial keeps account of its descriptors *)

Section accounts.
Context (interface : Z → option string) (epoll_add : Z → option Z) (zerocopy : option Z * option Z).

(** A connection that holds a new descriptor, registered, and an operator. *)
Definition connected (w : net) (c : connection) (w' : net) : Prop :=
  ∃ fd, (fd ∉ n_open w) ∧ (fd ∉ n_polled w) ∧ nf_fd (c_netFD c) = fd ∧ nf_isConnected (c_netFD c) = true ∧ IsActive c = true ∧
    w' = Net ({[fd]} ∪ n_open w) ({[fd]} ∪ n_polled w) (n_ops w + 1) (n_ran w).

(** Either that, or an error and nothing. *)
Definition accounted (w : net) (r : derr + connection) (w' : net) : Prop :=
  match r with inl _ => w' = w | inr c => connected w c w' end.

Lemma newConnection_ok n a w : fresh_fd w a → attempted w a (inr n) (sys_open (nf_fd n) w) →
  wpd D (newConnection epoll_add zerocopy n) (accounted w) (sys_open (nf_fd n) w).
Proof.
  intros Hf (fd&Hs&Hfd&Hc&Hd&Hi&_). destruct (Hf fd Hs) as (H2&Ho&Hp). rewrite Hfd.
  destruct (init_plain epoll_add zerocopy (CNetFD n) (sys_open fd w)) as (r&s&E&H); [by rewrite <- Hfd in *..|].
  unfold wpd, newConnection. rewrite E. simpl in H. rewrite Hfd in H. destruct H as [(->&Hn&Ha&Hw)|(->&Hw)]; simpl.
  - exists fd. rewrite Hn. by split_and!.
  - rewrite Hw. destruct w. simpl in *. f_equal; [set_solver|by rewrite app_nil_r].
Qed.

(** A descriptor that NewFDConnection cannot register is closed. *)
Lemma NewFDConnection_ok fd w : 2 < fd → fd ∈ n_open w → fd ∉ n_polled w →
  wp (NewFDConnection epoll_add zerocopy fd) (λ r w', match r with
    | inr c => nf_fd (c_netFD c) = fd ∧ IsActive c = true ∧ w' = Net (n_open w) ({[fd]} ∪ n_polled w) (n_ops w + 1) (n_ran w)
    | inl e => e = DExc ErrConnClosed ∧ w' = sys_close fd w
    end) w.
Proof.
  intros H2 Ho Hp. destruct (init_plain epoll_add zerocopy (CNetFD (plain_netFD fd None None)) w) as (r&s&E&H); [done..|].
  unfold wp, NewFDConnection, newConnection. rewrite E. simpl in H. destruct H as [(->&Hn&Ha&Hw)|(->&Hw)].
  - rewrite Hn. by split_and!.
  - split; [done|]. rewrite Hw, app_nil_r. unfold sys_close. f_equal. set_solver.
Qed.

Lemma dialTCP_loop_ok ats network laddr raddr w n : ∀ i r,
  network ≠ EmptyString → (∀ i, fresh_fd w (ats i)) → (∀ j, (j ≤ i + n)%nat → settles (ats j) = true ∨ D) →
  (∀ i, inet_answers (ats i)) → (∀ n, r = inr n → tcp_ends n) → ∀ w1, attempted w (ats i) r w1 →
  wpd D (dialTCP_loop interface ats network laddr (Some raddr) n i r)
    (λ '(j, r') w', attempted w (ats j) r' w' ∧ (i ≤ j ≤ i + n)%nat ∧ (any_port laddr = false → j = i)) w1.
Proof.
  induction n as [|n IH]; intros i r Hn Hf Hs Hi Ht w1 Ha; [apply wpd_ret; split_and!; [done|lia..|done]|]. cbn [dialTCP_loop].
  assert (attempted w (ats i) r w1 ∧ (i ≤ i ≤ i + S n)%nat ∧ (any_port laddr = false → i = i)) as Hstop by (split_and!; [done|lia..|done]).
  destruct (any_port laddr) eqn:Ep; [|by apply wpd_ret].
  assert (∃ b, selfConnect r = Some b) as [b ->].
  { destruct r as [|c]; [by eexists|]. destruct (Ht c eq_refl) as [T1 T2]. simpl.
    destruct (nf_localAddr c) as [[]|], (nf_remoteAddr c) as [[]|]; try done; by eexists. }
  destruct (b || spuriousENOTAVAIL r); [|by apply wpd_ret]. apply wpd_bind.
  eapply (wpd_mono _ _ (λ _ w', w' = w)).
  { destruct r as [e|c]; [by apply wpd_ret|]. apply wpd_modify. destruct Ha as (fd&E&Hc&H0&Hd&_&->).
    destruct (Hf i fd E) as (?&?&?). rewrite netFD_Close_new by (done || by rewrite Hc). rewrite Hc. by apply net_close. }
  intros _ w' ->. apply wpd_bind. eapply wpd_mono; [apply internetSocket_ok; [done..|apply Hs; lia|done]|]. intros r' w' [Ha' Ht'].
  eapply wpd_mono; [apply (IH (S i) r'); try done; intros; apply Hs; lia|]. intros [j r''] w'' (?&?&Hj). split_and!; [done|lia..|done].
Qed.

Lemma sd_dialTCP_ok ats network laddr raddr w :
  network ≠ EmptyString → (∀ i, fresh_fd w (ats i)) → (∀ i, (i ≤ 2)%nat → settles (ats i) = true ∨ D) →
  (∀ i, inet_answers (ats i)) →
  wpd D (sd_dialTCP interface epoll_add zerocopy ats network laddr (Some raddr))
    (λ '(i, r) w', accounted w r w' ∧ (i ≤ 2)%nat ∧ (any_port laddr = false → i = 0%nat)) w.
Proof.
  intros Hn Hf Hs Hi. unfold sd_dialTCP. apply wpd_bind.
  eapply wpd_mono; [apply internetSocket_ok; [done..|apply Hs; lia|done]|]. intros r w1 [Ha Ht].
  apply wpd_bind. eapply wpd_mono; [by apply (dialTCP_loop_ok _ _ _ _ w)|]. intros [i r'] w2 (Ha'&Hle&Hp).
  destruct r' as [e|n]; [apply wpd_ret; split_and!; [done|lia|done]|]. apply wpd_bind.
  pose proof Ha' as (fd&_&E&_&_&_&->). eapply wpd_mono; [rewrite <- E; eapply newConnection_ok; [apply (Hf i)|by rewrite E]|].
  intros r'' w3 H. apply wpd_ret. split_and!; [done|lia|done].
Qed.

Lemma tcp_nonempty network : network ∈ ["tcp"; "tcp4"; "tcp6"]%string → network ≠ EmptyString.
Proof. intros Hnet ->. rewrite !elem_of_cons, elem_of_nil in Hnet. naive_solver. Qed.

Lemma DialTCP_ok ats network laddr raddr w : network ∈ ["tcp"; "tcp4"; "tcp6"]%string →
  (∀ i, fresh_fd w (ats i)) → (∀ i, (i ≤ 2)%nat → settles (ats i) = true ∨ D) → (∀ i, inet_answers (ats i)) →
  wpd D (DialTCP interface epoll_add zerocopy ats network laddr (Some raddr)) (accounted w) w.
Proof.
  intros Hnet Hf Hs Hi. unfold DialTCP. rewrite decide_True by done. apply wpd_bind.
  eapply wpd_mono; [apply sd_dialTCP_ok; [by apply tcp_nonempty|done..]|]. intros [i r] w' [? _]. by apply wpd_ret.
Qed.

(** The network and the address that d.dialTCP dials for an IP. *)
Definition ip_network (ip : IP) : string :=
  if match ip with None => false | Some _ => bool_decide (To4 ip = None) end then "tcp6" else "tcp".
Definition dial_ip (ats : nat → attempt) (port : Z) (x : IP * string) : M net (derr + connection) :=
  DialTCP interface epoll_add zerocopy ats (ip_network x.1) None (Some (MkTCPAddr x.1 port x.2)).

Lemma dial_ip_ok ats port x w : (∀ i, fresh_fd w (ats i)) → (∀ i, (i ≤ 2)%nat → settles (ats i) = true ∨ D) → (∀ i, inet_answers (ats i)) →
  wpd D (dial_ip ats port x) (accounted w) w.
Proof.
  intros. apply DialTCP_ok; [|done..]. unfold ip_network. destruct (match x.1 with None => _ | _ => _ end); [right; right; left|left].
Qed.

Lemma dial_addrs_ok ats ctx_done port l : ∀ k firstErr cell w,
  (∀ k i, fresh_fd w (ats k i)) → (∀ k i, (i ≤ 2)%nat → settles (ats k i) = true ∨ D) → (∀ k i, inet_answers (ats k i)) →
  (∀ k, ctx_done k = false) →
  wpd D (dial_addrs interface epoll_add zerocopy ats ctx_done port k l firstErr cell)
    (λ '(r, cell') w', accounted w r w' ∧ ∀ e, r = inl e →
       cell' = default cell ((λ x, MkTCPAddr x.1 port x.2) <$> last l) ∧
       match firstErr, l with
       | Some e0, _ => e = e0
       | None, [] => e = DMissingAddress
       | None, x :: _ => dial_ip (ats k) port x w = Ret (inl e, w)
       end) w.
Proof.
  induction l as [|[ip zone] l IH]; intros k firstErr cell w Hf Hs Hi Hd.
  { apply wpd_ret. split; [done|]. intros e [= <-]. split; [done|]. by destruct firstErr. }
  cbn [dial_addrs]. apply wpd_bind. fold (ip_network ip).
  pose proof (dial_ip_ok (ats k) port (ip, zone) w (Hf k) (Hs k) (Hi k)) as Ha. unfold wpd in Ha |- *.
  destruct (dial_ip (ats k) port (ip, zone) w) as [[r w']| |] eqn:E; unfold dial_ip in E; cbn [fst snd] in E; rewrite E; [|done..].
  destruct r as [e|c]; [|by split].
  simpl in Ha. subst w'. rewrite Hd.
  eapply (wpd_mono _ _ _ _ _ (IH (S k) (Some (default e firstErr)) (MkTCPAddr ip port zone) w Hf Hs Hi Hd)).
  intros [r cell'] w' [H1 H2]. split; [done|]. intros e' Er. destruct (H2 e' Er) as [Hc He]. split.
  - rewrite Hc, last_cons. by destruct (last l).
  - destruct firstErr; simpl in He; [done|]. subst e'. done.
Qed.

Lemma dial_addrs_any ats ctx_done port l : ∀ k firstErr cell w,
  (∀ k i, fresh_fd w (ats k i)) → (∀ k i, (i ≤ 2)%nat → settles (ats k i) = true ∨ D) → (∀ k i, inet_answers (ats k i)) →
  wpd D (dial_addrs interface epoll_add zerocopy ats ctx_done port k l firstErr cell) (λ r w', accounted w r.1 w') w.
Proof.
  induction l as [|[ip zone] l IH]; intros k firstErr cell w Hf Hs Hi; [by apply wpd_ret|].
  cbn [dial_addrs]. apply wpd_bind. fold (ip_network ip).
  eapply wpd_mono; [exact (dial_ip_ok (ats k) port (ip, zone) w (Hf k) (Hs k) (Hi k))|]. intros [e|c] w' Ha; [|by apply wpd_ret].
  simpl in Ha. subst w'. destruct (ctx_done k); [by apply wpd_ret|]. by apply IH.
Qed.

Lemma DialUnix_ok a network laddr raddr w : u_Name raddr ≠ EmptyString ∨ laddr = None → fresh_fd w a → settles a = true ∨ D →
  wpd D (DialUnix interface epoll_add zerocopy a network laddr (Some raddr)) (accounted w) w.
Proof.
  intros Hn Hf Hs. unfold DialUnix. destruct (decide _); [|by apply wpd_ret]. apply wpd_bind.
  eapply (wpd_mono _ _ (λ r w', attempted w a r w')).
  - unfold unixSocket. destruct (if decide (network = "unix"%string) then _ else _); [|by apply wpd_ret]. cbn [isWildcard].
    destruct (decide (u_Name raddr = EmptyString)) as [En|En].
    { destruct Hn as [?| ->]; [done|]. rewrite (bool_decide_eq_true_2 (u_Name raddr = _)) by done. cbn.
      rewrite orb_true_r. by apply wpd_ret. }
    rewrite (bool_decide_eq_false_2 (u_Name raddr = _)) by done.
    rewrite (bool_decide_eq_false_2 (Some (SUnix (Some raddr)) = None)) by done.
    eapply wpd_mono; [by apply socket_ok|]. by intros r w' [? _].
  - intros [err|n] w' Ha; [by apply wpd_ret|]. pose proof Ha as (fd&_&E&_&_&_&->).
    rewrite <- E. eapply newConnection_ok; [done|by rewrite E].
Qed.

Lemma DialConnection_ok rs ats ctx_done network address w :
  (∀ k i, fresh_fd w (ats k i)) → (∀ k i, (i ≤ 2)%nat → settles (ats k i) = true ∨ D) →
  (network ∈ ["tcp"; "tcp4"; "tcp6"]%string → ∀ k i, inet_answers (ats k i)) →
  wpd D (DialConnection interface epoll_add zerocopy rs ats ctx_done network address) (accounted w) w.
Proof.
  intros Hf Hs Hi. unfold DialConnection.
  destruct (decide _); [|destruct (decide _); [apply DialUnix_ok; [by right|done|apply Hs; lia]|by apply wpd_ret]].
  unfold d_dialTCP. destruct (rs_split rs address) as [|[host port]]; [by apply wpd_ret|].
  destruct (rs_port rs network port); [by apply wpd_ret|]. destruct (if decide (host = EmptyString) then _ else _) as [|[|x l]]; [by apply wpd_ret..|].
  apply wpd_bind. eapply wpd_mono; [apply dial_addrs_any; auto|]. intros [r cell] w' H. by apply wpd_ret.
Qed.
End accounts.
End ends_or.

Section theorems.
Context (interface : Z → option string) (epoll_add : Z → option Z) (zerocopy : option Z * option Z).

(** C24: DialTCP, for a network and a remote address of TCP, accounts for its
    descriptors, whatever the kernel answers to its attempts, provided that
    socket(2) returns new descriptors and that getsockname and getpeername of a
    socket of TCP answer no address of another family: it does not panic, and
    when it returns, then with an error and no descriptor, registration or
    operator that was not there before, or with a connection that is active and
    connected and whose descriptor is the only new one, open and registered.  It
    makes at most three attempts, and one when the local port is given.  It does
    not return only when the loop of connect of one of these attempts never
    ends: the kernel goes on reporting neither an error nor a peer, and the
    context does not end. *)
Theorem DialTCP_accounts ats network laddr raddr w :
  network ∈ ["tcp"; "tcp4"; "tcp6"]%string → (∀ i, fresh_fd w (ats i)) → (∀ i, inet_answers (ats i)) →
  match sd_dialTCP interface epoll_add zerocopy ats network laddr (Some raddr) w with
  | Ret ((i, r), w') =>
      DialTCP interface epoll_add zerocopy ats network laddr (Some raddr) w = Ret (r, w') ∧
      accounted w r w' ∧ (i ≤ 2)%nat ∧ (any_port laddr = false → i = 0%nat)
  | Panic => False
  | OutOfFuel =>
      DialTCP interface epoll_add zerocopy ats network laddr (Some raddr) w = OutOfFuel ∧
      ∃ i, (i ≤ 2)%nat ∧ settles (ats i) = false
  end.
Proof.
  intros Hnet Hf Hi.
  pose proof (sd_dialTCP_ok (∃ i, (i ≤ 2)%nat ∧ settles (ats i) = false) interface epoll_add zerocopy ats network laddr raddr w
    (tcp_nonempty _ Hnet) Hf) as H. unfold wpd in H.
  unfold DialTCP. rewrite decide_True by done. unfold mbind, M_bind.
  destruct (sd_dialTCP _ _ _ _ _ _ _ _) as [[[i r] w']| |].
  - split; [done|]. apply H; [|done]. intros j Hj. destruct (settles (ats j)) eqn:E; [by left|right; eauto].
  - apply H; [|done]. intros j Hj. destruct (settles (ats j)) eqn:E; [by left|right; eauto].
  - split; [done|]. apply H; [|done]. intros j Hj. destruct (settles (ats j)) eqn:E; [by left|right; eauto].
Qed.

(** C13: DialConnection, for every network and address, whatever the resolver and
    the kernel answer and whenever the context ends, leaves nothing behind but
    the connection it returns, provided that socket(2) returns new descriptors
    and, for the networks of TCP, that getsockname and getpeername answer no
    address of another family: it does not panic, and when it returns, then with
    an error and nothing, or with a connection that is active and connected and
    whose descriptor is the only new one, open and registered.  It does not
    return only when the loop of connect of one of its attempts never ends. *)
Theorem DialConnection_accounts rs ats ctx_done network address w :
  (∀ k i, fresh_fd w (ats k i)) →
  (network ∈ ["tcp"; "tcp4"; "tcp6"]%string → ∀ k i, inet_answers (ats k i)) →
  match DialConnection interface epoll_add zerocopy rs ats ctx_done network address w with
  | Ret (r, w') => accounted w r w'
  | Panic => False
  | OutOfFuel => ∃ k i, (i ≤ 2)%nat ∧ settles (ats k i) = false
  end.
Proof.
  intros Hf Hi. apply (DialConnection_ok (∃ k i, (i ≤ 2)%nat ∧ settles (ats k i) = false)); [done| |done].
  intros k i Hle. destruct (settles (ats k i)) eqn:E; [by left|right; eauto].
Qed.

(** The dialer tries the addresses of a host in turn, each with the network
    that suits it.  Unless connect waits for ever, it returns a connection and
    its descriptor, or an error and nothing.  The error is that of the first
    address, but the address it refers to is the variable of the loop, which
    by then holds the last one. *)
Theorem dialer_accounts ats ctx_done port x l w :
  (∀ k i, fresh_fd w (ats k i)) → (∀ k i, (i ≤ 2)%nat → settles (ats k i) = true) → (∀ k i, inet_answers (ats k i)) →
  (∀ k, ctx_done k = false) →
  ∃ r cell w', dial_addrs interface epoll_add zerocopy ats ctx_done port 0 (x :: l) None (MkTCPAddr None 0 EmptyString) w = Ret ((r, cell), w') ∧
    accounted w r w' ∧
    ∀ e, r = inl e → dial_ip interface epoll_add zerocopy (ats 0%nat) port x w = Ret (inl e, w) ∧
      cell = let y := default x (last l) in MkTCPAddr y.1 port y.2.
Proof.
  intros Hf Hs Hi Hd.
  pose proof (dial_addrs_ok False interface epoll_add zerocopy ats ctx_done port (x :: l) 0 None (MkTCPAddr None 0 EmptyString) w Hf
    ltac:(naive_solver) Hi Hd) as H. unfold wpd in H.
  destruct (dial_addrs _ _ _ _ _ _ _ _ _ _ _) as [[[r cell] w']| |]; [|done..]. destruct H as [Ha He].
  exists r, cell, w'. split_and!; try done. intros e Er. destruct (He e Er) as [Hc H]. split; [done|].
  rewrite Hc, last_cons. by destruct (last l).
Qed.
End theorems.

(** ** Examples *)

(** connect waits, and the poller reports that it is done. *)
Definition demo_peer : option Sockaddr := Some (SockaddrInet4 80 [127; 0; 0; 1]).
Definition demo_attempt : attempt :=
  Attempt (inr 7) None None None (Some EINPROGRESS) None None
    [WaitRound WakeWrite (inr 0) None; WaitRound WakeWrite (inr 0) demo_peer]
    (Some (SockaddrInet4 5000 [127; 0; 0; 1])) None.
(** No route to the host. *)
Definition demo_refused : attempt := Attempt (inr 7) None None None (Some 113) None None [] None None.
Definition demo_world : net := Net {[0; 1; 2]} ∅ 0 [].

Lemma demo_fresh : fresh_fd demo_world demo_attempt ∧ settles demo_attempt = true ∧ inet_answers demo_attempt.
Proof.
  split_and!; [|by vm_compute|by vm_compute; split_and!; repeat constructor].
  intros fd [= <-]. split_and!; [done| |apply not_elem_of_empty]. simpl. set_solver.
Qed.

Lemma demo_refused_fresh : fresh_fd demo_world demo_refused ∧ settles demo_refused = true ∧ inet_answers demo_refused.
Proof.
  split_and!; [|by vm_compute|by vm_compute; split_and!; repeat constructor].
  intros fd [= <-]. split_and!; [done| |apply not_elem_of_empty]. simpl. set_solver.
Qed.

Definition no_interface (_ : Z) : option string := None.
Definition epoll_ok (_ : Z) : option Z := None.
Definition demo_raddr : TCPAddr := MkTCPAddr (Some [127; 0; 0; 1]) 80 EmptyString.

Lemma DialTCP_accounts_witness :
  match sd_dialTCP no_interface epoll_ok (None, None) (λ _, demo_attempt) "tcp" None (Some demo_raddr) demo_world with
  | Ret ((i, r), w') =>
      DialTCP no_interface epoll_ok (None, None) (λ _, demo_attempt) "tcp" None (Some demo_raddr) demo_world = Ret (r, w') ∧
      accounted demo_world r w' ∧ (i ≤ 2)%nat ∧ (any_port None = false → i = 0%nat)
  | Panic => False
  | OutOfFuel =>
      DialTCP no_interface epoll_ok (None, None) (λ _, demo_attempt) "tcp" None (Some demo_raddr) demo_world = OutOfFuel ∧
      ∃ i, (i ≤ 2)%nat ∧ settles demo_attempt = false
  end.
Proof.
  apply (DialTCP_accounts no_interface epoll_ok (None, None) (λ _, demo_attempt) "tcp" None demo_raddr demo_world); [left|intros; apply demo_fresh..].
Defined.

Definition demo_ips : list (IP * string) := [(IPv6loopback, EmptyString); (Some [10; 0; 0; 1], EmptyString)].

Lemma dialer_accounts_witness :
  ∃ r cell w', dial_addrs no_interface epoll_ok (None, None) (λ _ _, demo_refused) (λ _, false) 80 0 demo_ips None
      (MkTCPAddr None 0 EmptyString) demo_world = Ret ((r, cell), w') ∧
    accounted demo_world r w' ∧
    ∀ e, r = inl e → dial_ip no_interface epoll_ok (None, None) (λ _, demo_refused) 80 (IPv6loopback, EmptyString) demo_world = Ret (inl e, demo_world) ∧
      cell = let y := default (IPv6loopback, EmptyString) (last [(Some [10; 0; 0; 1], EmptyString)]) in MkTCPAddr y.1 80 y.2.
Proof.
  apply (dialer_accounts no_interface epoll_ok (None, None) (λ _ _, demo_refused) (λ _, false) 80 (IPv6loopback, EmptyString)
    [(Some [10; 0; 0; 1], EmptyString)] demo_world); [intros; apply demo_refused_fresh..|done].
Defined.

Definition demo_resolver : resolver := Resolver (λ a, inr (a, "80"%string)) (λ _ _, inr 80) (λ _, inr demo_ips).

(** A unix socket, to which getsockname answers with an address of unix. *)
Definition demo_unix : attempt :=
  Attempt (inr 7) None None None None None None [] (Some (SockaddrUnix EmptyString)) (Some (SockaddrUnix "/tmp/s")).

Lemma demo_unix_fresh : fresh_fd demo_world demo_unix.
Proof. intros fd [= <-]. split_and!; [done| |apply not_elem_of_empty]. simpl. set_solver. Qed.

Definition demo_dial (a : attempt) (network address : string) : outcome ((derr + connection) * net) :=
  DialConnection no_interface epoll_ok (None, None) demo_resolver (λ _ _, a) (λ _, false) network address demo_world.
Definition demo_dialed (a : attempt) (network address : string) : Prop :=
  match demo_dial a network address with
  | Ret (r, w') => accounted demo_world r w'
  | Panic => False
  | OutOfFuel => ∃ k i : nat, (i ≤ 2)%nat ∧ settles a = false
  end.

Lemma DialConnection_accounts_witness :
  demo_dialed demo_attempt "tcp" "localhost" ∧ demo_dialed demo_unix "unix" "/tmp/s" ∧
  match demo_dial demo_unix "unix" "/tmp/s" with Ret (inr c, _) => IsActive c = true | _ => False end.
Proof.
  split_and!.
  - apply (DialConnection_accounts no_interface epoll_ok (None, None) demo_resolver (λ _ _, demo_attempt) (λ _, false) "tcp" "localhost" demo_world);
      intros; apply demo_fresh.
  - apply (DialConnection_accounts no_interface epoll_ok (None, None) demo_resolver (λ _ _, demo_unix) (λ _, false) "unix" "/tmp/s" demo_world).
    + intros. apply demo_unix_fresh.
    + intros Hn. exfalso. rewrite !elem_of_cons, elem_of_nil in Hn. naive_solver.
  - vm_compute. reflexivity.
Defined.

(** The two errors are told apart by the address they name, which is wrong. *)
Lemma first_error_names_last_address :
  ∃ w', dial_addrs no_interface epoll_ok (None, None) (λ _ _, demo_refused) (λ _, false) 80 0 demo_ips None
    (MkTCPAddr None 0 EmptyString) demo_world = Ret ((inl (DSys "connect" 113), MkTCPAddr (Some [10; 0; 0; 1]) 80 EmptyString), w').
Proof. by eexists; vm_compute. Qed.

(** A datagram socket that is bound and has no remote address: connect is
    called with the nil address. *)
Lemma dial_unixgram_panics :
  DialUnix no_interface epoll_ok (None, None) demo_attempt "unixgram" (Some (MkUnixAddr "/tmp/a" "unixgram"))
    (Some (MkUnixAddr EmptyString "unixgram")) demo_world = Panic.
Proof. by vm_compute. Qed.

