(* ===== verification/Listener.v ===== *)
(** * Listeners

    Models src/net_listener.go, and onAccept of src/netpoll_server.go up to the
    asynchronous onConnect: the descriptors that a listener holds, the
    connections it accepts, and what they give back.  What package net and the
    kernel answer is a parameter. *)

From stdpp Require Import strings.
From S2P Require Import Prelude Errors Locker NetAddr ConnLife NetDial.

Open Scope Z_scope.

(** A [net.Listener] of another package: its type, its descriptor and address. *)
Inductive gkind := GTCPListener | GUnixListener | GOther.
Record glistener := GListener { g_kind : gkind; g_fd : Z; g_addr : Addr }.

(** [ln_pconn], [ln_file]: descriptors; [ln_closed]: whether file, ln and pconn
    have been closed, after which their Close does nothing. *)
Record listener := Listener_ {
  ln_fd : Z;
  ln_addr : Addr;
  ln_ln : option glistener;
  ln_pconn : option Z;
  ln_file : option Z;
  ln_closed : bool;
}.

Inductive lerr := LSys (e : Z) | LType.

(** ** Making a listener *)

(** [ln.parseFD()]; [file]: the answer of File(), which duplicates the
    descriptor. *)
Definition parseFD (file : Z + Z) (ln : listener) (w : net) : option lerr * listener * net :=
  match ln_ln ln with
  | Some (GListener (GTCPListener | GUnixListener) _ _) =>
      match file with
      | inl e => (Some (LSys e), ln, w)
      | inr fd => (None, Listener_ fd (ln_addr ln) (ln_ln ln) (ln_pconn ln) (Some fd) (ln_closed ln), sys_open fd w)
      end
  | _ => (Some LType, ln, w)
  end.

(** A [net.Listener]: one of this package, or another. *)
Inductive netListener := NOwn (l : listener) | NGo (l : glistener).

Definition ConvertListener (file : Z + Z) (nonblock : option Z) (l : netListener) (w : net) :
    option listener * option lerr * net :=
  match l with
  | NOwn tmp => (Some tmp, None, w)
  | NGo l =>
      let '(err, ln, w) := parseFD file (Listener_ 0 (g_addr l) (Some l) None None false) w in
      match err with
      | Some _ => (None, err, w)
      | None => (Some ln, LSys <$> nonblock, w)
      end
  end.

(** [packet]: the answer of ListenPacket, a UDPConn. *)
Definition udpListener (packet : Z + Z * Addr) (file : Z + Z) (nonblock : option Z) (w : net) :
    option listener * option lerr * net :=
  match packet with
  | inl e => (None, Some (LSys e), w)
  | inr (pfd, addr) =>
      let w := sys_open pfd w in
      match file with
      | inl e => (None, Some (LSys e), w)
      | inr fd => (Some (Listener_ fd addr None (Some pfd) (Some fd) false), LSys <$> nonblock, sys_open fd w)
      end
  end.

(** [listen]: the answer of net.Listen, whose listener has an open descriptor. *)
Definition CreateListener (network : string) (packet : Z + Z * Addr) (listen : Z + glistener) (file : Z + Z)
    (nonblock : option Z) (w : net) : option listener * option lerr * net :=
  if bool_decide (network = "udp"%string) then udpListener packet file nonblock w
  else
    match listen with
    | inl e => (None, Some (LSys e), w)
    | inr ln => ConvertListener file nonblock (NGo ln) (sys_open (g_fd ln) w)
    end.

(** [ln.Close()]; [between]: what others do after the first close. *)
Definition listener_Close (between : net → net) (ln : listener) (w : net) : listener * net :=
  let w := if ln_fd ln =? 0 then w else sys_close (ln_fd ln) w in
  let w := between w in
  let close_if (fd : option Z) w := match fd with Some fd => if ln_closed ln then w else sys_close fd w | None => w end in
  let w := close_if (ln_file ln) w in
  let w := close_if (g_fd <$> ln_ln ln) w in
  let w := close_if (ln_pconn ln) w in
  (Listener_ (ln_fd ln) (ln_addr ln) (ln_ln ln) (ln_pconn ln) (ln_file ln) true, w).

(** ** Accepting *)

Definition EWOULDBLOCK : Z := EAGAIN.

Definition Network (a : Addr) : string := match a with ATCP _ => "tcp" | AUnix a => u_Net a end.

Inductive aerr := AESys (e : Z) | AEExc (e : option error).

Section accept.
(** [net.InterfaceByIndex], and the texts of the system's errors *)
Context (interface : Z → option string) (strerror : Z → string).

Definition UDPAccept : option netFD * option aerr := (None, Some (AEExc (Exception strerror 0 (Errno ErrUnsupported) "UDP"))).

(** [ln.Accept()]; [ans]: the answer of accept(2). *)
Definition listener_Accept (ln : listener) (ans : Z + Z * option Sockaddr) (w : net) : option netFD * option aerr * net :=
  match ln_pconn ln with
  | Some _ => (UDPAccept, w)
  | None =>
      match ans with
      | inl e => if (e =? EAGAIN) || (e =? EWOULDBLOCK) then (None, None, w) else (None, Some (AESys e), w)
      | inr (fd, sa) =>
          (Some (NetFD fd 0 false false 0 0 false (Network (ln_addr ln)) (Some (ln_addr ln)) (sockaddrToAddr interface sa) false),
           None, sys_open fd w)
      end
  end.

Context (epoll_add : Z → option Z) (zerocopy : option Z * option Z).

(** [s.onAccept(conn)] for a new connection: whether it is stored in the map;
    [srv]: the callback that deletes it from there. *)
Definition conn_onAccept (srv : nat) (opts : options) (n : netFD) (w : net) : outcome (bool * cw) :=
  match init epoll_add zerocopy (CNetFD n) (Some opts) w with
  | Ret (_, s) =>
      if IsActive (co s) then
        match AddCloseCallback (CUser srv) s with
        | Ret (_, s) => Ret (true, s)
        | Panic => Panic
        | OutOfFuel => OutOfFuel
        end
      else Ret (false, s)
  | Panic => Panic
  | OutOfFuel => OutOfFuel
  end.
End accept.

(** ** What they do *)

(** CreateListener accounts for the descriptors.  When it returns a
    listener, with or without an error, Close of that listener closes what was
    opened; when it returns none, there is an error, and either nothing is open
    or the descriptor of the listener of package net, and that only when its
    type is not supported or its descriptor could not be duplicated. *)
Theorem listener_accounts network packet listen file nonblock w :
  (∀ p, packet = inr p → p.1 ∉ n_open w ∪ n_polled w) → (∀ l, listen = inr l → g_fd l ∉ n_open w ∪ n_polled w) →
  (∀ fd, file = inr fd → fd ≠ 0 ∧ (fd ∉ n_open w ∪ n_polled w)) →
  let '(r, err, w') := CreateListener network packet listen file nonblock w in
  match r with
  | Some ln => (listener_Close id ln w').2 = w ∧ err = LSys <$> nonblock
  | None => (∃ e, err = Some e) ∧
      (w' = w ∨ ∃ fd, w' = sys_open fd w ∧ (err = Some LType ∨ ∃ e, file = inl e ∧ err = Some (LSys e)))
  end.
Proof.
  intros Hp Hl Hf. unfold CreateListener.
  assert (∀ fd g, g ∉ n_open w ∪ n_polled w → fd ∉ n_open w ∪ n_polled w →
    sys_close g (sys_close fd (sys_close fd (sys_open fd (sys_open g w)))) = w) as Hback.
  { intros fd g H1 H2. destruct w. unfold sys_close, sys_open. simpl in *. f_equal; set_solver. }
  destruct (bool_decide _).
  - destruct packet as [e|[pfd addr]]; simpl; [naive_solver|]. specialize (Hp _ eq_refl).
    destruct file as [e|fd]; simpl; [naive_solver|]. destruct (Hf fd eq_refl) as [H0 H1].
    unfold listener_Close. simpl. rewrite (proj2 (Z.eqb_neq _ _) H0). split; [|done]. by apply Hback.
  - destruct listen as [e|[k g a]]; simpl; [naive_solver|]. specialize (Hl _ eq_refl). simpl in Hl.
    destruct k; simpl; [| |naive_solver]; (destruct file as [e|fd]; simpl; [naive_solver|]);
      destruct (Hf fd eq_refl) as [H0 H1]; unfold listener_Close; simpl;
      rewrite (proj2 (Z.eqb_neq _ _) H0); (split; [|done]); by apply Hback.
Qed.

(** When others open a descriptor between the two closes of the same number,
    or between two calls of Close, it is closed. *)
Lemma listener_closes_others ln fd w : ln_file ln = Some fd → ln_closed ln = false →
  (fd ∉ n_open (listener_Close (sys_open fd) ln w).2) ∧
  (ln_fd ln = fd → fd ≠ 0 →
    let '(ln', w') := listener_Close id ln w in fd ∉ n_open (listener_Close id ln' (sys_open fd w')).2).
Proof.
  intros Hf Hc. unfold listener_Close. rewrite Hf, Hc. simpl. split.
  - destruct (ln_ln ln), (ln_pconn ln); simpl; set_solver.
  - intros -> Hz. rewrite (proj2 (Z.eqb_neq _ _) Hz). simpl. destruct (ln_ln ln), (ln_pconn ln); simpl; set_solver.
Qed.

Lemma held_add id w fd reg d hup us s : held w fd reg d hup us s →
  ∃ s', AddCloseCallback (CUser id) s = Ret (tt, s') ∧ held w fd reg d hup (id :: us) s' ∧ IsActive (co s') = IsActive (co s).
Proof.
  intros []. eexists. split; [done|]. split; [|done]. constructor; try done. simpl. by rewrite h_callbacks.
Qed.

Lemma onAccept_released epoll_add zerocopy srv opts n w w0 fd r s d us :
  init epoll_add zerocopy (CNetFD n) (Some opts) w = Ret (r, s) → released w0 fd d us s →
  conn_onAccept epoll_add zerocopy srv opts n w = Ret (false, s).
Proof. intros E H. unfold conn_onAccept. by rewrite E, (released_inactive _ _ _ _ _ H). Qed.

(** C11: What a server accepts it gives back.  A connection that accept(2)
    returns has the address of its peer.  onAccept puts it in the server's map
    exactly when OnPrepare has not ended it and the poller took it; then any
    sequence of Close, Detach and hang-ups that ends it leaves the descriptors,
    the poller and the operators as they were before the accept, and the
    callback that removes it from the map has run once, before those that
    OnPrepare added.  Otherwise they are so already, and the callbacks that
    OnPrepare added have run.  The descriptor stays open only when the
    connection was ended by a Detach, of OnPrepare or later; when the poller
    does not take the connection, the descriptor is closed. *)
Theorem accepted_given_back interface strerror epoll_add zerocopy srv opts ln fd sa w :
  ln_pconn ln = None → 2 < fd → fd ∉ n_open w → fd ∉ n_polled w →
  let '(ended, us) := prepared (prepare_acts (Some opts)) [] in
  ∃ n stored s,
    listener_Accept interface strerror ln (inr (fd, sa)) w = (Some n, None, sys_open fd w) ∧
    nf_remoteAddr n = sockaddrToAddr interface sa ∧
    conn_onAccept epoll_add zerocopy srv opts n (sys_open fd w) = Ret (stored, s) ∧
    stored = bool_decide (ended = None ∧ epoll_add fd = None) ∧
    if stored : bool then
      IsActive (co s) = true ∧
      ∀ l, existsb (ends (co s)) l = true → ∃ s', lives_run l s = Ret (tt, s') ∧
        nw s' = set_ran (n_ran w ++ srv :: us) (if detached_by (co s) l then sys_open fd w else w)
    else
      IsActive (co s) = false ∧
      nw s = set_ran (n_ran w ++ us) (if bool_decide (ended = Some true) then sys_open fd w else w).
Proof.
  intros Hp Hfd Ho Hn. unfold listener_Accept. rewrite Hp.
  assert (∀ d : bool, n_open (if d then sys_open fd w else w) = if d then n_open (sys_open fd w) else n_open (sys_open fd w) ∖ {[fd]}) as Hopen.
  { intros []; [done|]. simpl. set_solver. }
  assert (∀ us (d : bool), Net (if d then n_open (sys_open fd w) else n_open (sys_open fd w) ∖ {[fd]}) (n_polled w) (n_ops w) (n_ran w ++ us)
    = set_ran (n_ran w ++ us) (if d then sys_open fd w else w)) as Hnet.
  { intros us d. rewrite <- Hopen. by destruct d. }
  set (n := NetFD fd 0 _ _ _ _ _ _ _ _ _).
  destruct (init_ok epoll_add zerocopy (CNetFD n) (Some opts) (sys_open fd w)) as (r&s&E&H); [done..|].
  unfold init_end in H. simpl nf_fd in H. destruct (prepared _ _) as [ended us].
  destruct ended as [d|]; [|destruct (epoll_add fd) as [e|]]; destruct H as [-> H]; exists n.
  - exists false, s. split_and!; try done; [by eapply onAccept_released|by eapply released_inactive|].
    rewrite (r_net _ _ _ _ _ H). change (n_ran (sys_open fd w)) with (n_ran w). rewrite <- Hnet. by destruct d.
  - exists false, s. split_and!; try done; [by eapply onAccept_released|by eapply released_inactive|].
    rewrite (r_net _ _ _ _ _ H). apply (Hnet us false).
  - unfold conn_onAccept. rewrite E, (held_active _ _ _ _ _ _ H). destruct (held_add srv _ _ _ _ _ _ _ H) as (s1&->&H1&Ha).
    exists true, s1. split_and!; try done; [by rewrite Ha, (held_active _ _ _ _ _ _ H)|].
    intros l Hl. destruct (lives_ends fd (sys_open fd w) (srv :: us) s1 l Hfd Hn H1) as (s'&El&Ew).
    exists s'. split; [done|]. rewrite Ew, Hl. apply Hnet.
Qed.

(** ** Examples *)

Definition demo_gl : glistener := GListener GTCPListener 5 (ATCP (MkTCPAddr IPv4zero 80 EmptyString)).

Lemma listener_accounts_witness :
  let '(r, err, w') := CreateListener "tcp" (inl 1) (inr demo_gl) (inr 6) None (Net ∅ ∅ 0 []) in
  match r with
  | Some ln => (listener_Close id ln w').2 = Net ∅ ∅ 0 [] ∧ err = LSys <$> None
  | None => (∃ e, err = Some e) ∧
      (w' = Net ∅ ∅ 0 [] ∨ ∃ fd, w' = sys_open fd (Net ∅ ∅ 0 []) ∧ (err = Some LType ∨ ∃ e, inr 6 = inl e ∧ err = Some (LSys e)))
  end.
Proof.
  apply (listener_accounts "tcp" (inl 1) (inr demo_gl) (inr 6) None (Net ∅ ∅ 0 [])).
  - by intros p [=].
  - intros l [= <-]. simpl. set_solver.
  - intros fd [= <-]. simpl. split; [done|set_solver].
Defined.

Definition demo_listener : listener := Listener_ 6 (g_addr demo_gl) (Some demo_gl) None (Some 6) false.

(** A connection that is stored, and ended by Close after a hang-up; and one that
    OnPrepare detaches. *)
Definition demo_accepted (opts : options) (us : list nat) (stored0 : bool) (w0 : net) : Prop :=
  ∃ n stored s,
    listener_Accept (λ _, None) (λ _, EmptyString) demo_listener (inr (7, Some (SockaddrInet4 4242 [10; 0; 0; 1]))) (Net {[5; 6]} {[6]} 1 []) =
      (Some n, None, sys_open 7 (Net {[5; 6]} {[6]} 1 [])) ∧
    nf_remoteAddr n = sockaddrToAddr (λ _, None) (Some (SockaddrInet4 4242 [10; 0; 0; 1])) ∧
    conn_onAccept (λ _, None) (None, None) 9 opts n (sys_open 7 (Net {[5; 6]} {[6]} 1 [])) = Ret (stored, s) ∧
    stored = stored0 ∧
    if stored : bool then
      IsActive (co s) = true ∧
      ∀ l, existsb (ends (co s)) l = true → ∃ s', lives_run l s = Ret (tt, s') ∧
        nw s' = set_ran ([] ++ 9%nat :: us) (if detached_by (co s) l then sys_open 7 (Net {[5; 6]} {[6]} 1 []) else Net {[5; 6]} {[6]} 1 [])
    else IsActive (co s) = false ∧ nw s = set_ran ([] ++ us) w0.

Definition detach_options : options := new_options false [WithOnPrepare (Some ([UAddCloseCallback 1; UDetach], false))].

Lemma accepted_given_back_witness :
  demo_accepted demo_options [2; 1]%nat true (Net {[5; 6]} {[6]} 1 []) ∧
  demo_accepted detach_options [1]%nat false (sys_open 7 (Net {[5; 6]} {[6]} 1 [])).
Proof.
  split.
  - apply (accepted_given_back (λ _, None) (λ _, EmptyString) (λ _, None) (None, None) 9 demo_options demo_listener 7
      (Some (SockaddrInet4 4242 [10; 0; 0; 1])) (Net {[5; 6]} {[6]} 1 [])); [done|done|simpl; set_solver..].
  - apply (accepted_given_back (λ _, None) (λ _, EmptyString) (λ _, None) (None, None) 9 detach_options demo_listener 7
      (Some (SockaddrInet4 4242 [10; 0; 0; 1])) (Net {[5; 6]} {[6]} 1 [])); [done|done|simpl; set_solver..].
Defined.
